(* ===== verification/_CoqProject ===== *)
-Q . S2P
Prelude.v
LinkedTree.v
RBTree.v
RBTreeMem.v
RBTreeInsert.v
RBTreeRemove.v
RBTreeQuery.v
Heap.v
HeapMem.v
HeapPath.v
HeapCorrect.v
DList.v
DListCorrect.v
SList.v
SListCorrect.v
Base64.v
Varint.v
Url.v
Bswap.v
WsFrame.v
WsUtf8.v
BlockHash.v
Sha.v
Utils.v
WsHandshake.v
Interleave.v
Ring.v
RingBuf.v
Spsc.v
Wsq.v
Mpsc.v
Aes.v
AesModes.v
Parking.v
Mutex.v
WaitGroup.v
Sem.v
SemCorrect.v
ThrdWake.v
Channel.v
ChannelCorrect.v
GaloisField.v
LinearAlgebra.v
ReedSolomon.v
RsInvert.v
RsCorrect.v
RsShards.v
MuxFrame.v
Mux.v
MuxMemory.v
MuxFlow.v
MuxHandles.v
MuxPark.v
MuxSteps.v
MuxReader.v
MuxCorrect.v
KcpCodec.v
Kcp.v
KcpSender.v
KcpSend.v
KcpReceiver.v
KcpRecv.v
KcpInput.v
KcpFlush.v
KcpCorrect.v
