(* ===== verification/Prelude.v ===== *)
(** * Xylem: a verification development for the Xylem C library

    Xylem (src/) is a C library of containers, encodings, cryptography, a coroutine
    runtime with synchronisation primitives, and network protocols.  This development
    models its parts in Rocq, function by function under the names of the source, and
    proves that they do what their headers promise.

    ** How the code is modelled

    - Machine integers are [Z]; [u8] .. [u64] and [i32] (below) are the reductions of C
      and appear wherever an operation can leave its range.
    - Intrusive containers live in a store from addresses to node fields; code that
      follows null or dangling pointers fails in the monad [M] (below).  The theorems
      say that the operations return, so that no such access happens.
    - Functions with error codes return the code, an [option] or a sum; failing
      allocations are arguments where the code handles them.
    - Concurrent code is a set of atomic steps ([Interleave]): every access of a shared
      field, every section under a lock, every call of the blocking layer.  A schedule is
      any list of steps, and what is proved holds for all of them; the atomics of the code
      are sequentially consistent.  Ghost fields of such a state record what was sent,
      taken or granted, for the statements only.
    - Code outside src/ is a parameter: the comparators of the containers ([Comparator],
      [KeyComparator], [HeapOrder]), random bytes and time ([Utils], [AesModes]), the futex ([ThrdWake]).

    ** Parts, files and what is proved

    Containers.  [LinkedTree]: stores of tree nodes with separation of a tree from its
    context.  [RBTree], [RBTreeMem], [RBTreeInsert], [RBTreeRemove], [RBTreeQuery]:
    container/rbtree.c; insertion and removal terminate, keep order, colours and balance
    and change the set of keys as they should; look-up and traversal agree with the sorted
    sequence.  [Heap], [HeapMem], [HeapPath], [HeapCorrect]: container/heap.c; shape and
    heap order are kept, the root is least.  [DList], [DListCorrect]: list.c and queue.c
    refine sequences, for any number of lists in one memory.  [SList], [SListCorrect]:
    lifo.c and runtime/runq.c.  [Ring], [RingBuf]: xylem-ringbuf.c is a bounded queue of
    entries over wrapping positions.

    Lock-free queues.  [Spsc], [Wsq], [Mpsc]: spsc.c, runtime/wsq.c and mpsc.c.  In every
    interleaving each element is taken at most once, nothing is lost or invented, and
    order is kept where it is promised.  [Ring] is shared by the first two.

    Blocking.  [Parking]: the interface between the primitives and the scheduler (park,
    wake, commit callback) as the class [Parking], which the coroutine states of
    runtime/scheduler.c and the tokens of [ThrdWake] (sync/thrd-wake.c) implement.
    [Mutex], [WaitGroup], [Sem] with [SemCorrect], [Channel] with [ChannelCorrect]: the
    files of sync/ of these names, proved against the interface: mutual exclusion,
    conservation of tokens and messages, no lost wake-up, no use after the last
    reference.  The channel contains the steps of [Mpsc] and uses its invariant.

    Encodings.  [Base64], [Varint], [Url], [Bswap]: encoding/.  Round trips, sizes,
    canonical forms, behaviour on malformed input.  [GaloisField], [LinearAlgebra],
    [ReedSolomon], [RsInvert], [RsCorrect], [RsShards]: the erasure code of encoding/fec;
    the tables are a field, every choice of surviving rows is invertible, reconstruction
    returns the data exactly when enough shards are left.

    Cryptography.  [Aes], [AesModes]: FIPS 197 and the two modes.  [BlockHash], [Sha]:
    FIPS 180-4 and RFC 2104 for any division of the input into updates.  [Utils]: the
    pseudo-random generator does not repeat.

    WebSocket.  [WsFrame], [WsUtf8], [WsHandshake]: net/ws/ws-frame.c, ws-utf8.c and
    ws-handshake.c; frame headers round trip, the validator accepts exactly UTF-8, and
    both sides of the handshake agree on the accept value, though not with RFC 6455.

    Multiplexer.  [MuxFrame], [Mux], [MuxMemory], [MuxFlow], [MuxHandles], [MuxPark],
    [MuxSteps], [MuxReader], [MuxCorrect]: net/mux/.  Two sessions of one connection with
    their reader coroutines and any number of callers, which park and are made ready
    through the scheduler of [Parking].  Bytes of a stream arrive in order and unchanged,
    windows are respected, a stream is not used after it was freed and keeps exactly the
    references of its holders, but for one that is lost when a stream is closed after a
    reset, and a waiter with work is resumed.  The answers of the allocator are part of
    the model; the theorems exclude refusals where the code goes on as if it had memory.

    Reliable datagrams.  [KcpCodec], [Kcp]: net/rudp/kcp/ikcp.c, every operation of the
    control block.  [KcpSender], [KcpSend], [KcpReceiver], [KcpRecv], [KcpInput],
    [KcpFlush]: the two halves of a control block as sets of sequence numbers over the
    history of fragments, and what each operation does to them.  [KcpCorrect]: two ends set
    up as net/rudp/xylem-rudp.c does, over a network that loses, repeats and reorders.

    ** Interactions

    [SList] is the queue of the scheduler, [DList] the waiter lists of [Mutex], [WaitGroup]
    and [Sem] (there as the sequences it is proved to implement), [Mpsc] the queue of
    [Channel], [ThrdWake] and the scheduler the instance of [Parking], which [Mux] uses too; [Sha], [Base64] and
    [Utils] are called by [WsHandshake]; [GaloisField] and [LinearAlgebra] carry the
    erasure code.  The proofs use the interface or the invariant of a part, not its code.

    ** Bounds and fuel

    - Loops over trees carry fuel, one or two more than the number of nodes in the store, and
      an operation that ran out of it would fail; the theorems say that it returns.  Loops
      over byte buffers carry their length as fuel.
    - Positions of rings wrap at [2^64] and are allowed to; the ring sizes are powers of
      two up to [2^30] in [Wsq] and up to [2^31] entries in [RingBuf].
    - Counts of waiters, references and list elements stay below the width of their field,
      which memory bounds; [Sem] needs [2^31] references.  The counter of [WaitGroup] wraps
      at [2^64]; its callers add less than that at a time.
    - Streams of the multiplexer carry fewer bytes than [2^63] per buffer, as [MuxFrame]
      says; a KCP end numbers fewer than [2^31] segments, the range in which the
      differences of the code are exact.
    - [KcpCorrect] takes datagrams below [2^24] bytes, so that the size computations of
      the output buffer do not wrap.

    ** Not modelled

    - Third-party code that the library only wraps: miniz (encoding/gzip), yyjson
      (encoding/json), llhttp (net/http), OpenSSL (net/tls), minicoro and wepoll.
    - System calls: platform/, sockets (net/stream.c, datagram.c, addr.c and the public
      files over them), the poller (runtime/iowait.c), virtual memory (arena.c, copool.c,
      dynpool.c), threads (thrdpool.c), serial port and logger.  These consist of calls of
      the operating system and of loops around them.
    - The workers of runtime/scheduler.c: the transitions of a coroutine are modelled in
      [Parking], the placement of coroutines on workers and the timers are not.
    - Connections: net/ws/ws.c, net/http/http.c and the sessions of xylem-rudp.c drive the
      modelled protocol parts over sockets and timers.
    - sync/xylem-cond.c; in xylem-channel.c receiving with a time limit and the reference
      counts.
    - The public container handles (container/xylem-heap.c and so on) allocate a container
      and forward to it.
    - Memory orders weaker than sequential consistency, which the code does not use. *)

From stdpp Require Export prelude gmap fin_maps strings sorting relations.
From Stdlib Require Export ZArith Lia.

Open Scope Z_scope.

(** ** Machine integers

    A [w]-bit unsigned integer is a [Z] in [[0, 2^w)]; every C operation that
    can leave that range is followed by the matching reduction below. *)

Definition uwrap (w x : Z) : Z := x mod 2 ^ w.

Notation u8 := (uwrap 8).
Notation u16 := (uwrap 16).
Notation u32 := (uwrap 32).
Notation u64 := (uwrap 64).

(** Two's complement reading of a [w]-bit word (casts such as [(int32_t)x]). *)
Definition swrap (w x : Z) : Z :=
  let y := x mod 2 ^ w in if y <? 2 ^ (w - 1) then y else y - 2 ^ w.

Notation i8 := (swrap 8).
Notation i32 := (swrap 32).

Definition ubound (w x : Z) : Prop := 0 <= x < 2 ^ w.

Lemma uwrap_bound w x : 0 <= w -> ubound w (uwrap w x).
Proof. intros; apply Z.mod_pos_bound; lia. Qed.

Lemma uwrap_small w x : ubound w x -> uwrap w x = x.
Proof. apply Z.mod_small. Qed.

Lemma uwrap_idem w x : 0 <= w -> uwrap w (uwrap w x) = uwrap w x.
Proof. intros; apply uwrap_small, uwrap_bound; lia. Qed.

(** ** Pointers

    An intrusive node is identified by its address; [NULL] is [None]. *)

Notation loc := positive.
Notation ptr := (option positive).

(** ** Stateful code that can go wrong

    [M S A] is a computation over a store of type [S].  [None] stands for
    undefined behaviour (a [NULL] or dangling dereference) and for a loop that
    runs out of the fuel its definition grants; every functional theorem of the
    development concludes that the result is [Some _]. *)

Definition M (S A : Type) : Type := S -> option (A * S).

#[global] Instance M_ret {S} : MRet (M S) := fun A a s => Some (a, s).
#[global] Instance M_bind {S} : MBind (M S) :=
  fun A B f m s => match m s with Some (a, s') => f a s' | None => None end.

Definition ub {S A} : M S A := fun _ => None.
Definition get {S} : M S S := fun s => Some (s, s).
Definition gets {S A} (f : S -> A) : M S A := fun s => Some (f s, s).
Definition modify {S} (f : S -> S) : M S unit := fun s => Some (tt, f s).

(** [when b c] is the C statement [if (b) c]. *)
Definition when {S} (b : bool) (c : M S unit) : M S unit := if b then c else mret tt.

Lemma M_bind_Some {S A B} (m : M S A) (f : A -> M S B) s a s' :
  m s = Some (a, s') -> (m ≫= f) s = f a s'.
Proof. unfold mbind, M_bind; intros ->; done. Qed.

Lemma M_bind_assoc {S A B D} (m : M S A) (f : A -> M S B) (g : B -> M S D) s :
  ((m ≫= f) ≫= g) s = (m ≫= (fun a => f a ≫= g)) s.
Proof. unfold mbind, M_bind. by destruct (m s) as [[]|]. Qed.

(** A step of symbolic execution: run the head of a bind whose outcome is
    known by reduction or by an equation of the context or a hint. *)
Create HintDb exec.
Ltac mstep :=
  first
    [ erewrite M_bind_Some; [|solve [reflexivity | eassumption | eauto with exec]]
    | progress (cbn beta iota) ].
Ltac mrun := repeat mstep.

(** ** Lists *)

Lemma NoDup_app_inv {A} (l k : list A) :
  NoDup (l ++ k) -> NoDup l /\ NoDup k /\ (forall x, x ∈ l -> x ∈ k -> False).
Proof. rewrite NoDup_app; naive_solver. Qed.

(** Removing the one occurrence of an element. *)
Lemma filter_remove {A} `{EqDecision A} (x : A) (l k : list A) :
  NoDup (l ++ x :: k) -> filter (fun y => y <> x) (l ++ x :: k) = l ++ k.
Proof.
  rewrite NoDup_app, NoDup_cons. intros (_ & Hl & Hk & _).
  assert (forall xs : list A, x ∉ xs -> filter (fun y => y <> x) xs = xs) as G.
  { induction xs as [|y xs IH]; intros Hxs; [done|].
    rewrite filter_cons_True by set_solver. f_equal. apply IH. set_solver. }
  rewrite filter_app, filter_cons_False by naive_solver. rewrite !G; [done|set_solver|set_solver].
Qed.

Lemma StronglySorted_filter {A} (R : A -> A -> Prop) P `{forall x, Decision (P x)} l :
  StronglySorted R l -> StronglySorted R (filter P l).
Proof.
  induction 1 as [|x l Hs IH Hx]; [by constructor|].
  destruct (decide (P x)); [rewrite filter_cons_True by done|by rewrite filter_cons_False].
  constructor; [done|]. rewrite Forall_forall in *. intros y Hy.
  apply list_elem_of_filter in Hy as [_ Hy]. by apply Hx.
Qed.

(** ** Bit arithmetic *)

(** [byte b]: [b] is the value of a [uint8_t]. *)
Definition byte (b : Z) : Prop := 0 <= b < 256.
#[global] Instance byte_dec b : Decision (byte b) := ltac:(unfold byte; apply _).

Lemma testbit_above n y i : 0 <= n <= i -> 0 <= y < 2 ^ n -> Z.testbit y i = false.
Proof.
  intros Hi Hy. destruct (decide (y = 0)) as [->|]; [apply Z.bits_0|].
  apply Z.bits_above_log2; [lia|]. apply Z.log2_lt_pow2; [lia|].
  eapply Z.lt_le_trans; [apply Hy|]. apply Z.pow_le_mono_r; lia.
Qed.

(** Or-ing a small number into the low bits of a shifted one is an addition. *)
Lemma lor_shiftl_add x n y : 0 <= n -> 0 <= y < 2 ^ n -> Z.lor (Z.shiftl x n) y = x * 2 ^ n + y.
Proof.
  intros Hn Hy. rewrite <-Z.shiftl_mul_pow2 by done.
  assert (Z.land (Z.shiftl x n) y = 0) as E.
  { apply Z.bits_inj'. intros i Hi. rewrite Z.land_spec, Z.bits_0.
    destruct (decide (i < n)); [by rewrite Z.shiftl_spec_low|].
    rewrite (testbit_above n y i) by lia. apply andb_false_r. }
  pose proof (Z.add_lor_land (Z.shiftl x n) y). lia.
Qed.

(** Or-ing a number into free low bits. *)
Lemma lor_low q n y : 0 <= n -> 0 <= y < 2 ^ n -> Z.lor (q * 2 ^ n) y = q * 2 ^ n + y.
Proof. intros. rewrite <-(lor_shiftl_add q n y), Z.shiftl_mul_pow2 by done. done. Qed.

(** Eight bytes or-ed at their positions are their weighted sum. *)
Lemma lor_bytes8 a b c d e f g h :
  byte a -> byte b -> byte c -> byte d -> byte e -> byte f -> byte g -> byte h ->
  Z.lor (Z.lor (Z.lor (Z.lor (Z.lor (Z.lor (Z.lor
    (a * 2 ^ 56) (b * 2 ^ 48)) (c * 2 ^ 40)) (d * 2 ^ 32)) (e * 2 ^ 24)) (f * 2 ^ 16)) (g * 2 ^ 8)) h
  = a * 2 ^ 56 + b * 2 ^ 48 + c * 2 ^ 40 + d * 2 ^ 32 + e * 2 ^ 24 + f * 2 ^ 16 + g * 2 ^ 8 + h.
Proof.
  unfold byte. intros. rewrite (lor_low a 56) by lia.
  replace (a * 2 ^ 56 + b * 2 ^ 48) with ((a * 2 ^ 8 + b) * 2 ^ 48) by lia. rewrite lor_low by lia.
  replace ((a * 2 ^ 8 + b) * 2 ^ 48 + c * 2 ^ 40) with ((a * 2 ^ 16 + b * 2 ^ 8 + c) * 2 ^ 40) by lia.
  rewrite lor_low by lia. set (q3 := a * 2 ^ 16 + b * 2 ^ 8 + c).
  replace (q3 * 2 ^ 40 + d * 2 ^ 32) with ((q3 * 2 ^ 8 + d) * 2 ^ 32) by lia. rewrite lor_low by lia.
  replace ((q3 * 2 ^ 8 + d) * 2 ^ 32 + e * 2 ^ 24) with ((q3 * 2 ^ 16 + d * 2 ^ 8 + e) * 2 ^ 24) by lia.
  rewrite lor_low by lia. set (q5 := q3 * 2 ^ 16 + d * 2 ^ 8 + e).
  replace (q5 * 2 ^ 24 + f * 2 ^ 16) with ((q5 * 2 ^ 8 + f) * 2 ^ 16) by lia. rewrite lor_low by lia.
  replace ((q5 * 2 ^ 8 + f) * 2 ^ 16 + g * 2 ^ 8) with ((q5 * 2 ^ 16 + f * 2 ^ 8 + g) * 2 ^ 8) by lia.
  rewrite lor_low by lia. subst q5 q3. lia.
Qed.

Lemma u8_byte x : byte (u8 x).
Proof. apply (uwrap_bound 8). lia. Qed.

Lemma lxor_byte x c : byte x -> byte c -> byte (Z.lxor c x).
Proof.
  intros Hx Hc. unfold byte. split; [apply Z.lxor_nonneg; unfold byte in *; lia|].
  destruct (decide (Z.lxor c x = 0)) as [->|]; [lia|]. apply (Z.log2_lt_pow2 _ 8); [unfold byte in *; assert (0 <= Z.lxor c x) by (apply Z.lxor_nonneg; lia); lia|].
  assert (forall y, byte y -> Z.log2 y < 8) as Hlog.
  { intros y Hy. unfold byte in Hy. destruct (decide (y = 0)) as [->|]; [done|]. apply Z.log2_lt_pow2; lia. }
  unfold byte in *. pose proof (Z.log2_lxor c x ltac:(lia) ltac:(lia)).
  pose proof (Hlog c Hc). pose proof (Hlog x Hx). lia.
Qed.

Lemma nth_byte b i : Forall byte b -> byte (nth i b 0).
Proof.
  intros Hb. destruct (decide (i < length b)%nat).
  - eapply Forall_forall in Hb; [exact Hb|]. apply list_elem_of_In, nth_In. lia.
  - rewrite nth_overflow by lia. unfold byte. lia.
Qed.

(** Masking with [2^n - 1] is a remainder. *)
Lemma land_ones_mod x n : 0 <= n -> Z.land x (2 ^ n - 1) = x mod 2 ^ n.
Proof. intros. rewrite <-Z.land_ones by done. by rewrite Z.ones_equiv, <-Z.sub_1_r. Qed.

Lemma land_0xff x : Z.land x 0xff = x mod 256.
Proof. apply (land_ones_mod x 8). lia. Qed.
Lemma land_0x7f x : Z.land x 0x7f = x mod 128.
Proof. apply (land_ones_mod x 7). lia. Qed.
Lemma land_0x3f x : Z.land x 0x3f = x mod 64.
Proof. apply (land_ones_mod x 6). lia. Qed.
Lemma land_0x0f x : Z.land x 0x0f = x mod 16.
Proof. apply (land_ones_mod x 4). lia. Qed.

(** Shifts by a literal as arithmetic. *)
Lemma shiftr_div x n : 0 <= n -> Z.shiftr x n = x / 2 ^ n.
Proof. apply Z.shiftr_div_pow2. Qed.

(** Euclidean facts for [lia] on goals with [/] and [mod] by literals. *)
Ltac zdm := Z.div_mod_to_equations; lia.

(** A property of all integers of a range, by evaluation. *)
Fixpoint forallbZ (n : nat) (f : Z -> bool) : bool :=
  match n with O => true | S k => f (Z.of_nat k) && forallbZ k f end.
Lemma forallbZ_spec n f : forallbZ n f = true -> forall i, 0 <= i < Z.of_nat n -> f i = true.
Proof.
  induction n as [|n IH]; simpl; [lia|]. intros [H1 H2]%andb_true_iff i Hi.
  destruct (decide (i = Z.of_nat n)) as [->|]; [done|]. apply IH; [done|lia].
Qed.

(** The bytes of an ASCII string. *)
Definition chars (s : string) : list Z := (fun a => Z.of_nat (Ascii.nat_of_ascii a)) <$> String.list_ascii_of_string s.

Lemma i32_small x : - 2 ^ 31 <= x < 2 ^ 31 -> i32 x = x.
Proof.
  intros Hx. unfold swrap. destruct (Z.ltb_spec (x mod 2 ^ 32) (2 ^ (32 - 1))); zdm.
Qed.

(** ** Copying into an array *)

(** [memcpy(buf + off, bytes, length bytes)]. *)
Definition blit {A} (buf : list A) (off : nat) (bytes : list A) : list A :=
  take off buf ++ bytes ++ drop (off + length bytes) buf.

Lemma blit_length {A} (buf : list A) off bytes : (off + length bytes <= length buf)%nat -> length (blit buf off bytes) = length buf.
Proof. intros H. unfold blit. rewrite !length_app, length_take, length_drop. lia. Qed.
Lemma blit_prefix {A} (buf : list A) off bytes : (off + length bytes <= length buf)%nat ->
  take (off + length bytes) (blit buf off bytes) = take off buf ++ bytes.
Proof.
  intros H. unfold blit. rewrite app_assoc. apply take_app_length'. rewrite length_app, length_take. lia.
Qed.
Lemma blit_full {A} (buf : list A) off bytes : length buf = (off + length bytes)%nat -> blit buf off bytes = take off buf ++ bytes.
Proof. intros H. unfold blit. rewrite drop_ge by lia. by rewrite app_nil_r. Qed.

Lemma blit_after {A} (pre : list A) old bytes n : length pre = n ->
  blit (pre ++ old) n bytes = pre ++ bytes ++ drop (length bytes) old.
Proof.
  intros <-. unfold blit. rewrite take_app_length. f_equal. f_equal.
  rewrite drop_app_ge by lia. f_equal. lia.
Qed.

Lemma blit_lookup {A} (buf : list A) off bytes i : (off + length bytes <= length buf)%nat ->
  blit buf off bytes !! i =
    if decide (off <= i < off + length bytes)%nat then bytes !! (i - off)%nat else buf !! i.
Proof.
  intros H. unfold blit. destruct (decide (off <= i < off + length bytes)%nat) as [Hi|Hi].
  - rewrite lookup_app_r by (rewrite length_take; lia). rewrite length_take_le by lia.
    apply lookup_app_l. lia.
  - destruct (decide (i < off)%nat) as [Hlt|Hge].
    + rewrite lookup_app_l by (rewrite length_take; lia). apply lookup_take_lt. lia.
    + rewrite lookup_app_r by (rewrite length_take; lia). rewrite length_take_le by lia.
      rewrite lookup_app_r by lia. rewrite lookup_drop. f_equal. lia.
Qed.
