(* ===== verification/LinkedTree.v ===== *)
(** * Intrusive binary trees in memory

    The part shared by [src/container/heap.c] and [src/container/rbtree.c]: both
    embed a node with [left], [right] and [parent] pointers in the caller's
    structure and relink those nodes in place.  This file models the store they
    work on, the field accesses, and the representation predicate that relates a
    store to a mathematical tree whose node labels are the node addresses.

    [trep m par t]: the tree [t] is laid out in [m] below the parent [par].
    [krep m K p]: the one-hole context [K] is laid out in [m] around a subtree
    whose root pointer is [p].  The framing lemmas at the end are what the proofs
    about [heap.c] and [rbtree.c] use to follow pointer updates. *)

From S2P Require Import Prelude.

Section tree.
Context {C : Type}.

(** ** Nodes, store and field accesses *)

(** [heap_node_t] (with [C := unit]) and [rbtree_node_t] (with [C] its colour). *)
Record bnode := BNode { bleft : ptr; bright : ptr; bparent : ptr; bcolor : C }.

Record tst := TSt { tmem : gmap loc bnode; troot : ptr }.

Definition upd_left (q : ptr) (n : bnode) := BNode q (bright n) (bparent n) (bcolor n).
Definition upd_right (q : ptr) (n : bnode) := BNode (bleft n) q (bparent n) (bcolor n).
Definition upd_parent (q : ptr) (n : bnode) := BNode (bleft n) (bright n) q (bcolor n).
Definition upd_color (c : C) (n : bnode) := BNode (bleft n) (bright n) (bparent n) c.

(** [*p]: reading through [NULL] or an address outside the store is undefined. *)
Definition deref (p : ptr) : M tst bnode := fun s =>
  match p with
  | Some l => match tmem s !! l with Some n => Some (n, s) | None => None end
  | None => None
  end.

(** [p->field = v]. *)
Definition upd (p : ptr) (f : bnode -> bnode) : M tst unit := fun s =>
  match p with
  | Some l =>
      match tmem s !! l with
      | Some n => Some (tt, TSt (<[l := f n]> (tmem s)) (troot s))
      | None => None
      end
  | None => None
  end.

#[global] Arguments deref : simpl never.
#[global] Arguments upd : simpl never.

Definition get_root : M tst ptr := gets troot.
Definition set_root (p : ptr) : M tst unit := modify (fun s => TSt (tmem s) p).

(** A [node_t**]: the address of the root field or of a child field. *)
Inductive slot := SRoot | SLeft (l : loc) | SRight (l : loc).

Definition read_slot (a : slot) : M tst ptr :=
  match a with
  | SRoot => get_root
  | SLeft l => n ← deref (Some l); mret (bleft n)
  | SRight l => n ← deref (Some l); mret (bright n)
  end.

Definition write_slot (a : slot) (p : ptr) : M tst unit :=
  match a with
  | SRoot => set_root p
  | SLeft l => upd (Some l) (upd_left p)
  | SRight l => upd (Some l) (upd_right p)
  end.

(** [if (p) p->parent = q;] *)
Definition set_parent_if (p q : ptr) : M tst unit :=
  match p with
  | None => mret tt
  | Some _ => upd p (upd_parent q)
  end.

(** The child slot of [par] that holds [node], or the root, now holds [q]. *)
Definition relink_left_first (par node q : ptr) : M tst unit :=
  match par with
  | None => set_root q
  | Some _ =>
      p ← deref par;
      if bool_decide (node = bleft p) then upd par (upd_left q)
      else upd par (upd_right q)
  end.
Definition relink_right_first (par node q : ptr) : M tst unit :=
  match par with
  | None => set_root q
  | Some _ =>
      p ← deref par;
      if bool_decide (node = bright p) then upd par (upd_right q)
      else upd par (upd_left q)
  end.

(** ** Trees and one-hole contexts *)

Inductive tree := Leaf | Node (l : tree) (x : loc) (c : C) (r : tree).

Inductive frame := FL (x : loc) (c : C) (r : tree) | FR (l : tree) (x : loc) (c : C).

Definition rootp (t : tree) : ptr := match t with Leaf => None | Node _ x _ _ => Some x end.

Fixpoint elems (t : tree) : list loc :=
  match t with Leaf => [] | Node l x _ r => elems l ++ x :: elems r end.

Fixpoint plug (K : list frame) (t : tree) : tree :=
  match K with
  | [] => t
  | FL x c r :: K' => plug K' (Node t x c r)
  | FR l x c :: K' => plug K' (Node l x c t)
  end.

Definition kpar (K : list frame) : ptr :=
  match K with
  | [] => None
  | FL x _ _ :: _ => Some x
  | FR _ x _ :: _ => Some x
  end.

(** Everything to the left (right) of the hole, in order. *)
Fixpoint kl (K : list frame) : list loc :=
  match K with
  | [] => []
  | FL _ _ _ :: K' => kl K'
  | FR l x _ :: K' => kl K' ++ elems l ++ [x]
  end.
Fixpoint kr (K : list frame) : list loc :=
  match K with
  | [] => []
  | FL x _ r :: K' => x :: elems r ++ kr K'
  | FR _ _ _ :: K' => kr K'
  end.

Lemma elems_plug K t : elems (plug K t) = kl K ++ elems t ++ kr K.
Proof.
  revert t; induction K as [|[x c r|l x c] K IH]; intros t; simpl.
  - by rewrite app_nil_r.
  - rewrite IH; simpl; by rewrite <-!app_assoc.
  - rewrite IH; simpl; by rewrite <-!app_assoc.
Qed.

(** ** Representation *)

Fixpoint trep (m : gmap loc bnode) (par : ptr) (t : tree) : Prop :=
  match t with
  | Leaf => True
  | Node l x c r =>
      m !! x = Some (BNode (rootp l) (rootp r) par c)
      /\ trep m (Some x) l /\ trep m (Some x) r
  end.

Fixpoint krep (m : gmap loc bnode) (K : list frame) (p : ptr) : Prop :=
  match K with
  | [] => True
  | FL x c r :: K' =>
      m !! x = Some (BNode p (rootp r) (kpar K') c) /\ trep m (Some x) r /\ krep m K' (Some x)
  | FR l x c :: K' =>
      m !! x = Some (BNode (rootp l) p (kpar K') c) /\ trep m (Some x) l /\ krep m K' (Some x)
  end.

Definition srep (s : tst) (t : tree) : Prop :=
  troot s = rootp t /\ trep (tmem s) None t /\ NoDup (elems t).

(** The same, split at a focus. *)
Definition zrep (s : tst) (K : list frame) (t : tree) : Prop :=
  troot s = rootp (plug K t) /\ trep (tmem s) (kpar K) t /\ krep (tmem s) K (rootp t)
  /\ NoDup (kl K ++ elems t ++ kr K).

Lemma trep_plug m K t :
  trep m None (plug K t) <-> trep m (kpar K) t /\ krep m K (rootp t).
Proof.
  revert t; induction K as [|[x c r|l x c] K IH]; intros t; simpl.
  - naive_solver.
  - rewrite IH; simpl; naive_solver.
  - rewrite IH; simpl; naive_solver.
Qed.

Lemma srep_zrep s K t : srep s (plug K t) <-> zrep s K t.
Proof. unfold srep, zrep. rewrite trep_plug, elems_plug. naive_solver. Qed.

Lemma trep_frame m m' par t :
  (forall x, x ∈ elems t -> m' !! x = m !! x) -> trep m par t -> trep m' par t.
Proof.
  revert par; induction t as [|l IHl x c r IHr]; intros par H; simpl in *; [done|].
  intros (Hx & Hl & Hr). rewrite H by set_solver. split_and!; [done| |].
  - apply IHl; [set_solver|done].
  - apply IHr; [set_solver|done].
Qed.

Lemma krep_frame m m' K p :
  (forall x, x ∈ kl K ++ kr K -> m' !! x = m !! x) -> krep m K p -> krep m' K p.
Proof.
  revert p; induction K as [|[x c r|l x c] K IH]; intros p H; simpl in *; [done| |].
  all: intros (Hx & Ht & HK); rewrite H by set_solver; split_and!; [done| |].
  all: try (apply IH; [set_solver|done]).
  all: eapply trep_frame; [|done]; set_solver.
Qed.

Lemma rootp_elem t x : rootp t = Some x -> x ∈ elems t.
Proof. destruct t; simpl; [done|intros [= ->]; set_solver]. Qed.

Lemma kpar_elem K x : kpar K = Some x -> x ∈ kl K ++ kr K.
Proof. destruct K as [|[]]; simpl; [done| |]; intros [= ->]; set_solver. Qed.

Lemma rootp_plug_ne K t t' : K <> [] -> rootp (plug K t) = rootp (plug K t').
Proof.
  revert t t'; induction K as [|f K IH]; intros t t' H; [done|].
  destruct (decide (K = [])) as [->|HK]; [by destruct f|].
  destruct f; simpl; by apply IH.
Qed.

Lemma rootp_plug_eq K t t' : rootp t = rootp t' -> rootp (plug K t) = rootp (plug K t').
Proof. intros H. destruct K as [|f K]; [done|by apply rootp_plug_ne]. Qed.

(** ** Updates seen as functions on the store *)

Definition setp (p q : ptr) (m : gmap loc bnode) : gmap loc bnode :=
  match p with Some l => alter (upd_parent q) l m | None => m end.

(** Redirecting the child field (or the root) that points at the hole. *)
Definition hole_mem (K : list frame) (q : ptr) (m : gmap loc bnode) : gmap loc bnode :=
  match K with
  | [] => m
  | FL x _ _ :: _ => alter (upd_left q) x m
  | FR _ x _ :: _ => alter (upd_right q) x m
  end.
Definition hole_root (K : list frame) (q r : ptr) : ptr :=
  match K with [] => q | _ => r end.
Definition set_hole (K : list frame) (q : ptr) (s : tst) : tst :=
  TSt (hole_mem K q (tmem s)) (hole_root K q (troot s)).

Lemma deref_eq s l n : tmem s !! l = Some n -> deref (Some l) s = Some (n, s).
Proof. unfold deref; by intros ->. Qed.

Lemma upd_eq s l n f :
  tmem s !! l = Some n -> upd (Some l) f s = Some (tt, TSt (alter f l (tmem s)) (troot s)).
Proof.
  unfold upd; intros H; rewrite H. do 3 f_equal. apply map_eq; intros j.
  destruct (decide (l = j)) as [->|];
    [rewrite lookup_insert_eq, lookup_alter_eq, H|rewrite lookup_insert_ne, lookup_alter_ne]; done.
Qed.

Lemma trep_setp m par q t :
  NoDup (elems t) -> trep m par t -> trep (setp (rootp t) q m) q t.
Proof.
  destruct t as [|l x c r]; simpl; [done|]. rewrite NoDup_app, NoDup_cons.
  intros (_ & Hl & Hr & _) (Hx & Htl & Htr). rewrite lookup_alter_eq, Hx. split_and!; [done| |].
  all: eapply trep_frame; [|done]; intros y Hy; apply lookup_alter_ne; set_solver.
Qed.

Lemma lookup_setp_ne m p q x : p <> Some x -> setp p q m !! x = m !! x.
Proof. destruct p; simpl; [|done]. intros; apply lookup_alter_ne; congruence. Qed.

Lemma when_setp s t par q :
  trep (tmem s) par t ->
  (match rootp t with Some _ => upd (rootp t) (upd_parent q) | None => mret tt end) s
  = Some (tt, TSt (setp (rootp t) q (tmem s)) (troot s)).
Proof.
  destruct t as [|l x c r]; simpl; [by destruct s|].
  intros (Hx & _ & _). by erewrite upd_eq.
Qed.

Lemma lookup_hole_ne m K q y : kpar K <> Some y -> hole_mem K q m !! y = m !! y.
Proof. destruct K as [|[]]; simpl; [done| |]; intros H; apply lookup_alter_ne; intros ->; by apply H. Qed.

Lemma lookup_alter_cong (m m' : gmap loc bnode) f i z :
  m !! z = m' !! z -> alter f i m !! z = alter f i m' !! z.
Proof.
  intros H. destruct (decide (i = z)) as [->|]; [by rewrite !lookup_alter_eq, H|].
  by rewrite !lookup_alter_ne by done.
Qed.
Lemma lookup_setp_cong m m' p q z : m !! z = m' !! z -> setp p q m !! z = setp p q m' !! z.
Proof. destruct p; simpl; [apply lookup_alter_cong|done]. Qed.

Lemma krep_hole m K p q : NoDup (kl K ++ kr K) -> krep m K p -> krep (hole_mem K q m) K q.
Proof.
  destruct K as [|[x c r|l x c] K]; simpl; [done| |].
  all: rewrite ?NoDup_app, ?NoDup_cons; intros Hnd (Hx & Ht & HK).
  all: split_and!; [by rewrite lookup_alter_eq, Hx| |].
  all: first [eapply trep_frame | eapply krep_frame]; [|done].
  all: intros y Hy; apply lookup_alter_ne; set_solver.
Qed.

Lemma hole_root_plug K q r t t' :
  r = rootp (plug K t) -> q = rootp t' -> hole_root K q r = rootp (plug K t').
Proof. destruct K as [|f K]; simpl; [done|]. intros -> _. by apply (rootp_plug_ne (f :: K)). Qed.

Lemma NoDup_ctx K t : NoDup (kl K ++ elems t ++ kr K) -> NoDup (kl K ++ kr K).
Proof. rewrite !NoDup_app. set_solver. Qed.

Lemma srep_focus s K l x c r :
  srep s (plug K (Node l x c r)) ->
  tmem s !! x = Some (BNode (rootp l) (rootp r) (kpar K) c).
Proof. rewrite srep_zrep. intros (_ & (H & _) & _); done. Qed.

Lemma srep_subtree s K t : srep s (plug K t) -> trep (tmem s) (kpar K) t.
Proof. rewrite srep_zrep. by intros (_ & H & _). Qed.

Lemma length_dom_le (m : gmap loc bnode) (xs : list loc) :
  NoDup xs -> (forall x, x ∈ xs -> is_Some (m !! x)) -> (length xs <= size m)%nat.
Proof.
  intros Hnd H. rewrite <-size_dom, <-(size_list_to_set (C := gset loc) xs) by done.
  apply subseteq_size. intros x Hx. apply elem_of_dom, H. set_solver.
Qed.

Lemma trep_dom (m : gmap loc bnode) par t x :
  trep m par t -> x ∈ elems t -> is_Some (m !! x).
Proof.
  revert par; induction t as [|l IHl y c r IHr]; simpl; intros par; [set_solver|].
  intros (Hy & Hl & Hr). rewrite elem_of_app, elem_of_cons. naive_solver.
Qed.

Lemma length_ctx (K : list frame) : (length K <= length (kl K ++ kr K))%nat.
Proof. induction K as [|[] K IH]; simpl; rewrite ?length_app in *; simpl; rewrite ?length_app; lia. Qed.

(** The fuel the loops are given covers the depth of every node. *)
Lemma srep_depth (s : tst) K t :
  srep s (plug K t) -> (length K + length (elems t) <= size (tmem s))%nat.
Proof.
  intros (_ & H & Hnd). pose proof (length_dom_le _ _ Hnd (fun x => trep_dom _ _ _ x H)) as Hl.
  rewrite elems_plug, !length_app in Hl. pose proof (length_ctx K). rewrite length_app in *. lia.
Qed.

Lemma upd_parent_root (s : tst) t par q :
  trep (tmem s) par t -> t <> Leaf ->
  upd (rootp t) (upd_parent q) s = Some (tt, TSt (setp (rootp t) q (tmem s)) (troot s)).
Proof. destruct t as [|l x c r]; [done|]. intros (Hx & _) _. by apply upd_eq with (n := BNode (rootp l) (rootp r) par c). Qed.

(** A node is not the root of its parent's other subtree. *)
Lemma srep_right_ne (s : tst) K l x c r p cp t :
  srep s (plug K (Node (Node l x c r) p cp t)) -> rootp t <> Some x.
Proof.
  intros (_ & _ & Hnd) E%rootp_elem. rewrite elems_plug in Hnd. simpl in Hnd.
  rewrite !NoDup_app, !NoDup_cons in Hnd. set_solver.
Qed.
Lemma srep_left_ne (s : tst) K l x c r p cp t :
  srep s (plug K (Node t p cp (Node l x c r))) -> rootp t <> Some x.
Proof.
  intros (_ & _ & Hnd) E%rootp_elem. rewrite elems_plug in Hnd. simpl in Hnd.
  rewrite !NoDup_app, !NoDup_cons in Hnd. set_solver.
Qed.

(** The address of the link that points at the hole. *)
Definition slot_of (K : list frame) : slot :=
  match K with [] => SRoot | FL x _ _ :: _ => SLeft x | FR _ x _ :: _ => SRight x end.

Lemma read_slot_ok (s : tst) K t : srep s (plug K t) -> read_slot (slot_of K) s = Some (rootp t, s).
Proof.
  rewrite srep_zrep. intros (Hr & _ & HK & _).
  destruct K as [|[x c r|l x c] K]; simpl in *.
  - unfold get_root, gets. by rewrite Hr.
  - erewrite M_bind_Some by (apply deref_eq, HK); done.
  - erewrite M_bind_Some by (apply deref_eq, HK); done.
Qed.

Lemma write_slot_ok (s : tst) K p q :
  krep (tmem s) K p -> write_slot (slot_of K) q s = Some (tt, set_hole K q s).
Proof.
  destruct K as [|[x c r|l x c] K]; simpl; intros HK; [done| |].
  - by erewrite upd_eq by apply HK.
  - by erewrite upd_eq by apply HK.
Qed.

(** The root of a plugged tree belongs to the context. *)
Lemma rootp_plug_ctx K t :
  K <> [] -> exists y, rootp (plug K t) = Some y /\ y ∈ kl K ++ kr K.
Proof.
  revert t; induction K as [|f K IH]; intros t HK; [done|].
  destruct (decide (K = [])) as [->|HK'].
  - destruct f as [x c r|l x c]; simpl; exists x; split; set_solver.
  - destruct f as [x c r|l x c]; simpl.
    + destruct (IH (Node t x c r) HK') as (y & Hy & Hin). exists y; split; [done|set_solver].
    + destruct (IH (Node l x c t) HK') as (y & Hy & Hin). exists y; split; [done|set_solver].
Qed.

Lemma rootp_not_root (s : tst) K t : srep s (plug K t) -> K <> [] -> rootp t <> troot s.
Proof.
  intros (-> & _ & Hnd) HK E. destruct (rootp_plug_ctx K t HK) as (y & Hy & Hin).
  rewrite Hy in E. apply rootp_elem in E. rewrite elems_plug in Hnd.
  rewrite !NoDup_app in Hnd. set_solver.
Qed.

(** Taking a node with a single subtree [t] out of the tree. *)
Lemma srep_splice (s : tst) K l x c r t :
  srep s (plug K (Node l x c r)) -> (l = Leaf /\ t = r) \/ (r = Leaf /\ t = l) ->
  srep (set_hole K (rootp t) (TSt (setp (rootp t) (kpar K) (tmem s)) (troot s))) (plug K t).
Proof.
  rewrite !srep_zrep. intros (Hr & (Hx & Hl & Hr') & HK & Hnd) Ht.
  pose proof (NoDup_ctx _ _ Hnd) as HndK. simpl in Hnd.
  assert (trep (tmem s) (Some x) t /\ NoDup (kl K ++ elems t ++ kr K)) as [Htt Hnd'].
  { destruct Ht as [[-> ->]|[-> ->]]; simpl in *; (split; [done|]).
    all: repeat first [rewrite NoDup_app in Hnd | rewrite NoDup_cons in Hnd].
    all: rewrite !NoDup_app; clear -Hnd; set_solver. }
  pose proof Hnd' as Hnd''. rewrite !NoDup_app in Hnd''. destruct_and? Hnd''.
  unfold zrep; simpl; split_and!; [by eapply hole_root_plug| | |done].
  - eapply trep_frame; [|by eapply trep_setp].
    intros y Hy. simpl. apply lookup_hole_ne. intros E%kpar_elem. set_solver.
  - apply (krep_hole _ _ (Some x)); [done|]. eapply krep_frame; [|done].
    intros y Hy. apply lookup_setp_ne. intros E%rootp_elem. set_solver.
Qed.

Lemma plug_app K1 K2 t : plug (K1 ++ K2) t = plug K2 (plug K1 t).
Proof. revert t; induction K1 as [|[] K1 IH]; intros t; simpl; [done| |]; apply IH. Qed.

Lemma kl_app K1 K2 : kl (K1 ++ K2) = kl K2 ++ kl K1.
Proof.
  induction K1 as [|[] K1 IH]; simpl; [by rewrite app_nil_r|done|]. by rewrite IH, !app_assoc.
Qed.
Lemma kr_app K1 K2 : kr (K1 ++ K2) = kr K1 ++ kr K2.
Proof. induction K1 as [|[] K1 IH]; simpl; [done| |done]. by rewrite IH, !app_assoc. Qed.

Lemma rootp_plug_node K l x c r : exists q, rootp (plug K (Node l x c r)) = Some q.
Proof. revert l x c r; induction K as [|[] K IH]; simpl; intros; [by eexists| |]; apply IH. Qed.

(** The leftmost node of a tree, as a decomposition. *)
Lemma leftmost_split t :
  t <> Leaf -> exists K y c r, t = plug K (Node Leaf y c r) /\ kl K = [].
Proof.
  induction t as [|l IHl x c r IHr]; intros Ht; [done|].
  destruct l as [|ll lx lc lr]; [by exists [], x, c, r|].
  destruct IHl as (K & y & cy & ry & E & HK); [done|].
  exists (K ++ [FL x c r]), y, cy, ry. rewrite plug_app. simpl. split; [by rewrite <-E|].
  by rewrite kl_app, HK.
Qed.

Lemma rightmost_split t :
  t <> Leaf -> exists K l y c, t = plug K (Node l y c Leaf) /\ kr K = [].
Proof.
  induction t as [|l IHl x c r IHr]; intros Ht; [done|].
  destruct r as [|rl rx rc rr]; [by exists [], l, x, c|].
  destruct IHr as (K & ly & y & cy & E & HK); [done|].
  exists (K ++ [FR l x c]), ly, y, cy. rewrite plug_app. simpl. split; [by rewrite <-E|].
  by rewrite kr_app, HK.
Qed.

(** Every node of a tree is the focus of some decomposition. *)
Lemma elem_split t x : x ∈ elems t -> exists K l c r, t = plug K (Node l x c r).
Proof.
  induction t as [|l IHl y c r IHr]; simpl; [set_solver|].
  rewrite elem_of_app, elem_of_cons. intros [Hl|[->|Hr]].
  - destruct (IHl Hl) as (K & l' & c' & r' & ->). exists (K ++ [FL y c r]), l', c', r'. by rewrite plug_app.
  - by exists [], l, c, r.
  - destruct (IHr Hr) as (K & l' & c' & r' & ->). exists (K ++ [FR l y c]), l', c', r'. by rewrite plug_app.
Qed.

(** Both ways in which the code redirects the link that points at the focus. *)
Lemma relink_left_ok (s : tst) K x q :
  krep (tmem s) K (Some x) -> x ∉ kl K ++ kr K ->
  relink_left_first (kpar K) (Some x) q s = Some (tt, set_hole K q s).
Proof.
  destruct K as [|[y c r|l y c] K]; simpl; intros H Hx; [done| |].
  all: destruct H as (Hy & Ht & HK).
  all: erewrite M_bind_Some by (by apply deref_eq); simpl.
  - rewrite bool_decide_true by done. by erewrite upd_eq.
  - rewrite bool_decide_false by (intros E; symmetry in E; apply rootp_elem in E; set_solver).
    by erewrite upd_eq.
Qed.

Lemma relink_right_ok (s : tst) K x q :
  krep (tmem s) K (Some x) -> x ∉ kl K ++ kr K ->
  relink_right_first (kpar K) (Some x) q s = Some (tt, set_hole K q s).
Proof.
  destruct K as [|[y c r|l y c] K]; simpl; intros H Hx; [done| |].
  all: destruct H as (Hy & Ht & HK).
  all: erewrite M_bind_Some by (by apply deref_eq); simpl.
  - rewrite bool_decide_false by (intros E; symmetry in E; apply rootp_elem in E; set_solver).
    by erewrite upd_eq.
  - rewrite bool_decide_true by done. by erewrite upd_eq.
Qed.

Lemma set_parent_if_ok (s : tst) t par q :
  trep (tmem s) par t ->
  set_parent_if (rootp t) q s = Some (tt, TSt (setp (rootp t) q (tmem s)) (troot s)).
Proof. apply when_setp. Qed.

End tree.

Arguments bnode : clear implicits.
Arguments tst : clear implicits.
Arguments tree : clear implicits.
Arguments frame : clear implicits.

(** ** Tactics for pointer proofs *)

(** Split a [NoDup] hypothesis on a concatenation into its disjointness facts. *)
Ltac nodup_split H :=
  repeat first [rewrite NoDup_app in H | rewrite NoDup_cons in H | rewrite elem_of_app in H];
  destruct_and? H.

Ltac loc_ne :=
  first
    [ done
    | by let E := fresh in intros E; first [apply rootp_elem in E | apply kpar_elem in E]; set_solver
    | set_solver ].

(** Discard the updates of a store that do not touch the address looked up. *)
Ltac peel_update :=
  match goal with
  | |- ?a = ?a => reflexivity
  | |- ?lhs = _ =>
      match lhs with
      | context [?M !! ?z] =>
          lazymatch M with
          | alter ?f z ?m => rewrite (lookup_alter_eq f m z)
          | alter ?f ?i ?m => rewrite (lookup_alter_ne f m i z) by loc_ne
          | hole_mem ?K ?q ?m => rewrite (lookup_hole_ne m K q z) by loc_ne
          | setp ?p ?q ?m => rewrite (lookup_setp_ne m p q z) by loc_ne
          end
      end
  end.
Ltac frame_lookup := repeat peel_update.

(** Compute the contents of an address from the hypotheses on the store. *)
Ltac lookup :=
  simpl; frame_lookup;
  try match goal with
      | H : ?m !! ?x = Some _ |- context [?m !! ?x] => rewrite H
      end; reflexivity.

Ltac frame_tree := eapply trep_frame; [|eassumption]; intros ? ?; simpl; frame_lookup.
Ltac frame_ctx := eapply krep_frame; [|eassumption]; intros ? ?; simpl; frame_lookup.

(** A subtree whose parent link was redirected by [setp]. *)
Ltac frame_setp :=
  match goal with
  | |- trep ?M ?q ?b =>
      match M with
      | context [setp (rootp b) q ?m] =>
          apply (trep_frame (setp (rootp b) q m));
          [ intros ? ?; simpl; frame_lookup
          | eapply trep_setp; [eassumption|frame_tree] ]
      end
  end.

(** The context whose hole was redirected by [hole_mem]. *)
Ltac frame_hole :=
  match goal with
  | |- krep ?M ?K ?q =>
      match M with
      | context [hole_mem K q ?m] =>
          apply (krep_frame (hole_mem K q m));
          [ intros ? ?; simpl; frame_lookup
          | eapply krep_hole; [eassumption|frame_ctx] ]
      end
  end.

(** The same elements in the same order, up to associativity. *)
Ltac same_elems :=
  simpl; rewrite ?elems_plug; repeat first [progress simpl | rewrite <-app_assoc]; done.
Ltac nodup_same :=
  match goal with
  | H : NoDup ?a |- NoDup ?b => replace b with a; [exact H|solve [same_elems]]
  end.

(** Symbolic execution of one field read or write. *)
Ltac xload := erewrite M_bind_Some; [|eapply deref_eq; lookup]; simpl.
Ltac xstore := erewrite M_bind_Some; [|eapply upd_eq; lookup]; simpl.
Ltac xret := erewrite M_bind_Some by reflexivity; cbv beta iota.
