(* ===== verification/RBTree.v ===== *)
(** * The intrusive red-black tree, [src/container/rbtree.c]

    Every function of the file is translated statement by statement over the
    pointer store of [LinkedTree]; the two comparators the tree is initialised
    with are parameters.  The proofs are in [RBTreeMem] and the files after it. *)

From S2P Require Import Prelude LinkedTree.

Inductive color := RED | BLACK.

#[global] Instance color_eq_dec : EqDecision color.
Proof. solve_decision. Defined.

Notation rbst := (tst color).
Notation rbtree := (tree color).
Notation rbframe := (frame color).

(** [p && p->color == RB_RED] *)
Definition is_red (p : ptr) : M rbst bool :=
  match p with
  | None => mret false
  | Some _ => n ← deref p; mret (bool_decide (bcolor n = RED))
  end.

(** [!p || p->color == RB_BLACK] *)
Definition is_black (p : ptr) : M rbst bool :=
  match p with
  | None => mret true
  | Some _ => n ← deref p; mret (bool_decide (bcolor n = BLACK))
  end.

Definition _rbtree_rotate_left (node : ptr) : M rbst unit :=
  n ← deref node;
  let right := bright n in
  r ← deref right;
  upd node (upd_right (bleft r));;
  set_parent_if (bleft r) node;;
  upd right (upd_left node);;
  n ← deref node;
  upd right (upd_parent (bparent n));;
  relink_left_first (bparent n) node right;;
  upd node (upd_parent right).

Definition _rbtree_rotate_right (node : ptr) : M rbst unit :=
  n ← deref node;
  let left := bleft n in
  l ← deref left;
  upd node (upd_left (bright l));;
  set_parent_if (bright l) node;;
  upd left (upd_right node);;
  n ← deref node;
  upd left (upd_parent (bparent n));;
  relink_right_first (bparent n) node left;;
  upd node (upd_parent left).

Definition _rbtree_link_node (node parent : ptr) (rb_link : slot) : M rbst unit :=
  upd node (upd_parent parent);;
  upd node (upd_color RED);;
  upd node (upd_right None);;
  upd node (upd_left None);;
  write_slot rb_link node.

(** The [while] loop of [_rbtree_insert_color]. *)
Fixpoint insert_color_loop (fuel : nat) (node : ptr) : M rbst unit :=
  match fuel with
  | O => ub
  | S fuel =>
      n ← deref node;
      let parent := bparent n in
      red ← is_red parent;
      if negb red then mret tt else
      p ← deref parent;
      let gparent := bparent p in
      g ← deref gparent;
      if bool_decide (parent = bleft g) then
        let uncle := bright g in
        ured ← is_red uncle;
        if ured : bool then
          upd uncle (upd_color BLACK);;
          upd parent (upd_color BLACK);;
          upd gparent (upd_color RED);;
          insert_color_loop fuel gparent
        else
          '(node, parent) ←
            (if bool_decide (bright p = node)
             then _rbtree_rotate_left parent;; mret (parent, node)
             else mret (node, parent));
          upd parent (upd_color BLACK);;
          upd gparent (upd_color RED);;
          _rbtree_rotate_right gparent;;
          insert_color_loop fuel node
      else
        let uncle := bleft g in
        ured ← is_red uncle;
        if ured : bool then
          upd uncle (upd_color BLACK);;
          upd parent (upd_color BLACK);;
          upd gparent (upd_color RED);;
          insert_color_loop fuel gparent
        else
          '(node, parent) ←
            (if bool_decide (bleft p = node)
             then _rbtree_rotate_right parent;; mret (parent, node)
             else mret (node, parent));
          upd parent (upd_color BLACK);;
          upd gparent (upd_color RED);;
          _rbtree_rotate_left gparent;;
          insert_color_loop fuel node
  end.

Definition _rbtree_insert_color (node : ptr) : M rbst unit :=
  fuel ← gets (fun s => S (size (tmem s)));
  insert_color_loop fuel node;;
  root ← get_root;
  upd root (upd_color BLACK).

(** The body of the loop of [_rbtree_erase_color] once the sibling [other] of
    [node] is known to be black, for [node] on the left and on the right of
    [parent]; [again] is the next iteration and the result the value of [node]
    when the loop is left. *)
Definition erase_left_tail (again : ptr -> ptr -> M rbst ptr) (parent other : ptr) : M rbst ptr :=
  o ← deref other;
  lblack ← is_black (bleft o);
  rblack ← is_black (bright o);
  if lblack && rblack then
    upd other (upd_color RED);;
    n ← deref parent;
    again parent (bparent n)
  else
    other ←
      (if rblack : bool then
         upd (bleft o) (upd_color BLACK);;
         upd other (upd_color RED);;
         _rbtree_rotate_right other;;
         p ← deref parent;
         mret (bright p)
       else mret other);
    p ← deref parent;
    upd other (upd_color (bcolor p));;
    upd parent (upd_color BLACK);;
    o ← deref other;
    upd (bright o) (upd_color BLACK);;
    _rbtree_rotate_left parent;;
    get_root.

Definition erase_right_tail (again : ptr -> ptr -> M rbst ptr) (parent other : ptr) : M rbst ptr :=
  o ← deref other;
  lblack ← is_black (bleft o);
  rblack ← is_black (bright o);
  if lblack && rblack then
    upd other (upd_color RED);;
    n ← deref parent;
    again parent (bparent n)
  else
    other ←
      (if lblack : bool then
         upd (bright o) (upd_color BLACK);;
         upd other (upd_color RED);;
         _rbtree_rotate_left other;;
         p ← deref parent;
         mret (bleft p)
       else mret other);
    p ← deref parent;
    upd other (upd_color (bcolor p));;
    upd parent (upd_color BLACK);;
    o ← deref other;
    upd (bleft o) (upd_color BLACK);;
    _rbtree_rotate_right parent;;
    get_root.

(** The [while] loop of [_rbtree_erase_color]; it returns the value of [node]
    when the loop is left. *)
Fixpoint erase_color_loop (fuel : nat) (node parent : ptr) : M rbst ptr :=
  match fuel with
  | O => ub
  | S fuel =>
      black ← is_black node;
      root ← get_root;
      if negb (black && negb (bool_decide (node = root))) then mret node else
      p ← deref parent;
      if bool_decide (bleft p = node) then
        let other := bright p in
        o ← deref other;
        other ←
          (if bool_decide (bcolor o = RED) then
             upd other (upd_color BLACK);;
             upd parent (upd_color RED);;
             _rbtree_rotate_left parent;;
             p ← deref parent;
             mret (bright p)
           else mret other);
        erase_left_tail (erase_color_loop fuel) parent other
      else
        let other := bleft p in
        o ← deref other;
        other ←
          (if bool_decide (bcolor o = RED) then
             upd other (upd_color BLACK);;
             upd parent (upd_color RED);;
             _rbtree_rotate_right parent;;
             p ← deref parent;
             mret (bleft p)
           else mret other);
        erase_right_tail (erase_color_loop fuel) parent other
  end.

Definition _rbtree_erase_color (node parent : ptr) : M rbst unit :=
  fuel ← gets (fun s => S (S (size (tmem s))));
  node ← erase_color_loop fuel node parent;
  match node with
  | None => mret tt
  | Some _ => upd node (upd_color BLACK)
  end.

(** [while ((left = node->left)) node = left;] *)
Fixpoint leftmost_loop (fuel : nat) (node : ptr) : M rbst ptr :=
  match fuel with
  | O => ub
  | S fuel =>
      n ← deref node;
      match bleft n with
      | None => mret node
      | Some l => leftmost_loop fuel (Some l)
      end
  end.
Definition leftmost (node : ptr) : M rbst ptr :=
  fuel ← gets (fun s => S (size (tmem s))); leftmost_loop fuel node.

Fixpoint rightmost_loop (fuel : nat) (node : ptr) : M rbst ptr :=
  match fuel with
  | O => ub
  | S fuel =>
      n ← deref node;
      match bright n with
      | None => mret node
      | Some r => rightmost_loop fuel (Some r)
      end
  end.
Definition rightmost (node : ptr) : M rbst ptr :=
  fuel ← gets (fun s => S (size (tmem s))); rightmost_loop fuel node.

(** The branch of [rbtree_remove] that unlinks a node with at most one child;
    returns [(child, parent, color)] as they are at the label [color:]. *)
Definition remove_spliced (node child : ptr) : M rbst (ptr * ptr * color) :=
  n ← deref node;
  let parent := bparent n in
  let color := bcolor n in
  set_parent_if child parent;;
  relink_left_first parent node child;;
  mret (child, parent, color).

(** The branch of [rbtree_remove] for a node with two children, which puts its
    in-order successor in its place. *)
Definition remove_two_children (old : ptr) : M rbst (ptr * ptr * color) :=
  o ← deref old;
  node ← leftmost (bright o);
  relink_left_first (bparent o) old node;;
  n ← deref node;
  let child := bright n in
  let color := bcolor n in
  parent ←
    (if bool_decide (bparent n = old) then mret node
     else
       set_parent_if child (bparent n);;
       upd (bparent n) (upd_left child);;
       o ← deref old;
       upd node (upd_right (bright o));;
       upd (bright o) (upd_parent node);;
       mret (bparent n));
  o ← deref old;
  upd node (upd_parent (bparent o));;
  upd node (upd_color (bcolor o));;
  upd node (upd_left (bleft o));;
  upd (bleft o) (upd_parent node);;
  mret (child, parent, color).

Definition rbtree_remove (node : ptr) : M rbst unit :=
  n ← deref node;
  '(child, parent, color) ←
    (match bleft n, bright n with
     | None, _ => remove_spliced node (bright n)
     | _, None => remove_spliced node (bleft n)
     | _, _ => remove_two_children node
     end);
  if bool_decide (color = BLACK) then _rbtree_erase_color child parent
  else mret tt.

Definition rbtree_init : rbst -> rbst := fun s => TSt (tmem s) None.

Definition rbtree_empty : M rbst bool :=
  root ← get_root; mret (bool_decide (root = None)).

(** The node comparator orders the nodes: what [rbtree_init] asks of the caller's
    callback. *)
Class Comparator (cmp : loc -> loc -> Z) : Prop := {
  cmp_flip : forall a b, cmp a b < 0 <-> 0 < cmp b a;
  cmp_trans : forall a b c, cmp a b < 0 -> cmp b c < 0 -> cmp a c < 0;
  cmp_equal : forall a b c, cmp a b = 0 -> Z.sgn (cmp a c) = Z.sgn (cmp b c);
}.

Section comparators.
Context {Key : Type}.
Context (cmp_nn : loc -> loc -> Z) (cmp_kn : Key -> loc -> Z).

(** The descent of [rbtree_insert]: [Some (parent, p)] when the free slot [p] is
    reached, [None] when an equal node is met. *)
Fixpoint insert_descend (fuel : nat) (node : loc) (parent : ptr) (p : slot) :
    M rbst (option (ptr * slot)) :=
  match fuel with
  | O => ub
  | S fuel =>
      c ← read_slot p;
      match c with
      | None => mret (Some (parent, p))
      | Some q =>
          let r := cmp_nn node q in
          if r <? 0 then insert_descend fuel node (Some q) (SLeft q)
          else if 0 <? r then insert_descend fuel node (Some q) (SRight q)
          else mret None
      end
  end.

Definition rbtree_insert (node : loc) : M rbst unit :=
  fuel ← gets (fun s => S (size (tmem s)));
  found ← insert_descend fuel node None SRoot;
  match found with
  | None => mret tt
  | Some (parent, p) =>
      _rbtree_link_node (Some node) parent p;;
      _rbtree_insert_color (Some node)
  end.

Fixpoint find_loop (fuel : nat) (key : Key) (n : ptr) : M rbst ptr :=
  match fuel with
  | O => ub
  | S fuel =>
      match n with
      | None => mret None
      | Some q =>
          let r := cmp_kn key q in
          nd ← deref n;
          if r <? 0 then find_loop fuel key (bleft nd)
          else if 0 <? r then find_loop fuel key (bright nd)
          else mret n
      end
  end.
Definition rbtree_find (key : Key) : M rbst ptr :=
  fuel ← gets (fun s => S (size (tmem s)));
  root ← get_root;
  find_loop fuel key root.

End comparators.

(** [while ((parent = node->parent) && node == parent->right) node = parent;] *)
Fixpoint climb_right (fuel : nat) (node : ptr) : M rbst ptr :=
  match fuel with
  | O => ub
  | S fuel =>
      n ← deref node;
      match bparent n with
      | None => mret None
      | Some q =>
          p ← deref (Some q);
          if bool_decide (node = bright p) then climb_right fuel (Some q)
          else mret (Some q)
      end
  end.
Fixpoint climb_left (fuel : nat) (node : ptr) : M rbst ptr :=
  match fuel with
  | O => ub
  | S fuel =>
      n ← deref node;
      match bparent n with
      | None => mret None
      | Some q =>
          p ← deref (Some q);
          if bool_decide (node = bleft p) then climb_left fuel (Some q)
          else mret (Some q)
      end
  end.

Definition rbtree_next (node : ptr) : M rbst ptr :=
  n ← deref node;
  match bright n with
  | Some r => leftmost (Some r)
  | None => fuel ← gets (fun s => S (size (tmem s))); climb_right fuel node
  end.

Definition rbtree_prev (node : ptr) : M rbst ptr :=
  n ← deref node;
  match bleft n with
  | Some l => rightmost (Some l)
  | None => fuel ← gets (fun s => S (size (tmem s))); climb_left fuel node
  end.

Definition rbtree_min : M rbst ptr :=
  n ← get_root;
  match n with None => mret None | Some _ => leftmost n end.

Definition rbtree_max : M rbst ptr :=
  n ← get_root;
  match n with None => mret None | Some _ => rightmost n end.
