(* ===== verification/RBTreeMem.v ===== *)
(** * The red-black tree: pointer steps and the colour invariant

    What the field updates and rotations of [rbtree.c] do to a represented tree,
    and the red-black invariant on trees and on one-hole contexts. *)

From S2P Require Import Prelude LinkedTree RBTree.

(** ** Pointer lemmas: what the relinking steps do to a represented tree *)

Lemma srep_color s K l x (c : color) r c' :
  srep s (plug K (Node l x c r)) ->
  exists s', upd (Some x) (upd_color c') s = Some (tt, s') /\ srep s' (plug K (Node l x c' r)).
Proof.
  intros H. erewrite upd_eq by by eapply srep_focus. eexists; split; [done|].
  rewrite srep_zrep in H |- *. destruct H as (Hr & (Hx & Hl & Hr') & HK & Hnd). simpl in *.
  pose proof Hnd as Hnd'. nodup_split Hnd.
  unfold zrep; simpl; split_and!; [by rewrite Hr; apply rootp_plug_eq| | | | |done].
  - lookup.
  - frame_tree.
  - frame_tree.
  - frame_ctx.
Qed.

Lemma rotate_left_ok s K a x cx b y cy c :
  srep s (plug K (Node a x cx (Node b y cy c))) ->
  exists s', _rbtree_rotate_left (Some x) s = Some (tt, s')
    /\ srep s' (plug K (Node (Node a x cx b) y cy c)).
Proof.
  setoid_rewrite srep_zrep.
  intros (Hr & (Hx & Ha & Hy & Hb & Hc) & HK & Hnd). simpl in *.
  pose proof (NoDup_ctx K (Node a x cx (Node b y cy c)) Hnd) as HndK.
  pose proof Hnd as Hnd'. nodup_split Hnd.
  unfold _rbtree_rotate_left. xload. xload. xstore.
  erewrite M_bind_Some.
  2: { apply set_parent_if_ok with (par := Some y). frame_tree. }
  simpl. xstore. xload. xstore.
  erewrite M_bind_Some.
  2: { apply relink_left_ok; [|set_solver]. frame_ctx. }
  simpl. erewrite upd_eq by lookup.
  eexists; split; [done|]. unfold zrep; simpl; split_and!.
  - by eapply hole_root_plug.
  - lookup.
  - lookup.
  - frame_tree.
  - frame_setp.
  - frame_tree.
  - frame_hole.
  - nodup_same.
Qed.

Lemma rotate_right_ok s K a y cy b x cx c :
  srep s (plug K (Node (Node a y cy b) x cx c)) ->
  exists s', _rbtree_rotate_right (Some x) s = Some (tt, s')
    /\ srep s' (plug K (Node a y cy (Node b x cx c))).
Proof.
  setoid_rewrite srep_zrep.
  intros (Hr & (Hx & (Hy & Ha & Hb) & Hc) & HK & Hnd). simpl in *.
  pose proof (NoDup_ctx K (Node (Node a y cy b) x cx c) Hnd) as HndK.
  pose proof Hnd as Hnd'. nodup_split Hnd.
  unfold _rbtree_rotate_right. xload. xload. xstore.
  erewrite M_bind_Some.
  2: { apply set_parent_if_ok with (par := Some y). frame_tree. }
  simpl. xstore. xload. xstore.
  erewrite M_bind_Some.
  2: { apply relink_right_ok; [|set_solver]. frame_ctx. }
  simpl. erewrite upd_eq by lookup.
  eexists; split; [done|]. unfold zrep; simpl; split_and!.
  - by eapply hole_root_plug.
  - lookup.
  - frame_tree.
  - lookup.
  - frame_setp.
  - frame_tree.
  - frame_hole.
  - nodup_same.
Qed.

(** ** The red-black invariant

    [rbt t c n]: [t] has root colour [c] (an absent tree is black), no red node
    has a red child, and every path to a leaf crosses [n] black nodes.
    [rbk K c n]: [K] becomes a valid tree with a black root when its hole is
    filled with a tree of root colour [c] and black height [n]. *)

Inductive rbt : rbtree -> color -> nat -> Prop :=
| rbt_leaf : rbt Leaf BLACK 0
| rbt_red l x r n : rbt l BLACK n -> rbt r BLACK n -> rbt (Node l x RED r) RED n
| rbt_black l x r c1 c2 n : rbt l c1 n -> rbt r c2 n -> rbt (Node l x BLACK r) BLACK (S n).

Inductive rbk : list rbframe -> color -> nat -> Prop :=
| rbk_nil n : rbk [] BLACK n
| rbk_left_black K x r c c2 n : rbt r c2 n -> rbk K BLACK (S n) -> rbk (FL x BLACK r :: K) c n
| rbk_right_black K x l c c2 n : rbt l c2 n -> rbk K BLACK (S n) -> rbk (FR l x BLACK :: K) c n
| rbk_left_red K x r n : rbt r BLACK n -> rbk K RED n -> rbk (FL x RED r :: K) BLACK n
| rbk_right_red K x l n : rbt l BLACK n -> rbk K RED n -> rbk (FR l x RED :: K) BLACK n.

Definition blacken (t : rbtree) : rbtree :=
  match t with Leaf => Leaf | Node l x _ r => Node l x BLACK r end.

(** A well-formed tree: black root and the two colour rules. *)
Definition rb_tree (t : rbtree) : Prop := exists n, rbt t BLACK n.

#[export] Hint Constructors rbt rbk : rb.

Lemma rbk_RED_BLACK K n : rbk K RED n -> rbk K BLACK n.
Proof. inversion 1; subst; eauto with rb. Qed.
#[export] Hint Resolve rbk_RED_BLACK : rb.

Lemma rbt_plug K t c n : rbt t c n -> rbk K c n -> rb_tree (plug K t).
Proof.
  revert t c n; induction K as [|f K IH]; intros t c n Ht HK; inversion HK; subst; simpl.
  - by exists n.
  - eapply IH; [|done]; eauto with rb.
  - eapply IH; [|done]; eauto with rb.
  - eapply IH; [|done]; eauto with rb.
  - eapply IH; [|done]; eauto with rb.
Qed.

Lemma rbt_unplug K t n : rbt (plug K t) BLACK n -> exists c k, rbt t c k /\ rbk K c k.
Proof.
  revert t; induction K as [|[x c r|l x c] K IH]; intros t H; simpl in H.
  - exists BLACK, n; eauto with rb.
  - destruct (IH _ H) as (c' & k & Ht & HK). inversion Ht; subst; eauto 10 with rb.
  - destruct (IH _ H) as (c' & k & Ht & HK). inversion Ht; subst; eauto 10 with rb.
Qed.

Lemma elems_blacken t : elems (blacken t) = elems t.
Proof. by destruct t. Qed.

Lemma is_red_ok s par t c n :
  trep (tmem s) par t -> rbt t c n -> is_red (rootp t) s = Some (bool_decide (c = RED), s).
Proof.
  destruct t as [|l x cx r]; simpl; intros H Hc; [by inversion Hc|].
  destruct H as (Hx & _). inversion Hc; subst; by xload.
Qed.

Lemma is_black_ok s par t c n :
  trep (tmem s) par t -> rbt t c n -> is_black (rootp t) s = Some (bool_decide (c = BLACK), s).
Proof.
  destruct t as [|l x cx r]; simpl; intros H Hc; [by inversion Hc|].
  destruct H as (Hx & _). inversion Hc; subst; by xload.
Qed.

Lemma is_red_at s p nd :
  tmem s !! p = Some nd -> is_red (Some p) s = Some (bool_decide (bcolor nd = RED), s).
Proof. intros H; simpl; by xload. Qed.

Lemma is_black_at s p nd :
  tmem s !! p = Some nd -> is_black (Some p) s = Some (bool_decide (bcolor nd = BLACK), s).
Proof. intros H; simpl; by xload. Qed.

(** Run a recolouring (rotation) at the focus [K] of the tree represented by [H]. *)
Ltac xcolor H K c :=
  let s1 := fresh "s" in let E := fresh "E" in let H1 := fresh "H" in
  destruct (srep_color _ K _ _ _ _ c H) as (s1 & E & H1);
  erewrite M_bind_Some by exact E; clear E; clear H; rename H1 into H;
  cbn [plug mret M_ret] in *; cbv beta iota.
Ltac xrotl H K :=
  let s1 := fresh "s" in let E := fresh "E" in let H1 := fresh "H" in
  destruct (rotate_left_ok _ K _ _ _ _ _ _ _ H) as (s1 & E & H1);
  erewrite M_bind_Some by exact E; clear E; clear H; rename H1 into H;
  cbn [plug] in *; cbv beta iota.
Ltac xrotr H K :=
  let s1 := fresh "s" in let E := fresh "E" in let H1 := fresh "H" in
  destruct (rotate_right_ok _ K _ _ _ _ _ _ _ H) as (s1 & E & H1);
  erewrite M_bind_Some by exact E; clear E; clear H; rename H1 into H;
  cbn [plug] in *; cbv beta iota.

(** A tree of three black nodes, and the store that holds it beside an unlinked
    node 5: the running example of the witnesses. *)
Definition ex_cmp (a b : loc) : Z := Z.pos a - Z.pos b.
#[export] Instance ex_cmp_comparator : Comparator ex_cmp.
Proof. split; unfold ex_cmp; intros; lia. Qed.

Definition ex_tree : rbtree := Node (Node Leaf 2 BLACK Leaf) 4 BLACK (Node Leaf 6 BLACK Leaf).
Definition ex_store : rbst :=
  TSt (<[2%positive := BNode None None (Some 4%positive) BLACK]>
      (<[4%positive := BNode (Some 2%positive) (Some 6%positive) None BLACK]>
      (<[6%positive := BNode None None (Some 4%positive) BLACK]>
      (<[5%positive := BNode None None None RED]> ∅)))) (Some 4%positive).

Lemma ex_srep : srep ex_store ex_tree.
Proof. unfold srep. split_and!; [done| |by apply (bool_decide_unpack _)]. simpl. by split_and!. Qed.
Lemma ex_rb_tree : rb_tree ex_tree.
Proof. exists 2%nat. unfold ex_tree. eauto 10 with rb. Qed.
