(* ===== verification/RBTreeInsert.v ===== *)
(** * Correctness of [rbtree_insert] *)

From S2P Require Import Prelude LinkedTree RBTree RBTreeMem.

Lemma insert_color_stop fuel s K l x r n :
  srep s (plug K (Node l x RED r)) ->
  (forall p, kpar K = Some p -> exists nd, tmem s !! p = Some nd /\ bcolor nd = BLACK) ->
  insert_color_loop (S n + fuel) (Some x) s = Some (tt, s).
Proof.
  intros H HK. simpl. pose proof (srep_focus _ _ _ _ _ _ H) as Hx. xload.
  destruct (kpar K) as [p|]; simpl; [|done].
  destruct (HK p eq_refl) as (nd & Hp & Hc).
  unfold mbind at 1, M_bind at 1. erewrite M_bind_Some by (by apply deref_eq). by rewrite Hc.
Qed.

Lemma rb_tree_blacken t : rb_tree t -> rb_tree (blacken t).
Proof. intros [n H]. destruct H; simpl; eexists; eauto with rb. Qed.

Lemma plug_not_leaf K l x (c : color) r : plug K (Node l x c r) <> Leaf.
Proof. revert l x c r; induction K as [|[] K IH]; simpl; intros; [done| |]; apply IH. Qed.

Lemma rbt_blacken t c n : rbt t c n -> exists k, rbt (blacken t) BLACK k.
Proof. destruct 1; simpl; eauto with rb. Qed.

(** What the fix-up promises: it terminates with a tree that holds the same
    nodes in the same order and is well formed once its root is black. *)
Definition fixed (o : option (unit * rbst)) (xs : list loc) : Prop :=
  exists s' T, o = Some (tt, s') /\ srep s' T /\ elems T = xs /\ T <> Leaf /\ rb_tree (blacken T).

Lemma fixed_stop fuel s K l x r n :
  srep s (plug K (Node l x RED r)) ->
  match K with [] | FL _ BLACK _ :: _ | FR _ _ BLACK :: _ => True | _ => False end ->
  rbt l BLACK n -> rbt r BLACK n -> rbk K BLACK n ->
  fixed (insert_color_loop (S fuel) (Some x) s) (elems (plug K (Node l x RED r))).
Proof.
  intros H Hc Hl Hr HK. exists s, (plug K (Node l x RED r)). split_and!; [|done|done| |].
  - apply (insert_color_stop fuel _ _ _ _ _ 0 H). intros p Hp.
    rewrite srep_zrep in H. destruct H as (_ & _ & HKr & _).
    destruct K as [|[y [] t|t y []] K]; simpl in *; try done.
    all: injection Hp as <-; destruct HKr as (Hy & _); by eexists.
  - apply plug_not_leaf.
  - destruct K as [|[y [] t|t y []] K]; simpl in Hc; try done.
    + exists (S n); simpl; eauto with rb.
    + apply rb_tree_blacken, (rbt_plug _ _ RED n); [eauto with rb|inversion HK; subst; eauto with rb].
    + apply rb_tree_blacken, (rbt_plug _ _ RED n); [eauto with rb|inversion HK; subst; eauto with rb].
Qed.

Lemma fixed_eq o xs ys : fixed o xs -> xs = ys -> fixed o ys.
Proof. by intros ? <-. Qed.

(** ** One iteration of the loop, by the position of parent and node

    [IH] is what the remaining iterations do when the conflict moves up to the
    grandparent. *)
Section iteration.
Context (fuel : nat) (K'' : list rbframe) (n : nat).
Context (IH : forall s l x r,
  srep s (plug K'' (Node l x RED r)) ->
  rbt l BLACK (S n) -> rbt r BLACK (S n) -> rbk K'' BLACK (S n) ->
  fixed (insert_color_loop (S fuel) (Some x) s) (elems (plug K'' (Node l x RED r)))).
Context (s : rbst) (l r q u : rbtree) (x p g : loc) (cu : color).
Context (Hl : rbt l BLACK n) (Hr : rbt r BLACK n) (Hq : rbt q BLACK n) (Hu : rbt u cu n).
Context (HK'' : rbk K'' BLACK (S n)).

(** Case A, node on the left of its parent. *)
Lemma insert_step_ll :
  srep s (plug K'' (Node (Node (Node l x RED r) p RED q) g BLACK u)) ->
  fixed (insert_color_loop (S (S fuel)) (Some x) s)
    (elems (plug K'' (Node (Node (Node l x RED r) p RED q) g BLACK u))).
Proof.
  intros H.
  pose proof (srep_subtree _ _ _ H) as (Hg & (Hp & (Hx & _) & _) & Ht). simpl in Hg, Hp, Hx.
  unfold insert_color_loop at 1; fold insert_color_loop. xload.
  erewrite M_bind_Some by (by eapply is_red_at); simpl. xload. xload.
  rewrite bool_decide_true by done.
  erewrite M_bind_Some by (by eapply is_red_ok).
  destruct cu.
- rewrite bool_decide_true by done. inversion Hu as [|ul ux ur ? Hul Hur|]; subst.
  cbn [rootp].
  xcolor H (FR (Node (Node l x RED r) p RED q) g BLACK :: K'') BLACK.
  xcolor H (FL g BLACK (Node ul ux BLACK ur) :: K'') BLACK.
  xcolor H K'' RED.
  eapply fixed_eq; [eapply (IH _ _ _ _ H); eauto with rb|same_elems].
- rewrite bool_decide_false by done.
  rewrite bool_decide_false by (by eapply (srep_right_ne _ (FL g BLACK u :: K''))).
  xret. xcolor H (FL g BLACK u :: K'') BLACK.
  xcolor H K'' RED.
  xrotr H K''.
  eapply fixed_eq;
    [eapply (fixed_stop _ _ (FL p BLACK (Node q g RED u) :: K'') l x r n H); eauto with rb|same_elems].
Qed.

(** Case B, node on the left: the triangle is rotated first. *)
Lemma insert_step_rl :
  srep s (plug K'' (Node u g BLACK (Node (Node l x RED r) p RED q))) ->
  fixed (insert_color_loop (S (S fuel)) (Some x) s)
    (elems (plug K'' (Node u g BLACK (Node (Node l x RED r) p RED q)))).
Proof.
  intros H.
  pose proof (srep_subtree _ _ _ H) as (Hg & Ht & (Hp & (Hx & _) & _)). simpl in Hg, Hp, Hx.
  unfold insert_color_loop at 1; fold insert_color_loop. xload.
  erewrite M_bind_Some by (by eapply is_red_at); simpl. xload. xload.
  rewrite bool_decide_false by (by intros E; symmetry in E; revert E; eapply srep_left_ne).
  erewrite M_bind_Some by (by eapply is_red_ok).
  destruct cu.
- rewrite bool_decide_true by done. inversion Hu as [|ul ux ur ? Hul Hur|]; subst.
  cbn [rootp].
  xcolor H (FL g BLACK (Node (Node l x RED r) p RED q) :: K'') BLACK.
  xcolor H (FR (Node ul ux BLACK ur) g BLACK :: K'') BLACK.
  xcolor H K'' RED.
  eapply fixed_eq; [eapply (IH _ _ _ _ H); eauto with rb|same_elems].
- rewrite bool_decide_false by done. rewrite bool_decide_true by done.
  rewrite M_bind_assoc. xrotr H (FR u g BLACK :: K''). xret.
  xcolor H (FR u g BLACK :: K'') BLACK. xcolor H K'' RED. xrotl H K''.
  eapply fixed_eq;
    [eapply (fixed_stop _ _ (FR (Node u g RED l) x BLACK :: K'') r p q n H); eauto with rb|same_elems].
Qed.

(** Case A, node on the right: the triangle is rotated first. *)
Lemma insert_step_lr :
  srep s (plug K'' (Node (Node q p RED (Node l x RED r)) g BLACK u)) ->
  fixed (insert_color_loop (S (S fuel)) (Some x) s)
    (elems (plug K'' (Node (Node q p RED (Node l x RED r)) g BLACK u))).
Proof.
  intros H.
  pose proof (srep_subtree _ _ _ H) as (Hg & (Hp & _ & (Hx & _)) & Ht). simpl in Hg, Hp, Hx.
  unfold insert_color_loop at 1; fold insert_color_loop. xload.
  erewrite M_bind_Some by (by eapply is_red_at); simpl. xload. xload.
  rewrite bool_decide_true by done.
  erewrite M_bind_Some by (by eapply is_red_ok).
  destruct cu.
- rewrite bool_decide_true by done. inversion Hu as [|ul ux ur ? Hul Hur|]; subst.
  cbn [rootp].
  xcolor H (FR (Node q p RED (Node l x RED r)) g BLACK :: K'') BLACK.
  xcolor H (FL g BLACK (Node ul ux BLACK ur) :: K'') BLACK.
  xcolor H K'' RED.
  eapply fixed_eq; [eapply (IH _ _ _ _ H); eauto with rb|same_elems].
- rewrite bool_decide_false by done. rewrite bool_decide_true by done.
  rewrite M_bind_assoc. xrotl H (FL g BLACK u :: K''). xret.
  xcolor H (FL g BLACK u :: K'') BLACK. xcolor H K'' RED. xrotr H K''.
  eapply fixed_eq;
    [eapply (fixed_stop _ _ (FL x BLACK (Node r g RED u) :: K'') q p l n H); eauto with rb|same_elems].
Qed.

(** Case B, node on the right. *)
Lemma insert_step_rr :
  srep s (plug K'' (Node u g BLACK (Node q p RED (Node l x RED r)))) ->
  fixed (insert_color_loop (S (S fuel)) (Some x) s)
    (elems (plug K'' (Node u g BLACK (Node q p RED (Node l x RED r))))).
Proof.
  intros H.
  pose proof (srep_subtree _ _ _ H) as (Hg & Ht & (Hp & _ & (Hx & _))). simpl in Hg, Hp, Hx.
  unfold insert_color_loop at 1; fold insert_color_loop. xload.
  erewrite M_bind_Some by (by eapply is_red_at); simpl. xload. xload.
  rewrite bool_decide_false by (by intros E; symmetry in E; revert E; eapply srep_left_ne).
  erewrite M_bind_Some by (by eapply is_red_ok).
  destruct cu.
- rewrite bool_decide_true by done. inversion Hu as [|ul ux ur ? Hul Hur|]; subst.
  cbn [rootp].
  xcolor H (FL g BLACK (Node q p RED (Node l x RED r)) :: K'') BLACK.
  xcolor H (FR (Node ul ux BLACK ur) g BLACK :: K'') BLACK.
  xcolor H K'' RED.
  eapply fixed_eq; [eapply (IH _ _ _ _ H); eauto with rb|same_elems].
- rewrite bool_decide_false by done.
  rewrite bool_decide_false by (by eapply (srep_left_ne _ (FR u g BLACK :: K''))).
  xret. xcolor H (FR u g BLACK :: K'') BLACK.
  xcolor H K'' RED.
  xrotl H K''.
  eapply fixed_eq;
    [eapply (fixed_stop _ _ (FR (Node u g RED q) p BLACK :: K'') l x r n H); eauto with rb|same_elems].
Qed.

End iteration.

Lemma insert_color_loop_ok fuel : forall s K l x r n,
  srep s (plug K (Node l x RED r)) ->
  rbt l BLACK n -> rbt r BLACK n -> rbk K BLACK n -> (length K < fuel)%nat ->
  fixed (insert_color_loop fuel (Some x) s) (elems (plug K (Node l x RED r))).
Proof.
  induction fuel as [|fuel IH]; intros s K l x r n H Hl Hr HK Hf; [lia|].
  inversion HK as [ | | |K' p pr ? Hpr HK' | K' p pl ? Hpl HK']; subst;
    [by eapply fixed_stop|by eapply fixed_stop|by eapply fixed_stop| | ].
  all: inversion HK' as [|K'' g u ? cu ? Hu HK''|K'' g u ? cu ? Hu HK''| |]; subst.
  all: cbn [plug] in *; simpl in Hf; destruct fuel as [|fuel]; [lia|].
  - eapply insert_step_ll; eauto. intros; eapply IH; eauto; lia.
  - eapply insert_step_rl; eauto. intros; eapply IH; eauto; lia.
  - eapply insert_step_lr; eauto. intros; eapply IH; eauto; lia.
  - eapply insert_step_rr; eauto. intros; eapply IH; eauto; lia.
Qed.

(** ** Linking a new leaf *)

Lemma link_node_ok s K x nd :
  srep s (plug K Leaf) -> x ∉ elems (plug K Leaf) -> tmem s !! x = Some nd ->
  exists s', _rbtree_link_node (Some x) (kpar K) (slot_of K) s = Some (tt, s')
    /\ srep s' (plug K (Node Leaf x RED Leaf)).
Proof.
  rewrite srep_zrep, elems_plug. setoid_rewrite srep_zrep.
  intros (Hr & _ & HK & Hnd) Hx Hnode. simpl in *.
  pose proof Hnd as HndK. nodup_split Hnd.
  unfold _rbtree_link_node. xstore. xstore. xstore. xstore.
  erewrite write_slot_ok by frame_ctx.
  eexists; split; [done|]. unfold zrep; simpl; split_and!.
  - by eapply hole_root_plug.
  - lookup.
  - done.
  - done.
  - frame_hole.
  - rewrite NoDup_app, NoDup_cons. set_solver.
Qed.

Section insert.
Context {cmp_nn : loc -> loc -> Z} `{!Comparator cmp_nn}.

(** In-order, every node sorts strictly before the ones that follow. *)
Definition ordered (t : rbtree) : Prop := StronglySorted (fun a b => cmp_nn a b < 0) (elems t).

(** Insertion in an ordered list; a node equal to a stored one is dropped. *)
Fixpoint sinsert (x : loc) (l : list loc) : list loc :=
  match l with
  | [] => [x]
  | y :: l' =>
      if cmp_nn x y <? 0 then x :: l
      else if 0 <? cmp_nn x y then y :: sinsert x l'
      else l
  end.

Lemma ordered_split K l y c r :
  ordered (plug K (Node l y c r)) ->
  (forall z, z ∈ elems l -> cmp_nn z y < 0) /\ (forall z, z ∈ elems r -> cmp_nn y z < 0).
Proof.
  unfold ordered. rewrite elems_plug. simpl. intros H.
  apply StronglySorted_app_1_r, StronglySorted_app_1_l in H. split; intros z Hz.
  - apply (StronglySorted_app_1_elem_of (fun a b => cmp_nn a b < 0) _ _ z y H Hz). set_solver.
  - apply StronglySorted_app_1_r in H. apply StronglySorted_inv in H as [_ H].
    rewrite Forall_forall in H. by apply H.
Qed.

Lemma sinsert_skip x xs ys :
  Forall (fun y => 0 < cmp_nn x y) xs -> sinsert x (xs ++ ys) = xs ++ sinsert x ys.
Proof.
  induction 1 as [|y xs Hy H IH]; simpl; [done|].
  rewrite (proj2 (Z.ltb_ge _ _)), (proj2 (Z.ltb_lt _ _)) by lia. by rewrite IH.
Qed.

Lemma sinsert_stop x ys :
  Forall (fun y => cmp_nn x y < 0) ys -> sinsert x ys = x :: ys.
Proof. destruct 1 as [|y ys Hy H]; simpl; [done|]. by rewrite (proj2 (Z.ltb_lt _ _)). Qed.

Lemma insert_descend_ok s x fuel : forall K t,
  srep s (plug K t) -> (length (elems t) < fuel)%nat ->
  ordered (plug K t) -> Forall (fun y => 0 < cmp_nn x y) (kl K) ->
  Forall (fun y => cmp_nn x y < 0) (kr K) ->
  exists o, insert_descend cmp_nn fuel x (kpar K) (slot_of K) s = Some (o, s)
    /\ match o with
       | None => sinsert x (elems (plug K t)) = elems (plug K t)
       | Some (par, p) =>
           exists K', par = kpar K' /\ p = slot_of K' /\ plug K' Leaf = plug K t
             /\ Forall (fun y => 0 < cmp_nn x y) (kl K') /\ Forall (fun y => cmp_nn x y < 0) (kr K')
       end.
Proof.
  induction fuel as [|fuel IH]; intros K t H Hf Ho HL HR; [lia|].
  simpl. erewrite M_bind_Some by (by eapply read_slot_ok).
  destruct t as [|l y c r]; cbn [rootp].
  { eexists; split; [done|]. exists K. done. }
  destruct (ordered_split _ _ _ _ _ Ho) as [Hl Hr]. simpl in Hf. rewrite length_app in Hf. simpl in Hf.
  destruct (Z.ltb_spec (cmp_nn x y) 0); [|destruct (Z.ltb_spec 0 (cmp_nn x y))].
  - apply (IH (FL y c r :: K) l); [done|lia|done|done|].
    simpl. apply Forall_cons; split; [done|]. apply Forall_app; split; [|done].
    apply Forall_forall. intros z Hz. eapply cmp_trans; [done|]. by apply Hr.
  - apply (IH (FR l y c :: K) r); [done|lia|done| |done].
    simpl. rewrite !Forall_app, Forall_singleton. split_and!; [done| |done].
    apply Forall_forall. intros z Hz. apply cmp_flip. eapply cmp_trans; [by apply Hl|].
    by apply cmp_flip.
  - eexists; split; [done|]. rewrite elems_plug. simpl.
    assert (cmp_nn x y = 0) as E by lia.
    rewrite (sinsert_skip _ (kl K)), <-!app_assoc, sinsert_skip; [| |done].
    + simpl. by rewrite E.
    + apply Forall_forall. intros z Hz. apply cmp_flip. specialize (Hl z Hz).
      pose proof (cmp_equal x y z). pose proof (cmp_flip z y). pose proof (cmp_flip z x). lia.
Qed.

Lemma insert_color_ok s K x n :
  srep s (plug K (Node Leaf x RED Leaf)) -> rbk K BLACK n -> n = 0%nat ->
  exists s' t', _rbtree_insert_color (Some x) s = Some (tt, s')
    /\ srep s' t' /\ rb_tree t' /\ elems t' = kl K ++ x :: kr K.
Proof.
  intros H HK ->. pose proof (srep_depth _ _ _ H) as Hd. simpl in Hd.
  destruct (insert_color_loop_ok (S (size (tmem s))) _ _ _ _ _ 0 H) as (s1 & T & E & HT & He & HTl & Hrb);
    [eauto with rb|eauto with rb|done|lia|].
  unfold _rbtree_insert_color, gets. xret.
  erewrite M_bind_Some by exact E. cbv beta. unfold get_root, gets. xret.
  destruct T as [|l y c r]; [done|].
  destruct (srep_color s1 [] l y c r BLACK HT) as (s2 & E2 & H2).
  exists s2, (Node l y BLACK r). rewrite (proj1 HT). simpl in *. split_and!; try done.
  rewrite He, elems_plug. done.
Qed.

Lemma sinsert_elem x y l : y ∈ sinsert x l -> y = x \/ y ∈ l.
Proof.
  induction l as [|z l IH]; simpl; [set_solver|].
  destruct (cmp_nn x z <? 0), (0 <? cmp_nn x z); set_solver.
Qed.

Lemma sinsert_sorted x l :
  StronglySorted (fun a b => cmp_nn a b < 0) l ->
  StronglySorted (fun a b => cmp_nn a b < 0) (sinsert x l).
Proof.
  induction 1 as [|y l Hs IH Hy]; simpl; [by repeat constructor|].
  destruct (Z.ltb_spec (cmp_nn x y) 0).
  { constructor; [by constructor|]. constructor; [done|].
    eapply Forall_impl; [exact Hy|]. intros z Hz. by eapply cmp_trans. }
  destruct (Z.ltb_spec 0 (cmp_nn x y)); [|by constructor].
  constructor; [done|]. apply Forall_forall. intros z [->|Hz]%sinsert_elem.
  - by apply cmp_flip.
  - rewrite Forall_forall in Hy. by apply Hy.
Qed.

(** C1 [rbtree_insert] terminates without undefined behaviour, keeps
    the red-black and search-tree invariants, and puts the node at its place in
    the order; a node that compares equal to a stored one leaves the tree's nodes
    as they were. *)
Theorem rbtree_insert_correct s t x :
  srep s t -> rb_tree t -> ordered t -> x ∉ elems t -> is_Some (tmem s !! x) ->
  exists s' t', rbtree_insert cmp_nn x s = Some (tt, s')
    /\ srep s' t' /\ rb_tree t' /\ ordered t' /\ elems t' = sinsert x (elems t).
Proof.
  intros H Hrb Ho Hx [nd Hnd]. pose proof (srep_depth s [] t H) as Hd. simpl in Hd.
  destruct (insert_descend_ok s x (S (size (tmem s))) [] t H) as (o & E & Ho'); try done || lia; simpl in *.
  unfold rbtree_insert, gets. xret. erewrite M_bind_Some by exact E. cbv beta.
  destruct o as [[par p]|]; [|exists s, t; by split_and!].
  destruct Ho' as (K & -> & -> & <- & HL & HR).
  destruct (link_node_ok s K x nd H Hx Hnd) as (s1 & E1 & H1).
  destruct Hrb as [n Hn]. apply rbt_unplug in Hn as (c & k & Hl & HK). inversion Hl; subst.
  destruct (insert_color_ok s1 K x 0 H1 HK eq_refl) as (s2 & t' & E2 & H2 & Hrb & He).
  erewrite M_bind_Some by exact E1. cbv beta.
  assert (elems t' = sinsert x (elems (plug K Leaf))) as He'.
  { rewrite elems_plug, sinsert_skip, sinsert_stop by done. done. }
  exists s2, t'. split_and!; try done. unfold ordered. rewrite He'. by apply sinsert_sorted.
Qed.

End insert.

Lemma ex_ordered : ordered (cmp_nn := ex_cmp) ex_tree.
Proof. repeat constructor. Qed.

Lemma rbtree_insert_correct_witness :
  exists s' t', rbtree_insert ex_cmp 5 ex_store = Some (tt, s')
    /\ srep s' t' /\ rb_tree t' /\ ordered (cmp_nn := ex_cmp) t'
    /\ elems t' = [2; 4; 5; 6]%positive.
Proof.
  apply (rbtree_insert_correct (cmp_nn := ex_cmp) ex_store ex_tree 5
           ex_srep ex_rb_tree ex_ordered).
  - by apply (bool_decide_unpack _).
  - by eexists.
Defined.
