(* ===== verification/RBTreeRemove.v ===== *)
(** * Correctness of [rbtree_remove] *)

From S2P Require Import Prelude LinkedTree RBTree RBTreeMem.

(** ** The colour fix-up

    A subtree with one black node too few on its paths: it is black, or it is red
    and recolouring its root makes up for the missing node. *)
Definition deficient (t : rbtree) (n : nat) : Prop :=
  match t with
  | Node _ _ RED _ => rbt (blacken t) BLACK (S n)
  | _ => rbt t BLACK n
  end.

(** The loop leaves with [node = rootp t] at the focus [K]; colouring it black
    yields a well-formed tree with the nodes [xs]. *)
Definition erased (o : option (ptr * rbst)) (xs : list loc) : Prop :=
  exists s' K t, o = Some (rootp t, s') /\ srep s' (plug K t)
    /\ elems (plug K t) = xs /\ rb_tree (plug K (blacken t)).

Lemma erased_eq o xs ys : erased o xs -> xs = ys -> erased o ys.
Proof. by intros ? <-. Qed.

Definition red_root (t : rbtree) : bool := match t with Node _ _ RED _ => true | _ => false end.

(** Iterations still needed: a red focus ends the loop at once. *)
Definition steps_left (K : list rbframe) (t : rbtree) : nat :=
  if red_root t then 0%nat else length K.

Lemma erased_root s K t :
  srep s (plug K t) -> rb_tree (plug K t) -> erased (get_root s) (elems (plug K t)).
Proof.
  intros H Hrb. exists s, [], (plug K t). split_and!; try done.
  - unfold get_root, gets. by rewrite (proj1 H).
  - destruct Hrb as [n Hn]. inversion Hn; subst; simpl; eexists; eauto with rb.
Qed.

(** The colour a restructured subtree takes over from the old parent. *)
Lemma rbt_take_color (c : color) (l r : rbtree) x n K k :
  rbt l BLACK n -> rbt r BLACK n -> k = (match c with RED => n | BLACK => S n end) ->
  rbk K c k -> rb_tree (plug K (Node l x c r)).
Proof. intros Hl Hr -> HK. destruct c; eapply rbt_plug; eauto with rb. Qed.

Section tail.
Context (again : ptr -> ptr -> M rbst ptr) (K' : list rbframe) (n : nat) (cp : color) (p : loc).
Context (t : rbtree) (Ht : rbt t BLACK n).
Context (HK' : rbk K' cp (match cp with RED => S n | BLACK => S (S n) end)).
Context (Hagain : forall s u v, srep s (plug K' (Node u p cp v)) ->
  deficient (Node u p cp v) (match cp with RED => n | BLACK => S n end) ->
  erased (again (Some p) (kpar K') s) (elems (plug K' (Node u p cp v)))).

Lemma erase_left_tail_ok s a o b c1 c2 :
  srep s (plug K' (Node t p cp (Node a o BLACK b))) -> rbt a c1 n -> rbt b c2 n ->
  erased (erase_left_tail again (Some p) (Some o) s)
    (elems (plug K' (Node t p cp (Node a o BLACK b)))).
Proof.
  intros H Ha Hb. pose proof (srep_subtree _ _ _ H) as (Hp & Htt & (Ho & Hta & Htb)).
  simpl in Hp, Ho. unfold erase_left_tail. xload.
  erewrite M_bind_Some by (by eapply is_black_ok).
  erewrite M_bind_Some by (by eapply is_black_ok).
  destruct c2; [destruct c1; simpl|destruct c1; simpl].
  1,2: (* the far child of the sibling is red: one rotation *)
    inversion Hb as [|ba y bb ? Hba Hbb|]; subst; xret; xload;
    xcolor H (FR t p cp :: K') cp; xcolor H K' BLACK;
    pose proof (srep_focus _ (FR t p BLACK :: K') _ _ _ _ H) as Ho'; xload;
    xcolor H (FR a o cp :: FR t p BLACK :: K') BLACK; xrotl H K';
    (eapply erased_eq; [eapply (erased_root _ K'); [exact H|eapply rbt_take_color; eauto with rb]|same_elems]).
  - (* only the near child is red: rotate it outwards first *)
    inversion Ha as [|aa y ab ? Haa Hab|]; subst. rewrite M_bind_assoc.
    xcolor H (FL o BLACK b :: FR t p cp :: K') BLACK. rewrite M_bind_assoc.
    xcolor H (FR t p cp :: K') RED. rewrite M_bind_assoc.
    xrotr H (FR t p cp :: K'). rewrite M_bind_assoc.
    pose proof (srep_focus _ K' _ _ _ _ H) as Hp'. xload. xret. clear Hp. xload.
    xcolor H (FR t p cp :: K') cp. xcolor H K' BLACK.
    pose proof (srep_focus _ (FR t p BLACK :: K') _ _ _ _ H) as Hy'. xload.
    xcolor H (FR aa y cp :: FR t p BLACK :: K') BLACK. xrotl H K'.
    eapply erased_eq; [eapply (erased_root _ K'); [exact H|eapply rbt_take_color; eauto with rb]|same_elems].
  - (* both children black: the deficit moves up *)
    xcolor H (FR t p cp :: K') RED.
    pose proof (srep_focus _ K' _ _ _ _ H) as Hp'. clear Hp. xload.
    eapply erased_eq; [apply (Hagain _ _ _ H)|same_elems].
    destruct cp; simpl; eauto with rb.
Qed.

Lemma erase_right_tail_ok s a o b c1 c2 :
  srep s (plug K' (Node (Node a o BLACK b) p cp t)) -> rbt a c1 n -> rbt b c2 n ->
  erased (erase_right_tail again (Some p) (Some o) s)
    (elems (plug K' (Node (Node a o BLACK b) p cp t))).
Proof.
  intros H Ha Hb. pose proof (srep_subtree _ _ _ H) as (Hp & (Ho & Hta & Htb) & Htt).
  simpl in Hp, Ho. unfold erase_right_tail. xload.
  erewrite M_bind_Some by (by eapply is_black_ok).
  erewrite M_bind_Some by (by eapply is_black_ok).
  destruct c1; [destruct c2; simpl|destruct c2; simpl].
  1,2: (* the far child of the sibling is red: one rotation *)
    inversion Ha as [|aa y ab ? Haa Hab|]; subst; xret; xload;
    xcolor H (FL p cp t :: K') cp; xcolor H K' BLACK;
    pose proof (srep_focus _ (FL p BLACK t :: K') _ _ _ _ H) as Ho'; xload;
    xcolor H (FL o cp b :: FL p BLACK t :: K') BLACK; xrotr H K';
    (eapply erased_eq; [eapply (erased_root _ K'); [exact H|eapply rbt_take_color; eauto with rb]|same_elems]).
  - (* only the near child is red: rotate it outwards first *)
    inversion Hb as [|ba y bb ? Hba Hbb|]; subst. rewrite M_bind_assoc.
    xcolor H (FR a o BLACK :: FL p cp t :: K') BLACK. rewrite M_bind_assoc.
    xcolor H (FL p cp t :: K') RED. rewrite M_bind_assoc.
    xrotl H (FL p cp t :: K'). rewrite M_bind_assoc.
    pose proof (srep_focus _ K' _ _ _ _ H) as Hp'. xload. xret. clear Hp. xload.
    xcolor H (FL p cp t :: K') cp. xcolor H K' BLACK.
    pose proof (srep_focus _ (FL p BLACK t :: K') _ _ _ _ H) as Hy'. xload.
    xcolor H (FL y cp bb :: FL p BLACK t :: K') BLACK. xrotr H K'.
    eapply erased_eq; [eapply (erased_root _ K'); [exact H|eapply rbt_take_color; eauto with rb]|same_elems].
  - (* both children black: the deficit moves up *)
    xcolor H (FL p cp t :: K') RED.
    pose proof (srep_focus _ K' _ _ _ _ H) as Hp'. clear Hp. xload.
    eapply erased_eq; [apply (Hagain _ _ _ H)|same_elems].
    destruct cp; simpl; eauto with rb.
Qed.
End tail.

Lemma deficient_black t n :
  deficient t n -> red_root t = false -> rbt t BLACK n.
Proof. by destruct t as [|? ? [] ?]. Qed.

(** Leaving the loop: the focus is red, or it is the root. *)
Lemma erase_loop_exit fuel s K t n :
  srep s (plug K t) -> deficient t n -> rbk K BLACK (S n) ->
  (K = [] \/ red_root t = true) ->
  erased (erase_color_loop (S fuel) (rootp t) (kpar K) s) (elems (plug K t)).
Proof.
  intros H Hd HK Hexit. exists s, K, t. split_and!; try done.
  - cbn [erase_color_loop]. pose proof (srep_subtree _ _ _ H) as Ht.
    destruct t as [|l x [] r].
    + destruct Hexit as [->|?]; [|done]. unfold get_root, gets. simpl. xret. xret.
      destruct H as [-> _]. done.
    + destruct Ht as [Hx _]. erewrite M_bind_Some by (by eapply is_black_at). done.
    + destruct Hexit as [->|?]; [|done]. destruct Ht as [Hx _].
      erewrite M_bind_Some by (by eapply is_black_at). unfold get_root, gets. xret.
      destruct H as [-> _]. simpl. by rewrite bool_decide_true.
  - destruct t as [|l x [] r]; simpl in Hd.
    + destruct Hexit as [->|?]; [|done]. by eexists.
    + eapply rbt_plug; eauto.
    + destruct Hexit as [->|?]; [|done]. by eexists.
Qed.

Section iteration.
Context (fuel : nat).
Context (IH : forall s K t n,
  srep s (plug K t) -> deficient t n -> rbk K BLACK (S n) -> (steps_left K t < fuel)%nat ->
  erased (erase_color_loop fuel (rootp t) (kpar K) s) (elems (plug K t))).
Context (s : rbst) (K' : list rbframe) (p : loc) (cp cs : color) (t sib : rbtree) (n : nat).
Context (Ht : rbt t BLACK n) (Hs : rbt sib cs (S n)) (Hcs : cp = RED -> cs = BLACK).
Context (HK' : rbk K' cp (match cp with RED => S n | BLACK => S (S n) end)).
Context (Hf : (length K' < fuel)%nat).

Lemma again_ok s0 u v :
  srep s0 (plug K' (Node u p cp v)) ->
  deficient (Node u p cp v) (match cp with RED => n | BLACK => S n end) ->
  erased (erase_color_loop fuel (Some p) (kpar K') s0) (elems (plug K' (Node u p cp v))).
Proof.
  intros H Hd. apply (IH _ _ (Node u p cp v) _ H Hd).
  - destruct cp; eauto with rb.
  - unfold steps_left. destruct cp; simpl; lia.
Qed.

Lemma erase_iter_left :
  srep s (plug K' (Node t p cp sib)) ->
  erased (erase_color_loop (S fuel) (rootp t) (Some p) s) (elems (plug K' (Node t p cp sib))).
Proof.
  intros H. pose proof again_ok as Hagain.
  pose proof (srep_subtree _ _ _ H) as (Hp & Htt & Hts). simpl in Hp.
  pose proof (rootp_not_root _ (FL p cp sib :: K') _ H ltac:(done)) as Hne.
  cbn [erase_color_loop]. erewrite M_bind_Some by (by eapply is_black_ok).
  unfold get_root, gets. xret. rewrite (bool_decide_false (rootp t = troot s)) by done. simpl.
  xload. rewrite bool_decide_true by done.
  destruct sib as [|a o co b]; [by inversion Hs|]. destruct Hts as (Ho & Hta & Htb). simpl in Ho.
  cbn [rootp]. xload. destruct cs; inversion Hs as [|? ? ? ? Ha Hb|? ? ? c1 c2 ? Ha Hb]; subst; simpl.
  - destruct cp; [by specialize (Hcs eq_refl)|]. rewrite M_bind_assoc.
    xcolor H (FR t p BLACK :: K') BLACK. rewrite M_bind_assoc. xcolor H K' RED.
    rewrite M_bind_assoc. xrotl H K'. rewrite M_bind_assoc.
    pose proof (srep_focus _ (FL o BLACK b :: K') _ _ _ _ H) as Hp'. clear Hp. xload. xret.
    destruct a as [|aa ao ca ab]; [by inversion Ha|]. inversion Ha; subst.
    eapply erased_eq; [eapply (erase_left_tail_ok _ (FL o BLACK b :: K') n RED p t Ht); [| |exact H|..]|same_elems];
      eauto with rb.
    intros s' u v Hu Hd. apply (IH _ (FL o BLACK b :: K') (Node u p RED v) n Hu Hd); eauto with rb.
    unfold steps_left; simpl. lia.
  - xret. eapply erase_left_tail_ok; eauto.
Qed.

Lemma erase_iter_right :
  srep s (plug K' (Node sib p cp t)) ->
  erased (erase_color_loop (S fuel) (rootp t) (Some p) s) (elems (plug K' (Node sib p cp t))).
Proof.
  intros H. pose proof again_ok as Hagain.
  pose proof (srep_subtree _ _ _ H) as (Hp & Hts & Htt). simpl in Hp.
  pose proof (rootp_not_root _ (FR sib p cp :: K') _ H ltac:(done)) as Hne.
  cbn [erase_color_loop]. erewrite M_bind_Some by (by eapply is_black_ok).
  unfold get_root, gets. xret. rewrite (bool_decide_false (rootp t = troot s)) by done. simpl.
  xload. destruct sib as [|a o co b]; [by inversion Hs|]. destruct Hts as (Ho & Hta & Htb). simpl in Ho.
  cbn [rootp]. rewrite bool_decide_false by (intros E; symmetry in E; revert E; by eapply srep_right_ne).
  xload. destruct cs; inversion Hs as [|? ? ? ? Ha Hb|? ? ? c1 c2 ? Ha Hb]; subst; simpl.
  - destruct cp; [by specialize (Hcs eq_refl)|]. rewrite M_bind_assoc.
    xcolor H (FL p BLACK t :: K') BLACK. rewrite M_bind_assoc. xcolor H K' RED.
    rewrite M_bind_assoc. xrotr H K'. rewrite M_bind_assoc.
    pose proof (srep_focus _ (FR a o BLACK :: K') _ _ _ _ H) as Hp'. clear Hp. xload. xret.
    destruct b as [|ba bo cb bb]; [by inversion Hb|]. inversion Hb; subst.
    eapply erased_eq; [eapply (erase_right_tail_ok _ (FR a o BLACK :: K') n RED p t Ht); [| |exact H|..]|same_elems];
      eauto with rb.
    intros s' u v Hu Hd. apply (IH _ (FR a o BLACK :: K') (Node u p RED v) n Hu Hd); eauto with rb.
    unfold steps_left; simpl. lia.
  - xret. eapply erase_right_tail_ok; eauto.
Qed.
End iteration.

Lemma erase_color_loop_ok fuel : forall s K t n,
  srep s (plug K t) -> deficient t n -> rbk K BLACK (S n) -> (steps_left K t < fuel)%nat ->
  erased (erase_color_loop fuel (rootp t) (kpar K) s) (elems (plug K t)).
Proof.
  induction fuel as [|fuel IH]; intros s K t n H Hd HK Hf; [lia|].
  destruct (decide (K = [])) as [->|HKne]; [eapply erase_loop_exit; eauto|].
  destruct (red_root t) eqn:Hred; [eapply erase_loop_exit; eauto|].
  pose proof (deficient_black _ _ Hd Hred) as Ht. unfold steps_left in Hf. rewrite Hred in Hf.
  inversion HK as [|K' p sib ? cs ? Hs HK'|K' p sib ? cs ? Hs HK'|K' p sib ? Hs HK'|K' p sib ? Hs HK'];
    subst; simpl in Hf; [done|..].
  - eapply (erase_iter_left fuel IH s K' p BLACK cs t sib n); eauto; try done; lia.
  - eapply (erase_iter_right fuel IH s K' p BLACK cs t sib n); eauto; try done; lia.
  - eapply (erase_iter_left fuel IH s K' p RED BLACK t sib n); eauto; try done; lia.
  - eapply (erase_iter_right fuel IH s K' p RED BLACK t sib n); eauto; try done; lia.
Qed.

Lemma erase_color_ok s K t n :
  srep s (plug K t) -> deficient t n -> rbk K BLACK (S n) ->
  exists s' t', _rbtree_erase_color (rootp t) (kpar K) s = Some (tt, s')
    /\ srep s' t' /\ rb_tree t' /\ elems t' = elems (plug K t).
Proof.
  intros H Hd HK. pose proof (srep_depth _ _ _ H) as Hdepth.
  destruct (erase_color_loop_ok (S (S (size (tmem s)))) s K t n H Hd HK) as (s1 & K1 & t1 & E & H1 & He & Hrb).
  { unfold steps_left. destruct (red_root t); lia. }
  unfold _rbtree_erase_color, gets. xret. erewrite M_bind_Some by exact E. cbv beta.
  destruct t1 as [|l x c r]; simpl in *.
  - by exists s1, (plug K1 Leaf).
  - destruct (srep_color s1 K1 l x c r BLACK H1) as (s2 & E2 & H2).
    exists s2, (plug K1 (Node l x BLACK r)). split_and!; try done. rewrite <-He, !elems_plug. done.
Qed.

(** ** Unlinking *)

Lemma remove_spliced_ok s K l x c r t :
  srep s (plug K (Node l x c r)) -> (l = Leaf /\ t = r) \/ (r = Leaf /\ t = l) ->
  exists s', remove_spliced (Some x) (rootp t) s = Some ((rootp t, kpar K, c), s')
    /\ srep s' (plug K t).
Proof.
  intros H Ht. pose proof (srep_splice _ _ _ _ _ _ _ H Ht) as Hs.
  rewrite srep_zrep in H. destruct H as (_ & (Hx & Hl & Hr) & HK & Hnd). simpl in Hnd, HK.
  assert (trep (tmem s) (Some x) t) as Htt by (by destruct Ht as [[-> ->]|[-> ->]]).
  assert (forall y, y ∈ elems t -> y ∈ elems l ++ x :: elems r) as Hsub
    by (destruct Ht as [[-> ->]|[-> ->]]; simpl; set_solver).
  nodup_split Hnd.
  eexists; split; [|exact Hs]. unfold remove_spliced. xload.
  erewrite M_bind_Some by (by eapply set_parent_if_ok). cbv beta.
  erewrite M_bind_Some; [done|]. apply relink_left_ok; [|set_solver]. simpl.
  eapply krep_frame; [|done]. intros y Hy. apply lookup_setp_ne. intros E%rootp_elem%Hsub. set_solver.
Qed.

Lemma leftmost_loop_ok s K : forall K0 fuel t y c r,
  t = plug K (Node Leaf y c r) -> kl K = [] -> srep s (plug K0 t) -> (length K < fuel)%nat ->
  leftmost_loop fuel (rootp t) s = Some (Some y, s).
Proof.
  induction K as [|f K IH] using rev_ind; intros K0 fuel t y c r -> HK H Hf; (destruct fuel as [|fuel]; [lia|]).
  - pose proof (srep_focus _ _ _ _ _ _ H). simpl. by xload.
  - rewrite length_app in Hf. simpl in Hf. rewrite plug_app in *.
    rewrite kl_app in HK. apply app_eq_nil in HK as [HKf HK].
    destruct f as [z cz rz|lz z cz]; simpl in *; [|by destruct (elems lz)].
    pose proof (srep_focus _ _ _ _ _ _ H) as Hz. xload.
    destruct (rootp_plug_node K Leaf y c r) as [q Eq]. rewrite Eq, <-Eq.
    apply (IH (FL z cz rz :: K0) fuel _ y c r eq_refl); [done|done|lia].
Qed.

Lemma leftmost_ok s K0 K y c r :
  srep s (plug K0 (plug K (Node Leaf y c r))) -> kl K = [] ->
  leftmost (rootp (plug K (Node Leaf y c r))) s = Some (Some y, s).
Proof.
  intros H HK. unfold leftmost, gets. xret. eapply leftmost_loop_ok; eauto.
  rewrite <-plug_app in H. pose proof (srep_depth _ _ _ H) as Hd. rewrite length_app in Hd. lia.
Qed.

(** The successor is the right child itself. *)
Lemma remove_two_adjacent s K l x c y cy yr :
  srep s (plug K (Node l x c (Node Leaf y cy yr))) -> l <> Leaf ->
  exists s', remove_two_children (Some x) s = Some ((rootp yr, Some y, cy), s')
    /\ srep s' (plug K (Node l y c yr)).
Proof.
  intros H Hl. pose proof (leftmost_ok s (FR l x c :: K) [] y cy yr H eq_refl) as Hmin.
  rewrite srep_zrep in H. setoid_rewrite srep_zrep.
  destruct H as (Hr & (Hx & Htl & (Hy & _ & Hyr)) & HK & Hnd).
  pose proof (NoDup_ctx _ _ Hnd) as HndK. simpl in *. nodup_split Hnd.
  unfold remove_two_children. xload. erewrite M_bind_Some by exact Hmin. cbv beta.
  erewrite M_bind_Some by (apply relink_left_ok; [done|set_solver]). simpl.
  xload. rewrite bool_decide_true by done. xret. xload. xstore. xstore. xstore.
  erewrite M_bind_Some by (eapply upd_parent_root; [frame_tree|done]). simpl.
  eexists; split; [done|]. unfold zrep; simpl; split_and!.
  - by eapply hole_root_plug.
  - lookup.
  - frame_setp.
  - frame_tree.
  - frame_hole.
  - repeat first [rewrite NoDup_app | rewrite NoDup_cons]. set_solver.
Qed.

(** The successor is deeper in the right subtree: [R'] is that subtree without
    [y], laid out in the store in which [y]'s parent [q] has taken over [yr]. *)
Lemma remove_two_run s K l x c q nq y cy yr R' rr :
  troot s = rootp (plug K (Node l x c R')) ->
  tmem s !! x = Some (BNode (rootp l) (Some rr) (kpar K) c) ->
  trep (tmem s) (Some x) l -> krep (tmem s) K (Some x) ->
  NoDup (kl K ++ (elems l ++ x :: y :: elems R') ++ kr K) ->
  l <> Leaf -> leftmost (Some rr) s = Some (Some y, s) -> rootp R' = Some rr ->
  tmem s !! y = Some (BNode None (rootp yr) (Some q) cy) ->
  trep (tmem s) (Some y) yr -> tmem s !! q = Some nq ->
  trep (alter (upd_left (rootp yr)) q (setp (rootp yr) (Some q) (tmem s))) (Some x) R' ->
  q ∈ elems R' -> q ∉ elems yr -> (forall z, z ∈ elems yr -> z ∈ elems R') ->
  exists s', remove_two_children (Some x) s = Some ((rootp yr, Some q, cy), s')
    /\ zrep s' K (Node l y c R').
Proof.
  intros Hr Hx Htl HK Hnd Hl Hmin Hrr Hy Hyr Hq HtR HqR Hqyr HyrR.
  assert (NoDup (kl K ++ kr K)) as HndK by (by apply (NoDup_ctx K (Node l x c (Node Leaf y cy R')))).
  nodup_split Hnd.
  unfold remove_two_children. xload. erewrite M_bind_Some by exact Hmin. cbv beta.
  erewrite M_bind_Some by (apply relink_left_ok; [done|set_solver]). simpl.
  xload. rewrite bool_decide_false by (intros [= ->]; set_solver).
  rewrite M_bind_assoc. erewrite M_bind_Some by (eapply set_parent_if_ok; frame_tree). cbv beta.
  rewrite M_bind_assoc. xstore. rewrite M_bind_assoc. xload. rewrite M_bind_assoc. xstore.
  rewrite M_bind_assoc, <-Hrr.
  match goal with |- context [mbind _ (upd (rootp R') _) ?s1] => assert (trep (tmem s1) (Some x) R') as HtR1 end.
  { eapply trep_frame; [|exact HtR]. intros z Hz. simpl. rewrite lookup_alter_ne by loc_ne.
    apply lookup_alter_cong, lookup_setp_cong, lookup_hole_ne. loc_ne. }
  erewrite M_bind_Some by (eapply upd_parent_root; [exact HtR1|by destruct R']). simpl. xret.
  xload. xstore. xstore. xstore.
  erewrite M_bind_Some by (eapply upd_parent_root; [frame_tree|done]). simpl.
  eexists; split; [done|]. unfold zrep; simpl; split_and!.
  - by eapply hole_root_plug.
  - lookup.
  - frame_setp.
  - eapply trep_frame; [|by eapply (trep_setp _ _ (Some y))]. intros z Hz. simpl. frame_lookup.
  - frame_hole.
  - repeat first [rewrite NoDup_app | rewrite NoDup_cons]. set_solver.
Qed.

Lemma remove_two_far s K l x c Kr q cq qr y cy yr :
  srep s (plug K (Node l x c (plug (FL q cq qr :: Kr) (Node Leaf y cy yr)))) ->
  kl (FL q cq qr :: Kr) = [] -> l <> Leaf ->
  exists s', remove_two_children (Some x) s = Some ((rootp yr, Some q, cy), s')
    /\ srep s' (plug K (Node l y c (plug (FL q cq qr :: Kr) yr))).
Proof.
  intros H HKr Hl. pose proof (leftmost_ok s (FR l x c :: K) _ y cy yr H HKr) as Hmin.
  pose proof (srep_splice s ((FL q cq qr :: Kr) ++ FR l x c :: K) Leaf y cy yr yr) as Hsp.
  rewrite !plug_app in Hsp. specialize (Hsp H ltac:(by left)).
  destruct (rootp_plug_ctx (FL q cq qr :: Kr) yr ltac:(done)) as (rr & Hrr & _).
  rewrite (rootp_plug_ne (FL q cq qr :: Kr) _ yr), Hrr in Hmin by done.
  pose proof (srep_focus s ((FL q cq qr :: Kr) ++ FR l x c :: K) Leaf y cy yr) as Hy.
  pose proof (srep_subtree s ([FR Leaf y cy; FL q cq qr] ++ Kr ++ FR l x c :: K) yr) as Hyr.
  pose proof (srep_focus s (Kr ++ FR l x c :: K) (Node Leaf y cy yr) q cq qr) as Hq.
  rewrite plug_app in Hy. simpl in Hy, Hyr, Hq. rewrite plug_app in Hyr, Hq. simpl in Hyr, Hq.
  specialize (Hy H). specialize (Hyr H). specialize (Hq H).
  pose proof (srep_subtree _ (FR l x c :: K) _ Hsp) as HtR.
  rewrite srep_zrep in H. setoid_rewrite srep_zrep.
  destruct H as (Hr & (Hx & Htl & _) & HK & Hnd).
  rewrite (rootp_plug_ne (FL q cq qr :: Kr) _ yr), Hrr in Hx by done.
  simpl in Hnd. pose proof (elems_plug (FL q cq qr :: Kr) (Node Leaf y cy yr)) as He1.
  pose proof (elems_plug (FL q cq qr :: Kr) yr) as He2. rewrite HKr in He1, He2. simpl in He1, He2.
  assert (NoDup (kl K ++ (elems l ++ x :: y :: elems (plug (FL q cq qr :: Kr) yr)) ++ kr K)) as Hnd'
    by (simpl; rewrite He2; rewrite He1 in Hnd; done).
  apply (remove_two_run s K l x c q _ y cy yr (plug (FL q cq qr :: Kr) yr) rr
    ltac:(rewrite Hr; by apply rootp_plug_eq) Hx Htl HK Hnd' Hl Hmin Hrr Hy Hyr Hq HtR).
  - simpl. rewrite He2. set_solver.
  - nodup_split Hnd'. simpl in *. rewrite He2 in *. 
    match goal with H : NoDup (elems yr ++ _) |- _ => rewrite NoDup_app in H end. set_solver.
  - simpl. rewrite He2. set_solver.
Qed.

(** Where the successor comes from does not matter to the rest of the proof. *)
Lemma remove_two_ok s K l x c r :
  srep s (plug K (Node l x c r)) -> l <> Leaf -> r <> Leaf ->
  exists s' Kr y cy yr, r = plug Kr (Node Leaf y cy yr) /\ kl Kr = []
    /\ remove_two_children (Some x) s = Some ((rootp yr, kpar (Kr ++ FR l y c :: K), cy), s')
    /\ srep s' (plug (Kr ++ FR l y c :: K) yr).
Proof.
  intros H Hl Hr. destruct (leftmost_split r Hr) as (Kr & y & cy & yr & -> & HKr).
  destruct Kr as [|[q cq qr|ql q cq] Kr].
  - destruct (remove_two_adjacent s K l x c y cy yr H Hl) as (s' & E & H').
    by exists s', [], y, cy, yr.
  - destruct (remove_two_far s K l x c Kr q cq qr y cy yr H HKr Hl) as (s' & E & H').
    exists s', (FL q cq qr :: Kr), y, cy, yr. split_and!; try done. by rewrite plug_app.
  - simpl in HKr. by apply app_eq_nil in HKr as [_ [_ ?]%app_eq_nil].
Qed.

(** Replacing the label of a node keeps the colour rules. *)
Lemma rbk_relabel Kr l x y c K d n :
  rbk (Kr ++ FR l x c :: K) d n -> rbk (Kr ++ FR l y c :: K) d n.
Proof.
  revert d n; induction Kr as [|f Kr IH]; intros d n H; inversion H; subst; simpl; eauto with rb.
Qed.

(** Taking out a node of colour [c] whose only subtree is [t]: nothing to repair
    if it was red, a deficit of one if it was black. *)
Lemma rbt_spliced l x c r t d n :
  rbt (Node l x c r) d n -> (l = Leaf /\ t = r) \/ (r = Leaf /\ t = l) ->
  match c with RED => d = RED /\ rbt t BLACK n | BLACK => exists k, n = S k /\ d = BLACK /\ deficient t k end.
Proof.
  intros H Ht. inversion H as [|? ? ? ? Hl Hr|? ? ? c1 c2 k Hl Hr]; subst.
  - destruct Ht as [[-> ->]|[-> ->]]; done.
  - exists k. split_and!; try done.
    destruct Ht as [[-> ->]|[-> ->]]; [inversion Hr|inversion Hl]; subst; simpl; eauto with rb.
Qed.

(** From the label [color:] on: repair if a black node was taken out. *)
Lemma remove_finish s K t c d n :
  srep s (plug K t) -> rbk K d n ->
  match c with RED => d = RED /\ rbt t BLACK n | BLACK => exists k, n = S k /\ d = BLACK /\ deficient t k end ->
  exists s' t', (if bool_decide (c = BLACK) then _rbtree_erase_color (rootp t) (kpar K) else mret tt) s
      = Some (tt, s') /\ srep s' t' /\ rb_tree t' /\ elems t' = elems (plug K t).
Proof.
  intros H HK Hc. destruct c.
  - destruct Hc as [-> Ht]. exists s, (plug K t). split_and!; try done. eapply rbt_plug; eauto with rb.
  - destruct Hc as (k & -> & -> & Hd). by eapply erase_color_ok.
Qed.

(** C2 [rbtree_remove] of a stored node terminates without undefined behaviour,
    whichever of its three cases applies: the tree loses exactly that node, the
    others keep their order, and the red-black invariant holds again. *)
Theorem rbtree_remove_correct s t x :
  srep s t -> rb_tree t -> x ∈ elems t ->
  exists s' t', rbtree_remove (Some x) s = Some (tt, s')
    /\ srep s' t' /\ rb_tree t' /\ elems t' = filter (fun y => y <> x) (elems t).
Proof.
  intros H [N Hrb] (K & l & c & r & ->)%elem_split.
  destruct (rbt_unplug _ _ _ Hrb) as (d & n & Ht & HK).
  pose proof (proj2 (proj2 H)) as Hnd. rewrite elems_plug in Hnd. simpl in Hnd.
  rewrite <-app_assoc, app_assoc in Hnd. simpl in Hnd.
  rewrite elems_plug. simpl. rewrite <-app_assoc, app_assoc. simpl. rewrite filter_remove by done.
  pose proof (srep_focus _ _ _ _ _ _ H) as Hx. unfold rbtree_remove. xload.
  assert (forall t', (l = Leaf /\ t' = r) \/ (r = Leaf /\ t' = l) -> exists s1 t1,
    (remove_spliced (Some x) (rootp t') ≫= fun '(child, parent, color) =>
       if bool_decide (color = BLACK) then _rbtree_erase_color child parent else mret tt) s
    = Some (tt, s1) /\ srep s1 t1 /\ rb_tree t1 /\ elems t1 = (kl K ++ elems l) ++ elems r ++ kr K) as Hone.
  { intros t' Ht'. destruct (remove_spliced_ok _ _ _ _ _ _ _ H Ht') as (s1 & E1 & H1).
    destruct (remove_finish s1 K t' c d n H1 HK) as (s2 & t2 & E2 & H2 & Hrb2 & He2);
      [by eapply rbt_spliced|].
    exists s2, t2. erewrite M_bind_Some by exact E1. split_and!; try done.
    rewrite He2, elems_plug. destruct Ht' as [[-> ->]|[-> ->]]; same_elems. }
  assert (l = Leaf \/ l <> Leaf) as [->|Hl] by (destruct l; auto); [by apply (Hone r); left|].
  assert (r = Leaf \/ r <> Leaf) as [->|Hr] by (destruct r; auto).
  { destruct l; [done|]. apply (Hone (Node l1 x0 c0 l2)); by right. }
  destruct (remove_two_ok _ _ _ _ _ _ H Hl Hr) as (s1 & Kr & y & cy & yr & -> & HKr & E1 & H1).
  pose proof Hrb as Hrb'. change (plug K (Node l x c (plug Kr (Node Leaf y cy yr))))
    with (plug (FR l x c :: K) (plug Kr (Node Leaf y cy yr))) in Hrb'. rewrite <-plug_app in Hrb'.
  apply rbt_unplug in Hrb' as (d' & n' & Hy & HK'). apply (rbk_relabel _ _ _ y) in HK'.
  destruct (remove_finish s1 _ yr cy d' n' H1 HK') as (s2 & t2 & E2 & H2 & Hrb2 & He2);
    [eapply rbt_spliced; [exact Hy|by left]|].
  destruct l; [done|]. destruct (rootp_plug_node Kr Leaf y cy yr) as [q ->]. simpl.
  exists s2, t2. erewrite M_bind_Some by exact E1. split_and!; try done.
  rewrite He2, !elems_plug, kl_app, kr_app, HKr. same_elems.
Qed.

Lemma rbtree_remove_correct_witness :
  exists s' t', rbtree_remove (Some 4%positive) ex_store = Some (tt, s')
    /\ srep s' t' /\ rb_tree t' /\ elems t' = [2; 6]%positive.
Proof.
  apply (rbtree_remove_correct ex_store ex_tree 4 ex_srep ex_rb_tree).
  by apply (bool_decide_unpack _).
Defined.
