(* ===== verification/RBTreeQuery.v ===== *)
(** The read-only operations of src/container/rbtree.c: look-up and in-order
    traversal. The in-order list [elems t] of the represented tree is the
    specification: look-up is a search in it, the traversal operations are its
    head, its last element and the neighbours of one of its elements. *)
From S2P Require Import Prelude LinkedTree RBTree RBTreeMem RBTreeInsert RBTreeRemove.

Lemma rightmost_loop_ok s K : forall K0 fuel t y c l,
  t = plug K (Node l y c Leaf) -> kr K = [] -> srep s (plug K0 t) -> (length K < fuel)%nat ->
  rightmost_loop fuel (rootp t) s = Some (Some y, s).
Proof.
  induction K as [|f K IH] using rev_ind; intros K0 fuel t y c l -> HK H Hf; (destruct fuel as [|fuel]; [lia|]).
  - pose proof (srep_focus _ _ _ _ _ _ H). simpl. by xload.
  - rewrite length_app in Hf. simpl in Hf. rewrite plug_app in *.
    rewrite kr_app in HK. apply app_eq_nil in HK as [HK HKf].
    destruct f as [z cz rz|lz z cz]; simpl in *; [done|].
    pose proof (srep_focus _ _ _ _ _ _ H) as Hz. xload.
    destruct (rootp_plug_node K l y c Leaf) as [q Eq]. rewrite Eq, <-Eq.
    apply (IH (FR lz z cz :: K0) fuel _ y c l eq_refl); [done|done|lia].
Qed.

Lemma rightmost_ok s K0 K y c l :
  srep s (plug K0 (plug K (Node l y c Leaf))) -> kr K = [] ->
  rightmost (rootp (plug K (Node l y c Leaf))) s = Some (Some y, s).
Proof.
  intros H HK. unfold rightmost, gets. xret. eapply rightmost_loop_ok; eauto.
  rewrite <-plug_app in H. pose proof (srep_depth _ _ _ H) as Hd. rewrite length_app in Hd. lia.
Qed.

Lemma leftmost_head s K0 t : srep s (plug K0 t) -> t <> Leaf ->
  leftmost (rootp t) s = Some (head (elems t), s).
Proof.
  intros H (K & y & c & r & -> & HK)%leftmost_split.
  erewrite leftmost_ok by eauto. rewrite elems_plug, HK. done.
Qed.

Lemma rightmost_last s K0 t : srep s (plug K0 t) -> t <> Leaf ->
  rightmost (rootp t) s = Some (last (elems t), s).
Proof.
  intros H (K & l & y & c & -> & HK)%rightmost_split.
  erewrite rightmost_ok by eauto. rewrite elems_plug, HK, app_nil_r. simpl.
  by rewrite app_assoc, last_snoc.
Qed.

Lemma climb_right_ok s K : forall fuel l x c r,
  srep s (plug K (Node l x c r)) -> (length K < fuel)%nat ->
  climb_right fuel (Some x) s = Some (head (kr K), s).
Proof.
  induction K as [|[q cq qr|ql q cq] K IH]; intros fuel l x c r H Hf;
    (destruct fuel as [|fuel]; [simpl in Hf; lia|]);
    pose proof (srep_focus _ _ _ _ _ _ H) as Hx; simpl; xload.
  - done.
  - pose proof (srep_focus s K (Node l x c r) q cq qr H) as Hq. xload.
    rewrite bool_decide_false; [done|]. intros E. symmetry in E. by eapply srep_right_ne in E.
  - pose proof (srep_focus s K ql q cq (Node l x c r) H) as Hq. xload.
    rewrite bool_decide_true by done. apply (IH fuel ql q cq (Node l x c r)); [done|simpl in Hf; lia].
Qed.

Lemma climb_left_ok s K : forall fuel l x c r,
  srep s (plug K (Node l x c r)) -> (length K < fuel)%nat ->
  climb_left fuel (Some x) s = Some (last (kl K), s).
Proof.
  induction K as [|[q cq qr|ql q cq] K IH]; intros fuel l x c r H Hf;
    (destruct fuel as [|fuel]; [simpl in Hf; lia|]);
    pose proof (srep_focus _ _ _ _ _ _ H) as Hx; simpl; xload.
  - done.
  - pose proof (srep_focus s K (Node l x c r) q cq qr H) as Hq. xload.
    rewrite bool_decide_true by done. apply (IH fuel (Node l x c r) q cq qr); [done|simpl in Hf; lia].
  - pose proof (srep_focus s K ql q cq (Node l x c r) H) as Hq. xload.
    rewrite bool_decide_false.
    + simpl. by rewrite app_assoc, last_snoc.
    + intros E. symmetry in E. by eapply srep_left_ne in E.
Qed.

(** The position of a node in the in-order list of the tree around it. *)
Lemma elems_focus K (l : rbtree) x c r xs ys :
  NoDup (elems (plug K (Node l x c r))) -> elems (plug K (Node l x c r)) = xs ++ x :: ys ->
  xs = kl K ++ elems l /\ ys = elems r ++ kr K.
Proof.
  rewrite elems_plug. simpl. rewrite <-app_assoc, app_assoc. simpl. intros Hnd E.
  rewrite NoDup_app, NoDup_cons in Hnd. pose proof Hnd as (_ & Hd & Hx & _).
  apply app_inj_pivot in E as [[[Hin _]|[Hin _]]|[-> ->]]; [| |done].
  - apply list_elem_of_In in Hin. by destruct (Hd x Hin (list_elem_of_here x _)).
  - by apply list_elem_of_In in Hin.
Qed.

(** C32 [rbtree_next] and [rbtree_prev] return the in-order neighbours of a
    stored node, and the null pointer past either end. *)
Theorem rbtree_next_prev_correct s t x xs ys :
  srep s t -> elems t = xs ++ x :: ys ->
  rbtree_next (Some x) s = Some (head ys, s) /\ rbtree_prev (Some x) s = Some (last xs, s).
Proof.
  intros H E. assert (x ∈ elems t) as (K & l & c & r & ->)%elem_split by (rewrite E; set_solver).
  apply elems_focus in E as [-> ->]; [|apply H].
  pose proof (srep_focus _ _ _ _ _ _ H) as Hx. pose proof (srep_depth _ _ _ H) as Hd. simpl in Hd.
  unfold rbtree_next, rbtree_prev, gets. split; xload.
  - destruct r as [|rl rx rc rr]; cbn [rootp].
    + xret. by eapply climb_right_ok; [|lia].
    + etrans; [by apply (leftmost_head s (FR l x c :: K) (Node rl rx rc rr))|].
      simpl. by destruct (elems rl).
  - destruct l as [|ll lx lc lr]; cbn [rootp].
    + xret. cbn [elems]. rewrite app_nil_r. by eapply climb_left_ok; [|lia].
    + etrans; [by apply (rightmost_last s (FL x c r :: K) (Node ll lx lc lr))|].
      simpl. rewrite !last_app, last_cons. by destruct (last (elems lr)).
Qed.

(** [rbtree_min] and [rbtree_max] return the ends of the in-order list, and
    the null pointer on an empty tree, which is what [rbtree_empty] tests. *)
Theorem rbtree_min_max_correct s t :
  srep s t ->
  rbtree_min s = Some (head (elems t), s) /\ rbtree_max s = Some (last (elems t), s)
  /\ rbtree_empty s = Some (bool_decide (elems t = []), s).
Proof.
  intros H. pose proof (proj1 H) as Hroot.
  unfold rbtree_min, rbtree_max, rbtree_empty, get_root, gets.
  destruct t as [|l x c r]; cbn [rootp] in Hroot.
  - split_and!; xret; by rewrite Hroot.
  - split_and!; xret; rewrite Hroot.
    + by apply (leftmost_head s [] (Node l x c r)).
    + by apply (rightmost_last s [] (Node l x c r)).
    + rewrite !bool_decide_false; [done|simpl; by destruct (elems l)|done].
Qed.

(** The key comparator agrees with the order of the nodes: a key that is not
    above a node is below every later one. *)
Class KeyComparator {Key} (cmp_nn : loc -> loc -> Z) (cmp_kn : Key -> loc -> Z) : Prop :=
  cmp_kn_mono : forall key a b, cmp_nn a b < 0 -> cmp_kn key a <= 0 -> cmp_kn key b < 0.

Section find.
Context {Key : Type} {cmp_nn : loc -> loc -> Z} {cmp_kn : Key -> loc -> Z}.
Context `{!Comparator cmp_nn, !KeyComparator cmp_nn cmp_kn}.

(** Linear search for a key in the in-order list. *)
Definition lookup_key (key : Key) (l : list loc) : ptr :=
  List.find (fun y => cmp_kn key y =? 0) l.

Lemma lookup_key_skip key xs ys :
  Forall (fun y => cmp_kn key y <> 0) xs -> lookup_key key (xs ++ ys) = lookup_key key ys.
Proof. induction 1; simpl; [done|]. by rewrite (proj2 (Z.eqb_neq _ _)). Qed.

Lemma lookup_key_stop key xs ys :
  Forall (fun y => cmp_kn key y <> 0) ys -> lookup_key key (xs ++ ys) = lookup_key key xs.
Proof.
  intros Hys. induction xs as [|x xs IH]; simpl.
  - rewrite <-(app_nil_r ys). by apply lookup_key_skip.
  - by destruct (cmp_kn key x =? 0).
Qed.

Lemma find_loop_ok s key fuel : forall K t,
  srep s (plug K t) -> (length (elems t) < fuel)%nat -> ordered (cmp_nn := cmp_nn) (plug K t) ->
  find_loop cmp_kn fuel key (rootp t) s = Some (lookup_key key (elems t), s).
Proof.
  induction fuel as [|fuel IH]; intros K t H Hf Ho; [lia|].
  destruct t as [|l y c r]; [done|]. pose proof (srep_focus _ _ _ _ _ _ H) as Hy.
  destruct (ordered_split _ _ _ _ _ Ho) as [Hl Hr].
  simpl in *. rewrite length_app in Hf. simpl in Hf. xload.
  destruct (Z.ltb_spec (cmp_kn key y) 0); [|destruct (Z.ltb_spec 0 (cmp_kn key y))].
  - rewrite (IH (FL y c r :: K) l), lookup_key_stop; try done || lia.
    apply Forall_cons; split; [lia|]. apply Forall_forall. intros z Hz.
    pose proof (cmp_kn_mono key y z (Hr z Hz)). lia.
  - rewrite (IH (FR l y c :: K) r), lookup_key_skip; try done || lia.
    + simpl. by rewrite (proj2 (Z.eqb_neq _ _)) by lia.
    + apply Forall_forall. intros z Hz. pose proof (cmp_kn_mono key z y (Hl z Hz)). lia.
  - rewrite lookup_key_skip; simpl.
    + by rewrite (proj2 (Z.eqb_eq _ _)) by lia.
    + apply Forall_forall. intros z Hz. pose proof (cmp_kn_mono key z y (Hl z Hz)). lia.
Qed.

(** C31 [rbtree_find] returns the node a linear search of the in-order list for
    a node comparing equal to the key returns, and the null pointer when there is
    none; it terminates and changes nothing. *)
Theorem rbtree_find_correct s t key :
  srep s t -> ordered (cmp_nn := cmp_nn) t ->
  rbtree_find cmp_kn key s = Some (lookup_key key (elems t), s).
Proof.
  intros H Ho. unfold rbtree_find, get_root, gets. xret. xret. rewrite (proj1 H).
  apply (find_loop_ok s key _ [] t); [done| |done].
  pose proof (srep_depth s [] t H). simpl in *. lia.
Qed.
End find.

Definition ex_cmp_key (key : Z) (y : loc) : Z := key - Z.pos y.
#[export] Instance ex_cmp_key_mono : KeyComparator ex_cmp ex_cmp_key.
Proof. unfold KeyComparator, ex_cmp, ex_cmp_key. lia. Qed.

Lemma rbtree_find_correct_witness :
  rbtree_find ex_cmp_key 6 ex_store = Some (Some 6%positive, ex_store)
  /\ rbtree_find ex_cmp_key 5 ex_store = Some (None, ex_store).
Proof.
  split; exact (rbtree_find_correct (cmp_nn := ex_cmp) ex_store ex_tree _ ex_srep ex_ordered).
Defined.

Lemma rbtree_next_prev_correct_witness :
  rbtree_next (Some 2%positive) ex_store = Some (Some 4%positive, ex_store)
  /\ rbtree_prev (Some 2%positive) ex_store = Some (None, ex_store).
Proof. exact (rbtree_next_prev_correct ex_store ex_tree 2 [] [4; 6]%positive ex_srep eq_refl). Defined.

Lemma rbtree_min_max_correct_witness :
  rbtree_min ex_store = Some (Some 2%positive, ex_store)
  /\ rbtree_max ex_store = Some (Some 6%positive, ex_store)
  /\ rbtree_empty ex_store = Some (false, ex_store).
Proof. exact (rbtree_min_max_correct ex_store ex_tree ex_srep). Defined.
