(* ===== verification/Heap.v ===== *)
(** * The intrusive binary heap (src/container/heap.c)

    [hst] is the memory that holds the nodes together with the [heap_t]: the
    fields of the nodes and [heap->root] are a [tst], [heap->nelts] is beside it.
    The callback [heap->cmp] is a parameter, and what [heap_init] asks of it is
    the class [HeapOrder]. *)

From S2P Require Import Prelude LinkedTree.

Notation hmst := (tst unit).
Notation htree := (tree unit).
Notation hframe := (frame unit).

Record hst := HSt { hmem : hmst; nelts : Z }.

(** Code that touches only the nodes and the root pointer. *)
Definition on_mem {A} (m : M hmst A) : M hst A := fun s =>
  match m (hmem s) with Some (a, t) => Some (a, HSt t (nelts s)) | None => None end.
Definition set_nelts (n : Z) : M hst unit := modify (fun s => HSt (hmem s) n).

(** ** Operations *)

Definition _heap_swap_node (parent child : ptr) : M hmst unit :=
  t ← deref parent;
  c ← deref child;
  upd parent (fun _ => c);;
  upd child (fun _ => t);;
  upd parent (upd_parent child);;
  c ← deref child;
  sibling ←
    (if bool_decide (bleft c = child) then
       upd child (upd_left parent);; c ← deref child; mret (bright c)
     else
       upd child (upd_right parent);; c ← deref child; mret (bleft c));
  set_parent_if sibling child;;
  p ← deref parent;
  set_parent_if (bleft p) parent;;
  p ← deref parent;
  set_parent_if (bright p) parent;;
  c ← deref child;
  relink_left_first (bparent c) parent child.

Definition heap_init : M hst unit :=
  on_mem (set_root None);; set_nelts 0.

(** [for (k = 0; n >= 2; k += 1, n /= 2) path = (path << 1) | (n & 1);]
    A [size_t] is halved at most 63 times before it drops below 2. *)
Fixpoint path_loop (fuel : nat) (path : Z) (k : nat) (n : Z) : option (Z * nat) :=
  if 2 <=? n then
    match fuel with
    | O => None
    | S fuel => path_loop fuel (u64 (Z.lor (Z.shiftl path 1) (Z.land n 1))) (S k) (n / 2)
    end
  else Some (path, k).
Definition path_to (n : Z) : option (Z * nat) := path_loop 64 0 0 n.

(** The right or left child slot of the node in slot [c], as the low bit of
    [path] says. *)
Definition step_slot (path : Z) (c : slot) : M hmst slot :=
  p ← read_slot c;
  match p with
  | None => ub
  | Some q => mret (if Z.land path 1 =? 1 then SRight q else SLeft q)
  end.

(** The descent of [heap_insert], which keeps the previous slot. *)
Fixpoint insert_walk (k : nat) (path : Z) (parent child : slot) : M hmst (slot * slot) :=
  match k with
  | O => mret (parent, child)
  | S k => c ← step_slot path child; insert_walk k (Z.shiftr path 1) child c
  end.

(** The descent of [heap_remove]. *)
Fixpoint remove_walk (k : nat) (path : Z) (max : slot) : M hmst slot :=
  match k with
  | O => mret max
  | S k => c ← step_slot path max; remove_walk k (Z.shiftr path 1) c
  end.

Section ops.
Context (cmp : loc -> loc -> Z).

(** [while (node->parent && cmp(node, node->parent) < 0) swap(node->parent, node)] *)
Fixpoint sift_up (fuel : nat) (node : loc) : M hmst unit :=
  match fuel with
  | O => ub
  | S fuel =>
      n ← deref (Some node);
      match bparent n with
      | None => mret tt
      | Some p =>
          if cmp node p <? 0 then
            _heap_swap_node (Some p) (Some node);; sift_up fuel node
          else mret tt
      end
  end.

(** The [for (;;)] of [heap_remove]. *)
Definition smallest_child (child : loc) (n : bnode unit) : loc :=
  let s := match bleft n with
           | Some l => if cmp l child <? 0 then l else child
           | None => child
           end in
  match bright n with
  | Some r => if cmp r s <? 0 then r else s
  | None => s
  end.
Fixpoint sift_down (fuel : nat) (child : loc) : M hmst unit :=
  match fuel with
  | O => ub
  | S fuel =>
      n ← deref (Some child);
      let smallest := smallest_child child n in
      if bool_decide (smallest = child) then mret tt
      else _heap_swap_node (Some child) (Some smallest);; sift_down fuel child
  end.

Definition mem_fuel : M hmst nat := gets (fun s => S (size (tmem s))).

Definition heap_insert (node : loc) : M hst unit :=
  on_mem (upd (Some node) (upd_left None));;
  on_mem (upd (Some node) (upd_right None));;
  on_mem (upd (Some node) (upd_parent None));;
  n ← gets nelts;
  match path_to (u64 (1 + n)) with
  | None => ub
  | Some (path, k) =>
      '(parent, child) ← on_mem (insert_walk k path SRoot SRoot);
      p ← on_mem (read_slot parent);
      on_mem (upd (Some node) (upd_parent p));;
      on_mem (write_slot child (Some node));;
      n ← gets nelts;
      set_nelts (u64 (n + 1));;
      on_mem (fuel ← mem_fuel; sift_up fuel node)
  end.

(** [child] takes the place of [node] in the tree. *)
Definition replace_node (node : loc) (child : ptr) : M hmst unit :=
  n ← deref (Some node);
  upd child (upd_left (bleft n));;
  n ← deref (Some node);
  upd child (upd_right (bright n));;
  n ← deref (Some node);
  upd child (upd_parent (bparent n));;
  c ← deref child;
  set_parent_if (bleft c) child;;
  c ← deref child;
  set_parent_if (bright c) child;;
  n ← deref (Some node);
  relink_left_first (bparent n) (Some node) child.

Definition heap_remove (node : loc) : M hst unit :=
  n ← gets nelts;
  if n =? 0 then mret tt
  else
    match path_to n with
    | None => ub
    | Some (path, k) =>
        max ← on_mem (remove_walk k path SRoot);
        set_nelts (u64 (n - 1));;
        child ← on_mem (read_slot max);
        on_mem (write_slot max None);;
        if bool_decide (child = Some node) then
          root ← on_mem get_root;
          if bool_decide (child = root) then on_mem (set_root None) else mret tt
        else
          on_mem (replace_node node child);;
          match child with
          | None => ub
          | Some c =>
              on_mem (fuel ← mem_fuel; sift_down fuel c);;
              on_mem (fuel ← mem_fuel; sift_up fuel c)
          end
    end.

Definition heap_dequeue : M hst unit :=
  root ← on_mem get_root;
  match root with
  | None => mret tt
  | Some r => heap_remove r
  end.

End ops.

Definition heap_empty : M hst bool := n ← gets nelts; mret (n =? 0).
Definition heap_peek : M hst ptr := on_mem get_root.
