(* ===== verification/HeapMem.v ===== *)
(** * The binary heap: pointer steps and path arithmetic

    What [_heap_swap_node] and the replacement of a node do to the represented
    tree, and that the bit path computed from the element count leads to the
    place of that number in level order. *)

From S2P Require Import Prelude LinkedTree Heap.

(** ** Exchanging a node with its parent *)

(** [if (p->left) ...->parent = q] on the root of a subtree of the focus. *)
Ltac xsetp pr := erewrite M_bind_Some; [|eapply (set_parent_if_ok _ _ pr); frame_tree]; simpl.
Ltac xrelink := erewrite relink_left_ok; [|frame_ctx|set_solver].

Lemma swap_left_ok (s : hmst) K l c r p t :
  srep s (plug K (Node (Node l c tt r) p tt t)) ->
  exists s', _heap_swap_node (Some p) (Some c) s = Some (tt, s')
    /\ srep s' (plug K (Node (Node l p tt r) c tt t)).
Proof.
  setoid_rewrite srep_zrep.
  intros (Hr & (Hp & (Hc & Hl & Hr') & Ht) & HK & Hnd). simpl in *.
  pose proof (NoDup_ctx K (Node (Node l c tt r) p tt t) Hnd) as HndK.
  pose proof Hnd as Hnd'. nodup_split Hnd.
  unfold _heap_swap_node. xload. xload. xstore. xstore. xstore. xload.
  rewrite bool_decide_true, M_bind_assoc by done. xstore. rewrite M_bind_assoc. xload. xret.
  xsetp (Some p). xload. xsetp (Some c). xload. xsetp (Some c). xload. xrelink.
  eexists; split; [done|]. unfold zrep; simpl; split_and!.
  - by eapply hole_root_plug.
  - lookup.
  - lookup.
  - frame_setp.
  - frame_setp.
  - frame_setp.
  - frame_hole.
  - clear -Hnd'.
    eapply NoDup_Permutation_proper; [|exact Hnd']. solve_Permutation.
Qed.

Lemma swap_right_ok (s : hmst) K l c r p t :
  srep s (plug K (Node t p tt (Node l c tt r))) ->
  exists s', _heap_swap_node (Some p) (Some c) s = Some (tt, s')
    /\ srep s' (plug K (Node t c tt (Node l p tt r))).
Proof.
  intros H. pose proof (srep_left_ne _ _ _ _ _ _ _ _ _ H) as Hne. revert H. setoid_rewrite srep_zrep.
  intros (Hr & (Hp & Ht & Hc & Hl & Hr') & HK & Hnd). simpl in *.
  pose proof (NoDup_ctx K (Node t p tt (Node l c tt r)) Hnd) as HndK.
  pose proof Hnd as Hnd'. nodup_split Hnd.
  unfold _heap_swap_node. xload. xload. xstore. xstore. xstore. xload.
  rewrite bool_decide_false, M_bind_assoc by done. xstore. rewrite M_bind_assoc. xload. xret.
  xsetp (Some p). xload. xsetp (Some c). xload. xsetp (Some c). xload. xrelink.
  eexists; split; [done|]. unfold zrep; simpl; split_and!.
  - by eapply hole_root_plug.
  - lookup.
  - frame_setp.
  - lookup.
  - frame_setp.
  - frame_setp.
  - frame_hole.
  - clear -Hnd'.
    eapply NoDup_Permutation_proper; [|exact Hnd']. solve_Permutation.
Qed.

(** ** Putting an unlinked node in the place of another *)

Lemma replace_node_ok (s : hmst) K l x r m :
  srep s (plug K (Node l x tt r)) -> m ∉ elems (plug K (Node l x tt r)) -> is_Some (tmem s !! m) ->
  exists s', replace_node x (Some m) s = Some (tt, s') /\ srep s' (plug K (Node l m tt r)).
Proof.
  rewrite elems_plug. setoid_rewrite srep_zrep.
  intros (Hr & (Hx & Hl & Hr') & HK & Hnd) Hm [[? ? ? []] Hn]. simpl in *.
  pose proof (NoDup_ctx K (Node l x tt r) Hnd) as HndK.
  pose proof Hnd as Hnd'. nodup_split Hnd. rewrite !elem_of_app, elem_of_cons in Hm.
  unfold replace_node. xload. xstore. xload. xstore. xload. xstore. xload.
  xsetp (Some x). xload. xsetp (Some x). xload. xrelink.
  eexists; split; [done|]. unfold zrep; simpl; split_and!.
  - by eapply hole_root_plug.
  - lookup.
  - frame_setp.
  - frame_setp.
  - frame_hole.
  - clear -Hnd' Hm. rewrite !NoDup_app, NoDup_cons in *. set_solver.
Qed.
