(* ===== verification/HeapPath.v ===== *)
(** * The binary heap: level-order positions

    Nodes are numbered in level order from the root, which is 1: the children of
    [i] are [2i] and [2i+1].  A heap of [n] elements occupies the numbers [1..n].
    This file shows that the bit path the code computes from a number leads to
    the slot of that number, for insertion ([n+1]) and for removal ([n]). *)

From S2P Require Import Prelude LinkedTree Heap HeapMem.

(** ** Paths *)

Definition child_no (i : positive) (b : bool) : positive := if b then i~1%positive else i~0%positive.

(** The number reached from [i] by a list of turns, [true] for right. *)
Definition number (i : positive) (l : list bool) : positive := foldl child_no i l.

(** The turns from the root to a number: its binary digits after the leading one. *)
Fixpoint turns (p : positive) : list bool :=
  match p with
  | xH => []
  | xO p => turns p ++ [false]
  | xI p => turns p ++ [true]
  end.

(** A list of turns as the [path] word holds it, the next turn in the low bit. *)
Fixpoint encode (l : list bool) : Z :=
  match l with [] => 0 | b :: l => Z.b2z b + 2 * encode l end.

Lemma number_turns p : number 1 (turns p) = p.
Proof. unfold number. induction p as [p IH|p IH|]; simpl; rewrite ?foldl_app, ?IH; done. Qed.

Lemma turns_number i l : turns (number i l) = turns i ++ l.
Proof.
  unfold number. revert i; induction l as [|b l IH]; intros i; simpl; [by rewrite app_nil_r|].
  rewrite IH. destruct b; simpl; by rewrite <-app_assoc.
Qed.

Lemma number_ge i l : (i <= number i l)%positive.
Proof.
  unfold number. revert i; induction l as [|b l IH]; intros i; simpl; [lia|].
  specialize (IH (child_no i b)). unfold child_no in *. destruct b; lia.
Qed.
Lemma number_gt i b l : (i < number (child_no i b) l)%positive.
Proof. pose proof (number_ge (child_no i b) l). destruct b; simpl in *; lia. Qed.

(** Different subtrees hold different numbers. *)
Lemma number_sibling i b l l' : number (child_no i b) l <> number (child_no i (negb b)) l'.
Proof.
  intros E%(f_equal turns). rewrite !turns_number in E.
  destruct b; simpl in E; rewrite <-!app_assoc in E; simplify_list_eq.
Qed.

Lemma encode_bound l : 0 <= encode l < 2 ^ Z.of_nat (length l).
Proof.
  induction l as [|b l IH]; [done|]. cbn [encode length]. rewrite Nat2Z.inj_succ, Z.pow_succ_r by lia.
  destruct b; simpl; lia.
Qed.

Lemma encode_push l b : (length l < 64)%nat ->
  u64 (Z.lor (Z.shiftl (encode l) 1) (Z.b2z b)) = encode (b :: l).
Proof.
  intros Hl. pose proof (encode_bound (b :: l)) as Hb. cbn [encode] in *.
  assert (Z.lor (Z.shiftl (encode l) 1) (Z.b2z b) = Z.b2z b + 2 * encode l) as ->.
  { pose proof (encode_bound l). destruct (encode l) as [|p|p], b; done || lia. }
  apply uwrap_small. split; [lia|]. eapply Z.lt_le_trans; [apply Hb|].
  apply Z.pow_le_mono_r; simpl; lia.
Qed.

Lemma encode_head b l : (Z.land (encode (b :: l)) 1 =? 1) = b.
Proof.
  change 1 with (Z.ones 1) at 1. rewrite Z.land_ones by lia. simpl encode.
  rewrite (Z.mul_comm 2), Z.mod_add by lia. by destruct b.
Qed.
Lemma encode_tail b l : Z.shiftr (encode (b :: l)) 1 = encode l.
Proof.
  rewrite Z.shiftr_div_pow2 by lia. simpl encode. rewrite (Z.mul_comm 2), Z.div_add by lia. by destruct b.
Qed.

(** The loop pushes the turns of [n] in front of the ones pushed so far. *)
Lemma path_loop_ok fuel : forall p acc,
  (length (turns p) <= fuel)%nat -> (length (turns p ++ acc) <= 64)%nat ->
  path_loop fuel (encode acc) (length acc) (Z.pos p)
  = Some (encode (turns p ++ acc), length (turns p ++ acc)).
Proof.
  induction fuel as [|fuel IH]; intros p acc Hf Hl.
  - destruct p; simpl in Hf; rewrite ?length_app in Hf; simpl in Hf; [lia|lia|done].
  - assert (forall b q, p = child_no q b -> path_loop (S fuel) (encode acc) (length acc) (Z.pos p)
      = Some (encode (turns p ++ acc), length (turns p ++ acc))) as G.
    { intros b q ->. assert (turns (child_no q b) = turns q ++ [b]) as E by by destruct b.
      rewrite E, length_app in Hf. rewrite E, !length_app in Hl. rewrite E, <-app_assoc. simpl in Hf, Hl.
      cbn [path_loop]. rewrite (proj2 (Z.leb_le _ _)) by (destruct b; simpl; lia).
      replace (Z.land (Z.pos (child_no q b)) 1) with (Z.b2z b) by by destruct b.
      rewrite encode_push by lia.
      replace (Z.pos (child_no q b) / 2) with (Z.pos q)
        by (destruct b; simpl child_no; [apply (Z.div_unique_pos _ _ _ 1)|apply (Z.div_unique_pos _ _ _ 0)]; lia).
      apply (IH q (b :: acc)); rewrite ?length_app; simpl; lia. }
    destruct p as [q|q|]; [by apply (G true q)|by apply (G false q)|done].
Qed.

Lemma turns_length p n : Z.pos p < 2 ^ Z.of_nat n -> (length (turns p) < n)%nat.
Proof.
  revert n; induction p as [p IH|p IH|]; intros n H; simpl; rewrite ?length_app; simpl.
  all: destruct n as [|n]; [simpl in H; lia|]; rewrite Nat2Z.inj_succ, Z.pow_succ_r in H by lia.
  1,2: specialize (IH n); lia.
  lia.
Qed.

Lemma path_to_ok p : Z.pos p < 2 ^ 64 -> path_to (Z.pos p) = Some (encode (turns p), length (turns p)).
Proof.
  intros H. apply (turns_length p 64) in H. unfold path_to.
  pose proof (path_loop_ok 64 p []) as E. rewrite app_nil_r in E. apply E; lia.
Qed.

(** ** Complete trees *)

(** The subtree at number [i] of a heap that occupies exactly the numbers [1..n]. *)
Fixpoint complete (n : Z) (i : positive) (t : htree) : Prop :=
  match t with
  | Leaf => n < Z.pos i
  | Node l _ _ r => Z.pos i <= n /\ complete n i~0 l /\ complete n i~1 r
  end.

(** The same for the surroundings of a hole at number [i]. *)
Fixpoint kcomplete (n : Z) (K : list hframe) (i : positive) : Prop :=
  match K with
  | [] => i = 1%positive
  | FL _ _ r :: K => exists j, i = j~0%positive /\ Z.pos j <= n /\ complete n j~1 r /\ kcomplete n K j
  | FR l _ _ :: K => exists j, i = j~1%positive /\ Z.pos j <= n /\ complete n j~0 l /\ kcomplete n K j
  end.

Lemma complete_plug n K i t : kcomplete n K i -> complete n i t -> complete n 1 (plug K t).
Proof.
  revert i t; induction K as [|[x c r|l x c] K IH]; simpl; intros i t HK Ht.
  - by subst i.
  - destruct HK as (j & -> & Hj & Hr & HK). by apply (IH j).
  - destruct HK as (j & -> & Hj & Hr & HK). by apply (IH j).
Qed.

Lemma complete_unplug n K t : complete n 1 (plug K t) -> exists i, kcomplete n K i /\ complete n i t.
Proof.
  revert t; induction K as [|[x c r|l x c] K IH]; simpl; intros t H; [by exists 1%positive|..].
  - destruct (IH _ H) as (j & HK & Hj & Hl & Hr). exists j~0%positive; eauto 10.
  - destruct (IH _ H) as (j & HK & Hj & Hl & Hr). exists j~1%positive; eauto 10.
Qed.

(** Two trees of the same shape are complete for the same numbers. *)
Lemma complete_reshape n K t t' :
  complete n 1 (plug K t) -> (forall i, complete n i t -> complete n i t') -> complete n 1 (plug K t').
Proof. intros (i & HK & Ht)%complete_unplug H. eapply complete_plug; eauto. Qed.

(** Changing the bound where it only matters at the number [h]. *)
Lemma complete_ext n n' h t : forall i,
  (forall j : positive, j <> h -> Z.pos j <= n <-> Z.pos j <= n') -> (forall l, number i l <> h) ->
  complete n i t -> complete n' i t.
Proof.
  induction t as [|l IHl x c r IHr]; simpl; intros i Hj Hi H;
    pose proof (Hj i (Hi [])) as Hii; simpl in Hii; [lia|].
  destruct H as (Hin & Hl & Hr). split_and!; [lia| |].
  - apply IHl; [done|intros l'; apply (Hi (false :: l'))|done].
  - apply IHr; [done|intros l'; apply (Hi (true :: l'))|done].
Qed.

Lemma kcomplete_ext n n' K : forall i l,
  (forall j : positive, j <> number i l -> Z.pos j <= n <-> Z.pos j <= n') ->
  kcomplete n K i -> kcomplete n' K i.
Proof.
  induction K as [|[x c r|t x c] K IH]; simpl; intros i l Hj; [done| |];
    intros (j & -> & Hin & Ht & HK); exists j.
  - pose proof (number_gt j false l) as Hlt. simpl in Hlt. split_and!; [done|apply Hj; [lia|done]| |].
    + eapply complete_ext; [exact Hj| |done]. intros l' E. by apply (number_sibling j true l' l).
    + by apply (IH j (false :: l)).
  - pose proof (number_gt j true l) as Hlt. simpl in Hlt. split_and!; [done|apply Hj; [lia|done]| |].
    + eapply complete_ext; [exact Hj| |done]. intros l' E. by apply (number_sibling j false l' l).
    + by apply (IH j (true :: l)).
Qed.

(** ** The descents *)

Lemma step_slot_ok s K l x c r b turns :
  srep s (plug K (Node l x c r)) ->
  step_slot (encode (b :: turns)) (slot_of K) s
  = Some (slot_of (if b then FR l x c :: K else FL x c r :: K), s).
Proof.
  intros H. unfold step_slot. erewrite M_bind_Some by by eapply read_slot_ok. cbn [rootp].
  rewrite encode_head. by destruct b.
Qed.

(** Following [ts] from number [i] reaches number [number i ts]; only the last
    step may leave the heap. *)
Lemma insert_walk_ok s n ts : forall K t i,
  srep s (plug K t) -> kcomplete n K i -> complete n i t -> Z.pos (number i ts) <= n + 1 ->
  exists K' t', plug K' t' = plug K t
    /\ insert_walk (length ts) (encode ts) (slot_of (tail K)) (slot_of K) s
       = Some ((slot_of (tail K'), slot_of K'), s)
    /\ kcomplete n K' (number i ts) /\ complete n (number i ts) t'.
Proof.
  induction ts as [|b ts IH]; intros K t i H HK Ht Hn; [by exists K, t|].
  pose proof (number_gt i b ts) as Hlt. change (number i (b :: ts)) with (number (child_no i b) ts) in *.
  destruct t as [|l x c r]; simpl in Ht; [lia|]. destruct Ht as (Hi & Hl & Hr).
  cbn [length insert_walk]. erewrite M_bind_Some by by eapply step_slot_ok.
  rewrite encode_tail. destruct b.
  - apply (IH (FR l x c :: K) r i~1%positive); simpl; eauto 10.
  - apply (IH (FL x c r :: K) l i~0%positive); simpl; eauto 10.
Qed.

Lemma remove_walk_ok s n ts : forall K t i,
  srep s (plug K t) -> kcomplete n K i -> complete n i t -> Z.pos (number i ts) <= n ->
  exists K' t', plug K' t' = plug K t
    /\ remove_walk (length ts) (encode ts) (slot_of K) s = Some (slot_of K', s)
    /\ kcomplete n K' (number i ts) /\ complete n (number i ts) t'.
Proof.
  induction ts as [|b ts IH]; intros K t i H HK Ht Hn; [by exists K, t|].
  pose proof (number_gt i b ts) as Hlt. change (number i (b :: ts)) with (number (child_no i b) ts) in *.
  destruct t as [|l x c r]; simpl in Ht; [lia|]. destruct Ht as (Hi & Hl & Hr).
  cbn [length remove_walk]. erewrite M_bind_Some by by eapply step_slot_ok.
  rewrite encode_tail. destruct b.
  - apply (IH (FR l x c :: K) r i~1%positive); simpl; eauto 10.
  - apply (IH (FL x c r :: K) l i~0%positive); simpl; eauto 10.
Qed.
