(* ===== verification/HeapCorrect.v ===== *)
(** * The binary heap: correctness of its operations

    The heap invariant is that no node sorts before its parent and that the tree
    occupies the level-order numbers [1..nelts].  Each operation keeps it and
    changes the collection of nodes as its header comment promises. *)

From S2P Require Import Prelude LinkedTree Heap HeapMem HeapPath.

(** What [heap_init] asks of the comparator: [0 <= cmp a b] ("[a] need not be
    closer to the root than [b]") is a total preorder. *)
Class HeapOrder (cmp : loc -> loc -> Z) : Prop := {
  cmp_total : forall a b, 0 <= cmp a b \/ 0 <= cmp b a;
  cmp_ge_trans : forall a b c, 0 <= cmp a b -> 0 <= cmp b c -> 0 <= cmp a c;
}.

Section heap.
Context {cmp : loc -> loc -> Z} `{!HeapOrder cmp}.

(** ** Heap order, on trees and around a hole *)

Definition below (p : ptr) (t : htree) : Prop :=
  match p, rootp t with Some q, Some y => 0 <= cmp y q | _, _ => True end.

Fixpoint heap_ordered (t : htree) : Prop :=
  match t with
  | Leaf => True
  | Node l x _ r => below (Some x) l /\ below (Some x) r /\ heap_ordered l /\ heap_ordered r
  end.

Fixpoint kordered (K : list hframe) : Prop :=
  match K with
  | [] => True
  | FL x c t :: K | FR t x c :: K =>
      below (Some x) t /\ heap_ordered t /\ below (kpar K) (Node Leaf x c Leaf) /\ kordered K
  end.

Lemma heap_ordered_plug K t :
  kordered K -> below (kpar K) t -> heap_ordered t -> heap_ordered (plug K t).
Proof.
  revert t; induction K as [|[x c r|l x c] K IH]; simpl; intros t HK Hb Ht; [done|..].
  - destruct HK as (? & ? & ? & ?). by apply IH.
  - destruct HK as (? & ? & ? & ?). by apply IH.
Qed.

Lemma heap_ordered_unplug K t :
  heap_ordered (plug K t) -> kordered K /\ below (kpar K) t /\ heap_ordered t.
Proof.
  revert t; induction K as [|[x c r|l x c] K IH]; simpl; intros t H; [by destruct t|..].
  - destruct (IH _ H) as (? & ? & ? & ? & ? & ?). by split_and!.
  - destruct (IH _ H) as (? & ? & ? & ? & ? & ?). by split_and!.
Qed.

Lemma below_trans p q t : below (Some q) t -> below p (Node Leaf q tt Leaf) -> below p t.
Proof. destruct p, t; simpl; [done| |done..]. apply cmp_ge_trans. Qed.

(** Every node of an ordered tree sorts no earlier than its root. *)
Lemma heap_ordered_root t x :
  below (Some x) t -> heap_ordered t -> Forall (fun y => 0 <= cmp y x) (elems t).
Proof.
  induction t as [|l IHl y [] r IHr]; simpl; intros Hx H; [done|]. destruct H as (Hl & Hr & Hol & Hor).
  rewrite Forall_app, Forall_cons. split_and!; [| done |].
  - apply IHl; [|done]. eapply below_trans; eauto.
  - apply IHr; [|done]. eapply below_trans; eauto.
Qed.

(** Ordered everywhere but between the focused node and its parent: the state in
    which [sift_up] starts, and in which [sift_down] ends. *)
Definition up_ok (K : list hframe) (l r : htree) (x : loc) : Prop :=
  kordered K /\ heap_ordered (Node l x tt r) /\ below (kpar K) l /\ below (kpar K) r.

(** Ordered everywhere but around the focused node. *)
Definition down_ok (K : list hframe) (l r : htree) : Prop :=
  kordered K /\ heap_ordered l /\ heap_ordered r /\ below (kpar K) l /\ below (kpar K) r.

Lemma cmp_flip_ge a b : cmp a b < 0 -> 0 <= cmp b a.
Proof. destruct (cmp_total a b); lia. Qed.

(** ** Sifting *)

Lemma up_ok_left K l r x p t :
  up_ok (FL p tt t :: K) l r x -> cmp x p < 0 -> up_ok K (Node l p tt r) t x.
Proof.
  intros ((Hpt & Ht & Hpg & HK) & (_ & _ & Hol & Hor) & Hl & Hr) Hlt%cmp_flip_ge.
  unfold up_ok. cbn [heap_ordered]. split_and!; try done; by eapply below_trans.
Qed.
Lemma up_ok_right K l r x p t :
  up_ok (FR t p tt :: K) l r x -> cmp x p < 0 -> up_ok K t (Node l p tt r) x.
Proof.
  intros ((Hpt & Ht & Hpg & HK) & (_ & _ & Hol & Hor) & Hl & Hr) Hlt%cmp_flip_ge.
  unfold up_ok. cbn [heap_ordered]. split_and!; try done; by eapply below_trans.
Qed.

Lemma elems_plug_perm (K : list hframe) t t' : elems t ≡ₚ elems t' -> elems (plug K t) ≡ₚ elems (plug K t').
Proof. rewrite !elems_plug. by intros ->. Qed.

(** What a sifting loop that starts in [s] on the tree [t] of [n] nodes delivers. *)
Definition sifted (n : Z) (t : htree) (o : option (unit * hmst)) : Prop :=
  exists s' t', o = Some (tt, s') /\ srep s' t' /\ complete n 1 t'
    /\ heap_ordered t' /\ elems t' ≡ₚ elems t.

Lemma sift_up_ok n fuel : forall s K l x r,
  srep s (plug K (Node l x tt r)) -> complete n 1 (plug K (Node l x tt r)) -> up_ok K l r x ->
  (length K < fuel)%nat -> sifted n (plug K (Node l x tt r)) (sift_up cmp fuel x s).
Proof.
  induction fuel as [|fuel IH]; intros s K l x r H Hn Hup Hf; [lia|].
  pose proof (srep_focus _ _ _ _ _ _ H) as Hx. simpl. xload.
  assert (below (kpar K) (Node Leaf x tt Leaf) -> sifted n (plug K (Node l x tt r)) (Some (tt, s))) as Hstop.
  { intros Hb. destruct Hup as (HK & Ho & _). eexists _, _. split_and!; [done|done|done| |done].
    by apply heap_ordered_plug. }
  destruct K as [|[p [] t|t p []] K]; simpl in Hf; [by apply Hstop|..];
    simpl; (destruct (Z.ltb_spec (cmp x p) 0) as [Hlt|]; [|by apply Hstop]).
  - destruct (swap_left_ok _ _ _ _ _ _ _ H) as (s1 & E1 & H1). erewrite M_bind_Some by exact E1.
    destruct (IH s1 K (Node l p tt r) x t H1) as (s' & t' & E & H' & Hn' & Ho' & He').
    + by eapply complete_reshape; [exact Hn|].
    + by apply up_ok_left.
    + lia.
    + exists s', t'. split_and!; try done. rewrite He'. apply elems_plug_perm. simpl. solve_Permutation.
  - destruct (swap_right_ok _ _ _ _ _ _ _ H) as (s1 & E1 & H1). erewrite M_bind_Some by exact E1.
    destruct (IH s1 K t x (Node l p tt r) H1) as (s' & t' & E & H' & Hn' & Ho' & He').
    + by eapply complete_reshape; [exact Hn|].
    + by apply up_ok_right.
    + lia.
    + exists s', t'. split_and!; try done. rewrite He'. apply elems_plug_perm. simpl. solve_Permutation.
Qed.

(** The node chosen by the body of the loop: [x] itself if it may stay, otherwise
    a child that may be the parent of the other one. *)
Lemma smallest_child_ok (l r : htree) x p :
  (smallest_child cmp x (BNode (rootp l) (rootp r) p tt) = x /\ below (Some x) l /\ below (Some x) r)
  \/ (exists ll y lr, l = Node ll y tt lr /\ below (Some y) r
        /\ smallest_child cmp x (BNode (rootp l) (rootp r) p tt) = y)
  \/ (exists rl z rr, r = Node rl z tt rr /\ below (Some z) l
        /\ smallest_child cmp x (BNode (rootp l) (rootp r) p tt) = z).
Proof.
  unfold smallest_child. destruct l as [|ll y [] lr]; simpl.
  - destruct r as [|rl z [] rr]; simpl; [by left|].
    destruct (Z.ltb_spec (cmp z x) 0); [right; right|left]; eauto 10.
  - destruct (Z.ltb_spec (cmp y x) 0).
    + destruct r as [|rl z [] rr]; simpl; [right; left; eauto 10|].
      destruct (Z.ltb_spec (cmp z y) 0); right; [right|left]; eauto 10 using cmp_flip_ge.
    + destruct r as [|rl z [] rr]; simpl; [by left|].
      destruct (Z.ltb_spec (cmp z x) 0); [right; right|left; eauto].
      do 3 eexists; split_and!; [done| |done]. eapply cmp_ge_trans; [done|by apply cmp_flip_ge].
Qed.

Lemma sift_down_ok n fuel : forall s K l x r,
  srep s (plug K (Node l x tt r)) -> complete n 1 (plug K (Node l x tt r)) -> down_ok K l r ->
  (length (elems l ++ elems r) < fuel)%nat ->
  exists s' K' l' r', sift_down cmp fuel x s = Some (tt, s') /\ srep s' (plug K' (Node l' x tt r'))
    /\ complete n 1 (plug K' (Node l' x tt r')) /\ up_ok K' l' r' x
    /\ elems (plug K' (Node l' x tt r')) ≡ₚ elems (plug K (Node l x tt r)).
Proof.
  induction fuel as [|fuel IH]; intros s K l x r H Hn (HK & Hl & Hr & Hgl & Hgr) Hf; [lia|].
  pose proof (srep_focus _ _ _ _ _ _ H) as Hx. simpl. xload.
  destruct (smallest_child_ok l r x (kpar K)) as [(-> & Hxl & Hxr)|[(ll & y & lr & -> & Hyr & ->)|(rl & z & rr & -> & Hzl & ->)]].
  - rewrite bool_decide_true by done. exists s, K, l, r. by split_and!.
  - rewrite bool_decide_false.
    2: { intros ->. pose proof (proj2 (proj2 H)) as Hnd. rewrite elems_plug in Hnd. simpl in Hnd.
         nodup_split Hnd. set_solver. }
    destruct (swap_left_ok _ _ _ _ _ _ _ H) as (s1 & E1 & H1). erewrite M_bind_Some by exact E1.
    destruct Hl as (Hyll & Hylr & Holl & Holr).
    destruct (IH s1 (FL y tt r :: K) ll x lr H1) as (s' & K' & l' & r' & E & H' & Hn' & Ho' & He').
    + by apply (complete_reshape n K _ (Node (Node ll x tt lr) y tt r) Hn).
    + unfold down_ok. cbn [kordered]. by split_and!.
    + revert Hf. simpl. rewrite !length_app. simpl. lia.
    + exists s', K', l', r'. split_and!; try done. rewrite He'. 
      apply (elems_plug_perm K (Node (Node ll x tt lr) y tt r)). simpl. solve_Permutation.
  - rewrite bool_decide_false.
    2: { intros ->. pose proof (proj2 (proj2 H)) as Hnd. rewrite elems_plug in Hnd. simpl in Hnd.
         nodup_split Hnd. set_solver. }
    destruct (swap_right_ok _ _ _ _ _ _ _ H) as (s1 & E1 & H1). erewrite M_bind_Some by exact E1.
    destruct Hr as (Hzrl & Hzrr & Horl & Horr).
    destruct (IH s1 (FR l z tt :: K) rl x rr H1) as (s' & K' & l' & r' & E & H' & Hn' & Ho' & He').
    + by apply (complete_reshape n K _ (Node l z tt (Node rl x tt rr)) Hn).
    + unfold down_ok. cbn [kordered]. by split_and!.
    + revert Hf. simpl. rewrite !length_app. simpl. lia.
    + exists s', K', l', r'. split_and!; try done. rewrite He'.
      apply (elems_plug_perm K (Node l z tt (Node rl x tt rr))). simpl. solve_Permutation.
Qed.

(** ** The operations *)

Definition hrep (s : hst) (t : htree) : Prop :=
  srep (hmem s) t /\ nelts s = Z.of_nat (length (elems t)).

Definition heap_inv (t : htree) : Prop :=
  heap_ordered t /\ complete (Z.of_nat (length (elems t))) 1 t.

Lemma on_mem_bind {A B} (m : M hmst A) (f : A -> M hst B) t n a t' :
  m t = Some (a, t') -> (on_mem m ≫= f) (HSt t n) = f a (HSt t' n).
Proof. intros E. apply M_bind_Some. unfold on_mem. simpl. by rewrite E. Qed.

Lemma srep_store (m m' : gmap loc (bnode unit)) r t :
  (forall y, y ∈ elems t -> m' !! y = m !! y) -> srep (TSt m r) t -> srep (TSt m' r) t.
Proof. intros Hm (Hr & Ht & Hnd). split_and!; [done| |done]. by eapply trep_frame. Qed.

(** Hanging an isolated node in an empty slot. *)
Lemma link_leaf_ok (s : hmst) K x :
  srep s (plug K Leaf) -> x ∉ elems (plug K Leaf) ->
  tmem s !! x = Some (BNode None None (kpar K) tt) ->
  exists s', write_slot (slot_of K) (Some x) s = Some (tt, s') /\ srep s' (plug K (Node Leaf x tt Leaf)).
Proof.
  rewrite elems_plug. setoid_rewrite srep_zrep. intros (Hr & _ & HK & Hnd) Hx Hmx.
  erewrite write_slot_ok by exact HK. eexists; split; [done|]. simpl in *.
  unfold zrep; simpl; split_and!; [by eapply hole_root_plug| |done|done|by eapply krep_hole|].
  - rewrite lookup_hole_ne; [done|]. intros E%kpar_elem. set_solver.
  - clear -Hnd Hx. rewrite !NoDup_app, NoDup_cons in *. set_solver.
Qed.

Lemma read_parent_slot (s : hmst) K t :
  srep s (plug K t) -> K <> [] \/ t = Leaf -> read_slot (slot_of (tail K)) s = Some (kpar K, s).
Proof.
  intros H Hne. destruct K as [|[p c r|l p c] K]; simpl.
  - destruct Hne as [?| ->]; [done|]. by apply (read_slot_ok s [] Leaf).
  - by apply (read_slot_ok s K (Node t p c r)).
  - by apply (read_slot_ok s K (Node l p c t)).
Qed.

(** The tree [heap_insert] has built when it starts to sift. *)
Lemma insert_linked s t x :
  srep s t -> complete (Z.of_nat (length (elems t))) 1 t -> heap_ordered t ->
  x ∉ elems t -> tmem s !! x = Some (BNode None None None tt) ->
  Z.of_nat (length (elems t)) + 1 < 2 ^ 64 ->
  exists path k K s1 s2,
    path_to (u64 (1 + Z.of_nat (length (elems t)))) = Some (path, k)
    /\ insert_walk k path SRoot SRoot s = Some ((slot_of (tail K), slot_of K), s)
    /\ read_slot (slot_of (tail K)) s = Some (kpar K, s)
    /\ upd (Some x) (upd_parent (kpar K)) s = Some (tt, s1)
    /\ write_slot (slot_of K) (Some x) s1 = Some (tt, s2)
    /\ srep s2 (plug K (Node Leaf x tt Leaf)) /\ plug K Leaf = t
    /\ complete (Z.of_nat (length (elems t)) + 1) 1 (plug K (Node Leaf x tt Leaf))
    /\ up_ok K Leaf Leaf x.
Proof.
  intros H Hc Ho Hx Hmx Hb. set (n := Z.of_nat (length (elems t))) in *.
  assert (u64 (1 + n) = Z.pos (Z.to_pos (n + 1))) as E.
  { rewrite uwrap_small by (unfold ubound; lia). rewrite Z2Pos.id; lia. }
  set (p := Z.to_pos (n + 1)) in *.
  assert (Z.pos p = n + 1) as Hp by (subst p; rewrite Z2Pos.id; lia).
  destruct (insert_walk_ok s n (turns p) [] t 1) as (K & t' & Et & Hw & HK & Ht');
    [done|done|done|rewrite number_turns; lia|].
  rewrite number_turns in HK, Ht'. destruct t' as [|l y c r]; [|simpl in Ht'; lia].
  simpl in Et. subst t.
  destruct (link_leaf_ok (TSt (alter (upd_parent (kpar K)) x (tmem s)) (troot s)) K x) as (s2 & E2 & H2).
  { destruct s. eapply srep_store; [|exact H]. intros y Hy. apply lookup_alter_ne. set_solver. }
  { done. }
  { simpl. by rewrite lookup_alter_eq, Hmx. }
  do 5 eexists. split_and!.
  - rewrite E. by apply path_to_ok; lia.
  - exact Hw.
  - by apply (read_parent_slot s K Leaf); [|right].
  - by eapply upd_eq.
  - exact E2.
  - done.
  - done.
  - apply (complete_plug _ K p); [|simpl; lia].
    apply (kcomplete_ext n (n + 1) K p []); [intros j Hj; simpl in Hj; lia|done].
  - apply heap_ordered_unplug in Ho as (HoK & _ & _). destruct (kpar K) eqn:EK; by repeat split; rewrite ?EK.
Qed.

(** C21 [heap_insert] terminates without undefined behaviour, adds exactly the
    given node, counts it, and keeps heap order and the complete shape. *)
Theorem heap_insert_correct s t x :
  hrep s t -> heap_inv t -> x ∉ elems t -> is_Some (tmem (hmem s) !! x) -> nelts s + 1 < 2 ^ 64 ->
  exists s' t', heap_insert cmp x s = Some (tt, s') /\ hrep s' t' /\ heap_inv t'
    /\ elems t' ≡ₚ x :: elems t.
Proof.
  intros [H Hn] [Ho Hc] Hx [[lx rx px []] Hmx] Hb. destruct s as [[m r] n]. simpl in *. subst n.
  set (m1 := alter (upd_parent None) x (alter (upd_right None) x (alter (upd_left None) x m))).
  destruct (insert_linked (TSt m1 r) t x) as (path & k & K & s1 & s2 & E1 & E2 & E3 & E4 & E5 & H2 & Et & Hc2 & Hup);
    [|done|done|done| |done|].
  { eapply srep_store; [|exact H]. intros y Hy. subst m1. by rewrite !lookup_alter_ne by set_solver. }
  { subst m1. simpl. by rewrite !lookup_alter_eq, Hmx. }
  unfold heap_insert.
  do 3 (erewrite on_mem_bind by (eapply upd_eq; simpl; rewrite ?lookup_alter_eq, Hmx; reflexivity)).
  cbn [tmem troot]. fold m1. unfold gets at 1. xret. cbn [nelts]. rewrite E1.
  erewrite on_mem_bind by exact E2. cbv beta iota. erewrite on_mem_bind by exact E3.
  erewrite on_mem_bind by exact E4. erewrite on_mem_bind by exact E5. xret. xret.
  pose proof (srep_depth _ _ _ H2) as Hd. simpl in Hd.
  destruct (sift_up_ok _ (S (size (tmem s2))) _ _ _ _ _ H2 Hc2 Hup) as (s3 & t3 & E6 & H3 & Hc3 & Ho3 & He3);
    [lia|].
  assert (elems t3 ≡ₚ x :: elems t) as He.
  { rewrite He3, <-Et, !elems_plug. simpl. solve_Permutation. }
  pose proof (Permutation_length He) as Hl. simpl in Hl.
  eexists _, t3. split_and!.
  - unfold on_mem, mem_fuel, gets. simpl. erewrite M_bind_Some by reflexivity. rewrite E6. done.
  - split; [done|]. simpl. rewrite uwrap_small by (unfold ubound; lia). lia.
  - split; [done|]. by replace (Z.of_nat (length (elems t3))) with (Z.of_nat (length (elems t)) + 1) by lia.
  - done.
Qed.

(** The node in the last place is taken off the tree. *)
Lemma remove_unlinked s t :
  srep s t -> complete (Z.of_nat (length (elems t))) 1 t -> heap_ordered t -> t <> Leaf ->
  Z.of_nat (length (elems t)) < 2 ^ 64 ->
  exists path k K m s1, path_to (Z.of_nat (length (elems t))) = Some (path, k)
    /\ remove_walk k path SRoot s = Some (slot_of K, s)
    /\ read_slot (slot_of K) s = Some (Some m, s)
    /\ write_slot (slot_of K) None s = Some (tt, s1)
    /\ t = plug K (Node Leaf m tt Leaf) /\ srep s1 (plug K Leaf)
    /\ complete (Z.of_nat (length (elems t)) - 1) 1 (plug K Leaf) /\ heap_ordered (plug K Leaf)
    /\ m ∉ elems (plug K Leaf) /\ is_Some (tmem s1 !! m).
Proof.
  intros H Hc Ho Hne Hb. set (n := Z.of_nat (length (elems t))) in *.
  assert (0 < n) as Hn by (subst n; destruct t; [done|]; simpl; rewrite length_app; simpl; lia).
  destruct n as [|p|p]; [lia| |lia].
  destruct (remove_walk_ok s (Z.pos p) (turns p) [] t 1) as (K & t' & Et & Hw & HK & Ht');
    [done|done|done|rewrite number_turns; lia|].
  rewrite number_turns in HK, Ht'. destruct t' as [|l m [] r]; simpl in Ht'; [lia|].
  destruct Ht' as (_ & Hl & Hr).
  destruct l; [|simpl in Hl; lia]. destruct r; [|simpl in Hr; lia]. simpl in Et. subst t.
  pose proof (srep_splice s K Leaf m tt Leaf Leaf H) as H1. simpl in H1.
  exists (encode (turns p)), (length (turns p)), K, m, (set_hole K None s).
  pose proof (proj2 (proj2 H)) as Hnd. rewrite elems_plug in Hnd. simpl in Hnd. nodup_split Hnd.
  assert (m ∉ elems (plug K Leaf)) as Hm by (rewrite elems_plug; set_solver).
  split_and!.
  - by apply path_to_ok.
  - exact Hw.
  - exact (read_slot_ok s K (Node Leaf m tt Leaf) H).
  - eapply write_slot_ok. by apply srep_zrep in H as (_ & _ & HKr & _).
  - done.
  - destruct s. apply H1. by left.
  - apply (complete_plug _ K p); [|simpl; lia].
    apply (kcomplete_ext (Z.pos p) (Z.pos p - 1) K p []); [intros j Hj; simpl in Hj; lia|done].
  - apply heap_ordered_unplug in Ho as (HoK & _ & _). apply heap_ordered_plug; [done| |done]. by destruct (kpar K).
  - done.
  - simpl. rewrite lookup_hole_ne; [by rewrite (srep_focus _ _ _ _ _ _ H)|].
    intros E%kpar_elem. rewrite elems_plug in Hm. set_solver.
Qed.

(** Another node takes the place of [x] and sinks or rises to where it belongs. *)
Lemma remove_replaced n s u x m :
  srep s u -> complete n 1 u -> heap_ordered u -> x ∈ elems u -> m ∉ elems u -> is_Some (tmem s !! m) ->
  exists s1 s2 s3 t', replace_node x (Some m) s = Some (tt, s1)
    /\ (mem_fuel ≫= fun fuel => sift_down cmp fuel m) s1 = Some (tt, s2)
    /\ (mem_fuel ≫= fun fuel => sift_up cmp fuel m) s2 = Some (tt, s3)
    /\ srep s3 t' /\ complete n 1 t' /\ heap_ordered t' /\ x :: elems t' ≡ₚ m :: elems u.
Proof.
  intros H Hc Ho (K & l & [] & r & ->)%elem_split Hm Hm1.
  destruct (heap_ordered_unplug _ _ Ho) as (HK & Hbx & Hxl & Hxr & Hol & Hor).
  destruct (replace_node_ok _ _ _ _ _ m H Hm Hm1) as (s1 & E1 & H1).
  pose proof (srep_depth _ _ _ H1) as Hd1. simpl in Hd1. rewrite length_app in Hd1. simpl in Hd1.
  destruct (sift_down_ok n (S (size (tmem s1))) s1 K l m r H1) as (s2 & K2 & l2 & r2 & E2 & H2 & Hc2 & Hup & He2).
  { by apply (complete_reshape n K _ _ Hc). }
  { split_and!; try done; by eapply below_trans. }
  { rewrite length_app. lia. }
  pose proof (srep_depth _ _ _ H2) as Hd2. simpl in Hd2. rewrite length_app in Hd2. simpl in Hd2.
  destruct (sift_up_ok n (S (size (tmem s2))) _ _ _ _ _ H2 Hc2 Hup) as (s3 & t' & E3 & H3 & Hc3 & Ho3 & He3); [lia|].
  exists s1, s2, s3, t'. split_and!; try done. rewrite He3, He2, !elems_plug. simpl. solve_Permutation.
Qed.

(** Removal of a stored node, with the nodes that stay as a permutation. *)
Lemma heap_remove_ok s t x :
  hrep s t -> heap_inv t -> x ∈ elems t -> nelts s < 2 ^ 64 ->
  exists s' t', heap_remove cmp x s = Some (tt, s') /\ hrep s' t' /\ heap_inv t'
    /\ x :: elems t' ≡ₚ elems t.
Proof.
  intros [H Hn] [Ho Hc] Hx Hb. destruct s as [s n]. simpl in *. subst n.
  assert (t <> Leaf) as Hne by (intros ->; set_solver).
  destruct (remove_unlinked s t H Hc Ho Hne Hb)
    as (path & k & K & m & s1 & E1 & E2 & E3 & E4 & Et & H1 & Hc1 & Ho1 & Hm & Hm1).
  assert (elems t ≡ₚ m :: elems (plug K Leaf)) as Hperm.
  { subst t. rewrite !elems_plug. simpl. solve_Permutation. }
  pose proof (Permutation_length Hperm) as Hlen. cbn [length] in Hlen.
  unfold heap_remove. unfold gets at 1. xret. cbn [nelts].
  rewrite (proj2 (Z.eqb_neq _ _)), E1 by lia.
  erewrite on_mem_bind by exact E2. xret. cbn [hmem]. erewrite on_mem_bind by exact E3.
  erewrite on_mem_bind by exact E4.
  destruct (decide (m = x)) as [->|Hmx].
  - rewrite bool_decide_true by done. erewrite on_mem_bind by reflexivity.
    rewrite bool_decide_false.
    + eexists _, (plug K Leaf). split_and!; [done| | |by rewrite Hperm].
      * split; [done|]. simpl. rewrite uwrap_small by (unfold ubound; lia). lia.
      * split; [done|].
        by replace (Z.of_nat (length (elems (plug K Leaf)))) with (Z.of_nat (length (elems t)) - 1) by lia.
    + destruct H1 as (-> & _). intros E. symmetry in E. apply rootp_elem in E. done.
  - rewrite bool_decide_false by congruence.
    assert (x ∈ elems (plug K Leaf)) as Hx' by (rewrite Hperm in Hx; set_solver).
    destruct (remove_replaced _ _ _ x m H1 Hc1 Ho1 Hx' Hm Hm1) as (s2 & s3 & s4 & t' & E5 & E6 & E7 & H4 & Hc4 & Ho4 & He4).
    erewrite on_mem_bind by exact E5. erewrite on_mem_bind by exact E6.
    pose proof (Permutation_length He4) as Hlen4. simpl in Hlen4.
    eexists _, t'. split_and!; [by unfold on_mem; simpl; rewrite E7| | |by rewrite He4].
    + split; [done|]. simpl. rewrite uwrap_small by (unfold ubound; lia). lia.
    + split; [done|]. by replace (Z.of_nat (length (elems t'))) with (Z.of_nat (length (elems t)) - 1) by lia.
Qed.

(** C12 [heap_remove] of a stored node, wherever it is in the tree, terminates
    without undefined behaviour, takes out exactly that node, counts it, and keeps
    heap order and the complete shape. *)
Theorem heap_remove_correct s t x :
  hrep s t -> heap_inv t -> x ∈ elems t -> nelts s < 2 ^ 64 ->
  exists s' t', heap_remove cmp x s = Some (tt, s') /\ hrep s' t' /\ heap_inv t'
    /\ x :: elems t' ≡ₚ elems t.
Proof. apply heap_remove_ok. Qed.

(** The heap is a priority queue: [heap_peek] returns a stored node that no
    other has to precede, or the null pointer exactly when [heap_empty] holds;
    [heap_dequeue] takes out that node, and does nothing on an empty heap. *)
Theorem heap_dequeue_correct s t :
  hrep s t -> heap_inv t -> nelts s < 2 ^ 64 ->
  heap_empty s = Some (bool_decide (elems t = []), s)
  /\ heap_peek s = Some (rootp t, s)
  /\ match rootp t with
     | None => elems t = [] /\ heap_dequeue cmp s = Some (tt, s)
     | Some x => x ∈ elems t /\ Forall (fun y => 0 <= cmp y x) (elems t)
         /\ exists s' t', heap_dequeue cmp s = Some (tt, s') /\ hrep s' t' /\ heap_inv t'
              /\ x :: elems t' ≡ₚ elems t
     end.
Proof.
  intros Hs Hi Hb. pose proof Hs as [(Hr & _) Hn].
  assert (heap_peek s = Some (rootp t, s)) as Hpeek.
  { unfold heap_peek, on_mem, get_root, gets. simpl. rewrite Hr. by destruct s. }
  split_and!; [| done |].
  - unfold heap_empty, gets. xret. rewrite Hn. by destruct (elems t).
  - unfold heap_dequeue. erewrite M_bind_Some by exact Hpeek.
    destruct (rootp t) as [x|] eqn:E; [|by destruct t].
    pose proof (rootp_elem _ _ E) as Hx. split_and!; [done| |by eapply heap_remove_ok].
    destruct Hi as [Ho _]. apply heap_ordered_root; [|done]. unfold below. rewrite E.
    destruct (cmp_total x x); done.
Qed.
End heap.

Definition ex_heap_cmp (a b : loc) : Z := Z.pos a - Z.pos b.
#[export] Instance ex_heap_order : HeapOrder ex_heap_cmp.
Proof. split; unfold ex_heap_cmp; intros; lia. Qed.

Definition ex_heap_tree : htree := Node (Node (Node Leaf 7 tt Leaf) 5 tt Leaf) 2 tt (Node Leaf 3 tt Leaf).
Definition ex_heap_store : hst :=
  HSt (TSt (<[2%positive := BNode (Some 5%positive) (Some 3%positive) None tt]>
           (<[5%positive := BNode (Some 7%positive) None (Some 2%positive) tt]>
           (<[3%positive := BNode None None (Some 2%positive) tt]>
           (<[7%positive := BNode None None (Some 5%positive) tt]>
           (<[1%positive := BNode None None None tt]> ∅))))) (Some 2%positive)) 4.

Lemma ex_hrep : hrep ex_heap_store ex_heap_tree.
Proof.
  split; [|done]. unfold srep. split_and!; [done| |by apply (bool_decide_unpack _)]. simpl. by split_and!.
Qed.
Lemma ex_heap_inv : heap_inv (cmp := ex_heap_cmp) ex_heap_tree.
Proof. split; simpl; split_and!; done. Qed.

Lemma heap_insert_correct_witness :
  exists s' t', heap_insert ex_heap_cmp 1 ex_heap_store = Some (tt, s') /\ hrep s' t'
    /\ heap_inv (cmp := ex_heap_cmp) t' /\ elems t' ≡ₚ [1; 7; 5; 2; 3]%positive.
Proof.
  apply (heap_insert_correct ex_heap_store ex_heap_tree 1 ex_hrep ex_heap_inv).
  - by apply (bool_decide_unpack _).
  - by eexists.
  - done.
Defined.

Lemma heap_remove_correct_witness :
  exists s' t', heap_remove ex_heap_cmp 3 ex_heap_store = Some (tt, s') /\ hrep s' t'
    /\ heap_inv (cmp := ex_heap_cmp) t' /\ 3%positive :: elems t' ≡ₚ [7; 5; 2; 3]%positive.
Proof.
  apply (heap_remove_correct ex_heap_store ex_heap_tree 3 ex_hrep ex_heap_inv).
  - by apply (bool_decide_unpack _).
  - done.
Defined.

Lemma heap_dequeue_correct_witness :
  heap_peek ex_heap_store = Some (Some 2%positive, ex_heap_store)
  /\ exists s', heap_dequeue ex_heap_cmp ex_heap_store = Some (tt, s').
Proof.
  destruct (heap_dequeue_correct ex_heap_store ex_heap_tree ex_hrep ex_heap_inv ltac:(done))
    as (_ & Hp & _ & _ & s' & t' & E & _).
  split; [exact Hp|by exists s'].
Defined.
