(* ===== verification/DListCorrect.v ===== *)
(** * Doubly linked lists and queues: refinement

    The ring of a list in memory, what one write to it does, and the simulation
    of the abstract sequence operations by the pointer code of list.c and
    queue.c. *)

From S2P Require Import Prelude DList.

(** ** Chains: [xs] are the nodes passed from [a] to [b] following one field *)

Fixpoint chain (f : gmap loc ptr) (a : loc) (xs : list loc) (b : loc) : Prop :=
  match xs with
  | [] => f !! a = Some (Some b)
  | x :: xs => f !! a = Some (Some x) /\ chain f x xs b
  end.

Lemma chain_app f a xs x ys b : chain f a (xs ++ x :: ys) b <-> chain f a xs x /\ chain f x ys b.
Proof. revert a; induction xs as [|y xs IH]; intros a; simpl; [done|]. rewrite IH. tauto. Qed.

Lemma chain_snoc f a xs x b : chain f a (xs ++ [x]) b <-> chain f a xs x /\ f !! x = Some (Some b).
Proof. apply chain_app. Qed.

Lemma chain_frame f y v a xs b : y ∉ a :: xs -> chain f a xs b -> chain (<[y := v]> f) a xs b.
Proof.
  revert a; induction xs as [|x xs IH]; intros a Hy; simpl.
  - rewrite lookup_insert_ne by set_solver. done.
  - rewrite lookup_insert_ne by set_solver. intros [? ?]. split; [done|]. apply IH; [set_solver|done].
Qed.

Lemma chain_agree f g a xs b : (forall y, y ∈ a :: xs -> g !! y = f !! y) -> chain f a xs b -> chain g a xs b.
Proof.
  revert a; induction xs as [|x xs IH]; intros a Hg; simpl; rewrite Hg by set_solver; [done|].
  intros [? ?]. split; [done|]. apply IH; [set_solver|done].
Qed.

(** The first step of a chain. *)
Definition first (xs : list loc) (b : loc) : loc := default b (head xs).
Lemma chain_first f a xs b : chain f a xs b -> f !! a = Some (Some (first xs b)).
Proof. destruct xs; simpl; [done|]. by intros [? _]. Qed.

(** Redirecting the start of a chain: it now starts at [c]. *)
Lemma chain_restart f a xs b c :
  c ∉ xs -> chain f a xs b -> chain (<[c := Some (first xs b)]> f) c xs b.
Proof.
  destruct xs as [|x xs]; simpl; [by rewrite lookup_insert_eq|].
  intros Hc [_ H]. rewrite lookup_insert_eq. split; [done|]. by apply chain_frame.
Qed.

(** Redirecting the end of a chain: it now ends at [c]. *)
Lemma chain_reend f a xs b c z :
  NoDup (a :: xs) -> last (a :: xs) = Some z -> chain f a xs b -> chain (<[z := Some c]> f) a xs c.
Proof.
  revert a; induction xs as [|x xs IH]; intros a Hnd Hz H; simpl in *.
  - injection Hz as ->. by rewrite lookup_insert_eq.
  - destruct H as [Ha H]. rewrite NoDup_cons in Hnd. destruct Hnd as [Hna Hnd].
    split; [|by apply IH]. rewrite lookup_insert_ne; [done|].
    intros ->. apply last_Some_elem_of in Hz. done.
Qed.

Lemma chain_dom f a xs b y : chain f a xs b -> y ∈ a :: xs -> is_Some (f !! y).
Proof.
  revert a; induction xs as [|x xs IH]; intros a H Hy; simpl in *.
  - apply list_elem_of_singleton in Hy as ->. by eexists.
  - destruct H as [Ha H]. apply elem_of_cons in Hy as [->|Hy]; [by eexists|]. by apply (IH x).
Qed.

(** ** Rings *)

Definition ring (s : dst) (h : loc) (xs : list loc) : Prop :=
  chain (dnext s) h xs h /\ chain (dprev s) h (reverse xs) h
  /\ dnelts s !! h = Some (Z.of_nat (length xs)).

Record dspec := DSpec {
  dlists : gmap loc (list loc);  (** the nodes of every initialised list *)
  dfree : gset loc;              (** nodes on no list *)
  dheads : gset loc;             (** [list_t] structures not initialised *)
}.

(** The addresses a list occupies. *)
Definition footprint (h : loc) (xs : list loc) : list loc := h :: xs.

Record Rep (s : dst) (a : dspec) : Prop := {
  rep_ring h xs : dlists a !! h = Some xs -> ring s h xs /\ NoDup (footprint h xs);
  rep_disj h h' xs xs' : dlists a !! h = Some xs -> dlists a !! h' = Some xs' -> h <> h' ->
    forall y, y ∈ footprint h xs -> y ∉ footprint h' xs';
  rep_free y : y ∈ dfree a ∪ dheads a -> is_Some (dnext s !! y) /\ is_Some (dprev s !! y)
    /\ forall h xs, dlists a !! h = Some xs -> y ∉ footprint h xs;
  rep_heads y : y ∈ dheads a -> is_Some (dnelts s !! y) /\ y ∉ dfree a;
}.

(** ** What the pointer surgery does to a chain

    The same three lemmas serve the [next] chain and, on the reversed sequence,
    the [prev] chain. *)

Lemma last_reverse_first h xs : last (h :: reverse xs) = Some (first xs h).
Proof.
  destruct xs as [|x xs]; [done|]. rewrite reverse_cons, app_comm_cons, last_snoc. done.
Qed.
Lemma last_first_reverse h xs : last (h :: xs) = Some (first (reverse xs) h).
Proof. rewrite <-(last_reverse_first h (reverse xs)), reverse_involutive. done. Qed.

Lemma first_elem xs h : first xs h ∈ h :: xs.
Proof. destruct xs; set_solver. Qed.
Lemma first_reverse_elem xs h : first (reverse xs) h ∈ h :: xs.
Proof. pose proof (first_elem (reverse xs) h) as H. set_solver. Qed.

Lemma chain_push N P h x xs :
  NoDup (h :: x :: xs) -> chain N h xs h -> chain P h (reverse xs) h ->
  chain (<[h := Some x]> (<[x := Some (first xs h)]> N)) h (x :: xs) h
  /\ chain (<[first xs h := Some x]> (<[x := Some h]> P)) h (reverse (x :: xs)) h.
Proof.
  rewrite !NoDup_cons. intros (Hh & Hx & Hnd) HN HP. rewrite reverse_cons, chain_snoc. split_and!.
  - split; [by rewrite lookup_insert_eq|]. apply chain_frame; [set_solver|]. by eapply chain_restart.
  - eapply chain_reend; [|apply last_reverse_first|apply chain_frame; [set_solver|done]].
    rewrite reverse_Permutation, NoDup_cons. set_solver.
  - pose proof (first_elem xs h). rewrite lookup_insert_ne, lookup_insert_eq by set_solver. done.
Qed.

Lemma chain_cut f h pre x post :
  NoDup (h :: pre ++ x :: post) -> chain f h (pre ++ x :: post) h ->
  chain (<[x := None]> (<[first (reverse pre) h := Some (first post h)]> f)) h (pre ++ post) h.
Proof.
  rewrite chain_app. rewrite NoDup_cons, NoDup_app, NoDup_cons. intros (Hh & Hpre & Hd & Hx & Hpost) [H1 H2].
  pose proof (first_reverse_elem pre h) as Hp.
  assert (x ∉ h :: pre ++ post) as Hx' by set_solver.
  apply chain_frame; [set_solver|].
  assert (chain (<[first (reverse pre) h := Some (first post h)]> f) h pre (first post h)) as H3.
  { eapply chain_reend; [|apply last_first_reverse|exact H1]. apply NoDup_cons; split; [set_solver|done]. }
  destruct post as [|y post]; simpl in *; [by rewrite app_nil_r|].
  apply chain_app. split; [done|]. apply chain_frame; [|apply H2]. revert Hp. generalize (first (reverse pre) h). clear -Hh Hd. intros p Hp. set_solver.
Qed.

(** The nodes of the ring of [b] hung on [a]. *)
Lemma chain_move f g a b ys :
  ys <> [] -> NoDup (a :: ys) -> chain f b ys b ->
  g !! a = Some (Some (first ys b)) -> g !! (first (reverse ys) b) = Some (Some a) ->
  (forall y, y ∈ ys -> y <> first (reverse ys) b -> g !! y = f !! y) -> chain g a ys a.
Proof.
  intros Hne Hnd H Ha Hl Hys. destruct ys as [|y ys _] using rev_ind; [done|]. clear Hne.
  rewrite reverse_snoc in *. simpl in *. rewrite chain_snoc in H. rewrite NoDup_cons, NoDup_app in Hnd.
  apply chain_snoc. split; [|done].
  destruct H as [H _]. destruct ys as [|x ys]; simpl in *; [done|]. split; [done|].
  destruct H as [_ H]. eapply chain_agree; [|exact H]. intros z Hz. apply Hys; [set_solver|].
  intros ->. set_solver.
Qed.

(** ** Updates away from a list leave it alone *)

Definition same_at (s s' : dst) (y : loc) : Prop :=
  dnext s' !! y = dnext s !! y /\ dprev s' !! y = dprev s !! y /\ dnelts s' !! y = dnelts s !! y.

(** [s'] differs from [s] only at addresses of [T], and has the same domain. *)
Definition updated (T : list loc) (s s' : dst) : Prop :=
  (forall y, y ∉ T -> same_at s s' y)
  /\ dom (dnext s') = dom (dnext s) /\ dom (dprev s') = dom (dprev s) /\ dom (dnelts s') = dom (dnelts s).

Lemma ring_same T s s' h xs :
  updated T s s' -> (forall y, y ∈ footprint h xs -> y ∉ T) -> ring s h xs -> ring s' h xs.
Proof.
  intros [Hs _] HT (HN & HP & Hn). split_and!.
  - eapply chain_agree; [|exact HN]. intros y Hy. apply Hs, HT, Hy.
  - eapply chain_agree; [|exact HP]. intros y Hy. apply Hs, HT. revert Hy. unfold footprint.
    rewrite !elem_of_cons, elem_of_reverse. done.
  - destruct (Hs h) as (_ & _ & ->); [apply HT; unfold footprint; set_solver|done].
Qed.

Lemma updated_next T s s' y : updated T s s' -> is_Some (dnext s !! y) -> is_Some (dnext s' !! y).
Proof. intros (_ & E & _). rewrite <-!elem_of_dom, E. done. Qed.
Lemma updated_prev T s s' y : updated T s s' -> is_Some (dprev s !! y) -> is_Some (dprev s' !! y).
Proof. intros (_ & _ & E & _). rewrite <-!elem_of_dom, E. done. Qed.
Lemma updated_nelts T s s' y : updated T s s' -> is_Some (dnelts s !! y) -> is_Some (dnelts s' !! y).
Proof. intros (_ & _ & _ & E). rewrite <-!elem_of_dom, E. done. Qed.

(** ** Rebuilding the representation after an operation *)

(** One list changes; its nodes come from it and from the free nodes, and the
    nodes that become free come from it. *)
Lemma Rep_set s a s' h xs xs' F :
  Rep s a -> dlists a !! h = Some xs -> ring s' h xs' -> NoDup (footprint h xs') ->
  (forall y, y ∈ xs' -> y ∈ xs \/ y ∈ dfree a) ->
  (forall y, y ∈ F -> (y ∈ dfree a \/ y ∈ xs) /\ y ∉ xs') ->
  updated (footprint h (xs ++ xs')) s s' ->
  Rep s' (DSpec (<[h := xs']> (dlists a)) F (dheads a)).
Proof.
  intros HR Hh Hring Hnd Hxs' HF Hup. destruct (rep_ring _ _ HR h xs Hh) as [Hrh Hndh].
  assert (forall k ks, dlists a !! k = Some ks -> k <> h ->
    forall y, y ∈ footprint k ks -> y ∉ footprint h (xs ++ xs')) as Hoth.
  { intros k ks Hk Hne y Hy Hin. unfold footprint in Hin. rewrite elem_of_cons, elem_of_app in Hin.
    assert (y ∈ footprint h xs \/ y ∈ dfree a) as [Hy'|Hy'] by (unfold footprint; set_solver).
    - by eapply (rep_disj _ _ HR k h).
    - eapply (rep_free _ _ HR y); [set_solver|exact Hk|done]. }
  split; simpl.
  - intros k ks. destruct (decide (k = h)) as [->|Hne].
    + rewrite lookup_insert_eq. by intros [= <-].
    + rewrite lookup_insert_ne by done. intros Hk. destruct (rep_ring _ _ HR k ks Hk) as [Hrk Hndk].
      split; [|done]. eapply ring_same; eauto.
  - intros k k' ks ks' Hk Hk' Hne y Hy Hy'.
    destruct (decide (k = h)) as [->|Hk1]; [|rewrite lookup_insert_ne in Hk by done];
    (destruct (decide (k' = h)) as [->|Hk2]; [|rewrite lookup_insert_ne in Hk' by done]).
    + done.
    + rewrite lookup_insert_eq in Hk. injection Hk as <-. apply (Hoth _ _ Hk' Hk2 y Hy').
      unfold footprint in *. set_solver.
    + rewrite lookup_insert_eq in Hk'. injection Hk' as <-. apply (Hoth _ _ Hk Hk1 y Hy).
      unfold footprint in *. set_solver.
    + by eapply (rep_disj _ _ HR k k').
  - intros y Hy.
    assert (is_Some (dnext s !! y) /\ is_Some (dprev s !! y) /\ y ∉ footprint h xs' /\
      (forall k ks, dlists a !! k = Some ks -> k <> h -> y ∉ footprint k ks)) as (H1 & H2 & H3 & H4).
    { destruct (decide (y ∈ xs)) as [Hyx|Hyx].
      - split_and!.
        + eapply chain_dom; [apply Hrh|set_solver].
        + eapply chain_dom; [apply Hrh|set_solver].
        + assert (y ∉ dheads a) by (intros Hd; eapply (rep_free _ _ HR y); [set_solver|exact Hh|unfold footprint; set_solver]).
          unfold footprint in *. rewrite NoDup_cons in Hndh. set_solver.
        + intros k ks Hk Hne. apply (rep_disj _ _ HR h k xs ks Hh Hk (not_eq_sym Hne)).
          unfold footprint; set_solver.
      - assert (y ∈ dfree a ∪ dheads a) as Hy' by set_solver.
        destruct (rep_free _ _ HR y Hy') as (H1 & H2 & H3). split_and!; [done|done| |].
        + specialize (H3 h xs Hh). unfold footprint in *. intros [->|Hin]%elem_of_cons; [set_solver|].
          apply elem_of_union in Hy as [Hy|Hy]; [by apply HF in Hy as [_ ?]|].
          apply Hxs' in Hin as [?|?]; [done|]. by destruct (rep_heads _ _ HR y Hy).
        + intros k ks Hk _. by apply (H3 k). }
    split_and!; [by eapply updated_next|by eapply updated_prev|].
    intros k ks. destruct (decide (k = h)) as [->|Hne].
    + rewrite lookup_insert_eq. by intros [= <-].
    + rewrite lookup_insert_ne by done. eauto.
  - intros y Hy. destruct (rep_heads _ _ HR y Hy) as [H1 H2]. split; [by eapply updated_nelts|].
    intros [[?|Hin] _]%HF; [done|]. destruct (rep_free _ _ HR y) as (_ & _ & H3); [set_solver|].
    apply (H3 h xs Hh). unfold footprint; set_solver.
Qed.

(** Two lists exchange their nodes. *)
Lemma Rep_swap s a s' h k xs ys :
  Rep s a -> dlists a !! h = Some xs -> dlists a !! k = Some ys -> h <> k ->
  ring s' h ys -> ring s' k xs -> updated (h :: k :: xs ++ ys) s s' ->
  Rep s' (DSpec (<[h := ys]> (<[k := xs]> (dlists a))) (dfree a) (dheads a)).
Proof.
  intros HR Hh Hk Hne Hrh Hrk Hup.
  destruct (rep_ring _ _ HR h xs Hh) as [Hrh0 Hndh]. destruct (rep_ring _ _ HR k ys Hk) as [Hrk0 Hndk].
  pose proof (rep_disj _ _ HR h k xs ys Hh Hk Hne) as Hd. unfold footprint in *.
  assert (forall g gs, <[h := ys]> (<[k := xs]> (dlists a)) !! g = Some gs ->
    (g = h /\ gs = ys) \/ (g = k /\ gs = xs) \/ (g <> h /\ g <> k /\ dlists a !! g = Some gs)) as Hold.
  { intros g gs. destruct (decide (g = h)) as [->|]; [rewrite lookup_insert_eq; naive_solver|].
    rewrite lookup_insert_ne by done.
    destruct (decide (g = k)) as [->|]; [rewrite lookup_insert_eq; naive_solver|].
    rewrite lookup_insert_ne by done. naive_solver. }
  assert (forall g gs, dlists a !! g = Some gs -> g <> h -> g <> k ->
    forall y, y ∈ g :: gs -> y ∉ h :: k :: xs ++ ys) as Hoth.
  { intros g gs Hg Hgh Hgk y Hy Hin.
    pose proof (rep_disj _ _ HR g h gs xs Hg Hh Hgh y Hy). pose proof (rep_disj _ _ HR g k gs ys Hg Hk Hgk y Hy).
    unfold footprint in *. set_solver. }
  split; simpl.
  - intros g gs [[-> ->]|[[-> ->]|(Hgh & Hgk & Hg)]]%Hold.
    + split; [done|]. unfold footprint. rewrite NoDup_cons in *. set_solver.
    + split; [done|]. unfold footprint. rewrite NoDup_cons in *. set_solver.
    + destruct (rep_ring _ _ HR g gs Hg) as [Hrg Hndg]. split; [|done]. eapply ring_same; eauto.
  - rewrite NoDup_cons in Hndh, Hndk. unfold footprint.
    intros g g' gs gs' Hg%Hold Hg'%Hold Hgg y Hy Hy'.
    destruct Hg as [[-> ->]|[[-> ->]|(Hgh & Hgk & Hg)]]; destruct Hg' as [[-> ->]|[[-> ->]|(Hgh' & Hgk' & Hg')]].
    1,5: done.
    1,3: set_solver.
    1,2: eapply (Hoth g' gs'); [done..|set_solver].
    1,2: eapply (Hoth g gs); [done..|set_solver].
    by eapply (rep_disj _ _ HR g g').
  - intros y Hy. destruct (rep_free _ _ HR y Hy) as (H1 & H2 & H3).
    split_and!; [by eapply updated_next|by eapply updated_prev|].
    pose proof (H3 h xs Hh) as Hyh. pose proof (H3 k ys Hk) as Hyk. unfold footprint in *.
    intros g gs [[-> ->]|[[-> ->]|(_ & _ & Hg)]]%Hold; [set_solver|set_solver|by apply H3].
  - intros y Hy. destruct (rep_heads _ _ HR y Hy) as [H1 H2]. split; [by eapply updated_nelts|done].
Qed.

(** ** Symbolic execution of the pointer code *)

Lemma rd_next_eq s l v : dnext s !! l = Some v -> rd_next (Some l) s = Some (v, s).
Proof. unfold field. by intros ->. Qed.
Lemma rd_prev_eq s l v : dprev s !! l = Some v -> rd_prev (Some l) s = Some (v, s).
Proof. unfold field. by intros ->. Qed.
Lemma wr_next_eq s l v : is_Some (dnext s !! l) ->
  wr_next (Some l) v s = Some (tt, DSt (<[l := v]> (dnext s)) (dprev s) (dnelts s)).
Proof. unfold wr_next. by intros [? ->]. Qed.
Lemma wr_prev_eq s l v : is_Some (dprev s !! l) ->
  wr_prev (Some l) v s = Some (tt, DSt (dnext s) (<[l := v]> (dprev s)) (dnelts s)).
Proof. unfold wr_prev. by intros [? ->]. Qed.
Lemma rd_nelts_eq s l n : dnelts s !! l = Some n -> rd_nelts l s = Some (n, s).
Proof. unfold rd_nelts. by intros ->. Qed.
Lemma wr_nelts_eq s l n : is_Some (dnelts s !! l) ->
  wr_nelts l n s = Some (tt, DSt (dnext s) (dprev s) (<[l := n]> (dnelts s))).
Proof. unfold wr_nelts. by intros [? ->]. Qed.

Lemma is_Some_insert {A} (f : gmap loc A) k v y : is_Some (f !! y) -> is_Some (<[k := v]> f !! y).
Proof. rewrite lookup_insert_is_Some. intros; destruct (decide (k = y)); auto. Qed.
#[local] Hint Resolve is_Some_insert : core.

Ltac dlook := simpl; first [by rewrite ?lookup_insert_eq | by rewrite lookup_insert_ne by done
  | by repeat (rewrite lookup_insert_ne by done); rewrite ?lookup_insert_eq].
Ltac drn := erewrite M_bind_Some; [|apply rd_next_eq; dlook]; simpl.
Ltac drp := erewrite M_bind_Some; [|apply rd_prev_eq; dlook]; simpl.
Ltac dwn := erewrite M_bind_Some; [|apply wr_next_eq; simpl; by eauto]; simpl.
Ltac dwp := erewrite M_bind_Some; [|apply wr_prev_eq; simpl; by eauto]; simpl.
Ltac drl := erewrite M_bind_Some; [|apply rd_nelts_eq; dlook]; simpl.

Lemma dom_insert_same {A} (f : gmap loc A) k v : is_Some (f !! k) -> dom (<[k := v]> f) = dom f.
Proof. intros H. by rewrite dom_insert_lookup_L. Qed.

(** Discharges [updated] for a store built by writes within the given addresses. *)
Ltac solve_updated :=
  split_and!;
  [ let y := fresh "y" in let Hy := fresh "Hy" in
    intros y Hy; unfold footprint in *; split_and!; simpl;
    repeat (rewrite lookup_insert_ne; [|set_solver]); done
  | simpl; repeat rewrite dom_insert_same by eauto; done .. ].

(** What an operation on the list [h] can rely on. *)
Lemma Rep_list s a h xs :
  Rep s a -> dlists a !! h = Some xs ->
  chain (dnext s) h xs h /\ chain (dprev s) h (reverse xs) h
  /\ dnelts s !! h = Some (Z.of_nat (length xs)) /\ NoDup (h :: xs)
  /\ dnext s !! h = Some (Some (first xs h)) /\ dprev s !! h = Some (Some (first (reverse xs) h))
  /\ (forall y, y ∈ h :: xs -> is_Some (dnext s !! y) /\ is_Some (dprev s !! y)).
Proof.
  intros HR Hh. destruct (rep_ring _ _ HR _ _ Hh) as [(HN & HP & Hn) Hnd].
  split_and!; try done; [by eapply chain_first|by eapply chain_first|].
  intros y Hy. split; eapply chain_dom; try done. revert Hy. by rewrite !elem_of_cons, elem_of_reverse.
Qed.

Lemma Rep_free_node s a h xs x :
  Rep s a -> dlists a !! h = Some xs -> x ∈ dfree a ->
  is_Some (dnext s !! x) /\ is_Some (dprev s !! x) /\ x <> h /\ x ∉ xs.
Proof.
  intros HR Hh Hx. destruct (rep_free _ _ HR x) as (H1 & H2 & H3); [set_solver|].
  specialize (H3 _ _ Hh). unfold footprint in H3. set_solver.
Qed.

Lemma insert_head_ok s a h xs x :
  Rep s a -> dlists a !! h = Some xs -> x ∈ dfree a -> Z.of_nat (length xs) + 1 < 2 ^ 64 ->
  exists s', list_insert_head h x s = Some (tt, s')
    /\ Rep s' (DSpec (<[h := x :: xs]> (dlists a)) (dfree a ∖ {[x]}) (dheads a)).
Proof.
  intros HR Hh Hx Hb. destruct (Rep_list _ _ _ _ HR Hh) as (HN & HP & Hn & Hnd & Hfn & Hfp & Hdom).
  destruct (Rep_free_node _ _ _ _ _ HR Hh Hx) as (Hxn & Hxp & Hxh & Hxs).
  destruct (Hdom (first xs h) (first_elem _ _)) as [_ Hd1].
  destruct (Hdom h (list_elem_of_here _ _)) as [Hd2 Hd3].
  unfold list_insert_head. drn. dwn. dwp. drn. dwp. dwn. drl.
  rewrite wr_nelts_eq by by eexists. simpl. eexists; split; [done|].
  pose proof (chain_push (dnext s) (dprev s) h x xs) as [HN' HP']; [rewrite !NoDup_cons in *; set_solver|done|done|].
  eapply (Rep_set s a _ h xs (x :: xs)); try done.
  - split_and!; [exact HN'|exact HP'|]. simpl. rewrite lookup_insert_eq, uwrap_small by (unfold ubound; lia).
    f_equal. lia.
  - unfold footprint. rewrite !NoDup_cons in *. set_solver.
  - set_solver.
  - intros y Hy. destruct (Rep_free_node _ _ _ _ y HR Hh) as (_ & _ & _ & ?); set_solver.
  - pose proof (first_elem xs h). solve_updated.
Qed.

Lemma insert_tail_ok s a h xs x :
  Rep s a -> dlists a !! h = Some xs -> x ∈ dfree a -> Z.of_nat (length xs) + 1 < 2 ^ 64 ->
  exists s', list_insert_tail h x s = Some (tt, s')
    /\ Rep s' (DSpec (<[h := xs ++ [x]]> (dlists a)) (dfree a ∖ {[x]}) (dheads a)).
Proof.
  intros HR Hh Hx Hb. destruct (Rep_list _ _ _ _ HR Hh) as (HN & HP & Hn & Hnd & Hfn & Hfp & Hdom).
  destruct (Rep_free_node _ _ _ _ _ HR Hh Hx) as (Hxn & Hxp & Hxh & Hxs).
  destruct (Hdom _ (first_reverse_elem xs h)) as [Hd1 _].
  destruct (Hdom h (list_elem_of_here _ _)) as [Hd2 Hd3].
  unfold list_insert_tail. drp. dwp. dwn. drp. dwn. dwp. drl.
  rewrite wr_nelts_eq by by eexists. simpl. eexists; split; [done|].
  pose proof (chain_push (dprev s) (dnext s) h x (reverse xs)) as [HP' HN'];
    [rewrite reverse_Permutation, !NoDup_cons in *; set_solver|done|by rewrite reverse_involutive|].
  rewrite reverse_cons, reverse_involutive in HN'.
  eapply (Rep_set s a _ h xs (xs ++ [x])); try done.
  - split_and!; [exact HN'|rewrite reverse_snoc; exact HP'|]. simpl.
    rewrite lookup_insert_eq, uwrap_small, length_app by (unfold ubound; lia). simpl. f_equal. lia.
  - unfold footprint. rewrite <-Permutation_cons_append. rewrite !NoDup_cons in *. set_solver.
  - set_solver.
  - intros y Hy. destruct (Rep_free_node _ _ _ _ y HR Hh) as (_ & _ & _ & ?); set_solver.
  - pose proof (first_reverse_elem xs h). solve_updated.
Qed.

(** The store after a node has been taken out of a list. *)
Definition cut_store (s : dst) (h : loc) (pre : list loc) (x : loc) (post : list loc) : dst :=
  DSt (<[x := None]> (<[first (reverse pre) h := Some (first post h)]> (dnext s)))
      (<[x := None]> (<[first post h := Some (first (reverse pre) h)]> (dprev s)))
      (<[h := Z.of_nat (length (pre ++ post))]> (dnelts s)).

Lemma Rep_cut s a h pre x post :
  Rep s a -> dlists a !! h = Some (pre ++ x :: post) ->
  Rep (cut_store s h pre x post)
    (DSpec (<[h := pre ++ post]> (dlists a)) (dfree a ∪ {[x]}) (dheads a)).
Proof.
  intros HR Hh. destruct (Rep_list _ _ _ _ HR Hh) as (HN & HP & Hn & Hnd & _ & _ & Hdom).
  pose proof (first_elem post h) as Hf1. pose proof (first_reverse_elem pre h) as Hf2.
  assert (NoDup (h :: pre ++ post) /\ x ∉ h :: pre ++ post) as [Hnd' Hx].
  { rewrite <-Permutation_middle in Hnd. rewrite !NoDup_cons in *. set_solver. }
  eapply (Rep_set s a _ h (pre ++ x :: post) (pre ++ post)); try done.
  - split_and!; simpl.
    + by apply chain_cut.
    + rewrite reverse_app, reverse_cons, <-app_assoc in HP. simpl in HP. rewrite reverse_app.
      pose proof (chain_cut (dprev s) h (reverse post) x (reverse pre)) as Hc.
      rewrite reverse_involutive in Hc. apply Hc; [|done].
      rewrite !reverse_Permutation. rewrite <-Permutation_middle in *. by rewrite (Permutation_app_comm post pre).
    + by rewrite lookup_insert_eq.
  - set_solver.
  - intros y [Hy|Hy]%elem_of_union.
    + destruct (Rep_free_node _ _ _ _ y HR Hh Hy) as (_ & _ & _ & ?). set_solver.
    + set_solver.
  - destruct (Hdom x) as [Hd1 Hd2]; [set_solver|].
    destruct (Hdom (first post h)) as [Hd3 Hd4]; [set_solver|].
    destruct (Hdom (first (reverse pre) h)) as [Hd5 Hd6]; [set_solver|].
    unfold cut_store. assert (is_Some (dnelts s !! h)) by by eexists. solve_updated.
Qed.

Lemma remove_ok s a h pre x post :
  Rep s a -> dlists a !! h = Some (pre ++ x :: post) -> Z.of_nat (length (pre ++ x :: post)) < 2 ^ 64 ->
  list_remove h x s = Some (tt, cut_store s h pre x post).
Proof.
  intros HR Hh Hb. destruct (Rep_list _ _ _ _ HR Hh) as (HN & HP & Hn & Hnd & _ & _ & Hdom).
  apply chain_app in HN as [_ HN%chain_first].
  rewrite reverse_app, reverse_cons, <-app_assoc in HP. simpl in HP. apply chain_app in HP as [_ HP%chain_first].
  destruct (Hdom x) as [Hd1 Hd2]; [set_solver|].
  destruct (Hdom (first post h)) as [Hd3 Hd4]; [pose proof (first_elem post h); set_solver|].
  destruct (Hdom (first (reverse pre) h)) as [Hd5 Hd6]; [pose proof (first_reverse_elem pre h); set_solver|].
  assert (x <> first (reverse pre) h /\ x <> first post h) as [Hx1 Hx2].
  { rewrite <-Permutation_middle, !NoDup_cons in Hnd.
    pose proof (first_elem post h). pose proof (first_reverse_elem pre h). set_solver. }
  unfold list_remove. drp. drn. dwn. drn. drp. dwp. dwp. dwn. drl.
  rewrite wr_nelts_eq by by eexists. unfold cut_store. simpl.
  rewrite length_app in *. simpl in *. rewrite uwrap_small by (unfold ubound; lia).
  do 4 f_equal. f_equal. rewrite length_app. lia.
Qed.

Lemma dequeue_ok s a h x post :
  Rep s a -> dlists a !! h = Some (x :: post) -> Z.of_nat (length (x :: post)) < 2 ^ 64 ->
  queue_dequeue h s = Some (Some x, cut_store s h [] x post).
Proof.
  intros HR Hh Hb. destruct (Rep_list _ _ _ _ HR Hh) as (HN & HP & Hn & Hnd & Hfn & _ & Hdom).
  destruct HN as [_ HN%chain_first]. simpl in Hfn.
  destruct (Hdom x) as [Hd1 Hd2]; [set_solver|]. destruct (Hdom h) as [Hd5 Hd6]; [set_solver|].
  destruct (Hdom (first post h)) as [Hd3 Hd4]; [pose proof (first_elem post h); set_solver|].
  assert (x <> h) as Hxh by (rewrite !NoDup_cons in Hnd; set_solver).
  unfold queue_dequeue, queue_empty. rewrite M_bind_assoc. drl. erewrite M_bind_Some by reflexivity. simpl.
  drn. drn. dwp. drn. dwn. dwp. dwn. drl.
  erewrite M_bind_Some; [|apply wr_nelts_eq; simpl; by eexists]. unfold cut_store. simpl. simpl in Hb.
  rewrite uwrap_small by (unfold ubound; lia). replace (Z.of_nat (S (length post)) - 1) with (Z.of_nat (length post)) by lia.
  done.
Qed.

(** ** Exchanging two lists *)

Lemma ends_elem h xs : xs <> [] -> first xs h ∈ xs /\ first (reverse xs) h ∈ xs /\ reverse xs <> [].
Proof.
  destruct xs as [|y xs]; [done|]. intros _. split_and!; [set_solver| |by rewrite reverse_cons; destruct (reverse xs)].
  rewrite reverse_cons. destruct (reverse xs) eqn:E; simpl; [set_solver|].
  apply elem_of_cons; right. apply elem_of_reverse. rewrite E. set_solver.
Qed.

Lemma take_over_ok s h k ys :
  chain (dnext s) k ys k -> chain (dprev s) k (reverse ys) k -> ys <> [] ->
  NoDup (h :: k :: ys) -> is_Some (dnext s !! h) -> is_Some (dprev s !! h) ->
  exists N P, list_take_over h k s = Some (tt, DSt N P (dnelts s))
    /\ chain N h ys h /\ chain P h (reverse ys) h /\ chain N k [] k /\ chain P k [] k
    /\ updated (h :: k :: ys) s (DSt N P (dnelts s)).
Proof.
  intros HN HP Hne Hnd Hh1 Hh2.
  pose proof (chain_first _ _ _ _ HN) as Hk1. pose proof (chain_first _ _ _ _ HP) as Hk2.
  set (x := first ys k) in *. set (z := first (reverse ys) k) in *.
  destruct (ends_elem k ys Hne) as (Hx & Hz & Hne'). fold x in Hx. fold z in Hz.
  assert (forall y, y ∈ ys -> is_Some (dnext s !! y) /\ is_Some (dprev s !! y)) as Hdom.
  { intros y Hy. split; eapply chain_dom; try done; set_solver. }
  destruct (Hdom x Hx) as [Hx1 Hx2]. destruct (Hdom z Hz) as [Hz1 Hz2].
  rewrite !NoDup_cons in Hnd. destruct Hnd as (Hnh & Hnk & Hnd).
  assert (h <> k) by set_solver. assert (forall y, y ∈ ys -> y <> h /\ y <> k) as Hyk by (clear -Hnh Hnk; set_solver).
  destruct (Hyk x Hx), (Hyk z Hz).
  assert (is_Some (dnext s !! k)) as Hk1' by by eexists. assert (is_Some (dprev s !! k)) as Hk2' by by eexists.
  unfold list_take_over. drn. dwn. drp. dwp. drn. dwp. drp. dwn. dwn.
  rewrite wr_prev_eq by (simpl; by eauto). simpl.
  eexists _, _. split_and!; [done| | |by apply lookup_insert_eq|by apply lookup_insert_eq|solve_updated].
  - apply (chain_move (dnext s) _ h k ys); [done|by apply NoDup_cons; split; [set_solver|]|done| | |].
    + fold x. by repeat (rewrite lookup_insert_ne by done); rewrite lookup_insert_eq.
    + fold z. rewrite lookup_insert_ne by done. by rewrite lookup_insert_eq.
    + fold z. intros y Hy Hyz. by repeat (rewrite lookup_insert_ne by set_solver).
  - apply (chain_move (dprev s) _ h k (reverse ys)); [done| |done| | |].
    + rewrite reverse_Permutation. by apply NoDup_cons; split; [set_solver|].
    + fold z. by repeat (rewrite lookup_insert_ne by done); rewrite lookup_insert_eq.
    + rewrite reverse_involutive. fold x. rewrite lookup_insert_ne by done. by rewrite lookup_insert_eq.
    + rewrite reverse_involutive. fold x. intros y Hy Hyx.
      by repeat (rewrite lookup_insert_ne by set_solver).
Qed.

Lemma chain_dom_reverse f a xs b y : chain f a (reverse xs) b -> y ∈ a :: xs -> is_Some (f !! y).
Proof. intros H Hy. eapply chain_dom; [done|]. revert Hy. by rewrite !elem_of_cons, elem_of_reverse. Qed.

(** One field of the two rings, after both sentinels and both last nodes have
    been redirected. *)
Lemma chain_exchange f h k xs ys :
  chain f h xs h -> chain f k ys k -> xs <> [] -> ys <> [] -> NoDup ((h :: xs) ++ k :: ys) ->
  let g := <[first (reverse xs) h := Some k]> (<[first (reverse ys) k := Some h]>
            (<[k := Some (first xs h)]> (<[h := Some (first ys k)]> f))) in
  chain g h ys h /\ chain g k xs k.
Proof.
  intros HX HY Hx0 Hy0 Hnd g. destruct (ends_elem h xs Hx0) as (_ & Hxz & _). destruct (ends_elem k ys Hy0) as (_ & Hyz & _).
  rewrite NoDup_app, !NoDup_cons in Hnd. destruct Hnd as ((Hhx & Hndx) & Hd & Hky & Hndy).
  assert (h <> k /\ h ∉ ys /\ k ∉ xs) as (Hhk & Hhy & Hkx) by (clear -Hd; set_solver).
  assert (forall y, y ∈ xs -> y ∉ ys) as Hd' by (clear -Hd; set_solver).
  assert (forall y z, y ∈ xs -> z ∈ ys -> y <> z /\ y <> h /\ y <> k /\ z <> h /\ z <> k) as Hne
    by (intros y z Hy Hz; split_and!; intros ->; naive_solver).
  destruct (Hne _ _ Hxz Hyz) as (? & ? & ? & ? & ?). subst g. split.
  - apply (chain_move f _ h k ys); [done|by apply NoDup_cons|done| | |].
    + by repeat (rewrite lookup_insert_ne by done); rewrite lookup_insert_eq.
    + rewrite lookup_insert_ne by done. by rewrite lookup_insert_eq.
    + intros y Hy Hyl. destruct (Hne _ _ Hxz Hy) as (? & _ & _ & ? & ?).
      by repeat (rewrite lookup_insert_ne by done).
  - apply (chain_move f _ k h xs); [done|by apply NoDup_cons|done| | |].
    + by repeat (rewrite lookup_insert_ne by done); rewrite lookup_insert_eq.
    + by rewrite lookup_insert_eq.
    + intros y Hy Hyl. destruct (Hne _ _ Hy Hyz) as (? & ? & ? & _).
      by repeat (rewrite lookup_insert_ne by done).
Qed.

Lemma exchange_ok s h k xs ys :
  chain (dnext s) h xs h -> chain (dprev s) h (reverse xs) h -> xs <> [] ->
  chain (dnext s) k ys k -> chain (dprev s) k (reverse ys) k -> ys <> [] ->
  NoDup ((h :: xs) ++ k :: ys) ->
  exists N P, list_exchange h k s = Some (tt, DSt N P (dnelts s))
    /\ chain N h ys h /\ chain P h (reverse ys) h /\ chain N k xs k /\ chain P k (reverse xs) k
    /\ updated (h :: k :: xs ++ ys) s (DSt N P (dnelts s)).
Proof.
  intros HNx HPx Hx0 HNy HPy Hy0 Hnd.
  pose proof (chain_first _ _ _ _ HNx) as Hh1. pose proof (chain_first _ _ _ _ HPx) as Hh2.
  pose proof (chain_first _ _ _ _ HNy) as Hk1. pose proof (chain_first _ _ _ _ HPy) as Hk2.
  destruct (ends_elem h xs Hx0) as (Hxa & Hxz & Hx0'). destruct (ends_elem k ys Hy0) as (Hya & Hyz & Hy0').
  assert (forall y, y ∈ (h :: xs) ++ k :: ys -> is_Some (dnext s !! y) /\ is_Some (dprev s !! y)) as Hdom.
  { intros y [Hy|Hy]%elem_of_app; eauto using chain_dom, chain_dom_reverse. }
  destruct (chain_exchange _ _ _ _ _ HNx HNy Hx0 Hy0 Hnd) as [HN1 HN2].
  destruct (chain_exchange _ _ _ _ _ HPx HPy Hx0' Hy0') as [HP1 HP2]; [by rewrite !reverse_Permutation|].
  rewrite !reverse_involutive in HP1, HP2.
  rewrite NoDup_app, !NoDup_cons in Hnd. destruct Hnd as ((Hhx & Hndx) & Hd & Hky & Hndy).
  assert (h <> k) as Hhk by (clear -Hd; set_solver).
  assert (forall y, y ∈ xs ++ ys -> y <> h /\ y <> k) as Hns by (clear -Hhx Hd Hky; set_solver).
  set (xa := first xs h) in *. set (xz := first (reverse xs) h) in *.
  set (ya := first ys k) in *. set (yz := first (reverse ys) k) in *.
  destruct (Hns xa), (Hns xz), (Hns ya), (Hns yz); [clear -Hxa Hxz Hya Hyz; set_solver..|].
  destruct (Hdom h), (Hdom k), (Hdom xa), (Hdom xz), (Hdom ya), (Hdom yz); [clear -Hxa Hxz Hya Hyz; set_solver..|].
  unfold list_exchange. drn. drp. drn. dwn. drp. dwp. dwn. dwp. drn. dwp. drp. dwn. drn. dwp. drp.
  rewrite wr_next_eq by (simpl; by eauto). simpl.
  eexists _, _. split_and!; [done..|]. solve_updated.
Qed.

Lemma length_zero (xs : list loc) : (Z.of_nat (length xs) =? 0) = bool_decide (xs = []).
Proof. by destruct xs. Qed.

(** The second half of [list_swap]: the counts. *)
Lemma swap_counts s h k n m :
  dnelts s !! h = Some n -> dnelts s !! k = Some m -> h <> k ->
  (tmp ← rd_nelts h; c ← rd_nelts k; wr_nelts h c;; wr_nelts k tmp) s
  = Some (tt, DSt (dnext s) (dprev s) (<[k := n]> (<[h := m]> (dnelts s)))).
Proof.
  intros Hn Hm Hne. drl. drl. erewrite M_bind_Some by (apply wr_nelts_eq; by eexists). simpl.
  rewrite wr_nelts_eq; [done|]. simpl. rewrite lookup_insert_ne by done. by eexists.
Qed.

Lemma updated_mono T T' s s' : (forall y, y ∈ T -> y ∈ T') -> updated T s s' -> updated T' s s'.
Proof. intros HT [H ?]. split; [|done]. intros y Hy. apply H. eauto. Qed.

Lemma swap_finish s a h k xs ys (m : M dst unit) N P :
  Rep s a -> dlists a !! h = Some xs -> dlists a !! k = Some ys -> h <> k ->
  m s = Some (tt, DSt N P (dnelts s)) ->
  chain N h ys h -> chain P h (reverse ys) h -> chain N k xs k -> chain P k (reverse xs) k ->
  updated (h :: k :: xs ++ ys) s (DSt N P (dnelts s)) ->
  exists s', (m;; tmp ← rd_nelts h; c ← rd_nelts k; wr_nelts h c;; wr_nelts k tmp) s = Some (tt, s')
    /\ Rep s' (DSpec (<[h := ys]> (<[k := xs]> (dlists a))) (dfree a) (dheads a)).
Proof.
  intros HR Hh Hk Hne Hm HNy HPy HNx HPx Hup.
  destruct (Rep_list _ _ _ _ HR Hh) as (_ & _ & Hnx & _). destruct (Rep_list _ _ _ _ HR Hk) as (_ & _ & Hny & _).
  erewrite M_bind_Some by exact Hm. erewrite swap_counts by done. eexists; split; [done|].
  eapply (Rep_swap s a _ h k xs ys); try done.
  - split_and!; simpl; [done|done|]. rewrite lookup_insert_ne by done. by rewrite lookup_insert_eq.
  - split_and!; simpl; [done|done|]. by rewrite lookup_insert_eq.
  - destruct Hup as (Hs & Hd1 & Hd2 & Hd3). split_and!; simpl in *; [|done|done|].
    + intros y Hy. destruct (Hs y Hy) as (? & ? & _). split_and!; [done|done|]. simpl.
      by rewrite !lookup_insert_ne by set_solver.
    + by rewrite !dom_insert_same by eauto.
Qed.

Lemma swap_ok s a h k xs ys :
  Rep s a -> dlists a !! h = Some xs -> dlists a !! k = Some ys ->
  exists s', list_swap h k s = Some (tt, s')
    /\ Rep s' (DSpec (<[h := ys]> (<[k := xs]> (dlists a))) (dfree a) (dheads a)).
Proof.
  intros HR Hh Hk. unfold list_swap. destruct (decide (h = k)) as [->|Hne].
  { rewrite bool_decide_true by done. assert (xs = ys) as -> by congruence.
    exists s. split; [done|]. rewrite !insert_id by (rewrite ?insert_id; done). by destruct a. }
  rewrite bool_decide_false by done.
  destruct (Rep_list _ _ _ _ HR Hh) as (HNx & HPx & Hnx & Hndx & Hfx & Hpx & Hdx).
  destruct (Rep_list _ _ _ _ HR Hk) as (HNy & HPy & Hny & Hndy & Hfy & Hpy & Hdy).
  pose proof (rep_disj _ _ HR h k xs ys Hh Hk Hne) as Hd. unfold footprint in Hd.
  drl. drl. rewrite !length_zero.
  destruct (decide (xs = [])) as [->|Hx0], (decide (ys = [])) as [->|Hy0];
    rewrite ?bool_decide_true, ?bool_decide_false by done; simpl.
  - exists s. split; [done|]. rewrite !insert_id by (rewrite ?insert_id; done). by destruct a.
  - destruct (take_over_ok s h k ys) as (N & P & E & H1 & H2 & H3 & H4 & Hup);
      [done..|apply NoDup_cons; split; [set_solver|done]|apply Hdx; set_solver|apply Hdx; set_solver|].
    by eapply (swap_finish s a h k [] ys).
  - destruct (take_over_ok s k h xs) as (N & P & E & H1 & H2 & H3 & H4 & Hup);
      [done..|apply NoDup_cons; split; [set_solver|done]|apply Hdy; set_solver|apply Hdy; set_solver|].
    eapply (swap_finish s a h k xs []); try done. eapply updated_mono; [|done]. set_solver.
  - destruct (exchange_ok s h k xs ys) as (N & P & E & H1 & H2 & H3 & H4 & Hup);
      [done..|by apply NoDup_app|].
    by eapply (swap_finish s a h k xs ys).
Qed.

Lemma init_ok s a h :
  Rep s a -> h ∈ dheads a ->
  exists s', list_init h s = Some (tt, s')
    /\ Rep s' (DSpec (<[h := []]> (dlists a)) (dfree a) (dheads a ∖ {[h]})).
Proof.
  intros HR Hh. destruct (rep_free _ _ HR h) as (H1 & H2 & H3); [set_solver|].
  destruct (rep_heads _ _ HR h Hh) as [H4 H5].
  unfold list_init. dwp. dwn. rewrite wr_nelts_eq by done. simpl. eexists; split; [done|].
  set (s' := DSt _ _ _).
  assert (updated [h] s s') as Hup by (subst s'; solve_updated).
  assert (forall k ks, <[h := []]> (dlists a) !! k = Some ks ->
    (k = h /\ ks = []) \/ (k <> h /\ dlists a !! k = Some ks)) as Hold.
  { intros k ks. destruct (decide (k = h)) as [->|]; [rewrite lookup_insert_eq|rewrite lookup_insert_ne by done]; naive_solver. }
  split; simpl; unfold footprint.
  - intros k ks [[-> ->]|[Hne Hk]]%Hold.
    + split; [|by apply NoDup_singleton]. split_and!; simpl; by rewrite lookup_insert_eq.
    + destruct (rep_ring _ _ HR k ks Hk) as [Hrk Hndk]. split; [|done]. eapply ring_same; [done| |done].
      specialize (H3 k ks Hk). unfold footprint in *. set_solver.
  - intros k k' ks ks' Hk%Hold Hk'%Hold Hkk y.
    destruct Hk as [[-> ->]|[Hne Hk]], Hk' as [[-> ->]|[Hne' Hk']]; [done| | |by apply (rep_disj _ _ HR k k')].
    + specialize (H3 k' ks' Hk'). unfold footprint in *. set_solver.
    + specialize (H3 k ks Hk). unfold footprint in *. set_solver.
  - intros y Hy. destruct (rep_free _ _ HR y) as (H6 & H7 & H8); [set_solver|].
    split_and!; [by apply (updated_next _ _ _ _ Hup)|by apply (updated_prev _ _ _ _ Hup)|].
    intros k ks [[-> ->]|[Hne Hk]]%Hold; [set_solver|by apply H8].
  - intros y Hy. destruct (rep_heads _ _ HR y) as [H6 H7]; [set_solver|].
    split; [by apply (updated_nelts _ _ _ _ Hup)|done].
Qed.

(** ** The abstract machine and the refinement theorem *)

Inductive dop :=
  | OInit (h : loc) | OEmpty (h : loc) | OLen (h : loc)
  | OInsertHead (h x : loc) | OInsertTail (h x : loc) | ORemove (h x : loc)
  | OHead (h : loc) | OTail (h : loc) | ONext (h x : loc) | OPrev (h x : loc) | OSwap (h k : loc)
  | OQInit (h : loc) | OQEmpty (h : loc) | OQLen (h : loc)
  | OEnqueue (h x : loc) | ODequeue (h : loc) | OFront (h : loc) | OBack (h : loc) | OQSwap (h k : loc).

Inductive dres := RUnit | RPtr (p : ptr) | RNum (n : Z) | RBool (b : bool).

Definition exec (o : dop) : M dst dres :=
  let u m := (_ ← (m : M dst unit); mret RUnit) in
  let p m := (r ← (m : M dst ptr); mret (RPtr r)) in
  let n m := (r ← (m : M dst Z); mret (RNum r)) in
  let b m := (r ← (m : M dst bool); mret (RBool r)) in
  match o with
  | OInit h => u (list_init h)
  | OEmpty h => b (list_empty h)
  | OLen h => n (list_len h)
  | OInsertHead h x => u (list_insert_head h x)
  | OInsertTail h x => u (list_insert_tail h x)
  | ORemove h x => u (list_remove h x)
  | OHead h => p (list_head h)
  | OTail h => p (list_tail h)
  | ONext h x => p (list_next x)
  | OPrev h x => p (list_prev x)
  | OSwap h k => u (list_swap h k)
  | OQInit h => u (queue_init h)
  | OQEmpty h => b (queue_empty h)
  | OQLen h => n (queue_len h)
  | OEnqueue h x => u (queue_enqueue h x)
  | ODequeue h => p (queue_dequeue h)
  | OFront h => p (queue_front h)
  | OBack h => p (queue_back h)
  | OQSwap h k => u (queue_swap h k)
  end.

(** The nodes of list [h]; its count is a [size_t] with room for one more. *)
Definition nodes (a : dspec) (h : loc) : option (list loc) :=
  match dlists a !! h with
  | Some xs => if Z.of_nat (length xs) + 1 <? 2 ^ 64 then Some xs else None
  | None => None
  end.

(** What follows [x] in [xs]: the next node, or the sentinel [h]. *)
Fixpoint after (h x : loc) (xs : list loc) : option loc :=
  match xs with
  | [] => None
  | y :: ys => if decide (y = x) then Some (first ys h) else after h x ys
  end.

Definition spec_init (a : dspec) (h : loc) : option (dres * dspec) :=
  if decide (h ∈ dheads a) then Some (RUnit, DSpec (<[h := []]> (dlists a)) (dfree a) (dheads a ∖ {[h]}))
  else None.
Definition spec_add (a : dspec) (h x : loc) (f : list loc -> list loc) : option (dres * dspec) :=
  xs ← nodes a h;
  if decide (x ∈ dfree a) then Some (RUnit, DSpec (<[h := f xs]> (dlists a)) (dfree a ∖ {[x]}) (dheads a))
  else None.
Definition spec_remove (a : dspec) (h x : loc) (r : dres) : option (dres * dspec) :=
  xs ← nodes a h;
  if decide (x ∈ xs) then
    Some (r, DSpec (<[h := filter (fun y => y <> x) xs]> (dlists a)) (dfree a ∪ {[x]}) (dheads a))
  else None.
Definition spec_swap (a : dspec) (h k : loc) : option (dres * dspec) :=
  xs ← nodes a h; ys ← nodes a k;
  Some (RUnit, DSpec (<[h := ys]> (<[k := xs]> (dlists a))) (dfree a) (dheads a)).
Definition spec_read (a : dspec) (h : loc) (f : list loc -> dres) : option (dres * dspec) :=
  xs ← nodes a h; Some (f xs, a).

Definition astep (a : dspec) (o : dop) : option (dres * dspec) :=
  match o with
  | OInit h | OQInit h => spec_init a h
  | OEmpty h | OQEmpty h => spec_read a h (fun xs => RBool (bool_decide (xs = [])))
  | OLen h | OQLen h => spec_read a h (fun xs => RNum (Z.of_nat (length xs)))
  | OInsertHead h x => spec_add a h x (fun xs => x :: xs)
  | OInsertTail h x | OEnqueue h x => spec_add a h x (fun xs => xs ++ [x])
  | ORemove h x => spec_remove a h x RUnit
  | OHead h | OFront h => spec_read a h (fun xs => RPtr (head xs))
  | OTail h | OBack h => spec_read a h (fun xs => RPtr (last xs))
  | ONext h x => xs ← nodes a h; y ← after h x xs; Some (RPtr (Some y), a)
  | OPrev h x => xs ← nodes a h; y ← after h x (reverse xs); Some (RPtr (Some y), a)
  | OSwap h k | OQSwap h k => spec_swap a h k
  | ODequeue h =>
      xs ← nodes a h;
      match xs with [] => Some (RPtr None, a) | x :: _ => spec_remove a h x (RPtr (Some x)) end
  end.

Lemma nodes_Some a h xs : nodes a h = Some xs -> dlists a !! h = Some xs /\ Z.of_nat (length xs) + 1 < 2 ^ 64.
Proof.
  unfold nodes. destruct (dlists a !! h) as [ys|]; [|done].
  destruct (Z.ltb_spec (Z.of_nat (length ys) + 1) (2 ^ 64)); naive_solver.
Qed.

Lemma list_empty_ok s a h xs :
  Rep s a -> dlists a !! h = Some xs -> list_empty h s = Some (bool_decide (xs = []), s).
Proof.
  intros HR Hh. destruct (Rep_list _ _ _ _ HR Hh) as (_ & _ & Hn & _).
  unfold list_empty. drl. rewrite length_zero. done.
Qed.

Lemma list_ends_ok s a h xs :
  Rep s a -> dlists a !! h = Some xs ->
  list_head h s = Some (head xs, s) /\ list_tail h s = Some (last xs, s).
Proof.
  intros HR Hh. pose proof (list_empty_ok _ _ _ _ HR Hh) as He.
  destruct (Rep_list _ _ _ _ HR Hh) as (_ & _ & _ & _ & Hfn & Hfp & _).
  unfold list_head, list_tail. split; erewrite M_bind_Some by exact He; destruct xs as [|x xs]; try done.
  - rewrite bool_decide_false by done. by apply rd_next_eq.
  - rewrite bool_decide_false by done. erewrite rd_prev_eq by done. f_equal. f_equal.
    rewrite <-(last_first_reverse h (x :: xs)). done.
Qed.

Lemma after_split h x xs y : after h x xs = Some y -> exists pre post, xs = pre ++ x :: post /\ y = first post h.
Proof.
  induction xs as [|z xs IH]; simpl; [done|]. destruct (decide (z = x)) as [->|].
  - intros [= <-]. by exists [], xs.
  - intros (pre & post & -> & ->)%IH. by exists (z :: pre), post.
Qed.

Lemma remove_step s a h x xs :
  Rep s a -> dlists a !! h = Some xs -> Z.of_nat (length xs) + 1 < 2 ^ 64 -> x ∈ xs ->
  exists s', list_remove h x s = Some (tt, s')
    /\ Rep s' (DSpec (<[h := filter (fun y => y <> x) xs]> (dlists a)) (dfree a ∪ {[x]}) (dheads a)).
Proof.
  intros HR Hh Hb (pre & post & ->)%list_elem_of_split.
  destruct (Rep_list _ _ _ _ HR Hh) as (_ & _ & _ & Hnd & _). apply NoDup_cons in Hnd as [_ Hnd].
  eexists; split; [by apply (remove_ok s a h pre x post); [done..|lia]|]. rewrite filter_remove by done. by apply Rep_cut.
Qed.
Lemma dequeue_step s a h x xs :
  Rep s a -> dlists a !! h = Some (x :: xs) -> Z.of_nat (length (x :: xs)) + 1 < 2 ^ 64 ->
  exists s', queue_dequeue h s = Some (Some x, s')
    /\ Rep s' (DSpec (<[h := filter (fun y => y <> x) (x :: xs)]> (dlists a)) (dfree a ∪ {[x]}) (dheads a)).
Proof.
  intros HR Hh Hb. destruct (Rep_list _ _ _ _ HR Hh) as (_ & _ & _ & Hnd & _). apply NoDup_cons in Hnd as [_ Hnd].
  eexists; split; [by apply (dequeue_ok s a h x xs); [done..|lia]|].
  rewrite (filter_remove x [] xs) by done. by apply (Rep_cut s a h [] x xs).
Qed.

(** [m] returns [v] and leaves a store that represents [a']. *)
Definition delivers {A} (s : dst) (m : M dst A) (v : A) (a' : dspec) : Prop :=
  exists s', m s = Some (v, s') /\ Rep s' a'.

Lemma delivers_ret {A} s (m : M dst A) (f : A -> dres) v a' :
  delivers s m v a' -> delivers s (r ← m; mret (f r)) (f v) a'.
Proof. intros (s' & E & H). exists s'. by erewrite M_bind_Some by exact E. Qed.

Section steps.
Context (s : dst) (a : dspec) (HR : Rep s a).

Lemma step_read h (f : list loc -> dres) r a' (m : M dst dres) :
  (forall xs, dlists a !! h = Some xs -> delivers s m (f xs) a) ->
  spec_read a h f = Some (r, a') -> delivers s m r a'.
Proof.
  intros Hm. unfold spec_read. destruct (nodes a h) as [xs|] eqn:E; [|done].
  intros [= <- <-]. apply nodes_Some in E as [E _]. by apply Hm.
Qed.

Lemma step_add h x f r a' (m : M dst unit) :
  (forall xs, dlists a !! h = Some xs -> x ∈ dfree a -> Z.of_nat (length xs) + 1 < 2 ^ 64 ->
    delivers s m tt (DSpec (<[h := f xs]> (dlists a)) (dfree a ∖ {[x]}) (dheads a))) ->
  spec_add a h x f = Some (r, a') -> delivers s (_ ← m; mret RUnit) r a'.
Proof.
  intros Hm. unfold spec_add. destruct (nodes a h) as [xs|] eqn:E; [|done]. simpl.
  case_decide; [|done]. intros [= <- <-]. apply nodes_Some in E as [E Hb].
  apply (delivers_ret s m (fun _ => RUnit) tt). by apply Hm.
Qed.

Lemma step_init h r a' :
  spec_init a h = Some (r, a') -> delivers s (_ ← list_init h; mret RUnit) r a'.
Proof.
  unfold spec_init. case_decide; [|done]. intros [= <- <-].
  apply (delivers_ret s _ (fun _ => RUnit) tt). by apply init_ok.
Qed.

Lemma step_swap h k r a' :
  spec_swap a h k = Some (r, a') -> delivers s (_ ← list_swap h k; mret RUnit) r a'.
Proof.
  unfold spec_swap. destruct (nodes a h) as [xs|] eqn:E1; [|done]. simpl.
  destruct (nodes a k) as [ys|] eqn:E2; [|done]. intros [= <- <-].
  apply nodes_Some in E1 as [E1 _], E2 as [E2 _].
  apply (delivers_ret s _ (fun _ => RUnit) tt). by apply swap_ok.
Qed.

Lemma step_remove h x r a' :
  spec_remove a h x RUnit = Some (r, a') -> delivers s (_ ← list_remove h x; mret RUnit) r a'.
Proof.
  unfold spec_remove. destruct (nodes a h) as [xs|] eqn:E; [|done]. simpl. case_decide; [|done].
  intros [= <- <-]. apply nodes_Some in E as [E Hb].
  apply (delivers_ret s _ (fun _ => RUnit) tt). by apply remove_step.
Qed.

Lemma step_dequeue h r a' :
  astep a (ODequeue h) = Some (r, a') -> delivers s (p ← queue_dequeue h; mret (RPtr p)) r a'.
Proof.
  simpl. destruct (nodes a h) as [xs|] eqn:E; [|done]. simpl. pose proof (nodes_Some _ _ _ E) as [Hh Hb].
  destruct xs as [|x xs].
  - intros [= <- <-]. apply (delivers_ret s _ RPtr). exists s. split; [|done].
    unfold queue_dequeue. erewrite M_bind_Some by (by eapply (list_empty_ok s a h [])). done.
  - unfold spec_remove. rewrite E. simpl. rewrite decide_True by set_solver. intros [= <- <-].
    apply (delivers_ret s _ RPtr). by eapply dequeue_step.
Qed.

(** The operations that only read one list. *)
Lemma step_reads h r a' :
  (spec_read a h (fun xs => RBool (bool_decide (xs = []))) = Some (r, a') ->
     delivers s (b ← list_empty h; mret (RBool b)) r a')
  /\ (spec_read a h (fun xs => RNum (Z.of_nat (length xs))) = Some (r, a') ->
     delivers s (n ← list_len h; mret (RNum n)) r a')
  /\ (spec_read a h (fun xs => RPtr (head xs)) = Some (r, a') ->
     delivers s (p ← list_head h; mret (RPtr p)) r a')
  /\ (spec_read a h (fun xs => RPtr (last xs)) = Some (r, a') ->
     delivers s (p ← list_tail h; mret (RPtr p)) r a').
Proof.
  split_and!; apply step_read; intros xs Hh;
    destruct (Rep_list _ _ _ _ HR Hh) as (_ & _ & Hn & _); pose proof (list_ends_ok _ _ _ _ HR Hh) as [? ?].
  - apply (delivers_ret s _ RBool). exists s. by erewrite list_empty_ok.
  - apply (delivers_ret s _ RNum). exists s. by split; [apply rd_nelts_eq|].
  - apply (delivers_ret s _ RPtr). by exists s.
  - apply (delivers_ret s _ RPtr). by exists s.
Qed.

Lemma step_next h x r a' :
  (astep a (ONext h x) = Some (r, a') -> delivers s (p ← list_next x; mret (RPtr p)) r a')
  /\ (astep a (OPrev h x) = Some (r, a') -> delivers s (p ← list_prev x; mret (RPtr p)) r a').
Proof.
  simpl. destruct (nodes a h) as [xs|] eqn:E; [|done]. simpl. apply nodes_Some in E as [E _].
  destruct (Rep_list _ _ _ _ HR E) as (HN & HP & _). split.
  - destruct (after h x xs) as [y|] eqn:Ea; [|done]. intros [= <- <-]. apply (delivers_ret s _ RPtr).
    apply after_split in Ea as (pre & post & -> & ->). apply chain_app in HN as [_ HN%chain_first].
    exists s. split; [|done]. by apply rd_next_eq.
  - destruct (after h x (reverse xs)) as [y|] eqn:Ea; [|done]. intros [= <- <-]. apply (delivers_ret s _ RPtr).
    apply after_split in Ea as (pre & post & Er & ->). rewrite Er in HP. apply chain_app in HP as [_ HP%chain_first].
    exists s. split; [|done]. by apply rd_prev_eq.
Qed.

(** Every operation simulates its abstract counterpart; the bodies of queue.c
    that repeat list.c are convertible to them. *)
Lemma exec_step o r a' : astep a o = Some (r, a') -> delivers s (exec o) r a'.
Proof.
  pose proof step_init. pose proof step_swap. pose proof step_remove. pose proof step_dequeue.
  destruct o; cbn [exec]; try (by eauto); try (by apply step_reads); try (by apply step_next).
  all: apply step_add; intros; by first [apply insert_head_ok | apply insert_tail_ok].
Qed.
End steps.

Fixpoint run (os : list dop) : M dst (list dres) :=
  match os with [] => mret [] | o :: os => r ← exec o; rs ← run os; mret (r :: rs) end.
Fixpoint arun (a : dspec) (os : list dop) : option (list dres * dspec) :=
  match os with
  | [] => Some ([], a)
  | o :: os => '(r, a) ← astep a o; '(rs, a) ← arun a os; Some (r :: rs, a)
  end.

(** C11 Any sequence of operations of list.c and queue.c, on any number of lists
    and queues, returns what the same operations on plain sequences return, never
    runs into undefined behaviour, and leaves memory representing the resulting
    sequences: insertion, removal and traversal at the right places, FIFO order
    of queues, and the exchange of two lists whether empty or not. *)
Theorem dlist_refines s a os rs a' :
  Rep s a -> arun a os = Some (rs, a') -> exists s', run os s = Some (rs, s') /\ Rep s' a'.
Proof.
  revert s a rs. induction os as [|o os IH]; simpl; intros s a rs HR; [naive_solver|].
  destruct (astep a o) as [[r a1]|] eqn:E1; [|done]. simpl.
  destruct (arun a1 os) as [[rs1 a2]|] eqn:E2; [|done]. intros [= <- <-].
  destruct (exec_step _ _ HR _ _ _ E1) as (s1 & Es & HR1).
  destruct (IH _ _ _ HR1 E2) as (s2 & Er & HR2).
  exists s2. split; [|done]. erewrite M_bind_Some by exact Es. by erewrite M_bind_Some by exact Er.
Qed.

(** Two list structures (1 and 2) and three nodes (3, 4, 5), nothing initialised. *)
Definition ex_dstore : dst :=
  let m := list_to_map ((fun l => (l, None)) <$> [1; 2; 3; 4; 5]%positive) in
  DSt m m (<[1%positive := 0]> (<[2%positive := 0]> ∅)).
Definition ex_dspec : dspec := DSpec ∅ {[3; 4; 5]}%positive {[1; 2]}%positive.

Lemma ex_Rep : Rep ex_dstore ex_dspec.
Proof.
  split; simpl; [done|done| |].
  - intros y Hy. split_and!; [| |done].
    all: apply elem_of_dom; vm_compute dom; set_solver.
  - intros y Hy. split; [|set_solver]. apply elem_of_dom. vm_compute dom. set_solver.
Qed.
Lemma dlist_refines_witness :
  exists s' a', run [OInit 1; OQInit 2; OInsertTail 1 3; OInsertHead 1 4; OSwap 1 2; OEnqueue 1 5;
                     ODequeue 2; OFront 2; OLen 1]%positive ex_dstore
    = Some ([RUnit; RUnit; RUnit; RUnit; RUnit; RUnit; RPtr (Some 4%positive);
             RPtr (Some 3%positive); RNum 1], s') /\ Rep s' a'.
Proof.
  edestruct (dlist_refines ex_dstore ex_dspec
    [OInit 1; OQInit 2; OInsertTail 1 3; OInsertHead 1 4; OSwap 1 2; OEnqueue 1 5;
                     ODequeue 2; OFront 2; OLen 1]%positive) as (s' & E & H); [apply ex_Rep|vm_compute; reflexivity|].
  eexists s', _. split; [exact E|exact H].
Defined.
