(* ===== verification/SList.v ===== *)
(** * Singly linked structures: the stack and the global run queue
      (src/container/lifo.c, src/runtime/runq.c)

    Both link caller-owned nodes through one [next] field.  The operations of
    runq.c that touch the queue hold its mutex from their first read to their last
    write of it, so each is one step of the model; the links of a batch are written
    before the lock is taken or after it is released, when no other thread can
    reach the nodes. *)

From S2P Require Import Prelude.

Notation links := (gmap loc ptr).

Definition ld {S} (N : S -> links) (p : ptr) : M S ptr := fun s =>
  match p with
  | Some l => match N s !! l with Some v => Some (v, s) | None => None end
  | None => None
  end.
#[global] Arguments ld : simpl never.

(** ** lifo.c *)

Record lifo_t := Lifo { lnext : links; top : ptr; lnelts : Z }.

Definition st_lnext (p v : ptr) : M lifo_t unit := fun s =>
  match p with
  | Some l => match lnext s !! l with
              | Some _ => Some (tt, Lifo (<[l := v]> (lnext s)) (top s) (lnelts s))
              | None => None
              end
  | None => None
  end.
#[global] Arguments st_lnext : simpl never.
Definition set_top (p : ptr) : M lifo_t unit := modify (fun s => Lifo (lnext s) p (lnelts s)).
Definition set_lnelts (n : Z) : M lifo_t unit := modify (fun s => Lifo (lnext s) (top s) n).

Definition lifo_init : M lifo_t unit := set_top None;; set_lnelts 0.
Definition lifo_empty : M lifo_t bool := n ← gets lnelts; mret (n =? 0).
Definition lifo_len : M lifo_t Z := gets lnelts.

Definition lifo_push (node : loc) : M lifo_t unit :=
  t ← gets top;
  st_lnext (Some node) t;;
  set_top (Some node);;
  n ← gets lnelts;
  set_lnelts (u64 (n + 1)).

Definition lifo_pop : M lifo_t ptr :=
  node ← gets top;
  match node with
  | None => mret None
  | Some _ =>
      x ← ld lnext node;
      set_top x;;
      st_lnext node None;;
      n ← gets lnelts;
      set_lnelts (u64 (n - 1));;
      mret node
  end.

Definition lifo_peek : M lifo_t ptr := gets top.

(** ** runq.c *)

Record runq_t := Runq { rnext : links; rhead : ptr; rtail : ptr; node_count : Z }.

Definition st_rnext (p v : ptr) : M runq_t unit := fun s =>
  match p with
  | Some l => match rnext s !! l with
              | Some _ => Some (tt, Runq (<[l := v]> (rnext s)) (rhead s) (rtail s) (node_count s))
              | None => None
              end
  | None => None
  end.
#[global] Arguments st_rnext : simpl never.
Definition set_rhead (p : ptr) : M runq_t unit := modify (fun s => Runq (rnext s) p (rtail s) (node_count s)).
Definition set_rtail (p : ptr) : M runq_t unit := modify (fun s => Runq (rnext s) (rhead s) p (node_count s)).
Definition set_node_count (n : Z) : M runq_t unit := modify (fun s => Runq (rnext s) (rhead s) (rtail s) n).

Definition _runq_append (batch_head batch_tail : ptr) (count : Z) : M runq_t unit :=
  t ← gets rtail;
  match t with
  | Some _ => st_rnext t batch_head
  | None => set_rhead batch_head
  end;;
  set_rtail batch_tail;;
  n ← gets node_count;
  set_node_count (u64 (n + count)).

(** [for (i = 1; i < count; i++) batch_tail = batch_tail->next;] *)
Fixpoint detach_walk (steps : nat) (batch_tail : ptr) : M runq_t ptr :=
  match steps with
  | O => mret batch_tail
  | S k => x ← ld rnext batch_tail; detach_walk k x
  end.

Definition _runq_detach (count : Z) : M runq_t ptr :=
  batch_head ← gets rhead;
  batch_tail ← detach_walk (Z.to_nat (count - 1)) batch_head;
  x ← ld rnext batch_tail;
  set_rhead x;;
  match x with None => set_rtail None | Some _ => mret tt end;;
  n ← gets node_count;
  set_node_count (u64 (n - count));;
  st_rnext batch_tail None;;
  mret batch_head.

(** A queue as [runq_create] leaves it (its memory is zeroed). *)
Definition runq_create (N : links) : runq_t := Runq N None None 0.

Definition runq_push (node : loc) : M runq_t unit :=
  st_rnext (Some node) None;;
  _runq_append (Some node) (Some node) 1.

(** [for (i = 1; i < count; i++) nodes[i - 1]->next = nodes[i];] *)
Fixpoint link_batch (nodes : list loc) (i steps : nat) : M runq_t unit :=
  match steps with
  | O => mret tt
  | S k =>
      match nodes !! (i - 1)%nat, nodes !! i with
      | Some a, Some b => st_rnext (Some a) (Some b);; link_batch nodes (S i) k
      | _, _ => ub
      end
  end.

Definition runq_push_batch (nodes : list loc) (count : Z) : M runq_t unit :=
  if count <=? 0 then mret tt
  else
    link_batch nodes 1 (Z.to_nat (count - 1));;
    match nodes !! 0%nat, nodes !! Z.to_nat (count - 1) with
    | Some batch_head, Some batch_tail =>
        st_rnext (Some batch_tail) None;;
        _runq_append (Some batch_head) (Some batch_tail) count
    | _, _ => ub
    end.

Definition runq_pop : M runq_t ptr :=
  h ← gets rhead;
  match h with
  | Some _ => _runq_detach 1
  | None => mret None
  end.

(** [for (i = 0; i < count; i++) { next = node->next; node->next = NULL; nodes[i] = node; node = next; }] *)
Fixpoint unlink_batch (steps : nat) (node : ptr) : M runq_t (list loc) :=
  match steps with
  | O => mret []
  | S k =>
      match node with
      | None => ub
      | Some l =>
          next_node ← ld rnext node;
          st_rnext node None;;
          rest ← unlink_batch k next_node;
          mret (l :: rest)
      end
  end.

(** Returns the nodes stored in the output buffer; the C result is their number. *)
Definition runq_pop_fair (nodes_cap consumer_count : Z) : M runq_t (list loc) :=
  if (nodes_cap <=? 0) || (consumer_count <=? 0) then mret []
  else
    queued_count ← gets node_count;
    let take_count := queued_count / consumer_count in
    let take_count := if take_count <? queued_count then take_count + 1 else take_count in
    let take_count := if nodes_cap <? take_count then nodes_cap else take_count in
    if take_count =? 0 then mret []
    else
      batch_head ← _runq_detach take_count;
      unlink_batch (Z.to_nat take_count) batch_head.
