(* ===== verification/SListCorrect.v ===== *)
(** * Singly linked structures: refinement

    The stack and the run queue are sequences of nodes; each operation returns
    what the sequence operation returns and leaves the links representing the
    resulting sequence. *)

From S2P Require Import Prelude SList.

(** ** Null-terminated segments *)

Fixpoint seg (N : links) (p : ptr) (xs : list loc) : Prop :=
  match xs with
  | [] => p = None
  | x :: xs => p = Some x /\ exists q, N !! x = Some q /\ seg N q xs
  end.

Lemma seg_agree N N' p xs : (forall y, y ∈ xs -> N' !! y = N !! y) -> seg N p xs -> seg N' p xs.
Proof.
  revert p; induction xs as [|x xs IH]; intros p Ha; simpl; [done|].
  intros (-> & q & Hx & H). split; [done|]. exists q. rewrite Ha by set_solver. split; [done|].
  apply IH; [set_solver|done].
Qed.
Lemma seg_frame N p xs y v : y ∉ xs -> seg N p xs -> seg (<[y := v]> N) p xs.
Proof. intros Hy. apply seg_agree. intros z Hz. apply lookup_insert_ne. set_solver. Qed.

Lemma seg_head N p xs : seg N p xs -> p = head xs.
Proof. destruct xs; simpl; [done|]. naive_solver. Qed.

(** Appending a segment by redirecting the last link. *)
Lemma seg_append N p xs x q ys :
  NoDup (xs ++ [x]) -> (forall y, y ∈ ys -> y ∉ xs ++ [x]) ->
  seg N p (xs ++ [x]) -> seg N q ys -> seg (<[x := q]> N) p (xs ++ x :: ys).
Proof.
  intros Hnd Hd Hp Hq. revert p Hp. induction xs as [|z xs IH]; intros p; simpl.
  - intros (-> & _). split; [done|]. exists q. rewrite lookup_insert_eq. split; [done|].
    apply seg_frame; [|done]. intros Hin. apply (Hd x Hin). set_solver.
  - intros (-> & r & Hz & H). split; [done|]. simpl in Hnd. rewrite NoDup_cons in Hnd.
    exists r. rewrite lookup_insert_ne by set_solver. split; [done|]. apply IH; set_solver.
Qed.

(** Cutting a segment after its [k]-th node. *)
Lemma seg_cut N p xs x ys :
  NoDup (xs ++ x :: ys) -> seg N p (xs ++ x :: ys) ->
  exists q, N !! x = Some q /\ seg (<[x := None]> N) p (xs ++ [x]) /\ seg (<[x := None]> N) q ys.
Proof.
  revert p; induction xs as [|z xs IH]; intros p; simpl; rewrite NoDup_cons; intros [Hz Hnd].
  - intros (-> & q & Hx & H). exists q. split; [done|]. split; [|by apply seg_frame].
    split; [done|]. exists None. by rewrite lookup_insert_eq.
  - intros (-> & r & Hzr & H). destruct (IH _ Hnd H) as (q & Hq & H1 & H2). exists q.
    split; [done|]. split; [|done]. split; [done|]. exists r. by rewrite lookup_insert_ne by set_solver.
Qed.

Lemma seg_dom N p xs y : seg N p xs -> y ∈ xs -> is_Some (N !! y).
Proof.
  revert p; induction xs as [|x xs IH]; intros p; simpl; [set_solver|].
  intros (_ & q & Hx & H) [->|Hy]%elem_of_cons; [by eexists|]. by eapply IH.
Qed.

(** [N'] differs from [N] only at addresses of [T], and has the same domain. *)
Definition relinked (T : list loc) (N N' : links) : Prop :=
  (forall y, y ∉ T -> N' !! y = N !! y) /\ (forall y, is_Some (N !! y) -> is_Some (N' !! y)).

Lemma relinked_refl T N : relinked T N N.
Proof. done. Qed.
Lemma relinked_insert T N N' x v :
  x ∈ T -> relinked T N N' -> is_Some (N !! x) -> relinked T N (<[x := v]> N').
Proof.
  intros Hx [H1 H2] Hs. split.
  - intros y Hy. rewrite lookup_insert_ne by set_solver. by apply H1.
  - intros y Hy. rewrite lookup_insert_is_Some. destruct (decide (x = y)); [by left|right]. eauto.
Qed.

Lemma ld_eq {S} (N : S -> links) s l v : N s !! l = Some v -> ld N (Some l) s = Some (v, s).
Proof. unfold ld. by intros ->. Qed.
Lemma st_lnext_eq s l v : is_Some (lnext s !! l) ->
  st_lnext (Some l) v s = Some (tt, Lifo (<[l := v]> (lnext s)) (top s) (lnelts s)).
Proof. unfold st_lnext. by intros [? ->]. Qed.
Lemma st_rnext_eq s l v : is_Some (rnext s !! l) ->
  st_rnext (Some l) v s = Some (tt, Runq (<[l := v]> (rnext s)) (rhead s) (rtail s) (node_count s)).
Proof. unfold st_rnext. by intros [? ->]. Qed.

(** ** The run queue *)

(** The queue holds [xs]; the nodes of [free] are allocated and on no queue. *)
Record RqRep (s : runq_t) (xs : list loc) (free : gset loc) : Prop := {
  rq_seg : seg (rnext s) (rhead s) xs;
  rq_tail : rtail s = last xs;
  rq_count : node_count s = Z.of_nat (length xs);
  rq_nodup : NoDup xs;
  rq_free y : y ∈ free -> is_Some (rnext s !! y) /\ y ∉ xs;
}.

(** A null-terminated batch of detached nodes is appended. *)
Lemma append_ok s xs free b ys y :
  RqRep s xs free -> seg (rnext s) b (ys ++ [y]) -> NoDup (ys ++ [y]) ->
  (forall z, z ∈ ys ++ [y] -> z ∈ free) -> Z.of_nat (length (xs ++ ys ++ [y])) < 2 ^ 64 ->
  exists s', _runq_append b (Some y) (Z.of_nat (length (ys ++ [y]))) s = Some (tt, s')
    /\ RqRep s' (xs ++ ys ++ [y]) (free ∖ list_to_set (ys ++ [y])).
Proof.
  intros HR Hb Hnd Hf Hlen. pose proof (rq_tail _ _ _ HR) as Ht. pose proof (rq_count _ _ _ HR) as Hc.
  assert (NoDup (xs ++ ys ++ [y])) as Hnd'.
  { apply NoDup_app. split_and!; [apply HR| |done]. intros z Hz Hz'. by apply (rq_free _ _ _ HR z (Hf z Hz')). }
  assert (forall z, z ∈ free ∖ list_to_set (ys ++ [y]) -> is_Some (rnext s !! z) /\ z ∉ xs ++ ys ++ [y]) as Hfree.
  { intros z Hz. destruct (rq_free _ _ _ HR z); [set_solver|]. split; [done|]. set_solver. }
  unfold _runq_append, gets. erewrite M_bind_Some by reflexivity. rewrite Ht.
  destruct xs as [|x xs _] using rev_ind.
  - simpl. eexists; split; [done|]. simpl. rewrite Hc, uwrap_small by (unfold ubound; simpl in *; lia).
    split; simpl; [done|by rewrite last_snoc|lia|done|done].
  - rewrite last_snoc. assert (is_Some (rnext s !! x)) as Hx by (eapply seg_dom; [apply HR|set_solver]).
    erewrite M_bind_Some by by apply st_rnext_eq. simpl. eexists; split; [done|]. simpl.
    rewrite Hc, uwrap_small by (unfold ubound; rewrite !length_app in *; simpl in *; lia).
    split; simpl.
    + rewrite <-app_assoc. apply seg_append; [apply HR| |apply HR|done].
      rewrite NoDup_app in Hnd'. set_solver.
    + by rewrite app_assoc, last_snoc.
    + rewrite !length_app. lia.
    + done.
    + intros z Hz. destruct (Hfree z Hz) as [? ?]. split; [|done].
      rewrite lookup_insert_is_Some. destruct (decide (x = z)); [by left|by right].
Qed.

Lemma detach_walk_ok s ys : forall p z rest,
  seg (rnext s) p (ys ++ z :: rest) -> detach_walk (length ys) p s = Some (Some z, s).
Proof.
  induction ys as [|y ys IH]; simpl; intros p z rest; [by intros [-> _]|].
  intros (-> & q & Hy & H). erewrite M_bind_Some by by apply ld_eq. by eapply IH.
Qed.

(** The first nodes of the queue are taken off as one null-terminated batch. *)
Lemma detach_ok s ys z rest free :
  RqRep s (ys ++ z :: rest) free -> Z.of_nat (length (ys ++ z :: rest)) < 2 ^ 64 ->
  exists s', _runq_detach (Z.of_nat (length (ys ++ [z]))) s = Some (head (ys ++ [z]), s')
    /\ seg (rnext s') (head (ys ++ [z])) (ys ++ [z])
    /\ RqRep s' rest (free ∪ list_to_set (ys ++ [z])).
Proof.
  intros HR Hlen. pose proof (rq_seg _ _ _ HR) as Hs. pose proof (rq_nodup _ _ _ HR) as Hnd.
  destruct (seg_cut _ _ _ _ _ Hnd Hs) as (q & Hq & H1 & H2).
  assert (rhead s = head (ys ++ [z])) as Hh by by eapply seg_head.
  unfold _runq_detach, gets. erewrite M_bind_Some by reflexivity.
  replace (Z.to_nat (Z.of_nat (length (ys ++ [z])) - 1)) with (length ys) by (rewrite length_app; simpl; lia).
  erewrite M_bind_Some by by eapply detach_walk_ok.
  erewrite M_bind_Some by by apply ld_eq. erewrite M_bind_Some by reflexivity.
  set (s2 := Runq (rnext s) q (if q then rtail s else None) (node_count s)).
  erewrite (M_bind_Some _ _ _ tt s2) by by destruct q.
  erewrite M_bind_Some by reflexivity. erewrite M_bind_Some by reflexivity.
  erewrite M_bind_Some by (apply st_rnext_eq; by eexists).
  eexists. rewrite <-Hh. split; [done|]. split; [done|].
  rewrite NoDup_app, NoDup_cons in Hnd. destruct Hnd as (Hndy & Hd & Hz & Hndr).
  split; simpl.
  - done.
  - rewrite (rq_tail _ _ _ HR). rewrite (seg_head _ _ _ H2). destruct rest as [|r rest]; simpl; [done|].
    by rewrite last_app_cons, last_cons_cons.
  - rewrite (rq_count _ _ _ HR), !length_app in *. simpl in *. rewrite uwrap_small by (unfold ubound; lia). lia.
  - done.
  - intros y Hy. assert (is_Some (rnext s !! y) /\ y ∉ rest) as [Hy1 Hy2].
    { apply elem_of_union in Hy as [Hy|Hy]; [destruct (rq_free _ _ _ HR y Hy); split; [done|set_solver]|].
      apply elem_of_list_to_set in Hy. split; [eapply seg_dom; [exact Hs|set_solver]|]. set_solver. }
    split; [|done]. rewrite lookup_insert_is_Some. destruct (decide (z = y)); [by left|by right].
Qed.

Lemma link_batch_ok ns z k : forall i s,
  NoDup ns -> last ns = Some z -> (1 <= i)%nat -> (i + k)%nat = length ns ->
  (forall y, y ∈ ns -> is_Some (rnext s !! y)) ->
  exists N, link_batch ns i k s = Some (tt, Runq N (rhead s) (rtail s) (node_count s))
    /\ relinked (drop (i - 1) ns) (rnext s) N
    /\ seg (<[z := None]> N) (ns !! (i - 1)%nat) (drop (i - 1) ns).
Proof.
  induction k as [|k IH]; intros i s Hnd Hz Hi Hk Hall; simpl.
  - exists (rnext s). split; [by destruct s|]. split; [apply relinked_refl|].
    rewrite last_lookup in Hz. replace (pred (length ns)) with (i - 1)%nat in Hz by lia.
    rewrite Hz. rewrite (drop_S _ _ _ Hz), drop_ge by lia. simpl. split; [done|].
    exists None. by rewrite lookup_insert_eq.
  - destruct (lookup_lt_is_Some_2 ns (i - 1)) as [a Ha]; [lia|].
    destruct (lookup_lt_is_Some_2 ns i) as [b Hb]; [lia|].
    rewrite Ha, Hb. assert (is_Some (rnext s !! a)) as Has by (apply Hall; by eapply list_elem_of_lookup_2).
    erewrite M_bind_Some by by apply st_rnext_eq.
    destruct (IH (S i) (Runq (<[a := Some b]> (rnext s)) (rhead s) (rtail s) (node_count s)))
      as (N & E & Hrel & Hseg); [done|done|lia|lia| |].
    { intros y Hy. simpl. rewrite lookup_insert_is_Some. destruct (decide (a = y)); [by left|right; auto]. }
    simpl in *. replace (i - 0)%nat with i in * by lia. rewrite (drop_S _ _ _ Ha).
    replace (S (i - 1)) with i in * by lia.
    assert (a ∉ drop i ns) as Hai.
    { intros (j & Hj)%list_elem_of_lookup_1. rewrite lookup_drop in Hj.
      pose proof (NoDup_lookup _ _ _ _ Hnd Ha Hj). lia. }
    exists N. split; [done|]. split.
    + destruct Hrel as [Hr1 Hr2]. split.
      * intros y Hy. rewrite Hr1 by set_solver. by rewrite lookup_insert_ne by set_solver.
      * intros y Hy. apply Hr2. rewrite lookup_insert_is_Some. destruct (decide (a = y)); [by left|by right].
    + simpl. split; [done|]. exists (Some b). rewrite Hb in Hseg. split; [|done].
      rewrite lookup_insert_ne.
      * destruct Hrel as [-> _]; [|done]. by rewrite lookup_insert_eq.
      * intros ->. apply Hai. rewrite last_lookup in Hz. apply (list_elem_of_lookup_2 _ (pred (length ns) - i)).
        rewrite lookup_drop. rewrite <-Hz. f_equal. lia.
Qed.

Lemma unlink_batch_ok ys : forall p s,
  NoDup ys -> seg (rnext s) p ys ->
  exists N, unlink_batch (length ys) p s = Some (ys, Runq N (rhead s) (rtail s) (node_count s))
    /\ relinked ys (rnext s) N /\ forall y, y ∈ ys -> N !! y = Some None.
Proof.
  induction ys as [|y ys IH]; intros p s; simpl.
  - intros _ _. exists (rnext s). split; [by destruct s|]. split; [apply relinked_refl|set_solver].
  - rewrite NoDup_cons. intros [Hy Hnd] (-> & q & Hq & H).
    erewrite M_bind_Some by by apply ld_eq. erewrite M_bind_Some by (apply st_rnext_eq; by eexists).
    destruct (IH q (Runq (<[y := None]> (rnext s)) (rhead s) (rtail s) (node_count s))) as (N & E & [Hr1 Hr2] & HN);
      [done|by apply seg_frame|]. simpl in *.
    erewrite M_bind_Some by exact E. exists N. split; [done|]. split; [split|].
    + intros z Hz. rewrite Hr1 by set_solver. by rewrite lookup_insert_ne by set_solver.
    + intros z Hz. apply Hr2. rewrite lookup_insert_is_Some. destruct (decide (y = z)); [by left|by right].
    + intros z [->|Hz]%elem_of_cons; [|by apply HN]. rewrite Hr1 by done. by rewrite lookup_insert_eq.
Qed.

Inductive rop := RPush (x : loc) | RPushBatch (ns : list loc) | RPop | RPopFair (cap consumers : Z).

(** The nodes an operation hands to its caller. *)
Definition rexec (o : rop) : M runq_t (list loc) :=
  match o with
  | RPush x => runq_push x;; mret []
  | RPushBatch ns => runq_push_batch ns (Z.of_nat (length ns));; mret []
  | RPop => p ← runq_pop; mret (option_list p)
  | RPopFair cap consumers => runq_pop_fair cap consumers
  end.

Definition pushed (o : rop) : list loc :=
  match o with RPush x => [x] | RPushBatch ns => ns | _ => [] end.

(** The share documented in runq.h: min(size / consumer_count + 1, size, cap). *)
Definition fair_share (size cap consumers : Z) : Z :=
  if (cap <=? 0) || (consumers <=? 0) then 0
  else Z.min (Z.min (size / consumers + 1) size) cap.

Definition taken (o : rop) (size : nat) : nat :=
  match o with
  | RPop => 1
  | RPopFair cap consumers => Z.to_nat (fair_share (Z.of_nat size) cap consumers)
  | _ => 0
  end.

(** What a caller has to ensure: the nodes it pushes are on no queue, and the
    count stays a [size_t]. *)
Definition legal (o : rop) (xs : list loc) (free : gset loc) : Prop :=
  NoDup (pushed o) /\ (forall y, y ∈ pushed o -> y ∈ free)
  /\ Z.of_nat (length (xs ++ pushed o)) < 2 ^ 64.

Lemma RqRep_shrink s xs free free' : (forall y, y ∈ free' -> y ∈ free) -> RqRep s xs free -> RqRep s xs free'.
Proof. intros Hf [H1 H2 H3 H4 H5]. split; try done. intros y Hy. apply H5. auto. Qed.

Lemma push_batch_ok s xs free ns :
  RqRep s xs free -> legal (RPushBatch ns) xs free ->
  exists s', runq_push_batch ns (Z.of_nat (length ns)) s = Some (tt, s')
    /\ RqRep s' (xs ++ ns) (free ∖ list_to_set ns).
Proof.
  intros HR (Hnd & Hf & Hlen). simpl in *. unfold runq_push_batch.
  destruct ns as [|z ns _] using rev_ind.
  { simpl. exists s. rewrite app_nil_r. split; [done|]. eapply RqRep_shrink; [|exact HR]. set_solver. }
  rewrite (proj2 (Z.leb_gt _ _)) by (rewrite length_app; simpl; lia).
  replace (Z.to_nat (Z.of_nat (length (ns ++ [z])) - 1)) with (length ns) by (rewrite length_app; simpl; lia).
  destruct (link_batch_ok (ns ++ [z]) z (length ns) 1 s) as (N & E & Hrel & Hseg);
    [done|by rewrite last_snoc|lia|rewrite length_app; simpl; lia|intros y Hy; by apply (rq_free _ _ _ HR y (Hf y Hy))|].
  erewrite M_bind_Some by exact E.
  assert ((ns ++ [z]) !! length ns = Some z) as -> by by apply list_lookup_middle.
  simpl in Hrel, Hseg. rewrite drop_0 in Hrel, Hseg. destruct ((ns ++ [z]) !! 0%nat) as [b|] eqn:Eb; [|by destruct ns].
  assert (is_Some (N !! z)) as HNz by (apply Hrel, (rq_free _ _ _ HR z), Hf; set_solver).
  erewrite M_bind_Some by (apply st_rnext_eq; done). simpl.
  apply append_ok; [|done|done|done|done].
  destruct Hrel as [Hr1 Hr2]. split; simpl; try apply HR.
  - eapply seg_agree; [|apply HR]. intros y Hy. assert (y ∉ ns ++ [z]) as Hy'.
    { intros Hin. by apply (rq_free _ _ _ HR y (Hf y Hin)). }
    rewrite lookup_insert_ne by set_solver. by apply Hr1.
  - intros y Hy. destruct (rq_free _ _ _ HR y Hy). split; [|done].
    rewrite lookup_insert_is_Some. destruct (decide (z = y)); [by left|right; auto].
Qed.

Lemma push_ok s xs free x :
  RqRep s xs free -> legal (RPush x) xs free ->
  exists s', runq_push x s = Some (tt, s') /\ RqRep s' (xs ++ [x]) (free ∖ list_to_set [x]).
Proof.
  intros HR Hl. pose proof (push_batch_ok s xs free [x] HR Hl) as (s' & E & H'). exists s'. split; [|done].
  exact E.
Qed.

Lemma take_snoc_split {A} k (xs : list A) : (0 < k <= length xs)%nat ->
  exists ys z, take k xs = ys ++ [z] /\ xs = ys ++ z :: drop k xs /\ length (ys ++ [z]) = k.
Proof.
  intros Hk. destruct (take k xs) as [|z ys _] eqn:E using rev_ind.
  - apply (f_equal length) in E. rewrite length_take in E. simpl in E. lia.
  - exists ys, z. split; [done|]. split.
    + rewrite <-(take_drop k xs) at 1. rewrite E, <-app_assoc. done.
    + rewrite <-E, length_take. lia.
Qed.

(** The nodes handed out are the first ones, unlinked. *)
Definition handed_out (s : runq_t) (xs : list loc) (free : gset loc) (k : nat) (m : M runq_t (list loc)) : Prop :=
  exists s', m s = Some (take k xs, s') /\ RqRep s' (drop k xs) (free ∪ list_to_set (take k xs))
    /\ forall y, y ∈ take k xs -> rnext s' !! y = Some None.

Lemma pop_fair_ok s xs free cap consumers :
  RqRep s xs free -> Z.of_nat (length xs) < 2 ^ 64 ->
  handed_out s xs free (taken (RPopFair cap consumers) (length xs)) (runq_pop_fair cap consumers).
Proof.
  intros HR Hlen. unfold runq_pop_fair, gets, taken, fair_share.
  destruct ((cap <=? 0) || (consumers <=? 0)) eqn:Eg.
  { exists s. split; [done|]. split; [|set_solver]. eapply RqRep_shrink; [|exact HR]. set_solver. }
  apply orb_false_iff in Eg as [Ec%Z.leb_gt Ek%Z.leb_gt].
  unfold handed_out. erewrite M_bind_Some by reflexivity. rewrite (rq_count _ _ _ HR).
  set (n := Z.of_nat (length xs)) in *.
  assert (0 <= n / consumers <= n) as Hdiv.
  { split; [apply Z.div_pos; lia|]. apply Z.div_le_upper_bound; nia. }
  set (k1 := if n / consumers <? n then n / consumers + 1 else n / consumers).
  set (k2 := if cap <? k1 then cap else k1).
  assert (k2 = Z.min (Z.min (n / consumers + 1) n) cap) as Hk2.
  { subst k2 k1. destruct (Z.ltb_spec (n / consumers) n); case_match; lia. }
  rewrite <-Hk2. destruct (Z.eqb_spec k2 0) as [->|Hk0].
  { exists s. split; [done|]. split; [|set_solver]. eapply RqRep_shrink; [|exact HR]. set_solver. }
  destruct (take_snoc_split (Z.to_nat k2) xs) as (ys & z & Et & Exs & El); [lia|].
  rewrite Et. rewrite Exs in HR. destruct (detach_ok _ _ _ _ _ HR) as (s1 & E1 & Hs1 & HR1).
  { rewrite <-Exs. done. }
  replace (Z.of_nat (length (ys ++ [z]))) with k2 in E1 by lia.
  erewrite M_bind_Some by exact E1.
  assert (NoDup (ys ++ [z])) as Hnd.
  { pose proof (rq_nodup _ _ _ HR) as Hnd. rewrite cons_middle, app_assoc in Hnd. by apply NoDup_app in Hnd as [? _]. }
  destruct (unlink_batch_ok (ys ++ [z]) _ s1 Hnd Hs1) as (N & E2 & [Hr1 Hr2] & HN).
  rewrite El in E2. eexists. split; [exact E2|]. split; [|exact HN].
  split; simpl; try apply HR1.
  - eapply seg_agree; [|apply HR1]. intros y Hy. apply Hr1. intros Hin.
    apply (rq_free _ _ _ HR1 y); [|done]. set_solver.
  - intros y Hy. destruct (rq_free _ _ _ HR1 y Hy). split; [by apply Hr2|done].
Qed.

Lemma pop_ok s xs free :
  RqRep s xs free -> Z.of_nat (length xs) < 2 ^ 64 -> handed_out s xs free 1 (rexec RPop).
Proof.
  intros HR Hlen. unfold handed_out, rexec, runq_pop, gets. rewrite M_bind_assoc. erewrite M_bind_Some by reflexivity.
  rewrite (seg_head _ _ _ (rq_seg _ _ _ HR)). destruct xs as [|x xs]; simpl.
  - exists s. split; [done|]. split; [|set_solver]. eapply RqRep_shrink; [|exact HR]. set_solver.
  - destruct (detach_ok s [] x xs free HR Hlen) as (s' & E & Hs & HR'). simpl in *.
    exists s'. split; [by erewrite M_bind_Some by exact E|]. split; [|].
    + eapply RqRep_shrink; [|exact HR']. done.
    + intros y ->%list_elem_of_singleton. destruct Hs as (_ & q & Hq & ->). done.
Qed.

(** One operation on the queue holding [xs]. *)
Lemma rexec_step s xs free o :
  RqRep s xs free -> legal o xs free ->
  exists s', rexec o s = Some (take (taken o (length xs)) xs, s')
    /\ RqRep s' (drop (taken o (length xs)) xs ++ pushed o)
         ((free ∪ list_to_set (take (taken o (length xs)) xs)) ∖ list_to_set (pushed o))
    /\ (forall y, y ∈ take (taken o (length xs)) xs -> rnext s' !! y = Some None).
Proof.
  intros HR Hl. pose proof Hl as (_ & _ & Hlen). rewrite length_app in Hlen. destruct o as [x|ns| |cap n].
  - destruct (push_ok _ _ _ _ HR Hl) as (s' & E & H'). exists s'.
    split; [simpl; by erewrite M_bind_Some by exact E|]. split; [|set_solver].
    eapply RqRep_shrink; [|exact H']. simpl. set_solver.
  - destruct (push_batch_ok _ _ _ _ HR Hl) as (s' & E & H'). exists s'.
    split; [simpl; by erewrite M_bind_Some by exact E|]. split; [|set_solver].
    eapply RqRep_shrink; [|exact H']. simpl. set_solver.
  - destruct (pop_ok s xs free HR) as (s' & E & H' & Hn); [lia|]. exists s'. split; [done|]. split; [|done].
    simpl. rewrite app_nil_r. eapply RqRep_shrink; [|exact H']. set_solver.
  - destruct (pop_fair_ok s xs free cap n HR) as (s' & E & H' & Hn); [lia|]. exists s'. split; [done|]. split; [|done].
    cbn [pushed]. rewrite app_nil_r. eapply RqRep_shrink; [|exact H']. set_solver.
Qed.

Fixpoint rrun (os : list rop) : M runq_t (list (list loc)) :=
  match os with [] => mret [] | o :: os => r ← rexec o; rs ← rrun os; mret (r :: rs) end.

(** The same operations on a plain sequence: what each takes, and what is left. *)
Fixpoint shares (xs : list loc) (os : list rop) : list (list loc) :=
  match os with
  | [] => []
  | o :: os => take (taken o (length xs)) xs :: shares (drop (taken o (length xs)) xs ++ pushed o) os
  end.
Fixpoint leftover (xs : list loc) (os : list rop) : list loc :=
  match os with
  | [] => xs
  | o :: os => leftover (drop (taken o (length xs)) xs ++ pushed o) os
  end.
Fixpoint all_legal (xs : list loc) (free : gset loc) (os : list rop) : Prop :=
  match os with
  | [] => True
  | o :: os => legal o xs free
      /\ all_legal (drop (taken o (length xs)) xs ++ pushed o)
           ((free ∪ list_to_set (take (taken o (length xs)) xs)) ∖ list_to_set (pushed o)) os
  end.

Lemma shares_fifo os : forall xs, concat (shares xs os) ++ leftover xs os = xs ++ concat (pushed <$> os).
Proof.
  induction os as [|o os IH]; intros xs; simpl; [by rewrite !app_nil_r|].
  rewrite <-app_assoc, IH, <-!app_assoc, app_assoc, take_drop. done.
Qed.

(** C20 Any sequence of pushes, batch pushes, pops and fair-share pops on the run
    queue terminates without undefined behaviour and hands out exactly the nodes
    the same operations on a plain sequence hand out, a fair-share pop taking
    min(size / consumers + 1, size, capacity) nodes; in particular the nodes come
    out in the order they went in, each exactly once. *)
Theorem runq_refines s xs free os :
  RqRep s xs free -> all_legal xs free os ->
  exists s' free', rrun os s = Some (shares xs os, s') /\ RqRep s' (leftover xs os) free'
    /\ concat (shares xs os) ++ leftover xs os = xs ++ concat (pushed <$> os).
Proof.
  intros HR Hl. setoid_rewrite shares_fifo. revert s xs free HR Hl.
  induction os as [|o os IH]; intros s xs free HR; simpl; [intros _; by exists s, free|].
  intros [Ho Hos]. destruct (rexec_step _ _ _ _ HR Ho) as (s1 & E1 & HR1 & _).
  destruct (IH _ _ _ HR1 Hos) as (s2 & free' & E2 & HR2 & _).
  exists s2, free'. split; [|done]. erewrite M_bind_Some by exact E1. by erewrite M_bind_Some by exact E2.
Qed.

Lemma runq_refines_witness :
  exists s' free', rrun [RPushBatch [1; 2; 3; 4]%positive; RPush 5%positive; RPopFair 8 2; RPop]
      (runq_create (list_to_map ((fun l => (l, None)) <$> [1; 2; 3; 4; 5]%positive)))
    = Some ([[]; []; [1; 2; 3]; [4]]%positive, s') /\ RqRep s' [5]%positive free'.
Proof.
  destruct (runq_refines (runq_create (list_to_map ((fun l => (l, None)) <$> [1; 2; 3; 4; 5]%positive)))
    [] {[1; 2; 3; 4; 5]}%positive [RPushBatch [1; 2; 3; 4]%positive; RPush 5%positive; RPopFair 8 2; RPop])
    as (s' & free' & E & H & _).
  - split; try done; [constructor|]. intros y Hy. split; [|set_solver]. apply elem_of_dom. vm_compute dom. set_solver.
  - simpl. unfold legal. simpl. split_and!; try done; try by apply (bool_decide_unpack _).
    all: try (intros y Hy; set_solver). all: try by constructor.
  - exists s', free'. split; [exact E|exact H].
Defined.

(** ** The stack *)

Record LifoRep (s : lifo_t) (xs : list loc) (free : gset loc) : Prop := {
  lr_seg : seg (lnext s) (top s) xs;
  lr_count : lnelts s = Z.of_nat (length xs);
  lr_nodup : NoDup xs;
  lr_free y : y ∈ free -> is_Some (lnext s !! y) /\ y ∉ xs;
}.

(** C33 [lifo_push] and [lifo_pop] implement a stack: push puts the node on top,
    pop returns and unlinks the top node or the null pointer on an empty stack,
    and peek, length and emptiness agree with it. *)
Theorem lifo_refines s xs free :
  LifoRep s xs free -> Z.of_nat (length xs) + 1 < 2 ^ 64 ->
  lifo_peek s = Some (head xs, s) /\ lifo_len s = Some (Z.of_nat (length xs), s)
  /\ lifo_empty s = Some (bool_decide (xs = []), s)
  /\ (exists s', lifo_pop s = Some (head xs, s') /\ LifoRep s' (tail xs) (free ∪ list_to_set (option_list (head xs))))
  /\ forall x, x ∈ free -> exists s', lifo_push x s = Some (tt, s') /\ LifoRep s' (x :: xs) (free ∖ {[x]}).
Proof.
  intros HR Hlen. pose proof (seg_head _ _ _ (lr_seg _ _ _ HR)) as Ht. pose proof (lr_count _ _ _ HR) as Hc.
  split; [by unfold lifo_peek, gets; rewrite Ht|]. split; [by unfold lifo_len, gets; rewrite Hc|].
  split; [unfold lifo_empty, gets; erewrite M_bind_Some by reflexivity; rewrite Hc; by destruct xs|]. split.
  - unfold lifo_pop, gets. erewrite M_bind_Some by reflexivity. destruct xs as [|x xs]; simpl in Ht; rewrite Ht.
    { exists s. split; [done|]. destruct HR as [H1 H2 H3 H4]. split; try done. intros y Hy. apply H4. set_solver. }
    pose proof (seg_cut _ _ [] x xs (lr_nodup _ _ _ HR) (lr_seg _ _ _ HR)) as (q & Hq & _ & H2).
    erewrite M_bind_Some by by apply ld_eq. erewrite M_bind_Some by reflexivity.
    erewrite M_bind_Some by (apply st_lnext_eq; by eexists). simpl. eexists; split; [done|].
    pose proof (lr_nodup _ _ _ HR) as Hnd. rewrite NoDup_cons in Hnd. destruct Hnd as [Hx Hnd].
    split; simpl; [done| |done|].
    + rewrite Hc. simpl in *. rewrite uwrap_small by (unfold ubound; lia). lia.
    + intros y Hy. rewrite lookup_insert_is_Some.
      destruct (decide (x = y)) as [->|]; [by split; [left|]|].
      destruct (lr_free _ _ _ HR y); [set_solver|]. split; [by right|set_solver].
  - intros x Hx. destruct (lr_free _ _ _ HR x Hx) as [Hx1 Hx2].
    unfold lifo_push, gets. erewrite M_bind_Some by reflexivity.
    erewrite M_bind_Some by by apply st_lnext_eq. simpl. eexists; split; [done|]. split; simpl.
    + split; [done|]. exists (top s). rewrite lookup_insert_eq. split; [done|]. apply seg_frame; [done|apply HR].
    + rewrite Hc, uwrap_small by (unfold ubound; lia). lia.
    + apply NoDup_cons. split; [done|apply HR].
    + intros y Hy. destruct (lr_free _ _ _ HR y); [set_solver|]. rewrite lookup_insert_ne by set_solver. set_solver.
Qed.

Lemma lifo_refines_witness :
  let s := Lifo (<[1%positive := Some 2%positive]> (<[2%positive := None]> ∅)) (Some 1%positive) 2 in
  exists s', lifo_pop s = Some (Some 1%positive, s') /\ LifoRep s' [2]%positive {[1]}%positive.
Proof.
  intros s. destruct (lifo_refines s [1; 2]%positive ∅) as (_ & _ & _ & (s' & E & H) & _).
  - split; try done.
    + simpl. split; [done|]. exists (Some 2%positive). split; [done|]. split; [done|]. exists None. done.
    + by apply (bool_decide_unpack _).
  - done.
  - exists s'. split; [exact E|]. destruct H as [H1 H2 H3 H4]. split; [exact H1|exact H2|exact H3|].
    intros y Hy. apply H4. set_solver.
Defined.
