(* ===== verification/Base64.v ===== *)
(** * Base64 (src/encoding/xylem-base64.c)

    Buffers are lists of bytes; a result of [-1] is [None], any other result is the
    list of bytes written, whose length is the C return value.  The decoder is shown
    to accept exactly what the encoder produces. *)

From S2P Require Import Prelude.

Definition _b64_enc_std : list Z :=
  chars "ABCDEFGHIJKLMNOPQRSTUVWXYZabcdefghijklmnopqrstuvwxyz0123456789+/".
Definition _b64_enc_url : list Z :=
  chars "ABCDEFGHIJKLMNOPQRSTUVWXYZabcdefghijklmnopqrstuvwxyz0123456789-_".

Definition _b64_dec_std : list Z :=
  [
    -1; -1; -1; -1; -1; -1; -1; -1; -1; -1; -1; -1; -1; -1; -1; -1; -1; -1; -1; -1; -1; -1; -1;
    -1; -1; -1; -1; -1; -1; -1; -1; -1; -1; -1; -1; -1; -1; -1; -1; -1; -1; -1; -1; 62; -1; -1;
    -1; 63; 52; 53; 54; 55; 56; 57; 58; 59; 60; 61; -1; -1; -1; -1; -1; -1; -1; 0; 1; 2; 3; 4;
    5; 6; 7; 8; 9; 10; 11; 12; 13; 14; 15; 16; 17; 18; 19; 20; 21; 22; 23; 24; 25; -1; -1; -1;
    -1; -1; -1; 26; 27; 28; 29; 30; 31; 32; 33; 34; 35; 36; 37; 38; 39; 40; 41; 42; 43; 44; 45;
    46; 47; 48; 49; 50; 51; -1; -1; -1; -1; -1; -1; -1; -1; -1; -1; -1; -1; -1; -1; -1; -1; -1;
    -1; -1; -1; -1; -1; -1; -1; -1; -1; -1; -1; -1; -1; -1; -1; -1; -1; -1; -1; -1; -1; -1; -1;
    -1; -1; -1; -1; -1; -1; -1; -1; -1; -1; -1; -1; -1; -1; -1; -1; -1; -1; -1; -1; -1; -1; -1;
    -1; -1; -1; -1; -1; -1; -1; -1; -1; -1; -1; -1; -1; -1; -1; -1; -1; -1; -1; -1; -1; -1; -1;
    -1; -1; -1; -1; -1; -1; -1; -1; -1; -1; -1; -1; -1; -1; -1; -1; -1; -1; -1; -1; -1; -1; -1;
    -1; -1; -1; -1; -1; -1; -1; -1; -1; -1; -1; -1; -1; -1; -1; -1; -1; -1; -1; -1; -1; -1; -1;
    -1
  ].
Definition _b64_dec_url : list Z :=
  [
    -1; -1; -1; -1; -1; -1; -1; -1; -1; -1; -1; -1; -1; -1; -1; -1; -1; -1; -1; -1; -1; -1; -1;
    -1; -1; -1; -1; -1; -1; -1; -1; -1; -1; -1; -1; -1; -1; -1; -1; -1; -1; -1; -1; -1; -1; 62;
    -1; -1; 52; 53; 54; 55; 56; 57; 58; 59; 60; 61; -1; -1; -1; -1; -1; -1; -1; 0; 1; 2; 3; 4;
    5; 6; 7; 8; 9; 10; 11; 12; 13; 14; 15; 16; 17; 18; 19; 20; 21; 22; 23; 24; 25; -1; -1; -1;
    -1; 63; -1; 26; 27; 28; 29; 30; 31; 32; 33; 34; 35; 36; 37; 38; 39; 40; 41; 42; 43; 44; 45;
    46; 47; 48; 49; 50; 51; -1; -1; -1; -1; -1; -1; -1; -1; -1; -1; -1; -1; -1; -1; -1; -1; -1;
    -1; -1; -1; -1; -1; -1; -1; -1; -1; -1; -1; -1; -1; -1; -1; -1; -1; -1; -1; -1; -1; -1; -1;
    -1; -1; -1; -1; -1; -1; -1; -1; -1; -1; -1; -1; -1; -1; -1; -1; -1; -1; -1; -1; -1; -1; -1;
    -1; -1; -1; -1; -1; -1; -1; -1; -1; -1; -1; -1; -1; -1; -1; -1; -1; -1; -1; -1; -1; -1; -1;
    -1; -1; -1; -1; -1; -1; -1; -1; -1; -1; -1; -1; -1; -1; -1; -1; -1; -1; -1; -1; -1; -1; -1;
    -1; -1; -1; -1; -1; -1; -1; -1; -1; -1; -1; -1; -1; -1; -1; -1; -1; -1; -1; -1; -1; -1; -1;
    -1
  ].

(** [table[i]]. *)
Definition at_ (table : list Z) (i : Z) : Z := nth (Z.to_nat i) table 0.

(** The sizes, in [int] arithmetic. *)
Definition xylem_base64_encode_size (slen : Z) : Z := i32 (Z.quot (i32 (slen + 2)) 3 * 4).
Definition xylem_base64_decode_size (slen : Z) : Z := i32 (Z.quot (i32 (slen + 3)) 4 * 3).

(** '=' *)
Definition pad_char : Z := 61.

(** The loop over whole groups and the [switch] on what is left. *)
Fixpoint encode_groups (table : list Z) (padding : bool) (src : list Z) : list Z :=
  match src with
  | a :: b :: c :: rest =>
      let val := Z.lor (Z.lor (Z.shiftl a 16) (Z.shiftl b 8)) c in
      at_ table (Z.shiftr val 18) :: at_ table (Z.land (Z.shiftr val 12) 0x3f)
      :: at_ table (Z.land (Z.shiftr val 6) 0x3f) :: at_ table (Z.land val 0x3f)
      :: encode_groups table padding rest
  | [a; b] =>
      let val := Z.lor (Z.shiftl a 16) (Z.shiftl b 8) in
      at_ table (Z.shiftr val 18) :: at_ table (Z.land (Z.shiftr val 12) 0x3f)
      :: at_ table (Z.land (Z.shiftr val 6) 0x3f) :: (if padding then [pad_char] else [])
  | [a] =>
      let val := Z.shiftl a 16 in
      at_ table (Z.shiftr val 18) :: at_ table (Z.land (Z.shiftr val 12) 0x3f)
      :: (if padding then [pad_char; pad_char] else [])
  | [] => []
  end.

Definition _base64_encode (src : list Z) (dlen : Z) (table : list Z) (padding : bool) : option (list Z) :=
  if dlen <? xylem_base64_encode_size (Z.of_nat (length src)) then None
  else Some (encode_groups table padding src).

(** The part after the loop, for the last two or three characters. *)
Definition decode_tail (table : list Z) (src : list Z) : option (list Z) :=
  match src with
  | [a; b] =>
      let v0 := at_ table a in
      let v1 := at_ table b in
      if (v0 <? 0) || (v1 <? 0) then None
      else
        let val := Z.lor (Z.shiftl v0 12) (Z.shiftl v1 6) in
        if negb (Z.land val 0x3ff =? 0) then None else Some [u8 (Z.shiftr val 10)]
  | [a; b; c] =>
      let v0 := at_ table a in
      let v1 := at_ table b in
      if (v0 <? 0) || (v1 <? 0) then None
      else
        let v2 := at_ table c in
        if v2 <? 0 then None
        else
          let val := Z.lor (Z.lor (Z.shiftl v0 12) (Z.shiftl v1 6)) v2 in
          if negb (Z.land val 0x3 =? 0) then None
          else Some [u8 (Z.shiftr val 10); u8 (Z.shiftr val 2)]
  | _ => None
  end.

Fixpoint decode_groups (table : list Z) (padding : bool) (src : list Z) : option (list Z) :=
  match src with
  | a :: b :: c :: d :: rest =>
      let val := Z.lor (Z.lor (Z.lor (Z.shiftl (at_ table a) 18) (Z.shiftl (at_ table b) 12))
                              (Z.shiftl (at_ table c) 6)) (at_ table d) in
      if val <? 0 then
        if negb padding || negb (bool_decide (rest = [])) || negb (d =? pad_char) then None
        else decode_tail table (if c =? pad_char then [a; b] else [a; b; c])
      else
        out ← decode_groups table padding rest;
        Some (u8 (Z.shiftr val 16) :: u8 (Z.shiftr val 8) :: u8 val :: out)
  | [] => Some []
  | [_] => None
  | _ => if padding then None else decode_tail table src
  end.

Definition _base64_decode (src : list Z) (dlen : Z) (table : list Z) (padding : bool) : option (list Z) :=
  if dlen <? xylem_base64_decode_size (Z.of_nat (length src)) then None
  else decode_groups table padding src.

Definition xylem_base64_encode_std (src : list Z) (dlen : Z) := _base64_encode src dlen _b64_enc_std true.
Definition xylem_base64_decode_std (src : list Z) (dlen : Z) := _base64_decode src dlen _b64_dec_std true.
Definition xylem_base64_encode_url (src : list Z) (dlen : Z) (padding : bool) :=
  _base64_encode src dlen _b64_enc_url padding.
Definition xylem_base64_decode_url (src : list Z) (dlen : Z) (padding : bool) :=
  _base64_decode src dlen _b64_dec_url padding.

(** ** Alphabets *)

(** An encoding table and the decoding table that inverts it. *)
Class Alphabet (enc dec : list Z) : Prop := {
  alpha_enc i : 0 <= i < 64 -> at_ dec (at_ enc i) = i /\ byte (at_ enc i) /\ at_ enc i <> pad_char;
  alpha_dec c : byte c -> at_ dec c = -1 \/ (0 <= at_ dec c < 64 /\ at_ enc (at_ dec c) = c);
  alpha_pad : at_ dec pad_char = -1;
}.

Definition alphabet_ok (enc dec : list Z) : bool :=
  forallbZ 64 (fun i => (at_ dec (at_ enc i) =? i) && (0 <=? at_ enc i) && (at_ enc i <? 256)
                        && negb (at_ enc i =? pad_char))
  && forallbZ 256 (fun c => (at_ dec c =? -1) ||
       ((0 <=? at_ dec c) && (at_ dec c <? 64) && (at_ enc (at_ dec c) =? c)))
  && (at_ dec pad_char =? -1).

Lemma alphabet_ok_spec enc dec : alphabet_ok enc dec = true -> Alphabet enc dec.
Proof.
  intros [[H1 H2]%andb_true_iff H3]%andb_true_iff. split.
  - intros i Hi. pose proof (forallbZ_spec _ _ H1 i Hi) as H. simpl in H. unfold byte. lia.
  - intros c Hc. pose proof (forallbZ_spec _ _ H2 c Hc) as H. simpl in H. lia.
  - lia.
Qed.

#[export] Instance alphabet_std : Alphabet _b64_enc_std _b64_dec_std.
Proof. apply alphabet_ok_spec. vm_compute. reflexivity. Qed.
#[export] Instance alphabet_url : Alphabet _b64_enc_url _b64_dec_url.
Proof. apply alphabet_ok_spec. vm_compute. reflexivity. Qed.

(** ** Bits as digits *)

Lemma join_bytes a b c : byte a -> byte b -> byte c ->
  Z.lor (Z.lor (Z.shiftl a 16) (Z.shiftl b 8)) c = a * 65536 + b * 256 + c.
Proof.
  unfold byte. intros. rewrite (Z.shiftl_mul_pow2 b 8) by lia.
  rewrite (lor_shiftl_add a 16) by lia.
  replace (a * 2 ^ 16 + b * 2 ^ 8) with (Z.shiftl (a * 256 + b) 8) by (rewrite Z.shiftl_mul_pow2; lia).
  rewrite lor_shiftl_add by lia. lia.
Qed.
Lemma join_bytes2 a b : byte a -> byte b -> Z.lor (Z.shiftl a 16) (Z.shiftl b 8) = a * 65536 + b * 256.
Proof. intros Ha Hb. pose proof (join_bytes a b 0 Ha Hb) as E. rewrite Z.lor_0_r in E. rewrite E by done. lia. Qed.

Definition digit (d : Z) : Prop := 0 <= d < 64.

Lemma join_digits d0 d1 d2 d3 : digit d0 -> digit d1 -> digit d2 -> digit d3 ->
  Z.lor (Z.lor (Z.lor (Z.shiftl d0 18) (Z.shiftl d1 12)) (Z.shiftl d2 6)) d3
  = d0 * 262144 + d1 * 4096 + d2 * 64 + d3.
Proof.
  unfold digit. intros. rewrite (Z.shiftl_mul_pow2 d1 12) by lia.
  rewrite (lor_shiftl_add d0 18) by lia.
  replace (d0 * 2 ^ 18 + d1 * 2 ^ 12) with (Z.shiftl (d0 * 64 + d1) 12) by (rewrite Z.shiftl_mul_pow2; lia).
  rewrite (Z.shiftl_mul_pow2 d2 6) by lia. rewrite lor_shiftl_add by lia.
  replace ((d0 * 64 + d1) * 2 ^ 12 + d2 * 2 ^ 6) with (Z.shiftl (d0 * 4096 + d1 * 64 + d2) 6)
    by (rewrite Z.shiftl_mul_pow2; lia).
  rewrite lor_shiftl_add by lia. lia.
Qed.
Lemma join_digits3 d0 d1 d2 : digit d0 -> digit d1 -> digit d2 ->
  Z.lor (Z.lor (Z.shiftl d0 12) (Z.shiftl d1 6)) d2 = d0 * 4096 + d1 * 64 + d2.
Proof.
  unfold digit. intros. rewrite (Z.shiftl_mul_pow2 d1 6) by lia. rewrite (lor_shiftl_add d0 12) by lia.
  replace (d0 * 2 ^ 12 + d1 * 2 ^ 6) with (Z.shiftl (d0 * 64 + d1) 6) by (rewrite Z.shiftl_mul_pow2; lia).
  rewrite lor_shiftl_add by lia. lia.
Qed.
Lemma join_digits2 d0 d1 : digit d0 -> digit d1 -> Z.lor (Z.shiftl d0 12) (Z.shiftl d1 6) = d0 * 4096 + d1 * 64.
Proof. intros H0 H1. pose proof (join_digits3 d0 d1 0 H0 H1) as E. rewrite Z.lor_0_r in E. rewrite E by done. lia. Qed.

(** The value of a group is negative as soon as one character is invalid. *)
Lemma group_negative d0 d1 d2 d3 :
  Z.lor (Z.lor (Z.lor (Z.shiftl d0 18) (Z.shiftl d1 12)) (Z.shiftl d2 6)) d3 < 0
  <-> d0 < 0 \/ d1 < 0 \/ d2 < 0 \/ d3 < 0.
Proof. rewrite !Z.lor_neg, !Z.shiftl_neg. tauto. Qed.

(** ** Induction by groups *)

Lemma groups3_ind (P : list Z -> Prop) :
  P [] -> (forall a, P [a]) -> (forall a b, P [a; b]) ->
  (forall a b c l, P l -> P (a :: b :: c :: l)) -> forall l, P l.
Proof.
  intros H0 H1 H2 H3. refine (fix go l := _). destruct l as [|a [|b [|c l]]]; [exact H0|exact (H1 a)|exact (H2 a b)|exact (H3 a b c l (go l))].
Qed.
Lemma groups4_ind (P : list Z -> Prop) :
  P [] -> (forall a, P [a]) -> (forall a b, P [a; b]) -> (forall a b c, P [a; b; c]) ->
  (forall a b c d l, P l -> P (a :: b :: c :: d :: l)) -> forall l, P l.
Proof.
  intros H0 H1 H2 H3 H4. refine (fix go l := _). destruct l as [|a [|b [|c [|d l]]]]; [exact H0|exact (H1 a)|exact (H2 a b)|exact (H3 a b c)|].
  exact (H4 a b c d l (go l)).
Qed.

(** ** The encoder and the decoder in terms of digits *)

(** Equal lists, element by element, up to arithmetic. *)
Ltac elementwise :=
  repeat match goal with
         | |- Some _ = Some _ => apply f_equal
         | |- _ :: _ = _ :: _ => apply (f_equal2 cons)
         | |- at_ _ _ = at_ _ _ => apply f_equal
         end; first [reflexivity | zdm].

Lemma encode_1 enc padding a : byte a ->
  encode_groups enc padding [a]
  = at_ enc (a / 4) :: at_ enc (a mod 4 * 16) :: (if padding then [pad_char; pad_char] else []).
Proof.
  unfold byte. intros Ha. cbn [encode_groups]. rewrite land_0x3f, !shiftr_div, Z.shiftl_mul_pow2 by lia.
  elementwise.
Qed.
Lemma encode_2 enc padding a b : byte a -> byte b ->
  encode_groups enc padding [a; b]
  = at_ enc (a / 4) :: at_ enc (a mod 4 * 16 + b / 16) :: at_ enc (b mod 16 * 4)
    :: (if padding then [pad_char] else []).
Proof.
  intros Ha Hb. cbn [encode_groups]. rewrite join_bytes2, !land_0x3f, !shiftr_div by (done || lia).
  unfold byte in *. elementwise.
Qed.
Lemma encode_3 enc padding a b c l : byte a -> byte b -> byte c ->
  encode_groups enc padding (a :: b :: c :: l)
  = at_ enc (a / 4) :: at_ enc (a mod 4 * 16 + b / 16) :: at_ enc (b mod 16 * 4 + c / 64)
    :: at_ enc (c mod 64) :: encode_groups enc padding l.
Proof.
  intros Ha Hb Hc. cbn [encode_groups]. rewrite join_bytes, !land_0x3f, !shiftr_div by (done || lia).
  unfold byte in *. elementwise.
Qed.

Lemma decode_tail_2 dec x y : digit (at_ dec x) -> digit (at_ dec y) ->
  decode_tail dec [x; y]
  = if at_ dec y mod 16 =? 0 then Some [at_ dec x * 4 + at_ dec y / 16] else None.
Proof.
  intros Hx Hy. cbn [decode_tail]. rewrite join_digits2, shiftr_div by (done || lia).
  change 0x3ff with (2 ^ 10 - 1). rewrite land_ones_mod by lia. unfold digit, uwrap in *.
  rewrite !(proj2 (Z.ltb_ge _ _)) by lia. cbn [orb].
  destruct (Z.eqb_spec (at_ dec y mod 16) 0); destruct (Z.eqb_spec ((at_ dec x * 4096 + at_ dec y * 64) mod 2 ^ 10) 0);
    cbn [negb]; [|zdm..|done]. elementwise.
Qed.
Lemma decode_tail_3 dec x y z : digit (at_ dec x) -> digit (at_ dec y) -> digit (at_ dec z) ->
  decode_tail dec [x; y; z]
  = if at_ dec z mod 4 =? 0 then
      Some [at_ dec x * 4 + at_ dec y / 16; at_ dec y mod 16 * 16 + at_ dec z / 4]
    else None.
Proof.
  intros Hx Hy Hz. cbn [decode_tail]. rewrite join_digits3, !shiftr_div by (done || lia).
  change 0x3 with (2 ^ 2 - 1). rewrite land_ones_mod by lia. unfold digit, uwrap in *.
  rewrite !(proj2 (Z.ltb_ge _ _)) by lia. cbn [orb].
  destruct (Z.eqb_spec (at_ dec z mod 4) 0);
    destruct (Z.eqb_spec ((at_ dec x * 4096 + at_ dec y * 64 + at_ dec z) mod 2 ^ 2) 0);
    cbn [negb]; [|zdm..|done]. elementwise.
Qed.

Lemma decode_4 dec padding x y z w l :
  digit (at_ dec x) -> digit (at_ dec y) -> digit (at_ dec z) -> digit (at_ dec w) ->
  decode_groups dec padding (x :: y :: z :: w :: l)
  = (out ← decode_groups dec padding l;
     Some (at_ dec x * 4 + at_ dec y / 16 :: at_ dec y mod 16 * 16 + at_ dec z / 4
           :: at_ dec z mod 4 * 64 + at_ dec w :: out)).
Proof.
  intros Hx Hy Hz Hw. cbn [decode_groups]. rewrite join_digits, !shiftr_div by (done || lia).
  unfold digit, uwrap in *. rewrite (proj2 (Z.ltb_ge _ _)) by lia.
  destruct (decode_groups dec padding l); simpl; [|done]. elementwise.
Qed.

(** A group with an invalid character is accepted only as the padded end. *)
Lemma decode_invalid dec padding x y z w l :
  at_ dec x < 0 \/ at_ dec y < 0 \/ at_ dec z < 0 \/ at_ dec w < 0 ->
  decode_groups dec padding (x :: y :: z :: w :: l)
  = if negb padding || negb (bool_decide (l = [])) || negb (w =? pad_char) then None
    else decode_tail dec (if z =? pad_char then [x; y] else [x; y; z]).
Proof. intros H%group_negative. cbn [decode_groups]. by rewrite (proj2 (Z.ltb_lt _ _)). Qed.

Section roundtrip.
Context {enc dec : list Z} `{!Alphabet enc dec}.

(** The digit [i] is written as a character that reads back as [i]. *)
Lemma dec_enc i : digit i -> at_ dec (at_ enc i) = i.
Proof. intros Hi. by apply alpha_enc. Qed.
Lemma enc_not_pad i : digit i -> (at_ enc i =? pad_char) = false.
Proof. intros Hi. apply Z.eqb_neq. by apply alpha_enc. Qed.

Lemma decode_encode padding src :
  Forall byte src -> decode_groups dec padding (encode_groups enc padding src) = Some src.
Proof.
  induction src as [|a|a b|a b c src IH] using groups3_ind; intros Hb; [done|..];
    rewrite ?Forall_cons in Hb; destruct_and? Hb.
  - rewrite encode_1 by done. assert (digit (a / 4) /\ digit (a mod 4 * 16)) as [? ?] by (unfold digit, byte in *; zdm).
    assert (decode_tail dec [at_ enc (a / 4); at_ enc (a mod 4 * 16)] = Some [a]) as E.
    { rewrite decode_tail_2 by by rewrite dec_enc. rewrite !dec_enc by done.
      rewrite (proj2 (Z.eqb_eq _ _)) by zdm. elementwise. }
    destruct padding; [|done]. rewrite decode_invalid; [exact E|]. rewrite alpha_pad. lia.
  - rewrite encode_2 by done.
    assert (digit (a / 4) /\ digit (a mod 4 * 16 + b / 16) /\ digit (b mod 16 * 4)) as (? & ? & ?)
      by (unfold digit, byte in *; zdm).
    assert (decode_tail dec [at_ enc (a / 4); at_ enc (a mod 4 * 16 + b / 16); at_ enc (b mod 16 * 4)] = Some [a; b]) as E.
    { rewrite decode_tail_3 by by rewrite dec_enc. rewrite !dec_enc by done. unfold byte in *.
      rewrite (proj2 (Z.eqb_eq _ _)) by zdm. elementwise. }
    destruct padding; [|done]. rewrite decode_invalid; [|rewrite alpha_pad; lia]. cbn [negb orb].
    by rewrite Z.eqb_refl, enc_not_pad.
  - rewrite encode_3 by done.
    assert (digit (a / 4) /\ digit (a mod 4 * 16 + b / 16) /\ digit (b mod 16 * 4 + c / 64) /\ digit (c mod 64))
      as (? & ? & ? & ?) by (unfold digit, byte in *; zdm).
    rewrite decode_4 by by rewrite dec_enc. rewrite !dec_enc by done. rewrite IH by done. simpl.
    unfold byte in *. elementwise.
Qed.

(** A byte is either invalid or the character of a digit. *)
Lemma dec_cases c : byte c -> at_ dec c < 0 \/ (digit (at_ dec c) /\ at_ enc (at_ dec c) = c).
Proof. intros Hc. destruct (alpha_dec c Hc) as [->|H]; [by left|by right]. Qed.

(** The tail decoder inverts the tail encoder. *)
Lemma encode_tail_2 padding x y bs : byte x -> byte y -> decode_tail dec [x; y] = Some bs ->
  Forall byte bs /\ encode_groups enc padding bs = [x; y] ++ (if padding then [pad_char; pad_char] else []).
Proof.
  intros Hx Hy. destruct (dec_cases x Hx) as [H|[Hdx Ex]]; [simpl; by rewrite (proj2 (Z.ltb_lt _ _)) by lia|].
  destruct (dec_cases y Hy) as [H|[Hdy Ey]]; [simpl; by rewrite (proj2 (Z.ltb_lt (at_ dec y) _)), orb_true_r by lia|].
  rewrite decode_tail_2 by done. destruct (Z.eqb_spec (at_ dec y mod 16) 0) as [Hm|]; [|done]. intros [= <-].
  assert (byte (at_ dec x * 4 + at_ dec y / 16)) as Hb by (unfold byte, digit in *; zdm).
  split; [by apply Forall_singleton|]. rewrite encode_1 by done. simpl. f_equal; [|f_equal].
  - transitivity (at_ enc (at_ dec x)); [|done]. f_equal. unfold digit in *. zdm.
  - transitivity (at_ enc (at_ dec y)); [|done]. f_equal. unfold digit in *. zdm.
Qed.
Lemma encode_tail_3 padding x y z bs : byte x -> byte y -> byte z -> decode_tail dec [x; y; z] = Some bs ->
  Forall byte bs /\ encode_groups enc padding bs = [x; y; z] ++ (if padding then [pad_char] else []).
Proof.
  intros Hx Hy Hz. destruct (dec_cases x Hx) as [H|[Hdx Ex]]; [simpl; by rewrite (proj2 (Z.ltb_lt _ _)) by lia|].
  destruct (dec_cases y Hy) as [H|[Hdy Ey]]; [simpl; by rewrite (proj2 (Z.ltb_lt (at_ dec y) _)), orb_true_r by lia|].
  destruct (dec_cases z Hz) as [H|[Hdz Ez]].
  { simpl. rewrite (proj2 (Z.ltb_lt (at_ dec z) _)) by lia. by destruct (_ || _). }
  rewrite decode_tail_3 by done. destruct (Z.eqb_spec (at_ dec z mod 4) 0) as [Hm|]; [|done]. intros [= <-].
  assert (byte (at_ dec x * 4 + at_ dec y / 16) /\ byte (at_ dec y mod 16 * 16 + at_ dec z / 4)) as [Hb1 Hb2]
    by (unfold byte, digit in *; zdm).
  split; [by rewrite !Forall_cons, Forall_nil|]. rewrite encode_2 by done. simpl. f_equal; [|f_equal; [|f_equal]].
  - transitivity (at_ enc (at_ dec x)); [|done]. f_equal. unfold digit in *. zdm.
  - transitivity (at_ enc (at_ dec y)); [|done]. f_equal. unfold digit in *. zdm.
  - transitivity (at_ enc (at_ dec z)); [|done]. f_equal. unfold digit in *. zdm.
Qed.

Lemma encode_decode padding src bs :
  Forall byte src -> decode_groups dec padding src = Some bs ->
  Forall byte bs /\ encode_groups enc padding bs = src.
Proof.
  revert bs. induction src as [|a|a b|a b c|a b c d src IH] using groups4_ind; intros bs Hb;
    rewrite ?Forall_cons in Hb; destruct_and? Hb; [by intros [= <-]|done|..].
  - destruct padding; [done|]. cbn [decode_groups]. intros E.
    destruct (encode_tail_2 false a b bs) as [? ->]; done.
  - destruct padding; [done|]. cbn [decode_groups]. intros E.
    destruct (encode_tail_3 false a b c bs) as [? ->]; done.
  - assert ((at_ dec a < 0 \/ at_ dec b < 0 \/ at_ dec c < 0 \/ at_ dec d < 0) \/
      (digit (at_ dec a) /\ digit (at_ dec b) /\ digit (at_ dec c) /\ digit (at_ dec d)
       /\ at_ enc (at_ dec a) = a /\ at_ enc (at_ dec b) = b /\ at_ enc (at_ dec c) = c /\ at_ enc (at_ dec d) = d))
      as [Hneg|(Ha & Hb & Hc & Hd & Ea & Eb & Ec & Ed)].
    { destruct (dec_cases a), (dec_cases b), (dec_cases c), (dec_cases d); try done; tauto. }
    + rewrite decode_invalid by done. destruct padding; [|done]. cbn [negb orb].
      case_bool_decide; [subst src|done]. destruct (Z.eqb_spec d pad_char); [subst d|done]. cbn [negb orb].
      destruct (Z.eqb_spec c pad_char); [subst c|]; intros E.
      * destruct (encode_tail_2 true a b bs) as [? ->]; done.
      * destruct (encode_tail_3 true a b c bs) as [? ->]; done.
    + rewrite decode_4 by done. destruct (decode_groups dec padding src) as [out|]; [|done].
      intros [= <-]. destruct (IH out) as [Hout Eout]; [done|done|].
      set (x := at_ dec a) in *. set (y := at_ dec b) in *. set (z := at_ dec c) in *. set (w := at_ dec d) in *.
      assert (byte (x * 4 + y / 16) /\ byte (y mod 16 * 16 + z / 4) /\ byte (z mod 4 * 64 + w)) as (? & ? & ?)
        by (unfold byte, digit in *; zdm).
      split; [by rewrite !Forall_cons|]. rewrite encode_3, Eout by done.
      rewrite <-Ea, <-Eb, <-Ec, <-Ed. unfold digit in *. elementwise.
Qed.
End roundtrip.

(** ** Buffer sizes *)

Lemma encode_length enc (padding : bool) src :
  Z.of_nat (length (encode_groups enc padding src)) <= (Z.of_nat (length src) + 2) / 3 * 4
  /\ (padding = true -> Z.of_nat (length (encode_groups enc padding src)) = (Z.of_nat (length src) + 2) / 3 * 4).
Proof.
  induction src as [|a|a b|a b c src IH] using groups3_ind; [simpl; zdm|destruct padding; simpl; zdm..|].
  cbn [encode_groups length]. destruct IH as [IH1 IH2].
  assert ((Z.of_nat (S (S (S (length src)))) + 2) / 3 = (Z.of_nat (length src) + 2) / 3 + 1) as -> by zdm.
  split; [lia|]. intros Hp. specialize (IH2 Hp). lia.
Qed.

Lemma encode_size_exact n : 0 <= n -> (n + 2) / 3 * 4 < 2 ^ 31 -> xylem_base64_encode_size n = (n + 2) / 3 * 4.
Proof.
  intros Hn Hb. unfold xylem_base64_encode_size. rewrite (i32_small (n + 2)) by zdm.
  rewrite Z.quot_div_nonneg by lia. apply i32_small. zdm.
Qed.
Lemma decode_size_exact n : 0 <= n -> n + 3 < 2 ^ 31 -> xylem_base64_decode_size n = (n + 3) / 4 * 3.
Proof.
  intros Hn Hb. unfold xylem_base64_decode_size. rewrite (i32_small (n + 3)) by lia.
  rewrite Z.quot_div_nonneg by lia. apply i32_small. zdm.
Qed.

(** C23 With a destination of [xylem_base64_encode_size] bytes the encoder
    succeeds, writes no more than that (with padding exactly that), and decoding
    what it wrote, with the same alphabet and padding mode, returns the input. *)
Theorem base64_roundtrip enc dec `{!Alphabet enc dec} padding src dlen dlen' :
  Forall byte src -> (Z.of_nat (length src) + 2) / 3 * 4 < 2 ^ 31 - 3 ->
  xylem_base64_encode_size (Z.of_nat (length src)) <= dlen ->
  xylem_base64_decode_size (xylem_base64_encode_size (Z.of_nat (length src))) <= dlen' ->
  exists out, _base64_encode src dlen enc padding = Some out
    /\ Z.of_nat (length out) <= xylem_base64_encode_size (Z.of_nat (length src))
    /\ (padding = true -> Z.of_nat (length out) = xylem_base64_encode_size (Z.of_nat (length src)))
    /\ _base64_decode out dlen' dec padding = Some src.
Proof.
  intros Hb Hn Hd Hd'. destruct (encode_length enc padding src) as [Hl1 Hl2].
  rewrite encode_size_exact in * by lia. rewrite decode_size_exact in Hd' by zdm.
  exists (encode_groups enc padding src). unfold _base64_encode, _base64_decode.
  rewrite encode_size_exact, decode_size_exact by lia.
  rewrite !(proj2 (Z.ltb_ge _ _)), decode_encode by (done || zdm). split_and!; done || lia.
Qed.

(** C34 The decoder accepts only canonical input: whatever it decodes is exactly
    the encoding of its result, so wrong padding, foreign characters, stray bits
    in the last character and truncated input are all rejected. *)
Theorem base64_canonical enc dec `{!Alphabet enc dec} padding src dlen bs :
  Forall byte src -> _base64_decode src dlen dec padding = Some bs ->
  Forall byte bs /\ encode_groups enc padding bs = src.
Proof.
  intros Hb. unfold _base64_decode. destruct (_ <? _); [done|]. by apply encode_decode.
Qed.

Lemma base64_roundtrip_witness :
  exists out, xylem_base64_encode_std [104; 105; 33; 10] 8 = Some out
    /\ xylem_base64_decode_std out 6 = Some [104; 105; 33; 10].
Proof.
  destruct (base64_roundtrip _b64_enc_std _b64_dec_std true [104; 105; 33; 10] 8 6) as (out & E1 & _ & _ & E2).
  - by apply (bool_decide_unpack _).
  - done.
  - done.
  - done.
  - by exists out.
Defined.
Lemma base64_canonical_witness :
  Forall byte [104; 105] /\ encode_groups _b64_enc_url false [104; 105] = chars "aGk".
Proof.
  apply (base64_canonical _b64_enc_url _b64_dec_url false (chars "aGk") 3 [104; 105]).
  - by apply (bool_decide_unpack _).
  - done.
Defined.
