(* ===== verification/Varint.v ===== *)
(** * Variable-length integers (src/encoding/xylem-varint.c)

    A buffer is the list of its bytes, so [bufsize] is its length; a null buffer
    or position pointer is [None].  The result is the returned flag, the buffer
    (which a failing encoder may have partly written) and the position. *)

From S2P Require Import Prelude.

(** The [while] loop of the encoder: [Some] position and remaining value when it
    is left normally, [None] when the buffer is full.  A 64-bit value is shifted
    at most nine times. *)
Fixpoint encode_loop (fuel : nat) (value : Z) (buf : list Z) (write_pos : Z) : option (option (Z * Z) * list Z) :=
  if 0x7f <? value then
    match fuel with
    | O => None
    | S fuel =>
        if Z.of_nat (length buf) <=? write_pos then Some (None, buf)
        else encode_loop fuel (Z.shiftr value 7)
               (<[Z.to_nat write_pos := u8 (Z.lor (Z.land value 0x7f) 0x80)]> buf) (write_pos + 1)
    end
  else Some (Some (write_pos, value), buf).

Definition xylem_varint_encode (value : Z) (buf : option (list Z)) (pos : option Z) :
    option (bool * option (list Z) * option Z) :=
  match buf with
  | None => Some (false, buf, pos)
  | Some b =>
      let bufsize := Z.of_nat (length b) in
      if bufsize =? 0 then Some (false, buf, pos)
      else
        let write_pos := default 0 pos in
        if bufsize <? write_pos then Some (false, buf, pos)
        else
          match encode_loop 10 value b write_pos with
          | None => None
          | Some (None, b) => Some (false, Some b, pos)
          | Some (Some (write_pos, value), b) =>
              if bufsize <=? write_pos then Some (false, Some b, pos)
              else
                Some (true, Some (<[Z.to_nat write_pos := u8 value]> b),
                      match pos with Some _ => Some (write_pos + 1) | None => None end)
          end
  end.

(** The loop of the decoder, with [Some (value, p)] on success. *)
Fixpoint decode_loop (fuel : nat) (buf : list Z) (p value shift : Z) : option (option (Z * Z)) :=
  match fuel with
  | O => None
  | S fuel =>
      if Z.of_nat (length buf) <=? p then Some None
      else
        let byte := nth (Z.to_nat p) buf 0 in
        let p := p + 1 in
        if (shift =? 63) && (1 <? Z.land byte 0x7f) then Some None
        else if 63 <? shift then Some None
        else
          let value := Z.lor value (u64 (Z.shiftl (Z.land byte 0x7f) shift)) in
          if Z.land byte 0x80 =? 0 then Some (Some (value, p))
          else decode_loop fuel buf p value (shift + 7)
  end.

(** [pos] is the position pointer; the result is the flag, the new position and
    the decoded value. *)
Definition xylem_varint_decode (buf : option (list Z)) (pos : option Z) : option (bool * option Z * option Z) :=
  match buf, pos with
  | Some b, Some p0 =>
      if Z.of_nat (length b) <=? p0 then Some (false, pos, None)
      else
        match decode_loop 11 b p0 0 0 with
        | None => None
        | Some None => Some (false, pos, None)
        | Some (Some (value, p)) => Some (true, Some p, Some value)
        end
  | _, _ => Some (false, pos, None)
  end.

Fixpoint compute_loop (fuel : nat) (value size : Z) : option Z :=
  if 0x7f <? value then
    match fuel with O => None | S fuel => compute_loop fuel (Z.shiftr value 7) (size + 1) end
  else Some size.
Definition xylem_varint_compute (value : Z) : option Z := compute_loop 10 value 1.

(** ** Specification: little-endian groups of seven bits *)

Fixpoint groups (fuel : nat) (v : Z) : list Z :=
  match fuel with
  | O => [v]
  | S fuel => if v <? 128 then [v] else v mod 128 + 128 :: groups fuel (v / 128)
  end.
(** Ten groups hold 70 bits. *)
Definition varint (v : Z) : list Z := groups 9 v.

Lemma groups_nil k v : groups k v <> [].
Proof. destruct k; simpl; [done|]. by destruct (v <? 128). Qed.

(** One turn of the encoder's loop. *)
Lemma encode_turn k v pre o post :
  128 <= v ->
  encode_loop (S k) v (pre ++ o :: post) (Z.of_nat (length pre))
  = encode_loop k (v / 128) ((pre ++ [v mod 128 + 128]) ++ post) (Z.of_nat (length (pre ++ [v mod 128 + 128]))).
Proof.
  intros Hv. cbn [encode_loop]. rewrite (proj2 (Z.ltb_lt _ _)) by lia.
  rewrite (proj2 (Z.leb_gt _ _)) by (rewrite !length_app; simpl; lia).
  rewrite Nat2Z.id, insert_app_r_alt, Nat.sub_diag by lia. simpl (<[0%nat:=_]> _).
  pose proof (lor_shiftl_add 1 7 (v mod 128)) as E. change (Z.shiftl 1 7) with 128 in E.
  rewrite land_0x7f, Z.lor_comm, E, uwrap_small, shiftr_div by (unfold ubound; zdm).
  replace (1 * 2 ^ 7 + v mod 128) with (v mod 128 + 128) by lia.
  rewrite <-app_assoc, length_app. f_equal. simpl. lia.
Qed.

(** The encoder, loop and last byte, overwrites exactly the bytes of the groups. *)
Lemma encode_loop_ok k : forall v pre old post,
  0 <= v < 128 ^ (Z.of_nat k + 1) -> length old = length (groups k v) ->
  exists front w last, encode_loop (S k) v (pre ++ old ++ post) (Z.of_nat (length pre))
      = Some (Some (Z.of_nat (length pre + length front), w), pre ++ front ++ last :: post)
    /\ 0 <= w < 128 /\ groups k v = front ++ [w].
Proof.
  induction k as [|k IH]; intros v pre old post Hv Hlen.
  - simpl in *. destruct old as [|o [|]]; try done. exists [], v, o.
    rewrite (proj2 (Z.ltb_ge _ _)) by lia. rewrite Nat.add_0_r. split_and!; done || lia.
  - cbn [groups] in *. destruct (Z.ltb_spec v 128).
    { destruct old as [|o [|]]; try done. exists [], v, o. simpl. rewrite (proj2 (Z.ltb_ge _ _)) by lia.
      rewrite Nat.add_0_r. split_and!; done || lia. }
    destruct old as [|o old]; [done|]. injection Hlen as Hlen.
    destruct (IH (v / 128) (pre ++ [v mod 128 + 128]) old post) as (front & w & lst & E & Hw & Eg); [|done|].
    { rewrite Nat2Z.inj_succ in Hv. replace (Z.succ (Z.of_nat k) + 1) with (Z.succ (Z.of_nat k + 1)) in Hv by lia.
      rewrite Z.pow_succ_r in Hv by lia. zdm. }
    exists (v mod 128 + 128 :: front), w, lst. split_and!; [|lia..|by rewrite Eg].
    change ((o :: old) ++ post) with (o :: old ++ post). rewrite encode_turn by done.
    etrans; [exact E|]. rewrite length_app, <-app_assoc. simpl. do 4 f_equal. lia.
Qed.

(** The number of groups is what [xylem_varint_compute] counts. *)
Lemma compute_loop_ok k : forall v size,
  0 <= v < 128 ^ (Z.of_nat k + 1) ->
  compute_loop (S k) v size = Some (size + Z.of_nat (length (groups k v)) - 1).
Proof.
  induction k as [|k IH]; intros v size Hv; cbn [compute_loop groups].
  - rewrite (proj2 (Z.ltb_ge _ _)) by (simpl in *; lia). simpl. f_equal. lia.
  - destruct (Z.ltb_spec v 128).
    + rewrite (proj2 (Z.ltb_ge _ _)) by lia. simpl. f_equal. lia.
    + rewrite (proj2 (Z.ltb_lt _ _)), shiftr_div by lia. change (2 ^ 7) with 128.
      assert (0 <= v / 128 < 128 ^ (Z.of_nat k + 1)) as Hv'.
      { rewrite Nat2Z.inj_succ in Hv. replace (Z.succ (Z.of_nat k) + 1) with (Z.succ (Z.of_nat k + 1)) in Hv by lia.
        rewrite Z.pow_succ_r in Hv by lia. zdm. }
      etrans; [apply (IH (v / 128) (size + 1) Hv')|]. cbn [length]. f_equal. lia.
Qed.

Lemma land_0x80 b : byte b -> (Z.land b 0x80 =? 0) = (b <? 128).
Proof.
  intros Hb. apply eqb_prop.
  apply (forallbZ_spec 256 (fun b => Bool.eqb (Z.land b 0x80 =? 0) (b <? 128))); [by vm_compute|exact Hb].
Qed.

(** One turn of the decoder's loop. *)
Lemma decode_turn fuel pre b post value shift :
  byte b -> 0 <= value < 2 ^ shift -> 0 <= shift <= 63 -> b mod 128 * 2 ^ shift < 2 ^ 64 ->
  decode_loop (S fuel) (pre ++ b :: post) (Z.of_nat (length pre)) value shift
  = let value := value + b mod 128 * 2 ^ shift in
    if b <? 128 then Some (Some (value, Z.of_nat (length pre + 1)))
    else decode_loop fuel (pre ++ b :: post) (Z.of_nat (length pre + 1)) value (shift + 7).
Proof.
  intros Hb Hval Hs Hfit. cbn [decode_loop].
  rewrite (proj2 (Z.leb_gt _ _)) by (rewrite !length_app; simpl; lia).
  rewrite Nat2Z.id, nth_middle, land_0x7f, land_0x80 by done.
  replace ((shift =? 63) && (1 <? b mod 128)) with false.
  2: { symmetry. apply andb_false_iff. destruct (Z.eqb_spec shift 63) as [->|]; [right|by left].
       apply Z.ltb_ge. lia. }
  rewrite (proj2 (Z.ltb_ge 63 shift)) by lia. rewrite uwrap_small, Z.lor_comm, lor_shiftl_add.
  2,3: lia.
  2: { unfold ubound. rewrite Z.shiftl_mul_pow2 by lia. split; [|done].
       apply Z.mul_nonneg_nonneg; [zdm|]. apply Z.pow_nonneg. lia. }
  replace (Z.of_nat (length pre) + 1) with (Z.of_nat (length pre + 1)) by lia.
  rewrite (Z.add_comm (_ * _)). done.
Qed.

(** The decoder reads groups wherever they are in the buffer. *)
Lemma decode_loop_ok k : forall v value shift pre post,
  0 <= v < 128 ^ (Z.of_nat k + 1) -> 0 <= value < 2 ^ shift -> 0 <= shift <= 63 ->
  v * 2 ^ shift < 2 ^ 64 ->
  decode_loop (S (S k)) (pre ++ groups k v ++ post) (Z.of_nat (length pre)) value shift
  = Some (Some (value + v * 2 ^ shift, Z.of_nat (length pre + length (groups k v)))).
Proof.
  assert (forall fuel v value shift pre post, 0 <= v < 128 -> 0 <= value < 2 ^ shift -> 0 <= shift <= 63 ->
    v * 2 ^ shift < 2 ^ 64 ->
    decode_loop (S fuel) (pre ++ [v] ++ post) (Z.of_nat (length pre)) value shift
    = Some (Some (value + v * 2 ^ shift, Z.of_nat (length pre + length [v])))) as Hlast.
  { intros fuel v value shift pre post Hv Hval Hs Hb. simpl app.
    rewrite decode_turn; rewrite ?(Z.mod_small v 128) by lia; [|unfold byte; lia|done|done|done].
    cbv zeta. by rewrite (proj2 (Z.ltb_lt _ _)) by lia. }
  induction k as [|k IH]; intros v value shift pre post Hv Hval Hs Hb; [by apply Hlast|].
  cbn [groups]. destruct (Z.ltb_spec v 128); [apply Hlast; done || lia|].
  assert (2 ^ shift > 0) as Hpow by (pose proof (Z.pow_pos_nonneg 2 shift); lia).
  assert (2 ^ (shift + 7) = 128 * 2 ^ shift) as Hpow7 by (rewrite Z.pow_add_r by lia; lia).
  assert (v = v mod 128 + 128 * (v / 128)) as Hdm by zdm.
  assert (0 <= v mod 128 < 128 /\ 1 <= v / 128) as [Hm Hq] by zdm.
  assert ((v mod 128 + 128) mod 128 = v mod 128) as Hmm by zdm.
  simpl app. rewrite decode_turn; rewrite ?Hmm; [|unfold byte; lia|lia|lia|nia].
  cbv zeta. rewrite (proj2 (Z.ltb_ge _ _)) by lia.
  pose proof (IH (v / 128) (value + v mod 128 * 2 ^ shift) (shift + 7) (pre ++ [v mod 128 + 128]) post) as E.
  rewrite <-app_assoc, length_app in E. simpl app in E. change (length [v mod 128 + 128]) with 1%nat in E. rewrite E.
  - do 3 f_equal; [rewrite Hpow7; nia|]. simpl. lia.
  - rewrite Nat2Z.inj_succ in Hv. replace (Z.succ (Z.of_nat k) + 1) with (Z.succ (Z.of_nat k + 1)) in Hv by lia.
    rewrite Z.pow_succ_r in Hv by lia. lia.
  - rewrite Hpow7. nia.
  - split; [lia|]. destruct (Z.le_gt_cases (shift + 7) 63); [done|].
    assert (2 ^ 64 <= 2 ^ (shift + 7)) by (apply Z.pow_le_mono_r; lia). nia.
  - rewrite Hpow7. nia.
Qed.

(** C24 Encoding a 64-bit value where [xylem_varint_compute] bytes are free
    writes exactly those bytes, advances the position past them, and decoding from
    the old position returns the value and the new position. *)
Theorem varint_roundtrip v pre old post :
  0 <= v < 2 ^ 64 -> xylem_varint_compute v = Some (Z.of_nat (length old)) ->
  exists new, length new = length old
    /\ xylem_varint_encode v (Some (pre ++ old ++ post)) (Some (Z.of_nat (length pre)))
       = Some (true, Some (pre ++ new ++ post), Some (Z.of_nat (length (pre ++ new))))
    /\ xylem_varint_decode (Some (pre ++ new ++ post)) (Some (Z.of_nat (length pre)))
       = Some (true, Some (Z.of_nat (length (pre ++ new))), Some v).
Proof.
  intros Hv Hc. assert (0 <= v < 128 ^ (Z.of_nat 9 + 1)) as Hv9 by (change (128 ^ (Z.of_nat 9 + 1)) with (2 ^ 70); lia).
  unfold xylem_varint_compute in Hc. rewrite (compute_loop_ok 9 v 1 Hv9) in Hc.
  assert (length old = length (varint v)) as Hlen by (unfold varint; apply (inj Some) in Hc; lia).
  assert (length (varint v) <> 0%nat) as Hne by (pose proof (groups_nil 9 v); unfold varint; by destruct (groups 9 v)).
  exists (varint v). split; [done|]. split.
  - unfold xylem_varint_encode. rewrite (proj2 (Z.eqb_neq _ _)) by (rewrite !length_app; lia).
    simpl default. rewrite (proj2 (Z.ltb_ge _ _)) by (rewrite !length_app; lia).
    destruct (encode_loop_ok 9 v pre old post Hv9 Hlen) as (front & w & last & E & Hw & Eg). rewrite E.
    fold (varint v) in Eg. rewrite Eg, !length_app in *. simpl in Hlen.
    rewrite (proj2 (Z.leb_gt _ _)) by (simpl; lia).
    rewrite Nat2Z.id, app_assoc, <-length_app, insert_app_r_alt, Nat.sub_diag by lia. simpl (<[0%nat:=_]> _).
    rewrite uwrap_small, <-!app_assoc by (unfold ubound; lia). do 3 f_equal. simpl. rewrite length_app. lia.
  - unfold xylem_varint_decode. rewrite (proj2 (Z.leb_gt _ _)) by (rewrite !length_app; lia).
    unfold varint. rewrite (decode_loop_ok 9 v 0 0 pre (post)) by (done || lia). rewrite length_app.
    do 3 f_equal. lia.
Qed.

Lemma decode_loop_safe fuel : forall buf p value j v p',
  0 <= p -> 0 <= j <= 10 -> 0 <= value < 2 ^ Z.min (7 * j) 64 ->
  decode_loop fuel buf p value (7 * j) = Some (Some (v, p')) ->
  0 <= v < 2 ^ 64 /\ p < p' <= p + (10 - j) /\ p' <= Z.of_nat (length buf).
Proof.
  induction fuel as [|fuel IH]; intros buf p value j v p' Hp Hj Hval; cbn [decode_loop]; [done|].
  destruct (Z.leb_spec (Z.of_nat (length buf)) p); [done|].
  set (b := nth (Z.to_nat p) buf 0). rewrite land_0x7f.
  destruct (_ && _) eqn:E63; [done|]. destruct (Z.ltb_spec 63 (7 * j)); [done|].
  rewrite Z.min_l in Hval by lia. assert (0 <= b mod 128 < 128) as Hm by zdm.
  assert (2 ^ (7 * j) > 0) as Hpow by (pose proof (Z.pow_pos_nonneg 2 (7 * j)); lia).
  assert (2 ^ (7 * (j + 1)) = 128 * 2 ^ (7 * j)) as Hpow7
    by (replace (7 * (j + 1)) with (7 * j + 7) by lia; rewrite Z.pow_add_r by lia; lia).
  assert (value + b mod 128 * 2 ^ (7 * j) < 2 ^ Z.min (7 * (j + 1)) 64) as Hnew.
  { destruct (decide (j = 9)) as [->|].
    - change (Z.min (7 * (9 + 1)) 64) with 64. change (7 * 9 =? 63) with true in E63. cbn [andb] in E63.
      apply Z.ltb_ge in E63. change (7 * 9) with 63 in *. nia.
    - rewrite Z.min_l by lia. rewrite Hpow7. nia. }
  assert (2 ^ Z.min (7 * (j + 1)) 64 <= 2 ^ 64) as Hle by (apply Z.pow_le_mono_r; lia).
  rewrite uwrap_small, Z.lor_comm, lor_shiftl_add by (unfold ubound; rewrite ?Z.shiftl_mul_pow2 by lia; nia).
  destruct (Z.land b 128 =? 0).
  - intros [= <- <-]. nia.
  - replace (7 * j + 7) with (7 * (j + 1)) by lia. intros E.
    apply IH in E; [lia|lia|lia|nia].
Qed.

(** C35 Whatever the bytes, the decoder terminates, reads only inside the buffer,
    consumes between one and ten bytes when it succeeds, and then delivers a value
    of 64 bits; when it fails it leaves the position alone. *)
Theorem varint_decode_safe buf pos :
  exists ok pos' v, xylem_varint_decode buf pos = Some (ok, pos', v)
    /\ match ok with
       | true => exists b p p' x, buf = Some b /\ pos = Some p /\ pos' = Some p' /\ v = Some x
           /\ (0 <= p -> 0 <= x < 2 ^ 64 /\ p < p' <= p + 10 /\ p' <= Z.of_nat (length b))
       | false => pos' = pos /\ v = None
       end.
Proof.
  unfold xylem_varint_decode. destruct buf as [b|]; [|by exists false, pos, None].
  destruct pos as [p|]; [|by exists false, None, None].
  destruct (_ <=? p); [by exists false, (Some p), None|].
  assert (forall fuel p value j, 0 <= j <= 10 -> 10 - j < Z.of_nat fuel ->
    is_Some (decode_loop fuel b p value (7 * j))) as Hterm.
  { induction fuel as [|fuel IH]; intros q value j Hj Hf; [lia|]. cbn [decode_loop].
    destruct (_ <=? q); [done|]. destruct (_ && _); [done|]. destruct (Z.ltb_spec 63 (7 * j)); [done|].
    destruct (_ =? 0); [done|]. replace (7 * j + 7) with (7 * (j + 1)) by lia. apply IH; lia. }
  destruct (Hterm 11%nat p 0 0) as [o E]; [lia|lia|]. change (7 * 0) with 0 in E. rewrite E.
  destruct o as [[v p']|]; [|by exists false, (Some p), None].
  exists true, (Some p'), (Some v). split; [done|]. exists b, p, p', v. split_and!; try done.
  intros Hp. apply (decode_loop_safe 11 b p 0 0 v p'); [done|lia|done|exact E].
Qed.

Lemma varint_roundtrip_witness :
  xylem_varint_compute 300 = Some 2
  /\ exists new, length new = 2%nat
    /\ xylem_varint_encode 300 (Some [7; 0; 0; 9]) (Some 1) = Some (true, Some (7 :: new ++ [9]), Some 3)
    /\ xylem_varint_decode (Some (7 :: new ++ [9])) (Some 1) = Some (true, Some 3, Some 300).
Proof.
  split; [done|]. destruct (varint_roundtrip 300 [7] [0; 0] [9]) as (new & Hl & E1 & E2); [lia|done|].
  exists new. simpl in *. rewrite Hl in E1, E2. done.
Defined.
