(* ===== verification/Url.v ===== *)
(** * Percent-encoding (src/encoding/xylem-url.c)

    [src] is the input, [None] for a null pointer; [dst] is the size of the
    destination, [None] for a null pointer.  A result of [-1] is [None], any other
    is the list of bytes written. *)

From S2P Require Import Prelude.

Definition INT_MAX : Z := 2 ^ 31 - 1.

Definition _hex : list Z := chars "0123456789ABCDEF".

(** The hex value plus one; 0 means invalid. *)
Definition _hex_table (c : Z) : Z :=
  if (48 <=? c) && (c <=? 57) then c - 48 + 1
  else if (65 <=? c) && (c <=? 70) then c - 65 + 11
  else if (97 <=? c) && (c <=? 102) then c - 97 + 11
  else 0.

(** RFC 3986 unreserved. *)
Definition _unreserved (c : Z) : bool :=
  bool_decide (c ∈ chars "ABCDEFGHIJKLMNOPQRSTUVWXYZabcdefghijklmnopqrstuvwxyz0123456789-._~").

Definition percent : Z := 37.

Definition xylem_url_encode_size (slen : Z) : Z :=
  if (slen <? 0) || (Z.quot INT_MAX 3 <? slen) then -1 else slen * 3.
Definition xylem_url_decode_size (slen : Z) : Z := slen.

Fixpoint encode_bytes (src : list Z) : list Z :=
  match src with
  | [] => []
  | c :: src =>
      (if _unreserved c then [c]
       else [percent; nth (Z.to_nat (Z.shiftr c 4)) _hex 0; nth (Z.to_nat (Z.land c 0x0f)) _hex 0])
      ++ encode_bytes src
  end.

Definition xylem_url_encode (src : option (list Z)) (dst : option Z) : option (list Z) :=
  match src, dst with
  | Some s, Some dlen =>
      let slen := Z.of_nat (length s) in
      if (slen <? 0) || (Z.quot INT_MAX 3 <? slen) || (dlen <? slen * 3) then None
      else Some (encode_bytes s)
  | _, _ => None
  end.

Fixpoint decode_bytes (src : list Z) : list Z :=
  match src with
  | [] => []
  | c :: rest =>
      match rest with
      | h :: l :: rest' =>
          if c =? percent then
            let hi := _hex_table h in
            let lo := _hex_table l in
            if negb (hi =? 0) && negb (lo =? 0)
            then u8 (Z.lor (Z.shiftl (hi - 1) 4) (lo - 1)) :: decode_bytes rest'
            else c :: decode_bytes rest
          else c :: decode_bytes rest
      | _ => c :: decode_bytes rest
      end
  end.

Definition xylem_url_decode (src : option (list Z)) (dst : option Z) : option (list Z) :=
  match src, dst with
  | Some s, Some dlen =>
      let slen := Z.of_nat (length s) in
      if (slen <? 0) || (dlen <? slen) then None else Some (decode_bytes s)
  | _, _ => None
  end.

(** ** Round trip *)

(** A byte that is neither unreserved nor a percent sign does not occur in an
    encoding; a percent sign starts an escape of two upper-case hex digits. *)
Lemma escape_ok c : byte c ->
  let h := nth (Z.to_nat (Z.shiftr c 4)) _hex 0 in
  let l := nth (Z.to_nat (Z.land c 0x0f)) _hex 0 in
  _unreserved h = true /\ _unreserved l = true /\ _hex_table h <> 0 /\ _hex_table l <> 0
  /\ u8 (Z.lor (Z.shiftl (_hex_table h - 1) 4) (_hex_table l - 1)) = c.
Proof.
  intros Hc. cbv zeta.
  pose (f c := let h := nth (Z.to_nat (Z.shiftr c 4)) _hex 0 in
               let l := nth (Z.to_nat (Z.land c 0x0f)) _hex 0 in
               _unreserved h && _unreserved l && negb (_hex_table h =? 0) && negb (_hex_table l =? 0)
               && (u8 (Z.lor (Z.shiftl (_hex_table h - 1) 4) (_hex_table l - 1)) =? c)).
  assert (f c = true) as H by (apply (forallbZ_spec 256 f); [by vm_compute|exact Hc]).
  unfold f in H. rewrite !andb_true_iff, !negb_true_iff, !Z.eqb_neq, Z.eqb_eq in H. tauto.
Qed.

Lemma percent_reserved : _unreserved percent = false.
Proof. by vm_compute. Qed.

Lemma decode_plain c rest : c <> percent -> decode_bytes (c :: rest) = c :: decode_bytes rest.
Proof.
  intros Hc. cbn [decode_bytes]. rewrite (proj2 (Z.eqb_neq _ _)) by done. by destruct rest as [|? [|]].
Qed.

Lemma decode_encode_bytes src : Forall byte src -> decode_bytes (encode_bytes src) = src.
Proof.
  induction 1 as [|c src Hc H IH]; [done|]. cbn [encode_bytes]. destruct (_unreserved c) eqn:E; cbn [app].
  - rewrite decode_plain, IH; [done|]. intros ->. by rewrite percent_reserved in E.
  - destruct (escape_ok c Hc) as (_ & _ & Hh & Hl & Ev). cbv zeta in *.
    cbn [decode_bytes]. rewrite Z.eqb_refl, !(proj2 (Z.eqb_neq _ _)) by done. cbn [negb andb]. by rewrite Ev, IH.
Qed.

Lemma encode_bytes_length src : (length src <= length (encode_bytes src) <= 3 * length src)%nat.
Proof.
  induction src as [|c src IH]; [simpl; lia|]. cbn [encode_bytes]. rewrite length_app.
  destruct (_unreserved c); simpl length; lia.
Qed.

Lemma encode_bytes_safe src : Forall byte src ->
  Forall (fun c => _unreserved c = true \/ c = percent) (encode_bytes src).
Proof.
  induction 1 as [|c src Hc H IH]; [done|]. cbn [encode_bytes]. apply Forall_app. split; [|done].
  destruct (_unreserved c) eqn:E; [by apply Forall_singleton; left|].
  destruct (escape_ok c Hc) as (Hh & Hl & _). rewrite !Forall_cons. split_and!; auto.
Qed.

(** C36 With a destination of [xylem_url_encode_size] bytes the encoder succeeds,
    writes only unreserved characters and percent escapes, never more than that
    many, and decoding the output gives back the input. *)
Theorem url_roundtrip src dlen :
  Forall byte src -> 0 <= xylem_url_encode_size (Z.of_nat (length src)) <= dlen ->
  exists out, xylem_url_encode (Some src) (Some dlen) = Some out
    /\ Forall (fun c => _unreserved c = true \/ c = percent) out
    /\ Z.of_nat (length out) <= xylem_url_encode_size (Z.of_nat (length src))
    /\ forall dlen', xylem_url_decode_size (Z.of_nat (length out)) <= dlen' ->
         xylem_url_decode (Some out) (Some dlen') = Some src.
Proof.
  unfold xylem_url_encode_size, xylem_url_encode, xylem_url_decode_size, xylem_url_decode. intros Hb Hs.
  destruct (_ || _) eqn:E; [lia|]. exists (encode_bytes src).
  pose proof (encode_bytes_length src) as Hl. rewrite (proj2 (Z.ltb_ge dlen _)) by lia. simpl.
  split_and!; [done|by apply encode_bytes_safe|lia|].
  intros dlen' Hd. rewrite (proj2 (Z.ltb_ge _ 0)), (proj2 (Z.ltb_ge dlen' _)) by lia. simpl.
  by rewrite decode_encode_bytes.
Qed.

Lemma url_roundtrip_witness :
  exists out, xylem_url_encode (Some (chars "a b%41")) (Some 18) = Some out
    /\ xylem_url_decode (Some out) (Some 18) = Some (chars "a b%41").
Proof.
  destruct (url_roundtrip (chars "a b%41") 18) as (out & E & _ & Hl & H).
  - by apply (bool_decide_unpack _).
  - done.
  - exists out. split; [exact E|]. apply H. exact Hl.
Defined.
