(* ===== verification/Bswap.v ===== *)
(** * Byte order (src/encoding/xylem-bswap.c)

    A [float] or [double] is its bit pattern, which is all the [memcpy]s of the
    code see. *)

From S2P Require Import Prelude.

Definition xylem_bswap_u16 (val : Z) : Z := u16 (Z.lor (Z.shiftl val 8) (Z.shiftr val 8)).

Definition xylem_bswap_u32 (val : Z) : Z :=
  Z.lor (Z.lor (Z.lor (Z.land (u32 (Z.shiftl val 24)) 0xFF000000) (Z.land (u32 (Z.shiftl val 8)) 0x00FF0000))
               (Z.land (Z.shiftr val 8) 0x0000FF00))
        (Z.land (Z.shiftr val 24) 0x000000FF).

Definition xylem_bswap_u64 (val : Z) : Z :=
  Z.lor (Z.lor (Z.lor (Z.lor (Z.lor (Z.lor (Z.lor
    (Z.land (u64 (Z.shiftl val 56)) 0xFF00000000000000)
    (Z.land (u64 (Z.shiftl val 40)) 0x00FF000000000000))
    (Z.land (u64 (Z.shiftl val 24)) 0x0000FF0000000000))
    (Z.land (u64 (Z.shiftl val 8)) 0x000000FF00000000))
    (Z.land (Z.shiftr val 8) 0x00000000FF000000))
    (Z.land (Z.shiftr val 24) 0x0000000000FF0000))
    (Z.land (Z.shiftr val 40) 0x000000000000FF00))
    (Z.land (Z.shiftr val 56) 0x00000000000000FF).

Definition xylem_bswap_i16 (val : Z) : Z := swrap 16 (xylem_bswap_u16 (u16 val)).
Definition xylem_bswap_i32 (val : Z) : Z := swrap 32 (xylem_bswap_u32 (u32 val)).
Definition xylem_bswap_i64 (val : Z) : Z := swrap 64 (xylem_bswap_u64 (u64 val)).
Definition xylem_bswap_f32 (bits : Z) : Z := xylem_bswap_u32 bits.
Definition xylem_bswap_f64 (bits : Z) : Z := xylem_bswap_u64 bits.

(** ** Words as byte sequences, least significant first *)

Fixpoint word (bs : list Z) : Z := match bs with [] => 0 | b :: bs => b + 256 * word bs end.

(** A byte of a word, masked in place after a shift. *)
Lemma land_byte v k : 0 <= k -> Z.land v (Z.shiftl 255 k) = Z.shiftl ((v / 2 ^ k) mod 256) k.
Proof.
  intros Hk. rewrite <-Z.shiftr_div_pow2, <-land_0xff by done.
  rewrite Z.shiftl_land, <-(Z.ldiff_ones_r v k) by done.
  apply Z.bits_inj'. intros i Hi. rewrite !Z.land_spec, Z.ldiff_spec.
  destruct (decide (i < k)); [rewrite Z.shiftl_spec_low by lia; by rewrite !andb_false_r|].
  rewrite (Z.testbit_ones_nonneg k i), (proj2 (Z.ltb_ge i k)) by lia. simpl. by rewrite andb_true_r.
Qed.

(** The byte at position [k] of a word is moved to position [j]. *)
Lemma shift_up w v k j : 0 <= j - k -> 0 <= k -> j + 8 <= w ->
  Z.land (uwrap w (Z.shiftl v (j - k))) (Z.shiftl 255 j) = (v / 2 ^ k) mod 256 * 2 ^ j.
Proof.
  intros H1 H2 H3. rewrite land_byte, Z.shiftl_mul_pow2 by lia. f_equal.
  unfold uwrap. rewrite Z.shiftl_mul_pow2 by lia.
  assert (2 ^ j = 2 ^ (j - k) * 2 ^ k) as E1 by (rewrite <-Z.pow_add_r by lia; f_equal; lia).
  assert (2 ^ w = 2 ^ j * 2 ^ (w - j)) as E2 by (rewrite <-Z.pow_add_r by lia; f_equal; lia).
  assert (0 < 2 ^ j /\ 0 < 2 ^ (j - k) /\ 0 < 2 ^ k) as (Hp1 & Hp2 & Hp3) by (split_and!; apply Z.pow_pos_nonneg; lia).
  rewrite E2. rewrite Z.rem_mul_r by (try apply Z.pow_nonzero; lia).
  rewrite (Z.mul_comm (2 ^ j)), Z.div_add by lia. rewrite (Z.div_small (_ mod 2 ^ j)) by (apply Z.mod_pos_bound; lia).
  rewrite Z.add_0_l. rewrite E1 at 1. rewrite (Z.mul_comm v), Z.div_mul_cancel_l by lia.
  assert (2 ^ (w - j) = 256 * 2 ^ (w - j - 8)) as -> by (rewrite <-(Z.pow_add_r 2 8) by lia; f_equal; lia).
  rewrite Z.rem_mul_r by (try apply Z.pow_nonzero; lia).
  rewrite Z.mul_comm, Z.mod_add by lia. apply Z.mod_mod. lia.
Qed.
Lemma shift_down v k j : 0 <= k - j -> 0 <= j ->
  Z.land (Z.shiftr v (k - j)) (Z.shiftl 255 j) = (v / 2 ^ k) mod 256 * 2 ^ j.
Proof.
  intros H1 H2. rewrite land_byte, Z.shiftl_mul_pow2, Z.shiftr_div_pow2 by lia. do 2 f_equal.
  rewrite Z.div_div by (try apply Z.pow_nonzero; try apply Z.pow_pos_nonneg; lia). f_equal.
  rewrite <-Z.pow_add_r by lia. f_equal. lia.
Qed.

Lemma bswap_u16_word a b : byte a -> byte b -> xylem_bswap_u16 (word [a; b]) = word [b; a].
Proof.
  unfold byte. intros Ha Hb. unfold xylem_bswap_u16, word.
  rewrite lor_shiftl_add by (rewrite ?shiftr_div by lia; zdm). rewrite shiftr_div by lia. unfold uwrap. zdm.
Qed.

Lemma bswap_u32_word a b c d : byte a -> byte b -> byte c -> byte d ->
  xylem_bswap_u32 (word [a; b; c; d]) = word [d; c; b; a].
Proof.
  unfold byte. intros Ha Hb Hc Hd. set (v := word [a; b; c; d]).
  change (xylem_bswap_u32 v) with
    (Z.lor (Z.lor (Z.lor (Z.land (u32 (Z.shiftl v (24 - 0))) (Z.shiftl 255 24))
                         (Z.land (u32 (Z.shiftl v (16 - 8))) (Z.shiftl 255 16)))
                  (Z.land (Z.shiftr v (16 - 8)) (Z.shiftl 255 8)))
           (Z.land (Z.shiftr v (24 - 0)) (Z.shiftl 255 0))).
  rewrite !shift_up, !shift_down by lia. cbn [word] in v.
  assert ((v / 2 ^ 0) mod 256 = a /\ (v / 2 ^ 8) mod 256 = b /\ (v / 2 ^ 16) mod 256 = c /\ (v / 2 ^ 24) mod 256 = d)
    as (-> & -> & -> & ->) by (subst v; zdm).
  rewrite (lor_low a 24) by lia.
  replace (a * 2 ^ 24 + b * 2 ^ 16) with ((a * 2 ^ 8 + b) * 2 ^ 16) by lia. rewrite lor_low by lia.
  replace ((a * 2 ^ 8 + b) * 2 ^ 16 + c * 2 ^ 8) with ((a * 2 ^ 16 + b * 2 ^ 8 + c) * 2 ^ 8) by lia.
  rewrite lor_low by lia. cbn [word]. lia.
Qed.

(** The eight bytes of a 64-bit word. *)
Lemma word8_bytes a b c d e f g h v :
  byte a -> byte b -> byte c -> byte d -> byte e -> byte f -> byte g -> byte h ->
  v = word [a; b; c; d; e; f; g; h] ->
  (v / 2 ^ 0) mod 256 = a /\ (v / 2 ^ 8) mod 256 = b /\ (v / 2 ^ 16) mod 256 = c /\ (v / 2 ^ 24) mod 256 = d
  /\ (v / 2 ^ 32) mod 256 = e /\ (v / 2 ^ 40) mod 256 = f /\ (v / 2 ^ 48) mod 256 = g /\ (v / 2 ^ 56) mod 256 = h.
Proof. unfold byte. cbn [word]. intros. split_and!; zdm. Qed.

Lemma bswap_u64_word a b c d e f g h :
  byte a -> byte b -> byte c -> byte d -> byte e -> byte f -> byte g -> byte h ->
  xylem_bswap_u64 (word [a; b; c; d; e; f; g; h]) = word [h; g; f; e; d; c; b; a].
Proof.
  intros Ha Hb Hc Hd He Hf Hg Hh. set (v := word [a; b; c; d; e; f; g; h]).
  change (xylem_bswap_u64 v) with
    (Z.lor (Z.lor (Z.lor (Z.lor (Z.lor (Z.lor (Z.lor
      (Z.land (u64 (Z.shiftl v (56 - 0))) (Z.shiftl 255 56))
      (Z.land (u64 (Z.shiftl v (48 - 8))) (Z.shiftl 255 48)))
      (Z.land (u64 (Z.shiftl v (40 - 16))) (Z.shiftl 255 40)))
      (Z.land (u64 (Z.shiftl v (32 - 24))) (Z.shiftl 255 32)))
      (Z.land (Z.shiftr v (32 - 24)) (Z.shiftl 255 24)))
      (Z.land (Z.shiftr v (40 - 16)) (Z.shiftl 255 16)))
      (Z.land (Z.shiftr v (48 - 8)) (Z.shiftl 255 8)))
      (Z.land (Z.shiftr v (56 - 0)) (Z.shiftl 255 0))).
  rewrite !shift_up, !shift_down by lia.
  destruct (word8_bytes _ _ _ _ _ _ _ _ v Ha Hb Hc Hd He Hf Hg Hh eq_refl) as (-> & -> & -> & -> & -> & -> & -> & ->).
  clearbody v. cbn [word].
  change (h * 2 ^ 0) with (h * 1). rewrite Z.mul_1_r, lor_bytes8 by done. lia.
Qed.

(** The swaps reverse the bytes of a word of each width. *)
Theorem bswap_reverses_bytes bs :
  Forall byte bs ->
  (length bs = 2%nat -> xylem_bswap_u16 (word bs) = word (reverse bs))
  /\ (length bs = 4%nat -> xylem_bswap_u32 (word bs) = word (reverse bs))
  /\ (length bs = 8%nat -> xylem_bswap_u64 (word bs) = word (reverse bs)).
Proof.
  intros Hb. split_and!; intros Hl.
  - destruct bs as [|a [|b [|]]]; try done. rewrite !Forall_cons in Hb. destruct_and? Hb. by apply bswap_u16_word.
  - destruct bs as [|a [|b [|c [|d [|]]]]]; try done. rewrite !Forall_cons in Hb. destruct_and? Hb.
    by apply bswap_u32_word.
  - destruct bs as [|a [|b [|c [|d [|e [|f [|g [|h [|]]]]]]]]]; try done.
    rewrite !Forall_cons in Hb. destruct_and? Hb. by apply bswap_u64_word.
Qed.

Lemma bswap_reverses_bytes_witness :
  xylem_bswap_u32 (word [1; 2; 3; 4]) = word [4; 3; 2; 1].
Proof. by apply (bswap_reverses_bytes [1; 2; 3; 4]); [apply (bool_decide_unpack _)|]. Defined.
