(* ===== verification/WsFrame.v ===== *)
(** * WebSocket frames (src/net/ws/ws-frame.c)

    Frame headers, payload masking and close frame payloads, as functions on byte
    lists.  A negative return code is [inl]. *)

From S2P Require Import Prelude.

Record ws_frame_header_t := WsHeader {
  fin : bool; rsv1 : bool; opcode : Z; masked : bool;
  payload_len : Z; mask_key : list Z; header_size : Z
}.

Definition _ws_frame_is_reserved_opcode (opcode : Z) : bool :=
  ((0x3 <=? opcode) && (opcode <=? 0x7)) || ((0xB <=? opcode) && (opcode <=? 0xF)).

Definition _ws_frame_is_control (opcode : Z) : bool := 0x8 <=? opcode.

(** [data[i]], for an index below the length checked before. *)
Definition dat (data : list Z) (i : nat) : Z := nth i data 0.

(** Big-endian fields, as the shifts of the code build them. *)
Definition be16 (data : list Z) (i : nat) : Z := Z.lor (Z.shiftl (dat data i) 8) (dat data (i + 1)).
Definition be64 (data : list Z) (i : nat) : Z :=
  Z.lor (Z.lor (Z.lor (Z.lor (Z.lor (Z.lor (Z.lor
    (Z.shiftl (dat data i) 56) (Z.shiftl (dat data (i + 1)) 48)) (Z.shiftl (dat data (i + 2)) 40))
    (Z.shiftl (dat data (i + 3)) 32)) (Z.shiftl (dat data (i + 4)) 24)) (Z.shiftl (dat data (i + 5)) 16))
    (Z.shiftl (dat data (i + 6)) 8)) (dat data (i + 7)).

(** The length field: payload length and header size so far, or -1. *)
Definition decode_length (data : list Z) (len7 : Z) : Z + Z * Z :=
  let len := Z.of_nat (length data) in
  if len7 <=? 125 then inr (len7, 2)
  else if len7 =? 126 then if len <? 2 + 2 then inl (-1) else inr (be16 data 2, 2 + 2)
  else if len <? 2 + 8 then inl (-1) else inr (be64 data 2, 2 + 8).

Definition ws_frame_decode_header (data : list Z) : Z + ws_frame_header_t :=
  let len := Z.of_nat (length data) in
  if len <? 2 then inl (-1)
  else
    let b0 := dat data 0 in
    let b1 := dat data 1 in
    let fin := negb (Z.land b0 0x80 =? 0) in
    let rsv1 := negb (Z.land b0 0x40 =? 0) in
    let opcode := Z.land b0 0x0f in
    let masked := negb (Z.land b1 0x80 =? 0) in
    if _ws_frame_is_reserved_opcode opcode then inl (-2)
    else
      match decode_length data (Z.land b1 0x7f) with
      | inl e => inl e
      | inr (payload_len, hdr) =>
          match
            (if masked then
               if len <? hdr + 4 then inl (-1)
               else inr (take 4 (drop (Z.to_nat hdr) data), hdr + 4)
             else inr ([0; 0; 0; 0], hdr) : Z + list Z * Z)
          with
          | inl e => inl e
          | inr (mask_key, hdr) =>
              if _ws_frame_is_control opcode && ((125 <? payload_len) || negb fin) then inl (-2)
              else inr (WsHeader fin rsv1 opcode masked payload_len mask_key hdr)
          end
      end.

(** The header bytes written to [buf]. *)
Definition ws_frame_encode_header (fin : bool) (opcode : Z) (masked : bool) (mask_key : list Z)
    (payload_len : Z) : list Z :=
  let mask_bit := if masked then 0x80 else 0 in
  [Z.lor (if fin then 0x80 else 0) (Z.land opcode 0x0f)] ++
  (if payload_len <=? 125 then [Z.lor mask_bit (u8 payload_len)]
   else if payload_len <=? 65535 then
     [Z.lor mask_bit 126; u8 (Z.shiftr payload_len 8); u8 (Z.land payload_len 0xff)]
   else
     [Z.lor mask_bit 127; u8 (Z.shiftr payload_len 56); u8 (Z.shiftr payload_len 48);
      u8 (Z.shiftr payload_len 40); u8 (Z.shiftr payload_len 32); u8 (Z.shiftr payload_len 24);
      u8 (Z.shiftr payload_len 16); u8 (Z.shiftr payload_len 8); u8 payload_len]) ++
  (if masked then take 4 mask_key else []).

(** [data[i] ^= mask_key[(offset + i) & 3]]; [offset + i] is a [size_t]. *)
Fixpoint ws_frame_apply_mask (data : list Z) (mask_key : list Z) (offset : Z) : list Z :=
  match data with
  | [] => []
  | b :: data =>
      Z.lxor b (nth (Z.to_nat (Z.land offset 3)) mask_key 0)
      :: ws_frame_apply_mask data mask_key (u64 (offset + 1))
  end.

Definition ws_frame_close_validate_send (code : Z) : Z :=
  if (1000 <=? code) && (code <=? 1003) then 0
  else if (1007 <=? code) && (code <=? 1011) then 0
  else if (3000 <=? code) && (code <=? 4999) then 0
  else -1.

Definition ws_frame_close_validate_recv (code : Z) : Z :=
  if code <=? 999 then -1
  else if (1004 <=? code) && (code <=? 1006) then -1
  else if code =? 1015 then -1
  else if (1016 <=? code) && (code <=? 2999) then -1
  else 0.

(** The payload written to [out]. *)
Definition ws_frame_close_encode (code : Z) (reason : list Z) (out_size : Z) : Z + list Z :=
  let reason_len := Z.of_nat (length reason) in
  if 123 <? reason_len then inl (-1)
  else if out_size <? 2 + reason_len then inl (-1)
  else inr ([u8 (Z.shiftr code 8); u8 (Z.land code 0xff)] ++ reason).

(** Code and reason; no reason is the empty list. *)
Definition ws_frame_close_decode (data : list Z) : Z + Z * list Z :=
  match data with
  | [] => inr (1005, [])
  | [_] => inl (-1)
  | a :: b :: reason =>
      let code := u16 (Z.lor (Z.shiftl a 8) b) in
      if negb (ws_frame_close_validate_recv code =? 0) then inl (-2) else inr (code, reason)
  end.

(** ** Header fields *)

Lemma first_byte_ok (f : bool) op : 0 <= op < 16 ->
  let b0 := Z.lor (if f then 0x80 else 0) (Z.land op 0x0f) in
  negb (Z.land b0 0x80 =? 0) = f /\ negb (Z.land b0 0x40 =? 0) = false /\ Z.land b0 0x0f = op /\ byte b0.
Proof.
  intros Hop. cbv zeta.
  pose (g (op : Z) (f : bool) := let b0 := Z.lor (if f then 0x80 else 0) (Z.land op 0x0f) in
    Bool.eqb (negb (Z.land b0 0x80 =? 0)) f && Bool.eqb (negb (Z.land b0 0x40 =? 0)) false
    && (Z.land b0 0x0f =? op) && (0 <=? b0) && (b0 <? 256)).
  assert (g op f = true) as H.
  { destruct f; [apply (forallbZ_spec 16 (fun op => g op true))|apply (forallbZ_spec 16 (fun op => g op false))];
      by vm_compute || exact Hop. }
  unfold g in H. rewrite !andb_true_iff, !eqb_true_iff, Z.eqb_eq in H. unfold byte. naive_solver lia.
Qed.

Lemma second_byte_ok (m : bool) x : 0 <= x < 128 ->
  let b1 := Z.lor (if m then 0x80 else 0) x in
  negb (Z.land b1 0x80 =? 0) = m /\ Z.land b1 0x7f = x /\ byte b1.
Proof.
  intros Hx. cbv zeta.
  pose (g (x : Z) (m : bool) := let b1 := Z.lor (if m then 0x80 else 0) x in
    Bool.eqb (negb (Z.land b1 0x80 =? 0)) m && (Z.land b1 0x7f =? x) && (0 <=? b1) && (b1 <? 256)).
  assert (g x m = true) as H.
  { destruct m; [apply (forallbZ_spec 128 (fun x => g x true))|apply (forallbZ_spec 128 (fun x => g x false))];
      by vm_compute || exact Hx. }
  unfold g in H. rewrite !andb_true_iff, !eqb_true_iff, Z.eqb_eq in H. unfold byte. naive_solver lia.
Qed.

(** Once the first two bytes are there, what the decoder does depends on the
    number of bytes and the length class only. *)
Lemma decode_header_fields data (f : bool) op (m : bool) x :
  0 <= op < 16 -> 0 <= x < 128 -> (2 <= length data)%nat ->
  dat data 0 = Z.lor (if f then 0x80 else 0) (Z.land op 0x0f) ->
  dat data 1 = Z.lor (if m then 0x80 else 0) x ->
  _ws_frame_is_reserved_opcode op = false ->
  ws_frame_decode_header data
  = match decode_length data x with
    | inl e => inl e
    | inr (plen, hdr) =>
        if m && (Z.of_nat (length data) <? hdr + 4) then inl (-1)
        else if _ws_frame_is_control op && ((125 <? plen) || negb f) then inl (-2)
        else inr (WsHeader f false op m plen
                    (if m then take 4 (drop (Z.to_nat hdr) data) else [0; 0; 0; 0]) (if m then hdr + 4 else hdr))
    end.
Proof.
  intros Hop Hx Hlen E0 E1 Hres. unfold ws_frame_decode_header. rewrite (proj2 (Z.ltb_ge _ _)) by lia.
  rewrite E0, E1. destruct (first_byte_ok f op Hop) as (-> & -> & -> & _).
  destruct (second_byte_ok m x Hx) as (-> & -> & _). rewrite Hres.
  destruct (decode_length data x) as [e|[plen hdr]]; [done|].
  destruct m; simpl; [|done]. by destruct (_ <? _).
Qed.

(** The eight length bytes of the encoder read back as the length. *)
Lemma bytes8_split n : 0 <= n < 2 ^ 64 ->
  u8 (Z.shiftr n 56) * 2 ^ 56 + u8 (Z.shiftr n 48) * 2 ^ 48 + u8 (Z.shiftr n 40) * 2 ^ 40
  + u8 (Z.shiftr n 32) * 2 ^ 32 + u8 (Z.shiftr n 24) * 2 ^ 24 + u8 (Z.shiftr n 16) * 2 ^ 16
  + u8 (Z.shiftr n 8) * 2 ^ 8 + u8 n = n.
Proof. intros Hn. rewrite !Z.shiftr_div_pow2 by lia. unfold uwrap. zdm. Qed.

(** ** Encoding and decoding a header *)

(** The headers RFC 6455 allows. *)
Definition legal_header (f : bool) (op plen : Z) : Prop :=
  0 <= op < 16 /\ _ws_frame_is_reserved_opcode op = false /\ 0 <= plen < 2 ^ 64
  /\ (_ws_frame_is_control op = true -> plen <= 125 /\ f = true).

(** The shape of an encoded header: two bytes, the extended length, the key. *)
Lemma encode_shape f op m key plen : 0 <= plen < 2 ^ 64 ->
  exists x lb, 0 <= x < 128
    /\ ws_frame_encode_header f op m key plen
       = Z.lor (if f then 0x80 else 0) (Z.land op 0x0f) :: Z.lor (if m then 0x80 else 0) x
         :: lb ++ (if m then take 4 key else [])
    /\ (forall a b rest, decode_length (a :: b :: lb ++ rest) x = inr (plen, 2 + Z.of_nat (length lb)))
    /\ (forall data, (length data < 2 + length lb)%nat -> (2 <= length data)%nat -> decode_length data x = inl (-1)).
Proof.
  intros Hp. unfold ws_frame_encode_header, decode_length.
  destruct (Z.leb_spec plen 125); [|destruct (Z.leb_spec plen 65535)].
  - exists plen, []. split_and!; [lia|lia| | |].
    + simpl. rewrite uwrap_small by (unfold ubound; lia). done.
    + intros a b rest. rewrite (proj2 (Z.leb_le _ _)) by lia. done.
    + simpl. lia.
  - exists 126, [u8 (Z.shiftr plen 8); u8 (Z.land plen 255)]. split_and!; [lia|lia|done| |].
    + intros a b rest. simpl (126 <=? 125). simpl (126 =? 126). cbv iota.
      rewrite (proj2 (Z.ltb_ge _ _)) by (simpl length; lia).
      unfold be16, dat. cbn [nth app Nat.add]. pose proof (u8_byte (Z.land plen 255)) as Hb.
      rewrite lor_shiftl_add by (done || lia). rewrite land_0xff, shiftr_div by lia. unfold uwrap.
      apply f_equal, (f_equal2 pair); [zdm|done].
    + intros data H1 H2. simpl in H1. by rewrite (proj2 (Z.ltb_lt _ _)) by lia.
  - exists 127, [u8 (Z.shiftr plen 56); u8 (Z.shiftr plen 48); u8 (Z.shiftr plen 40); u8 (Z.shiftr plen 32);
                 u8 (Z.shiftr plen 24); u8 (Z.shiftr plen 16); u8 (Z.shiftr plen 8); u8 plen].
    split_and!; [lia|lia|done| |].
    + intros a b rest. simpl (127 <=? 125). simpl (127 =? 126). cbv iota.
      rewrite (proj2 (Z.ltb_ge _ _)) by (simpl length; lia).
      unfold be64, dat. cbn [nth app Nat.add]. rewrite !(Z.shiftl_mul_pow2 (u8 _)) by lia.
      rewrite lor_bytes8 by apply u8_byte. rewrite bytes8_split by lia. done.
    + intros data H1 H2. simpl in H1. simpl (127 <=? 125). simpl (127 =? 126). cbv iota.
      by rewrite (proj2 (Z.ltb_lt _ _)) by lia.
Qed.

(** C26 A header written by the encoder decodes, in front of any payload, to the
    same fields and to its own size. *)
Theorem ws_header_roundtrip f op m key plen payload :
  legal_header f op plen -> length key = 4%nat ->
  ws_frame_decode_header (ws_frame_encode_header f op m key plen ++ payload)
  = inr (WsHeader f false op m plen (if m then key else [0; 0; 0; 0])
           (Z.of_nat (length (ws_frame_encode_header f op m key plen)))).
Proof.
  intros (Hop & Hres & Hp & Hctl) Hkey. destruct (encode_shape f op m key plen Hp) as (x & lb & Hx & -> & Hdec & _).
  rewrite take_ge by lia. set (kb := if m then key else []).
  rewrite (decode_header_fields _ f op m x) by (simpl; done || lia).
  cbn [app]. rewrite <-app_assoc, Hdec.
  assert (m && (Z.of_nat (length (Z.lor (if f then 0x80 else 0) (Z.land op 0x0f) :: Z.lor (if m then 0x80 else 0) x
    :: lb ++ kb ++ payload)) <? 2 + Z.of_nat (length lb) + 4) = false) as ->.
  { destruct m; [|done]. apply Z.ltb_ge. subst kb. cbn [length]. rewrite !length_app. lia. }
  assert (_ws_frame_is_control op && ((125 <? plen) || negb f) = false) as ->.
  { destruct (_ws_frame_is_control op); [|done]. destruct Hctl as [? ->]; [done|].
    rewrite (proj2 (Z.ltb_ge _ _)) by lia. done. }
  do 2 f_equal.
  - destruct m; [|done]. replace (Z.to_nat (2 + Z.of_nat (length lb))) with (2 + length lb)%nat by lia.
    simpl. rewrite drop_app_length. subst kb. rewrite take_app_le by lia. by rewrite take_ge by lia.
  - cbn [length]. rewrite length_app. subst kb. destruct m; simpl length; lia.
Qed.

(** A truncated header is never misread: every proper prefix of a legal
    header is reported as incomplete. *)
Theorem ws_header_prefix f op m key plen k :
  legal_header f op plen -> length key = 4%nat ->
  (k < length (ws_frame_encode_header f op m key plen))%nat ->
  ws_frame_decode_header (take k (ws_frame_encode_header f op m key plen)) = inl (-1).
Proof.
  intros (Hop & Hres & Hp & _) Hkey. destruct (encode_shape f op m key plen Hp) as (x & lb & Hx & -> & Hdec & Hshort).
  rewrite take_ge by lia. set (kb := if m then key else []). intros Hk. cbn [length] in Hk.
  destruct k as [|[|k]]; [done|done|]. cbn [take].
  set (data := _ :: _ :: take k (lb ++ kb)).
  assert (length data = S (S k)) as Hlen.
  { subst data. cbn [length]. rewrite length_take_le by lia. done. }
  rewrite (decode_header_fields data f op m x) by (done || lia).
  destruct (decide (k < length lb)%nat) as [Hlt|Hge]; [by rewrite Hshort by lia|].
  rewrite length_app in Hk. assert (m = true) as -> by (destruct m; [done|subst kb; simpl in Hk; lia]).
  subst data kb. rewrite take_app_ge by lia. rewrite Hdec.
  rewrite (proj2 (Z.ltb_lt _ _)); [done|]. cbn [length]. rewrite length_app, length_take_le by lia. lia.
Qed.

Lemma ws_header_roundtrip_witness :
  ws_frame_decode_header (ws_frame_encode_header true 2 true [1; 2; 3; 4] 300 ++ [9; 9])
  = inr (WsHeader true false 2 true 300 [1; 2; 3; 4] 8).
Proof. by apply (ws_header_roundtrip true 2 true [1; 2; 3; 4] 300 [9; 9]). Defined.
Lemma ws_header_prefix_witness :
  ws_frame_decode_header (take 7 (ws_frame_encode_header true 2 true [1; 2; 3; 4] 300)) = inl (-1).
Proof. apply (ws_header_prefix true 2 true [1; 2; 3; 4] 300 7); [done|done|simpl; lia]. Defined.

(** ** Masking and close payloads *)

Lemma apply_mask_app a b key off :
  0 <= off -> ws_frame_apply_mask (a ++ b) key off
  = ws_frame_apply_mask a key off ++ ws_frame_apply_mask b key (u64 (off + Z.of_nat (length a))) \/ a = [].
Proof.
  revert off. induction a as [|x a IH]; intros off Hoff; [by right|left]. simpl. f_equal.
  destruct (IH (u64 (off + 1))) as [E | ->].
  - apply (uwrap_bound 64). lia.
  - rewrite E. f_equal. f_equal. unfold uwrap. rewrite Zplus_mod_idemp_l. f_equal. lia.
  - done.
Qed.

(** Masking twice with the same key and offset restores the data, and a
    payload masked in two pieces, the second at the offset where the first ended,
    is the payload masked at once. *)
Theorem ws_mask_correct key off a b :
  ubound 64 off ->
  ws_frame_apply_mask (ws_frame_apply_mask a key off) key off = a
  /\ ws_frame_apply_mask (a ++ b) key off
     = ws_frame_apply_mask a key off ++ ws_frame_apply_mask b key (u64 (off + Z.of_nat (length a))).
Proof.
  intros Hoff. split.
  - clear Hoff. revert off. induction a as [|x a IH]; intros off; simpl; [done|].
    rewrite IH, Z.lxor_assoc, Z.lxor_nilpotent, Z.lxor_0_r. done.
  - destruct (apply_mask_app a b key off) as [E | ->]; [apply Hoff|done|].
    simpl. by rewrite Z.add_0_r, uwrap_small.
Qed.

(** A close payload that fits is encoded in [2 + reason_len] bytes and
    decodes to the same code and reason when the code may appear on the wire,
    which every code accepted for sending may. *)
Theorem ws_close_roundtrip code reason out_size :
  ubound 16 code -> Z.of_nat (length reason) <= 123 -> 2 + Z.of_nat (length reason) <= out_size ->
  exists out, ws_frame_close_encode code reason out_size = inr out
    /\ Z.of_nat (length out) = 2 + Z.of_nat (length reason) /\ Z.of_nat (length out) <= 125
    /\ (ws_frame_close_validate_recv code = 0 -> ws_frame_close_decode out = inr (code, reason))
    /\ (ws_frame_close_validate_send code = 0 -> ws_frame_close_decode out = inr (code, reason)).
Proof.
  unfold ubound. intros Hc Hr Ho. unfold ws_frame_close_encode.
  rewrite !(proj2 (Z.ltb_ge _ _)) by lia. eexists; split; [done|]. cbn [app length].
  assert (u16 (Z.lor (Z.shiftl (u8 (Z.shiftr code 8)) 8) (u8 (Z.land code 0xff))) = code) as E.
  { pose proof (u8_byte (Z.land code 0xff)) as Hb. rewrite lor_shiftl_add by (done || lia).
    rewrite land_0xff, shiftr_div by lia. unfold uwrap. zdm. }
  assert (ws_frame_close_validate_recv code = 0 ->
    ws_frame_close_decode (u8 (Z.shiftr code 8) :: u8 (Z.land code 0xff) :: reason) = inr (code, reason)) as Hdec.
  { intros Hv. cbn [ws_frame_close_decode]. by rewrite E, Hv. }
  split_and!; [lia|lia|exact Hdec|]. intros Hs. apply Hdec.
  unfold ws_frame_close_validate_send, ws_frame_close_validate_recv in *.
  repeat (case_match; try lia).
Qed.

Lemma ws_mask_correct_witness :
  ws_frame_apply_mask (ws_frame_apply_mask [10; 20; 30] [1; 2; 3; 4] 3) [1; 2; 3; 4] 3 = [10; 20; 30].
Proof. apply (ws_mask_correct [1; 2; 3; 4] 3 [10; 20; 30] []). done. Defined.
Lemma ws_close_roundtrip_witness :
  exists out, ws_frame_close_encode 1000 (chars "bye") 125 = inr out
    /\ ws_frame_close_decode out = inr (1000, chars "bye").
Proof.
  destruct (ws_close_roundtrip 1000 (chars "bye") 125) as (out & E & _ & _ & H & _); [done|done|done|].
  exists out. split; [exact E|by apply H].
Defined.
