(* ===== verification/WsUtf8.v ===== *)
(** * UTF-8 validation of text messages (src/net/ws/ws-utf8.c)

    The validator against the definition of UTF-8: a sequence is valid exactly when
    it is the concatenation of the encodings of Unicode scalar values. *)

From S2P Require Import Prelude.

(** Is [b] a continuation byte, [(b & 0xC0) == 0x80]? *)
Definition cont (b : Z) : bool := Z.land b 0xC0 =? 0x80.

(** [while (i < len && data[i] <= 0x7F) i++;] *)
Fixpoint skip_ascii (data : list Z) : list Z :=
  match data with
  | b :: rest => if b <=? 0x7f then skip_ascii rest else data
  | [] => []
  end.

(** The loop, on the bytes not yet consumed: [Some r] is the return value.  Every
    turn consumes a byte, so the fuel is the length. *)
Fixpoint utf8_loop (fuel : nat) (data : list Z) : option Z :=
  match data with
  | [] => Some 0
  | b :: rest =>
      match fuel with
      | O => None
      | S fuel =>
          if b <=? 0x7f then utf8_loop fuel (skip_ascii rest)
          else if Z.land b 0xE0 =? 0xC0 then
            if b <? 0xC2 then Some (-1)
            else match rest with
                 | b1 :: rest => if negb (cont b1) then Some (-1) else utf8_loop fuel rest
                 | _ => Some (-1)
                 end
          else if Z.land b 0xF0 =? 0xE0 then
            match rest with
            | b1 :: b2 :: rest =>
                if negb (cont b1) || negb (cont b2) then Some (-1)
                else if (b =? 0xE0) && (b1 <? 0xA0) then Some (-1)
                else if (b =? 0xED) && (0xA0 <=? b1) then Some (-1)
                else utf8_loop fuel rest
            | _ => Some (-1)
            end
          else if Z.land b 0xF8 =? 0xF0 then
            if 0xF4 <? b then Some (-1)
            else match rest with
                 | b1 :: b2 :: b3 :: rest =>
                     if negb (cont b1) || negb (cont b2) || negb (cont b3) then Some (-1)
                     else if (b =? 0xF0) && (b1 <? 0x90) then Some (-1)
                     else if (b =? 0xF4) && (0x8F <? b1) then Some (-1)
                     else utf8_loop fuel rest
                 | _ => Some (-1)
                 end
          else Some (-1)
      end
  end.

Definition ws_utf8_validate (data : list Z) : option Z := utf8_loop (length data) data.

(** ** UTF-8 *)

(** Unicode scalar values: code points without the surrogates. *)
Definition scalar (c : Z) : Prop := 0 <= c < 0xD800 \/ 0xE000 <= c < 0x110000.

Definition utf8_encode (c : Z) : list Z :=
  if c <? 0x80 then [c]
  else if c <? 0x800 then [0xC0 + c / 64; 0x80 + c mod 64]
  else if c <? 0x10000 then [0xE0 + c / 4096; 0x80 + c / 64 mod 64; 0x80 + c mod 64]
  else [0xF0 + c / 262144; 0x80 + c / 4096 mod 64; 0x80 + c / 64 mod 64; 0x80 + c mod 64].

Definition utf8 (data : list Z) : Prop := exists cs, Forall scalar cs /\ data = concat (utf8_encode <$> cs).

(** ** Byte classes *)

Lemma cont_spec b : byte b -> cont b = (0x80 <=? b) && (b <? 0xC0).
Proof.
  intros Hb. apply eqb_prop.
  apply (forallbZ_spec 256 (fun b => Bool.eqb (cont b) ((0x80 <=? b) && (b <? 0xC0)))); [by vm_compute|exact Hb].
Qed.
Lemma lead_spec b : byte b ->
  (Z.land b 0xE0 =? 0xC0) = (0xC0 <=? b) && (b <? 0xE0)
  /\ (Z.land b 0xF0 =? 0xE0) = (0xE0 <=? b) && (b <? 0xF0)
  /\ (Z.land b 0xF8 =? 0xF0) = (0xF0 <=? b) && (b <? 0xF8).
Proof.
  intros Hb. pose (f (b : Z) := Bool.eqb (Z.land b 0xE0 =? 0xC0) ((0xC0 <=? b) && (b <? 0xE0))
    && Bool.eqb (Z.land b 0xF0 =? 0xE0) ((0xE0 <=? b) && (b <? 0xF0))
    && Bool.eqb (Z.land b 0xF8 =? 0xF0) ((0xF0 <=? b) && (b <? 0xF8))).
  assert (f b = true) as H by (apply (forallbZ_spec 256 f); [by vm_compute|exact Hb]).
  unfold f in H. rewrite !andb_true_iff, !eqb_true_iff in H. tauto.
Qed.

(** ** Composing and decomposing sequences *)

Lemma utf8_nil : utf8 [].
Proof. by exists []. Qed.
Lemma utf8_cons c data : scalar c -> utf8 data -> utf8 (utf8_encode c ++ data).
Proof. intros Hc (cs & Hcs & ->). exists (c :: cs). split; [by constructor|done]. Qed.
Lemma utf8_inv data : utf8 data -> data = [] \/ exists c rest, scalar c /\ data = utf8_encode c ++ rest /\ utf8 rest.
Proof.
  intros ([|c cs] & Hcs & ->); [by left|right]. apply Forall_cons in Hcs as [Hc Hcs].
  exists c, (concat (utf8_encode <$> cs)). split; [done|]. split; [done|]. by exists cs.
Qed.

Lemma utf8_lead b rest : utf8 (b :: rest) ->
  exists c tail rest', scalar c /\ utf8_encode c = b :: tail /\ rest = tail ++ rest' /\ utf8 rest'.
Proof.
  intros [?|(c & rest' & Hc & E & H)]%utf8_inv; [done|]. destruct (utf8_encode c) as [|x tail] eqn:Ec.
  - unfold utf8_encode in Ec. by repeat case_match.
  - injection E as -> ->. by exists c, tail, rest'.
Qed.

(** Inverting the encoder on a known lead byte. *)
Ltac invert_lead :=
  match goal with
  | H : scalar _, E : utf8_encode _ = _ |- _ =>
      unfold scalar in H; unfold utf8_encode in E;
      repeat (match type of E with context [?x <? ?y] => destruct (Z.ltb_spec x y) end);
      injection E as ? ?
  end.

Lemma utf8_1 b rest : 0 <= b < 0x80 -> utf8 (b :: rest) <-> utf8 rest.
Proof.
  intros Hb. split.
  - intros (c & tail & rest' & Hc & E & -> & H)%utf8_lead. invert_lead; subst; [done|zdm..].
  - intros H. pose proof (utf8_cons b rest) as G. unfold utf8_encode in G.
    rewrite (proj2 (Z.ltb_lt _ _)) in G by lia. apply G; [unfold scalar; lia|done].
Qed.

Lemma utf8_2 b rest : 0xC0 <= b < 0xE0 ->
  utf8 (b :: rest) <-> 0xC2 <= b /\ exists b1 rest', rest = b1 :: rest' /\ 0x80 <= b1 < 0xC0 /\ utf8 rest'.
Proof.
  intros Hb. split.
  - intros (c & tail & rest' & Hc & E & -> & H)%utf8_lead. invert_lead; subst; [lia| |zdm..].
    split; [zdm|]. eexists _, rest'. split; [done|]. split; [zdm|done].
  - intros (Hb2 & b1 & rest' & -> & Hb1 & H).
    pose proof (utf8_cons ((b - 0xC0) * 64 + (b1 - 0x80)) rest') as G. unfold utf8_encode in G.
    rewrite (proj2 (Z.ltb_ge _ 0x80)), (proj2 (Z.ltb_lt _ 0x800)) in G by lia.
    replace (0xC0 + ((b - 0xC0) * 64 + (b1 - 0x80)) / 64) with b in G by zdm.
    replace (0x80 + ((b - 0xC0) * 64 + (b1 - 0x80)) mod 64) with b1 in G by zdm.
    apply G; [unfold scalar; lia|done].
Qed.

Lemma utf8_3 b rest : 0xE0 <= b < 0xF0 ->
  utf8 (b :: rest) <-> exists b1 b2 rest', rest = b1 :: b2 :: rest' /\ 0x80 <= b1 < 0xC0 /\ 0x80 <= b2 < 0xC0
    /\ (b = 0xE0 -> 0xA0 <= b1) /\ (b = 0xED -> b1 < 0xA0) /\ utf8 rest'.
Proof.
  intros Hb. split.
  - intros (c & tail & rest' & Hc & E & -> & H)%utf8_lead. invert_lead; subst; [lia|zdm| |zdm].
    eexists _, _, rest'. split; [done|]. split_and!; try done; zdm.
  - intros (b1 & b2 & rest' & -> & Hb1 & Hb2 & Hov & Hsur & H).
    set (c := (b - 0xE0) * 4096 + (b1 - 0x80) * 64 + (b2 - 0x80)).
    pose proof (utf8_cons c rest') as G. unfold utf8_encode in G.
    rewrite (proj2 (Z.ltb_ge _ 0x80)), (proj2 (Z.ltb_ge _ 0x800)), (proj2 (Z.ltb_lt _ 0x10000)) in G by lia.
    replace (0xE0 + c / 4096) with b in G by zdm. replace (0x80 + c / 64 mod 64) with b1 in G by zdm.
    replace (0x80 + c mod 64) with b2 in G by zdm. apply G; [unfold scalar; lia|done].
Qed.

Lemma utf8_4 b rest : 0xF0 <= b < 0xF8 ->
  utf8 (b :: rest) <-> b <= 0xF4 /\ exists b1 b2 b3 rest', rest = b1 :: b2 :: b3 :: rest'
    /\ 0x80 <= b1 < 0xC0 /\ 0x80 <= b2 < 0xC0 /\ 0x80 <= b3 < 0xC0
    /\ (b = 0xF0 -> 0x90 <= b1) /\ (b = 0xF4 -> b1 <= 0x8F) /\ utf8 rest'.
Proof.
  intros Hb. split.
  - intros (c & tail & rest' & Hc & E & -> & H)%utf8_lead. invert_lead; subst; [lia|zdm|zdm|].
    split; [zdm|]. eexists _, _, _, rest'. split; [done|]. split_and!; try done; zdm.
  - intros (Hb4 & b1 & b2 & b3 & rest' & -> & Hb1 & Hb2 & Hb3 & Hov & Hmax & H).
    set (c := (b - 0xF0) * 262144 + (b1 - 0x80) * 4096 + (b2 - 0x80) * 64 + (b3 - 0x80)).
    pose proof (utf8_cons c rest') as G. unfold utf8_encode in G.
    rewrite (proj2 (Z.ltb_ge _ 0x80)), (proj2 (Z.ltb_ge _ 0x800)), (proj2 (Z.ltb_ge _ 0x10000)) in G by lia.
    replace (0xF0 + c / 262144) with b in G by zdm. replace (0x80 + c / 4096 mod 64) with b1 in G by zdm.
    replace (0x80 + c / 64 mod 64) with b2 in G by zdm. replace (0x80 + c mod 64) with b3 in G by zdm.
    apply G; [unfold scalar; lia|done].
Qed.

Lemma utf8_other b rest : 0x80 <= b < 0xC0 \/ 0xF8 <= b -> ~ utf8 (b :: rest).
Proof. intros Hb (c & tail & rest' & Hc & E & -> & H)%utf8_lead. invert_lead; zdm. Qed.

Lemma skip_ascii_utf8 data : Forall byte data -> utf8 (skip_ascii data) <-> utf8 data.
Proof.
  induction 1 as [|b data Hb H IH]; [done|]. simpl. destruct (Z.leb_spec b 0x7f); [|done].
  rewrite IH. rewrite utf8_1; [done|]. unfold byte in Hb. lia.
Qed.
Lemma skip_ascii_suffix data : Forall byte data ->
  Forall byte (skip_ascii data) /\ (length (skip_ascii data) <= length data)%nat.
Proof.
  induction 1 as [|b data Hb H IH]; [done|]. simpl. destruct (b <=? 0x7f); [|split; [by constructor|done]].
  split; [apply IH|lia].
Qed.

(** [r] is the verdict on [data]. *)
Definition verdict (data : list Z) (r : option Z) : Prop :=
  (r = Some 0 /\ utf8 data) \/ (r = Some (-1) /\ ~ utf8 data).

Lemma verdict_iff data data' r : (utf8 data <-> utf8 data') -> verdict data' r -> verdict data r.
Proof. unfold verdict. tauto. Qed.
Lemma verdict_reject data : ~ utf8 data -> verdict data (Some (-1)).
Proof. by right. Qed.

Lemma utf8_loop_ok fuel : forall data,
  Forall byte data -> (length data <= fuel)%nat -> verdict data (utf8_loop fuel data).
Proof.
  induction fuel as [|fuel IH]; intros data Hd Hl; (destruct data as [|b rest];
    [by left; split; [|apply utf8_nil]|simpl in Hl]); [lia|].
  apply Forall_cons in Hd as [Hb Hrest]. destruct (lead_spec b Hb) as (L2 & L3 & L4).
  cbn [utf8_loop]. rewrite L2, L3, L4. clear L2 L3 L4. unfold byte in Hb.
  destruct (Z.leb_spec b 0x7f).
  { destruct (skip_ascii_suffix rest Hrest) as [Hs1 Hs2].
    eapply verdict_iff; [|apply IH; [exact Hs1|lia]]. by rewrite utf8_1, skip_ascii_utf8 by (done || lia). }
  destruct ((0xC0 <=? b) && (b <? 0xE0)) eqn:C2.
  { assert (0xC0 <= b < 0xE0) as Hb2 by lia. destruct (Z.ltb_spec b 0xC2).
    { apply verdict_reject. rewrite utf8_2 by done. lia. }
    destruct rest as [|b1 rest]; [apply verdict_reject; rewrite utf8_2 by done; naive_solver|].
    apply Forall_cons in Hrest as [Hb1 Hrest]. rewrite cont_spec by done.
    destruct ((0x80 <=? b1) && (b1 <? 0xC0)) eqn:C; simpl.
    - eapply verdict_iff; [|apply IH; [exact Hrest|simpl in Hl; lia]]. rewrite utf8_2 by done.
      split; [naive_solver|]. intros. split; [done|]. eexists _, _. split; [done|]. split; [lia|done].
    - apply verdict_reject. rewrite utf8_2 by done. intros (_ & b1' & rest' & [= <- <-] & ? & _). lia. }
  destruct ((0xE0 <=? b) && (b <? 0xF0)) eqn:C3.
  { assert (0xE0 <= b < 0xF0) as Hb3 by lia.
    destruct rest as [|b1 [|b2 rest]]; [apply verdict_reject; rewrite utf8_3 by done; naive_solver..|].
    rewrite !Forall_cons in Hrest. destruct Hrest as (Hb1 & Hb2 & Hrest). rewrite !cont_spec by done.
    destruct (_ || _) eqn:C.
    { apply verdict_reject. rewrite utf8_3 by done. intros (? & ? & ? & [= <- <- <-] & ?). lia. }
    destruct ((b =? 0xE0) && (b1 <? 0xA0)) eqn:Cov.
    { apply verdict_reject. rewrite utf8_3 by done. intros (? & ? & ? & [= <- <- <-] & ?). lia. }
    destruct ((b =? 0xED) && (0xA0 <=? b1)) eqn:Csur.
    { apply verdict_reject. rewrite utf8_3 by done. intros (? & ? & ? & [= <- <- <-] & ?). lia. }
    eapply verdict_iff; [|apply IH; [exact Hrest|simpl in Hl; lia]]. rewrite utf8_3 by done.
    split; [naive_solver|]. intros Hu. eexists _, _, _. split; [done|]. split_and!; done || lia. }
  destruct ((0xF0 <=? b) && (b <? 0xF8)) eqn:C4.
  { assert (0xF0 <= b < 0xF8) as Hb4 by lia. destruct (Z.ltb_spec 0xF4 b).
    { apply verdict_reject. rewrite utf8_4 by done. lia. }
    destruct rest as [|b1 [|b2 [|b3 rest]]]; [apply verdict_reject; rewrite utf8_4 by done; naive_solver..|].
    rewrite !Forall_cons in Hrest. destruct Hrest as (Hb1 & Hb2 & Hb3 & Hrest). rewrite !cont_spec by done.
    destruct (_ || _) eqn:C.
    { apply verdict_reject. rewrite utf8_4 by done. intros (_ & ? & ? & ? & ? & [= <- <- <- <-] & ?). lia. }
    destruct ((b =? 0xF0) && (b1 <? 0x90)) eqn:Cov.
    { apply verdict_reject. rewrite utf8_4 by done. intros (_ & ? & ? & ? & ? & [= <- <- <- <-] & ?). lia. }
    destruct ((b =? 0xF4) && (0x8F <? b1)) eqn:Cmax.
    { apply verdict_reject. rewrite utf8_4 by done. intros (_ & ? & ? & ? & ? & [= <- <- <- <-] & ?). lia. }
    eapply verdict_iff; [|apply IH; [exact Hrest|simpl in Hl; lia]]. rewrite utf8_4 by done.
    split; [naive_solver|]. intros Hu. split; [done|]. eexists _, _, _, _. split; [done|]. split_and!; done || lia. }
  apply verdict_reject, utf8_other. lia.
Qed.

(** C25 The validator terminates and returns 0 exactly on the byte sequences that
    are concatenations of UTF-8 encodings of Unicode scalar values, and -1 on all
    others: overlong forms, surrogates, values above U+10FFFF, stray continuation
    bytes and truncated sequences are rejected, nothing else is. *)
Theorem ws_utf8_validate_correct data :
  Forall byte data ->
  (ws_utf8_validate data = Some 0 /\ utf8 data) \/ (ws_utf8_validate data = Some (-1) /\ ~ utf8 data).
Proof. intros Hd. by apply utf8_loop_ok. Qed.

Lemma ws_utf8_validate_correct_witness : utf8 [0x61; 0xE2; 0x82; 0xAC] /\ ~ utf8 [0xED; 0xA0; 0x80].
Proof.
  split.
  - destruct (ws_utf8_validate_correct [0x61; 0xE2; 0x82; 0xAC]) as [[_ H]|[E _]];
      [by apply (bool_decide_unpack _)|exact H|done].
  - destruct (ws_utf8_validate_correct [0xED; 0xA0; 0x80]) as [[E _]|[_ H]];
      [by apply (bool_decide_unpack _)|done|exact H].
Defined.
