(* ===== verification/BlockHash.v ===== *)
(** * The streaming part of SHA-1 and SHA-256
      (src/crypto/xylem-sha1.c, src/crypto/xylem-sha256.c)

    The two files share the text of their [update] and [final] functions, which
    buffer the input to blocks of 64 bytes and append the padding; it is modelled
    once, for any compression function [transform] and any output function.  The
    specification is the standard's: pad the whole message, cut it in blocks, fold
    the compression function over them. *)

From S2P Require Import Prelude.

(** The context: [buffer] (or [data]), [datalen], [bitlen] and the chaining state. *)
Record hash_ctx := HashCtx { buffer : list Z; datalen : Z; bitlen : Z; state : list Z }.

(** [total_bitlen] most significant byte first, as the eight assignments store it. *)
Definition length_bytes (n : Z) : list Z :=
  [u8 (Z.shiftr n 56); u8 (Z.shiftr n 48); u8 (Z.shiftr n 40); u8 (Z.shiftr n 32);
   u8 (Z.shiftr n 24); u8 (Z.shiftr n 16); u8 (Z.shiftr n 8); u8 n].

(** One byte of the digest: [(uint8_t)((word >> shift) & 0xFF)]. *)
Definition byte_at (w shift : Z) : Z := u8 (Z.land (Z.shiftr w shift) 0xFF).

Section streaming.
Context (transform : list Z -> list Z -> list Z).

(** The [while (i < len)] of the update functions, on the bytes not yet copied;
    every turn copies at least one. *)
Fixpoint hash_update_loop (fuel : nat) (ctx : hash_ctx) (data : list Z) : option hash_ctx :=
  match data with
  | [] => Some ctx
  | _ =>
      match fuel with
      | O => None
      | S fuel =>
          let len := Z.of_nat (length data) in
          let space := u32 (64 - datalen ctx) in
          let to_copy := if len <? space then len else space in
          let buf := blit (buffer ctx) (Z.to_nat (datalen ctx)) (take (Z.to_nat to_copy) data) in
          let dlen := u32 (datalen ctx + to_copy) in
          let rest := drop (Z.to_nat to_copy) data in
          if dlen =? 64 then
            hash_update_loop fuel (HashCtx buf 0 (u64 (bitlen ctx + 512)) (transform (state ctx) buf)) rest
          else hash_update_loop fuel (HashCtx buf dlen (bitlen ctx) (state ctx)) rest
      end
  end.
Definition hash_update (ctx : hash_ctx) (data : list Z) : option hash_ctx :=
  hash_update_loop (length data) ctx data.

(** A sequence of calls of the update function. *)
Fixpoint hash_updates (ctx : hash_ctx) (chunks : list (list Z)) : option hash_ctx :=
  match chunks with
  | [] => Some ctx
  | data :: chunks => ctx ← hash_update ctx data; hash_updates ctx chunks
  end.

(** The final functions up to the output of the digest. *)
Definition hash_final (ctx : hash_ctx) : hash_ctx :=
  let orig_datalen := datalen ctx in
  let total_bitlen := u64 (bitlen ctx + orig_datalen * 8) in
  let buf := blit (buffer ctx) (Z.to_nat orig_datalen) [0x80] in
  let dlen := orig_datalen + 1 in
  let '(buf, st) :=
    if orig_datalen <? 56 then
      (blit buf (Z.to_nat dlen) (replicate (Z.to_nat (56 - dlen)) 0), state ctx)
    else
      let buf := blit buf (Z.to_nat dlen) (replicate (Z.to_nat (64 - dlen)) 0) in
      (blit buf 0 (replicate 56 0), transform (state ctx) buf)
  in
  let buf := blit buf 56 (length_bytes total_bitlen) in
  HashCtx buf 56 (bitlen ctx) (transform st buf).

(** ** Specification *)

Fixpoint split64 (fuel : nat) (l : list Z) : list (list Z) :=
  match fuel, l with
  | S fuel, _ :: _ => take 64 l :: split64 fuel (drop 64 l)
  | _, _ => []
  end.

(** Padding: a one bit, zeros up to 8 bytes before a block boundary, the length. *)
Definition padded (msg : list Z) : list Z :=
  msg ++ [0x80] ++ replicate (Z.to_nat ((119 - Z.of_nat (length msg) mod 64) mod 64)) 0
  ++ length_bytes (u64 (8 * Z.of_nat (length msg))).

Definition hash_spec (init : list Z) (msg : list Z) : list Z :=
  foldl transform init (split64 (length (padded msg)) (padded msg)).

(** ** The context holds the blocks hashed so far and the rest of the message *)

Context (init : list Z).

Definition block (b : list Z) : Prop := length b = 64%nat.

Definition absorbed (ctx : hash_ctx) (msg : list Z) : Prop :=
  exists bs r, msg = concat bs ++ r /\ Forall block bs /\ (length r < 64)%nat
    /\ state ctx = foldl transform init bs /\ datalen ctx = Z.of_nat (length r)
    /\ take (length r) (buffer ctx) = r /\ length (buffer ctx) = 64%nat
    /\ bitlen ctx = u64 (512 * Z.of_nat (length bs)).

Lemma update_turn fuel ctx data : data <> [] ->
  hash_update_loop (S fuel) ctx data =
    let len := Z.of_nat (length data) in
    let space := u32 (64 - datalen ctx) in
    let to_copy := if len <? space then len else space in
    let buf := blit (buffer ctx) (Z.to_nat (datalen ctx)) (take (Z.to_nat to_copy) data) in
    let dlen := u32 (datalen ctx + to_copy) in
    let rest := drop (Z.to_nat to_copy) data in
    if dlen =? 64 then
      hash_update_loop fuel (HashCtx buf 0 (u64 (bitlen ctx + 512)) (transform (state ctx) buf)) rest
    else hash_update_loop fuel (HashCtx buf dlen (bitlen ctx) (state ctx)) rest.
Proof. by destruct data. Qed.

Lemma update_loop_ok fuel : forall ctx msg data,
  absorbed ctx msg -> (length data <= fuel)%nat ->
  exists ctx', hash_update_loop fuel ctx data = Some ctx' /\ absorbed ctx' (msg ++ data).
Proof.
  induction fuel as [|fuel IH]; intros ctx msg data Ha Hl.
  { destruct data; [|simpl in Hl; lia]. exists ctx. by rewrite app_nil_r. }
  destruct (decide (data = [])) as [->|Hne]; [exists ctx; by rewrite app_nil_r|].
  rewrite update_turn by done.
  destruct Ha as (bs & r & -> & Hbs & Hr & Est & Edl & Ebuf & Hbl & Ebit).
  assert (length data <> 0%nat) as Hd0 by (by destruct data).
  cbv zeta. rewrite Edl. rewrite (uwrap_small 32 (64 - _)) by (unfold ubound; lia).
  set (k := Nat.min (length data) (64 - length r)).
  replace (if Z.of_nat (length data) <? 64 - Z.of_nat (length r) then Z.of_nat (length data)
           else 64 - Z.of_nat (length r)) with (Z.of_nat k) by (subst k; destruct (Z.ltb_spec (Z.of_nat (length data)) (64 - Z.of_nat (length r))); lia).
  rewrite !Nat2Z.id. assert (length (take k data) = k) as Hk by (rewrite length_take; lia).
  rewrite (uwrap_small 32 (_ + Z.of_nat k)) by (unfold ubound; lia).
  assert (length r + k <= 64)%nat as Hrk by lia.
  pose proof (blit_length (buffer ctx) (length r) (take k data)) as Hbl'.
  pose proof (blit_prefix (buffer ctx) (length r) (take k data)) as Hpre. rewrite Hk, Hbl, Ebuf in *.
  destruct (Z.eqb_spec (Z.of_nat (length r) + Z.of_nat k) 64) as [E64|E64].
  - assert (blit (buffer ctx) (length r) (take k data) = r ++ take k data) as Eb.
    { rewrite blit_full by lia. by rewrite Ebuf. }
    rewrite Eb. destruct (IH (HashCtx (r ++ take k data) 0 (u64 (bitlen ctx + 512)) (transform (state ctx) (r ++ take k data)))
      (concat (bs ++ [r ++ take k data])) (drop k data)) as (ctx' & E' & Ha').
    + exists (bs ++ [r ++ take k data]), []. simpl. split_and!; try done.
      * by rewrite app_nil_r.
      * apply Forall_app. split; [done|]. apply Forall_singleton. unfold block. rewrite length_app. lia.
      * lia.
      * by rewrite foldl_snoc, Est.
      * rewrite length_app, Hk. lia.
      * rewrite Ebit. unfold uwrap. rewrite Zplus_mod_idemp_l. f_equal. rewrite length_app. simpl. lia.
    + rewrite length_drop. lia.
    + exists ctx'. split; [done|]. rewrite concat_app in Ha'. simpl in Ha'. rewrite app_nil_r in Ha'.
      rewrite <-!app_assoc in Ha'. rewrite take_drop in Ha'. by rewrite <-app_assoc.
  - assert (k = length data) as -> by lia. 
    rewrite (take_ge data), (drop_ge data) by lia. rewrite (take_ge data) in Hpre by lia. rewrite (take_ge data) in Hbl' by lia.
    destruct (IH (HashCtx (blit (buffer ctx) (length r) data) (Z.of_nat (length r) + Z.of_nat (length data)) (bitlen ctx) (state ctx))
      (concat bs ++ r ++ data) []) as (ctx' & E' & Ha').
    + exists bs, (r ++ data). simpl. rewrite length_app. split_and!; first [done | lia | apply Hpre; lia | apply Hbl'; lia].
    + simpl. lia.
    + exists ctx'. split; [done|]. rewrite app_nil_r in Ha'. by rewrite <-app_assoc.
Qed.

Lemma update_ok ctx msg data : absorbed ctx msg ->
  exists ctx', hash_update ctx data = Some ctx' /\ absorbed ctx' (msg ++ data).
Proof. intros Ha. by apply update_loop_ok. Qed.

Lemma updates_ok chunks : forall ctx msg, absorbed ctx msg ->
  exists ctx', hash_updates ctx chunks = Some ctx' /\ absorbed ctx' (msg ++ concat chunks).
Proof.
  induction chunks as [|d chunks IH]; intros ctx msg Ha; simpl.
  - exists ctx. by rewrite app_nil_r.
  - destruct (update_ok ctx msg d Ha) as (ctx1 & -> & Ha1). simpl.
    destruct (IH _ _ Ha1) as (ctx' & E & Ha'). exists ctx'. by rewrite app_assoc.
Qed.

Lemma split64_concat bs : forall fuel, Forall block bs -> (length bs <= fuel)%nat ->
  split64 fuel (concat bs) = bs.
Proof.
  induction bs as [|b bs IH]; intros [|fuel] Hb Hl; simpl in *; try done; [lia|].
  apply Forall_cons in Hb as [Hb Hbs]. unfold block in Hb.
  destruct b as [|x b]; [done|]. change (concat ((x :: b) :: bs)) with ((x :: b) ++ concat bs).
  cbn [app]. rewrite app_comm_cons, take_app_length', drop_app_length' by done. by rewrite IH by (done || lia).
Qed.

Lemma concat_blocks_length bs : Forall block bs -> length (concat bs) = (64 * length bs)%nat.
Proof. induction 1 as [|b bs Hb _ IH]; [done|]. simpl. rewrite length_app, IH, Hb. lia. Qed.

Lemma hash_spec_blocks msg bs : Forall block bs -> padded msg = concat bs ->
  hash_spec init msg = foldl transform init bs.
Proof.
  intros Hb E. unfold hash_spec. rewrite E, split64_concat; [done|done|].
  rewrite concat_blocks_length by done. lia.
Qed.

Lemma total_bits ctx msg : absorbed ctx msg ->
  u64 (bitlen ctx + datalen ctx * 8) = u64 (8 * Z.of_nat (length msg)).
Proof.
  intros (bs & r & -> & Hbs & _ & _ & -> & _ & _ & ->). unfold uwrap. rewrite Zplus_mod_idemp_l.
  f_equal. rewrite length_app, concat_blocks_length by done. lia.
Qed.

Lemma final_ok ctx msg : absorbed ctx msg -> state (hash_final ctx) = hash_spec init msg.
Proof.
  intros Ha. pose proof (total_bits _ _ Ha) as Ebits. unfold hash_final. rewrite Ebits.
  destruct Ha as (bs & r & Em & Hbs & Hr & Est & Edl & Ebuf & Hbl & _).
  set (L := length_bytes _). assert (length L = 8%nat) as HL by done.
  assert (Z.of_nat (length msg) mod 64 = Z.of_nat (length r)) as Emod.
  { rewrite Em, length_app, concat_blocks_length by done. zdm. }
  rewrite Edl, !Nat2Z.id. replace (Z.to_nat (Z.of_nat (length r) + 1)) with (length r + 1)%nat by lia.
  rewrite <-(take_drop (length r) (buffer ctx)), Ebuf. set (D := drop (length r) (buffer ctx)).
  assert (length D = 64 - length r)%nat as HD by (subst D; rewrite length_drop; lia). clearbody D.
  rewrite blit_after by done. rewrite app_assoc. destruct (Z.ltb_spec (Z.of_nat (length r)) 56) as [H56|H56]; cbv zeta; cbn [state].
  - rewrite blit_after by (rewrite length_app; simpl; lia).
    rewrite (app_assoc (r ++ _)), blit_after by (rewrite !length_app, length_replicate; simpl; lia).
    rewrite (drop_ge (drop _ _)) by (rewrite !length_drop, length_replicate; simpl; lia). rewrite app_nil_r.
    set (b1 := (_ ++ replicate _ _) ++ L). assert (block b1) as Hb1.
    { subst b1. unfold block. rewrite !length_app, length_replicate, HL. simpl. lia. }
    rewrite (hash_spec_blocks msg (bs ++ [b1])); [by rewrite foldl_snoc, Est| |].
    + apply Forall_app. by repeat constructor.
    + rewrite concat_app. unfold padded, b1. rewrite Emod, Em at 1. cbn [concat]. rewrite app_nil_r, <-!app_assoc.
      do 4 f_equal. f_equal. zdm.
  - rewrite blit_after by (rewrite length_app; simpl; lia).
    rewrite (drop_ge (drop 1 D)) by (rewrite length_drop, length_replicate; lia). rewrite app_nil_r.
    set (b1 := _ ++ replicate _ _) at 1. assert (block b1) as Hb1.
    { subst b1. unfold block. rewrite !length_app, length_replicate. simpl. lia. }
    rewrite (blit_after [] b1 _ 0) by done. cbn [app]. rewrite blit_after by done.
    rewrite (drop_ge (drop _ _)) by (rewrite !length_drop, HL, Hb1, length_replicate; lia). rewrite app_nil_r.
    set (b2 := replicate 56 0 ++ L).
    rewrite (hash_spec_blocks msg (bs ++ [b1; b2])); [by rewrite foldl_app, Est| |].
    + apply Forall_app. by repeat constructor.
    + rewrite concat_app. unfold padded, b1, b2. rewrite Emod, Em at 1. cbn [concat]. rewrite app_nil_r, <-!app_assoc.
      do 3 f_equal. rewrite app_assoc, <-replicate_add. f_equal. f_equal. zdm.
Qed.

Lemma absorbed_nil : absorbed (HashCtx (replicate 64 0) 0 0 init) [].
Proof. exists [], []. split_and!; first [done | apply Forall_nil_2 | simpl; lia]. Qed.
End streaming.

(** A bitwise fact on words: the disjoint halves of a selection can be joined by
    [|] or by [^], and so can the three terms of a majority. *)
Lemma testbit_not32 b i : 0 <= i -> Z.testbit (u32 (Z.lnot b)) i = (i <? 32) && negb (Z.testbit b i).
Proof.
  intros Hi. unfold uwrap. destruct (Z.ltb_spec i 32).
  - rewrite Z.mod_pow2_bits_low by lia. by rewrite Z.lnot_spec.
  - by rewrite Z.mod_pow2_bits_high by lia.
Qed.
Lemma choose_or_xor b c d :
  Z.lor (Z.land b c) (Z.land (u32 (Z.lnot b)) d) = Z.lxor (Z.land b c) (Z.land (u32 (Z.lnot b)) d).
Proof.
  apply Z.bits_inj'. intros i Hi. rewrite Z.lor_spec, Z.lxor_spec, !Z.land_spec, testbit_not32 by done.
  by destruct (Z.testbit b i), (Z.testbit c i), (Z.testbit d i), (i <? 32).
Qed.
Lemma majority_or_xor b c d :
  Z.lor (Z.lor (Z.land b c) (Z.land b d)) (Z.land c d)
  = Z.lxor (Z.lxor (Z.land b c) (Z.land b d)) (Z.land c d).
Proof.
  apply Z.bits_inj'. intros i Hi. rewrite !Z.lor_spec, !Z.lxor_spec, !Z.land_spec.
  by destruct (Z.testbit b i), (Z.testbit c i), (Z.testbit d i).
Qed.

(** ** Message schedules *)

(** [W[i]] for the first [n] words past the sixteen of the block, each computed from
    those before it. *)
Fixpoint extend (next : nat -> list Z -> Z) (n : nat) (W : list Z) : list Z :=
  match n with
  | O => W
  | S n => extend next n (W ++ [next (length W) W])
  end.

(** The word of four bytes, the most significant first. *)
Definition word32 (buf : list Z) (i : nat) : Z :=
  Z.lor (Z.lor (Z.lor (u32 (Z.shiftl (nth (4 * i) buf 0) 24)) (u32 (Z.shiftl (nth (4 * i + 1) buf 0) 16)))
    (u32 (Z.shiftl (nth (4 * i + 2) buf 0) 8))) (nth (4 * i + 3) buf 0).

Lemma extend_length next n : forall W, length (extend next n W) = (length W + n)%nat.
Proof. induction n as [|n IH]; intros W; simpl; [lia|]. rewrite IH, length_app. simpl. lia. Qed.
Lemma extend_prefix next n : forall W t, (t < length W)%nat -> nth t (extend next n W) 0 = nth t W 0.
Proof.
  induction n as [|n IH]; intros W t Ht; simpl; [done|]. rewrite IH by (rewrite length_app; lia).
  by rewrite app_nth1.
Qed.

(** Every later word is [next] of the finished schedule, when [next t] reads words
    before [t] only. *)
Lemma extend_next next n : forall W t,
  (forall t W W', (16 <= t)%nat -> (forall j, (j < t)%nat -> nth j W 0 = nth j W' 0) -> next t W = next t W') ->
  (16 <= length W)%nat -> (length W <= t < length W + n)%nat ->
  nth t (extend next n W) 0 = next t (extend next n W).
Proof.
  induction n as [|n IH]; intros W t Hnext H16 Ht; simpl; [lia|].
  destruct (decide (t = length W)) as [->|].
  - rewrite extend_prefix by (rewrite length_app; simpl; lia). rewrite nth_middle.
    apply Hnext; [done|]. intros j Hj. rewrite extend_prefix by (rewrite length_app; simpl; lia).
    by rewrite app_nth1.
  - apply IH; [done|rewrite length_app; simpl; lia..].
Qed.

(** ** Words *)

Notation word := (ubound 32).

Lemma testbit_word x : 0 <= x -> (forall i, 32 <= i -> Z.testbit x i = false) -> word x.
Proof.
  intros Hx Hi. assert (x mod 2 ^ 32 = x) as <-; [|by apply uwrap_bound].
  apply Z.bits_inj'. intros i H0. destruct (decide (i < 32)).
  - by apply Z.mod_pow2_bits_low.
  - rewrite Z.mod_pow2_bits_high by lia. symmetry. apply Hi. lia.
Qed.
Lemma word_lxor x y : word x -> word y -> word (Z.lxor x y).
Proof.
  intros Hx Hy. apply testbit_word.
  - apply Z.lxor_nonneg. unfold ubound in *. lia.
  - intros i Hi. rewrite Z.lxor_spec, !(testbit_above 32) by (done || lia). done.
Qed.
Lemma word_u32 x : word (u32 x).
Proof. by apply uwrap_bound. Qed.

(** Rotations, with [+] for the [|] of the two parts. *)
Definition ROTL (n x : Z) : Z := (x * 2 ^ n) mod 2 ^ 32 + x / 2 ^ (32 - n).
Lemma rotate_ok n x : word x -> 0 < n < 32 ->
  Z.lor (u32 (Z.shiftl x n)) (Z.shiftr x (32 - n)) = ROTL n x /\ word (ROTL n x).
Proof.
  intros Hx Hn. unfold ROTL, uwrap. rewrite shiftr_div, Z.shiftl_mul_pow2 by lia.
  assert (2 ^ 32 = 2 ^ (32 - n) * 2 ^ n) as E32 by (rewrite <-Z.pow_add_r by lia; f_equal; lia).
  assert (0 < 2 ^ n) by (apply Z.pow_pos_nonneg; lia). assert (0 < 2 ^ (32 - n)) by (apply Z.pow_pos_nonneg; lia).
  assert (0 <= x / 2 ^ (32 - n) < 2 ^ n) as Hlow.
  { unfold ubound in Hx. split; [apply Z.div_pos; lia|]. apply Z.div_lt_upper_bound; lia. }
  rewrite E32, Z.mul_mod_distr_r by lia.
  pose proof (Z.mod_pos_bound x (2 ^ (32 - n))).
  split; [apply lor_low; lia|]. unfold ubound. rewrite E32. nia.
Qed.

(** Big-endian words of a block, and the bytes of a word. *)
Definition be_word (b : list Z) (i : nat) : Z :=
  nth (4 * i) b 0 * 2 ^ 24 + nth (4 * i + 1) b 0 * 2 ^ 16 + nth (4 * i + 2) b 0 * 2 ^ 8 + nth (4 * i + 3) b 0.
Definition be_bytes (w : Z) : list Z :=
  [w / 2 ^ 24; (w / 2 ^ 16) mod 2 ^ 8; (w / 2 ^ 8) mod 2 ^ 8; w mod 2 ^ 8].

Lemma word32_be b i : Forall byte b -> word32 b i = be_word b i /\ word (be_word b i).
Proof.
  intros Hb. unfold word32, be_word.
  pose proof (nth_byte b (4 * i) Hb). pose proof (nth_byte b (4 * i + 1) Hb).
  pose proof (nth_byte b (4 * i + 2) Hb). pose proof (nth_byte b (4 * i + 3) Hb). unfold byte in *.
  rewrite !Z.shiftl_mul_pow2, !uwrap_small by (unfold ubound; lia). split; [|unfold ubound; lia].
  set (x0 := nth (4 * i) b 0) in *. set (x1 := nth (4 * i + 1) b 0) in *. set (x2 := nth (4 * i + 2) b 0) in *.
  rewrite (lor_low x0 24) by lia.
  replace (x0 * 2 ^ 24 + x1 * 2 ^ 16) with ((x0 * 2 ^ 8 + x1) * 2 ^ 16) by lia. rewrite lor_low by lia.
  replace ((x0 * 2 ^ 8 + x1) * 2 ^ 16 + x2 * 2 ^ 8) with ((x0 * 2 ^ 16 + x1 * 2 ^ 8 + x2) * 2 ^ 8) by lia.
  rewrite lor_low by lia. lia.
Qed.
Lemma be_bytes_ok w : word w -> [byte_at w 24; byte_at w 16; byte_at w 8; byte_at w 0] = be_bytes w.
Proof.
  intros Hw. unfold byte_at, be_bytes, ubound in *. unfold uwrap. rewrite !land_0xff, !shiftr_div by lia.
  change (2 ^ 0) with 1. rewrite Z.div_1_r, !Z.mod_mod by lia. f_equal. apply Z.mod_small. zdm.
Qed.

Lemma map_nth_all {A} (l : list A) d : map (fun i => nth i l d) (seq 0 (length l)) = l.
Proof. induction l as [|x l IH]; [done|]. cbn. f_equal. by rewrite <-seq_shift, map_map. Qed.

Lemma foldl_ext_in {A B} (f g : A -> B -> A) l : forall a,
  (forall a b, b ∈ l -> f a b = g a b) -> foldl f a l = foldl g a l.
Proof.
  induction l as [|b l IH]; intros a H; simpl; [done|]. rewrite H by left.
  apply IH. intros. apply H. by right.
Qed.

(** Two compression functions that agree on the states and blocks that occur give
    the same hash. *)
Lemma hash_spec_ext (f g : list Z -> list Z -> list Z) (P : list Z -> Prop) init msg :
  P init -> Forall byte msg ->
  (forall st b, P st -> Forall byte b -> f st b = g st b /\ P (g st b)) ->
  hash_spec f init msg = hash_spec g init msg /\ P (hash_spec g init msg).
Proof.
  intros Hinit Hmsg Hfg. unfold hash_spec.
  assert (Forall byte (padded msg)) as Hp.
  { unfold padded. rewrite !Forall_app. split_and!; [done|by repeat constructor| |].
    - apply Forall_replicate. unfold byte. lia.
    - unfold length_bytes. repeat constructor; apply u8_byte. }
  revert Hp Hinit. generalize (padded msg) as l. intros l. generalize (length l) as fuel. intros fuel.
  revert l init. induction fuel as [|fuel IH]; intros [|x l] st Hl Hst; try done. cbn [split64 foldl].
  destruct (Hfg st (take 64 (x :: l)) Hst) as [-> Hst']; [by apply Forall_take|].
  apply IH; [by apply Forall_drop|done].
Qed.
