(* ===== verification/Sha.v ===== *)
(** * SHA-1, SHA-256 and HMAC-SHA-256
      (src/crypto/xylem-sha1.c, src/crypto/xylem-sha256.c, src/crypto/xylem-hmac256.c)

    The compression functions as the code computes them, the streaming interface
    over them, and the standard's hash functions (FIPS 180-4, RFC 2104) they are
    proved to compute.  The allocation of a context may fail: the outcome of each
    [calloc] is an argument, and using a null context is [None]. *)

From S2P Require Import Prelude BlockHash.

(** The functions of FIPS 180-4, section 4.1. *)
Definition Ch (x y z : Z) : Z := Z.lxor (Z.land x y) (Z.land (u32 (Z.lnot x)) z).
Definition Parity (x y z : Z) : Z := Z.lxor (Z.lxor x y) z.
Definition Maj (x y z : Z) : Z := Z.lxor (Z.lxor (Z.land x y) (Z.land x z)) (Z.land y z).

Module Sha1.

Definition _sha1_rol32 (value : Z) (bits : Z) : Z :=
  Z.lor (u32 (Z.shiftl value bits)) (Z.shiftr value (32 - bits)).

(** The second loop of [_sha1_transform]: [W[i]] from the words before it. *)
Definition W_next (i : nat) (W : list Z) : Z :=
  _sha1_rol32 (Z.lxor (Z.lxor (Z.lxor (nth (i - 3) W 0) (nth (i - 8) W 0)) (nth (i - 14) W 0))
    (nth (i - 16) W 0)) 1.

(** The body of the four round loops, for their function [f] and constant [k]. *)
Definition sha1_round (f : Z -> Z -> Z -> Z) (k : Z) (Wi : Z) (v : Z * Z * Z * Z * Z) : Z * Z * Z * Z * Z :=
  let '(a, b, c, d, e) := v in
  let temp := u32 (_sha1_rol32 a 5 + f b c d + e + Wi + k) in
  (temp, a, _sha1_rol32 b 30, c, d).
Definition sha1_loop (f : Z -> Z -> Z -> Z) (k : Z) (W : list Z) (from n : nat)
    (v : Z * Z * Z * Z * Z) : Z * Z * Z * Z * Z :=
  foldl (fun v i => sha1_round f k (nth i W 0) v) v (seq from n).

Definition _sha1_transform (state : list Z) (buffer : list Z) : list Z :=
  let W := extend W_next 64 (map (word32 buffer) (seq 0 16)) in
  let v := (nth 0 state 0, nth 1 state 0, nth 2 state 0, nth 3 state 0, nth 4 state 0) in
  let v := sha1_loop (fun b c d => Z.lor (Z.land b c) (Z.land (u32 (Z.lnot b)) d)) 0x5A827999 W 0 20 v in
  let v := sha1_loop (fun b c d => Z.lxor (Z.lxor b c) d) 0x6ED9EBA1 W 20 20 v in
  let v := sha1_loop (fun b c d => Z.lor (Z.lor (Z.land b c) (Z.land b d)) (Z.land c d)) 0x8F1BBCDC W 40 20 v in
  let v := sha1_loop (fun b c d => Z.lxor (Z.lxor b c) d) 0xCA62C1D6 W 60 20 v in
  let '(a, b, c, d, e) := v in
  [u32 (nth 0 state 0 + a); u32 (nth 1 state 0 + b); u32 (nth 2 state 0 + c);
   u32 (nth 3 state 0 + d); u32 (nth 4 state 0 + e)].

Definition sha1_init : list Z := [0x67452301; 0xEFCDAB89; 0x98BADCFE; 0x10325476; 0xC3D2E1F0].

Definition xylem_sha1_create (calloc_ok : bool) : option hash_ctx :=
  if calloc_ok then Some (HashCtx (replicate 64 0) 0 0 sha1_init) else None.
Definition xylem_sha1_update (ctx : hash_ctx) (data : list Z) : option hash_ctx :=
  hash_update _sha1_transform ctx data.
Definition xylem_sha1_final (ctx : hash_ctx) : list Z * hash_ctx :=
  let ctx := hash_final _sha1_transform ctx in
  (map (fun i => byte_at (nth (Nat.shiftr i 2) (state ctx) 0) ((3 - Z.land (Z.of_nat i) 3) * 8)) (seq 0 20), ctx).

(** A caller hashing the pieces [chunks] of a message. *)
Definition sha1_of_chunks (calloc_ok : bool) (chunks : list (list Z)) : option (list Z) :=
  ctx ← xylem_sha1_create calloc_ok;
  ctx ← hash_updates _sha1_transform ctx chunks;
  Some (fst (xylem_sha1_final ctx)).

(** ** FIPS 180-4 *)


(** [f_t] and [K_t], the latter from the square roots of 2, 3, 5 and 10. *)
Definition fips_f (t : nat) : Z -> Z -> Z -> Z :=
  if (t <? 20)%nat then Ch else if (t <? 40)%nat then Parity else if (t <? 60)%nat then Maj else Parity.
Definition fips_K (t : nat) : Z :=
  Z.sqrt (2 ^ 60 * (if (t <? 20)%nat then 2 else if (t <? 40)%nat then 3 else if (t <? 60)%nat then 5 else 10)).

Fixpoint fips_W (fuel : nat) (M : list Z) (t : nat) : Z :=
  match fuel with
  | O => 0
  | S fuel =>
      if (t <? 16)%nat then nth t M 0
      else ROTL 1 (Z.lxor (Z.lxor (Z.lxor (fips_W fuel M (t - 3)) (fips_W fuel M (t - 8)))
                    (fips_W fuel M (t - 14))) (fips_W fuel M (t - 16)))
  end.
Definition fips_step (M : list Z) (v : Z * Z * Z * Z * Z) (t : nat) : Z * Z * Z * Z * Z :=
  let '(a, b, c, d, e) := v in
  ((ROTL 5 a + fips_f t b c d + e + fips_K t + fips_W (S t) M t) mod 2 ^ 32, a, ROTL 30 b, c, d).
Definition fips_sha1_compress (H b : list Z) : list Z :=
  let M := map (be_word b) (seq 0 16) in
  let '(a, b, c, d, e) :=
    foldl (fips_step M) (nth 0 H 0, nth 1 H 0, nth 2 H 0, nth 3 H 0, nth 4 H 0) (seq 0 80) in
  [(a + nth 0 H 0) mod 2 ^ 32; (b + nth 1 H 0) mod 2 ^ 32; (c + nth 2 H 0) mod 2 ^ 32;
   (d + nth 3 H 0) mod 2 ^ 32; (e + nth 4 H 0) mod 2 ^ 32].
Definition fips_sha1 (msg : list Z) : list Z :=
  concat (map be_bytes (hash_spec fips_sha1_compress
    [0x67452301; 0xEFCDAB89; 0x98BADCFE; 0x10325476; 0xC3D2E1F0] msg)).

(** ** The code computes it *)

Lemma rol32_ok n x : word x -> 0 < n < 32 -> _sha1_rol32 x n = ROTL n x /\ word (ROTL n x).
Proof. apply rotate_ok. Qed.

Lemma W_next_local t W W' : (16 <= t)%nat -> (forall j, (j < t)%nat -> nth j W 0 = nth j W' 0) ->
  W_next t W = W_next t W'.
Proof. intros Ht H. unfold W_next. by rewrite !H by lia. Qed.

Lemma schedule_ok b : Forall byte b ->
  let M := map (be_word b) (seq 0 16) in
  forall t fuel, (t < fuel)%nat -> (t < 80)%nat ->
  nth t (extend W_next 64 (map (word32 b) (seq 0 16))) 0 = fips_W fuel M t /\ word (fips_W fuel M t).
Proof.
  intros Hb M t. assert (map (word32 b) (seq 0 16) = M) as ->.
  { apply map_ext. intros i. by apply word32_be. }
  induction (lt_wf t) as [t _ IH]. intros [|fuel] Hf Ht; [lia|]. cbn [fips_W].
  assert (length M = 16%nat) as HM by done. destruct (Nat.ltb_spec t 16) as [H16|H16].
  - rewrite extend_prefix by lia. split; [done|]. subst M.
    rewrite (nth_indep _ 0 (be_word b 0)) by lia. rewrite map_nth. by apply word32_be.
  - rewrite extend_next by (apply W_next_local || lia).
    unfold W_next at 1. destruct (IH (t - 3)%nat ltac:(lia) fuel) as [-> ?]; [lia..|].
    destruct (IH (t - 8)%nat ltac:(lia) fuel) as [-> ?]; [lia..|].
    destruct (IH (t - 14)%nat ltac:(lia) fuel) as [-> ?]; [lia..|].
    destruct (IH (t - 16)%nat ltac:(lia) fuel) as [-> ?]; [lia..|].
    apply rol32_ok; [by repeat apply word_lxor|lia].
Qed.

Definition words5 (v : Z * Z * Z * Z * Z) : Prop :=
  let '(a, b, c, d, e) := v in word a /\ word b /\ word c /\ word d /\ word e.

(** One loop of rounds is the standard's steps of its range. *)
Lemma loop_ok M W f k from n : forall v, words5 v ->
  (forall t, (from <= t < from + n)%nat -> nth t W 0 = fips_W (S t) M t
     /\ k = fips_K t /\ forall x y z, f x y z = fips_f t x y z) ->
  sha1_loop f k W from n v = foldl (fips_step M) v (seq from n) /\ words5 (foldl (fips_step M) v (seq from n)).
Proof.
  unfold sha1_loop. revert from. induction n as [|n IH]; intros from v Hv H; [done|]. cbn [seq foldl].
  assert (sha1_round f k (nth from W 0) v = fips_step M v from /\ words5 (fips_step M v from)) as [-> Hv'].
  { destruct v as [[[[a b] c] d] e], Hv as (Ha & Hb & Hc & Hd & He). destruct (H from ltac:(lia)) as (-> & -> & Hf).
    unfold sha1_round, fips_step. destruct (rol32_ok 5 a Ha ltac:(lia)) as [-> _].
    destruct (rol32_ok 30 b Hb ltac:(lia)) as [-> Hb']. rewrite Hf. split.
    - repeat f_equal. unfold uwrap. f_equal. lia.
    - split_and!; try done. apply word_u32. }
  apply IH; [done|]. intros t Ht. apply H. lia.
Qed.

(** The facts of [loop_ok] for the steps of one of the four ranges. *)
Ltac in_range HW Hf :=
  intros t Ht; split_and!;
  [ apply HW; lia
  | unfold fips_K; repeat match goal with |- context [(t <? ?k)%nat] => destruct (Nat.ltb_spec t k); try lia end; vm_compute; reflexivity
  | intros x y z; unfold fips_f; repeat match goal with |- context [(t <? ?k)%nat] => destruct (Nat.ltb_spec t k); try lia end; first [apply Hf | reflexivity] ].

Lemma transform_ok st b : length st = 5%nat -> Forall word st -> Forall byte b ->
  _sha1_transform st b = fips_sha1_compress st b
  /\ length (fips_sha1_compress st b) = 5%nat /\ Forall word (fips_sha1_compress st b).
Proof.
  intros Hl Hst Hb. pose proof (schedule_ok b Hb) as HW. cbv zeta in HW.
  unfold _sha1_transform, fips_sha1_compress. set (W := extend _ _ _) in *. set (M := map (be_word b) _) in *.
  change (seq 0 80) with (seq 0 20 ++ seq 20 20 ++ seq 40 20 ++ seq 60 20). rewrite !foldl_app.
  assert (words5 (nth 0 st 0, nth 1 st 0, nth 2 st 0, nth 3 st 0, nth 4 st 0)) as H0.
  { destruct st as [|s0 [|s1 [|s2 [|s3 [|s4 []]]]]]; try done. rewrite !Forall_cons in Hst. destruct Hst as (? & ? & ? & ? & ? & _). by split_and!. }
  assert (forall t, (t < 80)%nat -> nth t W 0 = fips_W (S t) M t) as HW' by (intros; apply HW; lia).
  clearbody W M. clear HW.
  destruct (loop_ok M W (fun b c d => Z.lor (Z.land b c) (Z.land (u32 (Z.lnot b)) d)) 0x5A827999 0 20 _ H0) as [-> H1];
    [in_range HW' choose_or_xor|].
  destruct (loop_ok M W (fun b c d => Z.lxor (Z.lxor b c) d) 0x6ED9EBA1 20 20 _ H1) as [-> H2]; [in_range HW' I|].
  destruct (loop_ok M W (fun b c d => Z.lor (Z.lor (Z.land b c) (Z.land b d)) (Z.land c d)) 0x8F1BBCDC 40 20 _ H2) as [-> H3];
    [in_range HW' majority_or_xor|].
  destruct (loop_ok M W (fun b c d => Z.lxor (Z.lxor b c) d) 0xCA62C1D6 60 20 _ H3) as [-> H4]; [in_range HW' I|].
  destruct (foldl _ _ (seq 60 20)) as [[[[a' b'] c'] d'] e']. split_and!; [|done|].
  - unfold uwrap. by rewrite (Z.add_comm a'), (Z.add_comm b'), (Z.add_comm c'), (Z.add_comm d'), (Z.add_comm e').
  - repeat constructor; apply word_u32.
Qed.

Lemma digest_ok st : length st = 5%nat -> Forall word st ->
  map (fun i => byte_at (nth (Nat.shiftr i 2) st 0) ((3 - Z.land (Z.of_nat i) 3) * 8)) (seq 0 20)
  = concat (map be_bytes st).
Proof.
  intros Hl Hw. destruct st as [|s0 [|s1 [|s2 [|s3 [|s4 []]]]]]; try done.
  rewrite !Forall_cons in Hw. destruct Hw as (H0 & H1 & H2 & H3 & H4 & _). cbn [map concat].
  rewrite <-(be_bytes_ok s0 H0), <-(be_bytes_ok s1 H1), <-(be_bytes_ok s2 H2), <-(be_bytes_ok s3 H3), <-(be_bytes_ok s4 H4).
  generalize byte_at. reflexivity.
Qed.

(** The message fed in pieces. *)
Lemma sha1_chunks_ok chunks : Forall (Forall byte) chunks ->
  sha1_of_chunks true chunks = Some (fips_sha1 (concat chunks)).
Proof.
  intros Hb. unfold sha1_of_chunks, xylem_sha1_create. cbn [mbind option_bind].
  destruct (updates_ok _ sha1_init chunks _ [] (absorbed_nil _sha1_transform _)) as (ctx & -> & Ha).
  cbn [mbind option_bind app xylem_sha1_final fst] in *. rewrite (final_ok _ _ _ _ Ha).
  destruct (hash_spec_ext _sha1_transform fips_sha1_compress (fun st => length st = 5%nat /\ Forall word st)
    sha1_init (concat chunks)) as [-> [Hl Hw]].
  - by repeat constructor.
  - by apply Forall_concat.
  - intros st b [Hl Hw] Hb'. by apply transform_ok.
  - by rewrite digest_ok.
Qed.

(** C30 SHA-1 of a message fed in any pieces: the 20 bytes returned are FIPS 180-4's
    hash of their concatenation (padding, message schedule, 80 steps and constants
    as the standard defines them), however the message is cut. *)
Theorem sha1_correct chunks : Forall (Forall byte) chunks ->
  sha1_of_chunks true chunks = Some (fips_sha1 (concat chunks)).
Proof. apply sha1_chunks_ok. Qed.
Lemma sha1_correct_witness :
  sha1_of_chunks true [[97]; [98; 99]] = Some (fips_sha1 [97; 98; 99])
  /\ sha1_of_chunks true [[97]; [98; 99]] = Some
      [0xa9; 0x99; 0x3e; 0x36; 0x47; 0x06; 0x81; 0x6a; 0xba; 0x3e;
       0x25; 0x71; 0x78; 0x50; 0xc2; 0x6c; 0x9c; 0xd0; 0xd8; 0x9d].
Proof.
  split; [|vm_compute; reflexivity].
  apply (sha1_correct [[97]; [98; 99]]). apply (bool_decide_unpack _). vm_compute. exact I.
Defined.
End Sha1.

Module Sha256.

Definition ROTRIGHT (a b : Z) : Z := Z.lor (Z.shiftr a b) (u32 (Z.shiftl a (32 - b))).
Definition CH (x y z : Z) : Z := Z.lxor (Z.land x y) (Z.land (u32 (Z.lnot x)) z).
Definition MAJ (x y z : Z) : Z := Z.lxor (Z.lxor (Z.land x y) (Z.land x z)) (Z.land y z).
Definition EP0 (x : Z) : Z := Z.lxor (Z.lxor (ROTRIGHT x 2) (ROTRIGHT x 13)) (ROTRIGHT x 22).
Definition EP1 (x : Z) : Z := Z.lxor (Z.lxor (ROTRIGHT x 6) (ROTRIGHT x 11)) (ROTRIGHT x 25).
Definition SIG0 (x : Z) : Z := Z.lxor (Z.lxor (ROTRIGHT x 7) (ROTRIGHT x 18)) (Z.shiftr x 3).
Definition SIG1 (x : Z) : Z := Z.lxor (Z.lxor (ROTRIGHT x 17) (ROTRIGHT x 19)) (Z.shiftr x 10).

(** Row by row as in the source. *)
Definition _sha256_k : list Z :=
  [0x428a2f98; 0x71374491; 0xb5c0fbcf; 0xe9b5dba5; 0x3956c25b; 0x59f111f1]
  ++ [0x923f82a4; 0xab1c5ed5; 0xd807aa98; 0x12835b01; 0x243185be; 0x550c7dc3]
  ++ [0x72be5d74; 0x80deb1fe; 0x9bdc06a7; 0xc19bf174; 0xe49b69c1; 0xefbe4786]
  ++ [0x0fc19dc6; 0x240ca1cc; 0x2de92c6f; 0x4a7484aa; 0x5cb0a9dc; 0x76f988da]
  ++ [0x983e5152; 0xa831c66d; 0xb00327c8; 0xbf597fc7; 0xc6e00bf3; 0xd5a79147]
  ++ [0x06ca6351; 0x14292967; 0x27b70a85; 0x2e1b2138; 0x4d2c6dfc; 0x53380d13]
  ++ [0x650a7354; 0x766a0abb; 0x81c2c92e; 0x92722c85; 0xa2bfe8a1; 0xa81a664b]
  ++ [0xc24b8b70; 0xc76c51a3; 0xd192e819; 0xd6990624; 0xf40e3585; 0x106aa070]
  ++ [0x19a4c116; 0x1e376c08; 0x2748774c; 0x34b0bcb5; 0x391c0cb3; 0x4ed8aa4a]
  ++ [0x5b9cca4f; 0x682e6ff3; 0x748f82ee; 0x78a5636f; 0x84c87814; 0x8cc70208]
  ++ [0x90befffa; 0xa4506ceb; 0xbef9a3f7; 0xc67178f2].

(** The second loop of [_sha256_transform]. *)
Definition m_next (i : nat) (m : list Z) : Z :=
  u32 (SIG1 (nth (i - 2) m 0) + nth (i - 7) m 0 + SIG0 (nth (i - 15) m 0) + nth (i - 16) m 0).

(** The body of its third loop; the working variables in the order [a..h]. *)
Definition sha256_round (m : list Z) (v : Z * Z * Z * Z * Z * Z * Z * Z) (i : nat) : Z * Z * Z * Z * Z * Z * Z * Z :=
  let '(a, b, c, d, e, f, g, h) := v in
  let t1 := u32 (h + EP1 e + CH e f g + nth i _sha256_k 0 + nth i m 0) in
  let t2 := u32 (EP0 a + MAJ a b c) in
  (u32 (t1 + t2), a, b, c, u32 (d + t1), e, f, g).

Definition _sha256_transform (state data : list Z) : list Z :=
  let m := extend m_next 48 (map (word32 data) (seq 0 16)) in
  let '(a, b, c, d, e, f, g, h) :=
    foldl (sha256_round m)
      (nth 0 state 0, nth 1 state 0, nth 2 state 0, nth 3 state 0,
       nth 4 state 0, nth 5 state 0, nth 6 state 0, nth 7 state 0) (seq 0 64) in
  [u32 (nth 0 state 0 + a); u32 (nth 1 state 0 + b); u32 (nth 2 state 0 + c); u32 (nth 3 state 0 + d);
   u32 (nth 4 state 0 + e); u32 (nth 5 state 0 + f); u32 (nth 6 state 0 + g); u32 (nth 7 state 0 + h)].

Definition sha256_init : list Z :=
  [0x6a09e667; 0xbb67ae85; 0x3c6ef372; 0xa54ff53a; 0x510e527f; 0x9b05688c; 0x1f83d9ab; 0x5be0cd19].

Definition xylem_sha256_create (calloc_ok : bool) : option hash_ctx :=
  if calloc_ok then Some (HashCtx (replicate 64 0) 0 0 sha256_init) else None.
Definition xylem_sha256_update (ctx : hash_ctx) (data : list Z) : option hash_ctx :=
  hash_update _sha256_transform ctx data.
Definition xylem_sha256_final (ctx : hash_ctx) : list Z * hash_ctx :=
  let ctx := hash_final _sha256_transform ctx in
  (concat (map (fun i => let s := nth i (state ctx) 0 in
     [byte_at s 24; byte_at s 16; byte_at s 8; byte_at s 0]) (seq 0 8)), ctx).

(** A caller hashing the pieces [chunks] of a message. *)
Definition sha256_of_chunks (calloc_ok : bool) (chunks : list (list Z)) : option (list Z) :=
  ctx ← xylem_sha256_create calloc_ok;
  ctx ← hash_updates _sha256_transform ctx chunks;
  Some (fst (xylem_sha256_final ctx)).

(** ** FIPS 180-4 *)

Definition ROTR (n x : Z) : Z := ROTL (32 - n) x.
Definition SHR (n x : Z) : Z := x / 2 ^ n.
Definition Sigma0 (x : Z) : Z := Z.lxor (Z.lxor (ROTR 2 x) (ROTR 13 x)) (ROTR 22 x).
Definition Sigma1 (x : Z) : Z := Z.lxor (Z.lxor (ROTR 6 x) (ROTR 11 x)) (ROTR 25 x).
Definition sigma0 (x : Z) : Z := Z.lxor (Z.lxor (ROTR 7 x) (ROTR 18 x)) (SHR 3 x).
Definition sigma1 (x : Z) : Z := Z.lxor (Z.lxor (ROTR 17 x) (ROTR 19 x)) (SHR 10 x).

Definition primes64 : list Z :=
  [2; 3; 5; 7; 11; 13; 17; 19; 23; 29; 31; 37; 41; 43; 47; 53; 59; 61; 67; 71; 73; 79; 83; 89; 97;
   101; 103; 107; 109; 113; 127; 131; 137; 139; 149; 151; 157; 163; 167; 173; 179; 181; 191; 193;
   197; 199; 211; 223; 227; 229; 233; 239; 241; 251; 257; 263; 269; 271; 277; 281; 283; 293; 307;
   311].

(** The integer cube root, by its bits from bit [n - 1] down. *)
Fixpoint cbrt (n : nat) (root x : Z) : Z :=
  match n with
  | O => root
  | S n => let r := root + 2 ^ Z.of_nat n in cbrt n (if r * r * r <=? x then r else root) x
  end.
(** The first 32 bits of the fractional part of the cube root of the [t]-th prime,
    and of the square root for the initial value. *)
Definition fips256_K (t : nat) : Z := cbrt 40 0 (nth t primes64 0 * 2 ^ 96) mod 2 ^ 32.
Definition fips_H0 : list Z := map (fun t => Z.sqrt (nth t primes64 0 * 2 ^ 64) mod 2 ^ 32) (seq 0 8).

Fixpoint fips256_W (fuel : nat) (M : list Z) (t : nat) : Z :=
  match fuel with
  | O => 0
  | S fuel =>
      if (t <? 16)%nat then nth t M 0
      else (sigma1 (fips256_W fuel M (t - 2)) + fips256_W fuel M (t - 7)
            + sigma0 (fips256_W fuel M (t - 15)) + fips256_W fuel M (t - 16)) mod 2 ^ 32
  end.
Definition fips256_step (M : list Z) (v : Z * Z * Z * Z * Z * Z * Z * Z) (t : nat) : Z * Z * Z * Z * Z * Z * Z * Z :=
  let '(a, b, c, d, e, f, g, h) := v in
  let T1 := (h + Sigma1 e + Ch e f g + fips256_K t + fips256_W (S t) M t) mod 2 ^ 32 in
  let T2 := (Sigma0 a + Maj a b c) mod 2 ^ 32 in
  ((T1 + T2) mod 2 ^ 32, a, b, c, (d + T1) mod 2 ^ 32, e, f, g).
Definition fips_sha256_compress (H b : list Z) : list Z :=
  let M := map (be_word b) (seq 0 16) in
  let '(a, b, c, d, e, f, g, h) :=
    foldl (fips256_step M) (nth 0 H 0, nth 1 H 0, nth 2 H 0, nth 3 H 0, nth 4 H 0, nth 5 H 0, nth 6 H 0, nth 7 H 0)
      (seq 0 64) in
  [(nth 0 H 0 + a) mod 2 ^ 32; (nth 1 H 0 + b) mod 2 ^ 32; (nth 2 H 0 + c) mod 2 ^ 32; (nth 3 H 0 + d) mod 2 ^ 32;
   (nth 4 H 0 + e) mod 2 ^ 32; (nth 5 H 0 + f) mod 2 ^ 32; (nth 6 H 0 + g) mod 2 ^ 32; (nth 7 H 0 + h) mod 2 ^ 32].
Definition fips_sha256 (msg : list Z) : list Z :=
  concat (map be_bytes (hash_spec fips_sha256_compress fips_H0 msg)).

(** ** The code computes it *)

Lemma sha256_init_ok : fips_H0 = sha256_init.
Proof. vm_compute. reflexivity. Qed.
Lemma k_ok t : (t < 64)%nat -> nth t _sha256_k 0 = fips256_K t.
Proof.
  intros Ht. assert (Forall (fun t => nth t _sha256_k 0 = fips256_K t) (seq 0 64)) as H
    by (apply (bool_decide_unpack _); vm_compute; exact I).
  rewrite Forall_forall in H. apply H, elem_of_seq. lia.
Qed.

Lemma rotright_ok n x : word x -> 0 < n < 32 -> ROTRIGHT x n = ROTR n x /\ word (ROTR n x).
Proof.
  intros Hx Hn. unfold ROTRIGHT, ROTR. rewrite Z.lor_comm.
  destruct (rotate_ok (32 - n) x Hx ltac:(lia)) as [E Hw]. split; [|done].
  rewrite <-E. by replace (32 - (32 - n)) with n by lia.
Qed.
Lemma word_shr n x : word x -> 0 <= n -> word (SHR n x).
Proof.
  unfold ubound, SHR. intros Hx Hn. assert (0 < 2 ^ n) by (apply Z.pow_pos_nonneg; lia).
  split; [apply Z.div_pos; lia|]. apply Z.div_lt_upper_bound; nia.
Qed.

(** The six functions of the code are the standard's. *)
Ltac sums x Hx :=
  unfold EP0, EP1, SIG0, SIG1, Sigma0, Sigma1, sigma0, sigma1, SHR;
  repeat match goal with |- context [ROTRIGHT x ?n] =>
    rewrite (proj1 (rotright_ok n x Hx ltac:(lia))) end;
  rewrite ?shiftr_div by lia; reflexivity.
Lemma ep0_ok x : word x -> EP0 x = Sigma0 x.
Proof. intros Hx. sums x Hx. Qed.
Lemma ep1_ok x : word x -> EP1 x = Sigma1 x.
Proof. intros Hx. sums x Hx. Qed.
Lemma sig0_ok x : word x -> SIG0 x = sigma0 x.
Proof. intros Hx. sums x Hx. Qed.
Lemma sig1_ok x : word x -> SIG1 x = sigma1 x.
Proof. intros Hx. sums x Hx. Qed.

Lemma m_next_local t m m' : (16 <= t)%nat -> (forall j, (j < t)%nat -> nth j m 0 = nth j m' 0) ->
  m_next t m = m_next t m'.
Proof. intros Ht H. unfold m_next. by rewrite !H by lia. Qed.

Lemma schedule256_ok b : Forall byte b ->
  let M := map (be_word b) (seq 0 16) in
  forall t fuel, (t < fuel)%nat -> (t < 64)%nat ->
  nth t (extend m_next 48 (map (word32 b) (seq 0 16))) 0 = fips256_W fuel M t /\ word (fips256_W fuel M t).
Proof.
  intros Hb M t. assert (map (word32 b) (seq 0 16) = M) as ->.
  { apply map_ext. intros i. by apply word32_be. }
  induction (lt_wf t) as [t _ IH]. intros [|fuel] Hf Ht; [lia|]. cbn [fips256_W].
  assert (length M = 16%nat) as HM by done. destruct (Nat.ltb_spec t 16) as [H16|H16].
  - rewrite extend_prefix by lia. split; [done|]. subst M.
    rewrite (nth_indep _ 0 (be_word b 0)) by lia. rewrite map_nth. by apply word32_be.
  - rewrite extend_next by (apply m_next_local || lia).
    unfold m_next at 1. destruct (IH (t - 2)%nat ltac:(lia) fuel) as [-> ?]; [lia..|].
    destruct (IH (t - 7)%nat ltac:(lia) fuel) as [-> ?]; [lia..|].
    destruct (IH (t - 15)%nat ltac:(lia) fuel) as [-> ?]; [lia..|].
    destruct (IH (t - 16)%nat ltac:(lia) fuel) as [-> ?]; [lia..|].
    rewrite sig0_ok, sig1_ok by done. split; [done|apply word_u32].
Qed.

Definition words8 (v : Z * Z * Z * Z * Z * Z * Z * Z) : Prop :=
  let '(a, b, c, d, e, f, g, h) := v in
  word a /\ word b /\ word c /\ word d /\ word e /\ word f /\ word g /\ word h.

Lemma rounds_ok M m n : forall from v, words8 v -> (from + n <= 64)%nat ->
  (forall t, (t < 64)%nat -> nth t m 0 = fips256_W (S t) M t) ->
  foldl (sha256_round m) v (seq from n) = foldl (fips256_step M) v (seq from n)
  /\ words8 (foldl (fips256_step M) v (seq from n)).
Proof.
  induction n as [|n IH]; intros from v Hv Hn Hm; [done|]. cbn [seq foldl].
  assert (sha256_round m v from = fips256_step M v from /\ words8 (fips256_step M v from)) as [-> Hv'].
  { destruct v as [[[[[[[a b] c] d] e] f] g] h], Hv as (Ha & Hb & Hc & Hd & He & Hf & Hg & Hh).
    unfold sha256_round, fips256_step. rewrite ep0_ok, ep1_ok, k_ok, Hm by (done || lia). split; [done|].
    split_and!; first [done | apply word_u32]. }
  apply IH; [done|lia|done].
Qed.

Lemma transform256_ok st b : length st = 8%nat -> Forall word st -> Forall byte b ->
  _sha256_transform st b = fips_sha256_compress st b
  /\ length (fips_sha256_compress st b) = 8%nat /\ Forall word (fips_sha256_compress st b).
Proof.
  intros Hl Hst Hb. pose proof (schedule256_ok b Hb) as HW. cbv zeta in HW.
  unfold _sha256_transform, fips_sha256_compress. set (W := extend _ _ _) in *. set (M := map (be_word b) _) in *.
  destruct (rounds_ok M W 64 0 (nth 0 st 0, nth 1 st 0, nth 2 st 0, nth 3 st 0,
       nth 4 st 0, nth 5 st 0, nth 6 st 0, nth 7 st 0)) as [-> H].
  - destruct st as [|s0 [|s1 [|s2 [|s3 [|s4 [|s5 [|s6 [|s7 []]]]]]]]]; try done.
    rewrite !Forall_cons in Hst. destruct Hst as (? & ? & ? & ? & ? & ? & ? & ? & _). by split_and!.
  - lia.
  - intros t Ht. apply HW; lia.
  - clearbody M W. destruct (foldl _ _ _) as [[[[[[[a' b'] c'] d'] e'] f'] g'] h'].
    split_and!; [done..|]. repeat constructor; apply word_u32.
Qed.

Lemma digest256_ok st : length st = 8%nat -> Forall word st ->
  concat (map (fun i => let s := nth i st 0 in [byte_at s 24; byte_at s 16; byte_at s 8; byte_at s 0]) (seq 0 8))
  = concat (map be_bytes st).
Proof.
  intros Hl Hw. f_equal. transitivity (map be_bytes (map (fun i => nth i st 0) (seq 0 8))); [|by rewrite <-Hl, map_nth_all].
  rewrite map_map. apply map_ext_in.
  intros i Hi. apply be_bytes_ok. eapply Forall_forall; [exact Hw|]. apply list_elem_of_In, nth_In.
  apply in_seq in Hi. lia.
Qed.

(** The message fed in pieces. *)
Lemma of_chunks_ok chunks : Forall (Forall byte) chunks ->
  sha256_of_chunks true chunks = Some (fips_sha256 (concat chunks)).
Proof.
  intros Hb. unfold sha256_of_chunks, xylem_sha256_create, fips_sha256. cbn [mbind option_bind].
  destruct (updates_ok _ sha256_init chunks _ [] (absorbed_nil _sha256_transform _)) as (ctx & -> & Ha).
  cbn [mbind option_bind app xylem_sha256_final fst] in *. rewrite (final_ok _ _ _ _ Ha), sha256_init_ok.
  destruct (hash_spec_ext _sha256_transform fips_sha256_compress (fun st => length st = 8%nat /\ Forall word st)
    sha256_init (concat chunks)) as [-> [Hl Hw]].
  - by repeat constructor.
  - by apply Forall_concat.
  - intros st b [Hl Hw] Hb'. by apply transform256_ok.
  - by rewrite digest256_ok.
Qed.

(** C15 SHA-256 of a message fed in any pieces: the 32 bytes returned are FIPS
    180-4's hash of their concatenation; the constants of the code are the leading
    fractional bits of the cube and square roots of the first primes. *)
Theorem sha256_correct chunks : Forall (Forall byte) chunks ->
  sha256_of_chunks true chunks = Some (fips_sha256 (concat chunks)).
Proof. apply of_chunks_ok. Qed.
Lemma sha256_correct_witness :
  sha256_of_chunks true [[97]; [98; 99]] = Some (fips_sha256 [97; 98; 99])
  /\ sha256_of_chunks true [[97]; [98; 99]] = Some
      [0xba; 0x78; 0x16; 0xbf; 0x8f; 0x01; 0xcf; 0xea; 0x41; 0x41; 0x40; 0xde; 0x5d; 0xae; 0x22; 0x23;
       0xb0; 0x03; 0x61; 0xa3; 0x96; 0x17; 0x7a; 0x9c; 0xb4; 0x10; 0xff; 0x61; 0xf2; 0x00; 0x15; 0xad].
Proof.
  split; [|vm_compute; reflexivity].
  apply (sha256_correct [[97]; [98; 99]]). apply (bool_decide_unpack _). vm_compute. exact I.
Defined.
End Sha256.

Module Hmac.
Import Sha256.

Definition HMAC_BLOCK_SIZE : nat := 64.

(** [a0], [a1] and [a2]: whether the allocations of the contexts [h], [ictx] and
    [octx] succeed; their results are used unchecked. *)
Definition xylem_hmac256_compute (a0 a1 a2 : bool) (key msg : list Z) : option (list Z) :=
  let k := replicate HMAC_BLOCK_SIZE 0 in
  k ← (if (HMAC_BLOCK_SIZE <? length key)%nat then
         h ← xylem_sha256_create a0;
         h ← xylem_sha256_update h key;
         Some (blit k 0 (fst (xylem_sha256_final h)))
       else Some (blit k 0 key));
  let ipad := map (fun x => Z.lxor x 0x36) k in
  let opad := map (fun x => Z.lxor x 0x5c) k in
  ictx ← xylem_sha256_create a1;
  ictx ← xylem_sha256_update ictx ipad;
  ictx ← xylem_sha256_update ictx msg;
  let inner := fst (xylem_sha256_final ictx) in
  octx ← xylem_sha256_create a2;
  octx ← xylem_sha256_update octx opad;
  octx ← xylem_sha256_update octx inner;
  Some (fst (xylem_sha256_final octx)).

(** RFC 2104 with SHA-256. *)
Definition rfc2104 (key msg : list Z) : list Z :=
  let key := if (64 <? length key)%nat then fips_sha256 key else key in
  let K := key ++ replicate (64 - length key) 0 in
  fips_sha256 (map (Z.lxor 0x5c) K ++ fips_sha256 (map (Z.lxor 0x36) K ++ msg)).

(** Hashing one or two pieces, and going on with the digest. *)
Lemma one_update {A} a d (k : list Z -> option A) :
  (c ← xylem_sha256_create a; c ← xylem_sha256_update c d; k (fst (xylem_sha256_final c)))
  = sha256_of_chunks a [d] ≫= k.
Proof.
  unfold sha256_of_chunks. destruct (xylem_sha256_create a) as [c|]; [|done]. cbn.
  unfold xylem_sha256_update. by destruct (hash_update _ c d).
Qed.
Lemma two_updates {A} a d1 d2 (k : list Z -> option A) :
  (c ← xylem_sha256_create a; c ← xylem_sha256_update c d1; c ← xylem_sha256_update c d2;
   k (fst (xylem_sha256_final c))) = sha256_of_chunks a [d1; d2] ≫= k.
Proof.
  unfold sha256_of_chunks. destruct (xylem_sha256_create a) as [c|]; [|done]. cbn.
  unfold xylem_sha256_update. destruct (hash_update _ c d1) as [c1|]; [|done]. cbn.
  by destruct (hash_update _ c1 d2).
Qed.
Lemma fips_sha256_bytes msg : Forall byte msg ->
  Forall byte (fips_sha256 msg) /\ length (fips_sha256 msg) = 32%nat.
Proof.
  intros Hb. unfold fips_sha256. rewrite sha256_init_ok.
  destruct (hash_spec_ext fips_sha256_compress fips_sha256_compress (fun st => length st = 8%nat /\ Forall word st)
    sha256_init msg) as [_ [Hl Hw]]; [by repeat constructor|done|intros st b [??] ?; split; [done|by apply transform256_ok]|].
  split.
  - apply Forall_concat. apply Forall_map. eapply Forall_impl; [exact Hw|]. intros w Hw'. cbv beta.
    rewrite <-be_bytes_ok by done. repeat constructor; apply u8_byte.
  - by destruct (hash_spec fips_sha256_compress sha256_init msg) as [|? [|? [|? [|? [|? [|? [|? [|? []]]]]]]]].
Qed.
Lemma blit_zeros key : (length key <= 64)%nat ->
  blit (replicate HMAC_BLOCK_SIZE 0) 0 key = key ++ replicate (64 - length key) 0.
Proof. intros H. unfold blit, HMAC_BLOCK_SIZE. by rewrite take_0, drop_replicate. Qed.

(** C29 HMAC-SHA-256: when the contexts can be allocated, the code returns the value
    RFC 2104 defines, for keys of any length. *)
Theorem hmac256_correct key msg : Forall byte key -> Forall byte msg ->
  xylem_hmac256_compute true true true key msg = Some (rfc2104 key msg).
Proof.
  intros Hk Hm. unfold xylem_hmac256_compute, rfc2104.
  rewrite (one_update true key (fun d => Some (blit (replicate HMAC_BLOCK_SIZE 0) 0 d))).
  rewrite of_chunks_ok by by repeat constructor. cbn [concat]. rewrite app_nil_r.
  set (key1 := if (64 <? length key)%nat then fips_sha256 key else key).
  destruct (fips_sha256_bytes key Hk) as [Hh1 Hh2].
  assert (Forall byte key1 /\ (length key1 <= 64)%nat) as [Hk1 Hl1].
  { subst key1. destruct (Nat.ltb_spec 64 (length key)); split; (done || lia). }
  assert ((if (HMAC_BLOCK_SIZE <? length key)%nat
           then Some (fips_sha256 key) ≫= (fun d => Some (blit (replicate HMAC_BLOCK_SIZE 0) 0 d))
           else Some (blit (replicate HMAC_BLOCK_SIZE 0) 0 key)) = Some (key1 ++ replicate (64 - length key1) 0)) as ->.
  { rewrite <-blit_zeros by done. subst key1. by destruct (_ <? _)%nat. }
  set (K := key1 ++ _). assert (Forall byte K) as HK.
  { apply Forall_app. split; [done|]. apply Forall_replicate. unfold byte. lia. }
  clearbody K. assert (forall c, byte c -> Forall byte (map (Z.lxor c) K)) as HKc.
  { intros c Hc. apply Forall_map. eapply Forall_impl; [exact HK|]. intros x Hx. by apply lxor_byte. }
  assert (forall c, map (fun x => Z.lxor x c) K = map (Z.lxor c) K) as Ec
    by (intros c; apply map_ext; intros x; apply Z.lxor_comm).
  cbn [mbind option_bind]. rewrite !Ec.
  pose proof (HKc 0x36 ltac:(done)) as H36. pose proof (HKc 0x5c ltac:(done)) as H5c.
  set (ip := map (Z.lxor 0x36) K) in *. set (op := map (Z.lxor 0x5c) K) in *. clearbody ip op.
  rewrite (two_updates true ip msg (fun inner => octx ← xylem_sha256_create true; octx ← xylem_sha256_update octx op;
    octx ← xylem_sha256_update octx inner; Some (fst (xylem_sha256_final octx)))).
  rewrite of_chunks_ok by by repeat constructor. cbn [mbind option_bind concat]. rewrite app_nil_r.
  rewrite (two_updates true op _ Some), of_chunks_ok.
  - cbn. by rewrite app_nil_r.
  - repeat constructor; [done|]. apply fips_sha256_bytes. by apply Forall_app.
Qed.
Lemma hmac256_correct_witness :
  xylem_hmac256_compute true true true (chars "Jefe") (chars "what do ya want for nothing?")
    = Some (rfc2104 (chars "Jefe") (chars "what do ya want for nothing?"))
  /\ xylem_hmac256_compute true true true (chars "Jefe") (chars "what do ya want for nothing?") = Some
      [0x5b; 0xdc; 0xc1; 0x46; 0xbf; 0x60; 0x75; 0x4e; 0x6a; 0x04; 0x24; 0x26; 0x08; 0x95; 0x75; 0xc7;
       0x5a; 0x00; 0x3f; 0x08; 0x9d; 0x27; 0x39; 0x83; 0x9d; 0xec; 0x58; 0xb9; 0x64; 0xec; 0x38; 0x43].
Proof.
  split; [|vm_compute; reflexivity].
  apply (hmac256_correct (chars "Jefe") (chars "what do ya want for nothing?"));
    apply (bool_decide_unpack _); vm_compute; exact I.
Defined.
End Hmac.
