(* ===== verification/Utils.v ===== *)
(** * The pseudo-random generator and the clock (src/xylem-utils.c)

    [xylem_utils_getprng] mixes a counter with a seed; the entropy of the operating
    system, the time and the address of the seed are arguments.  Proved: the mixing
    function is a bijection on 64-bit words, so the generator does not repeat. *)

From S2P Require Import Prelude.

Inductive precision := SEC | MSEC | USEC | NSEC.

(** [timespec_get] delivers [(tv_sec, tv_nsec)]. *)
Definition xylem_utils_getnow (p : precision) (tsc : Z * Z) : Z :=
  let '(tv_sec, tv_nsec) := tsc in
  match p with
  | SEC => u64 tv_sec
  | MSEC => u64 (u64 (u64 tv_sec * 1000) + u64 tv_nsec / 1000000)
  | USEC => u64 (u64 (u64 tv_sec * 1000000) + u64 tv_nsec / 1000)
  | NSEC => u64 (u64 (u64 tv_sec * 1000000000) + u64 tv_nsec)
  end.

Definition _utils_splitmix64 (x : Z) : Z :=
  let x := u64 (x + 0x9E3779B97F4A7C15) in
  let x := u64 (Z.lxor x (Z.shiftr x 30) * 0xBF58476D1CE4E5B9) in
  let x := u64 (Z.lxor x (Z.shiftr x 27) * 0x94D049BB133111EB) in
  Z.lxor x (Z.shiftr x 31).

(** The two static variables. *)
Record prng := Prng { seed : Z; counter : Z }.
Definition prng_init : prng := Prng 0 0.

(** What the environment answers when the generator has to be seeded: the word of
    [platform_info_getrandom] (if it succeeds), [time(NULL)] and [&seed]. *)
Record entropy := Entropy { random : option Z; now : Z; addr : Z }.

Definition fresh_seed (e : entropy) : Z :=
  let fallback := Z.lor (Z.lxor (u64 (now e)) (u64 (addr e))) 1 in
  match random e with
  | Some s => if s =? 0 then fallback else s
  | None => fallback
  end.

(** One call running alone; [None]: signed overflow of [max - min + 1], or a range of
    size zero.  The first component of the result is the mixed word [r]. *)
Definition xylem_utils_getprng (e : entropy) (g : prng) (min max : Z) : option (Z * Z * prng) :=
  let sd := if seed g =? 0 then fresh_seed e else seed g in
  let seq := counter g in
  let r := _utils_splitmix64 (u64 (seq + sd)) in
  let size := max - min + 1 in
  if (i32 (max - min) =? max - min) && (i32 size =? size) && negb (size =? 0) then
    Some (r, i32 (min + i32 (r mod u64 size)), Prng sd (u64 (seq + 1)))
  else None.

(** ** Mixing *)

(** [x ^ (x >> k)] is undone by [y ^ (y >> k) ^ (y >> 2k)] when [3k >= 64]. *)
Lemma xorshift_inverse k x : 22 <= k -> ubound 64 x ->
  let y := Z.lxor x (Z.shiftr x k) in
  Z.lxor (Z.lxor y (Z.shiftr y k)) (Z.shiftr y (2 * k)) = x.
Proof.
  intros Hk Hx y. subst y. rewrite !Z.shiftr_lxor, !Z.shiftr_shiftr by lia.
  replace (k + k) with (2 * k) by lia. replace (k + 2 * k) with (3 * k) by lia.
  assert (Z.shiftr x (3 * k) = 0) as ->.
  { rewrite shiftr_div by lia. apply Z.div_small. unfold ubound in Hx.
    pose proof (Z.pow_le_mono_r 2 64 (3 * k)). lia. }
  apply Z.bits_inj'. intros i Hi. rewrite !Z.lxor_spec, Z.bits_0.
  by destruct (Z.testbit x i), (Z.testbit (Z.shiftr x k) i), (Z.testbit (Z.shiftr x (2 * k)) i).
Qed.
Lemma xorshift_word k x : 0 <= k -> ubound 64 x -> ubound 64 (Z.lxor x (Z.shiftr x k)).
Proof.
  intros Hk Hx. assert (ubound 64 (Z.shiftr x k)) as Hs.
  { rewrite shiftr_div by lia. unfold ubound in *. assert (0 < 2 ^ k) by (apply Z.pow_pos_nonneg; lia).
    split; [apply Z.div_pos; lia|]. apply Z.div_lt_upper_bound; nia. }
  assert (Z.lxor x (Z.shiftr x k) mod 2 ^ 64 = Z.lxor x (Z.shiftr x k)) as <-; [|by apply uwrap_bound].
  apply Z.bits_inj'. intros i Hi. destruct (decide (i < 64)); [by apply Z.mod_pow2_bits_low|].
  rewrite Z.mod_pow2_bits_high, Z.lxor_spec, !(testbit_above 64) by (done || lia). done.
Qed.
Lemma xorshift_injective k x y : 22 <= k -> ubound 64 x -> ubound 64 y ->
  Z.lxor x (Z.shiftr x k) = Z.lxor y (Z.shiftr y k) -> x = y.
Proof.
  intros Hk Hx Hy E. rewrite <-(xorshift_inverse k x), <-(xorshift_inverse k y) by done. cbv zeta. by rewrite E.
Qed.
(** Multiplication by a unit modulo [2^64]. *)
Lemma mul_injective c c' x y : (c * c') mod 2 ^ 64 = 1 -> ubound 64 x -> ubound 64 y ->
  u64 (x * c) = u64 (y * c) -> x = y.
Proof.
  intros Hc Hx Hy E. assert (forall z, ubound 64 z -> u64 (u64 (z * c) * c') = z) as Hinv.
  { intros z Hz. unfold uwrap. rewrite Zmult_mod_idemp_l, <-Z.mul_assoc, <-Zmult_mod_idemp_r, Hc, Z.mul_1_r.
    by apply Z.mod_small. }
  by rewrite <-(Hinv x), <-(Hinv y), E.
Qed.
Lemma add_injective c x y : ubound 64 x -> ubound 64 y -> u64 (x + c) = u64 (y + c) -> x = y.
Proof. unfold ubound, uwrap. intros Hx Hy E. zdm. Qed.

Lemma splitmix64_injective x y : ubound 64 x -> ubound 64 y ->
  _utils_splitmix64 x = _utils_splitmix64 y -> x = y.
Proof.
  intros Hx Hy E. unfold _utils_splitmix64 in E.
  apply xorshift_injective in E; [|lia|by apply uwrap_bound..].
  apply (mul_injective _ 0x319642b2d24d8ec3) in E; [|reflexivity|apply xorshift_word; [lia|by apply uwrap_bound]..].
  apply xorshift_injective in E; [|lia|by apply uwrap_bound..].
  apply (mul_injective _ 0x96de1b173f119089) in E; [|reflexivity|apply xorshift_word; [lia|by apply uwrap_bound]..].
  apply xorshift_injective in E; [|lia|by apply uwrap_bound..].
  by apply add_injective in E.
Qed.

(** ** Sequences of calls *)

(** The calls [(e, min, max)] in turn: the mixed words and the results. *)
Fixpoint prng_calls (g : prng) (calls : list (entropy * Z * Z)) : option (list Z * list Z) :=
  match calls with
  | [] => Some ([], [])
  | (e, min, max) :: calls =>
      '(r, v, g) ← xylem_utils_getprng e g min max;
      '(rs, vs) ← prng_calls g calls;
      Some (r :: rs, v :: vs)
  end.

(** The range fits an [int], and the entropy source delivers a 64-bit word. *)
Definition call_ok (c : entropy * Z * Z) : Prop :=
  let '(e, min, max) := c in
  - 2 ^ 31 <= min <= max /\ max < 2 ^ 31 /\ max - min + 1 < 2 ^ 31
  /\ match random e with Some s => ubound 64 s | None => True end.

Lemma fresh_seed_nonzero e min max : call_ok (e, min, max) -> fresh_seed e <> 0.
Proof.
  assert (Z.lor (Z.lxor (u64 (now e)) (u64 (addr e))) 1 <> 0) as Hf by (rewrite Z.lor_eq_0_iff; lia).
  intros (_ & _ & _ & He). unfold fresh_seed. destruct (random e) as [s|]; [|done].
  by destruct (Z.eqb_spec s 0).
Qed.

Lemma getprng_ok e g min max : call_ok (e, min, max) ->
  let sd := if seed g =? 0 then fresh_seed e else seed g in
  exists v, xylem_utils_getprng e g min max
    = Some (_utils_splitmix64 (u64 (counter g + sd)), v, Prng sd (u64 (counter g + 1))) /\ min <= v <= max.
Proof.
  intros (H1 & H2 & H3 & _) sd. unfold xylem_utils_getprng. fold sd.
  rewrite (i32_small (max - min)), (i32_small (max - min + 1)) by lia. rewrite !Z.eqb_refl.
  destruct (Z.eqb_spec (max - min + 1) 0); [lia|]. cbn [andb negb].
  set (r := _utils_splitmix64 _). rewrite (uwrap_small 64 (max - min + 1)) by (unfold ubound; lia).
  pose proof (Z.mod_pos_bound r (max - min + 1)).
  rewrite (i32_small (r mod _)), i32_small by lia. eexists. split; [done|lia].
Qed.

Lemma prng_calls_ok calls : forall c sd, Forall call_ok calls -> sd <> 0 ->
  exists vs, prng_calls (Prng sd (u64 c)) calls
      = Some (map (fun i => _utils_splitmix64 (u64 (c + Z.of_nat i + sd))) (seq 0 (length calls)), vs)
    /\ Forall2 (fun call v => call.1.2 <= v <= call.2) calls vs.
Proof.
  induction calls as [|[[e min] max] calls IH]; intros c sd Hc Hsd; [by exists []|].
  apply Forall_cons in Hc as [Hc Hcs]. cbn [prng_calls length seq map].
  destruct (getprng_ok e (Prng sd (u64 c)) min max Hc) as (v & -> & Hv). cbn [seed counter mbind option_bind].
  destruct (Z.eqb_spec sd 0); [done|]. assert (u64 (u64 c + 1) = u64 (c + 1)) as -> by (unfold uwrap; apply Zplus_mod_idemp_l).
  destruct (IH (c + 1) sd Hcs Hsd) as (vs & -> & Hvs). exists (v :: vs). split; [|by constructor].
  cbn. rewrite <-seq_shift, map_map. f_equal. f_equal. f_equal.
  - f_equal. unfold uwrap. rewrite Zplus_mod_idemp_l. f_equal. lia.
  - apply map_ext. intros i. f_equal. f_equal. lia.
Qed.

(** C37 The generator: every call whose range fits an [int] returns a value of the
    range, and no 64-bit word is drawn twice in any sequence of up to [2^64] calls
    from the start, whatever the entropy. *)
Theorem prng_fresh calls : Forall call_ok calls -> Z.of_nat (length calls) <= 2 ^ 64 ->
  exists rs vs, prng_calls prng_init calls = Some (rs, vs) /\ NoDup rs
    /\ Forall2 (fun call v => call.1.2 <= v <= call.2) calls vs.
Proof.
  intros Hc Hlen. destruct calls as [|[[e min] max] cs]; [exists [], []; by repeat constructor|].
  assert (fresh_seed e <> 0) as Hsd by (apply Forall_cons in Hc as [? _]; by eapply fresh_seed_nonzero).
  assert (prng_calls prng_init ((e, min, max) :: cs) = prng_calls (Prng (fresh_seed e) (u64 0)) ((e, min, max) :: cs)) as ->.
  { cbn [prng_calls]. unfold xylem_utils_getprng. cbn [seed counter prng_init].
    by rewrite (proj2 (Z.eqb_neq (fresh_seed e) 0)). }
  destruct (prng_calls_ok ((e, min, max) :: cs) 0 (fresh_seed e) Hc Hsd) as (vs & -> & Hvs).
  eexists _, vs. split_and!; [done| |done]. apply (NoDup_fmap_2_strong); [|apply NoDup_seq].
  intros i j Hi Hj E. apply elem_of_seq in Hi, Hj. apply splitmix64_injective in E; [|by apply uwrap_bound..].
  unfold uwrap in E. rewrite !(Z.add_comm _ (fresh_seed e)) in E. zdm.
Qed.
Lemma prng_fresh_witness :
  exists rs vs, prng_calls prng_init [(Entropy (Some 7) 0 0, 0, 255); (Entropy None 0 0, -3, 3)] = Some (rs, vs)
    /\ NoDup rs /\ Forall2 (fun call v => call.1.2 <= v <= call.2)
         [(Entropy (Some 7) 0 0, 0, 255); (Entropy None 0 0, -3, 3)] vs.
Proof. apply prng_fresh; [repeat constructor; unfold ubound; lia|done]. Defined.
