(* ===== verification/WsHandshake.v ===== *)
(** * The WebSocket opening handshake (src/net/ws/ws-handshake.c)

    Keys, accept values and the messages of the two sides.  A C string is the list
    of its bytes without the terminator; a null pointer is [None]; [malloc] and
    [calloc] succeed or fail as their argument says. *)

From S2P Require Import Prelude Base64 BlockHash Sha Utils.
Import Sha1.

Definition _ws_handshake_guid : list Z := chars "258EAFA5-E914-47DA-95CA-5AB9DC63B5E0".

(** [raw[i] = getprng(0, 255)], sixteen times. *)
Fixpoint raw_bytes (n : nat) (e : entropy) (g : prng) : option (list Z * prng) :=
  match n with
  | O => Some ([], g)
  | S n =>
      '(_, v, g) ← xylem_utils_getprng e g 0 255;
      '(raw, g) ← raw_bytes n e g;
      Some (u8 v :: raw, g)
  end.

(** The outcome of the C functions that return 0 or -1 and fill [out]. *)
Definition ws_handshake_gen_key (e : entropy) (g : prng) (out : bool) (out_size : Z) : option (option (list Z) * prng) :=
  if negb out || (out_size <? 25) then Some (None, g)
  else
    '(raw, g) ← raw_bytes 16 e g;
    Some (xylem_base64_encode_std raw 32, g).

Definition ws_handshake_compute_accept (calloc_ok : bool) (key : option (list Z)) (out : bool) (out_size : Z)
    : option (list Z) :=
  match key with
  | None => None
  | Some key =>
      if negb out || (out_size <? 29) then None
      else
        ctx ← xylem_sha1_create calloc_ok;
        ctx ← xylem_sha1_update ctx key;
        ctx ← xylem_sha1_update ctx _ws_handshake_guid;
        xylem_base64_encode_std (fst (xylem_sha1_final ctx)) 32
  end.

Definition ws_handshake_validate_accept (calloc_ok : bool) (expected_key accept_value : option (list Z)) : Z :=
  match expected_key, accept_value with
  | Some expected_key, Some accept_value =>
      match ws_handshake_compute_accept calloc_ok (Some expected_key) true 29 with
      | None => -1
      | Some computed => if bool_decide (computed = accept_value) then 0 else -1
      end
  | _, _ => -1
  end.

(** ** Messages *)

Definition crlf : list Z := [13; 10].

(** [%u] of a 16-bit number. *)
Fixpoint decimal (fuel : nat) (n : Z) : list Z :=
  match fuel with
  | O => []
  | S fuel => (if n <? 10 then [] else decimal fuel (n / 10)) ++ [48 + n mod 10]
  end.
Definition print_u16 (n : Z) : list Z := decimal 5 n.

(** [snprintf(buf, buf_size, ...)] of a text and the checks that follow it: the text
    is lost when its length is no [int] or does not leave room for the terminator. *)
Definition print_checked (buf_size : Z) (text : list Z) : option (list Z) :=
  let len := if Z.of_nat (length text) <? 2 ^ 31 then Z.of_nat (length text) else -1 in
  if (len <? 0) || (buf_size <=? len) then None else Some text.

Definition strlen (s : list Z) : Z := Z.of_nat (length s).

Definition host_header (host : list Z) (port : Z) : list Z :=
  if (port =? 80) || (port =? 443) then chars "Host: " ++ host ++ crlf
  else chars "Host: " ++ host ++ chars ":" ++ print_u16 port ++ crlf.

Definition ws_handshake_build_request (malloc_ok : bool) (host : option (list Z)) (port : Z)
    (path key : option (list Z)) : option (list Z) :=
  match host, path, key with
  | Some host, Some path, Some key =>
      let buf_size := u64 (strlen path + strlen host + strlen key + 256) in
      if negb malloc_ok then None
      else print_checked buf_size
        (chars "GET " ++ path ++ chars " HTTP/1.1" ++ crlf ++ host_header host port
         ++ chars "Upgrade: websocket" ++ crlf ++ chars "Connection: Upgrade" ++ crlf
         ++ chars "Sec-WebSocket-Key: " ++ key ++ crlf
         ++ chars "Sec-WebSocket-Version: 13" ++ crlf ++ crlf)
  | _, _, _ => None
  end.

Definition ws_handshake_build_request_ext (malloc_ok : bool) (host : option (list Z)) (port : Z)
    (path key extensions : option (list Z)) : option (list Z) :=
  match host, path, key with
  | Some h, Some p, Some k =>
      match extensions with
      | None => ws_handshake_build_request malloc_ok host port path key
      | Some ext =>
          let buf_size := u64 (strlen p + strlen h + strlen k + strlen ext + 320) in
          if negb malloc_ok then None
          else print_checked buf_size
            (chars "GET " ++ p ++ chars " HTTP/1.1" ++ crlf ++ host_header h port
             ++ chars "Upgrade: websocket" ++ crlf ++ chars "Connection: Upgrade" ++ crlf
             ++ chars "Sec-WebSocket-Key: " ++ k ++ crlf
             ++ chars "Sec-WebSocket-Version: 13" ++ crlf
             ++ chars "Sec-WebSocket-Extensions: " ++ ext ++ crlf ++ crlf)
      end
  | _, _, _ => None
  end.

Definition ws_handshake_build_response (malloc_ok : bool) (accept_value : option (list Z)) : option (list Z) :=
  match accept_value with
  | None => None
  | Some accept =>
      let buf_size := u64 (strlen accept + 128) in
      if negb malloc_ok then None
      else print_checked buf_size
        (chars "HTTP/1.1 101 Switching Protocols" ++ crlf
         ++ chars "Upgrade: websocket" ++ crlf ++ chars "Connection: Upgrade" ++ crlf
         ++ chars "Sec-WebSocket-Accept: " ++ accept ++ crlf ++ crlf)
  end.

(** ** Accept values *)

(** What the server sends for a key: 28 characters, Base64 of a SHA-1 hash. *)
Definition accept_for (key : list Z) : list Z :=
  encode_groups _b64_enc_std true (fips_sha1 (key ++ _ws_handshake_guid)).

Lemma fips_sha1_ok msg : Forall byte msg -> Forall byte (fips_sha1 msg) /\ length (fips_sha1 msg) = 20%nat.
Proof.
  intros Hb. unfold fips_sha1.
  destruct (hash_spec_ext fips_sha1_compress fips_sha1_compress (fun st => length st = 5%nat /\ Forall word st)
    sha1_init msg) as [_ [Hl Hw]]; [by repeat constructor|done|intros st b [??] ?; split; [done|by apply transform_ok]|].
  unfold sha1_init in Hl. split; [|by destruct (hash_spec _ _ msg) as [|? [|? [|? [|? [|? []]]]]]].
  apply Forall_concat, Forall_map. eapply Forall_impl; [exact Hw|]. intros w Hw'. cbv beta. rewrite <-be_bytes_ok by done. repeat constructor; apply u8_byte.
Qed.

Lemma guid_bytes : Forall byte _ws_handshake_guid.
Proof. apply (bool_decide_unpack _). vm_compute. exact I. Qed.

Lemma sha1_two_updates {A} d1 d2 (k : list Z -> option A) : Forall byte d1 -> Forall byte d2 ->
  (c ← xylem_sha1_create true; c ← xylem_sha1_update c d1; c ← xylem_sha1_update c d2;
   k (fst (xylem_sha1_final c))) = k (fips_sha1 (d1 ++ d2)).
Proof.
  intros H1 H2. pose proof (sha1_chunks_ok [d1; d2]) as H. unfold sha1_of_chunks in H.
  cbn [xylem_sha1_create mbind option_bind hash_updates concat] in *. rewrite app_nil_r in H.
  unfold xylem_sha1_update. destruct (hash_update _ _ d1) as [c1|]; cbn [mbind option_bind] in *; [|by discriminate H; repeat constructor].
  destruct (hash_update _ c1 d2) as [c2|]; cbn [mbind option_bind] in *; [|by discriminate H; repeat constructor].
  f_equal. apply Some_inj. apply H. by repeat constructor.
Qed.

Lemma compute_accept_ok key out_size : Forall byte key -> 29 <= out_size ->
  ws_handshake_compute_accept true (Some key) true out_size = Some (accept_for key)
  /\ length (accept_for key) = 28%nat.
Proof.
  intros Hk Hs. unfold ws_handshake_compute_accept. cbn [negb orb].
  rewrite (proj2 (Z.ltb_ge _ _)) by lia.
  rewrite (sha1_two_updates key _ws_handshake_guid (fun d => xylem_base64_encode_std d 32)) by (done || apply guid_bytes).
  assert (Forall byte (key ++ _ws_handshake_guid)) as Hb by (apply Forall_app; split; [done|apply guid_bytes]).
  destruct (fips_sha1_ok _ Hb) as [_ Hl]. unfold xylem_base64_encode_std, _base64_encode. rewrite Hl.
  split; [done|]. unfold accept_for. pose proof (encode_length _b64_enc_std true (fips_sha1 (key ++ _ws_handshake_guid))) as [_ H].
  specialize (H eq_refl). rewrite Hl in H. change ((Z.of_nat 20 + 2) / 3 * 4) with 28 in H. lia.
Qed.

(** What RFC 6455 prescribes: the same with the GUID of its section 1.3. *)
Definition rfc6455_guid : list Z := chars "258EAFA5-E914-47DA-95CA-C5AB0DC85B11".
Definition rfc6455_accept (key : list Z) : list Z := encode_groups _b64_enc_std true (fips_sha1 (key ++ rfc6455_guid)).
Lemma accept_hash_bytes key guid : Forall byte key -> Forall byte guid -> Forall byte (fips_sha1 (key ++ guid)).
Proof. intros Hk Hg. by apply fips_sha1_ok, Forall_app. Qed.
(** Base64 of two messages is the same only if they are. *)
Lemma encode_inj a b : Forall byte a -> Forall byte b -> encode_groups _b64_enc_std true a = encode_groups _b64_enc_std true b -> a = b.
Proof. intros Ha Hb E. apply Some_inj. rewrite <-(decode_encode (enc := _b64_enc_std) true a Ha), <-(decode_encode (enc := _b64_enc_std) true b Hb). by rewrite E. Qed.

(** C38: The two sides of the handshake agree with each other: for every key the server's
    accept value is computed, 28 characters, the Base64 of the FIPS 180-4 SHA-1 of the key
    followed by the GUID of the code, and the client accepts this value for its key and no
    other.  They do not agree with RFC 6455: the GUID of the code is not the one of the
    standard, and the client accepts the value the standard prescribes for its key exactly if
    the hashes of the key with the two GUIDs collide. *)
Theorem ws_accept_agree key v : Forall byte key ->
  ws_handshake_compute_accept true (Some key) true 29 = Some (accept_for key)
  /\ length (accept_for key) = 28%nat
  /\ (ws_handshake_validate_accept true (Some key) (Some v) = 0 <-> v = accept_for key)
  /\ _ws_handshake_guid <> rfc6455_guid
  /\ (ws_handshake_validate_accept true (Some key) (Some (rfc6455_accept key)) = 0
      <-> fips_sha1 (key ++ _ws_handshake_guid) = fips_sha1 (key ++ rfc6455_guid)).
Proof.
  intros Hk. destruct (compute_accept_ok key 29 Hk ltac:(lia)) as [E Hl].
  assert (forall v, ws_handshake_validate_accept true (Some key) (Some v) = 0 <-> v = accept_for key) as Hv.
  { intros u. unfold ws_handshake_validate_accept. rewrite E. destruct (bool_decide_reflect (accept_for key = u)); naive_solver. }
  split; [exact E|]. split; [exact Hl|]. split; [apply Hv|]. split; [vm_compute; discriminate|]. rewrite Hv. unfold rfc6455_accept, accept_for.
  split; [|intros Ef; by rewrite Ef]. intros Ea. symmetry in Ea. apply encode_inj in Ea; [exact Ea| |]; (apply accept_hash_bytes; [done|]).
  - apply guid_bytes.
  - apply (bool_decide_unpack _). vm_compute. exact I.
Qed.
(** The key of the example in section 1.3 of RFC 6455. *)
Lemma ws_accept_agree_witness :
  Forall byte (chars "dGhlIHNhbXBsZSBub25jZQ==")
  /\ ws_handshake_validate_accept true (Some (chars "dGhlIHNhbXBsZSBub25jZQ=="))
       (Some (accept_for (chars "dGhlIHNhbXBsZSBub25jZQ=="))) = 0.
Proof.
  assert (Forall byte (chars "dGhlIHNhbXBsZSBub25jZQ==")) as H by (apply (bool_decide_unpack _); vm_compute; exact I).
  split; [exact H|].
  destruct (ws_accept_agree (chars "dGhlIHNhbXBsZSBub25jZQ==") (accept_for (chars "dGhlIHNhbXBsZSBub25jZQ==")) H) as (_ & _ & [_ Hv] & _).
  exact (Hv eq_refl).
Defined.

(** ** Keys and messages *)

Lemma decimal_length fuel n : (length (decimal fuel n) <= fuel)%nat.
Proof.
  revert n. induction fuel as [|fuel IH]; intros n; simpl; [lia|]. rewrite length_app. simpl.
  specialize (IH (n / 10)). destruct (n <? 10); simpl; lia.
Qed.
Lemma host_header_length host port : (length (host_header host port) <= length host + 14)%nat.
Proof.
  unfold host_header, print_u16. pose proof (decimal_length 5 port) as Hd. revert Hd. generalize (decimal 5 port) as d. intros d Hd.
  destruct (_ || _); rewrite !length_app; simpl; lia.
Qed.

Lemma print_checked_ok buf_size text : strlen text < buf_size -> strlen text < 2 ^ 31 ->
  print_checked buf_size text = Some text.
Proof.
  unfold strlen, print_checked. intros H1 H2. rewrite (proj2 (Z.ltb_lt _ (2 ^ 31))) by lia.
  by rewrite (proj2 (Z.ltb_ge _ 0)), (proj2 (Z.leb_gt _ _)) by lia.
Qed.

Lemma raw_bytes_ok n e : (match random e with Some s => ubound 64 s | None => True end) -> forall g,
  exists raw g', raw_bytes n e g = Some (raw, g') /\ length raw = n /\ Forall byte raw.
Proof.
  intros He. induction n as [|n IH]; intros g; [by exists [], g|]. cbn [raw_bytes].
  destruct (getprng_ok e g 0 255) as (v & -> & Hv); [by split_and!|]. cbn [mbind option_bind].
  destruct (IH (Prng (if seed g =? 0 then fresh_seed e else seed g) (u64 (counter g + 1)))) as (raw & g' & -> & Hl & Hb).
  exists (u8 v :: raw), g'. split_and!; [done|simpl; lia|]. constructor; [apply u8_byte|done].
Qed.

(** Bounds on the length of a message printed into a buffer. *)
Ltac fits := unfold strlen, crlf in *; rewrite ?length_app; simpl length; lia.

(** The handshake goes through whenever memory can be allocated: a fresh key is 24
    characters that decode to 16 bytes, and the request (with and without an
    extension offer) and the response always fit the buffers the code sizes for
    them, so no message is refused or cut short. *)
Theorem ws_handshake_complete e g host path key ext port :
  (match random e with Some s => ubound 64 s | None => True end) ->
  strlen host + strlen path + strlen key + strlen ext + 320 < 2 ^ 31 ->
  (exists k raw g', ws_handshake_gen_key e g true 25 = Some (Some k, g') /\ length k = 24%nat
     /\ length raw = 16%nat /\ xylem_base64_decode_std k 18 = Some raw)
  /\ (exists req, ws_handshake_build_request true (Some host) port (Some path) (Some key) = Some req
        /\ strlen req < strlen path + strlen host + strlen key + 256)
  /\ (exists req, ws_handshake_build_request_ext true (Some host) port (Some path) (Some key) (Some ext) = Some req
        /\ strlen req < strlen path + strlen host + strlen key + strlen ext + 320)
  /\ exists resp, ws_handshake_build_response true (Some key) = Some resp /\ strlen resp < strlen key + 128.
Proof.
  intros He Hlen. pose proof (host_header_length host port) as Hh.
  assert (0 <= strlen host /\ 0 <= strlen path /\ 0 <= strlen key /\ 0 <= strlen ext) as Hpos by (unfold strlen; lia).
  split_and!.
  - destruct (raw_bytes_ok 16 e He g) as (raw & g' & E & Hl & Hb).
    exists (encode_groups _b64_enc_std true raw), raw, g'. unfold ws_handshake_gen_key. cbn [negb orb]. change (25 <? 25) with false. cbv iota. rewrite E. cbn [mbind option_bind].
    pose proof (encode_length _b64_enc_std true raw) as [_ H]. specialize (H eq_refl). rewrite Hl in H.
    change ((Z.of_nat 16 + 2) / 3 * 4) with 24 in H.
    unfold xylem_base64_encode_std, _base64_encode, xylem_base64_decode_std, _base64_decode. rewrite Hl, H.
    change (32 <? xylem_base64_encode_size (Z.of_nat 16)) with false. change (18 <? xylem_base64_decode_size 24) with false.
    cbv iota. split_and!; [reflexivity|lia|reflexivity|]. by apply decode_encode.
  - unfold ws_handshake_build_request. cbn [negb]. rewrite uwrap_small by (unfold ubound; lia).
    rewrite print_checked_ok by fits. eexists. split; [done|fits].
  - unfold ws_handshake_build_request_ext. cbn [negb]. rewrite uwrap_small by (unfold ubound; lia).
    rewrite print_checked_ok by fits. eexists. split; [done|fits].
  - unfold ws_handshake_build_response. cbn [negb]. rewrite uwrap_small by (unfold ubound; lia).
    rewrite print_checked_ok by fits. eexists. split; [done|fits].
Qed.
Lemma ws_handshake_complete_witness :
  exists req, ws_handshake_build_request true (Some (chars "h")) 8080 (Some (chars "/")) (Some (chars "k")) = Some req
    /\ strlen req < 259.
Proof.
  destruct (ws_handshake_complete (Entropy (Some 5) 0 0) prng_init (chars "h") (chars "/") (chars "k") [] 8080)
    as (_ & H & _); [by unfold ubound|done|exact H].
Defined.
