(* ===== verification/Interleave.v ===== *)
(** * Interleavings of atomic steps

    Code that several threads run at once is modelled by the atomic steps of its
    threads: [step l s] is the state after the step [l] (which thread moves, and what
    it is answered where it has a choice), [None] when that step is not possible.  A
    schedule is a list of steps; what is proved holds for every schedule. *)

From S2P Require Import Prelude.

Section interleave.
Context {L S : Type} (step : L -> S -> option S).

Fixpoint run (ls : list L) (s : S) : option S :=
  match ls with
  | [] => Some s
  | l :: ls => s' ← step l s; run ls s'
  end.

(** The states some schedule leads to. *)
Definition reachable (init s : S) : Prop := exists ls, run ls init = Some s.

Lemma run_app ls1 ls2 s : run (ls1 ++ ls2) s = run ls1 s ≫= run ls2.
Proof.
  revert s. induction ls1 as [|l ls1 IH]; intros s; simpl; [done|].
  destruct (step l s); simpl; [apply IH|done].
Qed.

(** What holds at the start and is kept by every step holds in every reachable state. *)
Lemma run_invariant (I : S -> Prop) :
  (forall l s s', I s -> step l s = Some s' -> I s') ->
  forall ls s s', I s -> run ls s = Some s' -> I s'.
Proof.
  intros Hstep ls. induction ls as [|l ls IH]; intros s s' HI; simpl; [by intros [= <-]|].
  destruct (step l s) as [s1|] eqn:E; simpl; [|done]. apply IH. by eapply Hstep.
Qed.
Lemma reachable_invariant (I : S -> Prop) init s :
  I init -> (forall l s s', I s -> step l s = Some s' -> I s') -> reachable init s -> I s.
Proof. intros H0 Hs [ls Hr]. by eapply run_invariant. Qed.
End interleave.

(** ** Sums and unions over numbered processes, of which one moves *)

Lemma sum_insert {A} (f : A -> nat) l i x y : l !! i = Some x ->
  (sum_list_with f (<[i := y]> l) + f x = sum_list_with f l + f y)%nat.
Proof.
  revert i. induction l as [|z l IH]; intros [|i] Hi; simpl in *; [done..|simplify_eq; lia|].
  specialize (IH i Hi). lia.
Qed.
Lemma alter_alter {A} (f g : A -> A) (l : list A) i : alter g i (alter f i l) = alter (g ∘ f) i l.
Proof.
  apply list_eq. intros j. destruct (decide (i = j)) as [->|Hne].
  - rewrite !list_lookup_alter_eq. by destruct (l !! j).
  - by rewrite !list_lookup_alter_ne.
Qed.
Lemma sum_alter {A} (f : A -> nat) (g : A -> A) l i x : l !! i = Some x ->
  (sum_list_with f (alter g i l) + f x = sum_list_with f l + f (g x))%nat.
Proof.
  revert i. induction l as [|z l IH]; intros [|i] Hi; simpl in *; [done..|simplify_eq; lia|].
  specialize (IH i Hi). fold (alter g i l). lia.
Qed.
Lemma sum_lookup {A} (f : A -> nat) l i x : l !! i = Some x -> (f x <= sum_list_with f l)%nat.
Proof.
  revert i. induction l as [|z l IH]; intros [|i] Hi; simpl in *; [done..|simplify_eq; lia|].
  specialize (IH i Hi). lia.
Qed.
Lemma sum_other {A} (f : A -> nat) l i j x y :
  (sum_list_with f l <= 1)%nat -> l !! i = Some x -> f x = 1%nat -> l !! j = Some y -> j <> i -> f y = 0%nat.
Proof.
  revert i j. induction l as [|z l IH]; intros [|i] [|j] Hs Hi Hx Hj Hne; simpl in *; simplify_eq; try done.
  - pose proof (sum_lookup f l j y Hj). lia.
  - pose proof (sum_lookup f l i x Hi). lia.
  - apply (IH i j); [lia|done..|lia].
Qed.
Lemma sum_zero {A} (f : A -> nat) l : (forall i x, l !! i = Some x -> f x = 0%nat) -> sum_list_with f l = 0%nat.
Proof.
  induction l as [|x l IH]; intros Hf; simpl; [done|]. rewrite (Hf 0%nat x eq_refl).
  apply IH. intros i y Hi. exact (Hf (S i) y Hi).
Qed.
Lemma union_insert {A B} (f : A -> list B) l i x y : l !! i = Some x ->
  f x ++ (<[i := y]> l ≫= f) ≡ₚ f y ++ (l ≫= f).
Proof.
  revert i. induction l as [|z l IH]; intros [|i] Hi; simpl in *; [done..| |].
  - simplify_eq. solve_Permutation.
  - specialize (IH i Hi). rewrite (app_assoc (f x)), (Permutation_app_comm (f x)), <-app_assoc.
    etransitivity; [by apply Permutation_app_head|]. solve_Permutation.
Qed.
