(* ===== verification/Ring.v ===== *)
(** * Ring arrays

    The common part of the ring buffer, the single-producer queue and the
    work-stealing queue: an array indexed by positions modulo its size, which holds
    the newest entries of an ever growing history. *)

From S2P Require Import Prelude.

(** [pos & mask] as an index. *)
Definition masked (mask pos : Z) : nat := Z.to_nat (Z.land pos mask).

(** A mask of [2^k - 1] applied to a position kept modulo [2^64]. *)
Lemma masked_mod k i : 0 <= k <= 64 ->
  masked (2 ^ k - 1) (u64 (Z.of_nat i)) = (i mod Z.to_nat (2 ^ k))%nat.
Proof.
  intros Hk. unfold masked, uwrap. rewrite land_ones_mod by lia.
  assert (0 < 2 ^ k) by (apply Z.pow_pos_nonneg; lia).
  assert (2 ^ 64 = 2 ^ k * 2 ^ (64 - k)) as E by (rewrite <-Z.pow_add_r by lia; f_equal; lia).
  rewrite <-Znumtheory.Zmod_div_mod; [|lia..|exists (2 ^ (64 - k)); lia].
  apply Nat2Z.inj. rewrite Nat2Z.inj_mod, !Z2Nat.id; [done|lia|]. apply Z.mod_pos_bound. lia.
Qed.

(** Positions closer than the size of the array have different slots. *)
Lemma mod_distinct N i j : (i < j)%nat -> (j - i < N)%nat -> (i mod N <> j mod N)%nat.
Proof.
  intros Hij HN E. pose proof (Nat.div_mod_eq i N). pose proof (Nat.div_mod_eq j N).
  assert (i / N < j / N \/ i / N = j / N \/ j / N < i / N)%nat as [?|[?|?]] by lia; nia.
Qed.

(** The test [n & (n - 1)] for a power of two. *)
Lemma pow2_of_land n : 0 < n -> Z.land n (n - 1) = 0 -> exists k, 0 <= k /\ n = 2 ^ k.
Proof.
  intros Hn E. set (k := Z.log2 n). exists k. pose proof (Z.log2_spec n Hn) as Hk. fold k in Hk.
  pose proof (Z.log2_nonneg n) as H0. fold k in H0. split; [done|].
  destruct (decide (n = 2 ^ k)) as [|Hne]; [done|]. exfalso.
  assert (Z.log2 (n - 1) = k) as Hk' by (apply Z.log2_unique; lia).
  assert (Z.testbit (Z.land n (n - 1)) k = true) as Hb.
  { rewrite Z.land_spec. rewrite <-Hk' at 2. rewrite !Z.bit_log2; [done|lia..]. }
  by rewrite E, Z.bits_0 in Hb.
Qed.

Section window.
Context {A : Type}.

(** The entries [lo .. hi) of the history are in their slots. *)
Definition window (slots hist : list A) (lo hi : nat) : Prop :=
  (hi <= length hist)%nat /\
  forall i, (lo <= i < hi)%nat -> slots !! (i mod length slots)%nat = hist !! i.

Lemma window_empty slots hist lo : (lo <= length hist)%nat -> window slots hist lo lo.
Proof. intros H. split; [done|]. lia. Qed.
Lemma window_shrink slots hist lo lo' hi : (lo <= lo')%nat -> window slots hist lo hi -> window slots hist lo' hi.
Proof. intros Hl [H1 H2]. split; [done|]. intros i Hi. apply H2. lia. Qed.
Lemma window_history slots hist x lo hi : window slots hist lo hi -> window slots (hist ++ [x]) lo hi.
Proof.
  intros [H1 H2]. split; [rewrite length_app; lia|]. intros i Hi. rewrite lookup_app_l by lia. by apply H2.
Qed.
(** Writing the next slot of a window that is not full keeps what it holds. *)
Lemma window_write slots hist x lo hi : (hi - lo < length slots)%nat -> window slots hist lo hi ->
  window (<[(hi mod length slots)%nat := x]> slots) hist lo hi.
Proof.
  intros Hn [H1 H2]. split; [done|]. intros i Hi. rewrite length_insert.
  rewrite list_lookup_insert_ne; [by apply H2|]. intros E. symmetry in E. revert E. apply mod_distinct; lia.
Qed.
Lemma window_extend slots hist lo hi x :
  window slots hist lo hi -> hist !! hi = Some x -> slots !! (hi mod length slots)%nat = Some x ->
  window slots hist lo (S hi).
Proof.
  intros [H1 H2] Hx Hs. split; [by apply lookup_lt_Some in Hx|].
  intros i Hi. destruct (decide (i = hi)) as [->|]; [congruence|]. apply H2. lia.
Qed.
End window.

(** ** Positions kept modulo [2^64] in a ring of [2^k] slots *)
Section positions.
Context (k : Z) (Hk : 0 <= k < 64).
Notation cap := (Z.to_nat (2 ^ k)).

Lemma cap_pos : (0 < cap)%nat.
Proof. pose proof (Z.pow_pos_nonneg 2 k ltac:(lia) ltac:(lia)). lia. Qed.
Lemma cap_small : Z.of_nat cap < 2 ^ 64.
Proof. rewrite Z2Nat.id by (apply Z.pow_nonneg; lia). apply Z.pow_lt_mono_r; lia. Qed.

(** Differences of positions kept modulo [2^64]. *)
Lemma pos_diff w r : (r <= w <= r + cap)%nat ->
  u64 (u64 (Z.of_nat w) - u64 (Z.of_nat r)) = Z.of_nat (w - r).
Proof.
  intros H. pose proof cap_small. unfold uwrap. rewrite <-Zminus_mod, Z.mod_small by lia. lia.
Qed.
Lemma pos_succ n : u64 (u64 (Z.of_nat n) + 1) = u64 (Z.of_nat (S n)).
Proof. unfold uwrap. rewrite Zplus_mod_idemp_l. f_equal. lia. Qed.
Lemma pos_eq w r : (r <= w <= r + cap)%nat ->
  (u64 (Z.of_nat w) =? u64 (Z.of_nat r)) = bool_decide (w = r).
Proof.
  intros H. pose proof cap_small. case_bool_decide as E; [subst; apply Z.eqb_refl|].
  apply Z.eqb_neq. intros Eq. pose proof (pos_diff w r H) as D. rewrite Eq, Z.sub_diag in D. unfold uwrap in D.
  rewrite Z.mod_0_l in D; lia.
Qed.
Lemma full_iff w r : (r <= w <= r + cap)%nat ->
  (2 ^ k - 1 <? u64 (u64 (Z.of_nat w) - u64 (Z.of_nat r))) = bool_decide (w = r + cap)%nat.
Proof.
  intros H. rewrite pos_diff by done. pose proof (Z.pow_pos_nonneg 2 k ltac:(lia) ltac:(lia)).
  case_bool_decide; [apply Z.ltb_lt|apply Z.ltb_ge]; lia.
Qed.
End positions.
