(* ===== verification/RingBuf.v ===== *)
(** * The ring buffer of fixed-size entries (src/container/xylem-ringbuf.c)

    Entries of [esz] bytes in an array of [cap] entries, [cap] a power of two, with
    64-bit positions that only grow.  Copies go around the end of the array. *)

From S2P Require Import Prelude Ring.

Record xylem_ringbuf_t := RingBuf { buf : list Z; rwpos : Z; rrpos : Z; rmask : Z; esz : Z }.

Definition _ringbuf_rounddown_pow2 (n : Z) : Z :=
  if n =? 0 then 0
  else
    let n := Z.lor n (Z.shiftr n 1) in
    let n := Z.lor n (Z.shiftr n 2) in
    let n := Z.lor n (Z.shiftr n 4) in
    let n := Z.lor n (Z.shiftr n 8) in
    let n := Z.lor n (Z.shiftr n 16) in
    Z.shiftr (u32 (n + 1)) 1.

(** The array after copying [len] entries from [src] to position [off]. *)
Definition _ringbuf_write_internal (ring : xylem_ringbuf_t) (src : list Z) (len off : Z) : list Z :=
  let idx := u32 (Z.land off (rmask ring)) in
  let cap := u32 (rmask ring + 1) in
  if esz ring =? 1 then
    let l := if len <=? u32 (cap - idx) then len else u32 (cap - idx) in
    let b := blit (buf ring) (Z.to_nat idx) (take (Z.to_nat l) src) in
    if l <? len then blit b 0 (take (Z.to_nat (len - l)) (drop (Z.to_nat l) src)) else b
  else
    let byte_off := u64 (idx * esz ring) in
    let total_bytes := u64 (len * esz ring) in
    let buf_size := u64 (cap * esz ring) in
    let l := if total_bytes <=? u64 (buf_size - byte_off) then total_bytes else u64 (buf_size - byte_off) in
    let b := blit (buf ring) (Z.to_nat byte_off) (take (Z.to_nat l) src) in
    if l <? total_bytes then blit b 0 (take (Z.to_nat (total_bytes - l)) (drop (Z.to_nat l) src)) else b.

(** The bytes of [len] entries copied out from position [off]. *)
Definition _ringbuf_read_internal (ring : xylem_ringbuf_t) (len off : Z) : list Z :=
  let idx := u32 (Z.land off (rmask ring)) in
  let cap := u32 (rmask ring + 1) in
  if esz ring =? 1 then
    let l := if len <=? u32 (cap - idx) then len else u32 (cap - idx) in
    take (Z.to_nat l) (drop (Z.to_nat idx) (buf ring))
    ++ (if l <? len then take (Z.to_nat (len - l)) (buf ring) else [])
  else
    let byte_off := u64 (idx * esz ring) in
    let total_bytes := u64 (len * esz ring) in
    let buf_size := u64 (cap * esz ring) in
    let l := if total_bytes <=? u64 (buf_size - byte_off) then total_bytes else u64 (buf_size - byte_off) in
    take (Z.to_nat l) (drop (Z.to_nat byte_off) (buf ring))
    ++ (if l <? total_bytes then take (Z.to_nat (total_bytes - l)) (buf ring) else []).

Definition UINT32_MAX : Z := 2 ^ 32 - 1.

Definition xylem_ringbuf_create (calloc_ring calloc_buf : bool) (esize bufsize : Z) : option xylem_ringbuf_t :=
  if (esize =? 0) || (bufsize <? esize) then None
  else if UINT32_MAX <? esize then None
  else
    let elem_count := bufsize / esize in
    if elem_count =? 0 then None
    else
      let n := if UINT32_MAX <? elem_count then UINT32_MAX else elem_count in
      let cap := _ringbuf_rounddown_pow2 n in
      if cap =? 0 then None
      else if negb calloc_ring || negb calloc_buf then None
      else Some (RingBuf (replicate (Z.to_nat (u64 (cap * esize))) 0) 0 0 (u32 (cap - 1)) esize).

Definition xylem_ringbuf_len (ring : xylem_ringbuf_t) : Z := u64 (rwpos ring - rrpos ring).
Definition xylem_ringbuf_cap (ring : xylem_ringbuf_t) : Z := u32 (rmask ring + 1).
Definition xylem_ringbuf_full (ring : xylem_ringbuf_t) : bool := xylem_ringbuf_cap ring <=? xylem_ringbuf_len ring.
Definition xylem_ringbuf_empty (ring : xylem_ringbuf_t) : bool := rwpos ring =? rrpos ring.
Definition xylem_ringbuf_avail (ring : xylem_ringbuf_t) : Z :=
  let len := xylem_ringbuf_len ring in
  let cap := xylem_ringbuf_cap ring in
  if cap <=? len then 0 else cap - len.

Definition xylem_ringbuf_write (ring : xylem_ringbuf_t) (src : list Z) (entry_count : Z) : Z * xylem_ringbuf_t :=
  let avail := xylem_ringbuf_avail ring in
  let entry_count := if avail <? entry_count then avail else entry_count in
  (entry_count, RingBuf (_ringbuf_write_internal ring src (u32 entry_count) (rwpos ring))
    (u64 (rwpos ring + u32 entry_count)) (rrpos ring) (rmask ring) (esz ring)).

(** The bytes the caller gets, the number of entries, the ring. *)
Definition xylem_ringbuf_peek (ring : xylem_ringbuf_t) (entry_count : Z) : list Z * Z :=
  let len := xylem_ringbuf_len ring in
  let entry_count := if len <? entry_count then len else entry_count in
  let count32 := u32 entry_count in
  (_ringbuf_read_internal ring count32 (rrpos ring), count32).
Definition xylem_ringbuf_read (ring : xylem_ringbuf_t) (entry_count : Z) : list Z * Z * xylem_ringbuf_t :=
  let len := xylem_ringbuf_len ring in
  let entry_count := if len <? entry_count then len else entry_count in
  let count32 := u32 entry_count in
  (_ringbuf_read_internal ring count32 (rrpos ring), count32,
   RingBuf (buf ring) (rwpos ring) (u64 (rrpos ring + count32)) (rmask ring) (esz ring)).

(** ** Copies around the end of an array *)

Section wrap.
Context {A : Type}.
Implicit Types (a src : list A).

(** Both branches of the two copy routines, at byte offset [off]. *)
Definition wrap_blit a (off : nat) src : list A :=
  let l := Nat.min (length src) (length a - off) in
  if (l <? length src)%nat then blit (blit a off (take l src)) 0 (drop l src) else blit a off (take l src).
Definition wrap_read a (off n : nat) : list A :=
  let l := Nat.min n (length a - off) in
  take l (drop off a) ++ (if (l <? n)%nat then take (n - l) a else []).

Lemma wrap_index N p j : (p < N)%nat -> (j <= N)%nat ->
  ((p + j) mod N = if decide (p + j < N) then p + j else p + j - N)%nat.
Proof.
  intros Hp Hj. destruct (decide (p + j < N)%nat); [by apply Nat.mod_small|].
  replace (p + j)%nat with (p + j - N + 1 * N)%nat at 1 by lia. rewrite Nat.Div0.mod_add. apply Nat.mod_small. lia.
Qed.

Lemma wrap_blit_length a off src : (off <= length a)%nat -> (length src <= length a)%nat ->
  length (wrap_blit a off src) = length a.
Proof.
  intros Ho Hs. unfold wrap_blit. set (l := Nat.min _ _).
  assert (length (blit a off (take l src)) = length a) as Hl1 by (apply blit_length; rewrite length_take; lia).
  destruct (_ <? _)%nat; [|done]. rewrite blit_length; [done|]. rewrite Hl1, length_drop. lia.
Qed.

(** A slot that receives byte [j] of the source, and a slot that receives none. *)
Lemma wrap_blit_hit a off src j : (off < length a)%nat -> (length src <= length a)%nat -> (j < length src)%nat ->
  wrap_blit a off src !! ((off + j) mod length a)%nat = src !! j.
Proof.
  intros Ho Hs Hj. rewrite wrap_index by lia. unfold wrap_blit. set (l := Nat.min _ _).
  assert (length (take l src) = l) as Hl by (rewrite length_take; lia).
  assert (length (blit a off (take l src)) = length a) as Hl1 by (apply blit_length; lia).
  destruct (Nat.ltb_spec l (length src)).
  - rewrite blit_lookup by (rewrite Hl1, length_drop; lia). rewrite length_drop.
    destruct (decide (off + j < length a)%nat).
    + rewrite decide_False by lia. rewrite blit_lookup, Hl, decide_True by lia.
      rewrite lookup_take_lt by lia. f_equal. lia.
    + rewrite decide_True by lia. rewrite lookup_drop. f_equal. lia.
  - destruct (decide (off + j < length a)%nat); [|lia]. rewrite blit_lookup, Hl, decide_True by lia.
    rewrite lookup_take_lt by lia. f_equal. lia.
Qed.
Lemma wrap_blit_miss a off src i : (off < length a)%nat -> (length src <= length a)%nat ->
  (forall j, (j < length src)%nat -> i <> (off + j) mod length a)%nat ->
  wrap_blit a off src !! i = a !! i.
Proof.
  intros Ho Hs Hi. unfold wrap_blit. set (l := Nat.min _ _).
  assert (length (take l src) = l) as Hl by (rewrite length_take; lia).
  assert (length (blit a off (take l src)) = length a) as Hl1 by (apply blit_length; lia).
  assert (forall j, (j < l)%nat -> i <> off + j)%nat as Hlow.
  { intros j Hj E. apply (Hi j); [lia|]. rewrite wrap_index by lia. by rewrite decide_True by lia. }
  assert (blit a off (take l src) !! i = a !! i) as E1.
  { rewrite blit_lookup, Hl by lia. rewrite decide_False; [done|]. intros ?. apply (Hlow (i - off)%nat); lia. }
  destruct (Nat.ltb_spec l (length src)); [|done].
  rewrite blit_lookup by (rewrite Hl1, length_drop; lia). rewrite decide_False; [done|].
  rewrite length_drop. intros Hr. apply (Hi (i + length a - off)%nat); [lia|].
  rewrite wrap_index by lia. rewrite decide_False by lia. lia.
Qed.
Lemma wrap_read_lookup a off n j : (off < length a)%nat -> (n <= length a)%nat -> (j < n)%nat ->
  wrap_read a off n !! j = a !! ((off + j) mod length a)%nat.
Proof.
  intros Ho Hn Hj. rewrite wrap_index by lia. unfold wrap_read. set (l := Nat.min _ _).
  assert (length (take l (drop off a)) = l) as Hl by (rewrite length_take, length_drop; lia).
  destruct (decide (off + j < length a)%nat).
  - rewrite lookup_app_l by lia. rewrite lookup_take_lt, lookup_drop by lia. done.
  - rewrite lookup_app_r, Hl by lia. destruct (Nat.ltb_spec l n); [|lia].
    rewrite lookup_take_lt by lia. f_equal. lia.
Qed.
Lemma wrap_read_length a off n : (off <= length a)%nat -> (n <= length a)%nat -> length (wrap_read a off n) = n.
Proof.
  intros Ho Hn. unfold wrap_read. rewrite length_app, length_take, length_drop.
  destruct (Nat.ltb_spec (Nat.min n (length a - off)) n); [rewrite length_take|simpl]; lia.
Qed.
End wrap.

(** The integer form of the two routines. *)
Lemma copy_in_eq (a src : list Z) boff tot size : Z.of_nat (length a) = size -> 0 <= boff <= size -> 0 <= tot ->
  tot <= Z.of_nat (length src) ->
  (let l := if tot <=? size - boff then tot else size - boff in
   let b := blit a (Z.to_nat boff) (take (Z.to_nat l) src) in
   if l <? tot then blit b 0 (take (Z.to_nat (tot - l)) (drop (Z.to_nat l) src)) else b)
  = wrap_blit a (Z.to_nat boff) (take (Z.to_nat tot) src).
Proof.
  intros Ha Hb Ht Hs. cbv zeta. unfold wrap_blit. rewrite length_take_le by lia.
  set (l := if tot <=? size - boff then tot else size - boff).
  assert (Z.to_nat l = Nat.min (Z.to_nat tot) (length a - Z.to_nat boff)) as El.
  { subst l. destruct (Z.leb_spec tot (size - boff)); lia. }
  rewrite <-El, take_take, (Nat.min_l (Z.to_nat l)) by lia.
  assert (0 <= l <= tot) as Hl by (subst l; destruct (Z.leb_spec tot (size - boff)); lia).
  destruct (Z.ltb_spec l tot), (Nat.ltb_spec (Z.to_nat l) (Z.to_nat tot)); try lia; [|done].
  f_equal. rewrite skipn_firstn_comm. f_equal. lia.
Qed.
Lemma copy_out_eq (a : list Z) boff tot size : Z.of_nat (length a) = size -> 0 <= boff <= size -> 0 <= tot ->
  (let l := if tot <=? size - boff then tot else size - boff in
   take (Z.to_nat l) (drop (Z.to_nat boff) a) ++ (if l <? tot then take (Z.to_nat (tot - l)) a else []))
  = wrap_read a (Z.to_nat boff) (Z.to_nat tot).
Proof.
  intros Ha Hb Ht. cbv zeta. unfold wrap_read.
  set (l := if tot <=? size - boff then tot else size - boff).
  assert (Z.to_nat l = Nat.min (Z.to_nat tot) (length a - Z.to_nat boff)) as El.
  { subst l. destruct (Z.leb_spec tot (size - boff)); lia. }
  rewrite <-El. assert (0 <= l <= tot) as Hl by (subst l; destruct (Z.leb_spec tot (size - boff)); lia).
  destruct (Z.ltb_spec l tot), (Nat.ltb_spec (Z.to_nat l) (Z.to_nat tot)); try lia; [|done].
  f_equal. f_equal. lia.
Qed.

(** ** Representation *)

Section ring.
Context (k : Z) (e : nat) (Hk : 0 <= k <= 30) (He : (0 < e)%nat) (He32 : Z.of_nat e < 2 ^ 32).
Notation cap := (Z.to_nat (2 ^ k)).

(** The ring holds the bytes [content]; [W] and [R] count entries written and read. *)
Record ring_rep (ring : xylem_ringbuf_t) (content : list Z) : Prop := RingRep {
  r_mask : rmask ring = 2 ^ k - 1;
  r_esz : esz ring = Z.of_nat e;
  r_buf : length (buf ring) = (cap * e)%nat;
  r_pos : exists hist W R, rwpos ring = u64 (Z.of_nat W) /\ rrpos ring = u64 (Z.of_nat R)
    /\ (R <= W <= R + cap)%nat /\ length hist = (W * e)%nat /\ content = drop (R * e) hist
    /\ window (buf ring) hist (R * e) (W * e) }.

Lemma cap_zb : Z.of_nat cap = 2 ^ k /\ 0 < 2 ^ k <= 2 ^ 30.
Proof.
  clear He He32. pose proof (Z.pow_pos_nonneg 2 k ltac:(lia) ltac:(lia)). pose proof (Z.pow_le_mono_r 2 k 30 ltac:(lia) ltac:(lia)). lia.
Qed.
Lemma size_bound : Z.of_nat cap * Z.of_nat e < 2 ^ 62.
Proof. pose proof cap_zb. nia. Qed.

Lemma index_ok (ring : xylem_ringbuf_t) i : rmask ring = 2 ^ k - 1 ->
  u32 (Z.land (u64 (Z.of_nat i)) (rmask ring)) = Z.of_nat (i mod cap).
Proof.
  intros ->. pose proof (masked_mod k i ltac:(lia)) as H. unfold masked in H. pose proof cap_zb as [Hc1 Hc2].
  assert (0 <= Z.land (u64 (Z.of_nat i)) (2 ^ k - 1)) as Hn.
  { apply Z.land_nonneg. right. lia. }
  pose proof (Nat.mod_upper_bound i cap ltac:(lia)). rewrite uwrap_small; unfold ubound; lia.
Qed.

(** The offset in bytes of an entry's slot. *)
Lemma offset_ok i : ((i mod cap) * e = (i * e) mod (cap * e))%nat.
Proof. pose proof cap_zb. by rewrite Nat.mul_mod_distr_r by lia. Qed.

Lemma write_internal_ok ring src len i : rmask ring = 2 ^ k - 1 -> esz ring = Z.of_nat e ->
  length (buf ring) = (cap * e)%nat -> (len <= cap)%nat -> (len * e <= length src)%nat ->
  _ringbuf_write_internal ring src (Z.of_nat len) (u64 (Z.of_nat i))
  = wrap_blit (buf ring) ((i * e) mod (cap * e)) (take (len * e) src).
Proof.
  intros Hm Hes Hbuf Hlen Hsrc. pose proof cap_zb as [Hc1 Hc2]. pose proof size_bound.
  unfold _ringbuf_write_internal. rewrite index_ok by done. rewrite Hm, Hes.
  replace (2 ^ k - 1 + 1) with (2 ^ k) by lia. rewrite (uwrap_small 32 (2 ^ k)) by (unfold ubound; lia).
  pose proof (Nat.mod_upper_bound i cap ltac:(lia)) as Hi. rewrite <-offset_ok. set (j := (i mod cap)%nat) in *.
  rewrite (uwrap_small 32 (2 ^ k - _)) by (unfold ubound; lia).
  destruct (Z.eqb_spec (Z.of_nat e) 1) as [E1|E1].
  - assert (e = 1%nat) as -> by lia. rewrite !Nat.mul_1_r in *.
    etransitivity; [apply (copy_in_eq (buf ring) src (Z.of_nat j) (Z.of_nat len) (2 ^ k)); lia|]. by rewrite !Nat2Z.id.
  - assert (Z.of_nat j * Z.of_nat e <= Z.of_nat cap * Z.of_nat e) by nia.
    assert (Z.of_nat len * Z.of_nat e <= Z.of_nat cap * Z.of_nat e) by nia.
    rewrite (uwrap_small 64 (Z.of_nat j * _)), (uwrap_small 64 (Z.of_nat len * _)), (uwrap_small 64 (2 ^ k * _)) by (unfold ubound; lia).
    rewrite (uwrap_small 64 (2 ^ k * _ - _)) by (unfold ubound; lia).
    etransitivity; [apply copy_in_eq; lia|]. by rewrite <-!Nat2Z.inj_mul, !Nat2Z.id.
Qed.
Lemma read_internal_ok ring len i : rmask ring = 2 ^ k - 1 -> esz ring = Z.of_nat e ->
  length (buf ring) = (cap * e)%nat -> (len <= cap)%nat ->
  _ringbuf_read_internal ring (Z.of_nat len) (u64 (Z.of_nat i))
  = wrap_read (buf ring) ((i * e) mod (cap * e)) (len * e).
Proof.
  intros Hm Hes Hbuf Hlen. pose proof cap_zb as [Hc1 Hc2]. pose proof size_bound.
  unfold _ringbuf_read_internal. rewrite index_ok by done. rewrite Hm, Hes.
  replace (2 ^ k - 1 + 1) with (2 ^ k) by lia. rewrite (uwrap_small 32 (2 ^ k)) by (unfold ubound; lia).
  pose proof (Nat.mod_upper_bound i cap ltac:(lia)) as Hi. rewrite <-offset_ok. set (j := (i mod cap)%nat) in *.
  rewrite (uwrap_small 32 (2 ^ k - _)) by (unfold ubound; lia).
  destruct (Z.eqb_spec (Z.of_nat e) 1) as [E1|E1].
  - assert (e = 1%nat) as -> by lia. rewrite !Nat.mul_1_r in *.
    etransitivity; [apply (copy_out_eq (buf ring) (Z.of_nat j) (Z.of_nat len) (2 ^ k)); lia|]. by rewrite !Nat2Z.id.
  - assert (Z.of_nat j * Z.of_nat e <= Z.of_nat cap * Z.of_nat e) by nia.
    assert (Z.of_nat len * Z.of_nat e <= Z.of_nat cap * Z.of_nat e) by nia.
    rewrite (uwrap_small 64 (Z.of_nat j * _)), (uwrap_small 64 (Z.of_nat len * _)), (uwrap_small 64 (2 ^ k * _)) by (unfold ubound; lia).
    rewrite (uwrap_small 64 (2 ^ k * _ - _)) by (unfold ubound; lia).
    etransitivity; [apply copy_out_eq; lia|]. by rewrite <-!Nat2Z.inj_mul, !Nat2Z.id.
Qed.

(** Positions as counters of entries. *)
Lemma ring_len ring W R : rwpos ring = u64 (Z.of_nat W) -> rrpos ring = u64 (Z.of_nat R) -> (R <= W <= R + cap)%nat ->
  xylem_ringbuf_len ring = Z.of_nat (W - R).
Proof. clear He He32. intros EW ER H. unfold xylem_ringbuf_len. rewrite EW, ER. apply (pos_diff k ltac:(lia) W R H). Qed.
Lemma ring_cap ring : rmask ring = 2 ^ k - 1 -> xylem_ringbuf_cap ring = Z.of_nat cap.
Proof.
  clear He He32. intros E. unfold xylem_ringbuf_cap. rewrite E. pose proof cap_zb. rewrite uwrap_small; unfold ubound; lia.
Qed.
Lemma pos_add n m : u64 (u64 (Z.of_nat n) + Z.of_nat m) = u64 (Z.of_nat (n + m)).
Proof. unfold uwrap. rewrite Zplus_mod_idemp_l. f_equal. lia. Qed.

(** Entries held. *)
Definition entries (content : list Z) : nat := (length content / e)%nat.

Lemma rep_entries hist W R : (R <= W)%nat -> length hist = (W * e)%nat ->
  entries (drop (R * e) hist) = (W - R)%nat /\ length (drop (R * e) hist) = ((W - R) * e)%nat.
Proof.
  intros H E. unfold entries. rewrite length_drop, E, <-Nat.mul_sub_distr_r. split; [|done]. apply Nat.div_mul. lia.
Qed.

(** A window after a copy of [src] behind it. *)
Lemma window_wrap_blit (a hist src : list Z) lo hi : length hist = hi -> (lo <= hi)%nat ->
  (hi + length src - lo <= length a)%nat -> (0 < length a)%nat -> window a hist lo hi ->
  window (wrap_blit a (hi mod length a) src) (hist ++ src) lo (hi + length src).
Proof.
  intros Hh Hlo Hfit Ha [_ Hw]. pose proof (Nat.mod_upper_bound hi (length a) ltac:(lia)) as Hm.
  assert (forall j, ((hi mod length a + j) mod length a = (hi + j) mod length a)%nat) as Hmod
    by (intros j; apply Nat.Div0.add_mod_idemp_l).
  split; [rewrite length_app; lia|]. intros i Hi. rewrite wrap_blit_length by lia.
  destruct (decide (i < hi)%nat) as [Hlt|Hge].
  - rewrite lookup_app_l by lia. rewrite wrap_blit_miss; [apply Hw; lia|lia|lia|].
    intros j Hj. rewrite Hmod. apply mod_distinct; lia.
  - rewrite lookup_app_r by lia. replace i with (hi + (i - hi))%nat at 1 by lia. rewrite <-Hmod, wrap_blit_hit by lia.
    by rewrite Hh.
Qed.
Lemma window_wrap_read (a hist : list Z) lo hi n : (lo + n <= hi)%nat -> length hist = hi -> (n <= length a)%nat -> (0 < length a)%nat ->
  window a hist lo hi -> wrap_read a (lo mod length a) n = take n (drop lo hist).
Proof.
  intros Hn Hh Hna Ha [_ Hw]. pose proof (Nat.mod_upper_bound lo (length a) ltac:(lia)) as Hm.
  apply list_eq. intros j. destruct (decide (j < n)%nat).
  - rewrite wrap_read_lookup by lia. rewrite Nat.Div0.add_mod_idemp_l, Hw by lia.
    by rewrite lookup_take_lt, lookup_drop by lia.
  - rewrite !lookup_ge_None_2; [done|rewrite length_take, length_drop; lia|rewrite wrap_read_length; lia].
Qed.

Lemma avail_ok ring content : ring_rep ring content ->
  (entries content <= cap)%nat /\ xylem_ringbuf_len ring = Z.of_nat (entries content)
  /\ xylem_ringbuf_avail ring = Z.of_nat (cap - entries content).
Proof.
  intros [Hm Hes Hb (hist & W & R & EW & ER & HWR & Hh & -> & Hw)].
  destruct (rep_entries hist W R) as [-> _]; [lia|done|]. unfold xylem_ringbuf_avail.
  rewrite (ring_len ring W R), ring_cap by done. split_and!; [lia|done|].
  destruct (Z.leb_spec (Z.of_nat cap) (Z.of_nat (W - R))); lia.
Qed.

Lemma write_ok ring content src n : ring_rep ring content -> 0 <= n < 2 ^ 64 -> (Z.to_nat n * e <= length src)%nat ->
  let m := Nat.min (Z.to_nat n) (cap - entries content) in
  exists ring', xylem_ringbuf_write ring src n = (Z.of_nat m, ring') /\ ring_rep ring' (content ++ take (m * e) src).
Proof.
  intros HR Hn Hsrc m. destruct (avail_ok ring content HR) as (Hle & _ & Eav). unfold xylem_ringbuf_write. rewrite Eav.
  assert ((if Z.of_nat (cap - entries content) <? n then Z.of_nat (cap - entries content) else n) = Z.of_nat m) as ->.
  { subst m. destruct (Z.ltb_spec (Z.of_nat (cap - entries content)) n); lia. }
  destruct HR as [Hm Hes Hb (hist & W & R & EW & ER & HWR & Hh & -> & Hw)].
  destruct (rep_entries hist W R) as [Een _]; [lia|done|]. rewrite Een in *. pose proof cap_zb as [Hc1 Hc2].
  rewrite (uwrap_small 32 (Z.of_nat m)) by (unfold ubound; lia). eexists. split; [done|].
  assert (m * e <= length src)%nat as Hme by nia.
  rewrite EW, write_internal_ok, pos_add by (done || lia). set (src' := take (m * e) src).
  assert (length src' = (m * e)%nat) as Hs' by (subst src'; rewrite length_take; lia).
  assert ((W * e) mod (cap * e) < cap * e)%nat as Hmod by (apply Nat.mod_upper_bound; nia).
  split; cbn [rmask esz buf rwpos rrpos]; try done.
  - rewrite wrap_blit_length; [done|lia|]. rewrite Hs', Hb. nia.
  - exists (hist ++ src'), (W + m)%nat, R. split_and!; try done; [lia|lia|rewrite length_app; lia| |].
    + rewrite drop_app_le; [done|]. nia.
    + rewrite <-Hb. rewrite Nat.mul_add_distr_r, <-Hs'. apply window_wrap_blit; try done; rewrite ?Hs', ?Hb; nia.
Qed.

Lemma read_ok ring content n : ring_rep ring content -> 0 <= n < 2 ^ 64 ->
  let m := Nat.min (Z.to_nat n) (entries content) in
  xylem_ringbuf_peek ring n = (take (m * e) content, Z.of_nat m)
  /\ exists ring', xylem_ringbuf_read ring n = (take (m * e) content, Z.of_nat m, ring')
    /\ ring_rep ring' (drop (m * e) content).
Proof.
  intros HR Hn m. destruct (avail_ok ring content HR) as (Hle & Elen & _).
  unfold xylem_ringbuf_peek, xylem_ringbuf_read. rewrite Elen.
  assert ((if Z.of_nat (entries content) <? n then Z.of_nat (entries content) else n) = Z.of_nat m) as ->.
  { subst m. destruct (Z.ltb_spec (Z.of_nat (entries content)) n); lia. }
  destruct HR as [Hm Hes Hb (hist & W & R & EW & ER & HWR & Hh & -> & Hw)].
  destruct (rep_entries hist W R) as [Een _]; [lia|done|]. rewrite Een in *. pose proof cap_zb as [Hc1 Hc2].
  rewrite (uwrap_small 32 (Z.of_nat m)) by (unfold ubound; lia).
  rewrite ER, read_internal_ok, pos_add by (done || lia). rewrite <-Hb.
  rewrite (window_wrap_read _ hist (R * e) (W * e)) by (done || nia). split; [done|].
  eexists. split; [done|]. split; cbn [rmask esz buf rwpos rrpos]; try done.
  exists hist, W, (R + m)%nat. split_and!; try done; [lia|lia| |].
  - rewrite drop_drop. f_equal. lia.
  - eapply window_shrink; [|done]. nia.
Qed.
End ring.

(** ** Rounding down to a power of two *)

(** Bit [i] of [x] is set when one of the bits [i .. i+w) of [n] is. *)
Definition smeared (n x w : Z) : Prop :=
  forall i, 0 <= i -> Z.testbit x i = true <-> exists j, i <= j < i + w /\ Z.testbit n j = true.
Lemma smear_step n x w : 0 < w -> smeared n x w -> smeared n (Z.lor x (Z.shiftr x w)) (2 * w).
Proof.
  intros Hw Hx i Hi. unfold smeared in Hx. rewrite Z.lor_spec, Z.shiftr_spec, orb_true_iff, (Hx i), (Hx (i + w)) by lia. split.
  - intros [(j & Hj & E)|(j & Hj & E)]; exists j; (split; [lia|done]).
  - intros (j & Hj & E). destruct (decide (j < i + w)); [left|right]; exists j; (split; [lia|done]).
Qed.
Lemma rounddown_ok n : 0 < n < 2 ^ 32 ->
  _ringbuf_rounddown_pow2 n = if n <? 2 ^ 31 then 2 ^ Z.log2 n else 0.
Proof.
  intros Hn. unfold _ringbuf_rounddown_pow2. destruct (Z.eqb_spec n 0); [lia|].
  assert (smeared n n 1) as H0.
  { intros i Hi. split; [intros E; exists i; split; [lia|done]|]. intros (j & Hj & E). by replace i with j by lia. }
  pose proof (smear_step _ _ 1 eq_refl H0) as H1. pose proof (smear_step _ _ 2 eq_refl H1) as H2.
  pose proof (smear_step _ _ 4 eq_refl H2) as H3. pose proof (smear_step _ _ 8 eq_refl H3) as H4.
  pose proof (smear_step _ _ 16 eq_refl H4) as H5. change (2 * 16) with 32 in H5. cbv zeta. clear H0 H1 H2 H3 H4.
  set (x := Z.lor _ _) in *. clearbody x. pose proof (Z.log2_nonneg n) as Hm0.
  assert (Z.log2 n < 32) as Hm by (apply Z.log2_lt_pow2; lia). set (m := Z.log2 n) in *.
  assert (x = Z.ones (m + 1)) as ->.
  { apply Z.bits_inj'. intros i Hi. rewrite Z.testbit_ones_nonneg by lia. apply eq_true_iff_eq.
    unfold smeared in H5. rewrite (H5 i) by done. rewrite Z.ltb_lt. split.
    - intros (j & Hj & E). destruct (decide (m < j)); [|lia]. rewrite Z.bits_above_log2 in E; [done|lia|fold m; lia].
    - intros Hlt. exists m. split; [lia|]. apply Z.bit_log2. lia. }
  rewrite Z.ones_equiv. replace (Z.pred (2 ^ (m + 1)) + 1) with (2 ^ (m + 1)) by lia.
  destruct (Z.ltb_spec n (2 ^ 31)) as [Hlt|Hge].
  - assert (m < 31) by (apply Z.log2_lt_pow2; lia). rewrite uwrap_small.
    + rewrite Z.shiftr_div_pow2 by lia. rewrite Z.pow_add_r by lia. apply Z.div_mul. lia.
    + unfold ubound. split; [lia|]. apply Z.pow_lt_mono_r; lia.
  - assert (m = 31) as -> by (apply Z.log2_unique; lia). reflexivity.
Qed.

Lemma create_ok esize bufsize : 0 < esize < 2 ^ 32 -> esize <= bufsize < 2 ^ 64 -> bufsize / esize < 2 ^ 31 ->
  exists ring, xylem_ringbuf_create true true esize bufsize = Some ring
    /\ ring_rep (Z.log2 (bufsize / esize)) (Z.to_nat esize) ring [] /\ 0 <= Z.log2 (bufsize / esize) <= 30.
Proof.
  intros He Hb Hq. unfold xylem_ringbuf_create, UINT32_MAX. set (n := bufsize / esize) in *.
  assert (0 < n) as Hn by (subst n; apply Z.div_str_pos; lia).
  destruct (Z.eqb_spec esize 0), (Z.ltb_spec bufsize esize), (Z.ltb_spec (2 ^ 32 - 1) esize), (Z.eqb_spec n 0); try lia.
  destruct (Z.ltb_spec (2 ^ 32 - 1) n); [lia|]. cbn [orb negb].
  rewrite rounddown_ok by lia. destruct (Z.ltb_spec n (2 ^ 31)); [|lia].
  pose proof (Z.log2_spec n ltac:(lia)) as Hlog. pose proof (Z.log2_nonneg n).
  assert (Z.log2 n < 31) by (apply Z.log2_lt_pow2; lia).
  assert (2 ^ Z.log2 n * esize <= bufsize) as Hsz.
  { pose proof (Z.mul_div_le bufsize esize ltac:(lia)). subst n. nia. }
  set (c := 2 ^ Z.log2 n) in *. destruct (Z.eqb_spec c 0); [lia|]. eexists. split; [done|].
  rewrite uwrap_small by (unfold ubound; lia). rewrite uwrap_small by (unfold ubound; nia). split; [|lia].
  split; cbn [rmask esz buf rwpos rrpos]; [done|lia|rewrite length_replicate; lia|].
  exists [], 0%nat, 0%nat. split_and!; try done; [lia..|]. by apply window_empty.
Qed.

(** C19 The ring buffer is a bounded queue of fixed-size entries.  Whatever was stored
    and removed before, the counters report the entries held and the room left, a
    write stores as many of the offered entries as there is room for behind the
    others and returns their number, a read returns the oldest entries in order and
    removes them, a peek returns the same and removes nothing. *)
Theorem ringbuf_refines k e ring content src n : 0 <= k <= 30 -> (0 < e)%nat -> Z.of_nat e < 2 ^ 32 ->
  ring_rep k e ring content -> 0 <= n < 2 ^ 64 -> (Z.to_nat n * e <= length src)%nat ->
  let held := entries e content in
  let stored := Nat.min (Z.to_nat n) (Z.to_nat (2 ^ k) - held) in
  let got := Nat.min (Z.to_nat n) held in
  xylem_ringbuf_len ring = Z.of_nat held /\ xylem_ringbuf_cap ring = 2 ^ k
  /\ xylem_ringbuf_avail ring = 2 ^ k - Z.of_nat held
  /\ xylem_ringbuf_empty ring = bool_decide (content = [])
  /\ xylem_ringbuf_full ring = bool_decide (Z.of_nat held = 2 ^ k)
  /\ (exists ring', xylem_ringbuf_write ring src n = (Z.of_nat stored, ring')
        /\ ring_rep k e ring' (content ++ take (stored * e) src))
  /\ xylem_ringbuf_peek ring n = (take (got * e) content, Z.of_nat got)
  /\ exists ring', xylem_ringbuf_read ring n = (take (got * e) content, Z.of_nat got, ring')
       /\ ring_rep k e ring' (drop (got * e) content).
Proof.
  intros Hk He He32 HR Hn Hsrc held stored got.
  destruct (avail_ok k e Hk He ring content HR) as (Hle & El & Ea). pose proof (cap_zb k Hk) as [Hc1 Hc2].
  destruct (read_ok k e Hk He He32 ring content n HR Hn) as [Ep Er].
  assert (xylem_ringbuf_cap ring = 2 ^ k) as Ec by (rewrite (ring_cap k Hk) by apply HR; lia).
  split_and!; try done.
  - rewrite Ea. fold held in Hle |- *. lia.
  - destruct HR as [Hm Hes Hb (hist & W & R & EW & ER & HWR & Hh & -> & Hw)].
    unfold xylem_ringbuf_empty. rewrite EW, ER, (pos_eq k ltac:(lia)) by done. apply bool_decide_ext.
    destruct (rep_entries e He hist W R) as [_ Hl]; [lia|done|]. rewrite <-length_zero_iff_nil, Hl. nia.
  - unfold xylem_ringbuf_full. rewrite Ec, El. fold held. case_bool_decide; [apply Z.leb_le|apply Z.leb_gt]; lia.
  - by apply write_ok.
Qed.
Lemma ringbuf_refines_witness :
  exists ring ring', xylem_ringbuf_create true true 2 9 = Some ring
    /\ xylem_ringbuf_write ring [1; 2; 3; 4; 5; 6; 7; 8; 9; 10] 5 = (4, ring')
    /\ ring_rep 2 2 ring' [1; 2; 3; 4; 5; 6; 7; 8].
Proof.
  destruct (create_ok 2 9) as (ring & E & HR & _); [lia|lia|reflexivity|].
  destruct (ringbuf_refines 2 2 ring [] [1; 2; 3; 4; 5; 6; 7; 8; 9; 10] 5) as (_ & _ & _ & _ & _ & (ring' & Ew & HR') & _);
    [lia|lia|done|exact HR|lia|simpl; lia|].
  exists ring, ring'. split; [exact E|]. split; [exact Ew|exact HR'].
Defined.

(** C39 Creation: for fewer than [2^31] entries the ring is created empty with the
    largest power of two of entries that fits the given size, and never more bytes
    than given; from [2^31] entries on the rounding overflows to zero and no ring is
    created, whatever memory there is. *)
Theorem ringbuf_create_capacity esize bufsize : 0 < esize < 2 ^ 32 -> esize <= bufsize < 2 ^ 64 ->
  (bufsize / esize < 2 ^ 31 -> exists ring k, xylem_ringbuf_create true true esize bufsize = Some ring
     /\ ring_rep k (Z.to_nat esize) ring [] /\ xylem_ringbuf_cap ring = 2 ^ k
     /\ 2 ^ k * esize <= bufsize < 2 ^ (k + 1) * esize)
  /\ (2 ^ 31 <= bufsize / esize -> forall a b, xylem_ringbuf_create a b esize bufsize = None).
Proof.
  intros He Hb. split.
  - intros Hq. destruct (create_ok esize bufsize He Hb Hq) as (ring & E & HR & Hk). exists ring, (Z.log2 (bufsize / esize)).
    pose proof (cap_zb _ Hk) as [Hc1 Hc2].
    assert (0 < bufsize / esize) as Hn by (apply Z.div_str_pos; lia).
    pose proof (Z.log2_spec _ Hn) as Hlog. rewrite <-Z.add_1_r in Hlog. split_and!; try done.
    + rewrite (ring_cap _ Hk) by apply HR. lia.
    + pose proof (Z.mul_div_le bufsize esize ltac:(lia)). nia.
    + pose proof (Z.mul_succ_div_gt bufsize esize ltac:(lia)). nia.
  - intros Hq a b. unfold xylem_ringbuf_create, UINT32_MAX.
    destruct (Z.eqb_spec esize 0), (Z.ltb_spec bufsize esize), (Z.ltb_spec (2 ^ 32 - 1) esize), (Z.eqb_spec (bufsize / esize) 0); try done.
    set (n' := if 2 ^ 32 - 1 <? bufsize / esize then _ else _).
    assert (2 ^ 31 <= n' < 2 ^ 32) as Hn' by (subst n'; destruct (Z.ltb_spec (2 ^ 32 - 1) (bufsize / esize)); lia).
    rewrite rounddown_ok by lia. by destruct (Z.ltb_spec n' (2 ^ 31)); [lia|].
Qed.
Lemma ringbuf_create_capacity_witness :
  exists ring k, xylem_ringbuf_create true true 3 100 = Some ring /\ xylem_ringbuf_cap ring = 2 ^ k
    /\ 2 ^ k * 3 <= 100 < 2 ^ (k + 1) * 3.
Proof.
  destruct (ringbuf_create_capacity 3 100) as [H _]; [lia|lia|].
  destruct H as (ring & k & E & _ & Ec & Hb); [reflexivity|]. by exists ring, k.
Defined.
