(* ===== verification/Spsc.v ===== *)
(** * The single-producer single-consumer queue (src/container/spsc.c)

    Every access of the two threads to the shared fields is a step; the schedule is
    arbitrary.  A pointer is an [option loc]; [NULL] is [None]. *)

From S2P Require Import Prelude Ring Interleave.

Record spsc_t := Spsc { slots : list (option loc); smask : Z; wpos : Z; rpos : Z }.

Definition _spsc_is_pow2 (n : Z) : bool := negb (n =? 0) && (Z.land n (u64 (n - 1)) =? 0).

(** [None]: the function returns -1. *)
Definition spsc_init (calloc_ok : bool) (cap : Z) : option spsc_t :=
  if negb (_spsc_is_pow2 cap) || negb calloc_ok then None
  else Some (Spsc (replicate (Z.to_nat cap) None) (u64 (cap - 1)) 0 0).

Definition spsc_len (q : spsc_t) : Z := u64 (wpos q - rpos q).
Definition spsc_cap (q : spsc_t) : Z := u64 (smask q + 1).
Definition spsc_empty (q : spsc_t) : bool := spsc_len q =? 0.
Definition spsc_full (q : spsc_t) : bool := smask q <? spsc_len q.

(** Where the producer is in [spsc_push]: outside, after the load of [wpos], after
    the test, after the store of the slot. *)
Inductive producer :=
  | PIdle
  | PLoaded (w : Z) (elem : loc)
  | PFree (w : Z) (elem : loc)
  | PStored (w : Z) (elem : loc).
(** Where the consumer is in [spsc_pop]. *)
Inductive consumer :=
  | CIdle
  | CLoaded (r : Z)
  | CReady (r : Z)
  | CRead (r : Z) (elem : option loc).

(** The queue, the two threads, and the results of the calls that have returned:
    the elements accepted by [spsc_push] and the non-null results of [spsc_pop], in
    order. *)
Record spsc_sys := Sys {
  queue : spsc_t; pstate : producer; cstate : consumer; accepted : list loc; delivered : list (option loc) }.

Inductive spsc_label := Push (elem : option loc) | P | Pop | C.

(** The steps of [spsc_push]; a return is a step to [PIdle]. *)
Definition spsc_push (s : spsc_sys) : option spsc_sys :=
  let q := queue s in
  match pstate s with
  | PIdle => None
  | PLoaded w elem =>
      let r := rpos q in
      if smask q <? u64 (w - r) then Some (Sys q PIdle (cstate s) (accepted s) (delivered s))
      else Some (Sys q (PFree w elem) (cstate s) (accepted s) (delivered s))
  | PFree w elem =>
      Some (Sys (Spsc (<[masked (smask q) w := Some elem]> (slots q)) (smask q) (wpos q) (rpos q))
        (PStored w elem) (cstate s) (accepted s) (delivered s))
  | PStored w elem =>
      Some (Sys (Spsc (slots q) (smask q) (u64 (w + 1)) (rpos q)) PIdle (cstate s)
        (accepted s ++ [elem]) (delivered s))
  end.

(** The steps of [spsc_pop]; reading outside the array is undefined. *)
Definition spsc_pop (s : spsc_sys) : option spsc_sys :=
  let q := queue s in
  match cstate s with
  | CIdle => None
  | CLoaded r =>
      let w := wpos q in
      if w =? r then Some (Sys q (pstate s) CIdle (accepted s) (delivered s))
      else Some (Sys q (pstate s) (CReady r) (accepted s) (delivered s))
  | CReady r =>
      elem ← slots q !! masked (smask q) r;
      Some (Sys q (pstate s) (CRead r elem) (accepted s) (delivered s))
  | CRead r elem =>
      Some (Sys (Spsc (slots q) (smask q) (wpos q) (u64 (r + 1))) (pstate s) CIdle
        (accepted s) (delivered s ++ [elem]))
  end.

Definition spsc_step (l : spsc_label) (s : spsc_sys) : option spsc_sys :=
  match l, pstate s, cstate s with
  | Push None, PIdle, _ => Some s
  | Push (Some elem), PIdle, _ => Some (Sys (queue s) (PLoaded (wpos (queue s)) elem) (cstate s) (accepted s) (delivered s))
  | P, _, _ => spsc_push s
  | Pop, _, CIdle => Some (Sys (queue s) (pstate s) (CLoaded (rpos (queue s))) (accepted s) (delivered s))
  | C, _, _ => spsc_pop s
  | _, _, _ => None
  end.

Definition spsc_start (q : spsc_t) : spsc_sys := Sys q PIdle CIdle [] [].

(** ** Correctness *)

Lemma pow2_spec n : 0 < n < 2 ^ 64 -> _spsc_is_pow2 n = true -> exists k, 0 <= k < 64 /\ n = 2 ^ k.
Proof.
  intros Hn. unfold _spsc_is_pow2. rewrite uwrap_small by (unfold ubound; lia).
  intros [_ E%Z.eqb_eq]%andb_true_iff. destruct (pow2_of_land n ltac:(lia) E) as (k & Hk & ->).
  exists k. split; [|done]. split; [lia|]. apply (Z.pow_lt_mono_r_iff 2); lia.
Qed.

Section proof.
Context (k : Z) (Hk : 0 <= k < 64).
Notation cap := (Z.to_nat (2 ^ k)).

Record spsc_inv (s : spsc_sys) : Prop := {
  i_mask : smask (queue s) = 2 ^ k - 1;
  i_slots : length (slots (queue s)) = cap;
  i_order : delivered s = Some <$> take (length (delivered s)) (accepted s);
  i_len : (length (delivered s) <= length (accepted s) <= length (delivered s) + cap)%nat;
  i_wpos : wpos (queue s) = u64 (Z.of_nat (length (accepted s)));
  i_rpos : rpos (queue s) = u64 (Z.of_nat (length (delivered s)));
  i_window : window (slots (queue s)) (Some <$> accepted s) (length (delivered s)) (length (accepted s));
  i_prod : match pstate s with
    | PIdle => True
    | PLoaded w _ => w = u64 (Z.of_nat (length (accepted s)))
    | PFree w _ => w = u64 (Z.of_nat (length (accepted s)))
        /\ (length (accepted s) < length (delivered s) + cap)%nat
    | PStored w elem => w = u64 (Z.of_nat (length (accepted s)))
        /\ (length (accepted s) < length (delivered s) + cap)%nat
        /\ slots (queue s) !! (length (accepted s) mod cap)%nat = Some (Some elem)
    end;
  i_cons : match cstate s with
    | CIdle => True
    | CLoaded r => r = u64 (Z.of_nat (length (delivered s)))
    | CReady r => r = u64 (Z.of_nat (length (delivered s))) /\ (length (delivered s) < length (accepted s))%nat
    | CRead r elem => r = u64 (Z.of_nat (length (delivered s)))
        /\ exists x, elem = Some x /\ accepted s !! length (delivered s) = Some x
    end }.


Lemma spsc_push_step s s' : spsc_inv s -> spsc_push s = Some s' -> spsc_inv s'.
Proof.
  intros [I1 I2 I3 I4 I5 I6 I7 I8 I9]. unfold spsc_push. destruct (pstate s) as [|w e|w e|w e]; [done|..].
  - rewrite I1, I6, I8, full_iff by (done || lia). case_bool_decide; intros [= <-]; split; try done. simpl. lia.
  - destruct I8 as [-> Hlt]. intros [= <-]. rewrite I1, masked_mod by lia. rewrite <-I2.
    split; simpl; try done; rewrite ?length_insert; try done.
    + apply window_write; [lia|done].
    + split_and!; [done|lia|]. rewrite <-I2. apply list_lookup_insert_eq. apply Nat.mod_upper_bound. pose proof (cap_pos k Hk). lia.
  - destruct I8 as (-> & Hlt & Hs). intros [= <-]. split; simpl; try done.
    + rewrite take_app_le by lia. done.
    + rewrite length_app. simpl. lia.
    + rewrite pos_succ, length_app. f_equal. simpl. lia.
    + rewrite fmap_app, length_app, Nat.add_1_r. simpl. eapply window_extend.
      * apply window_history. done.
      * rewrite lookup_app_r, length_fmap, Nat.sub_diag by (rewrite length_fmap; lia). done.
      * by rewrite I2.
    + destruct (cstate s) as [|r|r|r e'].
      * done.
      * done.
      * rewrite length_app. simpl. destruct I9. split; [done|lia].
      * destruct I9 as [? (x & ? & Hx)]. split; [done|]. exists x. split; [done|]. by apply lookup_app_l_Some.
Qed.

Lemma spsc_pop_step s s' : spsc_inv s -> spsc_pop s = Some s' -> spsc_inv s'.
Proof.
  intros [I1 I2 I3 I4 I5 I6 I7 I8 I9]. unfold spsc_pop. destruct (cstate s) as [|r|r|r e]; [done|..].
  - rewrite I5, I9, (pos_eq k) by (done || lia). case_bool_decide; intros [= <-]; split; try done. simpl. lia.
  - destruct I9 as [-> Hlt]. rewrite I1, masked_mod by lia. rewrite <-I2.
    pose proof I7 as [_ Hw]. rewrite Hw by lia. rewrite list_lookup_fmap.
    destruct (accepted s !! length (delivered s)) as [x|] eqn:Ex; [|by apply lookup_ge_None in Ex; lia].
    intros [= <-]. split; simpl; try done. split; [done|]. by exists x.
  - destruct I9 as [-> (x & -> & Hx)]. intros [= <-]. pose proof (lookup_lt_Some _ _ _ Hx) as Hlt.
    split; simpl; try done; rewrite ?length_app; simpl.
    + rewrite Nat.add_1_r, (take_S_r _ _ x), fmap_app by done. by rewrite <-I3.
    + lia.
    + rewrite pos_succ. f_equal. lia.
    + eapply window_shrink; [|done]. lia.
    + destruct (pstate s); [done..| |]; naive_solver lia.
Qed.

Lemma spsc_inv_step l s s' : spsc_inv s -> spsc_step l s = Some s' -> spsc_inv s'.
Proof.
  intros HI. pose proof HI as [I1 I2 I3 I4 I5 I6 I7 I8 I9]. destruct l as [[e|]| | |]; simpl.
  - destruct (pstate s) eqn:Ep; try done. intros [= <-]. by split.
  - destruct (pstate s); try done. by intros [= <-].
  - by apply spsc_push_step.
  - destruct (cstate s) eqn:Ec; try done. intros [= <-]. by split.
  - by apply spsc_pop_step.
Qed.

Lemma spsc_inv_start : spsc_inv (spsc_start (Spsc (replicate cap None) (2 ^ k - 1) 0 0)).
Proof.
  split; simpl; try done; [apply length_replicate|lia|]. by apply window_empty.
Qed.
End proof.

Lemma spsc_init_inv cap q0 : 0 < cap < 2 ^ 64 -> spsc_init true cap = Some q0 ->
  exists k, 0 <= k < 64 /\ cap = 2 ^ k /\ spsc_inv k (spsc_start q0).
Proof.
  intros Hc. unfold spsc_init. destruct (_spsc_is_pow2 cap) eqn:E; [|done]. simpl. intros [= <-].
  destruct (pow2_spec cap Hc E) as (k & Hk & ->). exists k. split_and!; [lia..|done|].
  rewrite uwrap_small by (unfold ubound; lia). by apply spsc_inv_start.
Qed.

(** C13 The queue under every interleaving of its two threads: what the consumer has
    received is what the producer has had accepted, in order, up to at most [cap]
    elements still queued; no step of either thread goes outside the array; the
    unsynchronised slot accesses never meet in the same slot; and [NULL] and -1 are
    returned for a queue that is really empty or really full. *)
Theorem spsc_correct cap q0 s : 0 < cap < 2 ^ 64 -> spsc_init true cap = Some q0 ->
  reachable spsc_step (spsc_start q0) s ->
  (exists rest, Some <$> accepted s = delivered s ++ rest /\ Z.of_nat (length rest) <= cap
     /\ spsc_len (queue s) = Z.of_nat (length rest)
     /\ (forall r, cstate s = CLoaded r -> wpos (queue s) = r -> rest = [])
     /\ (forall w e, pstate s = PLoaded w e -> smask (queue s) < u64 (w - rpos (queue s)) ->
           Z.of_nat (length rest) = cap))
  /\ (pstate s <> PIdle -> is_Some (spsc_step P s)) /\ (cstate s <> CIdle -> is_Some (spsc_step C s))
  /\ (forall w e r, pstate s = PFree w e -> cstate s = CReady r ->
        masked (smask (queue s)) w <> masked (smask (queue s)) r).
Proof.
  intros Hc E0 Hr. destruct (spsc_init_inv cap q0 Hc E0) as (k & Hk & -> & HI).
  apply (reachable_invariant _ _ _ _ HI (spsc_inv_step k Hk)) in Hr as [I1 I2 I3 I4 I5 I6 I7 I8 I9].
  set (R := length (delivered s)) in *. set (W := length (accepted s)) in *.
  pose proof (Z.pow_pos_nonneg 2 k ltac:(lia) ltac:(lia)) as Hpos. split_and!.
  - exists (Some <$> drop R (accepted s)). rewrite length_fmap, length_drop. fold W. split_and!.
    + rewrite I3 at 1. rewrite <-fmap_app, take_drop. done.
    + lia.
    + unfold spsc_len. rewrite I5, I6. by apply (pos_diff k Hk).
    + intros r Ec Ew. rewrite Ec in I9. rewrite I5, I9 in Ew. apply Z.eqb_eq in Ew.
      rewrite (pos_eq k Hk) in Ew by done. apply bool_decide_eq_true in Ew. by rewrite drop_ge by lia.
    + intros w e Ep Hfull. rewrite Ep in I8. rewrite I1, I8, I6 in Hfull. apply Z.ltb_lt in Hfull.
      rewrite full_iff in Hfull by done. apply bool_decide_eq_true in Hfull. lia.
  - intros Hne. simpl. unfold spsc_push. destruct (pstate s); [done|destruct (_ <? _)|..]; by eexists.
  - intros Hne. simpl. unfold spsc_pop. destruct (cstate s) as [| |r|]; [done|destruct (_ =? _); by eexists| |by eexists].
    destruct I9 as [-> Hlt]. rewrite I1, masked_mod by lia. rewrite <-I2. destruct I7 as [_ Hw].
    rewrite Hw, list_lookup_fmap by lia.
    destruct (accepted s !! R) eqn:Ex; [by eexists|]. apply lookup_ge_None in Ex. lia.
  - intros w e r Ep Ec. rewrite Ep in I8. rewrite Ec in I9. destruct I8 as [-> Hf], I9 as [-> Hlt].
    rewrite I1, !masked_mod by lia. intros Eq. symmetry in Eq. revert Eq. apply mod_distinct; lia.
Qed.
Definition spsc_demo : list spsc_label :=
  [Push (Some 7%positive); P; P; Pop; P; C; Push (Some 8%positive); C; P; C].
Lemma spsc_correct_witness :
  exists q0 s, spsc_init true 2 = Some q0 /\ run spsc_step spsc_demo (spsc_start q0) = Some s
    /\ delivered s = [Some 7%positive] /\ is_Some (spsc_step P s).
Proof.
  eexists _, _. split; [vm_compute; reflexivity|]. split; [vm_compute; reflexivity|]. split; [reflexivity|].
  refine (proj1 (proj2 (spsc_correct 2 _ _ _ _ (ex_intro _ spsc_demo _))) _);
    [lia|vm_compute; reflexivity|vm_compute; reflexivity|discriminate].
Defined.
