(* ===== verification/Wsq.v ===== *)
(** * The work-stealing queue (src/runtime/wsq.c)

    One thread pushes; any number of threads take, one element at a time
    ([wsq_pop]) or half of the queue ([wsq_pop_half], [wsq_steal_half]).  Every access
    to the shared fields is a step, weak compare-and-exchange may fail without
    reason, and the schedule is arbitrary. *)

From S2P Require Import Prelude Ring Interleave.

Record wsq_t := Wsq { wslots : list (option loc); wmask : Z; head : Z; tail : Z }.

Definition _wsq_len (head tail : Z) : Z := u64 (tail - head).
Definition _wsq_cap (q : wsq_t) : Z := u32 (wmask q + 1).

(** [calloc_q], [calloc_slots]: whether the allocations succeed. *)
Definition wsq_create (calloc_q calloc_slots : bool) (cap : Z) : option wsq_t :=
  if (cap <=? 0) || negb (Z.land cap (cap - 1) =? 0) then None
  else if negb calloc_q || negb calloc_slots then None
  else Some (Wsq (replicate (Z.to_nat cap) None) (u32 (cap - 1)) 0 0).

Definition wsq_remaining (q : wsq_t) : Z :=
  let capacity := _wsq_cap q in
  let used := _wsq_len (head q) (tail q) in
  i32 (if used <? capacity then capacity - used else 0).

(** Where the pushing thread is in [wsq_push]. *)
Inductive pusher :=
  | WIdle
  | WTail (tail : Z) (elem : loc)
  | WFree (tail : Z) (elem : loc)
  | WStored (tail : Z) (elem : loc).

(** Where a taking thread is in [wsq_pop] or [_wsq_grab_half]: [head] is its local
    variable, [limit] the size of its array, [elems] what it has copied so far. *)
Inductive taker :=
  | TPop (head : Z)
  | TReady (head : Z)
  | TElem (head : Z) (elem : option loc)
  | TGrab (limit head : Z)
  | TCopy (limit head count : Z) (elems : list (option loc)).

(** The queue, the threads inside a call, the elements accepted by [wsq_push], and
    the results of the taking calls in the order of their compare-and-exchange. *)
Record wsq_sys := WSys {
  wq : wsq_t; wpush : pusher; takers : gmap nat taker; waccepted : list loc; taken : list (nat * list (option loc)) }.

Definition set_taker (t : nat) (c : taker) (s : wsq_sys) : wsq_sys :=
  WSys (wq s) (wpush s) (<[t := c]> (takers s)) (waccepted s) (taken s).
Definition leave (t : nat) (s : wsq_sys) : wsq_sys :=
  WSys (wq s) (wpush s) (delete t (takers s)) (waccepted s) (taken s).
Definition set_push (p : pusher) (q : wsq_t) (s : wsq_sys) : wsq_sys :=
  WSys q p (takers s) (waccepted s) (taken s).

Definition wsq_push (s : wsq_sys) : option wsq_sys :=
  let q := wq s in
  match wpush s with
  | WIdle => None
  | WTail tl elem =>
      if _wsq_cap q <=? _wsq_len (head q) tl then Some (set_push WIdle q s)
      else Some (set_push (WFree tl elem) q s)
  | WFree tl elem =>
      Some (set_push (WStored tl elem)
        (Wsq (<[masked (wmask q) tl := Some elem]> (wslots q)) (wmask q) (head q) (tail q)) s)
  | WStored tl elem =>
      Some (WSys (Wsq (wslots q) (wmask q) (head q) (u64 (tl + 1))) WIdle (takers s)
        (waccepted s ++ [elem]) (taken s))
  end.

(** The compare-and-exchange that moves [head] by [count] and hands out [elems]; on
    failure, real or [spurious], the local [head] is reloaded and the loop goes on
    from [retry]. *)
Definition take_cas (spurious : bool) (t : nat) (h count : Z) (elems : list (option loc)) (retry : Z -> taker)
    (s : wsq_sys) : wsq_sys :=
  let q := wq s in
  if (head q =? h) && negb spurious then
    WSys (Wsq (wslots q) (wmask q) (u64 (h + count)) (tail q)) (wpush s) (delete t (takers s))
      (waccepted s) (taken s ++ [(t, elems)])
  else set_taker t (retry (head q)) s.

Definition wsq_pop (spurious : bool) (t : nat) (c : taker) (s : wsq_sys) : option wsq_sys :=
  let q := wq s in
  match c with
  | TPop h => if h =? tail q then Some (leave t s) else Some (set_taker t (TReady h) s)
  | TReady h => elem ← wslots q !! masked (wmask q) h; Some (set_taker t (TElem h elem) s)
  | TElem h elem => Some (take_cas spurious t h 1 [elem] TPop s)
  | _ => None
  end.

Definition _wsq_grab_half (spurious : bool) (t : nat) (c : taker) (s : wsq_sys) : option wsq_sys :=
  let q := wq s in
  match c with
  | TGrab limit h =>
      let count := _wsq_len h (tail q) in
      if count =? 0 then Some (leave t s)
      else
        let count := u64 (count + 1) / 2 in
        let count := if limit <? count then limit else count in
        Some (set_taker t (TCopy limit h count []) s)
  | TCopy limit h count elems =>
      if Z.of_nat (length elems) <? count then
        elem ← wslots q !! masked (wmask q) (u64 (h + Z.of_nat (length elems)));
        Some (set_taker t (TCopy limit h count (elems ++ [elem])) s)
      else Some (take_cas spurious t h count elems (TGrab limit) s)
  | _ => None
  end.

Inductive wsq_label :=
  | Push (elem : option loc)
  | Pusher
  | Pop (t : nat)
  | Grab (t : nat) (elems_cap : Z)
  | Taker (spurious : bool) (t : nat).

Definition wsq_step (l : wsq_label) (s : wsq_sys) : option wsq_sys :=
  match l with
  | Push None => match wpush s with WIdle => Some s | _ => None end
  | Push (Some elem) => match wpush s with WIdle => Some (set_push (WTail (tail (wq s)) elem) (wq s) s) | _ => None end
  | Pusher => wsq_push s
  | Pop t => match takers s !! t with None => Some (set_taker t (TPop (head (wq s))) s) | Some _ => None end
  | Grab t elems_cap =>
      match takers s !! t with
      | None => if elems_cap <=? 0 then Some s else Some (set_taker t (TGrab elems_cap (head (wq s))) s)
      | Some _ => None
      end
  | Taker spurious t =>
      c ← takers s !! t;
      match c with
      | TPop _ | TReady _ | TElem _ _ => wsq_pop spurious t c s
      | _ => _wsq_grab_half spurious t c s
      end
  end.

Definition wsq_start (q : wsq_t) : wsq_sys := WSys q WIdle ∅ [] [].

(** ** Correctness *)

(** Everything taken, in order. *)
Definition taken_elems (s : wsq_sys) : list (option loc) := concat (snd <$> taken s).

Section wsq_proof.
Context (k : Z) (Hk : 0 <= k <= 30).
Notation cap := (Z.to_nat (2 ^ k)).

(** Below, [acc] are the accepted elements and [tk] the taken ones. *)

(** A taker that loaded [h] when [n] elements were taken: its copies are right as
    long as nothing more has been taken since. *)
Definition copied (acc : list loc) (tk : list (option loc)) (n : nat) (elems : list (option loc)) : Prop :=
  n = length tk -> forall j e, elems !! j = Some e -> (Some <$> acc) !! (n + j)%nat = Some e.

Definition taker_ok (acc : list loc) (tk : list (option loc)) (c : taker) : Prop :=
  match c with
  | TPop h => exists n, h = Z.of_nat n /\ (n <= length tk)%nat
  | TReady h => exists n, h = Z.of_nat n /\ (n <= length tk)%nat /\ (n < length acc)%nat
  | TElem h e => exists n, h = Z.of_nat n /\ (n <= length tk)%nat /\ (n < length acc)%nat /\ copied acc tk n [e]
  | TGrab limit h => exists n, h = Z.of_nat n /\ (n <= length tk)%nat /\ 0 < limit
  | TCopy limit h count elems => exists n m, h = Z.of_nat n /\ (n <= length tk)%nat /\ 0 < limit
      /\ count = Z.of_nat m /\ (0 < m)%nat /\ (n + m <= length acc)%nat /\ (length elems <= m)%nat
      /\ copied acc tk n elems
  end.

Definition pusher_ok (q : wsq_t) (acc : list loc) (tk : list (option loc)) (p : pusher) : Prop :=
  match p with
  | WIdle => True
  | WTail tl _ => tl = Z.of_nat (length acc)
  | WFree tl _ => tl = Z.of_nat (length acc) /\ (length acc < length tk + cap)%nat
  | WStored tl e => tl = Z.of_nat (length acc) /\ (length acc < length tk + cap)%nat
      /\ wslots q !! (length acc mod cap)%nat = Some (Some e)
  end.

Record queue_ok (q : wsq_t) (acc : list loc) (tk : list (option loc)) : Prop := {
  w_mask : wmask q = 2 ^ k - 1;
  w_slots : length (wslots q) = cap;
  w_order : tk = Some <$> take (length tk) acc;
  w_len : (length tk <= length acc <= length tk + cap)%nat;
  w_head : head q = Z.of_nat (length tk);
  w_tail : tail q = Z.of_nat (length acc);
  w_window : window (wslots q) (Some <$> acc) (length tk) (length acc) }.

Definition wsq_inv (s : wsq_sys) : Prop :=
  queue_ok (wq s) (waccepted s) (taken_elems s) /\ pusher_ok (wq s) (waccepted s) (taken_elems s) (wpush s)
  /\ map_Forall (fun _ c => taker_ok (waccepted s) (taken_elems s) c) (takers s).

Definition bounded (s : wsq_sys) : Prop := Z.of_nat (length (waccepted s)) < 2 ^ 64 - 1.

Lemma slot_index i : Z.of_nat i < 2 ^ 64 -> masked (2 ^ k - 1) (Z.of_nat i) = (i mod cap)%nat.
Proof. intros Hi. rewrite <-masked_mod by lia. by rewrite uwrap_small by (unfold ubound; lia). Qed.
Lemma cap_z : Z.of_nat cap = 2 ^ k /\ 0 < 2 ^ k <= 2 ^ 30.
Proof.
  pose proof (Z.pow_pos_nonneg 2 k ltac:(lia) ltac:(lia)). pose proof (Z.pow_le_mono_r 2 k 30 ltac:(lia) ltac:(lia)). lia.
Qed.

(** A step that takes nothing and pushes at most one element keeps the takers'
    claims; a step that takes something makes those of the others vacuous. *)
Lemma taker_ok_mono acc tk acc' tk' c : (length tk <= length tk')%nat -> (length acc <= length acc')%nat ->
  (forall n elems, (n <= length tk)%nat -> copied acc tk n elems -> copied acc' tk' n elems) ->
  taker_ok acc tk c -> taker_ok acc' tk' c.
Proof.
  intros HH HT Hc. destruct c; simpl.
  - intros (n & -> & ?). exists n. split; [done|lia].
  - intros (n & -> & ? & ?). exists n. split_and!; first [done | lia].
  - intros (n & -> & ? & ? & ?). exists n. split_and!; first [done | lia | by apply Hc].
  - intros (n & -> & ? & ?). exists n. split_and!; first [done | lia].
  - intros (n & m & -> & ? & ? & -> & ? & ? & ? & ?). exists n, m. split_and!; first [done | lia | by apply Hc].
Qed.
Lemma taker_ok_push acc tk x c : taker_ok acc tk c -> taker_ok (acc ++ [x]) tk c.
Proof.
  apply taker_ok_mono; rewrite ?length_app; [lia..|]. intros n elems _ Hc. unfold copied.
  rewrite fmap_app. intros En j e Hj. apply lookup_app_l_Some. by apply Hc.
Qed.
Lemma taker_ok_take acc tk b c : b <> [] -> taker_ok acc tk c -> taker_ok acc (tk ++ b) c.
Proof.
  intros Hb. assert (0 < length b)%nat by (destruct b; simpl; [done|lia]).
  apply taker_ok_mono; rewrite ?length_app; [lia..|].
  intros n elems Hn _. unfold copied. rewrite length_app. lia.
Qed.

Lemma wsq_push_step s s' : bounded s -> wsq_inv s -> wsq_push s = Some s' -> wsq_inv s'.
Proof.
  intros Hb (Q & HP & HT). pose proof Q as [I1 I2 I3 I4 I5 I6 I7]. pose proof cap_z as [Hcz Hcb]. unfold bounded in Hb.
  unfold wsq_push, wsq_inv. destruct (wpush s) as [|tl e|tl e|tl e]; [done|..]; simpl in HP.
  - unfold _wsq_cap, _wsq_len. rewrite I1, I5, HP. rewrite (uwrap_small 32), (uwrap_small 64) by (unfold ubound; lia).
    destruct (Z.leb_spec (2 ^ k - 1 + 1) (Z.of_nat (length (waccepted s)) - Z.of_nat (length (taken_elems s))));
      intros [= <-]; split_and!; try done. unfold taken_elems in *. simpl. split; [done|lia].
  - destruct HP as [-> Hlt]. intros [= <-]. rewrite I1, slot_index by lia. rewrite <-I2.
    unfold taken_elems in *. simpl. split_and!; try done.
    + split; simpl; rewrite ?length_insert; try done. apply window_write; [lia|done].
    + rewrite <-I2. apply list_lookup_insert_eq, Nat.mod_upper_bound. lia.
  - destruct HP as (-> & Hlt & Hs). intros [= <-]. unfold taken_elems in *. simpl. split_and!; [|done|].
    + split; simpl; rewrite ?length_app; simpl; try done; [by rewrite take_app_le by lia|lia| |].
      * rewrite uwrap_small by (unfold ubound; lia). lia.
      * rewrite fmap_app, Nat.add_1_r. simpl. eapply window_extend.
        -- by apply window_history.
        -- by rewrite lookup_app_r, length_fmap, Nat.sub_diag by (rewrite length_fmap; lia).
        -- by rewrite I2.
    + eapply map_Forall_impl; [exact HT|]. intros t c. apply taker_ok_push.
Qed.

(** A taker moving on without touching the queue. *)
Lemma set_taker_inv s t c : wsq_inv s -> taker_ok (waccepted s) (taken_elems s) c -> wsq_inv (set_taker t c s).
Proof. intros (Q & HP & HT) Hc. split_and!; try done. by apply map_Forall_insert_2. Qed.
Lemma leave_inv s t : wsq_inv s -> wsq_inv (leave t s).
Proof. intros (Q & HP & HT). split_and!; try done. by apply map_Forall_delete. Qed.

(** Reading the slot of position [n + length elems], for a taker that loaded [n]. *)
Lemma copy_slot s n elems : bounded s -> wsq_inv s ->
  (n <= length (taken_elems s))%nat -> (n + length elems < length (waccepted s))%nat ->
  copied (waccepted s) (taken_elems s) n elems ->
  exists e, wslots (wq s) !! masked (wmask (wq s)) (Z.of_nat (n + length elems)) = Some e
    /\ copied (waccepted s) (taken_elems s) n (elems ++ [e]).
Proof.
  intros Hb ([I1 I2 I3 I4 I5 I6 [I7 I7']] & _ & _) Hn Hlt Hc. unfold bounded in Hb. pose proof cap_z.
  rewrite I1, slot_index by lia. rewrite <-I2.
  destruct (lookup_lt_is_Some_2 (wslots (wq s)) ((n + length elems) mod length (wslots (wq s)))) as [e He].
  { apply Nat.mod_upper_bound. lia. }
  exists e. split; [done|]. intros En j e' Hj. apply lookup_app_Some in Hj as [Hj|[Hj1 Hj2]]; [by apply Hc|].
  apply list_lookup_singleton_Some in Hj2 as [Hj2 ->]. replace j with (length elems) by lia.
  rewrite <-I7', He by lia. done.
Qed.

(** The compare-and-exchange of a taker whose copies are complete. *)
Lemma take_cas_inv s t sp n elems retry : bounded s -> wsq_inv s -> elems <> [] ->
  (n <= length (taken_elems s))%nat -> (n + length elems <= length (waccepted s))%nat ->
  copied (waccepted s) (taken_elems s) n elems ->
  taker_ok (waccepted s) (taken_elems s) (retry (head (wq s))) ->
  wsq_inv (take_cas sp t (Z.of_nat n) (Z.of_nat (length elems)) elems retry s).
Proof.
  intros Hb HI Hne Hn Hle Hc Hr. unfold take_cas. pose proof HI as (Q & HP & HT). pose proof Q as [I1 I2 I3 I4 I5 I6 I7].
  unfold bounded in Hb. destruct (Z.eqb_spec (head (wq s)) (Z.of_nat n)) as [Eh|]; [|by apply set_taker_inv].
  destruct sp; [by apply set_taker_inv|]. cbn [andb negb].
  assert (n = length (taken_elems s)) as -> by lia.
  assert (taken_elems s ++ elems = Some <$> take (length (taken_elems s) + length elems) (waccepted s)) as Eord.
  { rewrite <-(firstn_skipn (length (taken_elems s)) (waccepted s)) at 1.
    rewrite take_app_ge by (rewrite length_take; lia). rewrite length_take_le by lia.
    rewrite Nat.add_comm, Nat.add_sub, fmap_app, <-I3. f_equal. apply list_eq. intros j.
    destruct (elems !! j) as [e|] eqn:Ej.
    - rewrite list_lookup_fmap, lookup_take_lt by (by eapply lookup_lt_Some).
      rewrite lookup_drop, <-list_lookup_fmap. symmetry. by apply Hc.
    - symmetry. apply lookup_ge_None in Ej. apply lookup_ge_None. rewrite length_fmap, length_take. lia. }
  unfold wsq_inv, taken_elems in *. cbn [wq waccepted taken wpush takers].
  rewrite fmap_app, concat_app. cbn [fmap list_fmap snd concat]. rewrite app_nil_r.
  split_and!.
  - split; cbn [wmask wslots head tail]; rewrite ?length_app; try done; [lia| |].
    + rewrite uwrap_small by (unfold ubound; lia). lia.
    + eapply window_shrink; [|done]. lia.
  - destruct (wpush s); simpl in *; rewrite ?length_app; naive_solver lia.
  - apply map_Forall_delete. eapply map_Forall_impl; [exact HT|]. intros t' c. by apply taker_ok_take.
Qed.

Lemma wsq_pop_step s s' sp t c : bounded s -> wsq_inv s -> takers s !! t = Some c ->
  wsq_pop sp t c s = Some s' -> wsq_inv s'.
Proof.
  intros Hb HI Ht. pose proof HI as (Q & _ & HT). pose proof Q as [I1 I2 I3 I4 I5 I6 I7].
  pose proof (HT _ _ Ht) as Hc. unfold bounded in Hb. destruct c as [h|h|h e| |]; simpl; [..|done|done].
  - destruct Hc as (n & -> & Hn). rewrite I6. destruct (Z.eqb_spec (Z.of_nat n) (Z.of_nat (length (waccepted s)))) as [E|E]; intros [= <-].
    + by apply leave_inv.
    + apply set_taker_inv; [done|]. exists n. split_and!; [done|lia..].
  - destruct Hc as (n & -> & Hn & Hlt). destruct (copy_slot s n [] Hb HI Hn) as (e & He & Hcp); [simpl; lia|done|].
    simpl in He. rewrite Nat.add_0_r in He. rewrite He. simpl. intros [= <-].
    apply set_taker_inv; [done|]. by exists n.
  - destruct Hc as (n & -> & Hn & Hlt & Hcp). intros [= <-]. apply (take_cas_inv s t sp n [e]); try done; [simpl; lia|].
    rewrite I5. by eexists.
Qed.

Lemma wsq_grab_step s s' sp t c : bounded s -> wsq_inv s -> takers s !! t = Some c ->
  _wsq_grab_half sp t c s = Some s' -> wsq_inv s'.
Proof.
  intros Hb HI Ht. pose proof HI as (Q & _ & HT). pose proof Q as [I1 I2 I3 I4 I5 I6 I7].
  pose proof (HT _ _ Ht) as Hc. unfold bounded in Hb. destruct c as [| | |limit h|limit h count elems]; simpl; [done..| |].
  - destruct Hc as (n & -> & Hn & Hlim). unfold _wsq_len. rewrite I6, (uwrap_small 64 (_ - _)) by (unfold ubound; lia).
    destruct (Z.eqb_spec (Z.of_nat (length (waccepted s)) - Z.of_nat n) 0) as [E|E]; intros [= <-]; [by apply leave_inv|].
    apply set_taker_inv; [done|]. rewrite uwrap_small by (unfold ubound; lia).
    set (cnt := (_ + 1) / 2). assert (0 < cnt <= Z.of_nat (length (waccepted s)) - Z.of_nat n) as Hcnt by (subst cnt; zdm).
    clearbody cnt. exists n, (Z.to_nat (if limit <? cnt then limit else cnt)).
    destruct (Z.ltb_spec limit cnt); simpl; split_and!; first [done | lia].
  - destruct Hc as (n & m & -> & Hn & Hlim & -> & Hm & Hle & Hl & Hcp).
    destruct (Z.ltb_spec (Z.of_nat (length elems)) (Z.of_nat m)) as [Hlt|Hge].
    + rewrite uwrap_small by (unfold ubound; lia). rewrite <-Nat2Z.inj_add.
      destruct (copy_slot s n elems Hb HI Hn) as (e & -> & Hcp'); [lia|done|]. simpl. intros [= <-].
      apply set_taker_inv; [done|]. exists n, m. rewrite length_app. simpl. split_and!; first [done | lia].
    + intros [= <-]. assert (m = length elems) as -> by lia. apply take_cas_inv; try done; [|by rewrite I5; eexists].
      destruct elems; simpl in *; [lia|done].
Qed.

Lemma wsq_step_inv l s s' : bounded s -> wsq_inv s -> wsq_step l s = Some s' -> wsq_inv s'.
Proof.
  intros Hb HI. pose proof HI as (Q & HP & HT). pose proof Q as [I1 I2 I3 I4 I5 I6 I7]. destruct l as [[e|]| |t|t c|sp t]; simpl.
  - destruct (wpush s); try done. intros [= <-]. split_and!; try done.
  - destruct (wpush s); try done. by intros [= <-].
  - by apply wsq_push_step.
  - destruct (takers s !! t); [done|]. intros [= <-]. apply set_taker_inv; [done|]. rewrite I5. by eexists.
  - destruct (takers s !! t); [done|]. destruct (Z.leb_spec c 0); intros [= <-]; [done|].
    apply set_taker_inv; [done|]. rewrite I5. eexists. split_and!; [done..|lia].
  - destruct (takers s !! t) as [c|] eqn:Et; [|done]. simpl.
    destruct c; first [by apply wsq_pop_step | by apply wsq_grab_step].
Qed.

(** No thread inside a call is ever stuck. *)
Lemma wsq_progress s : bounded s -> wsq_inv s ->
  (wpush s <> WIdle -> is_Some (wsq_step Pusher s))
  /\ (forall t sp, is_Some (takers s !! t) -> is_Some (wsq_step (Taker sp t) s)).
Proof.
  intros Hb HI. pose proof HI as (Q & HP & HT). pose proof Q as [I1 I2 I3 I4 I5 I6 I7]. unfold bounded in *. split.
  - intros Hne. simpl. unfold wsq_push. destruct (wpush s); [done|destruct (_ <=? _)|..]; by eexists.
  - intros t sp [c Ht]. simpl. rewrite Ht. simpl. pose proof (HT _ _ Ht) as Hc.
    destruct c as [h|h|h e|limit h|limit h count elems]; simpl.
    + destruct (_ =? _); by eexists.
    + destruct Hc as (n & -> & Hn & Hlt). destruct (copy_slot s n [] Hb HI Hn) as (e & He & _); [simpl; lia|done|].
      simpl in He. rewrite Nat.add_0_r in He. rewrite He. by eexists.
    + by eexists.
    + destruct (_ =? _); by eexists.
    + destruct Hc as (n & m & -> & Hn & Hlim & -> & Hm & Hle & Hl & Hcp).
      destruct (Z.ltb_spec (Z.of_nat (length elems)) (Z.of_nat m)) as [Hlt|Hge]; [|by eexists].
      rewrite uwrap_small by (unfold ubound; lia). rewrite <-Nat2Z.inj_add.
      destruct (copy_slot s n elems Hb HI Hn) as (e & -> & _); [lia|done|]. by eexists.
Qed.
End wsq_proof.

Lemma wsq_accepted_grows l s s' : wsq_step l s = Some s' -> (length (waccepted s) <= length (waccepted s'))%nat.
Proof.
  assert (forall sp t h n el r s, waccepted (take_cas sp t h n el r s) = waccepted s) as Hcas
    by (intros; unfold take_cas; by destruct (_ && _)).
  destruct l as [[e|]| |t|t c|sp t]; simpl.
  - destruct (wpush s); try done. by intros [= <-].
  - destruct (wpush s); try done. by intros [= <-].
  - unfold wsq_push. destruct (wpush s); [done|destruct (_ <=? _)|..]; intros [= <-]; simpl; rewrite ?length_app; lia.
  - destruct (takers s !! t); [done|]. by intros [= <-].
  - destruct (takers s !! t); [done|]. destruct (_ <=? _); by intros [= <-].
  - destruct (takers s !! t) as [c|]; [|done]. destruct c; simpl.
    + destruct (_ =? _); by intros [= <-].
    + destruct (wslots _ !! _); simpl; [|done]. by intros [= <-].
    + intros [= <-]. by rewrite Hcas.
    + destruct (_ =? _); by intros [= <-].
    + destruct (_ <? _); [|intros [= <-]; by rewrite Hcas]. destruct (wslots _ !! _); simpl; [|done]. by intros [= <-].
Qed.

Lemma wsq_reachable_inv k ls : 0 <= k <= 30 -> forall s0 s, wsq_inv k s0 -> run wsq_step ls s0 = Some s ->
  bounded s -> wsq_inv k s /\ (length (waccepted s0) <= length (waccepted s))%nat.
Proof.
  intros Hk. induction ls as [|l ls IH]; intros s0 s HI; simpl; [by intros [= <-]|].
  destruct (wsq_step l s0) as [s1|] eqn:E; simpl; [|done]. intros Hr Hb.
  pose proof (wsq_accepted_grows l s0 s1 E) as Hg.
  assert (forall ls s1, run wsq_step ls s1 = Some s -> (length (waccepted s1) <= length (waccepted s))%nat) as Hmono.
  { clear. induction ls as [|l ls IH]; intros s1; simpl; [by intros [= <-]|].
    destruct (wsq_step l s1) as [s2|] eqn:E; simpl; [|done]. intros Hr.
    pose proof (wsq_accepted_grows _ _ _ E). specialize (IH _ Hr). lia. }
  pose proof (Hmono _ _ Hr) as Hm. unfold bounded in *.
  assert (wsq_inv k s1) as HI1 by (eapply wsq_step_inv; [done| |done|done]; unfold bounded; lia).
  destruct (IH s1 s HI1 Hr Hb). split; [done|lia].
Qed.

Lemma wsq_create_inv cap q0 : cap < 2 ^ 31 -> wsq_create true true cap = Some q0 ->
  exists k, 0 <= k <= 30 /\ cap = 2 ^ k /\ wsq_inv k (wsq_start q0).
Proof.
  intros Hc. unfold wsq_create. destruct (Z.leb_spec cap 0); [done|]. destruct (Z.eqb_spec (Z.land cap (cap - 1)) 0) as [E|]; [|done].
  simpl. intros [= <-]. destruct (pow2_of_land cap ltac:(lia) E) as (k & Hk & ->).
  assert (k < 31) by (apply (Z.pow_lt_mono_r_iff 2); lia). exists k. split_and!; [lia..|done|].
  rewrite uwrap_small by (unfold ubound; lia). split_and!; [|done|done].
  split; simpl; try done; [apply length_replicate|lia|by apply window_empty].
Qed.

(** C3 Work stealing hands every element out exactly once: in every interleaving of
    the pushing thread and any number of takers, the elements handed out, in the
    order of the successful compare-and-exchanges, are the accepted ones in their
    order, up to at most [cap] that are still queued; [wsq_remaining] is the free
    room; and no thread inside a call can be stuck.  (Fewer than [2^64 - 1] pushes:
    positions are 64-bit counters.) *)
Theorem wsq_exactly_once cap q0 s : cap < 2 ^ 31 -> wsq_create true true cap = Some q0 ->
  reachable wsq_step (wsq_start q0) s -> Z.of_nat (length (waccepted s)) < 2 ^ 64 - 1 ->
  (exists rest, Some <$> waccepted s = concat (snd <$> taken s) ++ rest /\ Z.of_nat (length rest) <= cap
     /\ wsq_remaining (wq s) = cap - Z.of_nat (length rest))
  /\ (wpush s <> WIdle -> is_Some (wsq_step Pusher s))
  /\ (forall t sp, is_Some (takers s !! t) -> is_Some (wsq_step (Taker sp t) s)).
Proof.
  intros Hc E0 [ls Hr] Hb. destruct (wsq_create_inv cap q0 Hc E0) as (k & Hk & -> & HI).
  destruct (wsq_reachable_inv k ls Hk _ _ HI Hr Hb) as [HI' _].
  split; [|by apply (wsq_progress k Hk)].
  destruct HI' as ([I1 I2 I3 I4 I5 I6 I7] & _ & _). pose proof (cap_z k Hk) as [Hcz Hcb].
  exists (Some <$> drop (length (taken_elems s)) (waccepted s)). rewrite length_fmap, length_drop. split_and!.
  - fold (taken_elems s). rewrite I3 at 1. by rewrite <-fmap_app, take_drop.
  - lia.
  - unfold wsq_remaining, _wsq_cap, _wsq_len. rewrite I1, I5, I6.
    rewrite (uwrap_small 32), (uwrap_small 64) by (unfold ubound; lia).
    destruct (Z.ltb_spec (Z.of_nat (length (waccepted s)) - Z.of_nat (length (taken_elems s))) (2 ^ k - 1 + 1));
      rewrite i32_small; lia.
Qed.

(** One push, then two takers that race for the element: one of them gets it. *)
Definition wsq_demo : list wsq_label :=
  [Push (Some 5%positive); Pusher; Pusher; Pusher; Pop 1; Grab 2 4; Taker false 1; Taker false 2;
   Taker false 1; Taker false 2; Taker false 2; Taker false 1; Taker false 1].
Lemma wsq_exactly_once_witness :
  exists q0 s, wsq_create true true 4 = Some q0 /\ run wsq_step wsq_demo (wsq_start q0) = Some s
    /\ taken s = [(2%nat, [Some 5%positive])]
    /\ exists rest, Some <$> waccepted s = concat (snd <$> taken s) ++ rest /\ Z.of_nat (length rest) <= 4.
Proof.
  eexists _, _. split; [vm_compute; reflexivity|]. split; [vm_compute; reflexivity|]. split; [reflexivity|].
  refine (let '(ex_intro _ rest H) := proj1 (wsq_exactly_once 4 _ _ _ _ (ex_intro _ wsq_demo _) _) in
    ex_intro _ rest (conj (proj1 H) (proj1 (proj2 H)))); [reflexivity|vm_compute; reflexivity|vm_compute; reflexivity|reflexivity].
Defined.
