(* ===== verification/Mpsc.v ===== *)
(** * The multi-producer single-consumer queue (src/container/mpsc.c)

    An intrusive linked queue with a sentinel node.  Producers exchange the tail and
    link their node afterwards, so the list can be broken between the two; the
    consumer waits for a missing link.  Every access to a shared field is a step and
    the schedule is arbitrary. *)

From S2P Require Import Prelude Interleave.

Section mpsc.
(** [&q->sentinel]. *)
Context (sentinel : loc).

(** The [next] fields of the nodes, [head] and [tail]. *)
Record mpsc_t := Mpsc { next : gmap loc (option loc); mhead : loc; mtail : loc }.

Definition mpsc_init (next0 : gmap loc (option loc)) : mpsc_t :=
  Mpsc (<[sentinel := None]> next0) sentinel sentinel.

(** Inside [mpsc_push]: after the store of [node->next]; after the exchange, with the
    link from [prev] still missing. *)
Inductive pushing :=
  | PInit (node : loc)
  | PLink (prev node : loc).
#[global] Instance pushing_eq_dec : EqDecision pushing.
Proof. solve_decision. Defined.

(** Inside [mpsc_pop], after: the call or [continue]; the load of [head]; the load of
    [next]; the step over the sentinel; the second load of [next]; the test of the
    tail for the last node; the three steps of pushing the sentinel; the last load. *)
Inductive popping :=
  | CIdle
  | CStart
  | CHead (head : loc)
  | CNext (head : loc) (nx : option loc)
  | CSkipped (head : loc)
  | CNode (head : loc) (nx : option loc)
  | CLast (head : loc)
  | CSentinelInit (head : loc)
  | CSentinelLink (head prev : loc)
  | CSentinelDone (head : loc)
  | CRetry (head : loc) (nx : option loc).

(** The queue, the threads, and the history: the nodes in the order of their
    exchanges, the nodes returned, and the nodes from head to tail. *)
Record mpsc_sys := MSys {
  mq : mpsc_t; producers : gmap nat pushing; mcons : popping;
  pushed : list loc; popped : list loc; chain : list loc }.

Inductive mpsc_label := MPush (p : nat) (node : loc) | Producer (p : nat) | MPop | Consumer.

(** The tail exchange of a push, returning the previous tail. *)
Definition exchange (node : loc) (q : mpsc_t) : loc * mpsc_t := (mtail q, Mpsc (next q) (mhead q) node).
Definition store_next (node : loc) (n : option loc) (q : mpsc_t) : mpsc_t :=
  Mpsc (<[node := n]> (next q)) (mhead q) (mtail q).

Definition mpsc_push (p : nat) (c : pushing) (s : mpsc_sys) : mpsc_sys :=
  match c with
  | PInit node =>
      let '(prev, q) := exchange node (mq s) in
      MSys q (<[p := PLink prev node]> (producers s)) (mcons s) (pushed s ++ [node]) (popped s) (chain s ++ [node])
  | PLink prev node =>
      MSys (store_next prev (Some node) (mq s)) (delete p (producers s)) (mcons s) (pushed s) (popped s) (chain s)
  end.

Definition set_cons (c : popping) (s : mpsc_sys) : mpsc_sys :=
  MSys (mq s) (producers s) c (pushed s) (popped s) (chain s).
Definition set_queue (q : mpsc_t) (s : mpsc_sys) : mpsc_sys :=
  MSys q (producers s) (mcons s) (pushed s) (popped s) (chain s).
(** [atomic_store(&q->head, nx)]: the chain loses its first node. *)
Definition move_head (nx : loc) (s : mpsc_sys) : mpsc_sys :=
  MSys (Mpsc (next (mq s)) nx (mtail (mq s))) (producers s) (mcons s) (pushed s) (popped s) (tail (chain s)).
(** ... followed by [return head]. *)
Definition return_node (head nx : loc) (s : mpsc_sys) : mpsc_sys :=
  let s := move_head nx s in
  MSys (mq s) (producers s) CIdle (pushed s) (popped s ++ [head]) (chain s).

(** One step of the consumer; [None]: a load from memory that is no node. *)
Definition mpsc_pop (s : mpsc_sys) : option mpsc_sys :=
  let q := mq s in
  match mcons s with
  | CIdle => None
  | CStart => Some (set_cons (CHead (mhead q)) s)
  | CHead head => nx ← next q !! head; Some (set_cons (CNext head nx) s)
  | CNext head nx =>
      if decide (head = sentinel) then
        match nx with
        | None => if decide (head = mtail q) then Some (set_cons CIdle s) else Some (set_cons CStart s)
        | Some n => Some (set_cons (CSkipped n) (move_head n s))
        end
      else Some (set_cons (CNode head nx) s)
  | CSkipped head => nx ← next q !! head; Some (set_cons (CNode head nx) s)
  | CNode head (Some n) => Some (return_node head n s)
  | CNode head None => if decide (head = mtail q) then Some (set_cons (CLast head) s) else Some (set_cons CStart s)
  | CLast head => Some (set_cons (CSentinelInit head) (set_queue (store_next sentinel None q) s))
  | CSentinelInit head =>
      let '(prev, q) := exchange sentinel q in
      Some (MSys q (producers s) (CSentinelLink head prev) (pushed s) (popped s) (chain s ++ [sentinel]))
  | CSentinelLink head prev => Some (set_cons (CSentinelDone head) (set_queue (store_next prev (Some sentinel) q) s))
  | CSentinelDone head => nx ← next q !! head; Some (set_cons (CRetry head nx) s)
  | CRetry head (Some n) => Some (return_node head n s)
  | CRetry head None => Some (set_cons CStart s)
  end.

(** A node may be pushed when it is neither queued nor about to be. *)
Definition pushable (node : loc) (s : mpsc_sys) : bool :=
  bool_decide (node <> sentinel) && bool_decide (node ∉ chain s)
  && bool_decide (map_Forall (fun _ c => c <> PInit node) (producers s)).

Definition mpsc_step (l : mpsc_label) (s : mpsc_sys) : option mpsc_sys :=
  match l with
  | MPush p node =>
      match producers s !! p with
      | None =>
          if pushable node s then
            Some (MSys (store_next node None (mq s)) (<[p := PInit node]> (producers s)) (mcons s)
              (pushed s) (popped s) (chain s))
          else None
      | Some _ => None
      end
  | Producer p => c ← producers s !! p; Some (mpsc_push p c s)
  | MPop => match mcons s with CIdle => Some (set_cons CStart s) | _ => None end
  | Consumer => mpsc_pop s
  end.

Definition mpsc_start (next0 : gmap loc (option loc)) : mpsc_sys :=
  MSys (mpsc_init next0) ∅ CIdle [] [] [sentinel].

Definition mpsc_can_pop (q : mpsc_t) : option bool :=
  nx ← next q !! mhead q;
  Some (negb (bool_decide (mhead q = sentinel) && bool_decide (nx = None))).

(** ** Neighbours in a list *)

Definition adj (l : list loc) (a b : loc) : Prop := exists l1 l2, l = l1 ++ a :: b :: l2.

Lemma adj_snoc l x a b : adj (l ++ [x]) a b <-> adj l a b \/ (last l = Some a /\ b = x).
Proof.
  split.
  - intros (l1 & l2 & E). destruct l2 as [|y l2] using rev_ind.
    + right. replace (l1 ++ [a; b]) with ((l1 ++ [a]) ++ [b]) in E by by rewrite <-app_assoc.
      apply app_inj_tail in E as [-> ->]. by rewrite last_snoc.
    + left. exists l1, l2. rewrite !app_comm_cons, app_assoc in E. by apply app_inj_tail in E as [-> _].
  - intros [(l1 & l2 & ->)|[Hl ->]].
    + exists l1, (l2 ++ [x]). by rewrite <-app_assoc.
    + apply last_Some in Hl as [l' ->]. exists l', []. by rewrite <-app_assoc.
Qed.
Lemma adj_cons h l a b : adj (h :: l) a b <-> (a = h /\ head l = Some b) \/ adj l a b.
Proof.
  split.
  - intros ([|y l1] & l2 & E); simpl in E; injection E as -> ->; [by left|]. right. by exists l1, l2.
  - intros [[-> Hl]|(l1 & l2 & ->)]; [|by exists (h :: l1), l2].
    destruct l as [|? l]; [done|]. simpl in Hl. injection Hl as ->. by exists [], l.
Qed.
Lemma adj_elem l a b : adj l a b -> a ∈ l /\ b ∈ l.
Proof. intros (l1 & l2 & ->). set_solver. Qed.
Lemma adj_fun l a b b' : NoDup l -> adj l a b -> adj l a b' -> b = b'.
Proof.
  induction l as [|h l IH]; intros Hnd; [intros (l1 & l2 & E); by destruct l1|].
  apply NoDup_cons in Hnd as [Hh Hnd]. rewrite !adj_cons.
  intros [[-> E1]|H1] [[E2 E3]|H2]; subst; [congruence|..].
  - by apply adj_elem in H2 as [? _].
  - by apply adj_elem in H1 as [? _].
  - by apply IH.
Qed.
(** The last node of a list has no successor. *)
Lemma adj_last l a b : NoDup l -> last l = Some a -> adj l a b -> False.
Proof.
  intros Hnd Hl (l1 & l2 & ->). rewrite last_app_cons, last_cons_cons in Hl.
  apply NoDup_app in Hnd as (_ & _ & Hnd). apply NoDup_cons in Hnd as [Ha _]. apply Ha.
  apply last_Some_elem_of in Hl. done.
Qed.

(** ** Invariant *)

(** The missing links: those a producer or the consumer is about to store. *)
Definition pending (s : mpsc_sys) (a b : loc) : Prop :=
  (exists p, producers s !! p = Some (PLink a b)) \/ (exists h, mcons s = CSentinelLink h a /\ b = sentinel).

Definition cons_ok (s : mpsc_sys) (c : popping) : Prop :=
  let at_head h := h = mhead (mq s) in
  let seen h nx := forall n, nx = Some n -> next (mq s) !! h = Some (Some n) in
  match c with
  | CIdle | CStart => True
  | CHead h => at_head h
  | CNext h nx => at_head h /\ seen h nx
  | CSkipped h => at_head h /\ h <> sentinel
  | CNode h nx | CRetry h nx => at_head h /\ h <> sentinel /\ seen h nx
  | CLast h => at_head h /\ h <> sentinel /\ sentinel ∉ chain s
  | CSentinelInit h => at_head h /\ h <> sentinel /\ sentinel ∉ chain s /\ next (mq s) !! sentinel = Some None
  | CSentinelLink h prev => at_head h /\ h <> sentinel /\ adj (chain s) prev sentinel /\ next (mq s) !! prev = Some None
  | CSentinelDone h => at_head h /\ h <> sentinel
  end.

Definition prod_ok (s : mpsc_sys) (p : nat) (c : pushing) : Prop :=
  (forall p', producers s !! p' = Some c -> p' = p) /\
  match c with
  | PInit n => n <> sentinel /\ n ∉ chain s /\ next (mq s) !! n = Some None
  | PLink a b => b <> sentinel /\ adj (chain s) a b /\ next (mq s) !! a = Some None
  end.

Record mpsc_inv (s : mpsc_sys) : Prop := {
  m_nodup : NoDup (chain s);
  m_head : head (chain s) = Some (mhead (mq s));
  m_tail : last (chain s) = Some (mtail (mq s));
  m_end : next (mq s) !! mtail (mq s) = Some None;
  m_links a b : adj (chain s) a b ->
    next (mq s) !! a = Some (Some b) \/ (next (mq s) !! a = Some None /\ pending s a b);
  m_hist : pushed s = popped s ++ filter (fun n => n <> sentinel) (chain s);
  m_prod : map_Forall (prod_ok s) (producers s);
  m_cons : cons_ok s (mcons s) }.

Lemma chain_cons s : mpsc_inv s -> exists t, chain s = mhead (mq s) :: t.
Proof. intros HI. pose proof (m_head _ HI) as Hh. destruct (chain s) as [|h t]; [done|]. injection Hh as ->. by exists t. Qed.

(** Every node of the chain has a [next] field. *)
Lemma chain_next s a : mpsc_inv s -> a ∈ chain s -> is_Some (next (mq s) !! a).
Proof.
  intros HI (l1 & l2 & E)%list_elem_of_split. destruct l2 as [|b l2].
  - pose proof (m_tail _ HI) as Ht. rewrite E, last_snoc in Ht. injection Ht as ->. rewrite (m_end _ HI). by eexists.
  - destruct (m_links _ HI a b) as [H|[H _]]; [by exists l1, l2|by rewrite H; eexists..].
Qed.

(** A link that is stored leads to the next node of the chain. *)
Lemma head_link s n : mpsc_inv s -> next (mq s) !! mhead (mq s) = Some (Some n) ->
  exists t, chain s = mhead (mq s) :: n :: t.
Proof.
  intros HI Hn. destruct (chain_cons s HI) as [t E]. destruct t as [|n' t].
  - pose proof (m_tail _ HI) as Ht. rewrite E in Ht. injection Ht as Et. pose proof (m_end _ HI) as He.
    rewrite <-Et, Hn in He. done.
  - exists t. destruct (m_links _ HI (mhead (mq s)) n') as [H|[H _]]; [by rewrite E; exists [], t|..]; congruence.
Qed.

(** The consumer moving on, between two steps that touch the memory. *)
Lemma set_cons_inv s c : mpsc_inv s -> (forall h a, mcons s <> CSentinelLink h a) -> cons_ok s c ->
  mpsc_inv (set_cons c s).
Proof.
  intros HI Hns Hc. pose proof HI as [I1 I2 I3 I4 I5 I6 I7 I8]. split; try done.
  intros a b Hab. destruct (I5 a b Hab) as [?|[? Hp]]; [by left|right]. split; [done|].
  destruct Hp as [?|(h & E & _)]; [by left|]. by destruct (Hns _ _ E).
Qed.

(** Moving the head over a stored link, returning the node unless it is the sentinel. *)
Lemma move_head_inv s n c out : mpsc_inv s -> next (mq s) !! mhead (mq s) = Some (Some n) ->
  (forall h a, mcons s <> CSentinelLink h a) ->
  out = (if decide (mhead (mq s) = sentinel) then [] else [mhead (mq s)]) ->
  let s1 := move_head n s in
  let s' := MSys (mq s1) (producers s1) c (pushed s1) (popped s1 ++ out) (chain s1) in
  (n <> mhead (mq s) -> cons_ok s' c) -> mpsc_inv s'.
Proof.
  intros HI Hn Hns Hout s1 s' Hc. destruct (head_link s n HI Hn) as [t E].
  pose proof HI as [I1 I2 I3 I4 I5 I6 I7 I8]. rewrite E in I1. pose proof I1 as I1'. apply NoDup_cons in I1' as [Hh Hnd].
  assert (chain s' = n :: t) as Ec by (simpl; by rewrite E).
  assert (forall a b, adj (chain s) a b -> a <> mhead (mq s) -> adj (n :: t) a b) as Hadj.
  { intros a b Hab Hne. rewrite E in Hab. apply adj_cons in Hab as [[-> _]|Hab]; [done|done]. }
  split; rewrite ?Ec; try done.
  - change (last (n :: t) = Some (mtail (mq s))). by rewrite <-I3, E.
  - intros a b Hab. destruct (I5 a b) as [?|[? Hp]]; [rewrite E; apply adj_cons; by right|by left|right].
    split; [done|]. destruct Hp as [?|(h & Em & _)]; [by left|]. by destruct (Hns _ _ Em).
  - simpl. rewrite I6, E, Hout. destruct (decide (mhead (mq s) = sentinel)) as [Es|Es].
    + rewrite filter_cons_False by naive_solver. by rewrite app_nil_r.
    + rewrite filter_cons_True by done. by rewrite <-app_assoc.
  - intros p c' Hp. destruct (I7 p c' Hp) as [Hu Hok]. split; [done|]. rewrite Ec. destruct c' as [m|a b]; simpl.
    + destruct Hok as (? & Hm & ?). rewrite E in Hm. split_and!; [done|set_solver|done].
    + destruct Hok as (? & Hab & Hnone). split_and!; [done| |done]. apply Hadj; [done|]. intros ->. congruence.
  - apply Hc. set_solver.
Qed.

(** Storing into a node that is not in the chain, or the link of a pending pair. *)
Lemma cons_ok_store s c a v ps ps' pd pp : cons_ok s c -> a <> mhead (mq s) \/ next (mq s) !! a = Some None ->
  (forall h x, c = CSentinelLink h x -> x <> a) -> (forall h, c = CSentinelInit h -> a <> sentinel) ->
  cons_ok (MSys (store_next a v (mq s)) ps ps' pd pp (chain s)) c.
Proof.
  intros Hc Ha Hx Hi. assert (forall h nx, h = mhead (mq s) -> (forall n, nx = Some n -> next (mq s) !! h = Some (Some n)) ->
    forall n, nx = Some n -> <[a := v]> (next (mq s)) !! h = Some (Some n)) as Hseen.
  { intros h nx -> Hs n En. specialize (Hs n En). destruct (decide (a = mhead (mq s))) as [->|];
      [destruct Ha; congruence|by rewrite lookup_insert_ne]. }
  destruct c; simpl in *; try done; try naive_solver.
  - destruct Hc as (? & ? & ? & ?). split_and!; try done. rewrite lookup_insert_ne; [done|]. by eapply Hi.
  - destruct Hc as (? & ? & ? & ?). split_and!; try done. rewrite lookup_insert_ne; [done|]. intros ->. by eapply Hx.
Qed.

Lemma mpush_inv s p node : mpsc_inv s -> producers s !! p = None -> pushable node s = true ->
  mpsc_inv (MSys (store_next node None (mq s)) (<[p := PInit node]> (producers s)) (mcons s)
    (pushed s) (popped s) (chain s)).
Proof.
  intros HI Hp Hpush. pose proof HI as [I1 I2 I3 I4 I5 I6 I7 I8]. unfold pushable in Hpush.
  apply andb_true_iff in Hpush as [[Hne%bool_decide_eq_true Hnc%bool_decide_eq_true]%andb_true_iff Hnp%bool_decide_eq_true].
  assert (forall a, a ∈ chain s -> <[node := None]> (next (mq s)) !! a = next (mq s) !! a) as Hnx
    by (intros a Ha; apply lookup_insert_ne; set_solver).
  assert (mhead (mq s) ∈ chain s) as Hhd by (destruct (chain_cons s HI) as [t ->]; set_solver).
  split; simpl; try done.
  - rewrite Hnx; [done|]. by eapply last_Some_elem_of.
  - intros a b Hab. rewrite Hnx by by apply adj_elem in Hab as [? _]. destruct (I5 a b Hab) as [?|[? Hpd]]; [by left|right].
    split; [done|]. destruct Hpd as [[p' Hp']|?]; [left|by right]. exists p'. simpl. rewrite lookup_insert_ne; congruence.
  - apply map_Forall_insert_2.
    + split; simpl; [|split_and!; [done..|by apply lookup_insert_eq]].
      intros p' Hp'. destruct (decide (p = p')) as [|Hpp]; [done|]. rewrite lookup_insert_ne in Hp' by done.
      by destruct (Hnp _ _ Hp').
    + intros p' c Hp'. destruct (I7 p' c Hp') as [Hu Hok]. split.
      * simpl. intros p'' Hp''. destruct (decide (p = p'')) as [<-|]; [|rewrite lookup_insert_ne in Hp'' by done; by apply Hu].
        rewrite lookup_insert_eq in Hp''. injection Hp'' as <-. by destruct (Hnp _ _ Hp').
      * destruct c as [m|a b]; simpl.
        -- destruct Hok as (? & ? & ?). split_and!; try done. rewrite lookup_insert_ne; [done|]. intros ->. by destruct (Hnp _ _ Hp').
        -- destruct Hok as (? & Hab & ?). split_and!; try done. rewrite Hnx; [done|]. by apply adj_elem in Hab as [? _].
  - apply cons_ok_store; try done; [left; set_solver|].
    intros h x Ex ->. rewrite Ex in I8. destruct I8 as (_ & _ & Hab & _). by apply adj_elem in Hab as [? _].
Qed.

(** A node appended behind the tail, by a producer or by the consumer. *)
Lemma append_links s node ps c pd pp : mpsc_inv s -> node ∉ chain s ->
  let s' := MSys (Mpsc (next (mq s)) (mhead (mq s)) node) ps c pd pp (chain s ++ [node]) in
  (forall a b, pending s a b -> pending s' a b) -> pending s' (mtail (mq s)) node ->
  NoDup (chain s') /\ head (chain s') = Some (mhead (mq s')) /\ last (chain s') = Some (mtail (mq s'))
  /\ forall a b, adj (chain s') a b ->
       next (mq s') !! a = Some (Some b) \/ (next (mq s') !! a = Some None /\ pending s' a b).
Proof.
  intros HI Hn s' Hpd Hnew. destruct (chain_cons s HI) as [t E]. pose proof HI as [I1 I2 I3 I4 I5 I6 I7 I8]. split_and!; simpl.
  - apply NoDup_app. split_and!; [done|set_solver|apply NoDup_singleton].
  - by rewrite E.
  - by rewrite last_snoc.
  - intros a b [Hab|[Hl ->]]%adj_snoc.
    + destruct (I5 a b Hab) as [?|[? ?]]; [by left|right; auto].
    + rewrite I3 in Hl. injection Hl as <-. right. by split.
Qed.

Lemma prod_ok_append s s' p c x : prod_ok s p c -> (forall n, c = PInit n -> n <> x) -> next (mq s') = next (mq s) ->
  chain s' = chain s ++ [x] -> (forall p', producers s' !! p' = Some c -> p' = p) -> prod_ok s' p c.
Proof.
  intros [Hu Hok] Hc En Ec Hu'. split; [done|]. rewrite En, Ec. destruct c as [n|a b].
  - destruct Hok as (? & ? & ?). specialize (Hc n eq_refl). split_and!; [done|set_solver|done].
  - destruct Hok as (? & ? & ?). split_and!; try done. apply adj_snoc. by left.
Qed.
Lemma cons_ok_append s s' c x : cons_ok s c -> next (mq s') = next (mq s) -> mhead (mq s') = mhead (mq s) ->
  chain s' = chain s ++ [x] -> x <> sentinel -> cons_ok s' c.
Proof.
  intros Hc En Eh Ec Hx. destruct c; simpl in *; rewrite ?En, ?Eh, ?Ec; try done.
  - destruct Hc as (? & ? & ?). split_and!; [done..|set_solver].
  - destruct Hc as (? & ? & ? & ?). split_and!; [done..|set_solver|done].
  - destruct Hc as (? & ? & ? & ?). split_and!; try done. apply adj_snoc. by left.
Qed.

Lemma producer_init_inv s p node : mpsc_inv s -> producers s !! p = Some (PInit node) ->
  mpsc_inv (mpsc_push p (PInit node) s).
Proof.
  intros HI Hp. pose proof HI as [I1 I2 I3 I4 I5 I6 I7 I8]. destruct (I7 p _ Hp) as [Hu (Hne & Hnc & Hnx)].
  assert (forall a b p', producers s !! p' = Some (PLink a b) -> p' <> p) as Hpp by (intros a b p' Hp' ->; congruence).
  simpl. destruct (append_links s node (<[p := PLink (mtail (mq s)) node]> (producers s)) (mcons s)
    (pushed s ++ [node]) (popped s) HI Hnc) as (J1 & J2 & J3 & J5).
  { intros a b [[p' Hp']|?]; [left|by right]. exists p'. simpl. rewrite lookup_insert_ne; [done|]. by apply not_eq_sym, (Hpp a b). }
  { left. exists p. apply lookup_insert_eq. }
  split; try done.
  - simpl. by rewrite I6, filter_app, filter_cons_True, <-app_assoc by done.
  - intros p' c Hp'. simpl in Hp'. apply lookup_insert_Some in Hp' as [[<- <-]|[Hd Hp']].
    + split; simpl.
      * intros p' Hp'. destruct (decide (p = p')) as [|Hd]; [done|]. rewrite lookup_insert_ne in Hp' by done.
        destruct (I7 _ _ Hp') as (_ & _ & Hab & _). by destruct (adj_last _ _ _ I1 I3 Hab).
      * split_and!; [done| |done]. apply adj_snoc. by right.
    + apply (prod_ok_append s _ _ _ node); try done; [by apply I7|..].
      * intros n -> ->. by apply Hd, eq_sym, Hu.
      * simpl. intros p'' Hp''. apply lookup_insert_Some in Hp'' as [[<- <-]|[_ Hp'']]; [|by apply (I7 p' c Hp')].
        destruct (I7 _ _ Hp') as (_ & _ & Hab & _). by destruct (adj_last _ _ _ I1 I3 Hab).
  - by eapply cons_ok_append; [apply I8|done..].
Qed.

Lemma producer_link_inv s p a b : mpsc_inv s -> producers s !! p = Some (PLink a b) ->
  mpsc_inv (mpsc_push p (PLink a b) s).
Proof.
  intros HI Hp. pose proof HI as [I1 I2 I3 I4 I5 I6 I7 I8]. destruct (I7 p _ Hp) as [Hu (Hne & Hab & Hnx)].
  assert (forall b', adj (chain s) a b' -> b' = b) as Hfun by (intros b' H; by eapply adj_fun).
  split; simpl; try done.
  - rewrite lookup_insert_ne; [done|]. intros ->. by eapply adj_last.
  - intros a' b' Hab'. destruct (decide (a = a')) as [<-|Hd].
    + rewrite (Hfun b') by done. left. apply lookup_insert_eq.
    + rewrite lookup_insert_ne by done. destruct (I5 a' b' Hab') as [?|[? [[p' Hp']|?]]]; [by left| |right; split; [done|by right]].
      right. split; [done|]. left. exists p'. simpl. rewrite lookup_delete_ne; congruence.
  - intros p' c Hp'. apply lookup_delete_Some in Hp' as [Hd Hp']. destruct (I7 p' c Hp') as [Hu' Hok]. split.
    + simpl. intros p'' Hp''. apply lookup_delete_Some in Hp'' as [_ Hp'']. by apply Hu'.
    + destruct c as [m|a' b']; simpl.
      * destruct Hok as (? & Hm & ?). split_and!; try done. rewrite lookup_insert_ne; [done|]. intros ->.
        by apply Hm; apply adj_elem in Hab as [? _].
      * destruct Hok as (? & Hab' & ?). split_and!; try done. rewrite lookup_insert_ne; [done|]. intros ->.
        assert (b' = b) as -> by by apply Hfun. by apply Hd, eq_sym, Hu.
  - apply cons_ok_store; try done; [by right|..].
    + intros h x Ex ->. rewrite Ex in I8. destruct I8 as (_ & _ & Hs & _). by apply Hne, eq_sym, Hfun.
    + intros h Ex ->. rewrite Ex in I8. destruct I8 as (_ & _ & Hs & _). by apply Hs; apply adj_elem in Hab as [? _].
Qed.

(** The three steps of the consumer that push the sentinel. *)
Lemma sentinel_init_inv s h : mpsc_inv s -> mcons s = CLast h ->
  mpsc_inv (set_cons (CSentinelInit h) (set_queue (store_next sentinel None (mq s)) s)).
Proof.
  intros HI Ec. pose proof HI as [I1 I2 I3 I4 I5 I6 I7 I8]. rewrite Ec in I8. destruct I8 as (Eh & Hh & Hs).
  assert (forall a, a ∈ chain s -> <[sentinel := None]> (next (mq s)) !! a = next (mq s) !! a) as Hnx
    by (intros a Ha; apply lookup_insert_ne; set_solver).
  split; simpl; try done.
  - rewrite Hnx; [done|]. by eapply last_Some_elem_of.
  - intros a b Hab. rewrite Hnx by by apply adj_elem in Hab as [? _]. destruct (I5 a b Hab) as [?|[? Hpd]]; [by left|right].
    split; [done|]. destruct Hpd as [?|(h' & E & _)]; [by left|congruence].
  - intros p c Hp. destruct (I7 p c Hp) as [Hu Hok]. split; [done|]. destruct c as [m|a b]; simpl.
    + destruct Hok as (? & ? & ?). split_and!; try done. by rewrite lookup_insert_ne.
    + destruct Hok as (? & Hab & ?). split_and!; try done. rewrite Hnx; [done|]. by apply adj_elem in Hab as [? _].
  - split_and!; try done. apply lookup_insert_eq.
Qed.
Lemma sentinel_append_inv s h : mpsc_inv s -> mcons s = CSentinelInit h ->
  mpsc_inv (MSys (Mpsc (next (mq s)) (mhead (mq s)) sentinel) (producers s) (CSentinelLink h (mtail (mq s)))
    (pushed s) (popped s) (chain s ++ [sentinel])).
Proof.
  intros HI Ec. pose proof HI as [I1 I2 I3 I4 I5 I6 I7 I8]. rewrite Ec in I8. destruct I8 as (Eh & Hh & Hs & Hnx).
  destruct (append_links s sentinel (producers s) (CSentinelLink h (mtail (mq s))) (pushed s) (popped s) HI Hs) as (J1 & J2 & J3 & J5).
  { intros a b [?|(h' & E & _)]; [by left|congruence]. }
  { right. by exists h. }
  split; try done.
  - simpl. rewrite I6, filter_app, filter_cons_False by naive_solver. by rewrite app_nil_r.
  - intros p c Hp. apply (prod_ok_append s _ _ _ sentinel); try done; [by apply I7| |by apply (I7 p c Hp)].
    intros n -> ->. by destruct (I7 _ _ Hp) as (_ & ? & _).
  - simpl. split_and!; try done. apply adj_snoc. by right.
Qed.
Lemma sentinel_link_inv s h a : mpsc_inv s -> mcons s = CSentinelLink h a ->
  mpsc_inv (set_cons (CSentinelDone h) (set_queue (store_next a (Some sentinel) (mq s)) s)).
Proof.
  intros HI Ec. pose proof HI as [I1 I2 I3 I4 I5 I6 I7 I8]. rewrite Ec in I8. destruct I8 as (Eh & Hh & Hab & Hnx).
  assert (forall b', adj (chain s) a b' -> b' = sentinel) as Hfun by (intros b' H; by eapply adj_fun).
  split; simpl; try done.
  - rewrite lookup_insert_ne; [done|]. intros ->. by eapply adj_last.
  - intros a' b' Hab'. destruct (decide (a = a')) as [<-|Hd].
    + rewrite (Hfun b') by done. left. apply lookup_insert_eq.
    + rewrite lookup_insert_ne by done. destruct (I5 a' b' Hab') as [?|[? [?|(h' & E & _)]]]; [by left| |congruence].
      right. split; [done|]. by left.
  - intros p c Hp. destruct (I7 p c Hp) as [Hu Hok]. split; [done|]. destruct c as [m|a' b']; simpl.
    + destruct Hok as (? & Hm & ?). split_and!; try done. rewrite lookup_insert_ne; [done|]. intros ->.
      by apply Hm; apply adj_elem in Hab as [? _].
    + destruct Hok as (Hb & Hab' & ?). split_and!; try done. rewrite lookup_insert_ne; [done|]. intros ->.
      by apply Hb, Hfun.
Qed.

Lemma consumer_inv s s' : mpsc_inv s -> mpsc_pop s = Some s' -> mpsc_inv s'.
Proof.
  intros HI. pose proof HI as [I1 I2 I3 I4 I5 I6 I7 I8]. unfold mpsc_pop.
  destruct (mcons s) as [| |h|h nx|h|h nx|h|h|h prev|h|h nx] eqn:Ec; simpl in I8; try done.
  - intros [= <-]. apply set_cons_inv; [done|congruence|done].
  - destruct (next (mq s) !! h) as [nx|] eqn:En; simpl; [|done]. intros [= <-].
    apply set_cons_inv; [done|congruence|]. split; [done|]. congruence.
  - destruct I8 as [-> Hseen]. destruct (decide (mhead (mq s) = sentinel)) as [Es|Es].
    + destruct nx as [n|].
      * intros [= <-]. pose proof (move_head_inv s n (CSkipped n) []) as H. simpl in H. rewrite app_nil_r in H.
        apply H; [done|by apply Hseen|congruence|by rewrite decide_True|]. intros Hn. split; [done|congruence].
      * destruct (decide _); intros [= <-]; (apply set_cons_inv; [done|congruence|done]).
    + intros [= <-]. apply set_cons_inv; [done|congruence|done].
  - destruct I8 as [-> Hh]. destruct (next (mq s) !! mhead (mq s)) as [nx|] eqn:En; simpl; [|done]. intros [= <-].
    apply set_cons_inv; [done|congruence|]. split_and!; [done..|]. congruence.
  - destruct I8 as (-> & Hh & Hseen). destruct nx as [n|].
    + intros [= <-]. apply move_head_inv; [done|by apply Hseen|congruence|by rewrite decide_False|done].
    + destruct (decide (mhead (mq s) = mtail (mq s))) as [Et|]; intros [= <-]; (apply set_cons_inv; [done|congruence|]); [|done].
      split_and!; [done..|]. destruct (chain_cons s HI) as [t E]. rewrite E in *. destruct t as [|x t]; [set_solver|].
      exfalso. rewrite Et in I1. apply NoDup_cons in I1 as [I1 _]. apply I1. eapply last_Some_elem_of.
      by rewrite last_cons_cons in I3.
  - intros [= <-]. by apply sentinel_init_inv.
  - intros [= <-]. by apply sentinel_append_inv.
  - intros [= <-]. by apply sentinel_link_inv.
  - destruct I8 as [-> Hh]. destruct (next (mq s) !! mhead (mq s)) as [nx|] eqn:En; simpl; [|done]. intros [= <-].
    apply set_cons_inv; [done|congruence|]. split_and!; [done..|]. congruence.
  - destruct I8 as (-> & Hh & Hseen). destruct nx as [n|].
    + intros [= <-]. apply move_head_inv; [done|by apply Hseen|congruence|by rewrite decide_False|done].
    + intros [= <-]. apply set_cons_inv; [done|congruence|done].
Qed.

Lemma mpsc_step_inv l s s' : mpsc_inv s -> mpsc_step l s = Some s' -> mpsc_inv s'.
Proof.
  intros HI. destruct l as [p node|p| |]; simpl.
  - destruct (producers s !! p) eqn:Ep; [done|]. destruct (pushable node s) eqn:Epu; [|done].
    intros [= <-]. by apply mpush_inv.
  - destruct (producers s !! p) as [[n|a b]|] eqn:Ep; simpl; [..|done]; intros [= <-];
      [by apply producer_init_inv|by apply producer_link_inv].
  - destruct (mcons s) eqn:Ec; try done. intros [= <-]. apply set_cons_inv; [done|congruence|done].
  - by apply consumer_inv.
Qed.

Lemma mpsc_start_inv next0 : mpsc_inv (mpsc_start next0).
Proof.
  split; simpl; try done.
  - apply NoDup_singleton.
  - apply lookup_insert_eq.
  - intros a b ([|x l1] & l2 & E); [done|]. destruct l1; simpl in E; naive_solver.
  - by rewrite filter_cons_False by naive_solver.
Qed.

Lemma consumer_enabled s : mpsc_inv s -> mcons s <> CIdle -> is_Some (mpsc_step Consumer s).
Proof.
  intros HI. pose proof (m_cons _ HI) as I8. destruct (chain_cons s HI) as [t E].
  destruct (chain_next s (mhead (mq s)) HI) as [nx Hnx]; [rewrite E; set_solver|].
  intros Hne. simpl. unfold mpsc_pop.
  destruct (mcons s) as [| |h|h [n|]|h|h [n|]|h|h|h prev|h|h [n|]]; simpl in *; try done; try by eexists.
  - rewrite I8, Hnx. by eexists.
  - destruct (decide _); by eexists.
  - destruct (decide _); [destruct (decide _)|]; by eexists.
  - destruct I8 as [-> _]. rewrite Hnx. by eexists.
  - destruct (decide _); by eexists.
  - destruct I8 as [-> _]. rewrite Hnx. by eexists.
Qed.
(** A pop that reports an empty queue, and one that returns a node. *)
Lemma pop_returns s s' : mpsc_inv s -> mcons s <> CIdle -> mpsc_step Consumer s = Some s' -> mcons s' = CIdle ->
  producers s' = producers s /\ pushed s' = pushed s
  /\ (popped s' = popped s /\ popped s = pushed s \/ exists n, popped s' = popped s ++ [n]).
Proof.
  intros HI Hne Hs Hc. pose proof (m_cons _ HI) as I8. destruct (chain_cons s HI) as [t E].
  destruct (chain_next s (mhead (mq s)) HI) as [nx Hnx]; [rewrite E; set_solver|]. simpl in Hs. unfold mpsc_pop in Hs.
  destruct (mcons s) as [| |h|h [n|]|h|h [n|]|h|h|h prev|h|h [n|]]; simplify_eq/=; try done.
  - rewrite Hnx in Hs; simplify_eq/=.
  - destruct (decide _); simplify_eq/=.
  - destruct I8 as [-> _]. destruct (decide (mhead (mq s) = sentinel)) as [Es|]; simplify_eq/=.
    destruct (decide (mhead (mq s) = mtail (mq s))) as [Et|]; simplify_eq/=. split_and!; [done..|]. left. split; [done|].
    rewrite (m_hist _ HI), E. destruct t as [|x t].
    + rewrite filter_cons_False by naive_solver. by rewrite app_nil_r.
    + exfalso. pose proof (m_nodup _ HI) as I1. pose proof (m_tail _ HI) as I3. rewrite E, Et in I1.
      apply NoDup_cons in I1 as [I1 _]. apply I1. eapply last_Some_elem_of. by rewrite E, last_cons_cons in I3.
  - destruct I8 as [-> _]; rewrite Hnx in Hs; simplify_eq/=.
  - eauto.
  - destruct (decide _); simplify_eq/=.
  - destruct I8 as [-> _]; rewrite Hnx in Hs; simplify_eq/=.
  - eauto.
Qed.

(** The other steps of the consumer. *)
Lemma pop_continues s s' : mpsc_step Consumer s = Some s' ->
  producers s' = producers s /\ pushed s' = pushed s /\ (mcons s' <> CIdle -> popped s' = popped s).
Proof.
  simpl. unfold mpsc_pop.
  destruct (mcons s) as [| |h|h [n|]|h|h [n|]|h|h|h prev|h|h [n|]]; simpl; intros Hs; simplify_eq/=; try done.
  all: try (destruct (next (mq s) !! h); simplify_eq/=; done).
  - destruct (decide _); simplify_eq/=; done.
  - destruct (decide _); [destruct (decide _)|]; simplify_eq/=; done.
  - destruct (decide _); simplify_eq/=; done.
Qed.
(** [mpsc_can_pop] misses a queued node only while its push has not linked it. *)
Lemma can_pop_ok s : mpsc_inv s -> mcons s = CIdle -> exists b, mpsc_can_pop (mq s) = Some b
  /\ (b = false -> popped s <> pushed s -> exists p x y, producers s !! p = Some (PLink x y)).
Proof.
  intros HI Hc. destruct (chain_cons s HI) as [t E].
  destruct (chain_next s (mhead (mq s)) HI) as [nx Hnx]; [rewrite E; set_solver|].
  unfold mpsc_can_pop. rewrite Hnx. simpl. eexists. split; [done|].
  intros [Hs Hn]%negb_false_iff%andb_true_iff Hne. apply bool_decide_eq_true in Hs, Hn. subst nx.
  destruct t as [|b t].
  - destruct Hne. rewrite (m_hist _ HI), E, Hs. rewrite filter_cons_False by naive_solver. by rewrite app_nil_r.
  - destruct (m_links _ HI (mhead (mq s)) b) as [?|[_ [[p Hp]|(h & Eh & _)]]]; [by rewrite E; exists [], t|congruence|eauto|congruence].
Qed.

(** C9 The queue under every interleaving of its threads.  In the order of the tail
    exchanges, the nodes returned by the consumer are the nodes pushed, each once,
    followed by those still queued; the consumer never loads from memory that is no
    node; it reports an empty queue only when everything pushed has been returned;
    and a link is missing only while some push is between its exchange and the store
    of the link. *)
Theorem mpsc_correct next0 s : reachable mpsc_step (mpsc_start next0) s ->
  pushed s = popped s ++ filter (fun n => n <> sentinel) (chain s) /\ NoDup (chain s)
  /\ (mcons s <> CIdle -> is_Some (mpsc_step Consumer s))
  /\ (forall s', mcons s <> CIdle -> mpsc_step Consumer s = Some s' -> mcons s' = CIdle -> popped s' = popped s ->
        popped s = pushed s)
  /\ (forall a, a ∈ chain s -> a <> mtail (mq s) -> next (mq s) !! a = Some None ->
        (exists p n, producers s !! p = Some (PLink a n)) \/ exists h, mcons s = CSentinelLink h a).
Proof.
  intros Hr. apply (reachable_invariant _ mpsc_inv) in Hr; [|apply mpsc_start_inv|intros; by eapply mpsc_step_inv].
  split_and!; [apply Hr..|by apply consumer_enabled| |].
  - intros s' Hne Hs Hc Hp. destruct (pop_returns s s' Hr Hne Hs Hc) as (_ & _ & [[_ ?]|[n En]]); [done|].
    rewrite Hp in En. apply (f_equal length) in En. rewrite length_app in En. simpl in En. lia.
  - intros a (l1 & l2 & Ea)%list_elem_of_split Ht Hn. destruct l2 as [|b l2].
    + pose proof (m_tail _ Hr) as I3. rewrite Ea, last_snoc in I3. congruence.
    + destruct (m_links _ Hr a b) as [?|[_ [[p Hp]|(h & E' & _)]]]; [by exists l1, l2|congruence| |by right; exists h].
      left. by exists p, b.
Qed.

(** ** Termination of [mpsc_pop] *)

(** [n] steps of the consumer in a row. *)
Notation solo n := (run mpsc_step (replicate n Consumer)).

(** Returning the last node [x]: the sentinel is pushed behind it first. *)
Lemma solo_last nx ps pd pp x : x <> sentinel -> nx !! x = Some None ->
  exists s', solo 6 (MSys (Mpsc nx x x) ps (CNode x None) pd pp [x]) = Some s'
    /\ mcons s' = CIdle /\ popped s' = pp ++ [x].
Proof.
  intros Hx Hn. unfold mpsc_step, mpsc_pop. simpl. rewrite decide_True by done. simpl.
  rewrite lookup_insert_eq. simpl. eexists. split; [done|]. done.
Qed.

(** C40 [mpsc_pop] returns: with no push between its exchange and its link, a call
    that runs alone returns within ten steps, with the oldest queued node if there
    is one and with no node if the queue is empty. *)
Theorem mpsc_pop_returns next0 s : reachable mpsc_step (mpsc_start next0) s -> mcons s = CStart ->
  (forall p a b, producers s !! p <> Some (PLink a b)) ->
  exists n s', (n <= 10)%nat /\ solo n s = Some s' /\ mcons s' = CIdle
    /\ popped s' = popped s ++ option_list (head (filter (fun x => x <> sentinel) (chain s))).
Proof.
  intros Hr Hc Hp. apply (reachable_invariant _ mpsc_inv) in Hr; [|apply mpsc_start_inv|intros; by eapply mpsc_step_inv].
  destruct (chain_cons s Hr) as [t E]. pose proof Hr as [I1 I2 I3 I4 I5 I6 I7 I8].
  assert (forall a b, adj (chain s) a b -> next (mq s) !! a = Some (Some b)) as Hl.
  { intros a b Hab. destruct (I5 a b Hab) as [?|[_ [[p Hpd]|(h & Eh & _)]]]; [done|by destruct (Hp _ _ _ Hpd)|congruence]. }
  destruct s as [[nx hd tl] ps c pd pp ch]. simpl in *. subst ch c.
  destruct (decide (hd = sentinel)) as [->|Hh].
  - rewrite filter_cons_False by naive_solver. destruct t as [|x [|y t]].
    + injection I3 as <-. exists 3%nat. unfold mpsc_step, mpsc_pop. simpl. rewrite I4. simpl. rewrite !decide_True by done.
      eexists. split_and!; [lia|done|done|by rewrite app_nil_r].
    + injection I3 as <-. assert (x <> sentinel) as Hx by (apply NoDup_cons in I1 as [I1 _]; set_solver).
      destruct (solo_last nx ps pd pp x Hx I4) as (s' & Es & H1 & H2). exists 10%nat, s'.
      change (replicate 10 Consumer) with (replicate 4 Consumer ++ replicate 6 Consumer). rewrite run_app.
      assert (solo 4 (MSys (Mpsc nx sentinel x) ps CStart pd pp [sentinel; x])
        = Some (MSys (Mpsc nx x x) ps (CNode x None) pd pp [x])) as ->.
      { unfold mpsc_step, mpsc_pop. simpl. rewrite (Hl sentinel x) by by exists [], []. simpl. rewrite decide_True by done.
        simpl. by rewrite I4. }
      split_and!; [lia|exact Es|done|]. by rewrite filter_cons_True.
    + assert (x <> sentinel) as Hx by (apply NoDup_cons in I1 as [I1 _]; set_solver). exists 5%nat. unfold mpsc_step, mpsc_pop. simpl.
      rewrite (Hl sentinel x) by by exists [], (y :: t). simpl. rewrite decide_True by done. simpl.
      rewrite (Hl x y) by by exists [sentinel], t. simpl. eexists. split_and!; [lia|done|done|]. by rewrite filter_cons_True.
  - rewrite filter_cons_True by done. destruct t as [|y t].
    + injection I3 as <-. destruct (solo_last nx ps pd pp hd Hh I4) as (s' & Es & H1 & H2). exists 9%nat, s'.
      change (replicate 9 Consumer) with (replicate 3 Consumer ++ replicate 6 Consumer). rewrite run_app.
      assert (solo 3 (MSys (Mpsc nx hd hd) ps CStart pd pp [hd]) = Some (MSys (Mpsc nx hd hd) ps (CNode hd None) pd pp [hd])) as ->.
      { unfold mpsc_step, mpsc_pop. simpl. rewrite I4. simpl. by rewrite decide_False by done. }
      split_and!; [lia|exact Es|done|done].
    + exists 4%nat. unfold mpsc_step, mpsc_pop. simpl. rewrite (Hl hd y) by by exists [], t. simpl. rewrite decide_False by done. simpl.
      eexists. by split_and!; [lia|..].
Qed.
End mpsc.

(** Two producers racing; the one that exchanges first links last. *)
Definition mpsc_demo : list mpsc_label :=
  [MPush 1 5%positive; MPush 2 6%positive; Producer 2; Producer 1; Producer 1; Producer 2; MPop].
Lemma mpsc_correct_witness :
  exists s, run (mpsc_step 1%positive) mpsc_demo (mpsc_start 1%positive ∅) = Some s
    /\ pushed s = [6; 5]%positive
    /\ pushed s = popped s ++ filter (fun n => n <> 1%positive) (chain s).
Proof.
  eexists. split; [vm_compute; reflexivity|]. split; [reflexivity|].
  refine (proj1 (mpsc_correct 1%positive ∅ _ (ex_intro _ mpsc_demo _))). vm_compute. reflexivity.
Defined.
Definition mpsc_demo_end : mpsc_sys :=
  default (mpsc_start 1%positive ∅) (run (mpsc_step 1%positive) mpsc_demo (mpsc_start 1%positive ∅)).
Lemma mpsc_pop_returns_witness :
  exists n s', run (mpsc_step 1%positive) (replicate n Consumer) mpsc_demo_end = Some s' /\ popped s' = [6]%positive.
Proof.
  destruct (mpsc_pop_returns 1%positive ∅ mpsc_demo_end) as (n & s' & _ & E & _ & Hp).
  - exists mpsc_demo. vm_compute. reflexivity.
  - vm_compute. reflexivity.
  - intros p a b. vm_compute. discriminate.
  - exists n, s'. split; [exact E|]. rewrite Hp. vm_compute. reflexivity.
Defined.
