(* ===== verification/Aes.v ===== *)
(** * AES-256, the block cipher (src/crypto/aes256/tiny-AES-c/aes.c)

    The cipher as the code computes it, on the 16 bytes of a block ([state[i][j]] is
    byte [4 * i + j]) and the 240 bytes of round keys, and the cipher of FIPS 197 it
    is proved to be.  The build enables AES256, CBC, CTR and ECB. *)

From Stdlib Require Import Btauto.
From S2P Require Import Prelude.

Definition Nb : nat := 4.
Definition Nk : nat := 8.
Definition Nr : nat := 14.

Definition sbox : list Z :=
  [0x63; 0x7c; 0x77; 0x7b; 0xf2; 0x6b; 0x6f; 0xc5; 0x30; 0x01; 0x67; 0x2b; 0xfe; 0xd7; 0xab; 0x76]
  ++ [0xca; 0x82; 0xc9; 0x7d; 0xfa; 0x59; 0x47; 0xf0; 0xad; 0xd4; 0xa2; 0xaf; 0x9c; 0xa4; 0x72; 0xc0]
  ++ [0xb7; 0xfd; 0x93; 0x26; 0x36; 0x3f; 0xf7; 0xcc; 0x34; 0xa5; 0xe5; 0xf1; 0x71; 0xd8; 0x31; 0x15]
  ++ [0x04; 0xc7; 0x23; 0xc3; 0x18; 0x96; 0x05; 0x9a; 0x07; 0x12; 0x80; 0xe2; 0xeb; 0x27; 0xb2; 0x75]
  ++ [0x09; 0x83; 0x2c; 0x1a; 0x1b; 0x6e; 0x5a; 0xa0; 0x52; 0x3b; 0xd6; 0xb3; 0x29; 0xe3; 0x2f; 0x84]
  ++ [0x53; 0xd1; 0x00; 0xed; 0x20; 0xfc; 0xb1; 0x5b; 0x6a; 0xcb; 0xbe; 0x39; 0x4a; 0x4c; 0x58; 0xcf]
  ++ [0xd0; 0xef; 0xaa; 0xfb; 0x43; 0x4d; 0x33; 0x85; 0x45; 0xf9; 0x02; 0x7f; 0x50; 0x3c; 0x9f; 0xa8]
  ++ [0x51; 0xa3; 0x40; 0x8f; 0x92; 0x9d; 0x38; 0xf5; 0xbc; 0xb6; 0xda; 0x21; 0x10; 0xff; 0xf3; 0xd2]
  ++ [0xcd; 0x0c; 0x13; 0xec; 0x5f; 0x97; 0x44; 0x17; 0xc4; 0xa7; 0x7e; 0x3d; 0x64; 0x5d; 0x19; 0x73]
  ++ [0x60; 0x81; 0x4f; 0xdc; 0x22; 0x2a; 0x90; 0x88; 0x46; 0xee; 0xb8; 0x14; 0xde; 0x5e; 0x0b; 0xdb]
  ++ [0xe0; 0x32; 0x3a; 0x0a; 0x49; 0x06; 0x24; 0x5c; 0xc2; 0xd3; 0xac; 0x62; 0x91; 0x95; 0xe4; 0x79]
  ++ [0xe7; 0xc8; 0x37; 0x6d; 0x8d; 0xd5; 0x4e; 0xa9; 0x6c; 0x56; 0xf4; 0xea; 0x65; 0x7a; 0xae; 0x08]
  ++ [0xba; 0x78; 0x25; 0x2e; 0x1c; 0xa6; 0xb4; 0xc6; 0xe8; 0xdd; 0x74; 0x1f; 0x4b; 0xbd; 0x8b; 0x8a]
  ++ [0x70; 0x3e; 0xb5; 0x66; 0x48; 0x03; 0xf6; 0x0e; 0x61; 0x35; 0x57; 0xb9; 0x86; 0xc1; 0x1d; 0x9e]
  ++ [0xe1; 0xf8; 0x98; 0x11; 0x69; 0xd9; 0x8e; 0x94; 0x9b; 0x1e; 0x87; 0xe9; 0xce; 0x55; 0x28; 0xdf]
  ++ [0x8c; 0xa1; 0x89; 0x0d; 0xbf; 0xe6; 0x42; 0x68; 0x41; 0x99; 0x2d; 0x0f; 0xb0; 0x54; 0xbb; 0x16].
Definition rsbox : list Z :=
  [0x52; 0x09; 0x6a; 0xd5; 0x30; 0x36; 0xa5; 0x38; 0xbf; 0x40; 0xa3; 0x9e; 0x81; 0xf3; 0xd7; 0xfb]
  ++ [0x7c; 0xe3; 0x39; 0x82; 0x9b; 0x2f; 0xff; 0x87; 0x34; 0x8e; 0x43; 0x44; 0xc4; 0xde; 0xe9; 0xcb]
  ++ [0x54; 0x7b; 0x94; 0x32; 0xa6; 0xc2; 0x23; 0x3d; 0xee; 0x4c; 0x95; 0x0b; 0x42; 0xfa; 0xc3; 0x4e]
  ++ [0x08; 0x2e; 0xa1; 0x66; 0x28; 0xd9; 0x24; 0xb2; 0x76; 0x5b; 0xa2; 0x49; 0x6d; 0x8b; 0xd1; 0x25]
  ++ [0x72; 0xf8; 0xf6; 0x64; 0x86; 0x68; 0x98; 0x16; 0xd4; 0xa4; 0x5c; 0xcc; 0x5d; 0x65; 0xb6; 0x92]
  ++ [0x6c; 0x70; 0x48; 0x50; 0xfd; 0xed; 0xb9; 0xda; 0x5e; 0x15; 0x46; 0x57; 0xa7; 0x8d; 0x9d; 0x84]
  ++ [0x90; 0xd8; 0xab; 0x00; 0x8c; 0xbc; 0xd3; 0x0a; 0xf7; 0xe4; 0x58; 0x05; 0xb8; 0xb3; 0x45; 0x06]
  ++ [0xd0; 0x2c; 0x1e; 0x8f; 0xca; 0x3f; 0x0f; 0x02; 0xc1; 0xaf; 0xbd; 0x03; 0x01; 0x13; 0x8a; 0x6b]
  ++ [0x3a; 0x91; 0x11; 0x41; 0x4f; 0x67; 0xdc; 0xea; 0x97; 0xf2; 0xcf; 0xce; 0xf0; 0xb4; 0xe6; 0x73]
  ++ [0x96; 0xac; 0x74; 0x22; 0xe7; 0xad; 0x35; 0x85; 0xe2; 0xf9; 0x37; 0xe8; 0x1c; 0x75; 0xdf; 0x6e]
  ++ [0x47; 0xf1; 0x1a; 0x71; 0x1d; 0x29; 0xc5; 0x89; 0x6f; 0xb7; 0x62; 0x0e; 0xaa; 0x18; 0xbe; 0x1b]
  ++ [0xfc; 0x56; 0x3e; 0x4b; 0xc6; 0xd2; 0x79; 0x20; 0x9a; 0xdb; 0xc0; 0xfe; 0x78; 0xcd; 0x5a; 0xf4]
  ++ [0x1f; 0xdd; 0xa8; 0x33; 0x88; 0x07; 0xc7; 0x31; 0xb1; 0x12; 0x10; 0x59; 0x27; 0x80; 0xec; 0x5f]
  ++ [0x60; 0x51; 0x7f; 0xa9; 0x19; 0xb5; 0x4a; 0x0d; 0x2d; 0xe5; 0x7a; 0x9f; 0x93; 0xc9; 0x9c; 0xef]
  ++ [0xa0; 0xe0; 0x3b; 0x4d; 0xae; 0x2a; 0xf5; 0xb0; 0xc8; 0xeb; 0xbb; 0x3c; 0x83; 0x53; 0x99; 0x61]
  ++ [0x17; 0x2b; 0x04; 0x7e; 0xba; 0x77; 0xd6; 0x26; 0xe1; 0x69; 0x14; 0x63; 0x55; 0x21; 0x0c; 0x7d].
Definition Rcon : list Z := [0x8d; 0x01; 0x02; 0x04; 0x08; 0x10; 0x20; 0x40; 0x80; 0x1b; 0x36].

Definition getSBoxValue (num : Z) : Z := nth (Z.to_nat num) sbox 0.
Definition getSBoxInvert (num : Z) : Z := nth (Z.to_nat num) rsbox 0.

(** The body of the second loop of [KeyExpansion]: the four bytes of word [i]. *)
Definition key_word (RoundKey : list Z) (i : nat) : list Z :=
  let k := ((i - 1) * 4)%nat in
  let tempa := [nth k RoundKey 0; nth (k + 1) RoundKey 0; nth (k + 2) RoundKey 0; nth (k + 3) RoundKey 0] in
  let tempa :=
    if (i mod Nk =? 0)%nat then
      let rot := [nth 1 tempa 0; nth 2 tempa 0; nth 3 tempa 0; nth 0 tempa 0] in
      let sub := map getSBoxValue rot in
      [Z.lxor (nth 0 sub 0) (nth (i / Nk) Rcon 0); nth 1 sub 0; nth 2 sub 0; nth 3 sub 0]
    else tempa in
  let tempa := if (i mod Nk =? 4)%nat then map getSBoxValue tempa else tempa in
  let k := ((i - Nk) * 4)%nat in
  [Z.lxor (nth k RoundKey 0) (nth 0 tempa 0); Z.lxor (nth (k + 1) RoundKey 0) (nth 1 tempa 0);
   Z.lxor (nth (k + 2) RoundKey 0) (nth 2 tempa 0); Z.lxor (nth (k + 3) RoundKey 0) (nth 3 tempa 0)].

(** [n] turns of that loop from [i] on; the array filled so far. *)
Fixpoint key_loop (n i : nat) (RoundKey : list Z) : list Z :=
  match n with
  | O => RoundKey
  | S n => key_loop n (S i) (RoundKey ++ key_word RoundKey i)
  end.
Definition KeyExpansion (Key : list Z) : list Z :=
  key_loop (Nb * (Nr + 1) - Nk) Nk (take (Nk * 4) Key).

Definition AddRoundKey (round : nat) (state RoundKey : list Z) : list Z :=
  map (fun i => Z.lxor (nth i state 0) (nth (round * Nb * 4 + i) RoundKey 0)) (seq 0 16).

Definition SubBytes (state : list Z) : list Z := map getSBoxValue state.
Definition InvSubBytes (state : list Z) : list Z := map getSBoxInvert state.

(** The assignments of [ShiftRows] and [InvShiftRows], by the byte that ends up in
    each place. *)
Definition ShiftRows (state : list Z) : list Z :=
  map (fun i => nth i state 0) [0; 5; 10; 15;  4; 9; 14; 3;  8; 13; 2; 7;  12; 1; 6; 11]%nat.
Definition InvShiftRows (state : list Z) : list Z :=
  map (fun i => nth i state 0) [0; 13; 10; 7;  4; 1; 14; 11;  8; 5; 2; 15;  12; 9; 6; 3]%nat.

Definition xtime (x : Z) : Z := u8 (Z.lxor (Z.shiftl x 1) (Z.land (Z.shiftr x 7) 1 * 0x1b)).

Definition mix_column (s : list Z) : list Z :=
  let s0 := nth 0 s 0 in let s1 := nth 1 s 0 in let s2 := nth 2 s 0 in let s3 := nth 3 s 0 in
  let t := s0 in
  let Tmp := Z.lxor (Z.lxor (Z.lxor s0 s1) s2) s3 in
  let Tm := xtime (Z.lxor s0 s1) in let s0 := Z.lxor s0 (Z.lxor Tm Tmp) in
  let Tm := xtime (Z.lxor s1 s2) in let s1 := Z.lxor s1 (Z.lxor Tm Tmp) in
  let Tm := xtime (Z.lxor s2 s3) in let s2 := Z.lxor s2 (Z.lxor Tm Tmp) in
  let Tm := xtime (Z.lxor s3 t) in let s3 := Z.lxor s3 (Z.lxor Tm Tmp) in
  [s0; s1; s2; s3].

Definition Multiply (x y : Z) : Z :=
  Z.lxor (Z.lxor (Z.lxor (Z.lxor (Z.land y 1 * x)
    (Z.land (Z.shiftr y 1) 1 * xtime x))
    (Z.land (Z.shiftr y 2) 1 * xtime (xtime x)))
    (Z.land (Z.shiftr y 3) 1 * xtime (xtime (xtime x))))
    (Z.land (Z.shiftr y 4) 1 * xtime (xtime (xtime (xtime x)))).

Definition inv_mix_column (s : list Z) : list Z :=
  let a := nth 0 s 0 in let b := nth 1 s 0 in let c := nth 2 s 0 in let d := nth 3 s 0 in
  let x4 p q r s := u8 (Z.lxor (Z.lxor (Z.lxor p q) r) s) in
  [x4 (Multiply a 0x0e) (Multiply b 0x0b) (Multiply c 0x0d) (Multiply d 0x09);
   x4 (Multiply a 0x09) (Multiply b 0x0e) (Multiply c 0x0b) (Multiply d 0x0d);
   x4 (Multiply a 0x0d) (Multiply b 0x09) (Multiply c 0x0e) (Multiply d 0x0b);
   x4 (Multiply a 0x0b) (Multiply b 0x0d) (Multiply c 0x09) (Multiply d 0x0e)].

(** The loops over the four columns. *)
Definition columns (f : list Z -> list Z) (state : list Z) : list Z :=
  f (take 4 state) ++ f (take 4 (drop 4 state)) ++ f (take 4 (drop 8 state)) ++ f (take 4 (drop 12 state)).
Definition MixColumns (state : list Z) : list Z := columns mix_column state.
Definition InvMixColumns (state : list Z) : list Z := columns inv_mix_column state.

(** The loop of [Cipher]: [n] rounds before the last, from [round] on. *)
Fixpoint cipher_loop (n round : nat) (state RoundKey : list Z) : list Z :=
  let state := ShiftRows (SubBytes state) in
  match n with
  | O => state
  | S n => cipher_loop n (S round) (AddRoundKey round (MixColumns state) RoundKey) RoundKey
  end.
Definition Cipher (state RoundKey : list Z) : list Z :=
  let state := AddRoundKey 0 state RoundKey in
  let state := cipher_loop (Nr - 1) 1 state RoundKey in
  AddRoundKey Nr state RoundKey.

(** The loop of [InvCipher], counting [round] down to zero. *)
Fixpoint inv_cipher_loop (round : nat) (state RoundKey : list Z) : list Z :=
  let state := AddRoundKey round (InvSubBytes (InvShiftRows state)) RoundKey in
  match round with
  | O => state
  | S round => inv_cipher_loop round (InvMixColumns state) RoundKey
  end.
Definition InvCipher (state RoundKey : list Z) : list Z :=
  let state := AddRoundKey Nr state RoundKey in
  inv_cipher_loop (Nr - 1) state RoundKey.

(** ** Arithmetic of the field *)

(** Equalities of exclusive ors. *)
Ltac xor_solve := apply Z.bits_inj'; intros ? ?; rewrite ?Z.lxor_spec, ?Z.bits_0; btauto.

Ltac elementwise t := repeat (apply (f_equal2 cons); [t|]); reflexivity.

(** A statement on one byte, or on two, by evaluation. *)
Lemma byte_check (f : Z -> bool) : forallbZ 256 f = true -> forall x, byte x -> f x = true.
Proof. intros H x Hx. apply (forallbZ_spec 256 f H). unfold byte in Hx. lia. Qed.
Lemma byte_check2 (f : Z -> Z -> bool) : forallbZ 256 (fun x => forallbZ 256 (f x)) = true ->
  forall x y, byte x -> byte y -> f x y = true.
Proof.
  intros H x y Hx Hy. apply (byte_check (f x)); [|done]. by apply (byte_check (fun x => forallbZ 256 (f x))).
Qed.

Lemma xtime_byte x : byte (xtime x).
Proof. apply u8_byte. Qed.
Lemma xtime_xor x y : byte x -> byte y -> xtime (Z.lxor x y) = Z.lxor (xtime x) (xtime y).
Proof.
  intros Hx Hy. apply Z.eqb_eq.
  apply (byte_check2 (fun x y => xtime (Z.lxor x y) =? Z.lxor (xtime x) (xtime y))); [vm_compute; reflexivity|done..].
Qed.

Lemma land_1 b : Z.land b 1 = b mod 2.
Proof. apply (land_ones_mod b 1). lia. Qed.

(** The factors used are constants below 16. *)
Lemma multiply_xor y x x' : 0 <= y < 16 -> byte x -> byte x' ->
  Multiply (Z.lxor x x') y = Z.lxor (Multiply x y) (Multiply x' y).
Proof.
  intros Hy Hx Hx'. unfold Multiply.
  rewrite !xtime_xor by (repeat apply xtime_byte || done).
  assert (forall b u v, 0 <= b < 2 -> b * Z.lxor u v = Z.lxor (b * u) (b * v)) as Hd.
  { intros b u v Hb. assert (b = 0 \/ b = 1) as [->| ->] by lia; [done|by rewrite !Z.mul_1_l]. }
  rewrite !Hd by (rewrite land_1; apply Z.mod_pos_bound; lia). xor_solve.
Qed.
Lemma multiply_byte y x : 0 <= y < 16 -> byte x -> byte (Multiply x y).
Proof.
  intros Hy Hx. unfold Multiply.
  assert (forall b u, byte u -> byte (Z.land b 1 * u)) as Hb.
  { intros b u Hu. rewrite land_1. pose proof (Z.mod_pos_bound b 2).
    assert (b mod 2 = 0 \/ b mod 2 = 1) as [->| ->] by lia; [by rewrite Z.mul_0_l|by rewrite Z.mul_1_l]. }
  repeat apply lxor_byte; apply Hb; done || apply xtime_byte.
Qed.

(** ** Mixing columns *)

(** One entry of a mixed column, and of an unmixed one; the others are rotations. *)
Definition mixc (a b c d : Z) : Z := Z.lxor (Z.lxor (Z.lxor (xtime a) (Z.lxor (xtime b) b)) c) d.
Definition invc (a b c d : Z) : Z :=
  Z.lxor (Z.lxor (Z.lxor (Multiply a 0x0e) (Multiply b 0x0b)) (Multiply c 0x0d)) (Multiply d 0x09).

Lemma xor4_byte p q r s : byte p -> byte q -> byte r -> byte s -> byte (Z.lxor (Z.lxor (Z.lxor p q) r) s).
Proof. intros. by repeat apply lxor_byte. Qed.
Lemma mixc_byte a b c d : byte a -> byte b -> byte c -> byte d -> byte (mixc a b c d).
Proof. intros. unfold mixc. repeat apply lxor_byte; done || apply xtime_byte. Qed.
Lemma mix_column_eq a b c d : byte a -> byte b -> byte c -> byte d ->
  mix_column [a; b; c; d] = [mixc a b c d; mixc b c d a; mixc c d a b; mixc d a b c].
Proof.
  intros. unfold mix_column, mixc. cbn [nth]. rewrite !xtime_xor by done.
  elementwise ltac:(xor_solve).
Qed.
Lemma inv_mix_column_eq a b c d : byte a -> byte b -> byte c -> byte d ->
  inv_mix_column [a; b; c; d] = [invc a b c d; invc b c d a; invc c d a b; invc d a b c].
Proof.
  intros Ha Hb Hc Hd. unfold inv_mix_column, invc. cbn [nth].
  rewrite !uwrap_small by (apply xor4_byte; apply multiply_byte; done || lia).
  elementwise ltac:(xor_solve).
Qed.

(** The coefficient of each byte in an unmixed mixed column: one, and zero. *)
Lemma unmix_coeffs x : byte x ->
  let m := Multiply in let x2 := xtime x in let x3 := Z.lxor (xtime x) x in
  Z.lxor (Z.lxor (Z.lxor (m x2 0x0e) (m x 0x0b)) (m x 0x0d)) (m x3 0x09) = x
  /\ Z.lxor (Z.lxor (Z.lxor (m x3 0x0e) (m x2 0x0b)) (m x 0x0d)) (m x 0x09) = 0
  /\ Z.lxor (Z.lxor (Z.lxor (m x 0x0e) (m x3 0x0b)) (m x2 0x0d)) (m x 0x09) = 0
  /\ Z.lxor (Z.lxor (Z.lxor (m x 0x0e) (m x 0x0b)) (m x3 0x0d)) (m x2 0x09) = 0.
Proof.
  intros Hx m x2 x3. rewrite <-!Z.eqb_eq. subst m x2 x3.
  split_and!; [apply (byte_check (fun x => Z.lxor (Z.lxor (Z.lxor (Multiply (xtime x) 0x0e) (Multiply x 0x0b)) (Multiply x 0x0d)) (Multiply (Z.lxor (xtime x) x) 0x09) =? x))
  |apply (byte_check (fun x => Z.lxor (Z.lxor (Z.lxor (Multiply (Z.lxor (xtime x) x) 0x0e) (Multiply (xtime x) 0x0b)) (Multiply x 0x0d)) (Multiply x 0x09) =? 0))
  |apply (byte_check (fun x => Z.lxor (Z.lxor (Z.lxor (Multiply x 0x0e) (Multiply (Z.lxor (xtime x) x) 0x0b)) (Multiply (xtime x) 0x0d)) (Multiply x 0x09) =? 0))
  |apply (byte_check (fun x => Z.lxor (Z.lxor (Z.lxor (Multiply x 0x0e) (Multiply x 0x0b)) (Multiply (Z.lxor (xtime x) x) 0x0d)) (Multiply (xtime x) 0x09) =? 0))];
  try done; vm_compute; reflexivity.
Qed.

Lemma multiply_mixc y a b c d : 0 <= y < 16 -> byte a -> byte b -> byte c -> byte d ->
  Multiply (mixc a b c d) y
  = Z.lxor (Z.lxor (Z.lxor (Multiply (xtime a) y) (Multiply (Z.lxor (xtime b) b) y)) (Multiply c y)) (Multiply d y).
Proof.
  intros Hy Ha Hb Hc Hd. unfold mixc. pose proof (xtime_byte a). pose proof (lxor_byte b (xtime b) Hb (xtime_byte b)).
  assert (byte (Z.lxor (xtime a) (Z.lxor (xtime b) b))) by by apply lxor_byte.
  rewrite (multiply_xor y (Z.lxor (Z.lxor (xtime a) (Z.lxor (xtime b) b)) c) d); [|done|by apply lxor_byte|done].
  by rewrite (multiply_xor y (Z.lxor (xtime a) _) c), (multiply_xor y (xtime a)).
Qed.
Lemma invc_mixc a b c d : byte a -> byte b -> byte c -> byte d ->
  invc (mixc a b c d) (mixc b c d a) (mixc c d a b) (mixc d a b c) = a.
Proof.
  intros Ha Hb Hc Hd. unfold invc. rewrite !multiply_mixc by (done || lia).
  destruct (unmix_coeffs a Ha) as (A & _ & _ & _). destruct (unmix_coeffs b Hb) as (_ & B & _ & _).
  destruct (unmix_coeffs c Hc) as (_ & _ & C & _). destruct (unmix_coeffs d Hd) as (_ & _ & _ & D). cbv zeta in *.
  match type of A with ?ga = _ => match type of B with ?gb = _ => match type of C with ?gc = _ =>
    match type of D with ?gd = _ => transitivity (Z.lxor (Z.lxor (Z.lxor ga gb) gc) gd); [xor_solve|] end end end end.
  by rewrite A, B, C, D, !Z.lxor_0_r.
Qed.

(** ** Decryption undoes encryption *)

Definition block (st : list Z) : Prop := length st = 16%nat /\ Forall byte st.

(** A block as its sixteen bytes. *)
Ltac open_block st H :=
  destruct H as [? H]; do 16 (destruct st as [|? st]; [done|]); destruct st; [|done]; rewrite !Forall_cons in H;
  destruct H as (? & ? & ? & ? & ? & ? & ? & ? & ? & ? & ? & ? & ? & ? & ? & ? & _).

Lemma sbox_byte x : byte (getSBoxValue x).
Proof. apply nth_byte. apply (bool_decide_unpack _). vm_compute. exact I. Qed.
Lemma inv_sub x : byte x -> getSBoxInvert (getSBoxValue x) = x.
Proof.
  intros Hx. apply Z.eqb_eq. apply (byte_check (fun x => getSBoxInvert (getSBoxValue x) =? x)); [vm_compute; reflexivity|done].
Qed.

Lemma sub_block st : block st -> block (SubBytes st).
Proof.
  intros [Hl Hb]. split; [unfold SubBytes; by rewrite length_map|]. apply Forall_map. eapply Forall_impl; [exact Hb|].
  intros x _. apply sbox_byte.
Qed.
Lemma shift_block st : block st -> block (ShiftRows st).
Proof. intros [Hl Hb]. split; [done|]. apply Forall_map. repeat constructor; by apply nth_byte. Qed.
Lemma mix_block st : block st -> block (MixColumns st).
Proof.
  intros H. open_block st H. unfold MixColumns, columns. cbn [take drop]. rewrite !mix_column_eq by done.
  split; [done|]. cbn [app]. repeat (constructor; [by apply mixc_byte|]). constructor.
Qed.
Lemma add_block r st rk : Forall byte rk -> block st -> block (AddRoundKey r st rk).
Proof.
  intros Hk [Hl Hb]. split; [done|]. apply Forall_map, Forall_forall. intros i _. apply lxor_byte; by apply nth_byte.
Qed.

Lemma inv_shift_shift st : block st -> InvShiftRows (ShiftRows st) = st.
Proof. intros H. by open_block st H. Qed.
Lemma inv_sub_sub st : block st -> InvSubBytes (SubBytes st) = st.
Proof.
  intros [_ Hb]. unfold InvSubBytes, SubBytes. rewrite map_map. rewrite <-(map_id st) at 2.
  apply map_ext_Forall. eapply Forall_impl; [exact Hb|]. intros x Hx. by apply inv_sub.
Qed.
Lemma inv_mix_mix st : block st -> InvMixColumns (MixColumns st) = st.
Proof.
  intros H. open_block st H. unfold InvMixColumns, MixColumns, columns. cbn [take drop].
  rewrite !mix_column_eq by done. cbn [app take drop].
  rewrite !inv_mix_column_eq by by apply mixc_byte. by rewrite !invc_mixc.
Qed.
Lemma add_add r st rk : block st -> AddRoundKey r (AddRoundKey r st rk) rk = st.
Proof.
  intros H. assert (forall x k, Z.lxor (Z.lxor x k) k = x) as Hx by (intros; by rewrite Z.lxor_assoc, Z.lxor_nilpotent, Z.lxor_0_r).
  open_block st H. unfold AddRoundKey. generalize (r * Nb * 4)%nat as o. intros o. cbn [seq map nth]. by rewrite !Hx.
Qed.

Lemma cipher_loop_S n r st rk :
  cipher_loop (S n) r st rk = cipher_loop n (S r) (AddRoundKey r (MixColumns (ShiftRows (SubBytes st))) rk) rk.
Proof. reflexivity. Qed.
Lemma inv_cipher_loop_S r st rk :
  inv_cipher_loop (S r) st rk
  = inv_cipher_loop r (InvMixColumns (AddRoundKey (S r) (InvSubBytes (InvShiftRows st)) rk)) rk.
Proof. reflexivity. Qed.
Lemma inv_cipher_loop_0 st rk : inv_cipher_loop 0 st rk = AddRoundKey 0 (InvSubBytes (InvShiftRows st)) rk.
Proof. reflexivity. Qed.
#[local] Opaque AddRoundKey MixColumns InvMixColumns ShiftRows InvShiftRows SubBytes InvSubBytes.

Lemma inv_rounds rk n : Forall byte rk -> forall r st, block st ->
  inv_cipher_loop (r + n) (cipher_loop n (S r) st rk) rk = inv_cipher_loop r (ShiftRows (SubBytes st)) rk.
Proof.
  intros Hk. induction n as [|n IH]; intros r st Hst; [by rewrite Nat.add_0_r|].
  rewrite cipher_loop_S. pose proof (shift_block _ (sub_block _ Hst)) as H1. pose proof (mix_block _ H1) as H2.
  pose proof (add_block (S r) _ rk Hk H2) as H3. replace (r + S n)%nat with (S r + n)%nat by lia.
  rewrite IH by done. rewrite inv_cipher_loop_S.
  by rewrite inv_shift_shift, inv_sub_sub, add_add, inv_mix_mix by (done || by apply sub_block).
Qed.

Lemma inv_cipher st rk : Forall byte rk -> block st -> InvCipher (Cipher st rk) rk = st.
Proof.
  intros Hk Hst. unfold InvCipher, Cipher. pose proof (add_block 0 st rk Hk Hst) as H0.
  assert (forall n r st, block st -> block (cipher_loop n r st rk)) as Hloop.
  { induction n as [|n IH]; intros r st' H; [by apply shift_block, sub_block|]. rewrite cipher_loop_S.
    apply IH, add_block, mix_block, shift_block, sub_block; done. }
  rewrite add_add by by apply Hloop. change (Nr - 1)%nat with (0 + 13)%nat at 1. rewrite inv_rounds by done.
  rewrite inv_cipher_loop_0. by rewrite inv_shift_shift, inv_sub_sub, add_add by (done || by apply sub_block).
Qed.
#[local] Transparent AddRoundKey MixColumns InvMixColumns ShiftRows InvShiftRows SubBytes InvSubBytes.

(** ** FIPS 197 *)

(** Multiplication by x, and of two elements, modulo x^8 + x^4 + x^3 + x + 1. *)
Definition xt (x : Z) : Z := if 2 * x <? 256 then 2 * x else Z.lxor (2 * x) 0x11b.
Fixpoint gmul (n : nat) (x y : Z) : Z :=
  match n with
  | O => 0
  | S n => Z.lxor (if Z.odd y then x else 0) (gmul n (xt x) (y / 2))
  end.
Definition mul : Z -> Z -> Z := gmul 8.
(** The inverse as the 254th power. *)
Definition inverse (x : Z) : Z :=
  let x2 := mul x x in let x4 := mul x2 x2 in let x8 := mul x4 x4 in let x16 := mul x8 x8 in
  let x32 := mul x16 x16 in let x64 := mul x32 x32 in let x128 := mul x64 x64 in
  mul x2 (mul x4 (mul x8 (mul x16 (mul x32 (mul x64 x128))))).
(** The affine map of the S-box, bit by bit. *)
Definition affine (b : Z) : Z :=
  foldr (fun i acc => 2 * acc + Z.b2z (xorb (xorb (xorb (xorb (xorb (Z.testbit b i) (Z.testbit b ((i + 4) mod 8)))
    (Z.testbit b ((i + 5) mod 8))) (Z.testbit b ((i + 6) mod 8))) (Z.testbit b ((i + 7) mod 8))) (Z.testbit 0x63 i)))
    0 [0; 1; 2; 3; 4; 5; 6; 7].
Definition fips_S (x : Z) : Z := affine (inverse x).

(** States by row and column; the steps of the cipher. *)
Definition fstate := nat -> nat -> Z.
Definition fips_sub (s : fstate) : fstate := fun r c => fips_S (s r c).
Definition fips_shift (s : fstate) : fstate := fun r c => s r ((c + r) mod 4)%nat.
Definition fips_mix (s : fstate) : fstate := fun r c =>
  Z.lxor (Z.lxor (Z.lxor (mul (s r c) 2) (mul (s ((r + 1) mod 4)%nat c) 3)) (s ((r + 2) mod 4)%nat c)) (s ((r + 3) mod 4)%nat c).
Definition fips_add (w : nat -> list Z) (round : nat) (s : fstate) : fstate := fun r c =>
  Z.lxor (s r c) (nth r (w (4 * round + c)%nat) 0).

(** The key schedule. *)
Fixpoint fips_Rcon (j : nat) : Z := match j with O => 1 | S j => xt (fips_Rcon j) end.
Definition xor_words (a b : list Z) : list Z := zip_with Z.lxor a b.
Fixpoint fips_w (fuel : nat) (key : list Z) (i : nat) : list Z :=
  match fuel with
  | O => []
  | S fuel =>
      if (i <? 8)%nat then take 4 (drop (4 * i) key)
      else
        let temp := fips_w fuel key (i - 1) in
        let temp :=
          if (i mod 8 =? 0)%nat then xor_words (map fips_S (drop 1 temp ++ take 1 temp)) [fips_Rcon (i / 8 - 1); 0; 0; 0]
          else if (i mod 8 =? 4)%nat then map fips_S temp else temp in
        xor_words (fips_w fuel key (i - 8)) temp
  end.

Fixpoint fips_rounds (n round : nat) (w : nat -> list Z) (s : fstate) : fstate :=
  match n with
  | O => fips_shift (fips_sub s)
  | S n => fips_rounds n (S round) w (fips_add w round (fips_mix (fips_shift (fips_sub s))))
  end.
Definition bytes_of (s : fstate) : list Z := map (fun i => s (i mod 4) (i / 4))%nat (seq 0 16).
Definition fips197 (key input : list Z) : list Z :=
  let w i := fips_w (S i) key i in
  let s := fips_add w 0 (fun r c => nth (r + 4 * c) input 0) in
  bytes_of (fips_add w 14 (fips_rounds 13 1 w s)).

(** *** The steps agree *)

Lemma sbox_fips x : byte x -> getSBoxValue x = fips_S x.
Proof.
  intros Hx. apply Z.eqb_eq. apply (byte_check (fun x => getSBoxValue x =? fips_S x)); [vm_compute; reflexivity|done].
Qed.
Lemma mul_fips x : byte x -> mul x 2 = xtime x /\ mul x 3 = Z.lxor (xtime x) x.
Proof.
  intros Hx. rewrite <-!Z.eqb_eq.
  split; [apply (byte_check (fun x => mul x 2 =? xtime x))|apply (byte_check (fun x => mul x 3 =? Z.lxor (xtime x) x))];
    done || (vm_compute; reflexivity).
Qed.

Definition fbytes (s : fstate) : Prop := forall r c, byte (s r c).

Lemma sub_ok s : fbytes s -> SubBytes (bytes_of s) = bytes_of (fips_sub s) /\ fbytes (fips_sub s).
Proof.
  intros Hs. split.
  - unfold SubBytes, bytes_of. rewrite map_map. apply map_ext. intros i. by apply sbox_fips.
  - intros r c. unfold fips_sub. rewrite <-sbox_fips by done. apply sbox_byte.
Qed.
Lemma shift_ok s : fbytes s -> ShiftRows (bytes_of s) = bytes_of (fips_shift s) /\ fbytes (fips_shift s).
Proof. intros Hs. split; [reflexivity|]. intros r c. apply Hs. Qed.
Lemma mix_ok s : fbytes s -> MixColumns (bytes_of s) = bytes_of (fips_mix s) /\ fbytes (fips_mix s).
Proof.
  intros Hs. assert (forall r c, fips_mix s r c = mixc (s r c) (s ((r + 1) mod 4)%nat c) (s ((r + 2) mod 4)%nat c) (s ((r + 3) mod 4)%nat c)) as Hm.
  { intros r c. unfold fips_mix, mixc. by rewrite (proj1 (mul_fips _ (Hs _ _))), (proj2 (mul_fips _ (Hs _ _))). }
  split.
  - unfold bytes_of at 2. rewrite (map_ext _ (fun i => mixc (s (i mod 4) (i / 4)) (s ((i mod 4 + 1) mod 4) (i / 4))
      (s ((i mod 4 + 2) mod 4) (i / 4)) (s ((i mod 4 + 3) mod 4) (i / 4)))%nat) by (intros i; apply Hm).
    unfold MixColumns, columns. change (bytes_of s) with (map (fun i => s (i mod 4) (i / 4))%nat (seq 0 16)).
    cbn [seq map take drop]. rewrite !mix_column_eq by done. reflexivity.
  - intros r c. rewrite Hm. by apply mixc_byte.
Qed.

(** *** The key schedules agree *)

Lemma key_word_local rk rk' i : (8 <= i)%nat -> (forall t, (t < 4 * i)%nat -> nth t rk 0 = nth t rk' 0) ->
  key_word rk i = key_word rk' i.
Proof. intros Hi H. unfold key_word, Nk. by rewrite !H by lia. Qed.

Lemma key_loop_length n : forall i rk, length (key_loop n i rk) = (length rk + 4 * n)%nat.
Proof. induction n as [|n IH]; intros i rk; simpl; [lia|]. rewrite IH, length_app. simpl. lia. Qed.
Lemma key_loop_prefix n : forall i rk t, (t < length rk)%nat -> nth t (key_loop n i rk) 0 = nth t rk 0.
Proof.
  induction n as [|n IH]; intros i rk t Ht; simpl; [done|]. rewrite IH by (rewrite length_app; lia). by apply app_nth1.
Qed.
Lemma key_loop_word n : forall i rk t, (8 <= i)%nat -> length rk = (4 * i)%nat -> (i <= t < i + n)%nat ->
  forall j, (j < 4)%nat -> nth (4 * t + j) (key_loop n i rk) 0 = nth j (key_word (key_loop n i rk) t) 0.
Proof.
  induction n as [|n IH]; intros i rk t Hi Hl Ht j Hj; cbn [key_loop]; [lia|].
  assert (length (key_word rk i) = 4%nat) as Hw by done.
  destruct (decide (t = i)) as [->|].
  - rewrite key_loop_prefix by (rewrite length_app, Hl, Hw; lia). rewrite app_nth2 by lia.
    replace (4 * i + j - length rk)%nat with j by lia. f_equal. apply key_word_local; [done|]. intros t Ht'.
    rewrite key_loop_prefix by (rewrite length_app, Hl, Hw; lia). symmetry. apply app_nth1. lia.
  - apply IH; [lia|rewrite length_app, Hw; lia|lia|done].
Qed.

Lemma rcon_ok j : (1 <= j <= 7)%nat -> nth j Rcon 0 = fips_Rcon (j - 1).
Proof. intros Hj. destruct j as [|[|[|[|[|[|[|[|]]]]]]]]; try lia; reflexivity. Qed.

(** Four bytes of the expanded key as a word. *)
Definition word_at (rk : list Z) (i : nat) : list Z :=
  [nth (4 * i) rk 0; nth (4 * i + 1) rk 0; nth (4 * i + 2) rk 0; nth (4 * i + 3) rk 0].
Lemma word_at_bytes rk i : Forall byte rk -> Forall byte (word_at rk i).
Proof. intros H. repeat constructor; by apply nth_byte. Qed.

Lemma key_word_spec rk i : (8 <= i < 60)%nat -> Forall byte (word_at rk (i - 1)) -> length (word_at rk (i - 8)) = 4%nat ->
  key_word rk i = xor_words (word_at rk (i - 8))
    (if (i mod 8 =? 0)%nat then
       xor_words (map fips_S (drop 1 (word_at rk (i - 1)) ++ take 1 (word_at rk (i - 1)))) [fips_Rcon (i / 8 - 1); 0; 0; 0]
     else if (i mod 8 =? 4)%nat then map fips_S (word_at rk (i - 1)) else word_at rk (i - 1)).
Proof.
  intros Hi Hb _. unfold key_word, word_at in *. rewrite !(Nat.mul_comm _ 4).
  rewrite !Forall_cons in Hb. destruct Hb as (H0 & H1 & H2 & H3 & _).
  set (x0 := nth (4 * (i - 1)) rk 0) in *. set (x1 := nth (4 * (i - 1) + 1) rk 0) in *.
  set (x2 := nth (4 * (i - 1) + 2) rk 0) in *. set (x3 := nth (4 * (i - 1) + 3) rk 0) in *.
  assert (i / 8 < 8)%nat by (apply Nat.Div0.div_lt_upper_bound; lia). assert (1 <= i / 8)%nat by (apply Nat.div_le_lower_bound; lia).
  unfold Nk in *. clearbody x0 x1 x2 x3. destruct (Nat.eqb_spec (i mod 8) 0) as [E|E].
  - rewrite E. cbn [Nat.eqb map nth drop take app xor_words zip_with]. rewrite rcon_ok, !sbox_fips by (done || lia).
    by rewrite !Z.lxor_0_r.
  - destruct (i mod 8 =? 4)%nat; cbn [map nth xor_words zip_with]; by rewrite ?sbox_fips.
Qed.

Lemma key_word_byte rk i : Forall byte rk -> Forall byte (key_word rk i).
Proof.
  intros H. unfold key_word. set (k1 := ((i - 1) * 4)%nat). set (k2 := ((i - Nk) * 4)%nat).
  assert (forall t, Forall byte t -> forall j, byte (nth j t 0)) as Hn by (intros; by apply nth_byte).
  assert (Forall byte Rcon) as Hr by (apply (bool_decide_unpack _); vm_compute; exact I).
  repeat constructor; (apply lxor_byte; [|by apply Hn]); apply Hn;
    destruct (_ =? 4)%nat, (_ =? 0)%nat; cbn [map nth];
    repeat (constructor; [first [apply sbox_byte | by apply Hn | apply lxor_byte; [apply sbox_byte|by apply Hn]
      | apply lxor_byte; [by apply Hn|apply sbox_byte]]|]); constructor.
Qed.
Lemma key_bytes n : forall i rk, Forall byte rk -> Forall byte (key_loop n i rk).
Proof.
  induction n as [|n IH]; intros i rk H; simpl; [done|]. apply IH, Forall_app. split; [done|by apply key_word_byte].
Qed.

Lemma expansion_ok key : length key = 32%nat -> Forall byte key ->
  forall i fuel, (i < fuel)%nat -> (i < 60)%nat -> word_at (KeyExpansion key) i = fips_w fuel key i.
Proof.
  intros Hl Hb i. induction (lt_wf i) as [i _ IH]. intros [|fuel] Hf Hi; [lia|]. cbn [fips_w].
  assert (Forall byte (KeyExpansion key)) as Hk by exact (key_bytes _ _ _ (Forall_take _ _ _ Hb)).
  assert (length (take (Nk * 4) key) = 32%nat) as Ht by (rewrite length_take, Hl; done).
  destruct (Nat.ltb_spec i 8) as [H8|H8].
  - unfold word_at, KeyExpansion. rewrite !key_loop_prefix by (rewrite Ht; lia). rewrite take_ge by (rewrite Hl; done).
    do 32 (destruct key as [|? key]; [done|]). destruct key; [|done].
    destruct i as [|[|[|[|[|[|[|[|]]]]]]]]; try lia; reflexivity.
  - assert (word_at (KeyExpansion key) i = key_word (KeyExpansion key) i) as ->.
    { assert (forall j, (j < 4)%nat -> nth (4 * i + j) (KeyExpansion key) 0 = nth j (key_word (KeyExpansion key) i) 0) as Hw.
      { intros j Hj. apply (key_loop_word 52 8 (take (Nk * 4) key) i); [lia|exact Ht|lia|exact Hj]. }
      unfold word_at. rewrite <-(Nat.add_0_r (4 * i)) at 1. rewrite !Hw by lia. reflexivity. }
    rewrite key_word_spec by (done || lia || by apply word_at_bytes).
    by rewrite <-(IH (i - 8)%nat ltac:(lia) fuel), <-(IH (i - 1)%nat ltac:(lia) fuel) by lia.
Qed.

(** *** The ciphers agree *)

Lemma affine_byte b : byte (affine b).
Proof.
  unfold affine. cbn [foldr]. assert (forall v, 0 <= Z.b2z v <= 1) as Hb by (intros []; simpl; lia).
  repeat match goal with |- context [Z.b2z ?v] => let H := fresh in pose proof (Hb v) as H; revert H; generalize (Z.b2z v); intros ? H end.
  unfold byte. lia.
Qed.
Lemma fips_Rcon_byte j : byte (fips_Rcon j).
Proof.
  induction j as [|j IH]; [done|]. cbn [fips_Rcon].
  assert ((0 <=? xt (fips_Rcon j)) && (xt (fips_Rcon j) <? 256) = true) as H.
  { apply (byte_check (fun x => (0 <=? xt x) && (xt x <? 256))); [vm_compute; reflexivity|done]. }
  unfold byte. lia.
Qed.
Lemma xor_words_bytes a b : Forall byte a -> Forall byte b -> Forall byte (xor_words a b).
Proof.
  intros Ha. revert b. induction Ha as [|x a Hx Ha IH]; intros [|y b] Hb; try constructor.
  - apply Forall_cons in Hb as [Hy _]. by apply lxor_byte.
  - apply Forall_cons in Hb as [_ Hb]. by apply IH.
Qed.
Lemma fips_w_bytes fuel key i : Forall byte key -> Forall byte (fips_w fuel key i).
Proof.
  intros Hk. revert i. induction fuel as [|fuel IH]; intros i; cbn [fips_w]; [done|].
  assert (forall l, Forall byte (map fips_S l)) as Hm by (intros l; apply Forall_map, Forall_forall; intros x _; apply affine_byte).
  destruct (i <? 8)%nat; [by apply Forall_take, Forall_drop|].
  apply xor_words_bytes; [done|]. destruct (_ =? 0)%nat; [|by destruct (_ =? 4)%nat].
  apply xor_words_bytes; [apply Hm|]. apply Forall_cons. split; [apply fips_Rcon_byte|].
  apply (bool_decide_unpack _). exact I.
Qed.

Lemma bytes_of_nth s i : (i < 16)%nat -> nth i (bytes_of s) 0 = s (i mod 4)%nat (i / 4)%nat.
Proof.
  intros Hi. do 16 (destruct i as [|i]; [reflexivity|]). lia.
Qed.
Lemma word_at_nth rk i j : (j < 4)%nat -> nth (4 * i + j) rk 0 = nth j (word_at rk i) 0.
Proof.
  intros Hj. unfold word_at. generalize (4 * i)%nat. intros o.
  destruct j as [|[|[|[|]]]]; cbn [nth]; [by rewrite Nat.add_0_r|done..|lia].
Qed.
#[local] Opaque KeyExpansion fips_w.

Section cipher.
Context (key : list Z) (Hkey : Forall byte key) (Hlen : length key = 32%nat).
Notation w := (fun i => fips_w (S i) key i).
Notation rk := (KeyExpansion key).

Lemma add_ok r s : (r <= 14)%nat -> fbytes s ->
  AddRoundKey r (bytes_of s) rk = bytes_of (fips_add w r s) /\ fbytes (fips_add w r s).
Proof.
  intros Hr Hs. split.
  - unfold AddRoundKey. apply map_ext_in. intros i Hi%in_seq. rewrite bytes_of_nth by lia. unfold fips_add.
    pose proof (Nat.div_mod_eq i 4). pose proof (Nat.mod_upper_bound i 4).
    assert (i / 4 < 4)%nat by (apply Nat.Div0.div_lt_upper_bound; lia).
    f_equal. rewrite <-(expansion_ok key Hlen Hkey (4 * r + i / 4) (S (4 * r + i / 4))) by lia.
    rewrite <-word_at_nth by lia. f_equal. unfold Nb. lia.
  - intros r' c. unfold fips_add. apply lxor_byte; [|apply Hs]. by apply nth_byte, fips_w_bytes.
Qed.

Lemma aes_rounds_ok n : forall r s, (r + n <= 14)%nat -> fbytes s ->
  cipher_loop n r (bytes_of s) rk = bytes_of (fips_rounds n r w s) /\ fbytes (fips_rounds n r w s).
Proof.
  induction n as [|n IH]; intros r s Hr Hs; destruct (sub_ok s Hs) as [E1 H1]; destruct (shift_ok _ H1) as [E2 H2].
  - cbn [cipher_loop fips_rounds]. rewrite E1, E2. split; [reflexivity|exact H2].
  - rewrite cipher_loop_S, E1, E2. cbn [fips_rounds]. destruct (mix_ok _ H2) as [-> H3].
    destruct (add_ok r _ ltac:(lia) H3) as [-> H4]. apply IH; [lia|done].
Qed.

Lemma cipher_fips input : block input -> Cipher input rk = fips197 key input.
Proof.
  intros Hin. assert (input = bytes_of (fun r c => nth (r + 4 * c) input 0)) as E.
  { open_block input Hin. reflexivity. }
  assert (fbytes (fun r c => nth (r + 4 * c) input 0)) as Hs by (intros r c; apply nth_byte, Hin).
  unfold Cipher. rewrite E at 1. destruct (add_ok 0 _ ltac:(lia) Hs) as [-> H0].
  destruct (aes_rounds_ok 13 1 _ ltac:(lia) H0) as [E1 H1]. change (Nr - 1)%nat with 13%nat. rewrite E1.
  apply (add_ok 14 _ ltac:(lia) H1).
Qed.
End cipher.

#[local] Transparent KeyExpansion fips_w.

(** ** The interface of the block cipher *)

Record AES_ctx := AesCtx { RoundKey : list Z; Iv : list Z }.

Definition AES_init_ctx (ctx : AES_ctx) (key : list Z) : AES_ctx := AesCtx (KeyExpansion key) (Iv ctx).
Definition AES_init_ctx_iv (ctx : AES_ctx) (key iv : list Z) : AES_ctx := AesCtx (KeyExpansion key) (take 16 iv).
Definition AES_ctx_set_iv (ctx : AES_ctx) (iv : list Z) : AES_ctx := AesCtx (RoundKey ctx) (take 16 iv).

Definition AES_ECB_encrypt (ctx : AES_ctx) (buf : list Z) : list Z := Cipher buf (RoundKey ctx).
Definition AES_ECB_decrypt (ctx : AES_ctx) (buf : list Z) : list Z := InvCipher buf (RoundKey ctx).

Lemma expansion_bytes key : Forall byte key -> Forall byte (KeyExpansion key).
Proof. intros H. exact (key_bytes _ _ _ (Forall_take _ _ _ H)). Qed.
Lemma cipher_block st rk : Forall byte rk -> block st -> block (Cipher st rk).
Proof.
  intros Hk Hst. assert (forall n r st, block st -> block (cipher_loop n r st rk)) as Hloop.
  { induction n as [|n IH]; intros r st' H; [by apply shift_block, sub_block|]. rewrite cipher_loop_S.
    apply IH, add_block, mix_block, shift_block, sub_block; done. }
  unfold Cipher. by apply add_block, Hloop, add_block.
Qed.

(** C14 AES-256: for every key and block the code encrypts to what FIPS 197 defines
    (S-box as inverse and affine map in GF(2^8), key schedule and fourteen rounds
    as the standard gives them), and decryption with the same key returns the
    block. *)
Theorem aes256_correct ctx key buf : length key = 32%nat -> Forall byte key -> block buf ->
  let c := AES_init_ctx ctx key in
  AES_ECB_encrypt c buf = fips197 key buf /\ AES_ECB_decrypt c (AES_ECB_encrypt c buf) = buf.
Proof.
  intros Hl Hk Hb c. split; [by apply cipher_fips|]. apply inv_cipher; [by apply expansion_bytes|done].
Qed.

(** The example of FIPS 197, appendix C.3. *)
Definition ex_key : list Z := map Z.of_nat (seq 0 32).
Definition ex_plain : list Z := map (fun i => 0x11 * Z.of_nat i) (seq 0 16).
Lemma aes256_correct_witness :
  AES_ECB_encrypt (AES_init_ctx (AesCtx [] []) ex_key) ex_plain = fips197 ex_key ex_plain
  /\ AES_ECB_encrypt (AES_init_ctx (AesCtx [] []) ex_key) ex_plain
     = [0x8e; 0xa2; 0xb7; 0xca; 0x51; 0x67; 0x45; 0xbf; 0xea; 0xfc; 0x49; 0x90; 0x4b; 0x49; 0x60; 0x89].
Proof.
  split; [|vm_compute; reflexivity].
  assert (Forall byte ex_key) as Hk by (apply (bool_decide_unpack _); vm_compute; exact I).
  assert (block ex_plain) as Hb by (split; [reflexivity|]; apply (bool_decide_unpack _); vm_compute; exact I).
  exact (proj1 (aes256_correct (AesCtx [] []) ex_key ex_plain eq_refl Hk Hb)).
Defined.
