(* ===== verification/AesModes.v ===== *)
(** * CBC and CTR modes and the interface over them
      (src/crypto/aes256/tiny-AES-c/aes.c, src/crypto/aes256/xylem-aes256.c)

    The random initialisation vector is an argument.  A destination buffer is the list
    of the bytes written to it; a call that returns -1 is [None]; a call that returns a
    count gives the bytes and the count as the [int] it is converted to. *)

From S2P Require Import Prelude Aes.

(** ** CTR *)

(** The increment of the counter from byte [n - 1] down, with carry. *)
Fixpoint ctr_increment (n : nat) (iv : list Z) : list Z :=
  match n with
  | O => iv
  | S bi => if nth bi iv 0 =? 255 then ctr_increment bi (<[bi := 0]> iv) else <[bi := u8 (nth bi iv 0 + 1)]> iv
  end.

(** The loop of [AES_CTR_xcrypt_buffer], with its locals [buffer] and [bi]. *)
Fixpoint ctr_loop (rk iv buffer : list Z) (bi : nat) (buf : list Z) : list Z * list Z :=
  match buf with
  | [] => ([], iv)
  | b :: rest =>
      let '(iv, buffer, bi) :=
        if (bi =? 16)%nat then (ctr_increment 16 iv, Cipher iv rk, 0%nat) else (iv, buffer, bi) in
      let '(out, iv') := ctr_loop rk iv buffer (S bi) rest in
      (Z.lxor b (nth bi buffer 0) :: out, iv')
  end.
Definition AES_CTR_xcrypt_buffer (ctx : AES_ctx) (buf : list Z) : list Z * AES_ctx :=
  let '(out, iv) := ctr_loop (RoundKey ctx) (Iv ctx) [] 16 buf in
  (out, AesCtx (RoundKey ctx) iv).

(** ** CBC *)

Definition XorWithIv (buf iv : list Z) : list Z := zip_with Z.lxor buf iv.

(** The loops over [n] blocks; the length of the buffer is a multiple of 16, as the
    contract of the functions asks. *)
Fixpoint cbc_encrypt_loop (n : nat) (rk iv buf : list Z) : list Z * list Z :=
  match n with
  | O => ([], iv)
  | S n =>
      let c := Cipher (XorWithIv (take 16 buf) iv) rk in
      let '(out, iv') := cbc_encrypt_loop n rk c (drop 16 buf) in
      (c ++ out, iv')
  end.
Definition AES_CBC_encrypt_buffer (ctx : AES_ctx) (buf : list Z) : list Z * AES_ctx :=
  let '(out, iv) := cbc_encrypt_loop (length buf / 16) (RoundKey ctx) (Iv ctx) buf in
  (out, AesCtx (RoundKey ctx) iv).

Fixpoint cbc_decrypt_loop (n : nat) (rk iv buf : list Z) : list Z * list Z :=
  match n with
  | O => ([], iv)
  | S n =>
      let storeNextIv := take 16 buf in
      let p := XorWithIv (InvCipher (take 16 buf) rk) iv in
      let '(out, iv') := cbc_decrypt_loop n rk storeNextIv (drop 16 buf) in
      (p ++ out, iv')
  end.
Definition AES_CBC_decrypt_buffer (ctx : AES_ctx) (buf : list Z) : list Z * AES_ctx :=
  let '(out, iv) := cbc_decrypt_loop (length buf / 16) (RoundKey ctx) (Iv ctx) buf in
  (out, AesCtx (RoundKey ctx) iv).

(** ** xylem-aes256.c *)

Definition AES256_IV_SIZE : Z := 16.
Definition AES256_BLOCK_SIZE : Z := 16.

Record xylem_aes256_t := XAes { aes : AES_ctx; xkey : list Z }.

Definition xylem_aes256_ctr_encrypt_size (len : Z) : Z := u64 (AES256_IV_SIZE + len).
Definition xylem_aes256_ctr_decrypt_size (len : Z) : Z := if len <? AES256_IV_SIZE then 0 else len - AES256_IV_SIZE.
Definition xylem_aes256_cbc_encrypt_size (len : Z) : Z :=
  let pad := AES256_BLOCK_SIZE - len mod AES256_BLOCK_SIZE in
  u64 (u64 (AES256_IV_SIZE + len) + pad).
Definition xylem_aes256_cbc_decrypt_size (len : Z) : Z :=
  if len <? AES256_IV_SIZE + AES256_BLOCK_SIZE then 0 else len - AES256_IV_SIZE.

Definition xylem_aes256_create (calloc_ok : bool) (key : list Z) : option xylem_aes256_t :=
  if calloc_ok then Some (XAes (AES_init_ctx (AesCtx (replicate 240 0) (replicate 16 0)) key) (take 32 key)) else None.

(** [ctx] or [dst] null is [None]; otherwise [dlen] is the size of the destination. *)
Definition xylem_aes256_ctr_encrypt (iv : list Z) (ctx : option xylem_aes256_t) (src : list Z) (dst : option Z)
    : option (list Z * Z * xylem_aes256_t) :=
  match ctx, dst with
  | Some ctx, Some dlen =>
      let need := xylem_aes256_ctr_encrypt_size (Z.of_nat (length src)) in
      if dlen <? need then None
      else
        let aes := AES_init_ctx_iv (aes ctx) (xkey ctx) iv in
        let '(out, aes) := AES_CTR_xcrypt_buffer aes src in
        Some (iv ++ out, i32 need, XAes aes (xkey ctx))
  | _, _ => None
  end.

Definition xylem_aes256_ctr_decrypt (ctx : option xylem_aes256_t) (src : list Z) (dst : option Z)
    : option (list Z * Z * xylem_aes256_t) :=
  match ctx, dst with
  | Some ctx, Some dlen =>
      let slen := Z.of_nat (length src) in
      if slen <? AES256_IV_SIZE then None
      else
        let ct_len := slen - AES256_IV_SIZE in
        if dlen <? ct_len then None
        else
          let aes := AES_init_ctx_iv (aes ctx) (xkey ctx) src in
          let '(out, aes) := AES_CTR_xcrypt_buffer aes (drop 16 src) in
          Some (out, i32 ct_len, XAes aes (xkey ctx))
  | _, _ => None
  end.

Definition xylem_aes256_cbc_encrypt (iv : list Z) (ctx : option xylem_aes256_t) (src : list Z) (dst : option Z)
    : option (list Z * Z * xylem_aes256_t) :=
  match ctx, dst with
  | Some ctx, Some dlen =>
      let slen := Z.of_nat (length src) in
      let need := xylem_aes256_cbc_encrypt_size slen in
      if dlen <? need then None
      else
        let pad_val := u8 (AES256_BLOCK_SIZE - slen mod AES256_BLOCK_SIZE) in
        let padded := src ++ replicate (Z.to_nat pad_val) pad_val in
        let aes := AES_init_ctx_iv (aes ctx) (xkey ctx) iv in
        let '(out, aes) := AES_CBC_encrypt_buffer aes padded in
        Some (iv ++ out, i32 need, XAes aes (xkey ctx))
  | _, _ => None
  end.

(** The loop over the last [pad_val] bytes. *)
Definition padding_ok (dst : list Z) (pad_val : Z) : bool :=
  forallb (fun i => nth (length dst - 1 - i) dst 0 =? pad_val) (seq 0 (Z.to_nat pad_val)).

(** On success all of the decrypted bytes are in the destination and the count is
    that of the bytes before the padding. *)
Definition xylem_aes256_cbc_decrypt (ctx : option xylem_aes256_t) (src : list Z) (dst : option Z)
    : option (list Z * Z * xylem_aes256_t) :=
  match ctx, dst with
  | Some ctx, Some dlen =>
      let slen := Z.of_nat (length src) in
      let ct_len := u64 (slen - AES256_IV_SIZE) in
      if (slen <? AES256_IV_SIZE + AES256_BLOCK_SIZE) || negb (ct_len mod AES256_BLOCK_SIZE =? 0) then None
      else if dlen <? ct_len then None
      else
        let aes := AES_init_ctx_iv (aes ctx) (xkey ctx) src in
        let '(out, aes) := AES_CBC_decrypt_buffer aes (drop 16 src) in
        let pad_val := nth (Z.to_nat (ct_len - 1)) out 0 in
        if (pad_val =? 0) || (AES256_BLOCK_SIZE <? pad_val) then None
        else if padding_ok out pad_val then Some (out, i32 (ct_len - pad_val), XAes aes (xkey ctx))
        else None
  | _, _ => None
  end.

#[local] Opaque Cipher InvCipher KeyExpansion ctr_increment.

(** ** The counter *)

(** Big-endian value of a list of bytes. *)
Definition be_value (l : list Z) : Z := foldl (fun a b => a * 256 + b) 0 l.
Lemma be_value_snoc l b : be_value (l ++ [b]) = be_value l * 256 + b.
Proof. unfold be_value. by rewrite foldl_snoc. Qed.

Lemma be_value_bound l : Forall byte l -> 0 <= be_value l < 256 ^ Z.of_nat (length l).
Proof.
  induction l as [|x l IH] using rev_ind; intros Hb; [by unfold be_value|].
  apply Forall_app in Hb as [Hl Hx]. rewrite Forall_singleton in Hx. specialize (IH Hl). unfold byte in Hx.
  rewrite be_value_snoc, length_app, Nat2Z.inj_add, Z.pow_add_r by lia.
  change (256 ^ Z.of_nat (length [x])) with 256. nia.
Qed.

Lemma ctr_increment_S n iv :
  ctr_increment (S n) iv = if nth n iv 0 =? 255 then ctr_increment n (<[n := 0]> iv) else <[n := u8 (nth n iv 0 + 1)]> iv.
Proof. reflexivity. Qed.

Lemma ctr_increment_ok pre : forall post, Forall byte pre ->
  exists pre', ctr_increment (length pre) (pre ++ post) = pre' ++ post /\ length pre' = length pre /\ Forall byte pre'
    /\ be_value pre' = (be_value pre + 1) mod 256 ^ Z.of_nat (length pre).
Proof.
  induction pre as [|x pre IH] using rev_ind; intros post Hb; [exists []; split_and!; try done; by rewrite Z.mod_1_r|].
  apply Forall_app in Hb as [Hp Hx]. rewrite Forall_singleton in Hx. pose proof (be_value_bound pre Hp) as Hv. unfold byte in Hx.
  rewrite length_app, Nat.add_1_r, be_value_snoc, <-app_assoc. cbn [app]. rewrite ctr_increment_S.
  rewrite Nat2Z.inj_succ, Z.pow_succ_r by lia. set (P := 256 ^ Z.of_nat (length pre)) in *.
  assert (forall y, <[length pre := y]> (pre ++ x :: post) = pre ++ y :: post) as Hins.
  { intros y. rewrite <-(Nat.add_0_r (length pre)). by rewrite insert_app_r. }
  rewrite nth_middle, !Hins. destruct (Z.eqb_spec x 255) as [->|Hne].
  - destruct (IH (0 :: post) Hp) as (pre' & -> & Hl & Hb' & E). exists (pre' ++ [0]). split_and!.
    + by rewrite <-app_assoc.
    + rewrite length_app. simpl. lia.
    + apply Forall_app. split; [done|by apply Forall_singleton].
    + rewrite be_value_snoc, E. replace (be_value pre * 256 + 255 + 1) with ((be_value pre + 1) * 256) by lia.
      rewrite (Z.mul_comm 256 P), Z.mul_mod_distr_r by lia. lia.
  - exists (pre ++ [x + 1]). rewrite (uwrap_small 8) by (unfold ubound; lia). split_and!.
    + by rewrite <-app_assoc.
    + rewrite length_app. simpl. lia.
    + apply Forall_app. split; [done|]. apply Forall_singleton. unfold byte. lia.
    + rewrite be_value_snoc. symmetry. rewrite Z.mod_small; lia.
Qed.

(** The [k]-th counter block. *)
Definition counter (iv : list Z) (k : nat) : list Z := Nat.iter k (ctr_increment 16) iv.
Lemma counter_ok iv k : block iv ->
  block (counter iv k) /\ be_value (counter iv k) = (be_value iv + Z.of_nat k) mod 2 ^ 128.
Proof.
  intros Hiv. induction k as [|k [[Hl Hb] IH]].
  - split; [done|]. simpl. rewrite Z.add_0_r. symmetry. apply Z.mod_small. destruct Hiv as [Hl Hb].
    pose proof (be_value_bound iv Hb) as H. by rewrite Hl in H.
  - change (counter iv (S k)) with (ctr_increment 16 (counter iv k)). destruct (ctr_increment_ok (counter iv k) [] Hb) as (c' & E & Hl' & Hb' & Hv).
    rewrite app_nil_r, app_nil_r, Hl in E. rewrite Hl in Hv, Hl'. rewrite E. split; [done|].
    change (256 ^ Z.of_nat 16) with (2 ^ 128) in Hv. rewrite Hv, IH, Zplus_mod_idemp_l. f_equal. lia.
Qed.

(** ** CTR: what is xored to byte [i], and the same stream both ways *)

Lemma ctr_loop_spec rk buf : forall iv buffer bi, (bi <= 16)%nat ->
  forall i, (i < length buf)%nat ->
  nth i (fst (ctr_loop rk iv buffer bi buf)) 0 = Z.lxor (nth i buf 0)
    (if (bi + i <? 16)%nat then nth (bi + i) buffer 0
     else nth ((bi + i) mod 16) (Cipher (counter iv ((bi + i) / 16 - 1)) rk) 0).
Proof.
  induction buf as [|x buf IH]; intros iv buffer bi Hbi i Hi; simpl in Hi; [lia|]. cbn [ctr_loop].
  destruct (Nat.eqb_spec bi 16) as [->|Hne].
  - specialize (IH (ctr_increment 16 iv) (Cipher iv rk) 1%nat ltac:(lia)). destruct (ctr_loop _ _ _ 1 buf) as [out iv']. cbn [fst] in *.
    destruct i as [|i]; cbn [nth]; [reflexivity|]. rewrite IH by lia. destruct (Nat.ltb_spec (16 + S i) 16); [lia|].
    replace (16 + S i)%nat with (1 + i + 1 * 16)%nat by lia. rewrite Nat.Div0.mod_add, Nat.div_add, Nat.add_sub by lia.
    f_equal. destruct (Nat.ltb_spec (1 + i) 16).
    + by rewrite Nat.mod_small, Nat.div_small by lia.
    + unfold counter. rewrite Nat.iter_swap, <-Nat.iter_succ. repeat f_equal.
      assert (1 <= (1 + i) / 16)%nat by (apply Nat.div_le_lower_bound; lia). lia.
  - specialize (IH iv buffer (S bi) ltac:(lia)). destruct (ctr_loop _ _ _ (S bi) buf) as [out iv']. cbn [fst] in *.
    destruct i as [|i]; cbn [nth].
    + rewrite Nat.add_0_r. by destruct (Nat.ltb_spec bi 16); [|lia].
    + rewrite IH by lia. by replace (S bi + i)%nat with (bi + S i)%nat by lia.
Qed.
Lemma ctr_loop_twice rk buf : forall iv buffer bi,
  fst (ctr_loop rk iv buffer bi (fst (ctr_loop rk iv buffer bi buf))) = buf
  /\ length (fst (ctr_loop rk iv buffer bi buf)) = length buf.
Proof.
  assert (forall x k, Z.lxor (Z.lxor x k) k = x) as Hx by (intros; by rewrite Z.lxor_assoc, Z.lxor_nilpotent, Z.lxor_0_r).
  induction buf as [|x buf IH]; intros iv buffer bi; [done|]. cbn [ctr_loop].
  destruct (Nat.eqb_spec bi 16) as [->|Hne].
  - destruct (IH (ctr_increment 16 iv) (Cipher iv rk) 1%nat) as [H1 H2].
    destruct (ctr_loop _ _ _ 1 buf) as [out iv'] eqn:E. cbn [fst] in *. cbn [ctr_loop Nat.eqb].
    destruct (ctr_loop _ _ _ 1 out) as [out' iv'']. cbn [fst] in *. by rewrite Hx, H1, !length_cons, H2.
  - destruct (IH iv buffer (S bi)) as [H1 H2].
    destruct (ctr_loop _ _ _ (S bi) buf) as [out iv'] eqn:E. cbn [fst] in *. cbn [ctr_loop].
    destruct (Nat.eqb_spec bi 16); [done|].
    destruct (ctr_loop _ _ _ (S bi) out) as [out' iv'']. cbn [fst] in *. by rewrite Hx, H1, !length_cons, H2.
Qed.

(** ** CBC *)

Lemma xor_block a b : block a -> block b -> block (XorWithIv a b).
Proof.
  intros [Ha1 Ha2] [Hb1 Hb2]. split; [unfold XorWithIv; rewrite length_zip_with_l by lia; done|].
  by apply xor_words_bytes.
Qed.
Lemma xor_twice a b : length a = length b -> XorWithIv (XorWithIv a b) b = a.
Proof.
  unfold XorWithIv. revert b. induction a as [|x a IH]; intros [|y b] Hl; try done. simpl in *.
  rewrite Z.lxor_assoc, Z.lxor_nilpotent, Z.lxor_0_r, IH by lia. done.
Qed.

Section cbc.
Context (rk : list Z) (Hrk : Forall byte rk).

(** The chain: each block of the output is the cipher of the block xored with the
    block before, and decryption takes the chain apart. *)
Lemma cbc_loop_ok n : forall iv buf, block iv -> length buf = (16 * n)%nat -> Forall byte buf ->
  let out := fst (cbc_encrypt_loop n rk iv buf) in
  length out = (16 * n)%nat /\ Forall byte out /\ fst (cbc_decrypt_loop n rk iv out) = buf
  /\ forall j, (j < n)%nat -> take 16 (drop (16 * j) out)
       = Cipher (XorWithIv (take 16 (drop (16 * j) buf)) (take 16 (drop (16 * j) (iv ++ out)))) rk.
Proof.
  induction n as [|n IH]; intros iv buf Hiv Hl Hb; cbn [cbc_encrypt_loop].
  { destruct buf; [|done]. split_and!; try done. lia. }
  assert (block (take 16 buf)) as Ht by (split; [rewrite length_take; lia|by apply Forall_take]).
  pose proof (cipher_block _ rk Hrk (xor_block _ _ Ht Hiv)) as Hc. set (c := Cipher _ rk) in *.
  destruct (IH c (drop 16 buf) Hc) as (H1 & H2 & H3 & H4); [rewrite length_drop; lia|by apply Forall_drop|].
  destruct (cbc_encrypt_loop n rk c (drop 16 buf)) as [out iv']. cbn [fst] in *. cbv zeta in *.
  destruct Hc as [Hc1 Hc2]. destruct Hiv as [Hi1 Hi2]. split_and!.
  - rewrite length_app. lia.
  - by apply Forall_app.
  - cbn [cbc_decrypt_loop]. rewrite take_app_length', drop_app_length' by done.
    destruct (cbc_decrypt_loop n rk c out) as [p iv'']. cbn [fst] in *. rewrite H3.
    unfold c. rewrite inv_cipher by (done || by apply xor_block). rewrite xor_twice by (destruct Ht; lia). by rewrite take_drop.
  - intros [|j] Hj.
    + rewrite Nat.mul_0_r, !drop_0. rewrite (take_app_length' c), (take_app_length' iv) by done. done.
    + replace (16 * S j)%nat with (16 + 16 * j)%nat by lia. rewrite <-!drop_drop.
      rewrite (drop_app_length' c), (drop_app_length' iv) by done. apply H4. lia.
Qed.
End cbc.

(** ** The interface *)

(** C28 CTR mode: encryption stores the initialisation vector and the message, each
    byte xored with the FIPS 197 encryption of the counter block of its position (the
    vector plus the block number, modulo [2^128]); it returns the number of bytes, and
    decryption with the same key returns the message. *)
Theorem aes256_ctr_correct ctx ctx' key iv src dlen dlen' :
  length key = 32%nat -> Forall byte key -> xkey ctx = key -> xkey ctx' = key -> block iv -> Forall byte src ->
  Z.of_nat (length src) + 16 < 2 ^ 31 -> Z.of_nat (length src) + 16 <= dlen -> Z.of_nat (length src) <= dlen' ->
  exists ct ctx1 ctx2,
    xylem_aes256_ctr_encrypt iv (Some ctx) src (Some dlen) = Some (iv ++ ct, Z.of_nat (length src) + 16, ctx1)
    /\ length ct = length src
    /\ (forall i, (i < length src)%nat -> exists blk, block blk
          /\ be_value blk = (be_value iv + Z.of_nat (i / 16)) mod 2 ^ 128
          /\ nth i ct 0 = Z.lxor (nth i src 0) (nth (i mod 16) (fips197 key blk) 0))
    /\ xylem_aes256_ctr_decrypt (Some ctx') (iv ++ ct) (Some dlen') = Some (src, Z.of_nat (length src), ctx2).
Proof.
  intros Hkl Hkb Hctx Hctx' Hiv Hsrc Hlen Hd Hd'. pose proof Hiv as [Hi1 Hi2].
  pose proof (ctr_loop_spec (KeyExpansion key) src iv [] 16 ltac:(lia)) as Hspec.
  destruct (ctr_loop_twice (KeyExpansion key) src iv [] 16) as [Htw Hll].
  destruct (ctr_loop (KeyExpansion key) iv [] 16 src) as [ct iv1] eqn:Ect. cbn [fst] in *.
  destruct (ctr_loop (KeyExpansion key) iv [] 16 ct) as [pt iv2] eqn:Ept. cbn [fst] in *. subst pt.
  eexists ct, _, _. split_and!; [|done| |].
  - unfold xylem_aes256_ctr_encrypt, xylem_aes256_ctr_encrypt_size, AES256_IV_SIZE, AES_CTR_xcrypt_buffer, AES_init_ctx_iv.
    rewrite (uwrap_small 64) by (unfold ubound; lia). destruct (Z.ltb_spec dlen (16 + Z.of_nat (length src))); [lia|].
    cbn [RoundKey Iv]. rewrite Hctx, take_ge by lia. rewrite Ect. rewrite i32_small by lia. do 3 f_equal. lia.
  - intros i Hi. exists (counter iv (i / 16)). destruct (counter_ok iv (i / 16) Hiv) as [Hb Hv]. split_and!; [done..|].
    rewrite Hspec by done. destruct (Nat.ltb_spec (16 + i) 16); [lia|].
    replace (16 + i)%nat with (i + 1 * 16)%nat by lia. rewrite Nat.Div0.mod_add, Nat.div_add, Nat.add_sub by lia.
    by rewrite cipher_fips.
  - unfold xylem_aes256_ctr_decrypt, AES256_IV_SIZE, AES_CTR_xcrypt_buffer, AES_init_ctx_iv.
    rewrite length_app, Hi1, Hll. destruct (Z.ltb_spec (Z.of_nat (16 + length src)) 16); [lia|].
    destruct (Z.ltb_spec dlen' (Z.of_nat (16 + length src) - 16)); [lia|]. cbn [RoundKey Iv].
    rewrite Hctx', take_app_length', drop_app_length' by done. rewrite Ept, i32_small by lia. do 3 f_equal. lia.
Qed.
#[local] Ltac by_eval := apply (bool_decide_unpack _); vm_compute; exact I.
Definition demo_key : list Z := map Z.of_nat (seq 0 32).
Definition demo_iv : list Z := replicate 15 255 ++ [254].
Definition demo_msg : list Z := map Z.of_nat (seq 7 35).
Definition demo_ctx : xylem_aes256_t := default (XAes (AesCtx [] []) []) (xylem_aes256_create true demo_key).

Lemma aes256_ctr_correct_witness : exists ct ctx1 ctx2,
  xylem_aes256_ctr_encrypt demo_iv (Some demo_ctx) demo_msg (Some 51) = Some (demo_iv ++ ct, 51, ctx1)
  /\ xylem_aes256_ctr_decrypt (Some demo_ctx) (demo_iv ++ ct) (Some 35) = Some (demo_msg, 35, ctx2).
Proof.
  destruct (aes256_ctr_correct demo_ctx demo_ctx demo_key demo_iv demo_msg 51 35) as (ct & c1 & c2 & H1 & _ & _ & H2);
    [vm_compute; reflexivity|by_eval|vm_compute; reflexivity|vm_compute; reflexivity
    |split; [vm_compute; reflexivity|by_eval]|by_eval|by_eval|by_eval|by_eval|].
  exists ct, c1, c2. exact (conj H1 H2).
Defined.

(** ** Padding *)

Lemma padding_ok_pad msg v n : (n <= length (msg ++ replicate n v))%nat -> Z.to_nat v = n ->
  padding_ok (msg ++ replicate n v) v = true.
Proof.
  intros Hn Hv. unfold padding_ok. apply forallb_forall. intros i Hi%in_seq. rewrite Hv in Hi.
  rewrite length_app, length_replicate in *. rewrite app_nth2 by lia.
  apply Z.eqb_eq, nth_lookup_Some, lookup_replicate_2. lia.
Qed.
Lemma pad_size l : let pad := AES256_BLOCK_SIZE - Z.of_nat l mod AES256_BLOCK_SIZE in
  u8 pad = pad /\ 1 <= pad <= 16 /\ (16 * Z.to_nat ((Z.of_nat l + pad) / 16) = l + Z.to_nat pad)%nat.
Proof.
  unfold AES256_BLOCK_SIZE. cbv zeta. pose proof (Z.mod_pos_bound (Z.of_nat l) 16).
  pose proof (Z.div_mod (Z.of_nat l) 16). split_and!; [apply uwrap_small; unfold ubound; lia|lia|lia|].
  set (q := Z.of_nat l / 16) in *. set (r := Z.of_nat l mod 16) in *.
  replace ((Z.of_nat l + (16 - r)) / 16) with (q + 1); [lia|]. apply Z.div_unique with 0; lia.
Qed.

Lemma slice_block l j : Forall byte l -> (16 * j + 16 <= length l)%nat -> block (take 16 (drop (16 * j) l)).
Proof. intros Hb Hl. split; [rewrite length_take, length_drop; lia|by apply Forall_take, Forall_drop]. Qed.

(** Decryption of blocks that decrypt to a message and its padding. *)
Lemma cbc_unpad ctx iv ct src pad n iv2 dlen :
  length (xkey ctx) = 32%nat -> length iv = 16%nat -> length ct = (16 * n)%nat -> 1 <= pad <= 16 ->
  let padded := src ++ replicate (Z.to_nat pad) pad in
  length padded = (16 * n)%nat -> cbc_decrypt_loop n (KeyExpansion (xkey ctx)) iv ct = (padded, iv2) ->
  Z.of_nat (length src) + 32 < 2 ^ 31 -> Z.of_nat (length ct) <= dlen ->
  xylem_aes256_cbc_decrypt (Some ctx) (iv ++ ct) (Some dlen)
  = Some (padded, Z.of_nat (length src), XAes (AesCtx (KeyExpansion (xkey ctx)) iv2) (xkey ctx)).
Proof.
  intros Hk Hi Hct Hpad padded Hpl Hdec Hlen Hd.
  assert (Z.of_nat (length src) + pad = Z.of_nat n * 16) as Hn
    by (unfold padded in Hpl; rewrite length_app, length_replicate in Hpl; lia).
  unfold xylem_aes256_cbc_decrypt, AES_CBC_decrypt_buffer, AES_init_ctx_iv, AES256_IV_SIZE. cbn [RoundKey Iv].
  rewrite (take_app_length' iv), (drop_app_length' iv) by done.
  assert (length ct / 16 = n)%nat as -> by (rewrite Hct, Nat.mul_comm; by apply Nat.div_mul).
  rewrite Hdec, length_app, Hi, (uwrap_small 64) by (unfold ubound; lia).
  replace (Z.of_nat (16 + length ct) - 16) with (Z.of_nat n * 16) by lia.
  change AES256_BLOCK_SIZE with 16. rewrite Z.mod_mul, Z.eqb_refl by lia.
  destruct (Z.ltb_spec (Z.of_nat (16 + length ct)) (16 + 16)); [lia|]. cbn [orb negb].
  destruct (Z.ltb_spec dlen (Z.of_nat n * 16)); [lia|].
  assert (nth (Z.to_nat (Z.of_nat n * 16 - 1)) padded 0 = pad) as ->.
  { unfold padded. rewrite app_nth2 by lia. apply nth_lookup_Some, lookup_replicate_2. lia. }
  destruct (Z.eqb_spec pad 0); [lia|]. destruct (Z.ltb_spec 16 pad); [lia|]. cbn [orb].
  unfold padded. rewrite padding_ok_pad, i32_small by (rewrite ?length_app, ?length_replicate; lia).
  do 3 f_equal. lia.
Qed.

(** C27 CBC mode with its padding: encryption appends [16 - len mod 16] bytes of that
    value, stores the initialisation vector and the blocks, each the FIPS 197
    encryption of the block of the padded message xored with the stored block before
    it, and returns the length announced by the size function; decryption with the same
    key accepts the result and returns the message before the padding. *)
Theorem aes256_cbc_correct ctx ctx' key iv src dlen dlen' :
  length key = 32%nat -> Forall byte key -> xkey ctx = key -> xkey ctx' = key -> block iv -> Forall byte src ->
  let need := xylem_aes256_cbc_encrypt_size (Z.of_nat (length src)) in
  Z.of_nat (length src) + 32 < 2 ^ 31 -> need <= dlen -> need - 16 <= dlen' ->
  exists ct pad out ctx1 ctx2,
    1 <= pad <= 16 /\ Z.of_nat (length ct) = Z.of_nat (length src) + pad /\ (length ct mod 16 = 0)%nat
    /\ xylem_aes256_cbc_encrypt iv (Some ctx) src (Some dlen) = Some (iv ++ ct, need, ctx1)
    /\ length (iv ++ ct) = Z.to_nat need
    /\ (forall j, (16 * j < length ct)%nat -> take 16 (drop (16 * j) ct)
          = fips197 key (XorWithIv (take 16 (drop (16 * j) (src ++ replicate (Z.to_nat pad) pad)))
                                   (take 16 (drop (16 * j) (iv ++ ct)))))
    /\ xylem_aes256_cbc_decrypt (Some ctx') (iv ++ ct) (Some dlen') = Some (out, Z.of_nat (length src), ctx2)
    /\ take (length src) out = src.
Proof.
  intros Hkl Hkb Hctx Hctx' Hiv Hsrc need Hlen Hd Hd'. pose proof Hiv as [Hi1 Hi2].
  destruct (pad_size (length src)) as (Hu & Hpad & Hmul).
  assert (need = 16 + Z.of_nat (length src) + (AES256_BLOCK_SIZE - Z.of_nat (length src) mod AES256_BLOCK_SIZE)) as Hneed.
  { unfold need, xylem_aes256_cbc_encrypt_size, AES256_IV_SIZE. rewrite (uwrap_small 64 (16 + _)), uwrap_small; unfold ubound; lia. }
  unfold xylem_aes256_cbc_encrypt. fold need. rewrite Hu.
  set (pad := AES256_BLOCK_SIZE - _) in *. set (n := Z.to_nat ((Z.of_nat (length src) + pad) / 16)) in *.
  set (padded := src ++ replicate (Z.to_nat pad) pad) in *.
  assert (length padded = (16 * n)%nat) as Hpl by (unfold padded; rewrite length_app, length_replicate; lia).
  assert (Forall byte padded) as Hpb by (apply Forall_app; split; [done|apply Forall_replicate; unfold byte; lia]).
  destruct (cbc_loop_ok (KeyExpansion key) ltac:(by apply expansion_bytes) n iv padded Hiv Hpl Hpb) as (H1 & H2 & H3 & H4).
  assert (length padded / 16 = n)%nat as Hdiv by (rewrite Hpl, Nat.mul_comm; by apply Nat.div_mul).
  unfold AES_CBC_encrypt_buffer, AES_init_ctx_iv. cbn [RoundKey Iv]. rewrite Hctx, take_ge, Hdiv by lia.
  destruct (cbc_encrypt_loop n (KeyExpansion key) iv padded) as [ct iv1]. cbn [fst] in *.
  destruct (cbc_decrypt_loop n (KeyExpansion key) iv ct) as [pt iv2] eqn:Edec. cbn [fst] in *. subst pt.
  exists ct, pad, padded, (XAes (AesCtx (KeyExpansion key) iv1) key), (XAes (AesCtx (KeyExpansion key) iv2) key).
  split_and!; [lia|lia|lia|by rewrite H1, Nat.mul_comm, Nat.Div0.mod_mul| | | | |].
  - destruct (Z.ltb_spec dlen need); [lia|]. rewrite i32_small by lia. done.
  - rewrite length_app. lia.
  - intros j Hj. rewrite H4 by lia. apply cipher_fips; [done..|]. apply xor_block; apply slice_block;
      first [done | by apply Forall_app; split | rewrite (length_app iv); lia | fold padded; lia].
  - rewrite <-Hctx' in *. apply (cbc_unpad _ _ _ _ _ n); done || lia.
  - unfold padded. by apply take_app_length.
Qed.
Lemma aes256_cbc_correct_witness : exists ct out ctx1 ctx2,
  xylem_aes256_cbc_encrypt demo_iv (Some demo_ctx) demo_msg (Some 64) = Some (demo_iv ++ ct, 64, ctx1)
  /\ xylem_aes256_cbc_decrypt (Some demo_ctx) (demo_iv ++ ct) (Some 48) = Some (out, 35, ctx2)
  /\ take 35 out = demo_msg.
Proof.
  destruct (aes256_cbc_correct demo_ctx demo_ctx demo_key demo_iv demo_msg 64 48)
    as (ct & pad & out & c1 & c2 & _ & _ & _ & H1 & _ & _ & H2 & H3);
    [vm_compute; reflexivity|by_eval|vm_compute; reflexivity|vm_compute; reflexivity
    |split; [vm_compute; reflexivity|by_eval]|by_eval|by_eval|by_eval|by_eval|].
  exists ct, out, c1, c2. exact (conj H1 (conj H2 H3)).
Defined.
