(* ===== verification/Parking.v ===== *)
(** * Blocking and waking (src/sync/thrd-wake.c, src/runtime/scheduler.c)

    The synchronisation primitives block their callers through two mechanisms: a
    coroutine parks on the scheduler, an OS thread waits for a token of its wake object.
    This file states what the primitives rely on as the class [Parking], proves that the
    coroutine states of the scheduler together with the token counters of the wake
    objects provide it, and derives the lemmas on parked processes that the proofs of
    the primitives share.

    Processes are numbered.  The scheduler runs throughout; what it does after
    [scheduler_stop] is not part of the model. *)

From S2P Require Import Prelude Interleave.

(** ** The interface *)

(** A process runs, is published to wakers, or has been woken and not yet resumed. *)
Inductive phase := Run | Published | Woken.

(** [park] is what happens to a coroutine before its commit callback runs, [wake] what
    a waker does, [resume] the return of the blocked call; a [resume] that gives [None]
    blocks, a [park] or [wake] that gives [None] aborts the program. *)
Class Parking (W : Type) := {
  is_coro : W -> nat -> bool;
  park : nat -> W -> option W;
  wake : nat -> W -> option W;
  resume : nat -> W -> option W;
  in_phase : W -> nat -> phase -> Prop;
  moves : nat -> phase -> W -> W -> Prop := fun p ph w w' =>
    in_phase w' p ph /\ (forall q, is_coro w' q = is_coro w q)
    /\ forall q ph, q <> p -> in_phase w q ph -> in_phase w' q ph;
  park_ok : forall w p, is_coro w p = true -> in_phase w p Run -> exists w', park p w = Some w' /\ moves p Published w w';
  wake_ok : forall w p, in_phase w p Published -> exists w', wake p w = Some w' /\ moves p Woken w w';
  resume_ok : forall w p, in_phase w p Woken -> exists w', resume p w = Some w' /\ moves p Run w w';
  resume_blocks : forall w p, in_phase w p Published -> resume p w = None;
  thread_ok : forall w p, is_coro w p = false -> in_phase w p Run <-> in_phase w p Published
}.

(** ** The implementation *)

Inductive _sched_coro_state_t := SCHED_CORO_NEW | SCHED_CORO_RUNNABLE | SCHED_CORO_RUNNING | SCHED_CORO_WAITING | SCHED_CORO_DEAD.
#[export] Instance sched_coro_state_eq : EqDecision _sched_coro_state_t.
Proof. solve_decision. Defined.

(** A coroutine with its state, or a thread with the [count] of its wake object. *)
Inductive context := Coro (state : _sched_coro_state_t) | Thrd (count : Z).

(** A failed exchange of the state is logged and aborts. *)
Definition _sched_coro_transition (p : nat) (from to : _sched_coro_state_t) (w : list context) : option (list context) :=
  match w !! p with
  | Some (Coro st) => if decide (st = from) then Some (<[p := Coro to]> w) else None
  | _ => None
  end.

Definition scheduler_coro_ready (p : nat) : list context -> option (list context) :=
  _sched_coro_transition p SCHED_CORO_WAITING SCHED_CORO_RUNNABLE.
Definition _sched_coro_commit_park (p : nat) : list context -> option (list context) :=
  _sched_coro_transition p SCHED_CORO_RUNNING SCHED_CORO_WAITING.
Definition _sched_worker_execute_runnable (p : nat) : list context -> option (list context) :=
  _sched_coro_transition p SCHED_CORO_RUNNABLE SCHED_CORO_RUNNING.

Definition thrd_wake_signal (p : nat) (count : Z) (w : list context) : list context := <[p := Thrd (u32 (count + 1))]> w.
(** [_thrd_wake_try] of the loop of [thrd_wake_wait]: a token is taken where there is
    one, the thread sleeps where there is none. *)
Definition thrd_wake_wait (p : nat) (count : Z) (w : list context) : option (list context) :=
  if 0 <? count then Some (<[p := Thrd (u32 (count - 1))]> w) else None.

(** The wake functions of the primitives: the kind of the waiter decides. *)
Definition wake_context (p : nat) (w : list context) : option (list context) :=
  match w !! p with
  | Some (Coro _) => scheduler_coro_ready p w
  | Some (Thrd count) => Some (thrd_wake_signal p count w)
  | None => None
  end.
Definition resume_context (p : nat) (w : list context) : option (list context) :=
  match w !! p with
  | Some (Coro _) => _sched_worker_execute_runnable p w
  | Some (Thrd count) => thrd_wake_wait p count w
  | None => None
  end.

Definition context_phase (w : list context) (p : nat) (ph : phase) : Prop :=
  match w !! p, ph with
  | Some (Coro SCHED_CORO_RUNNING), Run => True
  | Some (Coro SCHED_CORO_WAITING), Published => True
  | Some (Coro SCHED_CORO_RUNNABLE), Woken => True
  | Some (Thrd 0), (Run | Published) => True
  | Some (Thrd 1), Woken => True
  | _, _ => False
  end.
Definition context_coro (w : list context) (p : nat) : bool :=
  match w !! p with Some (Coro _) => true | _ => false end.

(** A write at [p] changes neither what the others are nor their phase. *)
Lemma context_moves (w : list context) p c ph :
  context_phase (<[p := c]> w) p ph ->
  context_coro (<[p := c]> w) p = context_coro w p ->
  context_phase (<[p := c]> w) p ph /\ (forall q, context_coro (<[p := c]> w) q = context_coro w q)
  /\ forall q ph, q <> p -> context_phase w q ph -> context_phase (<[p := c]> w) q ph.
Proof.
  intros H1 H2. split_and!; [done| |].
  - intros q. destruct (decide (q = p)) as [->|Hq]; [done|].
    unfold context_coro. by rewrite list_lookup_insert_ne.
  - intros q ph' Hq. unfold context_phase. by rewrite list_lookup_insert_ne.
Qed.

#[local] Ltac context_move H := eexists; split; [reflexivity|apply context_moves;
  unfold context_phase, context_coro; rewrite list_lookup_insert_eq by (by eapply lookup_lt_Some); rewrite ?H; done].

#[export] Program Instance contexts_parking : Parking (list context) := {
  is_coro := context_coro;
  park := _sched_coro_commit_park;
  wake := wake_context;
  resume := resume_context;
  in_phase := context_phase
}.
Next Obligation.
  intros w p Hc Hr. unfold context_coro, context_phase in Hc, Hr. destruct (w !! p) as [[[]|]|] eqn:E; try done.
  unfold _sched_coro_commit_park, _sched_coro_transition. rewrite E, decide_True by done. context_move E.
Qed.
Next Obligation.
  intros w p Hr. unfold context_phase in Hr. unfold wake_context.
  destruct (w !! p) as [[[]|[|[]|]]|] eqn:E; try done;
    unfold scheduler_coro_ready, _sched_coro_transition; rewrite ?E, ?decide_True by done; context_move E.
Qed.
Next Obligation.
  intros w p Hr. unfold context_phase in Hr. unfold resume_context.
  destruct (w !! p) as [[[]|[|[]|]]|] eqn:E; try done;
    unfold _sched_worker_execute_runnable, _sched_coro_transition; rewrite ?E, ?decide_True by done; context_move E.
Qed.
Next Obligation.
  intros w p Hr. unfold context_phase in Hr. unfold resume_context.
  destruct (w !! p) as [[[]|[|[]|]]|] eqn:E; try done.
  unfold _sched_worker_execute_runnable, _sched_coro_transition. by rewrite E.
Qed.
Next Obligation.
  intros w p. unfold context_coro, context_phase. by destruct (w !! p) as [[[]|[|[]|]]|].
Qed.

(** ** Processes and the wakes due to them *)

(** A process runs, is between [park] and the verdict of its commit callback, or has
    published a waiter and sleeps. *)
Inductive mode := Awake | Committing | Sleeping.

Section parked.
Context `{Parking W}.
Implicit Types (w : W) (modes : list mode) (due : list nat).

(** [due] are the processes that some waker still has to wake: those on a waiters list
    and those a waker took from it.  Each sleeps, each is due once, and a sleeping
    process is due or has been woken. *)
Record parked w modes due : Prop := {
  due_once : NoDup due;
  due_sleeps p : p ∈ due -> modes !! p = Some Sleeping /\ in_phase w p Published;
  mode_phase p m : modes !! p = Some m ->
    match m with
    | Awake => in_phase w p Run
    | Committing => in_phase w p Published /\ is_coro w p = true
    | Sleeping => p ∈ due \/ in_phase w p Woken
    end
}.

Definition same_kinds w w' : Prop := forall p, is_coro w' p = is_coro w p.

Lemma moves_kinds w w' p ph : moves p ph w w' -> same_kinds w w'.
Proof. intros (_ & Hk & _). exact Hk. Qed.

Lemma parked_perm w modes due due' : due ≡ₚ due' -> parked w modes due -> parked w modes due'.
Proof.
  intros Hp [H1 H2 H3]. split; [by rewrite <-Hp| |].
  - intros p. rewrite <-Hp. apply H2.
  - intros p m Hm. specialize (H3 p m Hm). destruct m; [done..|]. by rewrite <-Hp.
Qed.

(** Process [p] changes its mode, and its phase with it. *)
Lemma parked_move w w' modes due p m m' ph :
  parked w modes due -> modes !! p = Some m -> p ∉ due -> moves p ph w w' ->
  match m' with
  | Awake => ph = Run
  | Committing => ph = Published /\ is_coro w p = true
  | Sleeping => ph = Woken
  end -> parked w' (<[p := m']> modes) due.
Proof.
  intros [H1 H2 H3] Hp Hd (Hph & Hk & Hq) Hm. split; [done| |].
  - intros q Hin. destruct (H2 q Hin). assert (q <> p) by congruence.
    rewrite list_lookup_insert_ne by done. eauto.
  - intros q mq. rewrite list_lookup_insert_Some. intros [(<- & <- & _)|[Hne Hmq]].
    + destruct m'; [by subst ph|destruct Hm; subst ph; by rewrite Hk|right; by subst ph].
    + specialize (H3 q mq Hmq). destruct mq; rewrite ?Hk; naive_solver.
Qed.

Lemma sleeping_not_due w modes due p m : parked w modes due -> modes !! p = Some m -> m <> Sleeping -> p ∉ due.
Proof. intros Hk Hm Hne Hin. destruct (due_sleeps _ _ _ Hk p Hin). congruence. Qed.

(** A coroutine parks; its callback then refuses or publishes. *)
Lemma parked_park w modes due p :
  parked w modes due -> modes !! p = Some Awake -> is_coro w p = true ->
  exists w', park p w = Some w' /\ parked w' (<[p := Committing]> modes) due /\ same_kinds w w'.
Proof.
  intros Hk Hm Hc. destruct (park_ok w p Hc (mode_phase _ _ _ Hk p _ Hm)) as (w' & Hw & Hmv).
  exists w'. split_and!; [done| |apply (moves_kinds _ _ _ _ Hmv)]. by apply (parked_move w w' modes due p Awake Committing Published);
    try apply (sleeping_not_due _ _ _ _ _ Hk Hm).
Qed.
Lemma parked_refuse w modes due p :
  parked w modes due -> modes !! p = Some Committing ->
  exists w', wake p w = Some w' /\ parked w' (<[p := Sleeping]> modes) due /\ same_kinds w w'.
Proof.
  intros Hk Hm. destruct (mode_phase _ _ _ Hk p _ Hm) as [Hph _]. destruct (wake_ok w p Hph) as (w' & Hw & Hmv).
  exists w'. split_and!; [done| |apply (moves_kinds _ _ _ _ Hmv)]. by apply (parked_move w w' modes due p Committing Sleeping Woken);
    try apply (sleeping_not_due _ _ _ _ _ Hk Hm).
Qed.
Lemma parked_publish w modes due p m :
  parked w modes due -> modes !! p = Some m ->
  (m = Committing \/ m = Awake /\ is_coro w p = false) ->
  parked w (<[p := Sleeping]> modes) (p :: due).
Proof.
  intros Hk Hm Hor. assert (p ∉ due) as Hnd by (eapply sleeping_not_due; [done..|]; intros ->; naive_solver).
  assert (in_phase w p Published) as Hpub.
  { pose proof (mode_phase _ _ _ Hk p _ Hm) as Hph. destruct Hor as [->|[-> Hc]]; [apply Hph|by apply thread_ok]. }
  destruct Hk as [H1 H2 H3]. split; [by constructor| |].
  - intros q [->|Hin]%elem_of_cons; [rewrite list_lookup_insert_eq by (by eapply lookup_lt_Some); done|].
    rewrite list_lookup_insert_ne by set_solver. by apply H2.
  - intros q mq. rewrite list_lookup_insert_Some. intros [(<- & <- & _)|[Hne Hmq]]; [left; set_solver|].
    specialize (H3 q mq Hmq). destruct mq; set_solver.
Qed.

(** A waker wakes a process that is due. *)
Lemma parked_wake w modes due p :
  parked w modes (p :: due) -> exists w', wake p w = Some w' /\ parked w' modes due /\ same_kinds w w'.
Proof.
  intros Hk. destruct (due_sleeps _ _ _ Hk p ltac:(set_solver)) as [Hm Hph].
  destruct (wake_ok w p Hph) as (w' & Hw & Hmv). exists w'.
  destruct Hk as [[Hnd H1]%NoDup_cons H2 H3]. destruct Hmv as (Hph' & Hk & Hq). split_and!; [done| |done]. split; [done| |].
  - intros q Hin. destruct (H2 q ltac:(set_solver)). split; [done|]. apply Hq; [set_solver|done].
  - intros q mq Hmq. specialize (H3 q mq Hmq). destruct (decide (q = p)) as [->|Hne].
    + rewrite Hm in Hmq. injection Hmq as <-. by right.
    + destruct mq; rewrite ?Hk; set_solver.
Qed.

(** A sleeping process resumes exactly when nobody has to wake it any more. *)
Lemma parked_resume w w' modes due p :
  parked w modes due -> modes !! p = Some Sleeping -> resume p w = Some w' ->
  p ∉ due /\ parked w' (<[p := Awake]> modes) due /\ same_kinds w w'.
Proof.
  intros Hk Hm Hr. assert (p ∉ due) as Hnd.
  { intros Hin. destruct (due_sleeps _ _ _ Hk p Hin) as [_ Hph]. by rewrite resume_blocks in Hr. }
  split; [done|]. destruct (mode_phase _ _ _ Hk p _ Hm) as [|Hph]; [done|].
  destruct (resume_ok w p Hph) as (w1 & Hw & Hmv). rewrite Hr in Hw. injection Hw as <-.
  split; [by apply (parked_move w w' modes due p Sleeping Awake Run)|apply (moves_kinds _ _ _ _ Hmv)].
Qed.
Lemma parked_enabled w modes due p :
  parked w modes due -> modes !! p = Some Sleeping -> resume p w = None <-> p ∈ due.
Proof.
  intros Hk Hm. split.
  - intros Hn. destruct (mode_phase _ _ _ Hk p _ Hm) as [|Hph]; [done|].
    destruct (resume_ok w p Hph) as (w1 & Hw & _). congruence.
  - intros Hin. apply resume_blocks. by apply (due_sleeps _ _ _ Hk).
Qed.

(** A thread gives up waiting while it is still due. *)
Lemma parked_cancel w modes due p :
  parked w modes (p :: due) -> is_coro w p = false -> parked w (<[p := Awake]> modes) due.
Proof.
  intros Hk Hc. destruct (due_sleeps _ _ _ Hk p ltac:(set_solver)) as [Hm Hph].
  destruct Hk as [[Hnd H1]%NoDup_cons H2 H3]. split; [done| |].
  - intros q Hin. rewrite list_lookup_insert_ne by set_solver. apply H2. set_solver.
  - intros q mq. rewrite list_lookup_insert_Some. intros [(<- & <- & _)|[Hne Hmq]]; [by apply thread_ok|].
    specialize (H3 q mq Hmq). destruct mq; set_solver.
Qed.
End parked.

(** ** Processes at control points of a primitive

    A primitive gives its control points a mode and the processes that remain to be
    woken there; its queue holds the others that are due. *)

Section procs.
Context `{Parking W} {PC : Type} (mode_of : PC -> mode) (targets : PC -> list nat).
Implicit Types (w : W) (procs : list PC) (queue : list nat).

Definition due queue procs : list nat := queue ++ (procs ≫= targets).
Definition waiting w queue procs : Prop := parked w (mode_of <$> procs) (due queue procs).

Lemma due_moved queue queue' procs p pc pc' : procs !! p = Some pc ->
  queue' ++ targets pc' ≡ₚ queue ++ targets pc -> due queue' (<[p := pc']> procs) ≡ₚ due queue procs.
Proof.
  intros Hp Hq. unfold due. apply (Permutation_app_inv_l (targets pc)).
  pose proof (union_insert targets _ _ _ pc' Hp) as HU.
  rewrite (app_assoc _ queue'), (Permutation_app_comm _ queue'), <-app_assoc, HU.
  rewrite (app_assoc queue'), Hq. solve_Permutation.
Qed.
Lemma due_grows queue procs p pc pc' : procs !! p = Some pc -> targets pc' = targets pc ->
  due (queue ++ [p]) (<[p := pc']> procs) ≡ₚ p :: due queue procs.
Proof.
  intros Hp Ht. rewrite <-(due_moved queue queue procs p pc pc') by (done || by rewrite Ht). unfold due. solve_Permutation.
Qed.
Lemma due_woken queue procs p t pc pc' : procs !! p = Some pc -> targets pc = t :: targets pc' ->
  t :: due queue (<[p := pc']> procs) ≡ₚ due queue procs.
Proof.
  intros Hp Ht. rewrite <-(due_moved queue (t :: queue) procs p pc pc') by (done || rewrite Ht; solve_Permutation). done.
Qed.

Lemma lookup_mode procs p pc : procs !! p = Some pc -> (mode_of <$> procs) !! p = Some (mode_of pc).
Proof. intros Hp. by rewrite list_lookup_fmap, Hp. Qed.

(** The process goes on in the same mode; what it still has to wake may come from the
    queue, or go back to none. *)
Lemma waiting_keep w queue queue' procs p pc pc' :
  waiting w queue procs -> procs !! p = Some pc -> mode_of pc' = mode_of pc ->
  queue' ++ targets pc' ≡ₚ queue ++ targets pc -> waiting w queue' (<[p := pc']> procs).
Proof.
  intros Hk Hp Hm Hq. unfold waiting. rewrite list_fmap_insert, Hm, list_insert_id by (by apply lookup_mode).
  eapply parked_perm; [symmetry; by eapply due_moved|done].
Qed.
Lemma waiting_park w queue procs p pc pc' :
  waiting w queue procs -> procs !! p = Some pc -> mode_of pc = Awake -> is_coro w p = true ->
  mode_of pc' = Committing -> targets pc' = targets pc ->
  exists w', park p w = Some w' /\ waiting w' queue (<[p := pc']> procs) /\ same_kinds w w'.
Proof.
  intros Hk Hp Hm Hc Hm' Ht. destruct (parked_park _ _ _ p Hk) as (w' & Hw & Hpk & Hs); [by rewrite <-Hm; apply lookup_mode|done|].
  exists w'. split_and!; [done| |done]. unfold waiting. rewrite list_fmap_insert, Hm'.
  eapply parked_perm; [symmetry; eapply due_moved; [done|by rewrite Ht]|done].
Qed.
Lemma waiting_refuse w queue procs p pc pc' :
  waiting w queue procs -> procs !! p = Some pc -> mode_of pc = Committing ->
  mode_of pc' = Sleeping -> targets pc' = targets pc ->
  exists w', wake p w = Some w' /\ waiting w' queue (<[p := pc']> procs) /\ same_kinds w w'.
Proof.
  intros Hk Hp Hm Hm' Ht. destruct (parked_refuse _ _ _ p Hk) as (w' & Hw & Hpk & Hs); [by rewrite <-Hm; apply lookup_mode|].
  exists w'. split_and!; [done| |done]. unfold waiting. rewrite list_fmap_insert, Hm'.
  eapply parked_perm; [symmetry; eapply due_moved; [done|by rewrite Ht]|done].
Qed.
Lemma waiting_publish w queue procs p pc pc' :
  waiting w queue procs -> procs !! p = Some pc ->
  mode_of pc = Committing \/ mode_of pc = Awake /\ is_coro w p = false ->
  mode_of pc' = Sleeping -> targets pc' = targets pc ->
  waiting w (queue ++ [p]) (<[p := pc']> procs).
Proof.
  intros Hk Hp Hm Hm' Ht. unfold waiting. rewrite list_fmap_insert, Hm'.
  eapply parked_perm; [symmetry; by eapply due_grows|]. eapply parked_publish; [done|by apply lookup_mode|done].
Qed.
Lemma waiting_wake w queue procs p t pc pc' :
  waiting w queue procs -> procs !! p = Some pc -> mode_of pc' = mode_of pc -> targets pc = t :: targets pc' ->
  exists w', wake t w = Some w' /\ waiting w' queue (<[p := pc']> procs) /\ same_kinds w w'.
Proof.
  intros Hk Hp Hm Ht. unfold waiting. rewrite list_fmap_insert, Hm, list_insert_id by (by apply lookup_mode).
  apply parked_wake. eapply parked_perm; [symmetry; by eapply due_woken|done].
Qed.
Lemma waiting_resume w w' queue procs p pc pc' :
  waiting w queue procs -> procs !! p = Some pc -> mode_of pc = Sleeping -> resume p w = Some w' ->
  mode_of pc' = Awake -> targets pc' = targets pc ->
  p ∉ due queue procs /\ waiting w' queue (<[p := pc']> procs) /\ same_kinds w w'.
Proof.
  intros Hk Hp Hm Hr Hm' Ht. destruct (parked_resume _ w' _ _ p Hk) as (Hn & Hpk & Hs); [by rewrite <-Hm; apply lookup_mode|done|].
  split_and!; [done| |done]. unfold waiting. rewrite list_fmap_insert, Hm'.
  eapply parked_perm; [symmetry; eapply due_moved; [done|by rewrite Ht]|done].
Qed.
Lemma waiting_blocks w queue procs p pc :
  waiting w queue procs -> procs !! p = Some pc -> mode_of pc = Sleeping -> resume p w = None <-> p ∈ due queue procs.
Proof. intros Hk Hp Hm. eapply parked_enabled; [done|]. rewrite <-Hm. by apply lookup_mode. Qed.
Lemma due_asleep w queue procs p pc :
  waiting w queue procs -> procs !! p = Some pc -> p ∈ due queue procs -> mode_of pc = Sleeping.
Proof.
  intros Hk Hp Hd. destruct (due_sleeps _ _ _ Hk p Hd) as [Hm _]. rewrite lookup_mode with (pc := pc) in Hm by done. congruence.
Qed.

Lemma waiting_start w n pc : mode_of pc = Awake -> targets pc = [] ->
  (forall p, (p < n)%nat -> in_phase w p Run) -> waiting w [] (replicate n pc).
Proof.
  intros Hm Ht Hw. unfold waiting, due. assert (replicate n pc ≫= targets = []) as ->.
  { clear -Ht. induction n as [|n IH]; [done|]. cbn [replicate]. by rewrite bind_cons, Ht, IH. }
  split; [constructor|set_solver|]. intros p m. rewrite list_lookup_fmap, fmap_Some.
  intros (pc' & [-> Hp]%lookup_replicate & ->). rewrite Hm. by apply Hw.
Qed.
End procs.
