(* ===== verification/Mutex.v ===== *)
(** * Mutex (src/sync/xylem-mutex.c)

    Any number of coroutines and threads lock and unlock one mutex.  The atomic steps
    are the accesses of [locked], the sections under [guard] and the calls of the
    blocking layer.  A section accesses [locked] once and the list of waiters, which is
    accessed nowhere else, so it takes effect at once.  The list is the sequence of the
    waiting processes, what [list_t] is shown to implement in [DListCorrect].  The
    yield at the end of [xylem_mutex_unlock] does not touch the mutex. *)

From S2P Require Import Prelude Interleave Parking.

Record xylem_mutex_t := Mutex { locked : bool; waiters : list nat }.
Definition xylem_mutex_create (calloc_ok : bool) : option xylem_mutex_t :=
  if calloc_ok then Some (Mutex false []) else None.

Definition MUTEX_SPIN_TRIES : nat := 128.

(** Where a process is: in [xylem_mutex_lock] ([MLock] to [MRetake]), in
    [xylem_mutex_trylock], or in [xylem_mutex_unlock] ([MStore] to [MWake]). *)
Inductive mutex_pc :=
| MIdle
| MLock                (* first attempt *)
| MPark                (* coroutine about to park *)
| MCommit              (* commit callback of the coroutine *)
| MSpin (i : nat)      (* thread in its spin loop *)
| MGuard               (* thread in its section under the guard *)
| MSleep               (* published, or refused and runnable *)
| MRetake              (* resumed *)
| MTrylock
| MStore               (* about to release *)
| MPop                 (* released, about to choose a waiter *)
| MWake (target : nat).

Section mutex.
Context `{Parking W}.

(** [permits] counts the acquisitions that have returned and have not been given to
    [xylem_mutex_unlock]; [aborted] records an abort of the blocking layer. *)
Record mutex_sys := MutexSys {
  mutex : xylem_mutex_t; mwaking : W; mprocs : list mutex_pc; permits : nat; maborted : bool }.

Definition at_pc (p : nat) (pc : mutex_pc) (s : mutex_sys) : mutex_sys :=
  MutexSys (mutex s) (mwaking s) (<[p := pc]> (mprocs s)) (permits s) (maborted s).
Definition with_mutex (m : xylem_mutex_t) (s : mutex_sys) : mutex_sys :=
  MutexSys m (mwaking s) (mprocs s) (permits s) (maborted s).
Definition with_permits (n : nat) (s : mutex_sys) : mutex_sys :=
  MutexSys (mutex s) (mwaking s) (mprocs s) n (maborted s).
(** The result of a call of the blocking layer that may abort. *)
Definition with_waking (w : option W) (s : mutex_sys) : mutex_sys :=
  match w with
  | Some w => MutexSys (mutex s) w (mprocs s) (permits s) (maborted s)
  | None => MutexSys (mutex s) (mwaking s) (mprocs s) (permits s) true
  end.

Definition _mutex_try_take (s : mutex_sys) : bool * mutex_sys :=
  if locked (mutex s) then (false, s) else (true, with_mutex (Mutex true (waiters (mutex s))) s).
(** With the lock a process returns; where it just tries, it goes on at [pc] without. *)
Definition acquired (p : nat) (s : mutex_sys) : mutex_sys := with_permits (S (permits s)) (at_pc p MIdle s).
Definition take_or (pc : mutex_pc) (p : nat) (s : mutex_sys) : mutex_sys :=
  match _mutex_try_take s with
  | (true, s) => acquired p s
  | (false, s) => at_pc p pc s
  end.
Definition _mutex_push_waiter (p : nat) (s : mutex_sys) : mutex_sys :=
  with_mutex (Mutex (locked (mutex s)) (waiters (mutex s) ++ [p])) s.
Definition _mutex_pop_waiter (s : mutex_sys) : option nat * mutex_sys :=
  match waiters (mutex s) with
  | [] => (None, s)
  | t :: rest => (Some t, with_mutex (Mutex (locked (mutex s)) rest) s)
  end.

Definition xylem_mutex_lock (p : nat) (s : mutex_sys) : mutex_sys :=
  take_or (if is_coro (mwaking s) p then MPark else MSpin 0) p s.

(** The coroutine: [_mutex_wait_coro] with its commit callback. *)
Definition _mutex_wait_commit_cb (p : nat) (s : mutex_sys) : mutex_sys :=
  if locked (mutex s) then at_pc p MSleep (_mutex_push_waiter p s)
  else at_pc p MSleep (with_waking (wake p (mwaking s)) s).
Definition _mutex_wait_coro (pc : mutex_pc) (p : nat) (s : mutex_sys) : option mutex_sys :=
  match pc with
  | MPark => Some (at_pc p MCommit (with_waking (park p (mwaking s)) s))
  | MCommit => Some (_mutex_wait_commit_cb p s)
  | MSleep => w ← resume p (mwaking s); Some (at_pc p MRetake (with_waking (Some w) s))
  | MRetake => Some (take_or MPark p s)
  | _ => None
  end.

(** The thread: [_mutex_wait_thrd] with [_mutex_spin_take]. *)
Definition _mutex_spin_take (i p : nat) (s : mutex_sys) : mutex_sys :=
  if (i <? MUTEX_SPIN_TRIES)%nat then take_or (MSpin (S i)) p s else at_pc p MGuard s.
Definition _mutex_wait_thrd (pc : mutex_pc) (p : nat) (s : mutex_sys) : option mutex_sys :=
  match pc with
  | MSpin i => Some (_mutex_spin_take i p s)
  | MGuard => Some (match _mutex_try_take s with
                    | (true, s) => acquired p s
                    | (false, s) => at_pc p MSleep (_mutex_push_waiter p s)
                    end)
  | MSleep => w ← resume p (mwaking s); Some (at_pc p MRetake (with_waking (Some w) s))
  | MRetake => Some (take_or (MSpin 0) p s)
  | _ => None
  end.

Definition xylem_mutex_unlock (pc : mutex_pc) (p : nat) (s : mutex_sys) : option mutex_sys :=
  match pc with
  | MStore => Some (at_pc p MPop (with_mutex (Mutex false (waiters (mutex s))) s))
  | MPop => Some (match _mutex_pop_waiter s with
                  | (Some t, s) => at_pc p (MWake t) s
                  | (None, s) => at_pc p MIdle s
                  end)
  | MWake t => Some (at_pc p MIdle (with_waking (wake t (mwaking s)) s))
  | _ => None
  end.

Definition mutex_go (pc : mutex_pc) (p : nat) (s : mutex_sys) : option mutex_sys :=
  match pc with
  | MIdle => None
  | MLock => Some (xylem_mutex_lock p s)
  | MTrylock => Some (take_or MIdle p s)
  | MStore | MPop | MWake _ => xylem_mutex_unlock pc p s
  | _ => if is_coro (mwaking s) p then _mutex_wait_coro pc p s else _mutex_wait_thrd pc p s
  end.

(** Calls begin when their process is idle, and an unlock only with a permit: the
    caller holds the mutex, whoever acquired it. *)
Inductive mutex_label := CallLock (p : nat) | CallTrylock (p : nat) | CallUnlock (p : nat) | MStep (p : nat).
Definition mutex_step (l : mutex_label) (s : mutex_sys) : option mutex_sys :=
  match l with
  | CallLock p => match mprocs s !! p with Some MIdle => Some (at_pc p MLock s) | _ => None end
  | CallTrylock p => match mprocs s !! p with Some MIdle => Some (at_pc p MTrylock s) | _ => None end
  | CallUnlock p =>
      match mprocs s !! p, permits s with
      | Some MIdle, S n => Some (with_permits n (at_pc p MStore s))
      | _, _ => None
      end
  | MStep p => pc ← mprocs s !! p; mutex_go pc p s
  end.
Definition mutex_start (m : xylem_mutex_t) (w : W) (n : nat) : mutex_sys := MutexSys m w (replicate n MIdle) 0 false.

(** ** The invariant *)

Definition mode_of (pc : mutex_pc) : mode :=
  match pc with MSleep => Sleeping | MCommit => Committing | _ => Awake end.
Definition targets (pc : mutex_pc) : list nat := match pc with MWake t => [t] | _ => [] end.
Definition releasing (pc : mutex_pc) : nat := match pc with MStore => 1 | _ => 0 end.
Definition kind_ok (w : W) (p : nat) (pc : mutex_pc) : Prop :=
  match pc with MPark | MCommit => is_coro w p = true | MSpin _ | MGuard => is_coro w p = false | _ => True end.

Notation mdue s := (due targets (waiters (mutex s)) (mprocs s)).
Definition held (m : xylem_mutex_t) : nat := if locked m then 1 else 0.
(** The process is about to try the lock, or to wake one that will. *)
Definition alert (s : mutex_sys) (p : nat) (pc : mutex_pc) : Prop :=
  match pc with MPop | MWake _ | MRetake => True | MSleep => p ∉ mdue s | _ => False end.

Record mutex_inv (s : mutex_sys) : Prop := {
  mi_permits : (permits s + sum_list_with releasing (mprocs s) = held (mutex s))%nat;
  mi_parked : waiting mode_of targets (mwaking s) (waiters (mutex s)) (mprocs s);
  mi_kinds p pc : mprocs s !! p = Some pc -> kind_ok (mwaking s) p pc;
  mi_live : waiters (mutex s) <> [] -> locked (mutex s) = true \/ exists p pc, mprocs s !! p = Some pc /\ alert s p pc;
  mi_aborted : maborted s = false
}.

(** What is left to show when process [p] moves from [pc] to [pc']. *)
Lemma inv_moved s s' p pc pc' :
  mutex_inv s -> mprocs s !! p = Some pc -> mprocs s' = <[p := pc']> (mprocs s) ->
  (permits s' + releasing pc' + held (mutex s) = permits s + releasing pc + held (mutex s'))%nat ->
  waiting mode_of targets (mwaking s') (waiters (mutex s')) (<[p := pc']> (mprocs s)) ->
  same_kinds (mwaking s) (mwaking s') -> kind_ok (mwaking s) p pc' -> maborted s' = false ->
  (waiters (mutex s') <> [] -> locked (mutex s') = true \/ (exists q pq, mprocs s' !! q = Some pq /\ alert s' q pq)
     \/ locked (mutex s) = false /\ waiters (mutex s) <> [] /\ ~ alert s p pc
        /\ forall q, q <> p -> q ∉ mdue s -> q ∉ mdue s') ->
  mutex_inv s'.
Proof.
  intros [H1 H2 H3 H4 H5] Hp Hs' Hper Hpk Hk Hkp Hab Hlive. split; [| | | |done].
  - rewrite Hs'. pose proof (sum_insert releasing _ _ _ pc' Hp). lia.
  - by rewrite Hs'.
  - intros q pq. rewrite Hs', list_lookup_insert_Some. intros [(<- & <- & _)|[Hne Hq]].
    + unfold kind_ok in *. by destruct pc'; rewrite ?Hk.
    + specialize (H3 q pq Hq). unfold kind_ok in *. by destruct pq; rewrite ?Hk.
  - intros Hw. destruct (Hlive Hw) as [Hl|[Ha|(Hl & Hw0 & Hna & Hdue)]]; [by left|by right|].
    destruct (H4 Hw0) as [|(q & pq & Hq & Ha)]; [congruence|].
    assert (q <> p) as Hne by (intros ->; simplify_eq; done).
    right. exists q, pq. rewrite Hs', list_lookup_insert_ne by done. split; [done|].
    unfold alert in *. destruct pq; auto.
Qed.
Lemma alert_here s s' p pc pc' : mprocs s !! p = Some pc -> mprocs s' = <[p := pc']> (mprocs s) -> alert s' p pc' ->
  exists q pq, mprocs s' !! q = Some pq /\ alert s' q pq.
Proof.
  intros Hp Hs' Ha. exists p, pc'. split; [|done]. rewrite Hs'. apply list_lookup_insert_eq. by eapply lookup_lt_Some.
Qed.

(** Moves of a running process that only change [locked] and [permits]. *)
Lemma awake_move s s' p pc pc' :
  mutex_inv s -> mprocs s !! p = Some pc -> mprocs s' = <[p := pc']> (mprocs s) ->
  mode_of pc = Awake -> mode_of pc' = Awake -> targets pc = [] -> targets pc' = [] ->
  mwaking s' = mwaking s -> waiters (mutex s') = waiters (mutex s) -> maborted s' = maborted s ->
  (permits s' + releasing pc' + held (mutex s) = permits s + releasing pc + held (mutex s'))%nat ->
  kind_ok (mwaking s) p pc' ->
  (locked (mutex s') = true \/ alert s' p pc' \/ locked (mutex s) = false /\ ~ alert s p pc) ->
  mutex_inv s'.
Proof.
  intros HI Hp Hs' Hm Hm' Ht Ht' Hw Hwt Hab Hper Hk Hlive.
  apply (inv_moved s s' p pc pc'); try done.
  - rewrite Hw, Hwt. apply (waiting_keep _ _ _ (waiters (mutex s)) _ _ _ pc); [apply HI|done|congruence|by rewrite Ht, Ht'].
  - intros q. by rewrite Hw.
  - rewrite Hab. apply HI.
  - rewrite Hwt. intros Hne. destruct Hlive as [Hl|[Ha|[Hl Ha]]]; [by left|right; left; by eapply alert_here|].
    do 2 right. split_and!; [done..|]. intros q _. by rewrite Hs', due_moved by (done || by rewrite Ht, Ht').
Qed.

Lemma take_or_inv s p pc pc' :
  mutex_inv s -> mprocs s !! p = Some pc -> mode_of pc = Awake -> mode_of pc' = Awake ->
  targets pc = [] -> targets pc' = [] -> releasing pc = 0%nat -> releasing pc' = 0%nat ->
  kind_ok (mwaking s) p pc' -> mutex_inv (take_or pc' p s).
Proof.
  intros HI Hp Hm Hm' Ht Ht' Hr Hr' Hk. unfold take_or, _mutex_try_take. destruct (locked (mutex s)) eqn:El.
  - apply (awake_move s _ p pc pc'); try done; [cbn [at_pc mutex permits]; lia|by left].
  - apply (awake_move s _ p pc MIdle); try done; [|by left].
    cbn [acquired with_permits at_pc with_mutex mutex permits]. unfold held. rewrite El. cbn [locked releasing]. lia.
Qed.

(** Publication of a waiter by a commit callback or by a thread. *)
Lemma push_inv s p pc :
  mutex_inv s -> mprocs s !! p = Some pc -> pc = MCommit \/ pc = MGuard -> locked (mutex s) = true ->
  mutex_inv (at_pc p MSleep (_mutex_push_waiter p s)).
Proof.
  intros HI Hp Hpc Hl. assert (targets pc = [] /\ releasing pc = 0%nat) as [Ht Hr] by (by destruct Hpc as [->| ->]).
  apply (inv_moved s _ p pc MSleep); try done; try apply HI.
  - simpl. unfold held. simpl. lia.
  - apply (waiting_publish _ _ _ _ _ _ pc); [apply HI|done| |done|done].
    destruct Hpc as [->| ->]; [by left|right; split; [done|exact (mi_kinds _ HI p _ Hp)]].
  - intros _. by left.
Qed.

Lemma commit_inv s p : mutex_inv s -> mprocs s !! p = Some MCommit -> mutex_inv (_mutex_wait_commit_cb p s).
Proof.
  intros HI Hp. unfold _mutex_wait_commit_cb. destruct (locked (mutex s)) eqn:El; [by eapply push_inv; eauto|].
  destruct (waiting_refuse _ _ _ _ _ p MCommit MSleep (mi_parked _ HI)) as (w' & -> & Hpk & Hk); [done..|].
  apply (inv_moved s _ p MCommit MSleep); try done; try apply HI.
  intros Hw. right. left. eapply alert_here; [done..|]. simpl. rewrite due_moved by done.
  intros Hin. by pose proof (due_asleep _ _ _ _ _ _ _ (mi_parked _ HI) Hp Hin).
Qed.

Lemma park_inv s p : mutex_inv s -> mprocs s !! p = Some MPark ->
  mutex_inv (at_pc p MCommit (with_waking (park p (mwaking s)) s)).
Proof.
  intros HI Hp. pose proof (mi_kinds _ HI p _ Hp) as Hc. simpl in Hc.
  destruct (waiting_park _ _ _ _ _ p MPark MCommit (mi_parked _ HI)) as (w' & -> & Hpk & Hk); [done..|].
  apply (inv_moved s _ p MPark MCommit); try done; try apply HI.
  intros Hw. simpl. destruct (locked (mutex s)); [by left|]. do 2 right. split_and!; [done|done|by intros []|].
  intros q _. by rewrite due_moved.
Qed.

Lemma resume_inv s p w' : mutex_inv s -> mprocs s !! p = Some MSleep -> resume p (mwaking s) = Some w' ->
  mutex_inv (at_pc p MRetake (with_waking (Some w') s)).
Proof.
  intros HI Hp Hr. destruct (waiting_resume _ _ _ w' _ _ p MSleep MRetake (mi_parked _ HI)) as (Hnd & Hpk & Hk); [done..|].
  apply (inv_moved s _ p MSleep MRetake); try done; try apply HI. intros _. right. left. by eapply alert_here.
Qed.

Lemma unlock_inv s s' p pc : mutex_inv s -> mprocs s !! p = Some pc -> xylem_mutex_unlock pc p s = Some s' -> mutex_inv s'.
Proof.
  intros HI Hp. destruct pc as [| | | | | | | | | | |t]; simpl; try done.
  - intros [= <-]. apply (awake_move s _ p MStore MPop); try done; [|by right; left].
    pose proof (mi_permits _ HI). pose proof (sum_lookup releasing _ _ _ Hp). unfold held in *. simpl in *.
    destruct (locked (mutex s)); simpl; lia.
  - unfold _mutex_pop_waiter. destruct (waiters (mutex s)) as [|t rest] eqn:Ew; intros [= <-].
    + apply (inv_moved s _ p MPop MIdle); try done; try apply HI.
      apply (waiting_keep _ _ _ (waiters (mutex s)) _ _ _ MPop); [apply HI|done..].
    + apply (inv_moved s _ p MPop (MWake t)); try done; try apply HI.
      * apply (waiting_keep _ _ _ (waiters (mutex s)) _ _ _ MPop); [apply HI|done|done|].
        simpl. rewrite Ew. solve_Permutation.
      * intros _. right. left. by eapply alert_here.
  - intros [= <-]. pose proof (mi_parked _ HI) as Hpk.
    destruct (waiting_wake _ _ _ _ _ p t (MWake t) MIdle Hpk) as (w' & -> & Hpk' & Hk); [done..|].
    apply (inv_moved s _ p (MWake t) MIdle); try done; try apply HI. intros _. right. left.
    pose proof (due_woken targets (waiters (mutex s)) _ p t _ MIdle Hp eq_refl) as Hdue. simpl in Hdue.
    destruct (due_sleeps _ _ _ Hpk t) as [Ht _]; [rewrite <-Hdue; set_solver|].
    rewrite list_lookup_fmap in Ht. destruct (mprocs s !! t) as [pt|] eqn:Et; [|done].
    assert (pt = MSleep) as -> by (by destruct pt). exists t, MSleep. simpl.
    rewrite list_lookup_insert_ne by congruence. split; [done|].
    pose proof (due_once _ _ _ Hpk) as Hnd. rewrite <-Hdue in Hnd. by apply NoDup_cons in Hnd as [? _].
Qed.

Lemma mutex_go_inv s s' p pc : mutex_inv s -> mprocs s !! p = Some pc -> mutex_go pc p s = Some s' -> mutex_inv s'.
Proof.
  intros HI Hp. pose proof (mi_kinds _ HI p pc Hp) as Hk.
  destruct pc; try (apply unlock_inv; done); simpl in *; [done|..];
    try (destruct (is_coro (mwaking s) p) eqn:Ec; simpl; try done).
  all: try (intros [= <-]).
  - unfold xylem_mutex_lock. rewrite Ec. by eapply take_or_inv.
  - unfold xylem_mutex_lock. rewrite Ec. by eapply take_or_inv.
  - by apply park_inv.
  - by apply commit_inv.
  - unfold _mutex_spin_take. destruct (_ <? _)%nat; [by eapply take_or_inv|].
    apply (awake_move s _ p (MSpin i) MGuard); try done; try (cbn; lia).
    simpl. destruct (locked (mutex s)); [by left|]. right. right. split; [done|by intros []].
  - unfold _mutex_try_take. destruct (locked (mutex s)) eqn:El; [by eapply push_inv; eauto|].
    pose proof (take_or_inv s p MGuard MGuard HI Hp) as Ht. unfold take_or, _mutex_try_take in Ht. rewrite El in Ht. by apply Ht.
  - destruct (resume p (mwaking s)) eqn:Er; simpl; intros [= <-]. by apply resume_inv.
  - destruct (resume p (mwaking s)) eqn:Er; simpl; intros [= <-]. by apply resume_inv.
  - by eapply take_or_inv.
  - by eapply take_or_inv.
  - by eapply take_or_inv.
  - by eapply take_or_inv.
Qed.

Lemma mutex_step_inv l s s' : mutex_inv s -> mutex_step l s = Some s' -> mutex_inv s'.
Proof.
  intros HI. destruct l as [p|p|p|p]; simpl.
  4: { destruct (mprocs s !! p) as [pc|] eqn:Hp; simpl; [|done]. by apply mutex_go_inv. }
  all: destruct (mprocs s !! p) as [[]|] eqn:Hp; try done.
  3: destruct (permits s) as [|n] eqn:En; [done|].
  all: intros [= <-].
  - apply (awake_move s _ p MIdle MLock); try done; try (cbn; lia).
    simpl. destruct (locked (mutex s)); [by left|]. right. right. split; [done|by intros []].
  - apply (awake_move s _ p MIdle MTrylock); try done; try (cbn; lia).
    simpl. destruct (locked (mutex s)); [by left|]. right. right. split; [done|by intros []].
  - apply (awake_move s _ p MIdle MStore); try done; try (cbn; lia).
    simpl. destruct (locked (mutex s)); [by left|]. right. right. split; [done|by intros []].
Qed.

Lemma mutex_start_inv m w n : xylem_mutex_create true = Some m ->
  (forall p, (p < n)%nat -> in_phase w p Run) -> mutex_inv (mutex_start m w n).
Proof.
  intros [= <-] Hw. split; try done.
  - simpl. clear. by induction n.
  - by apply waiting_start.
  - by intros p pc [-> _]%lookup_replicate.
Qed.

(** Only idle processes and those that wait for a wake cannot go on. *)
Lemma stuck_pc s p pc : mutex_inv s -> mprocs s !! p = Some pc -> mutex_step (MStep p) s = None ->
  pc = MIdle \/ pc = MSleep /\ p ∈ mdue s.
Proof.
  intros HI Hp. simpl. rewrite Hp. simpl. pose proof (mi_kinds _ HI p pc Hp) as Hk.
  destruct pc; simpl in *; try done; [by left|..]; try (destruct (is_coro (mwaking s) p); done).
  intros Hn. right. split; [done|]. apply (waiting_blocks _ _ _ _ _ p MSleep (mi_parked _ HI)); [done..|].
  destruct (resume p (mwaking s)), (is_coro (mwaking s) p); done.
Qed.

(** C10 In every interleaving of lock, trylock and unlock calls of any number of
    coroutines and threads: at most one acquisition is not yet released, and the word
    [locked] says so; the blocking layer never aborts, because every wake goes to a
    process that sleeps and has not been woken; and no wake-up is lost: when no call
    can go on and some process still waits, the mutex is held by a caller that has
    returned from its acquisition. *)
Theorem mutex_correct m w n s :
  xylem_mutex_create true = Some m -> (forall p, (p < n)%nat -> in_phase w p Run) ->
  reachable mutex_step (mutex_start m w n) s ->
  (permits s <= 1)%nat /\ (permits s = 1%nat -> locked (mutex s) = true) /\ maborted s = false
  /\ (forall p, mprocs s !! p = Some MSleep -> (forall q, mutex_step (MStep q) s = None) ->
       permits s = 1%nat /\ p ∈ waiters (mutex s)).
Proof.
  intros Hm Hw Hr.
  assert (mutex_inv s) as HI.
  { eapply reachable_invariant; [by apply mutex_start_inv|exact mutex_step_inv|exact Hr]. }
  pose proof (mi_permits _ HI) as Hper. unfold held in Hper. split_and!.
  - destruct (locked (mutex s)); lia.
  - intros Hp1. destruct (locked (mutex s)); [done|lia].
  - apply HI.
  - intros p Hp Hstuck.
    assert (forall q pc, mprocs s !! q = Some pc -> pc = MIdle \/ pc = MSleep /\ q ∈ mdue s) as Hall
      by (intros q pc Hq; by apply stuck_pc).
    assert (p ∈ waiters (mutex s)) as Hin.
    { destruct (Hall p MSleep Hp) as [|[_ Hd]]; [done|]. unfold due in Hd. apply elem_of_app in Hd as [|Hd]; [done|].
      apply list_elem_of_bind in Hd as (pc & Ht & (q & Hq)%list_elem_of_lookup). destruct (Hall q pc Hq) as [->|[-> _]]; set_solver. }
    split; [|done]. rewrite sum_zero in Hper by (intros q pc Hq; by destruct (Hall q pc Hq) as [->|[-> _]]).
    destruct (mi_live _ HI) as [Hl|(q & pc & Hq & Ha)]; [intros E; rewrite E in Hin; set_solver|rewrite Hl in Hper; lia|].
    by destruct (Hall q pc Hq) as [->|[-> Hd]].
Qed.
End mutex.

(** Two coroutines and a thread: the first holds the mutex, the others wait. *)
Definition mutex_demo : list mutex_label :=
  [CallLock 0; MStep 0; CallLock 1; MStep 1; MStep 1; MStep 1; CallLock 2; MStep 2] ++ replicate 130 (MStep 2).
Definition mutex_demo_start : mutex_sys :=
  mutex_start (Mutex false []) [Coro SCHED_CORO_RUNNING; Coro SCHED_CORO_RUNNING; Thrd 0] 3.
Definition mutex_demo_end : mutex_sys := default mutex_demo_start (run mutex_step mutex_demo mutex_demo_start).

Lemma mutex_correct_witness : permits mutex_demo_end = 1%nat /\ 2%nat ∈ waiters (mutex mutex_demo_end).
Proof.
  refine (proj2 (proj2 (proj2 (mutex_correct (Mutex false []) [Coro SCHED_CORO_RUNNING; Coro SCHED_CORO_RUNNING; Thrd 0] 3
    mutex_demo_end eq_refl _ (ex_intro _ mutex_demo _)))) 2%nat _ _).
  - intros [|[|[|p]]] Hp; [exact I..|lia].
  - vm_compute. reflexivity.
  - vm_compute. reflexivity.
  - intros [|[|[|p]]]; vm_compute; reflexivity.
Defined.
