(* ===== verification/WaitGroup.v ===== *)
(** * Wait group (src/sync/xylem-waitgroup.c)

    Any number of coroutines and threads add to, finish and wait for one group.  Each
    section under [guard] is one step, for the counter and the list of waiters are
    accessed nowhere else; the wakes after it are steps of their own.  The yield at the
    end of [xylem_waitgroup_done] does not touch the group. *)

From S2P Require Import Prelude Interleave Parking.

Record xylem_waitgroup_t := WaitGroup { wg_count : Z; wg_waiters : list nat }.
Definition xylem_waitgroup_create (calloc_ok : bool) : option xylem_waitgroup_t :=
  if calloc_ok then Some (WaitGroup 0 []) else None.

Inductive wg_pc :=
| GIdle
| GAdd (delta : Z)
| GDone
| GWakeAll (wake_list : list nat)   (* xylem_waitgroup_done after its section *)
| GPark | GCommit                   (* coroutine in xylem_waitgroup_wait *)
| GGuard                            (* thread in xylem_waitgroup_wait *)
| GSleep.

Section wait_group.
Context `{Parking W}.

(** [owed] is the work added and not yet given to [xylem_waitgroup_done]; [seen] tells
    for each process whether the counter has been zero since its wait began; [early]
    records a wait that returned without that; [gaborted] an abort. *)
Record wg_sys := WgSys {
  wg : xylem_waitgroup_t; gwaking : W; gprocs : list wg_pc; owed : Z; seen : list bool; early : bool; gaborted : bool }.

Definition at_gpc (p : nat) (pc : wg_pc) (s : wg_sys) : wg_sys :=
  WgSys (wg s) (gwaking s) (<[p := pc]> (gprocs s)) (owed s) (seen s) (early s) (gaborted s).
Definition with_wg (g : xylem_waitgroup_t) (s : wg_sys) : wg_sys :=
  WgSys g (gwaking s) (gprocs s) (owed s)
    (if wg_count g =? 0 then (fun _ => true) <$> seen s else seen s) (early s) (gaborted s).
Definition with_owed (n : Z) (s : wg_sys) : wg_sys :=
  WgSys (wg s) (gwaking s) (gprocs s) n (seen s) (early s) (gaborted s).
Definition with_gwaking (w : option W) (s : wg_sys) : wg_sys :=
  match w with
  | Some w => WgSys (wg s) w (gprocs s) (owed s) (seen s) (early s) (gaborted s)
  | None => WgSys (wg s) (gwaking s) (gprocs s) (owed s) (seen s) (early s) true
  end.
Definition wg_abort (s : wg_sys) : wg_sys := WgSys (wg s) (gwaking s) (gprocs s) (owed s) (seen s) (early s) true.
Definition wg_begin (p : nat) (s : wg_sys) : wg_sys :=
  WgSys (wg s) (gwaking s) (gprocs s) (owed s) (<[p := wg_count (wg s) =? 0]> (seen s)) (early s) (gaborted s).
Definition wg_return (p : nat) (s : wg_sys) : wg_sys :=
  WgSys (wg s) (gwaking s) (<[p := GIdle]> (gprocs s)) (owed s) (seen s)
    (early s || negb (default false (seen s !! p))) (gaborted s).

Definition _wg_push_waiter (p : nat) (s : wg_sys) : wg_sys :=
  with_wg (WaitGroup (wg_count (wg s)) (wg_waiters (wg s) ++ [p])) s.

Definition xylem_waitgroup_add (delta : Z) (p : nat) (s : wg_sys) : wg_sys :=
  with_owed (owed s + delta) (at_gpc p GIdle (with_wg (WaitGroup (u64 (wg_count (wg s) + delta)) (wg_waiters (wg s))) s)).

Definition xylem_waitgroup_done (p : nat) (s : wg_sys) : wg_sys :=
  if wg_count (wg s) =? 0 then wg_abort s
  else
    let c := u64 (wg_count (wg s) - 1) in
    if c =? 0 then at_gpc p (GWakeAll (wg_waiters (wg s))) (with_wg (WaitGroup c []) s)
    else at_gpc p (GWakeAll []) (with_wg (WaitGroup c (wg_waiters (wg s))) s).

(** One turn of [_wg_wake_all]. *)
Definition _wg_wake_all (wake_list : list nat) (p : nat) (s : wg_sys) : wg_sys :=
  match wake_list with
  | [] => at_gpc p GIdle s
  | t :: rest => at_gpc p (GWakeAll rest) (with_gwaking (wake t (gwaking s)) s)
  end.

Definition _wg_wait_commit_cb (p : nat) (s : wg_sys) : wg_sys :=
  if wg_count (wg s) =? 0 then at_gpc p GSleep (with_gwaking (wake p (gwaking s)) s)
  else at_gpc p GSleep (_wg_push_waiter p s).
Definition _wg_wait_coro (pc : wg_pc) (p : nat) (s : wg_sys) : option wg_sys :=
  match pc with
  | GPark => Some (at_gpc p GCommit (with_gwaking (park p (gwaking s)) s))
  | GCommit => Some (_wg_wait_commit_cb p s)
  | GSleep => w ← resume p (gwaking s); Some (wg_return p (with_gwaking (Some w) s))
  | _ => None
  end.
Definition _wg_wait_thrd (pc : wg_pc) (p : nat) (s : wg_sys) : option wg_sys :=
  match pc with
  | GGuard => Some (if negb (wg_count (wg s) =? 0) then at_gpc p GSleep (_wg_push_waiter p s) else wg_return p s)
  | GSleep => w ← resume p (gwaking s); Some (wg_return p (with_gwaking (Some w) s))
  | _ => None
  end.

Definition wg_go (pc : wg_pc) (p : nat) (s : wg_sys) : option wg_sys :=
  match pc with
  | GIdle => None
  | GAdd delta => Some (xylem_waitgroup_add delta p s)
  | GDone => Some (xylem_waitgroup_done p s)
  | GWakeAll l => Some (_wg_wake_all l p s)
  | _ => if is_coro (gwaking s) p then _wg_wait_coro pc p s else _wg_wait_thrd pc p s
  end.

(** Calls begin when their process is idle; work is finished only after it was added,
    and the work added at any time, that of calls in progress included, is less than [2^64]. *)
Definition adding (pc : wg_pc) : nat := match pc with GAdd delta => Z.to_nat delta | _ => 0 end.
Inductive wg_label := CallAdd (delta : Z) (p : nat) | CallDone (p : nat) | CallWait (p : nat) | GStep (p : nat).
Definition wg_step (l : wg_label) (s : wg_sys) : option wg_sys :=
  match l with
  | CallAdd delta p => match gprocs s !! p with Some GIdle => if (0 <=? delta) && (wg_count (wg s) + Z.of_nat (sum_list_with adding (gprocs s)) + delta <? 2 ^ 64) then Some (at_gpc p (GAdd delta) s) else None | _ => None end
  | CallDone p => match gprocs s !! p with Some GIdle => if 0 <? owed s then Some (with_owed (owed s - 1) (at_gpc p GDone s)) else None | _ => None end
  | CallWait p => match gprocs s !! p with Some GIdle => Some (at_gpc p (if is_coro (gwaking s) p then GPark else GGuard) (wg_begin p s)) | _ => None end
  | GStep p => pc ← gprocs s !! p; wg_go pc p s
  end.
Definition wg_start (g : xylem_waitgroup_t) (w : W) (n : nat) : wg_sys :=
  WgSys g w (replicate n GIdle) 0 (replicate n false) false false.

(** ** The invariant *)

Definition wg_mode (pc : wg_pc) : mode := match pc with GSleep => Sleeping | GCommit => Committing | _ => Awake end.
Definition wg_targets (pc : wg_pc) : list nat := match pc with GWakeAll l => l | _ => [] end.
Definition finishing (pc : wg_pc) : nat := match pc with GDone => 1 | _ => 0 end.
Definition in_wait (pc : wg_pc) : bool := match pc with GPark | GCommit | GGuard | GSleep => true | _ => false end.
Definition wg_pc_ok (w : W) (p : nat) (pc : wg_pc) : Prop :=
  match pc with GPark | GCommit => is_coro w p = true | GGuard => is_coro w p = false | GAdd d => 0 <= d | _ => True end.

Record wg_inv (s : wg_sys) : Prop := {
  gi_count : wg_count (wg s) = owed s + Z.of_nat (sum_list_with finishing (gprocs s));
  gi_bound : ubound 64 (wg_count (wg s));
  gi_room : wg_count (wg s) + Z.of_nat (sum_list_with adding (gprocs s)) < 2 ^ 64;
  gi_owed : 0 <= owed s;
  gi_waiting : waiting wg_mode wg_targets (gwaking s) (wg_waiters (wg s)) (gprocs s);
  gi_pcs p pc : gprocs s !! p = Some pc -> wg_pc_ok (gwaking s) p pc;
  gi_zero : wg_count (wg s) = 0 -> wg_waiters (wg s) = [];
  gi_length : length (seen s) = length (gprocs s);
  gi_seen p pc : gprocs s !! p = Some pc -> in_wait pc = true -> wg_count (wg s) = 0 -> seen s !! p = Some true;
  gi_woken p : gprocs s !! p = Some GSleep -> p ∉ wg_waiters (wg s) -> seen s !! p = Some true;
  gi_early : early s = false;
  gi_aborted : gaborted s = false
}.

(** What is left to show when process [p] moves from [pc] to [pc']. *)
Lemma wg_moved s s' p pc pc' :
  wg_inv s -> gprocs s !! p = Some pc -> gprocs s' = <[p := pc']> (gprocs s) ->
  wg_count (wg s') - owed s' - Z.of_nat (finishing pc') = wg_count (wg s) - owed s - Z.of_nat (finishing pc) ->
  ubound 64 (wg_count (wg s')) ->
  match pc' with
  | GAdd d => wg_count (wg s') + Z.of_nat (sum_list_with adding (gprocs s)) + d < 2 ^ 64
  | _ => wg_count (wg s') <= wg_count (wg s) + Z.of_nat (adding pc)
  end -> 0 <= owed s' ->
  waiting wg_mode wg_targets (gwaking s') (wg_waiters (wg s')) (<[p := pc']> (gprocs s)) ->
  same_kinds (gwaking s) (gwaking s') -> wg_pc_ok (gwaking s) p pc' ->
  (wg_count (wg s') = 0 -> wg_waiters (wg s') = []) ->
  length (seen s') = length (seen s) ->
  (forall q, seen s !! q = Some true -> q <> p -> seen s' !! q = Some true) ->
  (wg_count (wg s') = 0 -> wg_count (wg s) <> 0 -> forall q, (q < length (seen s))%nat -> seen s' !! q = Some true) ->
  (in_wait pc' = true -> wg_count (wg s') = 0 \/ pc' = GSleep /\ p ∉ wg_waiters (wg s') -> seen s' !! p = Some true) ->
  (forall q, q <> p -> q ∉ wg_waiters (wg s') -> q ∉ wg_waiters (wg s) \/ wg_count (wg s') = 0 /\ wg_count (wg s) <> 0) ->
  early s' = false -> gaborted s' = false -> wg_inv s'.
Proof.
  intros [H1 H2 Hroom H3 H4 H5 H6 H7 H8 H9 H10 H11] Hp Hs' Hc Hb Hrm Ho Hw Hk Hpc Hz Hl Hs Hall Hme Hq He Ha. split; try done.
  - rewrite Hs'. pose proof (sum_insert finishing _ _ _ pc' Hp). lia.
  - rewrite Hs'. pose proof (sum_insert adding _ _ _ pc' Hp) as Ha'. destruct pc'; simpl in *; unfold ubound in Hb; lia.
  - by rewrite Hs'.
  - intros q pq. rewrite Hs', list_lookup_insert_Some. intros [(<- & <- & _)|[Hne Hpq]].
    + unfold wg_pc_ok in *. by destruct pc'; rewrite ?Hk.
    + specialize (H5 q pq Hpq). unfold wg_pc_ok in *. by destruct pq; rewrite ?Hk.
  - rewrite Hs', length_insert. congruence.
  - intros q pq. rewrite Hs', list_lookup_insert_Some. intros [(<- & <- & _)|[Hne Hpq]] Hin Hc0; [by apply Hme; auto|].
    destruct (decide (wg_count (wg s) = 0)); [eauto|]. apply Hall; [done..|]. rewrite H7. by eapply lookup_lt_Some.
  - intros q. rewrite Hs', list_lookup_insert_Some. intros [(<- & -> & _)|[Hne Hpq]] Hnin; [by apply Hme; auto|].
    destruct (Hq q (not_eq_sym Hne) Hnin) as [|[Hc0 Hc1]]; [eauto|]. apply Hall; [done..|]. rewrite H7. by eapply lookup_lt_Some.
Qed.

(** A move that leaves the group and what the waits have seen alone. *)
Lemma wg_quiet s s' p pc pc' :
  wg_inv s -> gprocs s !! p = Some pc -> gprocs s' = <[p := pc']> (gprocs s) ->
  wg s' = wg s -> seen s' = seen s -> early s' = false -> gaborted s' = false ->
  owed s' + Z.of_nat (finishing pc') = owed s + Z.of_nat (finishing pc) ->
  match pc' with GAdd d => wg_count (wg s) + Z.of_nat (sum_list_with adding (gprocs s)) + d < 2 ^ 64 | _ => True end -> 0 <= owed s' ->
  waiting wg_mode wg_targets (gwaking s') (wg_waiters (wg s)) (<[p := pc']> (gprocs s)) ->
  same_kinds (gwaking s) (gwaking s') -> wg_pc_ok (gwaking s) p pc' ->
  (in_wait pc' = true -> in_wait pc = true /\ (pc' = GSleep -> wg_count (wg s) = 0)) -> wg_inv s'.
Proof.
  intros HI Hp Hs' Hg Hseen He Ha Hf Hrm Ho Hw Hk Hpc Hin.
  apply (wg_moved s s' p pc pc'); try done; rewrite ?Hg, ?Hseen; try done; try lia; try apply HI; auto; [destruct pc'; lia|].
  intros Hi Hor. destruct (Hin Hi) as [Hi' Hz]. apply (gi_seen _ HI p pc Hp Hi'). destruct Hor as [|[-> _]]; auto.
Qed.

Lemma wg_return_inv s s' p pc w' :
  wg_inv s -> gprocs s !! p = Some pc -> s' = wg_return p (with_gwaking (Some w') s) -> seen s !! p = Some true ->
  finishing pc = 0%nat -> waiting wg_mode wg_targets w' (wg_waiters (wg s)) (<[p := GIdle]> (gprocs s)) ->
  same_kinds (gwaking s) w' -> wg_inv s'.
Proof.
  intros HI Hp -> Hseen Hf Hw Hk. apply (wg_quiet s _ p pc GIdle); try done; try apply HI; simpl.
  - by rewrite Hseen, (gi_early _ HI).
  - by rewrite Hf.
Qed.

Lemma wg_push_inv s p pc : wg_inv s -> gprocs s !! p = Some pc -> pc = GCommit \/ pc = GGuard -> wg_count (wg s) <> 0 ->
  wg_inv (at_gpc p GSleep (_wg_push_waiter p s)).
Proof.
  intros HI Hp Hpc Hc. assert (finishing pc = 0%nat /\ wg_targets pc = []) as [Hf Ht] by (by destruct Hpc as [->| ->]).
  assert (seen (at_gpc p GSleep (_wg_push_waiter p s)) = seen s) as Hseen
    by (simpl; by destruct (Z.eqb_spec (wg_count (wg s)) 0)).
  apply (wg_moved s _ p pc GSleep); try done; try apply HI; rewrite ?Hseen; auto.
  - simpl. lia.
  - simpl. lia.
  - apply (waiting_publish _ _ _ _ _ _ pc); [apply HI|done| |done|done].
    destruct Hpc as [->| ->]; [by left|right; split; [done|exact (gi_pcs _ HI p _ Hp)]].
  - simpl. intros _ [|[_ Hn]]; [done|set_solver].
  - simpl. intros q Hne Hn. left. set_solver.
Qed.

Lemma wg_done_inv s p : wg_inv s -> gprocs s !! p = Some GDone -> wg_inv (xylem_waitgroup_done p s).
Proof.
  intros HI Hp. pose proof (sum_lookup finishing _ _ _ Hp) as Hsum. simpl in Hsum.
  pose proof (gi_count _ HI). pose proof (gi_owed _ HI). pose proof (gi_bound _ HI) as Hb.
  unfold xylem_waitgroup_done. destruct (Z.eqb_spec (wg_count (wg s)) 0); [lia|]. cbv zeta.
  rewrite uwrap_small by (unfold ubound in *; lia). destruct (Z.eqb_spec (wg_count (wg s) - 1) 0) as [Ez|Ez].
  - apply (wg_moved s _ p GDone (GWakeAll (wg_waiters (wg s)))); try done; try apply HI; simpl.
    + lia.
    + unfold ubound in *. lia.
    + lia.
    + apply (waiting_keep _ _ _ (wg_waiters (wg s)) _ _ _ GDone); [apply HI|done|done|]. simpl. solve_Permutation.
    + rewrite Ez. apply length_fmap.
    + intros q Hq _. rewrite Ez. simpl. by rewrite list_lookup_fmap, Hq.
    + intros _ _ q Hq. rewrite Ez. simpl. rewrite list_lookup_fmap. by destruct (lookup_lt_is_Some_2 _ _ Hq) as [? ->].
    + intros q _ _. right. lia.
  - apply (wg_moved s _ p GDone (GWakeAll [])); try done; try apply HI; simpl.
    + lia.
    + unfold ubound in *. lia.
    + lia.
    + apply (waiting_keep _ _ _ (wg_waiters (wg s)) _ _ _ GDone); [apply HI|done..].
    + by destruct (Z.eqb_spec (wg_count (wg s) - 1) 0).
    + by destruct (Z.eqb_spec (wg_count (wg s) - 1) 0).
    + auto.
Qed.

Lemma wg_add_inv s p d : wg_inv s -> gprocs s !! p = Some (GAdd d) -> wg_count (wg s) + d < 2 ^ 64 ->
  wg_inv (xylem_waitgroup_add d p s).
Proof.
  intros HI Hp Hlt. pose proof (gi_pcs _ HI p _ Hp) as Hd. simpl in Hd. pose proof (gi_bound _ HI) as Hb. unfold ubound in Hb.
  pose proof (gi_owed _ HI). unfold xylem_waitgroup_add. rewrite uwrap_small by (unfold ubound; lia).
  set (c := wg_count (wg s) + d).
  assert (forall q, seen s !! q = Some true -> seen (with_wg (WaitGroup c (wg_waiters (wg s))) s) !! q = Some true) as Hseen.
  { intros q Hq. simpl. destruct (c =? 0); [by rewrite list_lookup_fmap, Hq|done]. }
  apply (wg_moved s _ p (GAdd d) GIdle); try done; try apply HI; simpl in *; unfold c in *; try lia.
  - unfold ubound. lia.
  - apply (waiting_keep _ _ _ (wg_waiters (wg s)) _ _ _ (GAdd d)); [apply HI|done..].
  - intros Hz. apply (gi_zero _ HI). lia.
  - destruct (_ =? 0); [by rewrite length_fmap|done].
  - auto.
  - auto.
Qed.

Lemma wg_go_inv s s' p pc : wg_inv s -> gprocs s !! p = Some pc -> wg_go pc p s = Some s' -> wg_inv s'.
Proof.
  intros HI Hp. pose proof (gi_pcs _ HI p pc Hp) as Hok. pose proof (gi_waiting _ HI) as Hw.
  destruct pc as [|d| |l| | | |]; simpl in *.
  - done.
  - intros [= <-]. apply wg_add_inv; [done..|]. pose proof (gi_room _ HI). pose proof (sum_lookup adding _ _ _ Hp) as Hs. simpl in Hs. lia.
  - intros [= <-]. by apply wg_done_inv.
  - intros [= <-]. destruct l as [|t l]; simpl.
    { apply (wg_quiet s _ p (GWakeAll []) GIdle); try done; try apply HI.
      apply (waiting_keep _ _ _ (wg_waiters (wg s)) _ _ _ (GWakeAll [])); done. }
    destruct (waiting_wake _ _ _ _ _ p t (GWakeAll (t :: l)) (GWakeAll l) Hw) as (w' & -> & Hw' & Hk); [done..|].
    apply (wg_quiet s _ p (GWakeAll (t :: l)) (GWakeAll l)); try done; try apply HI.
  - rewrite Hok. intros [= <-].
    destruct (waiting_park _ _ _ _ _ p GPark GCommit Hw) as (w' & -> & Hw' & Hk); [done..|].
    apply (wg_quiet s _ p GPark GCommit); try done; try apply HI.
  - rewrite Hok. intros [= <-]. unfold _wg_wait_commit_cb. destruct (Z.eqb_spec (wg_count (wg s)) 0) as [Ez|Ez]; [|by apply (wg_push_inv s p GCommit); auto].
    destruct (waiting_refuse _ _ _ _ _ p GCommit GSleep Hw) as (w' & -> & Hw' & Hk); [done..|].
    apply (wg_quiet s _ p GCommit GSleep); try done; try apply HI.
  - rewrite Hok. intros [= <-]. destruct (Z.eqb_spec (wg_count (wg s)) 0) as [Ez|Ez]; simpl; [|by apply (wg_push_inv s p GGuard); auto].
    apply (wg_return_inv s _ p GGuard (gwaking s)); try done.
    + by apply (gi_seen _ HI p GGuard).
    + by apply (waiting_keep _ _ _ (wg_waiters (wg s)) _ _ _ GGuard).
  - intros Hs. assert (exists w', resume p (gwaking s) = Some w' /\ s' = wg_return p (with_gwaking (Some w') s)) as (w' & Hr & ->).
    { destruct (is_coro (gwaking s) p), (resume p (gwaking s)) as [w'|]; simpl in Hs; try done; injection Hs as <-; by exists w'. }
    destruct (waiting_resume _ _ _ w' _ _ p GSleep GIdle Hw) as (Hn & Hw' & Hk); [done..|].
    apply (wg_return_inv s _ p GSleep w'); try done. apply (gi_woken _ HI p Hp). unfold due in Hn. set_solver.
Qed.

Lemma wg_step_inv l s s' : wg_inv s -> wg_step l s = Some s' -> wg_inv s'.
Proof.
  intros HI. destruct l as [d p|p|p|p]; simpl.
  4: { destruct (gprocs s !! p) as [pc|] eqn:Hp; simpl; [|done]. by apply wg_go_inv. }
  all: destruct (gprocs s !! p) as [[]|] eqn:Hp; try done.
  - destruct (_ && _) eqn:E; [|done]. apply andb_true_iff in E as [E1%Z.leb_le E2%Z.ltb_lt]. intros [= <-]. apply (wg_quiet s _ p GIdle (GAdd d)); try done; try apply HI.
    apply (waiting_keep _ _ _ (wg_waiters (wg s)) _ _ _ GIdle); try done; try apply HI.
  - destruct (Z.ltb_spec 0 (owed s)); [|done]. intros [= <-]. apply (wg_quiet s _ p GIdle GDone); simpl; try done; try apply HI; try lia.
    apply (waiting_keep _ _ _ (wg_waiters (wg s)) _ _ _ GIdle); try done; try apply HI.
  - intros [= <-]. set (pc' := if is_coro (gwaking s) p then GPark else GGuard).
    assert (wg_mode pc' = Awake /\ wg_targets pc' = [] /\ finishing pc' = 0%nat /\ pc' <> GSleep) as (Hm & Ht & Hf & Hns)
      by (unfold pc'; by destruct (is_coro _ _)).
    assert (wg_pc_ok (gwaking s) p pc') as Hok by (unfold pc'; by destruct (is_coro (gwaking s) p) eqn:E).
    assert (p < length (seen s))%nat as Hlt by (rewrite (gi_length _ HI); by eapply lookup_lt_Some).
    apply (wg_moved s _ p GIdle pc'); simpl; try done; try apply HI.
    + rewrite Hf. simpl. lia.
    + unfold pc'. destruct (is_coro _ _); lia.
    + apply (waiting_keep _ _ _ (wg_waiters (wg s)) _ _ _ GIdle); [apply HI|done|done|by rewrite Ht].
    + by rewrite length_insert.
    + intros q Hq Hne. by rewrite list_lookup_insert_ne.
    + intros _ [Hz|[? _]]; [|done]. rewrite list_lookup_insert_eq, Hz by done. done.
    + auto.
Qed.

Lemma wg_start_inv g w n : xylem_waitgroup_create true = Some g -> (forall p, (p < n)%nat -> in_phase w p Run) ->
  wg_inv (wg_start g w n).
Proof.
  intros [= <-] Hw. split; simpl; try done.
  - rewrite sum_zero; [done|]. by intros p pc [-> _]%lookup_replicate.
  - rewrite sum_zero; [done|]. by intros p pc [-> _]%lookup_replicate.
  - by apply waiting_start.
  - by intros p pc [-> _]%lookup_replicate.
  - by rewrite !length_replicate.
  - by intros p pc [-> _]%lookup_replicate.
  - by intros p [? _]%lookup_replicate.
Qed.

Lemma wg_stuck_pc s p pc : wg_inv s -> gprocs s !! p = Some pc -> wg_step (GStep p) s = None ->
  pc = GIdle \/ pc = GSleep /\ p ∈ due wg_targets (wg_waiters (wg s)) (gprocs s).
Proof.
  intros HI Hp. simpl. rewrite Hp. simpl. pose proof (gi_pcs _ HI p pc Hp) as Hk.
  destruct pc; simpl in *; try done; try (rewrite Hk; done); [by left|].
  intros Hn. right. split; [done|]. apply (waiting_blocks _ _ _ _ _ p GSleep (gi_waiting _ HI)); [done..|].
  destruct (resume p (gwaking s)), (is_coro (gwaking s) p); done.
Qed.

(** C16: In every interleaving of add, done and wait calls of any number of coroutines
    and threads, in which work is finished only after it was added and the work added at any
    time is less than [2^64], so that the counter does not wrap: the counter is the work that
    was added and not yet finished, that of done calls which have not reached their section
    included; neither the zero check of [xylem_waitgroup_done] nor the blocking layer aborts;
    a wait returns only if the counter has been zero since it began; and no wake-up is lost:
    when no call can go on and some process still waits, work is still owed, and the process
    is on the list of those that the last done call wakes. *)
Theorem waitgroup_correct g w n s :
  xylem_waitgroup_create true = Some g -> (forall p, (p < n)%nat -> in_phase w p Run) ->
  reachable wg_step (wg_start g w n) s ->
  wg_count (wg s) = owed s + Z.of_nat (sum_list_with finishing (gprocs s))
  /\ gaborted s = false /\ early s = false
  /\ (forall p, gprocs s !! p = Some GSleep -> (forall q, wg_step (GStep q) s = None) ->
       0 < owed s /\ wg_count (wg s) = owed s /\ p ∈ wg_waiters (wg s)).
Proof.
  intros Hg Hw Hr. assert (wg_inv s) as HI by (eapply reachable_invariant; [by apply wg_start_inv|exact wg_step_inv|exact Hr]).
  split_and!; [apply HI..|]. intros p Hp Hstuck.
  assert (forall q pc, gprocs s !! q = Some pc -> finishing pc = 0%nat /\ wg_targets pc = []) as Hall.
  { intros q pc Hq. by destruct (wg_stuck_pc s q pc HI Hq (Hstuck q)) as [->|[-> _]]. }
  assert (p ∈ wg_waiters (wg s)) as Hin.
  { destruct (wg_stuck_pc s p _ HI Hp (Hstuck p)) as [|[_ Hd]]; [done|].
    apply elem_of_app in Hd as [|(pc & Ht & (q & Hq)%list_elem_of_lookup)%list_elem_of_bind]; [done|].
    destruct (Hall q pc Hq) as [_ E]. rewrite E in Ht. set_solver. }
  pose proof (gi_count _ HI) as Hc. rewrite sum_zero in Hc by (intros q pc Hq; by apply (Hall q)).
  pose proof (gi_bound _ HI) as Hb. pose proof (gi_zero _ HI) as Hz. unfold ubound in Hb.
  split_and!; [|lia|done]. destruct (decide (wg_count (wg s) = 0)) as [E|]; [rewrite (Hz E) in Hin; set_solver|lia].
Qed.
End wait_group.

(** A coroutine and a thread wait for one piece of work. *)
Definition wg_demo : list wg_label :=
  [CallAdd 1 0; GStep 0; CallWait 1; GStep 1; GStep 1; CallWait 2; GStep 2].
Definition wg_demo_contexts : list context := [Thrd 0; Coro SCHED_CORO_RUNNING; Thrd 0].
Definition wg_demo_end : wg_sys :=
  default (wg_start (WaitGroup 0 []) wg_demo_contexts 3) (run wg_step wg_demo (wg_start (WaitGroup 0 []) wg_demo_contexts 3)).
Lemma waitgroup_correct_witness : 0 < owed wg_demo_end /\ wg_count (wg wg_demo_end) = owed wg_demo_end /\ 2%nat ∈ wg_waiters (wg wg_demo_end).
Proof.
  refine (proj2 (proj2 (proj2 (waitgroup_correct (WaitGroup 0 []) wg_demo_contexts 3 wg_demo_end eq_refl _ (ex_intro _ wg_demo _)))) 2%nat _ _).
  - intros [|[|[|p]]] Hp; [exact I..|lia].
  - vm_compute. reflexivity.
  - vm_compute. reflexivity.
  - intros [|[|[|p]]]; vm_compute; reflexivity.
Defined.
