(* ===== verification/Sem.v ===== *)
(** * Counting semaphore (src/sync/xylem-sem.c)

    Any number of coroutines and threads wait for, try and post tokens of one
    semaphore, with and without time limits.  Steps are the accesses of [count] and of
    the reference counts, the sections under [guard], and the calls of the blocking
    layer and of the scheduler's timers.  A section accesses [count] once, and the list
    of waiters is accessed nowhere else, so a section takes effect at once; an attempt
    of [_sem_try_take] takes effect at the exchange that succeeds or at the load that
    finds zero.

    A timer that was started is armed; it fires in some process, which then runs the
    callback, or is stopped before, which is what [scheduler_timer_stop] reports.  Time
    itself is not modelled: a timer may fire and a timed thread give up at any moment.
    Reference counts stay below [2^31]. *)

From S2P Require Import Prelude Interleave Parking.

Inductive timer_state := Inert | Armed | Fired.
(** [_waiter_t] with [_coro_waiter_t]; for a waiter on the stack of its process [wref]
    is one until the call returns. *)
Record sem_waiter := SemWaiter { sw_process : nat; queued : bool; timer_fired : bool; wref : Z; timer : timer_state }.

(** The list of waiters holds a process and the waiter of its call. *)
Record xylem_sem_t := Sem { scount : Z; srefcnt : Z; squeue : list (nat * nat) }.
Definition xylem_sem_create (calloc_ok : bool) (value : Z) : option xylem_sem_t :=
  if calloc_ok then Some (Sem value 1 []) else None.

(** Where a process is.  [timed] tells [xylem_sem_timedwait] from [xylem_sem_wait], [w]
    is the waiter, [f] what was read of [timer_fired], [r] the result to return. *)
Inductive sem_pc :=
| SIdle
| STry                            (* xylem_sem_timedwait with no time *)
| STake (timed : bool)            (* attempt before waiting *)
| SAlloc                          (* allocations of _sem_timedwait_coro *)
| SRef (timed : bool) (w : nat) | SPark (timed : bool) (w : nat) | SCommit (timed : bool) (w : nat) | SSleep (timed : bool) (w : nat)
| SLoad (w : nat) | SStop (w : nat) (f : bool) | SDropW (w : nat) (f : bool) | SDropS (w : nat) (f : bool)
| SUnrefW (w : nat) (f : bool) | SUnrefS (r : bool)
| SUnref (w : nat)                (* end of _sem_wait_coro *)
| SGuard (timed : bool) (w : nat) | SBlocked (timed : bool) (w : nat) | SCancel (w : nat)
| SPost | SWake (t w : nat)
| SDestroy
| CbGuard (t w : nat) | CbWake (t w : nat) | CbUnrefW (w : nat) | CbUnrefS.

#[export] Instance sem_pc_eq : EqDecision sem_pc.
Proof. solve_decision. Defined.

Section sem.
Context `{Parking W}.

(** Bookkeeping: [salive] until the creator gives up its handle; [supply] the initial
    value and the posts; [grants] the tokens taken or handed over; [wins] the waits that
    returned with a token; [tokens] those each process has been given in its call. *)
Record sem_ghost := SemGhost { salive : bool; supply : Z; grants : Z; wins : Z; tokens : list nat }.
(** [sfault] records an abort of the blocking layer or an access of freed memory. *)
Record sem_sys := SemSys {
  sem : xylem_sem_t; sws : list sem_waiter; swaking : W; sprocs : list sem_pc; sghost : sem_ghost; sfault : bool }.

Definition at_spc (p : nat) (pc : sem_pc) (s : sem_sys) : sem_sys :=
  SemSys (sem s) (sws s) (swaking s) (<[p := pc]> (sprocs s)) (sghost s) (sfault s).
Definition with_sem (m : xylem_sem_t) (s : sem_sys) : sem_sys :=
  SemSys m (sws s) (swaking s) (sprocs s) (sghost s) (sfault s).
Definition with_ghost (g : sem_ghost) (s : sem_sys) : sem_sys :=
  SemSys (sem s) (sws s) (swaking s) (sprocs s) g (sfault s).
Definition with_waiter (w : nat) (f : sem_waiter -> sem_waiter) (s : sem_sys) : sem_sys :=
  SemSys (sem s) (alter f w (sws s)) (swaking s) (sprocs s) (sghost s) (sfault s).
Definition with_swaking (w : option W) (s : sem_sys) : sem_sys :=
  match w with
  | Some w => SemSys (sem s) (sws s) w (sprocs s) (sghost s) (sfault s)
  | None => SemSys (sem s) (sws s) (swaking s) (sprocs s) (sghost s) true
  end.
Definition new_waiter (p : nat) (s : sem_sys) : sem_sys :=
  SemSys (sem s) (sws s ++ [SemWaiter p false false 1 Inert]) (swaking s) (sprocs s) (sghost s) (sfault s).

Definition set_queued (b : bool) (x : sem_waiter) := SemWaiter (sw_process x) b (timer_fired x) (wref x) (timer x).
Definition set_fired (x : sem_waiter) := SemWaiter (sw_process x) (queued x) true (wref x) (timer x).
Definition add_wref (n : Z) (x : sem_waiter) := SemWaiter (sw_process x) (queued x) (timer_fired x) (wref x + n) (timer x).
Definition set_timer (t : timer_state) (x : sem_waiter) := SemWaiter (sw_process x) (queued x) (timer_fired x) (wref x) t.

(** The token goes to process [p]. *)
Definition grant (p : nat) (s : sem_sys) : sem_sys :=
  let g := sghost s in with_ghost (SemGhost (salive g) (supply g) (grants g + 1) (wins g) (<[p := 1%nat]> (tokens g))) s.
(** The call of [p] returns [r]. *)
Definition sem_return (r : bool) (p : nat) (s : sem_sys) : sem_sys :=
  let g := sghost s in
  at_spc p SIdle (with_ghost (SemGhost (salive g) (supply g) (grants g)
    (if r then wins g + 1 else wins g) (<[p := 0%nat]> (tokens g))) s).

Definition _sem_ref (s : sem_sys) : sem_sys := with_sem (Sem (scount (sem s)) (srefcnt (sem s) + 1) (squeue (sem s))) s.
Definition _sem_unref (s : sem_sys) : sem_sys := with_sem (Sem (scount (sem s)) (srefcnt (sem s) - 1) (squeue (sem s))) s.
Definition _sem_coro_timed_ref (w : nat) : sem_sys -> sem_sys := with_waiter w (add_wref 1).
Definition _sem_coro_timed_unref (w : nat) : sem_sys -> sem_sys := with_waiter w (add_wref (-1)).

Definition _sem_try_take (p : nat) (s : sem_sys) : bool * sem_sys :=
  if 0 <? scount (sem s)
  then (true, grant p (with_sem (Sem (u32 (scount (sem s) - 1)) (srefcnt (sem s)) (squeue (sem s))) s))
  else (false, s).
Definition _sem_push_waiter (p w : nat) (s : sem_sys) : sem_sys :=
  with_waiter w (set_queued true) (with_sem (Sem (scount (sem s)) (srefcnt (sem s)) (squeue (sem s) ++ [(p, w)])) s).
Definition _sem_pop_waiter (s : sem_sys) : option (nat * nat) * sem_sys :=
  match squeue (sem s) with
  | [] => (None, s)
  | (t, w) :: rest => (Some (t, w), with_waiter w (set_queued false) (with_sem (Sem (scount (sem s)) (srefcnt (sem s)) rest) s))
  end.
Definition _sem_cancel_waiter (w : nat) (s : sem_sys) : bool * sem_sys :=
  match sws s !! w with
  | Some x => if queued x
              then (true, with_waiter w (set_queued false)
                     (with_sem (Sem (scount (sem s)) (srefcnt (sem s)) (filter (fun e => e.2 <> w) (squeue (sem s)))) s))
              else (false, s)
  | None => (false, s)
  end.
Definition scheduler_timer_stop (w : nat) (s : sem_sys) : bool * sem_sys :=
  match timer <$> (sws s !! w) with
  | Some Armed => (true, with_waiter w (set_timer Inert) s)
  | _ => (false, s)
  end.

(** ** Waiting coroutines *)

Definition _sem_wait_commit_cb (timed : bool) (p w : nat) (s : sem_sys) : sem_sys :=
  match _sem_try_take p s with
  | (true, s) => at_spc p (SSleep timed w) (with_swaking (wake p (swaking s)) s)
  | (false, s) =>
      let s := _sem_push_waiter p w s in
      let s := if timed then with_waiter w (set_timer Armed) (_sem_coro_timed_ref w (_sem_ref s)) else s in
      at_spc p (SSleep timed w) s
  end.

(** [scheduler_coro_park] and the callback, for both kinds of waits. *)
Definition sem_park (pc : sem_pc) (p : nat) (s : sem_sys) : option sem_sys :=
  match pc with
  | SRef timed w => Some (at_spc p (SPark timed w) (_sem_ref s))
  | SPark timed w => Some (at_spc p (SCommit timed w) (with_swaking (park p (swaking s)) s))
  | SCommit timed w => Some (_sem_wait_commit_cb timed p w s)
  | SSleep timed w =>
      r ← resume p (swaking s);
      Some (at_spc p (if timed then SLoad w else SUnref w) (with_swaking (Some r) s))
  | _ => None
  end.
Definition _sem_wait_coro (pc : sem_pc) (p : nat) (s : sem_sys) : option sem_sys :=
  match pc with
  | SUnref w => Some (sem_return true p (with_waiter w (add_wref (-1)) (_sem_unref s)))
  | _ => sem_park pc p s
  end.
(** A failed allocation returns false; see [SFail] below. *)
Definition _sem_timedwait_coro (pc : sem_pc) (p : nat) (s : sem_sys) : option sem_sys :=
  match pc with
  | SAlloc => Some (at_spc p (SRef true (length (sws s))) (new_waiter p s))
  | SLoad w => x ← sws s !! w; Some (at_spc p (SStop w (timer_fired x)) s)
  | SStop w f => Some (match scheduler_timer_stop w s with
                       | (true, s) => at_spc p (SDropW w f) s
                       | (false, s) => at_spc p (SUnrefW w f) s
                       end)
  | SDropW w f => Some (at_spc p (SDropS w f) (_sem_coro_timed_unref w s))
  | SDropS w f => Some (at_spc p (SUnrefW w f) (_sem_unref s))
  | SUnrefW w f => Some (at_spc p (SUnrefS (negb f)) (_sem_coro_timed_unref w s))
  | SUnrefS r => Some (sem_return r p (_sem_unref s))
  | _ => sem_park pc p s
  end.

(** ** Waiting threads *)

(** [_sem_wait_thrd] is the case without time limit, in which [SCancel] is not reached. *)
Definition _sem_timedwait_thrd (pc : sem_pc) (p : nat) (s : sem_sys) : option sem_sys :=
  match pc with
  | SGuard timed w => Some (match _sem_try_take p s with
                            | (true, s) => sem_return true p (with_waiter w (add_wref (-1)) s)
                            | (false, s) => at_spc p (SBlocked timed w) (_sem_push_waiter p w s)
                            end)
  | SBlocked _ w => r ← resume p (swaking s); Some (sem_return true p (with_waiter w (add_wref (-1)) (with_swaking (Some r) s)))
  | SCancel w => Some (match _sem_cancel_waiter w s with
                       | (true, s) => sem_return false p (with_waiter w (add_wref (-1)) s)
                       | (false, s) => at_spc p (SBlocked false w) s
                       end)
  | _ => None
  end.

Definition xylem_sem_wait (timed : bool) (p : nat) (s : sem_sys) : sem_sys :=
  match _sem_try_take p s with
  | (true, s) => sem_return true p s
  | (false, s) =>
      if is_coro (swaking s) p
      then if timed then at_spc p SAlloc s else at_spc p (SRef false (length (sws s))) (new_waiter p s)
      else at_spc p (SGuard timed (length (sws s))) (new_waiter p s)
  end.

(** ** The timer callback and the post *)

Definition _sem_timeout_cb (pc : sem_pc) (p : nat) (s : sem_sys) : option sem_sys :=
  match pc with
  | CbGuard t w => Some (match _sem_cancel_waiter w s with
                         | (true, s) => at_spc p (CbWake t w) (with_waiter w set_fired s)
                         | (false, s) => at_spc p (CbUnrefW w) s
                         end)
  | CbWake t w => Some (at_spc p (CbUnrefW w) (with_swaking (wake t (swaking s)) s))
  | CbUnrefW w => Some (at_spc p CbUnrefS (_sem_coro_timed_unref w s))
  | CbUnrefS => Some (at_spc p SIdle (_sem_unref s))
  | _ => None
  end.

Definition supplied (s : sem_sys) : sem_sys :=
  let g := sghost s in with_ghost (SemGhost (salive g) (supply g + 1) (grants g) (wins g) (tokens g)) s.
Definition xylem_sem_post (pc : sem_pc) (p : nat) (s : sem_sys) : option sem_sys :=
  match pc with
  | SPost =>
      let s := supplied s in
      Some (match _sem_pop_waiter s with
            | (Some (t, w), s) => at_spc p (SWake t w) (grant t s)
            | (None, s) => at_spc p SIdle (with_sem (Sem (u32 (scount (sem s) + 1)) (srefcnt (sem s)) (squeue (sem s))) s)
            end)
  | SWake t w => Some (at_spc p SIdle (with_swaking (wake t (swaking s)) s))
  | _ => None
  end.

Definition sem_go (pc : sem_pc) (p : nat) (s : sem_sys) : option sem_sys :=
  match pc with
  | SIdle => None
  | STry => Some (let '(r, s) := _sem_try_take p s in sem_return r p s)
  | STake timed => Some (xylem_sem_wait timed p s)
  | SRef timed _ | SPark timed _ | SCommit timed _ | SSleep timed _ =>
      if timed then _sem_timedwait_coro pc p s else _sem_wait_coro pc p s
  | SUnref _ => _sem_wait_coro pc p s
  | SAlloc | SLoad _ | SStop _ _ | SDropW _ _ | SDropS _ _ | SUnrefW _ _ | SUnrefS _ => _sem_timedwait_coro pc p s
  | SGuard _ _ | SBlocked _ _ | SCancel _ => _sem_timedwait_thrd pc p s
  | SPost | SWake _ _ => xylem_sem_post pc p s
  | SDestroy => Some (at_spc p SIdle (_sem_unref s))
  | CbGuard _ _ | CbWake _ _ | CbUnrefW _ | CbUnrefS => _sem_timeout_cb pc p s
  end.

(** The waiter and the semaphore a step accesses must not have been freed. *)
Definition accessed (pc : sem_pc) : option nat :=
  match pc with
  | SRef _ w | SPark _ w | SCommit _ w | SSleep _ w | SLoad w | SStop w _ | SDropW w _ | SUnrefW w _
  | SUnref w | SGuard _ w | SBlocked _ w | SCancel w | SWake _ w | CbGuard _ w | CbWake _ w | CbUnrefW w => Some w
  | _ => None
  end.
Definition freed (pc : sem_pc) (s : sem_sys) : bool :=
  (srefcnt (sem s) <=? 0) || match accessed pc with
                             | Some w => match sws s !! w with Some x => wref x <=? 0 | None => true end
                             | None => false
                             end.
Definition checked (pc : sem_pc) (s s' : sem_sys) : sem_sys :=
  if freed pc s then SemSys (sem s') (sws s') (swaking s') (sprocs s') (sghost s') true else s'.

(** Calls begin when their process is idle and the handle has not been given up; it is
    given up when no call is in progress; posts do not overflow the counter.  [SFail]
    is a failed allocation, [Timeout] the end of the time of a thread, [Fire] the start
    of a timer's callback in process [p]. *)
Inductive sem_label :=
| SCall (pc : sem_pc) (p : nat) | SFail (p : nat) | Timeout (p : nat) | Fire (w p : nat) | SStep (p : nat).
Definition entry (pc : sem_pc) : bool :=
  match pc with STry | STake _ | SPost | SDestroy => true | _ => false end.
Definition calling (pc : sem_pc) : bool :=
  match pc with SIdle | SDestroy | CbGuard _ _ | CbWake _ _ | CbUnrefW _ | CbUnrefS => false | _ => true end.
Definition relinquish (s : sem_sys) : sem_sys :=
  let g := sghost s in with_ghost (SemGhost false (supply g) (grants g) (wins g) (tokens g)) s.

Definition sem_step (l : sem_label) (s : sem_sys) : option sem_sys :=
  match l with
  | SCall pc p =>
      match sprocs s !! p with
      | Some SIdle =>
          if negb (entry pc && salive (sghost s)) then None
          else match pc with
               | SDestroy => if existsb calling (sprocs s) then None else Some (at_spc p pc (relinquish s))
               | _ => Some (at_spc p pc s)
               end
      | _ => None
      end
  | SFail p => match sprocs s !! p with Some SAlloc => Some (sem_return false p s) | _ => None end
  | Timeout p => match sprocs s !! p with Some (SBlocked true w) => Some (at_spc p (SCancel w) s) | _ => None end
  | Fire w p =>
      match sprocs s !! p, sws s !! w with
      | Some SIdle, Some x =>
          match timer x with Armed => Some (at_spc p (CbGuard (sw_process x) w) (with_waiter w (set_timer Fired) s)) | _ => None end
      | _, _ => None
      end
  | SStep p =>
      pc ← sprocs s !! p;
      match pc with
      | SPost => if scount (sem s) + 1 <? 2 ^ 32 then checked pc s <$> sem_go pc p s else None
      | _ => checked pc s <$> sem_go pc p s
      end
  end.
Definition sem_start (m : xylem_sem_t) (w : W) (n : nat) : sem_sys :=
  SemSys m [] w (replicate n SIdle) (SemGhost true (scount m) 0 0 (replicate n 0%nat)) false.
End sem.
