(* ===== verification/SemCorrect.v ===== *)
(** * Correctness of the counting semaphore (src/sync/xylem-sem.c)

    An invariant of every interleaving of the operations of [Sem], and what follows
    from it: tokens are conserved, no wake-up is lost, and reference counting keeps the
    semaphore and the waiters alive as long as they are used and no longer. *)

From S2P Require Import Prelude Interleave Parking Sem.

Section sem_correct.
Context `{Parking W}.
Implicit Types s : sem_sys (W := W).

(** ** The invariant *)

Definition sem_mode (pc : sem_pc) : mode :=
  match pc with SSleep _ _ | SBlocked _ _ | SCancel _ => Sleeping | SCommit _ _ => Committing | _ => Awake end.
Definition sem_targets (pc : sem_pc) : list nat := match pc with SWake t _ | CbWake t _ => [t] | _ => [] end.
Definition sleeps_on (pc : sem_pc) : option nat :=
  match pc with SSleep _ w | SBlocked _ w | SCancel w => Some w | _ => None end.

(** References to waiter [w], and to the semaphore, that a process holds. *)
Definition holds (w : nat) (pc : sem_pc) : nat :=
  match pc with
  | SRef _ v | SPark _ v | SCommit _ v | SSleep _ v | SLoad v | SStop v _ | SDropS v _ | SUnrefW v _ | SUnref v
  | SGuard _ v | SBlocked _ v | SCancel v | CbGuard _ v | CbWake _ v | CbUnrefW v => if decide (v = w) then 1 else 0
  | SDropW v _ => if decide (v = w) then 2 else 0
  | _ => 0
  end.
Definition srefs (pc : sem_pc) : nat :=
  match pc with
  | SPark _ _ | SCommit _ _ | SSleep _ _ | SLoad _ | SStop _ _ | SUnrefW _ _ | SUnrefS _ | SUnref _
  | SDestroy | CbGuard _ _ | CbWake _ _ | CbUnrefW _ | CbUnrefS => 1
  | SDropW _ _ | SDropS _ _ => 2
  | _ => 0
  end.
Definition armed (x : sem_waiter) : nat := match timer x with Armed => 1 | _ => 0 end.

Definition has_token s (p n : nat) : Prop := tokens (sghost s) !! p = Some n.
Definition owns s (p w : nat) (P : sem_waiter -> Prop) : Prop :=
  exists x, sws s !! w = Some x /\ sw_process x = p /\ P x.
Definition fresh (x : sem_waiter) : Prop := queued x = false /\ timer_fired x = false /\ timer x = Inert.
Definition bit (b : bool) : nat := if b then 1 else 0.

(** What holds of a process at [pc]. *)
Definition sem_pc_ok s (p : nat) (pc : sem_pc) : Prop :=
  match pc with
  | SRef _ w | SPark _ w | SCommit _ w => is_coro (swaking s) p = true /\ has_token s p 0 /\ owns s p w fresh
  | SGuard _ w => is_coro (swaking s) p = false /\ has_token s p 0 /\ owns s p w fresh
  | SSleep timed w => is_coro (swaking s) p = true /\ owns s p w (fun x =>
      has_token s p (bit (negb (queued x || timer_fired x))) /\ (queued x = true -> timer_fired x = false)
      /\ (timed = false -> timer_fired x = false /\ timer x = Inert))
  | SBlocked _ w | SCancel w => is_coro (swaking s) p = false /\ owns s p w (fun x =>
      has_token s p (bit (negb (queued x))) /\ timer_fired x = false /\ timer x = Inert)
  | SLoad w => is_coro (swaking s) p = true /\ owns s p w (fun x => has_token s p (bit (negb (timer_fired x))) /\ queued x = false)
  | SStop w f | SDropW w f | SDropS w f | SUnrefW w f =>
      is_coro (swaking s) p = true /\ has_token s p (bit (negb f)) /\ owns s p w (fun x => queued x = false)
  | SUnref w => is_coro (swaking s) p = true /\ has_token s p 1 /\ owns s p w (fun x => queued x = false)
  | SUnrefS r => is_coro (swaking s) p = true /\ has_token s p (bit r)
  | SAlloc => is_coro (swaking s) p = true /\ has_token s p 0
  | CbGuard t w | CbWake t w => has_token s p 0 /\ owns s t w (fun x => timer x = Fired)
  | CbUnrefW w => has_token s p 0 /\ is_Some (sws s !! w)
  | _ => has_token s p 0
  end.
Definition asleep_on s (t w : nat) : Prop := exists pc, sprocs s !! t = Some pc /\ sleeps_on pc = Some w.

Record sem_inv s : Prop := {
  si_count : scount (sem s) + grants (sghost s) = supply (sghost s);
  si_bound : ubound 32 (scount (sem s));
  si_tokens : grants (sghost s) = wins (sghost s) + Z.of_nat (sum_list_with id (tokens (sghost s)));
  si_length : length (tokens (sghost s)) = length (sprocs s);
  si_empty : squeue (sem s) <> [] -> scount (sem s) = 0;
  si_waiting : waiting sem_mode sem_targets (swaking s) (squeue (sem s)).*1 (sprocs s);
  si_ref : srefcnt (sem s) = Z.of_nat (bit (salive (sghost s)) + sum_list_with srefs (sprocs s) + sum_list_with armed (sws s));
  si_wref w x : sws s !! w = Some x -> wref x = Z.of_nat (sum_list_with (holds w) (sprocs s) + armed x);
  si_pcs p pc : sprocs s !! p = Some pc -> sem_pc_ok s p pc;
  si_queue t w : (t, w) ∈ squeue (sem s) -> asleep_on s t w /\ exists x, sws s !! w = Some x /\ queued x = true;
  si_queued w x : sws s !! w = Some x -> queued x = true -> exists t, (t, w) ∈ squeue (sem s);
  si_wakes q t w : sprocs s !! q = Some (SWake t w) \/ sprocs s !! q = Some (CbWake t w) -> asleep_on s t w;
  si_alive p pc : salive (sghost s) = false -> sprocs s !! p = Some pc -> calling pc = false;
  si_fault : sfault s = false
}.

(** What the facts about process [q] depend on. *)
Definition frame s s' (q : nat) : Prop :=
  is_coro (swaking s') q = is_coro (swaking s) q /\ tokens (sghost s') !! q = tokens (sghost s) !! q
  /\ forall w x, sws s !! w = Some x -> exists x', sws s' !! w = Some x' /\ sw_process x' = sw_process x
       /\ (timer x = Fired -> timer x' = Fired)
       /\ (sw_process x = q -> queued x' = queued x /\ timer_fired x' = timer_fired x /\ (timer x = Inert -> timer x' = Inert)).

Lemma owns_frame s s' q w (P Q : sem_waiter -> Prop) : frame s s' q -> owns s q w P ->
  (forall x x', P x -> queued x' = queued x -> timer_fired x' = timer_fired x -> (timer x = Inert -> timer x' = Inert) -> Q x') ->
  owns s' q w Q.
Proof.
  intros (_ & _ & Hw) (x & Hx & Hp & HP) HQ. destruct (Hw w x Hx) as (x' & Hx' & Hp' & _ & Hme).
  destruct (Hme Hp) as (H1 & H2 & H3). exists x'. split_and!; [done|congruence|by eapply HQ].
Qed.
Lemma pc_ok_frame s s' q pc : frame s s' q -> sem_pc_ok s q pc -> sem_pc_ok s' q pc.
Proof.
  intros Hf Hpc. pose proof Hf as (Hk & Ht & Hw).
  assert (forall n, has_token s q n -> has_token s' q n) as HT by (unfold has_token; intros n; by rewrite Ht).
  destruct pc; simpl in *; rewrite ?Hk; auto.
  all: repeat match goal with H : _ /\ _ |- _ => destruct H end.
  all: try (split_and!; auto; eapply owns_frame; [done..|]; unfold fresh; intros x x' HP E1 E2 E3; rewrite ?E1, ?E2; naive_solver).
  all: split; [by auto|]; try by auto.
  3: match goal with HS : is_Some _ |- _ => destruct HS as [x Hx] end; destruct (Hw _ x Hx) as (x' & Hx' & _); by exists x'.
  all: match goal with HO : owns _ _ _ _ |- _ => destruct HO as (x & Hx & Hp & HF) end;
    destruct (Hw _ x Hx) as (x' & Hx' & Hp' & HF' & _); exists x'; split_and!; [done|congruence|auto].
Qed.

Notation sdue s := (due sem_targets (squeue (sem s)).*1 (sprocs s)).

(** No waker has process [p] as its target. *)
Definition untargeted s (p : nat) : Prop :=
  forall q pc, q <> p -> sprocs s !! q = Some pc -> p ∉ sem_targets pc.
Lemma not_due_untargeted s p : p ∉ sdue s -> untargeted s p /\ forall w, (p, w) ∉ squeue (sem s).
Proof.
  intros Hn. split.
  - intros q pc _ Hq Ht. apply Hn, elem_of_app. right. apply list_elem_of_bind. exists pc. split; [done|].
    by apply list_elem_of_lookup_2 in Hq.
  - intros w Hw. apply Hn, elem_of_app. left. apply list_elem_of_fmap. by exists (p, w).
Qed.

(** Accounting of references when process [p] moves from [pc] to [pc']: old waiters,
    and perhaps a new one. *)
Definition refs_ok s s' (pc pc' : sem_pc) : Prop :=
  srefcnt (sem s') + Z.of_nat (srefs pc + bit (salive (sghost s)) + sum_list_with armed (sws s))
  = srefcnt (sem s) + Z.of_nat (srefs pc' + bit (salive (sghost s')) + sum_list_with armed (sws s'))
  /\ forall w x', sws s' !! w = Some x' ->
     match sws s !! w with
     | Some x => wref x' + Z.of_nat (holds w pc + armed x) = wref x + Z.of_nat (holds w pc' + armed x')
     | None => wref x' = 1 /\ armed x' = 0%nat /\ holds w pc' = 1%nat
     end.

Lemma holds_owned s p pc w : sem_pc_ok s p pc -> sws s !! w = None -> holds w pc = 0%nat.
Proof.
  intros Hpc Hw. assert (forall q v P, owns s q v P -> v <> w) as HO by (intros q v P (x & Hx & _) ->; congruence).
  destruct pc; simpl in *; try done; rewrite decide_False; try done; try naive_solver.
  all: destruct Hpc as [_ [x Hx]]; intros ->; congruence.
Qed.

(** What is left to show when process [p] moves from [pc] to [pc']. *)
Lemma sem_moved s s' p pc pc' :
  sem_inv s -> sprocs s !! p = Some pc -> sprocs s' = <[p := pc']> (sprocs s) ->
  scount (sem s') + grants (sghost s') = supply (sghost s') -> ubound 32 (scount (sem s')) ->
  grants (sghost s') = wins (sghost s') + Z.of_nat (sum_list_with id (tokens (sghost s'))) ->
  length (tokens (sghost s')) = length (tokens (sghost s)) ->
  (squeue (sem s') <> [] -> scount (sem s') = 0) ->
  waiting sem_mode sem_targets (swaking s') (squeue (sem s')).*1 (<[p := pc']> (sprocs s)) ->
  refs_ok s s' pc pc' -> sem_pc_ok s' p pc' ->
  (forall q pq, q <> p -> sprocs s !! q = Some pq -> sem_pc_ok s' q pq) ->
  (forall t w, (t, w) ∈ squeue (sem s') -> t <> p -> (t, w) ∈ squeue (sem s)) ->
  (sleeps_on pc' = sleeps_on pc /\ (forall w, (p, w) ∈ squeue (sem s') -> (p, w) ∈ squeue (sem s))
   \/ untargeted s p /\ forall w, (p, w) ∈ squeue (sem s') -> sleeps_on pc' = Some w) ->
  (forall t w, (t, w) ∈ squeue (sem s') -> exists x, sws s' !! w = Some x /\ queued x = true) ->
  (forall w x, sws s' !! w = Some x -> queued x = true -> exists t, (t, w) ∈ squeue (sem s')) ->
  (forall t w, pc' = SWake t w \/ pc' = CbWake t w -> asleep_on s' t w) ->
  (salive (sghost s') = false -> calling pc' = false /\ (salive (sghost s) = false \/ existsb calling (sprocs s) = false)) ->
  sfault s' = false -> sem_inv s'.
Proof.
  intros HI Hp Hs' Hc Hb Ht Hlen He Hw [Hr Hwr] Hok Hoth Hq Hkeep Hqs Hsq Hwk Hal Hf.
  assert (forall t w, t <> p -> asleep_on s t w -> asleep_on s' t w) as Hst.
  { intros t w Hne (pt & Hpt & Hsl). exists pt. by rewrite Hs', list_lookup_insert_ne. }
  assert (forall w, sleeps_on pc' = Some w -> asleep_on s' p w) as Hsp.
  { intros w Hsl. exists pc'. rewrite Hs', list_lookup_insert_eq by (by eapply lookup_lt_Some). done. }
  assert (forall w, sleeps_on pc' = sleeps_on pc -> asleep_on s p w -> asleep_on s' p w) as Hsame.
  { intros w E (pp & Hpp & Hsl). apply Hsp. congruence. }
  split; try done.
  - rewrite Hs', length_insert. rewrite Hlen. apply HI.
  - by rewrite Hs'.
  - rewrite Hs'. pose proof (sum_insert srefs _ _ _ pc' Hp). pose proof (si_ref _ HI). lia.
  - intros w x Hx. rewrite Hs'. pose proof (sum_insert (holds w) _ _ _ pc' Hp) as Hsum. specialize (Hwr w x Hx).
    destruct (sws s !! w) as [x0|] eqn:E; [pose proof (si_wref _ HI w x0 E); lia|].
    rewrite (sum_zero (holds w) (sprocs s)) in Hsum; [|intros q pq Hq'; by eapply holds_owned; [apply HI|]].
    pose proof (holds_owned s p pc w (si_pcs _ HI p pc Hp) E). lia.
  - intros q pq. rewrite Hs', list_lookup_insert_Some. intros [(<- & <- & _)|[Hne Hpq]]; [done|by apply Hoth].
  - intros t w Hin. split; [|by eapply Hqs]. destruct (decide (t = p)) as [->|Hne].
    + destruct Hkeep as [[E Hk]|[_ Hk]]; [|auto]. apply Hsame; [done|]. by apply (si_queue _ HI), Hk.
    + apply Hst; [done|]. apply (si_queue _ HI). auto.
  - intros q t w. rewrite Hs', !list_lookup_insert_Some. destruct (decide (q = p)) as [->|Hne].
    { intros [[(_ & -> & _)|[]]|[(_ & -> & _)|[]]]; try done; auto. }
    intros Hor. assert (sprocs s !! q = Some (SWake t w) \/ sprocs s !! q = Some (CbWake t w)) as Hor' by naive_solver.
    pose proof (si_wakes _ HI q t w Hor') as Ha. destruct (decide (t = p)) as [->|Hne']; [|auto].
    destruct Hkeep as [[E _]|[Hun _]]; [by apply Hsame|]. exfalso.
    destruct Hor' as [Hq'|Hq']; apply (Hun q _ Hne Hq'); simpl; set_solver.
  - intros q pq Hdead. destruct (Hal Hdead) as [Hcp Hor]. rewrite Hs', list_lookup_insert_Some.
    intros [(_ & <- & _)|[Hne Hpq]]; [done|]. destruct Hor as [Hd|Hd]; [by eapply (si_alive _ HI)|].
    apply not_true_is_false. intros Hcq. rewrite <-not_true_iff_false, existsb_exists in Hd. apply Hd.
    exists pq. split; [|done]. apply list_elem_of_In. by eapply list_elem_of_lookup_2.
Qed.

(** ** Moves that leave the list of waiters alone *)

Lemma frame_same s s' q : is_coro (swaking s') q = is_coro (swaking s) q ->
  tokens (sghost s') !! q = tokens (sghost s) !! q -> sws s' = sws s -> frame s s' q.
Proof. intros Hk Ht Hw. split_and!; [done..|]. rewrite Hw. intros w x Hx. by exists x. Qed.
Lemma frame_alter s s' q v f : is_coro (swaking s') q = is_coro (swaking s) q ->
  tokens (sghost s') !! q = tokens (sghost s) !! q -> sws s' = alter f v (sws s) ->
  (forall x, sws s !! v = Some x -> sw_process (f x) = sw_process x /\ (timer x = Fired -> timer (f x) = Fired)
    /\ (sw_process x = q -> queued (f x) = queued x /\ timer_fired (f x) = timer_fired x /\ (timer x = Inert -> timer (f x) = Inert))) ->
  frame s s' q.
Proof.
  intros Hk Ht Hw Hf. split_and!; [done..|]. rewrite Hw. intros w x Hx. destruct (decide (w = v)) as [->|Hne].
  - exists (f x). rewrite list_lookup_alter_eq, Hx. split; [done|auto].
  - exists x. by rewrite list_lookup_alter_ne by done.
Qed.

Lemma refs_same s s' pc pc' : sws s' = sws s -> salive (sghost s') = salive (sghost s) ->
  srefcnt (sem s') + Z.of_nat (srefs pc) = srefcnt (sem s) + Z.of_nat (srefs pc') ->
  (forall w, holds w pc' = holds w pc) -> refs_ok s s' pc pc'.
Proof.
  intros Hw Ha Hr Hh. split; [rewrite Hw, Ha; lia|]. rewrite Hw. intros w x Hx. rewrite Hx, Hh. lia.
Qed.
Lemma refs_alter s s' pc pc' v f x : sws s !! v = Some x -> sws s' = alter f v (sws s) ->
  salive (sghost s') = salive (sghost s) ->
  srefcnt (sem s') + Z.of_nat (srefs pc + armed x) = srefcnt (sem s) + Z.of_nat (srefs pc' + armed (f x)) ->
  wref (f x) + Z.of_nat (holds v pc + armed x) = wref x + Z.of_nat (holds v pc' + armed (f x)) ->
  (forall w, w <> v -> holds w pc' = holds w pc) -> refs_ok s s' pc pc'.
Proof.
  intros Hx Hw Ha Hr Hwr Hh. pose proof (sum_alter armed f _ _ _ Hx). split; [rewrite Hw, Ha; lia|].
  rewrite Hw. intros w x'. destruct (decide (w = v)) as [->|Hne].
  - rewrite list_lookup_alter_eq, Hx. intros [= <-]. lia.
  - rewrite list_lookup_alter_ne by done. intros Hx'. rewrite Hx', Hh by done. lia.
Qed.
Lemma refs_new s s' p pc pc' : sws s' = sws s ++ [SemWaiter p false false 1 Inert] ->
  salive (sghost s') = salive (sghost s) -> srefcnt (sem s') + Z.of_nat (srefs pc) = srefcnt (sem s) + Z.of_nat (srefs pc') ->
  holds (length (sws s)) pc' = 1%nat -> (forall w, w <> length (sws s) -> holds w pc' = holds w pc) -> refs_ok s s' pc pc'.
Proof.
  intros Hw Ha Hr Hn Hh. split; [rewrite Hw, Ha, sum_list_with_app; simpl; lia|].
  rewrite Hw. intros w x' [Hx|[Hge Hx]]%lookup_app_Some.
  - rewrite Hx, Hh by (apply lookup_lt_Some in Hx; lia). lia.
  - apply list_lookup_singleton_Some in Hx as [Hx <-]. assert (w = length (sws s)) as -> by lia.
    by rewrite lookup_ge_None_2 by lia.
Qed.

(** The waiters that are on the list are the same. *)
Definition same_queued s s' : Prop :=
  forall w, (queued <$> sws s' !! w) = Some true <-> (queued <$> sws s !! w) = Some true.
Lemma queued_same s s' : sws s' = sws s -> same_queued s s'.
Proof. intros Hw w. by rewrite Hw. Qed.
Lemma queued_alter s s' v f : sws s' = alter f v (sws s) -> (forall x, queued (f x) = queued x) -> same_queued s s'.
Proof.
  intros Hw Hf w. rewrite Hw. destruct (decide (w = v)) as [->|Hne].
  - rewrite list_lookup_alter_eq. destruct (sws s !! v) as [x|]; simpl; [by rewrite Hf|done].
  - by rewrite list_lookup_alter_ne.
Qed.
Lemma queued_new s s' x : sws s' = sws s ++ [x] -> queued x = false -> same_queued s s'.
Proof.
  intros Hw Hx w. rewrite Hw. destruct (decide (w < length (sws s))%nat); [by rewrite lookup_app_l|].
  rewrite (lookup_ge_None_2 (sws s)) by lia. rewrite lookup_app_r by lia.
  destruct (w - length (sws s))%nat; simpl; [|done]. rewrite Hx. done.
Qed.

Lemma sem_local s s' p pc pc' :
  sem_inv s -> sprocs s !! p = Some pc -> sprocs s' = <[p := pc']> (sprocs s) -> squeue (sem s') = squeue (sem s) ->
  scount (sem s') + grants (sghost s') = supply (sghost s') -> ubound 32 (scount (sem s')) ->
  grants (sghost s') = wins (sghost s') + Z.of_nat (sum_list_with id (tokens (sghost s'))) ->
  length (tokens (sghost s')) = length (tokens (sghost s)) ->
  scount (sem s') = scount (sem s) \/ squeue (sem s) = [] ->
  waiting sem_mode sem_targets (swaking s') (squeue (sem s)).*1 (<[p := pc']> (sprocs s)) ->
  refs_ok s s' pc pc' -> sem_pc_ok s' p pc' -> (forall q, q <> p -> frame s s' q) ->
  (sleeps_on pc' = sleeps_on pc \/ p ∉ sdue s) -> same_queued s s' -> sem_targets pc' = [] ->
  (salive (sghost s') = false -> calling pc' = false /\ (salive (sghost s) = false \/ existsb calling (sprocs s) = false)) ->
  sfault s' = false -> sem_inv s'.
Proof.
  intros HI Hp Hs' Hqu Hc Hb Ht Hlen He Hw Hr Hok Hfr Hsl Hsq Htg Hal Hf.
  apply (sem_moved s s' p pc pc'); try done; rewrite ?Hqu; try done.
  - intros Hne. destruct He as [->|]; [by apply HI|done].
  - intros q pq Hne Hq. eapply pc_ok_frame; [by apply Hfr|by apply HI].
  - destruct Hsl as [Hsl|Hnd]; [by left|right]. destruct (not_due_untargeted s p Hnd) as [Hu Hn].
    split; [done|]. intros w Hin. by destruct (Hn w).
  - intros t w Hin. destruct (si_queue _ HI t w Hin) as [_ (x & Hx & Hqx)].
    destruct (Hsq w) as [_ Hb']. rewrite Hx in Hb'. simpl in Hb'. rewrite Hqx in Hb'.
    specialize (Hb' eq_refl). apply fmap_Some in Hb' as (x' & Hx' & Hq'). by exists x'.
  - intros w x' Hx' Hq'. destruct (Hsq w) as [Ha _]. rewrite Hx' in Ha. simpl in Ha. rewrite Hq' in Ha.
    specialize (Ha eq_refl). apply fmap_Some in Ha as (x & Hx & Hqx). by apply (si_queued _ HI w x).
  - intros t w [-> | ->]; done.
Qed.

Lemma awake_not_due s p pc : sem_inv s -> sprocs s !! p = Some pc -> sem_mode pc <> Sleeping -> p ∉ sdue s.
Proof. intros HI Hp Hm Hin. apply Hm. by eapply due_asleep; [apply HI|..]. Qed.
Lemma alive_kept s p pc pc' : sem_inv s -> sprocs s !! p = Some pc -> (calling pc' = true -> calling pc = true) ->
  salive (sghost s) = false -> calling pc' = false /\ (salive (sghost s) = false \/ existsb calling (sprocs s) = false).
Proof.
  intros HI Hp Hc Hd. split; [|by left]. pose proof (si_alive _ HI p pc Hd Hp) as E.
  destruct (calling pc'); [rewrite Hc in E by done; done|done].
Qed.

(** The semaphore's count and the bookkeeping stay the same. *)
Lemma sem_simple s s' p pc pc' :
  sem_inv s -> sprocs s !! p = Some pc -> sprocs s' = <[p := pc']> (sprocs s) ->
  squeue (sem s') = squeue (sem s) -> scount (sem s') = scount (sem s) -> sghost s' = sghost s ->
  waiting sem_mode sem_targets (swaking s') (squeue (sem s)).*1 (<[p := pc']> (sprocs s)) ->
  refs_ok s s' pc pc' -> sem_pc_ok s' p pc' -> (forall q, q <> p -> frame s s' q) ->
  (sleeps_on pc' = sleeps_on pc \/ p ∉ sdue s) -> same_queued s s' -> sem_targets pc' = [] ->
  (calling pc' = true -> calling pc = true) -> sfault s' = false -> sem_inv s'.
Proof.
  intros HI Hp Hs' Hqu Hc Hg Hw Hr Hok Hfr Hsl Hsq Htg Hal Hf. apply (sem_local s s' p pc pc'); try done;
    rewrite ?Hc, ?Hg; first [done | by left | by apply (alive_kept s p pc) | apply HI].
Qed.

(** The process keeps its mode and nobody has to be woken by it. *)
Lemma waiting_stay s p pc pc' : sem_inv s -> sprocs s !! p = Some pc -> sem_mode pc' = sem_mode pc ->
  sem_targets pc' = sem_targets pc -> waiting sem_mode sem_targets (swaking s) (squeue (sem s)).*1 (<[p := pc']> (sprocs s)).
Proof. intros HI Hp Hm Ht. eapply waiting_keep; [apply HI|done|done|by rewrite Ht]. Qed.

(** Process [p] returns [r] from a state with the token to show for it. *)
Lemma sem_returned s s' p pc r :
  sem_inv s -> sprocs s !! p = Some pc -> sprocs s' = <[p := SIdle]> (sprocs s) -> has_token s p (bit r) ->
  squeue (sem s') = squeue (sem s) -> scount (sem s') = scount (sem s) ->
  sghost s' = SemGhost (salive (sghost s)) (supply (sghost s)) (grants (sghost s))
    (if r then wins (sghost s) + 1 else wins (sghost s)) (<[p := 0%nat]> (tokens (sghost s))) ->
  waiting sem_mode sem_targets (swaking s') (squeue (sem s)).*1 (<[p := SIdle]> (sprocs s)) ->
  refs_ok s s' pc SIdle -> same_kinds (swaking s) (swaking s') ->
  (forall q, q <> p -> frame (with_ghost (sghost s') s) s' q) ->
  p ∉ sdue s -> same_queued s s' -> sfault s' = false -> sem_inv s'.
Proof.
  intros HI Hp Hs' Htok Hqu Hc Hg Hw Hr Hk Hfr Hnd Hsq Hf. unfold has_token in Htok.
  pose proof (sum_insert id _ _ _ 0%nat Htok) as Hsum. unfold id in Hsum at 2 4.
  apply (sem_local s s' p pc SIdle); try done; rewrite ?Hc, ?Hg; simpl; try apply HI.
  - pose proof (si_tokens _ HI). destruct r; simpl in Hsum; lia.
  - by rewrite length_insert.
  - by left.
  - unfold has_token. rewrite Hg. simpl. rewrite list_lookup_insert_eq; [done|]. by eapply lookup_lt_Some.
  - intros q Hne. destruct (Hfr q Hne) as (H1 & H2 & H3). split_and!; [done| |done].
    rewrite Hg. simpl. by rewrite list_lookup_insert_ne.
  - by right.
  - intros Hd. split; [done|by left].
Qed.

(** Process [p] takes a token off the count; what it does with it is left open. *)
Lemma take_facts s p pc : sem_inv s -> sprocs s !! p = Some pc -> has_token s p 0 -> 0 < scount (sem s) ->
  let s1 := snd (_sem_try_take p s) in
  fst (_sem_try_take p s) = true /\ scount (sem s1) + grants (sghost s1) = supply (sghost s1)
  /\ ubound 32 (scount (sem s1)) /\ has_token s1 p 1 /\ squeue (sem s) = []
  /\ grants (sghost s1) = wins (sghost s1) + Z.of_nat (sum_list_with id (tokens (sghost s1)))
  /\ length (tokens (sghost s1)) = length (tokens (sghost s)).
Proof.
  intros HI Hp Htok Hpos. unfold _sem_try_take. destruct (Z.ltb_spec 0 (scount (sem s))); [|lia]. simpl.
  pose proof (si_bound _ HI) as Hb. unfold ubound in Hb. rewrite uwrap_small by (unfold ubound; lia).
  unfold has_token in Htok. pose proof (sum_insert id _ _ _ 1%nat Htok) as Hsum. unfold id in Hsum at 2 4.
  pose proof (si_count _ HI). pose proof (si_tokens _ HI). split_and!; [done|lia|unfold ubound; lia..| | |lia|by rewrite length_insert].
  - unfold has_token. simpl. apply list_lookup_insert_eq. by eapply lookup_lt_Some.
  - destruct (squeue (sem s)) eqn:E; [done|]. rewrite (si_empty _ HI) in Hpos by congruence. lia.
Qed.

(** ** The steps *)

(** Neither the semaphore nor the waiter a step accesses has been freed. *)
Lemma waiter_live s q pq w : sem_inv s -> sprocs s !! q = Some pq -> (1 <= holds w pq)%nat ->
  exists x, sws s !! w = Some x /\ 0 < wref x.
Proof.
  intros HI Hq Hh. destruct (sws s !! w) as [x|] eqn:Ex.
  - exists x. split; [done|]. pose proof (si_wref _ HI w x Ex). pose proof (sum_lookup (holds w) _ _ _ Hq). lia.
  - rewrite (holds_owned s q pq w) in Hh by (done || by apply HI). lia.
Qed.
Lemma not_freed s p pc : sem_inv s -> sprocs s !! p = Some pc -> pc <> SIdle -> freed pc s = false.
Proof.
  intros HI Hp Hne. unfold freed. apply orb_false_iff. split.
  - apply Z.leb_gt. rewrite (si_ref _ HI). destruct (salive (sghost s)) eqn:Ea; [simpl; lia|].
    pose proof (si_alive _ HI p pc Ea Hp) as Hc. pose proof (sum_lookup srefs _ _ _ Hp) as Hs. destruct pc; simpl in *; try done; lia.
  - assert (forall w, (1 <= holds w pc)%nat -> match sws s !! w with Some x => wref x <=? 0 | None => true end = false) as Hh.
    { intros w Hh. destruct (waiter_live s p pc w HI Hp Hh) as (x & -> & Hx). apply Z.leb_gt. lia. }
    destruct pc; simpl in *; try done; try (apply Hh; rewrite decide_True by done; lia).
    destruct (si_wakes _ HI p t w) as (pt & Hpt & Hsl); [by left|].
    destruct (waiter_live s t pt w HI Hpt) as (x & -> & Hx); [|apply Z.leb_gt; lia].
    destruct pt; simpl in *; try done; injection Hsl as ->; rewrite decide_True by done; lia.
Qed.

(** Steps that only count references. *)
Lemma ref_step s p pc pc' n : sem_inv s -> sprocs s !! p = Some pc ->
  Z.of_nat (srefs pc') = Z.of_nat (srefs pc) + n -> (forall w, holds w pc' = holds w pc) ->
  sem_mode pc = Awake -> sem_mode pc' = Awake -> sem_targets pc = [] -> sem_targets pc' = [] ->
  (calling pc' = true -> calling pc = true) -> (sem_pc_ok s p pc -> sem_pc_ok s p pc') ->
  sem_inv (at_spc p pc' (with_sem (Sem (scount (sem s)) (srefcnt (sem s) + n) (squeue (sem s))) s)).
Proof.
  intros HI Hp Hr Hh Hm Hm' Ht Ht' Hc Hok. apply (sem_simple s _ p pc pc'); try done.
  - eapply waiting_keep; [apply HI|done|congruence|by rewrite Ht, Ht'].
  - apply refs_same; [done..|simpl; lia|done].
  - eapply pc_ok_frame; [|apply Hok, HI, Hp]. by apply frame_same.
  - intros q _. by apply frame_same.
  - right. eapply awake_not_due; [done..|congruence].
  - apply HI.
Qed.
Lemma wref_step s p pc pc' v x n : sem_inv s -> sprocs s !! p = Some pc -> sws s !! v = Some x ->
  srefs pc' = srefs pc -> Z.of_nat (holds v pc') = Z.of_nat (holds v pc) + n ->
  (forall w, w <> v -> holds w pc' = holds w pc) ->
  sem_mode pc = Awake -> sem_mode pc' = Awake -> sem_targets pc = [] -> sem_targets pc' = [] ->
  (calling pc' = true -> calling pc = true) -> (sem_pc_ok s p pc -> sem_pc_ok s p pc') ->
  sem_inv (at_spc p pc' (with_waiter v (add_wref n) s)).
Proof.
  intros HI Hp Hx Hr Hv Hh Hm Hm' Ht Ht' Hc Hok. set (s' := at_spc p pc' _).
  assert (forall q, frame s s' q) as Hfr by (intros q; by apply (frame_alter s s' q v (add_wref n))).
  apply (sem_simple s s' p pc pc'); try done.
  - eapply waiting_keep; [apply HI|done|congruence|by rewrite Ht, Ht'].
  - apply (refs_alter s s' pc pc' v (add_wref n) x); try done; simpl; change (armed (add_wref n x)) with (armed x); lia.
  - eapply pc_ok_frame; [apply Hfr|apply Hok, HI, Hp].
  - right. eapply awake_not_due; [done..|congruence].
  - by apply (queued_alter s s' v (add_wref n)).
  - apply HI.
Qed.

Lemma try_take_same p s : let s1 := snd (_sem_try_take p s) in
  sws s1 = sws s /\ sprocs s1 = sprocs s /\ srefcnt (sem s1) = srefcnt (sem s) /\ swaking s1 = swaking s
  /\ sfault s1 = sfault s /\ salive (sghost s1) = salive (sghost s).
Proof. unfold _sem_try_take. by destruct (_ <? _). Qed.
Lemma try_take_cases p s : 0 < scount (sem s) /\ _sem_try_take p s = (true, snd (_sem_try_take p s))
  \/ scount (sem s) <= 0 /\ _sem_try_take p s = (false, s).
Proof. unfold _sem_try_take. destruct (Z.ltb_spec 0 (scount (sem s))); [by left|by right]. Qed.

(** A token is taken off the count and the call returns. *)
Lemma take_return s s' p pc : sem_inv s -> sprocs s !! p = Some pc -> has_token s p 0 -> 0 < scount (sem s) ->
  sem_mode pc = Awake -> sem_targets pc = [] -> sem s' = sem (snd (_sem_try_take p s)) -> swaking s' = swaking s ->
  sghost s' = sghost (sem_return true p (snd (_sem_try_take p s))) -> sprocs s' = <[p := SIdle]> (sprocs s) ->
  sfault s' = sfault s -> refs_ok s s' pc SIdle -> same_queued s s' ->
  (forall q, q <> p -> frame (with_ghost (sghost s') s) s' q) -> sem_inv s'.
Proof.
  intros HI Hp Htok Hpos Hm Ht Hsem Hw Hg Hs' Hf Hr Hsq Hfr.
  destruct (take_facts s p pc HI Hp Htok Hpos) as (_ & H1 & H2 & H3 & H4 & H5 & H6).
  unfold has_token in H3. pose proof (sum_insert id _ _ _ 0%nat H3) as Hsum. unfold id in Hsum at 2 4.
  assert (squeue (sem s') = squeue (sem s)) as Hqu by (rewrite Hsem; unfold _sem_try_take; by destruct (_ <? _)).
  assert (salive (sghost s') = salive (sghost s)) as Hal by (rewrite Hg; unfold _sem_try_take; by destruct (_ <? _)).
  assert (tokens (sghost s') = <[p := 0%nat]> (tokens (sghost (snd (_sem_try_take p s))))) as Htk by (by rewrite Hg).
  apply (sem_local s s' p pc SIdle); try done.
  - rewrite Hsem, Hg. exact H1.
  - by rewrite Hsem.
  - rewrite Hg. simpl. lia.
  - rewrite Htk, length_insert. done.
  - by right.
  - rewrite Hw. eapply waiting_keep; [apply HI|done|by rewrite Hm|by rewrite Ht].
  - unfold sem_pc_ok, has_token. rewrite Htk. apply list_lookup_insert_eq. by eapply lookup_lt_Some.
  - intros q Hne. destruct (Hfr q Hne) as (F1 & F2 & F3). split_and!; [done| |done].
    rewrite Htk, list_lookup_insert_ne by done. unfold _sem_try_take. destruct (_ <? _); [|done]. simpl. by rewrite list_lookup_insert_ne.
  - right. eapply awake_not_due; [done..|congruence].
  - rewrite Hal. intros Hd. split; [done|by left].
  - rewrite Hf. apply HI.
Qed.

Lemma try_inv s p pc : sem_inv s -> sprocs s !! p = Some pc -> pc = STry \/ (exists k, pc = STake k) -> 0 < scount (sem s) ->
  sem_inv (sem_return true p (snd (_sem_try_take p s))).
Proof.
  intros HI Hp Hpc Hpos. assert (has_token s p 0) as Htok by (pose proof (si_pcs _ HI p pc Hp); destruct Hpc as [->|[k ->]]; done).
  assert (sem_mode pc = Awake /\ sem_targets pc = [] /\ srefs pc = 0%nat /\ forall w, holds w pc = 0%nat) as (Hm & Ht & Hr & Hh)
    by (by destruct Hpc as [->|[k ->]]).
  destruct (try_take_same p s) as (E1 & E2 & E3 & E4 & E5 & E6).
  apply (take_return s _ p pc); simpl; try done.
  - by rewrite E2.
  - apply refs_same; [done..|simpl; rewrite E3, Hr; done|by intros w; rewrite Hh].
  - by apply queued_same.
  - intros q Hne. apply frame_same; simpl; [by rewrite E4|done|done].
Qed.

Lemma guard_take_inv s p k w : sem_inv s -> sprocs s !! p = Some (SGuard k w) -> 0 < scount (sem s) ->
  sem_inv (sem_return true p (with_waiter w (add_wref (-1)) (snd (_sem_try_take p s)))).
Proof.
  intros HI Hp Hpos. destruct (si_pcs _ HI p _ Hp) as (Hk & Htok & (x & Hx & Hpx & Hfx)).
  destruct (try_take_same p s) as (E1 & E2 & E3 & E4 & E5 & E6).
  apply (take_return s _ p (SGuard k w)); simpl; try done.
  - by rewrite E2.
  - apply (refs_alter s _ (SGuard k w) SIdle w (add_wref (-1)) x); simpl; rewrite ?E1, ?E3, ?decide_True by done; try done.
    + change (armed (add_wref (-1) x)) with (armed x). lia.
    + intros v Hne. by rewrite decide_False.
  - apply (queued_alter s _ w (add_wref (-1))); simpl; [by rewrite E1|done].
  - intros q Hne. apply (frame_alter _ _ q w (add_wref (-1))); simpl; [by rewrite E4|done|by rewrite E1|done].
Qed.

(** A call that has to wait gets a new waiter. *)
Lemma new_waiter_inv s p pc pc' k : sem_inv s -> sprocs s !! p = Some pc ->
  pc = STake k \/ pc = SAlloc -> pc' = SRef k (length (sws s)) /\ is_coro (swaking s) p = true \/ pc' = SGuard k (length (sws s)) /\ is_coro (swaking s) p = false ->
  sem_inv (at_spc p pc' (new_waiter p s)).
Proof.
  intros HI Hp Hpc Hpc'.
  assert (has_token s p 0) as Htok by (pose proof (si_pcs _ HI p pc Hp) as Ho; destruct Hpc as [->| ->]; simpl in Ho; tauto).
  assert (sem_mode pc = Awake /\ sem_targets pc = [] /\ srefs pc = 0%nat /\ calling pc = true /\ forall w, holds w pc = 0%nat) as (Hm & Ht & Hr & Hc & Hh)
    by (by destruct Hpc as [->| ->]).
  assert (sem_mode pc' = Awake /\ sem_targets pc' = [] /\ srefs pc' = 0%nat
    /\ forall w, holds w pc' = if decide (length (sws s) = w) then 1%nat else 0%nat) as (Hm' & Ht' & Hr' & Hh')
    by (by destruct Hpc' as [[-> _]|[-> _]]).
  assert (owns (at_spc p pc' (new_waiter p s)) p (length (sws s)) fresh) as Hown.
  { eexists. split; [simpl; by apply list_lookup_middle|done]. }
  apply (sem_simple s _ p pc pc'); try done.
  - eapply waiting_keep; [apply HI|done|congruence|by rewrite Ht, Ht'].
  - apply (refs_new s _ p pc pc'); try done; [simpl; lia|by rewrite Hh', decide_True|]. intros w Hne. rewrite Hh', Hh, decide_False; done.
  - destruct Hpc' as [[-> Hk]|[-> Hk]]; by split_and!.
  - intros q _. split_and!; [done..|]. intros w x Hx. exists x. split; [|done]. simpl. by apply lookup_app_l_Some.
  - right. eapply awake_not_due; [done..|congruence].
  - by eapply queued_new.
  - apply HI.
Qed.

(** A call that returns without a token and without a waiter. *)
Lemma return_false_inv s p pc : sem_inv s -> sprocs s !! p = Some pc -> pc = STry \/ pc = SAlloc -> sem_inv (sem_return false p s).
Proof.
  intros HI Hp Hpc. assert (has_token s p 0) as Htok by (pose proof (si_pcs _ HI p pc Hp) as Ho; destruct Hpc as [->| ->]; simpl in Ho; tauto).
  assert (sem_mode pc = Awake /\ sem_targets pc = [] /\ srefs pc = 0%nat /\ forall w, holds w pc = 0%nat) as (Hm & Ht & Hr & Hh)
    by (by destruct Hpc as [->| ->]).
  apply (sem_returned s _ p pc false); try done.
  - eapply waiting_keep; [apply HI|done|by rewrite Hm|by rewrite Ht].
  - apply refs_same; first [done | simpl; lia | intros w; by rewrite Hh].
  - intros q _. by apply frame_same.
  - eapply awake_not_due; [done..|congruence].
  - apply HI.
Qed.

Lemma sem_park_inv s p k w : sem_inv s -> sprocs s !! p = Some (SPark k w) ->
  sem_inv (at_spc p (SCommit k w) (with_swaking (park p (swaking s)) s)).
Proof.
  intros HI Hp. pose proof (si_pcs _ HI p _ Hp) as Hok. pose proof Hok as [Hk _].
  destruct (waiting_park _ _ _ _ _ p (SPark k w) (SCommit k w) (si_waiting _ HI)) as (r & -> & Hw & Hs); [done..|].
  assert (forall q, frame s (at_spc p (SCommit k w) (with_swaking (Some r) s)) q) as Hfr by (intros q; apply frame_same; [apply Hs|done..]).
  apply (sem_simple s _ p (SPark k w) (SCommit k w)); try done.
  - by apply refs_same.
  - exact (pc_ok_frame s _ p (SPark k w) (Hfr p) Hok).
  - right. by eapply awake_not_due.
  - apply HI.
Qed.

(** The commit callback finds a token: the coroutine does not stay parked. *)
Lemma commit_take_inv s p k w : sem_inv s -> sprocs s !! p = Some (SCommit k w) -> 0 < scount (sem s) ->
  let s1 := snd (_sem_try_take p s) in sem_inv (at_spc p (SSleep k w) (with_swaking (wake p (swaking s1)) s1)).
Proof.
  intros HI Hp Hpos s1. destruct (si_pcs _ HI p _ Hp) as (Hk & Htok & (x & Hx & Hpx & Hfx)).
  destruct (try_take_same p s) as (E1 & E2 & E3 & E4 & E5 & E6). fold s1 in E1, E2, E3, E4, E5, E6.
  destruct (take_facts s p _ HI Hp Htok Hpos) as (_ & H1 & H2 & H3 & H4 & H5 & H6). fold s1 in H1, H2, H3, H5, H6.
  destruct (waiting_refuse _ _ _ _ _ p (SCommit k w) (SSleep k w) (si_waiting _ HI)) as (r & Hr & Hw & Hs); [done..|].
  rewrite E4, Hr. simpl. set (s' := at_spc p (SSleep k w) _).
  assert (squeue (sem s') = squeue (sem s)) as Hqu by (unfold s', s1, _sem_try_take; by destruct (_ <? _)).
  apply (sem_local s s' p (SCommit k w) (SSleep k w)); simpl; rewrite ?E1, ?E2, ?E3, ?E5, ?E6; try done.
  - by right.
  - apply refs_same; simpl; try done. by rewrite E3.
  - split; [rewrite <-Hk; apply Hs|]. exists x. destruct Hfx as (F1 & F2 & F3).
    split; [simpl; by rewrite E1|]. split; [done|]. rewrite F1, F2. done.
  - intros q Hne. apply frame_same; simpl; [apply Hs| |done]. unfold s1, _sem_try_take. destruct (_ <? _); simpl; [|done].
    by rewrite list_lookup_insert_ne.
  - right. by eapply awake_not_due.
  - by apply queued_same.
  - by apply (alive_kept s p (SCommit k w) (SSleep k w)).
  - apply HI.
Qed.

(** Publication of a waiter, which may arm its timer ([arm]). *)
Lemma sem_push_inv s s' p pc pc' w F arm : sem_inv s -> sprocs s !! p = Some pc -> scount (sem s) <= 0 ->
  (pc = SCommit arm w /\ pc' = SSleep arm w \/ (exists k, pc = SGuard k w /\ pc' = SBlocked k w) /\ arm = false) ->
  sprocs s' = <[p := pc']> (sprocs s) -> sghost s' = sghost s -> swaking s' = swaking s -> sfault s' = sfault s ->
  sem s' = Sem (scount (sem s)) (srefcnt (sem s) + Z.of_nat (bit arm)) (squeue (sem s) ++ [(p, w)]) ->
  sws s' = alter F w (sws s) ->
  (forall x, sw_process (F x) = sw_process x /\ queued (F x) = true /\ timer_fired (F x) = timer_fired x
     /\ wref (F x) = wref x + Z.of_nat (bit arm) /\ timer (F x) = if arm then Armed else timer x) ->
  sem_inv s'.
Proof.
  intros HI Hp Hc Hpc Hs' Hg Hw Hf Hsem Hsw HF.
  assert (sleeps_on pc' = Some w /\ sem_mode pc' = Sleeping /\ sem_targets pc' = sem_targets pc /\ srefs pc' = srefs pc
    /\ (forall v, holds v pc' = holds v pc) /\ calling pc' = true /\ calling pc = true /\ sem_mode pc <> Sleeping)
    as (Hsl & Hm' & Ht & Hr & Hh & Hc1 & Hc2 & Hm) by (by destruct Hpc as [[-> ->]|[(k & -> & ->) _]]).
  assert (has_token s p 0 /\ owns s p w fresh) as [Htok (x & Hx & Hpx & Hfx)]
    by (pose proof (si_pcs _ HI p pc Hp) as Ho; destruct Hpc as [[-> ->]|[(k & -> & ->) _]]; simpl in Ho; tauto).
  destruct (HF x) as (F1 & F2 & F3 & F4 & F5). destruct Hfx as (X1 & X2 & X3).
  pose proof (si_bound _ HI) as Hb. unfold ubound in Hb. assert (scount (sem s) = 0) as Hc0 by lia.
  assert (forall q, q <> p -> frame s s' q) as Hfr.
  { intros q Hne. apply (frame_alter s s' q w F); rewrite ?Hw, ?Hg; try done. rewrite Hx. intros y [= <-].
    split_and!; [done|by rewrite X3|]. intros E. destruct Hne. congruence. }
  assert (sws s' !! w = Some (F x)) as HFx by (rewrite Hsw, list_lookup_alter_eq, Hx; done).
  apply (sem_moved s s' p pc pc'); try done; rewrite ?Hsem, ?Hg; simpl; try apply HI; try done.
  - rewrite Hw, fmap_app. simpl. eapply waiting_publish; [apply HI|done| |done|done].
    pose proof (si_pcs _ HI p pc Hp) as Ho. destruct Hpc as [[-> ->]|[(k & -> & ->) _]]; [by left|right; split; [done|apply Ho]].
  - apply (refs_alter s s' pc pc' w F x); rewrite ?Hsem, ?Hg; simpl; try done.
    + unfold armed. rewrite F5, X3. destruct arm; simpl; lia.
    + unfold armed. rewrite F4, F5, X3, Hh. destruct arm; simpl; lia.
  - assert (has_token s' p 0) by (unfold has_token; by rewrite Hg).
    pose proof (si_pcs _ HI p pc Hp) as Ho. destruct Hpc as [[-> ->]|[(k & -> & ->) ->]]; destruct Ho as [Hk _]; simpl; rewrite Hw.
    + split; [done|]. exists (F x). rewrite F1, F2, F3, F5, X2. split_and!; try done. intros ->. by rewrite X3.
    + split; [done|]. exists (F x). rewrite F1, F2, F3, F5, X2, X3. by split_and!.
  - intros q pq Hne Hq. eapply pc_ok_frame; [by apply Hfr|by apply HI].
  - intros t v [?|[= ? ?]%list_elem_of_singleton]%elem_of_app Hne; done.
  - right. destruct (not_due_untargeted s p) as [Hu Hn]; [by eapply awake_not_due|]. split; [done|].
    intros v [Hin|[= ->]%list_elem_of_singleton]%elem_of_app; [by destruct (Hn v)|done].
  - intros t v [Hin|[= -> ->]%list_elem_of_singleton]%elem_of_app; [|by exists (F x)].
    destruct (si_queue _ HI t v Hin) as [_ (y & Hy & Hqy)]. rewrite Hsw. destruct (decide (v = w)) as [->|Hne].
    + rewrite list_lookup_alter_eq, Hx. by exists (F x).
    + rewrite list_lookup_alter_ne by done. by exists y.
  - intros v y Hy Hqy. rewrite Hsw in Hy. destruct (decide (v = w)) as [->|Hne]; [exists p; set_solver|].
    rewrite list_lookup_alter_ne in Hy by done. destruct (si_queued _ HI v y Hy Hqy) as [t Ht']. exists t. set_solver.
  - intros t v [-> | ->]; done.
  - by apply (alive_kept s p pc).
  - rewrite Hf. apply HI.
Qed.

(** A waiter on the list belongs to the process it is listed with. *)
Lemma queue_owner s t w x : sem_inv s -> (t, w) ∈ squeue (sem s) -> sws s !! w = Some x -> sw_process x = t.
Proof.
  intros HI Hin Hx. destruct (si_queue _ HI t w Hin) as [(pt & Hpt & Hsl) _]. pose proof (si_pcs _ HI t pt Hpt) as Ho.
  assert (exists P, owns s t w P) as (P & y & Hy & Hpy & _) by (destruct pt; simpl in *; simplify_eq; destruct Ho; eauto).
  congruence.
Qed.
Lemma not_queued s p w x : sem_inv s -> sws s !! w = Some x -> sw_process x = p -> p ∉ sdue s -> queued x = false.
Proof.
  intros HI Hx Hp Hnd. apply not_true_is_false. intros Hq. destruct (si_queued _ HI w x Hx Hq) as [t Ht].
  pose proof (queue_owner s t w x HI Ht Hx). subst t. destruct (not_due_untargeted s p Hnd) as [_ Hn]. by apply (Hn w); subst.
Qed.

(** A coroutine resumes. *)
Lemma sem_resume_inv s p k w r : sem_inv s -> sprocs s !! p = Some (SSleep k w) -> resume p (swaking s) = Some r ->
  sem_inv (at_spc p (if k then SLoad w else SUnref w) (with_swaking (Some r) s)).
Proof.
  intros HI Hp Hr. destruct (si_pcs _ HI p _ Hp) as (Hk & x & Hx & Hpx & Htok & Hqf & Hun). set (pc' := if k then _ else _).
  assert (sem_mode pc' = Awake /\ sem_targets pc' = [] /\ srefs pc' = 1%nat /\ calling pc' = true
    /\ forall v, holds v pc' = holds v (SSleep k w)) as (Hm' & Ht' & Hr' & Hc' & Hh') by (by unfold pc'; destruct k).
  destruct (waiting_resume _ _ _ r _ _ p (SSleep k w) pc' (si_waiting _ HI)) as (Hnd & Hw & Hs); [done..|].
  assert (queued x = false) as Hq by (by eapply not_queued). rewrite Hq in Htok.
  apply (sem_simple s _ p (SSleep k w) pc'); try done.
  - apply refs_same; try done. simpl. rewrite Hr'. lia.
  - unfold pc'. destruct k; simpl.
    + split; [rewrite <-Hk; apply Hs|]. by exists x.
    + destruct (Hun eq_refl) as [E _]. rewrite E in Htok. split_and!; [rewrite <-Hk; apply Hs|done|by exists x].
  - intros q _. apply frame_same; [apply Hs|done..].
  - by right.
  - apply HI.
Qed.

Lemma load_inv s p w x : sem_inv s -> sprocs s !! p = Some (SLoad w) -> sws s !! w = Some x ->
  sem_inv (at_spc p (SStop w (timer_fired x)) s).
Proof.
  intros HI Hp Hx. destruct (si_pcs _ HI p _ Hp) as (Hk & y & Hy & Hpy & Htok & Hq). rewrite Hx in Hy. injection Hy as <-.
  apply (sem_simple s _ p (SLoad w) (SStop w (timer_fired x))); try done.
  - by eapply (waiting_stay s).
  - by apply refs_same.
  - split_and!; [done..|by exists x].
  - intros q _. by apply frame_same.
  - by left.
  - apply HI.
Qed.

(** The timer is stopped before it fires, or was not armed any more. *)
Lemma stop_inv s p w f : sem_inv s -> sprocs s !! p = Some (SStop w f) ->
  sem_inv (match scheduler_timer_stop w s with
           | (true, s) => at_spc p (SDropW w f) s
           | (false, s) => at_spc p (SUnrefW w f) s
           end).
Proof.
  intros HI Hp. pose proof (si_pcs _ HI p _ Hp) as Hok. pose proof Hok as (Hk & Htok & x & Hx & Hpx & Hq).
  assert (sem_inv (at_spc p (SUnrefW w f) s)) as Hquiet.
  { apply (sem_simple s _ p (SStop w f) (SUnrefW w f)); try done;
      [by eapply (waiting_stay s)|by apply refs_same|by intros q _; apply frame_same|by left|apply HI]. }
  unfold scheduler_timer_stop. rewrite Hx. simpl. destruct (timer x) eqn:Et; [done| |done].
  set (s' := at_spc p (SDropW w f) _). apply (sem_simple s s' p (SStop w f) (SDropW w f)); try done.
  - by eapply (waiting_stay s).
  - apply (refs_alter s s' _ _ w (set_timer Inert) x); try done; simpl; unfold armed; simpl; rewrite ?Et, ?decide_True by done; try lia.
    intros v Hne. by rewrite !decide_False by done.
  - split_and!; [done..|]. exists (set_timer Inert x). split; [|done]. simpl. by rewrite list_lookup_alter_eq, Hx.
  - intros q Hne. apply (frame_alter s s' q w (set_timer Inert)); try done. rewrite Hx. intros y [= <-]. by rewrite Et.
  - by left.
  - by apply (queued_alter s s' w (set_timer Inert)).
  - apply HI.
Qed.

(** Calls that return after having waited. *)
Lemma unref_return_inv s p r : sem_inv s -> sprocs s !! p = Some (SUnrefS r) -> sem_inv (sem_return r p (_sem_unref s)).
Proof.
  intros HI Hp. destruct (si_pcs _ HI p _ Hp) as [Hk Htok]. apply (sem_returned s _ p (SUnrefS r) r); try done.
  - by eapply (waiting_stay s).
  - apply refs_same; try done. simpl. lia.
  - intros q _. by apply frame_same.
  - by eapply awake_not_due.
  - apply HI.
Qed.
(** The waiter was on the stack of the call. *)
Lemma drop_return_inv s s' p pc w r wk : sem_inv s -> sprocs s !! p = Some pc ->
  (pc = SUnref w /\ s' = sem_return true p (with_waiter w (add_wref (-1)) (_sem_unref s)) /\ r = true /\ wk = swaking s
   \/ (exists k, pc = SBlocked k w) /\ s' = sem_return true p (with_waiter w (add_wref (-1)) (with_swaking (Some wk) s)) /\ r = true) ->
  waiting sem_mode sem_targets wk (squeue (sem s)).*1 (<[p := SIdle]> (sprocs s)) -> same_kinds (swaking s) wk ->
  p ∉ sdue s -> sem_inv s'.
Proof.
  intros HI Hp Hor Hw Hs Hnd.
  assert (has_token s p 1 /\ exists x, sws s !! w = Some x) as [Htok [x Hx]].
  { pose proof (si_pcs _ HI p pc Hp) as Ho. destruct Hor as [(-> & _)|((k & ->) & _)]; simpl in Ho.
    - destruct Ho as (_ & Ht & x & Hx & _). eauto.
    - destruct Ho as (_ & x & Hx & Hpx & Ht & _). rewrite (not_queued s p w x) in Ht by done. eauto. }
  assert (holds w pc = 1%nat) as Hh by (destruct Hor as [(-> & _)|((k & ->) & _)]; simpl; by rewrite decide_True).
  assert (armed (add_wref (-1) x) = armed x) as Harm by done.
  destruct Hor as [(-> & -> & -> & ->)|((k & ->) & -> & ->)].
  - eapply (sem_returned s _ p _ true); try done; try apply HI.
    + apply (refs_alter s _ _ _ w (add_wref (-1)) x); try done; rewrite ?Harm, ?Hh; simpl; try lia. intros v Hv. by rewrite decide_False.
    + intros q _. by apply (frame_alter _ _ q w (add_wref (-1))).
    + by apply (queued_alter s _ w (add_wref (-1))).
  - eapply (sem_returned s _ p _ true); try done; try apply HI.
    + apply (refs_alter s _ _ _ w (add_wref (-1)) x); try done; rewrite ?Harm, ?Hh; simpl; try lia. intros v Hv. by rewrite decide_False.
    + intros q _. by apply (frame_alter _ _ q w (add_wref (-1))).
    + by apply (queued_alter s _ w (add_wref (-1))).
Qed.

(** A waiter leaves the list: its process gives up, or its timer fires. *)
Lemma cancel_split s w x : sem_inv s -> sws s !! w = Some x -> queued x = true ->
  squeue (sem s) ≡ₚ (sw_process x, w) :: filter (fun e => e.2 <> w) (squeue (sem s)).
Proof.
  intros HI Hx Hq. destruct (si_queued _ HI w x Hx Hq) as [t Ht]. pose proof (queue_owner s t w x HI Ht Hx) as <-.
  apply list_elem_of_split in Ht as (l1 & l2 & E).
  assert (NoDup (squeue (sem s)).*1) as Hnd by (pose proof (due_once _ _ _ (si_waiting _ HI)) as Hd; by apply NoDup_app in Hd as [? _]).
  assert (forall e, e ∈ l1 ++ l2 -> e.2 <> w) as Hne.
  { intros [t v] He Hv. simpl in Hv. subst v. assert ((t, w) ∈ squeue (sem s)) as Hin by (rewrite E; set_solver).
    pose proof (queue_owner s t w x HI Hin Hx) as <-. rewrite E, fmap_app, fmap_cons in Hnd. simpl in Hnd.
    apply NoDup_app in Hnd as (_ & H1 & [H2 _]%NoDup_cons). apply elem_of_app in He as [He|He].
    - apply (H1 (sw_process x)); [apply list_elem_of_fmap; by exists (sw_process x, w)|set_solver].
    - apply H2, list_elem_of_fmap. by exists (sw_process x, w). }
  rewrite E, filter_app, filter_cons_False by (simpl; naive_solver).
  assert (forall l : list (nat * nat), (forall e, e ∈ l -> e.2 <> w) -> filter (fun e => e.2 <> w) l = l) as Hfa.
  { clear. induction l as [|e l IH]; intros Hl; [done|]. rewrite filter_cons_True, IH; set_solver. }
  rewrite !Hfa by (intros e He; apply Hne; set_solver). solve_Permutation.
Qed.

(** Process [q] takes waiter [w] of process [t] off the list and is going to wake [t]. *)
Lemma sem_leave_inv s s' q pc pc' t w x F queue' : sem_inv s -> sprocs s !! q = Some pc ->
  sprocs s' = <[q := pc']> (sprocs s) -> squeue (sem s) ≡ₚ (t, w) :: queue' -> sws s !! w = Some x ->
  pc' = SWake t w \/ pc' = CbWake t w -> sem_mode pc = Awake -> sem_targets pc = [] ->
  srefs pc' = srefs pc -> (forall v, holds v pc' = holds v pc) -> (calling pc' = true -> calling pc = true) ->
  sem s' = Sem (scount (sem s)) (srefcnt (sem s)) queue' -> sws s' = alter F w (sws s) ->
  swaking s' = swaking s -> sfault s' = sfault s -> salive (sghost s') = salive (sghost s) ->
  sw_process (F x) = t -> queued (F x) = false -> timer (F x) = timer x -> wref (F x) = wref x ->
  scount (sem s) + grants (sghost s') = supply (sghost s') ->
  grants (sghost s') = wins (sghost s') + Z.of_nat (sum_list_with id (tokens (sghost s'))) ->
  length (tokens (sghost s')) = length (tokens (sghost s)) ->
  (forall r, r <> t -> tokens (sghost s') !! r = tokens (sghost s) !! r) ->
  (forall pt, sprocs s !! t = Some pt -> sleeps_on pt = Some w -> sem_pc_ok s' t pt) ->
  (q <> t -> sem_pc_ok s' q pc') -> sem_inv s'.
Proof.
  intros HI Hq Hs' Hqu Hx Hpc' Hm Ht Hr Hh Hc Hsem Hsw Hw Hf Hal F1 F2 F3 F4 Hcnt Htok Hlen Hoth Hokt Hokq.
  assert (sem_mode pc' = Awake /\ sem_targets pc' = [t] /\ sleeps_on pc' = None) as (Hm' & Ht' & Hsl') by (by destruct Hpc' as [->| ->]).
  assert ((t, w) ∈ squeue (sem s)) as Hin by (rewrite Hqu; set_solver).
  pose proof (queue_owner s t w x HI Hin Hx) as Hxt. destruct (si_queue _ HI t w Hin) as [(pt & Hpt & Hslt) _].
  assert (q <> t) as Hqt by (intros ->; rewrite Hpt in Hq; injection Hq as <-; destruct pt; done).
  assert (forall r, r <> t -> frame s s' r) as Hfr.
  { intros r Hne. apply (frame_alter s s' r w F); rewrite ?Hw; auto. rewrite Hx. intros y [= <-].
    split_and!; [congruence|by rewrite F3|]. intros E. congruence. }
  assert (sws s' !! w = Some (F x)) as HFx by (rewrite Hsw, list_lookup_alter_eq, Hx; done).
  assert (NoDup (squeue (sem s)).*1) as Hnd by (pose proof (due_once _ _ _ (si_waiting _ HI)) as Hd; by apply NoDup_app in Hd as [? _]).
  rewrite Hqu, fmap_cons in Hnd. simpl in Hnd. apply NoDup_cons in Hnd as [Hnt Hnd].
  apply (sem_moved s s' q pc pc'); try done; rewrite ?Hsem, ?Hal; simpl; try done; try apply HI.
  - intros Hne. apply (si_empty _ HI). intros E. rewrite E in Hin. set_solver.
  - rewrite Hw. eapply waiting_keep; [apply HI|done|congruence|]. rewrite Ht, Ht', Hqu. simpl. solve_Permutation.
  - assert (armed (F x) = armed x) as Ha by (unfold armed; by rewrite F3).
    apply (refs_alter s s' pc pc' w F x); rewrite ?Hsem, ?Ha, ?F4, ?Hr, ?Hh; done.
  - auto.
  - intros r pr Hne Hpr. destruct (decide (r = t)) as [->|Hrt]; [by apply Hokt; congruence|].
    eapply pc_ok_frame; [by apply Hfr|by apply HI].
  - intros r v Hrv _. rewrite Hqu. set_solver.
  - right. split; [apply not_due_untargeted; eapply awake_not_due; [done..|congruence]|].
    intros v Hv. exfalso. destruct (not_due_untargeted s q) as [_ Hn]; [eapply awake_not_due; [done..|congruence]|].
    apply (Hn v). rewrite Hqu. set_solver.
  - intros r v Hrv. assert (v <> w) as Hvw.
    { intros ->. assert ((r, w) ∈ squeue (sem s)) as Hr' by (rewrite Hqu; set_solver).
      pose proof (queue_owner s r w x HI Hr' Hx). assert (r = t) as -> by congruence. apply Hnt, list_elem_of_fmap. by exists (t, w). }
    destruct (si_queue _ HI r v) as [_ (y & Hy & Hqy)]; [rewrite Hqu; set_solver|].
    exists y. by rewrite Hsw, list_lookup_alter_ne.
  - intros v y Hy Hqy. destruct (decide (v = w)) as [->|Hvw]; [rewrite HFx in Hy; simplify_eq; congruence|].
    rewrite Hsw, list_lookup_alter_ne in Hy by done. destruct (si_queued _ HI v y Hy Hqy) as [r Hr']. exists r.
    rewrite Hqu in Hr'. apply elem_of_cons in Hr' as [[= -> ->]|]; done.
  - intros r v [-> | ->]; destruct Hpc' as [E|E]; try done; simplify_eq; exists pt;
      rewrite Hs', list_lookup_insert_ne by done; done.
  - by apply (alive_kept s q pc).
  - rewrite Hf. apply HI.
Qed.

Lemma post_inv s p : sem_inv s -> sprocs s !! p = Some SPost -> scount (sem s) + 1 < 2 ^ 32 ->
  sem_inv (match _sem_pop_waiter (supplied s) with
           | (Some (t, w), s) => at_spc p (SWake t w) (grant t s)
           | (None, s) => at_spc p SIdle (with_sem (Sem (u32 (scount (sem s) + 1)) (srefcnt (sem s)) (squeue (sem s))) s)
           end).
Proof.
  intros HI Hp Hlt. pose proof (si_pcs _ HI p _ Hp) as Htok. pose proof (si_count _ HI) as Hcnt.
  pose proof (si_tokens _ HI) as Hsum. pose proof (si_bound _ HI) as Hb. unfold ubound in Hb.
  unfold _sem_pop_waiter. change (squeue (sem (supplied s))) with (squeue (sem s)).
  destruct (squeue (sem s)) as [|[t w] rest] eqn:Eq.
  - change (scount (sem (supplied s))) with (scount (sem s)). rewrite uwrap_small by (unfold ubound; lia).
    apply (sem_local s _ p SPost SIdle); simpl; try done; try lia; try apply HI; rewrite ?Eq; try done.
    + unfold ubound. lia.
    + by right.
    + rewrite <-Eq. by eapply (waiting_stay s).
    + by apply refs_same.
    + intros q _. by apply frame_same.
    + right. rewrite <-Eq. by eapply awake_not_due.
    + by apply (alive_kept s p SPost SIdle).
  - assert ((t, w) ∈ squeue (sem s)) as Hin by (rewrite Eq; set_solver).
    destruct (si_queue _ HI t w Hin) as [(pt & Hpt & Hsl) (x & Hx & Hqx)]. pose proof (queue_owner s t w x HI Hin Hx) as Hxt.
    assert (has_token s t 0) as Htt.
    { pose proof (si_pcs _ HI t pt Hpt) as Ho. destruct pt; simpl in *; simplify_eq; destruct Ho as (_ & y & Hy & _ & Hty & _);
        rewrite Hx in Hy; injection Hy as <-; rewrite Hqx in Hty; done. }
    pose proof (sum_insert id _ _ _ 1%nat Htt) as Hs1. unfold id in Hs1 at 2 4.
    apply (sem_leave_inv s _ p SPost (SWake t w) t w x (set_queued false) rest); simpl; try done; try lia.
    + by rewrite Eq.
    + by left.
    + by rewrite length_insert.
    + intros r Hr. by rewrite list_lookup_insert_ne.
    + intros pt' Hpt' _. rewrite Hpt in Hpt'. injection Hpt' as <-. pose proof (si_pcs _ HI t pt Hpt) as Ho.
      assert (forall s0, tokens (sghost s0) = <[t := 1%nat]> (tokens (sghost s)) -> has_token s0 t 1) as H1
        by (intros s0 E; unfold has_token; rewrite E; apply list_lookup_insert_eq; by eapply lookup_lt_Some).
      destruct pt; simpl in *; simplify_eq; destruct Ho as (Hk & y & Hy & Hpy & Hty & Hrest);
        rewrite Hx in Hy; injection Hy as <-; (split; [done|]); exists (set_queued false x); simpl;
        rewrite list_lookup_alter_eq, Hx; (split; [done|]); (split; [done|]).
      * destruct Hrest as [Hf Hun]. rewrite (Hf Hqx). split_and!; [by apply H1|done|]. intros ->. by destruct (Hun eq_refl).
      * split; [by apply H1|done].
      * split; [by apply H1|done].
    + intros Hne. unfold has_token. simpl. by rewrite list_lookup_insert_ne.
Qed.

Lemma cb_guard_inv s p t w : sem_inv s -> sprocs s !! p = Some (CbGuard t w) ->
  sem_inv (match _sem_cancel_waiter w s with
           | (true, s) => at_spc p (CbWake t w) (with_waiter w set_fired s)
           | (false, s) => at_spc p (CbUnrefW w) s
           end).
Proof.
  intros HI Hp. destruct (si_pcs _ HI p _ Hp) as (Htok & x & Hx & Hxt & Htim). unfold _sem_cancel_waiter. rewrite Hx.
  destruct (queued x) eqn:Hqx.
  - pose proof (cancel_split s w x HI Hx Hqx) as Hsplit. rewrite Hxt in Hsplit.
    apply (sem_leave_inv s _ p (CbGuard t w) (CbWake t w) t w x (set_fired ∘ set_queued false)
      (filter (fun e => e.2 <> w) (squeue (sem s)))); simpl; try done; try apply HI.
    + by right.
    + apply alter_alter.
    + intros pt Hpt Hsl. pose proof (si_pcs _ HI t pt Hpt) as Ho.
      destruct pt as [| | | | | | |k v| | | | | | | | |k v|v| | | | | | |]; simpl in *; simplify_eq;
        destruct Ho as (Hk & y & Hy & Hpy & Hty & Hrest); rewrite Hx in Hy; injection Hy as <-; try (destruct Hrest; congruence).
      split; [done|]. exists (set_fired (set_queued false x)). simpl. rewrite alter_alter, list_lookup_alter_eq, Hx. simpl.
      rewrite Hqx in Hty. split_and!; try done. intros ->. destruct Hrest as [_ Hun]. destruct (Hun eq_refl). congruence.
    + intros Hne. split; [done|]. exists (set_fired (set_queued false x)). simpl. rewrite alter_alter, list_lookup_alter_eq, Hx. done.
  - apply (sem_simple s _ p (CbGuard t w) (CbUnrefW w)); try done.
    + by eapply (waiting_stay s).
    + by apply refs_same.
    + intros q _. by apply frame_same.
    + by left.
    + apply HI.
Qed.

(** Waking, by a post or by the callback of a timer. *)
Lemma sem_wake_inv s p t w pc pc' : sem_inv s -> sprocs s !! p = Some pc ->
  (pc = SWake t w /\ pc' = SIdle \/ pc = CbWake t w /\ pc' = CbUnrefW w) ->
  sem_inv (at_spc p pc' (with_swaking (wake t (swaking s)) s)).
Proof.
  intros HI Hp Hpc. assert (sem_targets pc = t :: sem_targets pc' /\ sem_mode pc' = sem_mode pc /\ srefs pc' = srefs pc
    /\ (forall v, holds v pc' = holds v pc) /\ sem_targets pc' = [] /\ sem_mode pc <> Sleeping /\ (calling pc' = true -> calling pc = true))
    as (Ht & Hm & Hr & Hh & Ht' & Hns & Hc) by (by destruct Hpc as [[-> ->]|[-> ->]]).
  destruct (waiting_wake _ _ _ _ _ p t pc pc' (si_waiting _ HI)) as (r & -> & Hw & Hs); [done..|].
  apply (sem_simple s _ p pc pc'); try done.
  - apply refs_same; try done. simpl. rewrite Hr. lia.
  - pose proof (si_pcs _ HI p pc Hp) as Ho. destruct Hpc as [[-> ->]|[-> ->]]; simpl in *; [done|].
    destruct Ho as (Htok & x & Hx & _). split; [done|by exists x].
  - intros q _. apply frame_same; [apply Hs|done..].
  - right. by eapply awake_not_due.
  - apply HI.
Qed.

(** A thread whose time is over takes its waiter off the list. *)
Lemma cancel_inv s p w : sem_inv s -> sprocs s !! p = Some (SCancel w) ->
  sem_inv (match _sem_cancel_waiter w s with
           | (true, s) => sem_return false p (with_waiter w (add_wref (-1)) s)
           | (false, s) => at_spc p (SBlocked false w) s
           end).
Proof.
  intros HI Hp. pose proof (si_pcs _ HI p _ Hp) as Hok. destruct Hok as (Hk & x & Hx & Hxp & Htok & Hfx & Htx).
  unfold _sem_cancel_waiter. rewrite Hx. destruct (queued x) eqn:Hqx.
  2: { apply (sem_simple s _ p (SCancel w) (SBlocked false w)); try done.
    - by eapply (waiting_stay s).
    - by apply refs_same.
    - split; [done|]. exists x. by rewrite Hqx.
    - intros q _. by apply frame_same.
    - by left.
    - apply HI. }
  pose proof (cancel_split s w x HI Hx Hqx) as Hsplit. rewrite Hxp in Hsplit.
  set (queue' := filter _ _) in *. set (s' := sem_return _ _ _).
  assert (sws s' = alter (add_wref (-1) ∘ set_queued false) w (sws s)) as Hsw by apply alter_alter.
  pose proof (si_waiting _ HI) as Hwt. unfold waiting in Hwt.
  assert (parked (swaking s) (sem_mode <$> sprocs s) (p :: due sem_targets queue'.*1 (sprocs s))) as Hwt'.
  { eapply parked_perm; [|exact Hwt]. unfold due. by rewrite Hsplit. }
  pose proof (due_once _ _ _ Hwt') as [Hnp Hnd]%NoDup_cons.
  assert (tokens (sghost s') = tokens (sghost s)) as Htk by (simpl; by apply list_insert_id).
  assert (forall q, q <> p -> frame s s' q) as Hfr.
  { intros q Hne. apply (frame_alter s s' q w (add_wref (-1) ∘ set_queued false)); try done; [by rewrite Htk|].
    rewrite Hx. intros y [= <-]. split_and!; [done|done|]. intros E. destruct Hne. congruence. }
  apply (sem_moved s s' p (SCancel w) SIdle); rewrite ?Htk; simpl; try done; try apply HI.
  - intros _. apply (si_empty _ HI). intros E. rewrite E in Hsplit. by apply Permutation_nil_cons in Hsplit.
  - unfold waiting. rewrite list_fmap_insert. eapply parked_perm; [symmetry; by eapply due_moved|]. by apply parked_cancel.
  - apply (refs_alter s s' _ _ w (add_wref (-1) ∘ set_queued false) x); try done; simpl; rewrite ?decide_True by done;
      change (armed (add_wref (-1) (set_queued false x))) with (armed x); try lia. intros v Hne. by rewrite decide_False.
  - unfold has_token. by rewrite Htk.
  - intros q pq Hne Hq. eapply pc_ok_frame; [by apply Hfr|by apply HI].
  - intros t v Hin _. apply list_elem_of_filter in Hin. tauto.
  - right. split.
    + intros q pq _ Hq Ht. apply Hnp, elem_of_app. right. apply list_elem_of_bind. exists pq. split; [done|]. by eapply list_elem_of_lookup_2.
    + intros v Hin. exfalso. apply Hnp, elem_of_app. left. apply list_elem_of_fmap. by exists (p, v).
  - intros t v [Hne Hin]%list_elem_of_filter. simpl in Hne. destruct (si_queue _ HI t v Hin) as [_ (y & Hy & Hqy)].
    exists y. rewrite alter_alter, list_lookup_alter_ne by done. done.
  - intros v y Hy Hqy. rewrite alter_alter in Hy. destruct (decide (v = w)) as [->|Hne].
    + rewrite list_lookup_alter_eq, Hx in Hy. by injection Hy as <-.
    + rewrite list_lookup_alter_ne in Hy by done. destruct (si_queued _ HI v y Hy Hqy) as [t Ht]. exists t.
      by apply list_elem_of_filter.
  - intros t v [? | ?]; done.
  - intros Hd. split; [done|by left].
Qed.

Lemma sem_go_inv s s' p pc : sem_inv s -> sprocs s !! p = Some pc -> (pc = SPost -> scount (sem s) + 1 < 2 ^ 32) ->
  sem_go pc p s = Some s' -> sem_inv s'.
Proof.
  intros HI Hp Hpost. pose proof (si_pcs _ HI p pc Hp) as Hok.
  assert (forall v n, alter (set_timer Armed) v (alter (add_wref n) v (alter (set_queued true) v (sws s)))
    = alter (set_timer Armed ∘ add_wref n ∘ set_queued true) v (sws s)) as Harm by (intros; by rewrite !alter_alter).
  destruct pc; simpl; try done; try (intros [= <-]).
  - destruct (try_take_cases p s) as [[Hpos E]|[Hle E]]; rewrite E; [by eapply try_inv; eauto|by eapply return_false_inv; eauto].
  - unfold xylem_sem_wait. destruct (try_take_cases p s) as [[Hpos E]|[Hle E]]; rewrite E; [by eapply try_inv; eauto|].
    destruct (is_coro (swaking s) p) eqn:Ek; [destruct timed|].
    + apply (sem_simple s _ p (STake true) SAlloc); try done; [by eapply (waiting_stay s)|by apply refs_same|by intros q _; apply frame_same|by left|apply HI].
    + apply (new_waiter_inv s p (STake false) _ false); auto.
    + apply (new_waiter_inv s p (STake timed) _ timed); auto.
  - apply (new_waiter_inv s p SAlloc _ true); auto. left. split; [done|apply Hok].
  - assert (sem_inv (at_spc p (SPark timed w) (_sem_ref s))) as Hc by (by apply (ref_step s p (SRef timed w) (SPark timed w) 1)).
    by destruct timed; simpl; intros [= <-].
  - destruct timed; simpl; intros [= <-]; by apply sem_park_inv.
  - assert (sem_inv (_sem_wait_commit_cb timed p w s)) as Hc; [|by destruct timed; simpl; intros [= <-]].
    unfold _sem_wait_commit_cb. destruct (try_take_cases p s) as [[Hpos E]|[Hle E]]; rewrite E; [by apply commit_take_inv|].
    destruct timed.
    + eapply (sem_push_inv s _ p (SCommit true w) (SSleep true w) w (set_timer Armed ∘ add_wref 1 ∘ set_queued true) true); try done; [by left|exact (Harm w 1)].
    + eapply (sem_push_inv s _ p (SCommit false w) (SSleep false w) w (set_queued true) false); try done; simpl; [by left|by rewrite Z.add_0_r|].
      intros x. by rewrite Z.add_0_r.
  - destruct (resume p (swaking s)) as [r|] eqn:Er; [|by destruct timed]. pose proof (sem_resume_inv s p timed w r HI Hp Er) as Hc.
    by destruct timed; simpl; intros [= <-].
  - destruct Hok as (_ & x & Hx & _). rewrite Hx. simpl. intros [= <-]. by apply load_inv.
  - by apply stop_inv.
  - destruct Hok as (_ & _ & x & Hx & _). eapply (wref_step s p (SDropW w f) (SDropS w f) w x); simpl; rewrite ?decide_True by done; try done.
    intros v Hv. by rewrite !decide_False.
  - by apply (ref_step s p (SDropS w f) (SUnrefW w f) (-1)).
  - destruct Hok as (Hk & Ht & x & Hx & _). eapply (wref_step s p (SUnrefW w f) (SUnrefS (negb f)) w x); simpl; rewrite ?decide_True by done; try done.
    intros v Hv. by rewrite decide_False.
  - by apply unref_return_inv.
  - eapply (drop_return_inv s _ p (SUnref w) w true (swaking s)); try done; [by left|by eapply (waiting_stay s)|by eapply awake_not_due].
  - destruct (try_take_cases p s) as [[Hpos E]|[Hle E]]; rewrite E; [by eapply guard_take_inv|].
    eapply (sem_push_inv s _ p (SGuard timed w) (SBlocked timed w) w (set_queued true) false); try done; simpl; [right; eauto|by rewrite Z.add_0_r|].
    intros x. by rewrite Z.add_0_r.
  - destruct (resume p (swaking s)) as [r|] eqn:Er; simpl; intros [= <-].
    destruct (waiting_resume _ _ _ r _ _ p (SBlocked timed w) SIdle (si_waiting _ HI)) as (Hn & Hw & Hs); [done..|].
    eapply (drop_return_inv s _ p (SBlocked timed w) w true r); eauto.
  - by apply cancel_inv.
  - by apply post_inv; auto.
  - eapply sem_wake_inv; eauto.
  - by apply (ref_step s p SDestroy SIdle (-1)).
  - by apply cb_guard_inv.
  - eapply sem_wake_inv; eauto.
  - destruct Hok as (Ht & x & Hx). eapply (wref_step s p (CbUnrefW w) CbUnrefS w x); simpl; rewrite ?decide_True by done; try done.
    intros v Hv. by rewrite decide_False.
  - by apply (ref_step s p CbUnrefS SIdle (-1)).
Qed.

Lemma sem_step_inv l s s' : sem_inv s -> sem_step l s = Some s' -> sem_inv s'.
Proof.
  intros HI. destruct l as [pc p|p|p|w p|p]; simpl.
  - destruct (sprocs s !! p) as [[]|] eqn:Hp; try done. pose proof (si_pcs _ HI p _ Hp) as Hok. simpl in Hok.
    destruct (entry pc && salive (sghost s)) eqn:E; simpl; [|done]. apply andb_true_iff in E as [He Ha].
    assert (sem_mode pc = Awake /\ sem_targets pc = [] /\ (forall w, holds w pc = 0%nat) /\ sleeps_on pc = None)
      as (Hm & Ht & Hh & Hsl) by (by destruct pc).
    destruct (decide (pc = SDestroy)) as [->|Hnd].
    2: { intros Hs. assert (Some (at_spc p pc s) = Some s') as [= <-] by (by destruct pc). clear Hs.
      assert (srefs pc = 0%nat /\ sem_pc_ok s p pc) as [Hr Hpc] by (by destruct pc).
      apply (sem_local s _ p SIdle pc); try done; try apply HI.
      - by left.
      - by eapply (waiting_stay s).
      - apply refs_same; try done. simpl. lia.
      - intros q _. by apply frame_same.
      - by right; eapply awake_not_due.
      - simpl. by rewrite Ha. }
    destruct (existsb calling (sprocs s)) eqn:Ex; [done|]. intros [= <-].
    apply (sem_local s _ p SIdle SDestroy); try done; try apply HI.
    + by left.
    + by eapply (waiting_stay s).
    + split; simpl; [rewrite Ha; simpl; lia|]. intros w x Hx. rewrite Hx. lia.
    + intros q _. by apply frame_same.
    + by left.
    + intros _. by split; [|right].
  - destruct (sprocs s !! p) as [[]|] eqn:Hp; try done. intros [= <-]. eapply return_false_inv; eauto.
  - destruct (sprocs s !! p) as [[| | | | | | | | | | | | | | | |k w| | | | | | | |]|] eqn:Hp; try done.
    destruct k; [|done]. intros [= <-].
    pose proof (si_pcs _ HI p _ Hp) as Hok. apply (sem_simple s _ p (SBlocked true w) (SCancel w)); try done;
      [by eapply (waiting_stay s)|by apply refs_same|by intros q _; apply frame_same|by left|apply HI].
  - destruct (sprocs s !! p) as [[]|] eqn:Hp; try done. destruct (sws s !! w) as [x|] eqn:Hx; [|done].
    destruct (timer x) eqn:Et; try done. intros [= <-]. pose proof (si_pcs _ HI p _ Hp) as Hok. set (s' := at_spc p _ _).
    assert (forall q, frame s s' q) as Hfr.
    { intros q. apply (frame_alter s s' q w (set_timer Fired)); try done. rewrite Hx. intros y [= <-]. by rewrite Et. }
    apply (sem_simple s s' p SIdle (CbGuard (sw_process x) w)); try done.
    + by eapply (waiting_stay s).
    + apply (refs_alter s s' _ _ w (set_timer Fired) x); try done; simpl; unfold armed; simpl; rewrite ?Et, ?decide_True by done; try lia.
      intros v Hne. by rewrite decide_False.
    + split; [done|]. exists (set_timer Fired x). split; [|done]. simpl. by rewrite list_lookup_alter_eq, Hx.
    + by left.
    + by apply (queued_alter s s' w (set_timer Fired)).
    + apply HI.
  - destruct (sprocs s !! p) as [pc|] eqn:Hp; simpl; [|done]. intros Hs.
    assert (exists s1, sem_go pc p s = Some s1 /\ s' = checked pc s s1 /\ (pc = SPost -> scount (sem s) + 1 < 2 ^ 32)) as (s1 & Hgo & -> & Hpost).
    { destruct (decide (pc = SPost)) as [->|Hne].
      - destruct (Z.ltb_spec (scount (sem s) + 1) (2 ^ 32)); [|done]. apply fmap_Some in Hs as (s1 & ? & ->). eauto.
      - assert (checked pc s <$> sem_go pc p s = Some s') as Hs' by (by destruct pc).
        apply fmap_Some in Hs' as (s1 & ? & ->). by exists s1. }
    unfold checked. rewrite (not_freed s p pc HI Hp); [by eapply sem_go_inv|]. intros ->. done.
Qed.

Lemma sem_start_inv m w n v : xylem_sem_create true v = Some m -> ubound 32 v -> (forall p, (p < n)%nat -> in_phase w p Run) ->
  sem_inv (sem_start m w n).
Proof.
  intros [= <-] Hv Hw. assert (forall p pc, replicate n SIdle !! p = Some pc -> pc = SIdle /\ (p < n)%nat) as Hr
    by (intros p pc; apply lookup_replicate).
  split; simpl; try done.
  - lia.
  - rewrite sum_zero; [done|]. by intros i x [-> _]%lookup_replicate.
  - by rewrite !length_replicate.
  - by apply waiting_start.
  - rewrite sum_zero; [done|]. by intros i x [-> _]%Hr.
  - intros p pc [-> Hp]%Hr. by apply lookup_replicate_2.
  - set_solver.
  - by intros q t v' [[? _]%Hr|[? _]%Hr].
Qed.

Lemma sem_stuck_pc s p pc : sem_inv s -> sprocs s !! p = Some pc -> sem_step (SStep p) s = None ->
  pc = SIdle \/ (exists w, sleeps_on pc = Some w /\ p ∈ sdue s) \/ pc = SPost /\ 2 ^ 32 <= scount (sem s) + 1.
Proof.
  intros HI Hp. simpl. rewrite Hp. simpl. pose proof (si_pcs _ HI p pc Hp) as Hok.
  assert (sem_mode pc = Sleeping -> resume p (swaking s) = None -> p ∈ sdue s) as Hb
    by (intros Hm; by apply (waiting_blocks _ _ _ _ _ p pc (si_waiting _ HI))).
  destruct pc; simpl in *; try done; try (destruct timed; simpl; try done); try by auto.
  1, 2, 4, 5: destruct (resume p (swaking s)); simpl; [done|]; intros _; right; left; eauto.
  - destruct Hok as (_ & x & -> & _). done.
  - destruct (Z.ltb_spec (scount (sem s) + 1) (2 ^ 32)); [done|]. by right; right.
Qed.

(** When no call can go on, a sleeping process is on the list and has no token. *)
Lemma sem_stuck s : sem_inv s -> (forall q, sem_step (SStep q) s = None) ->
  forall p pc w, sprocs s !! p = Some pc -> sleeps_on pc = Some w ->
  (p, w) ∈ squeue (sem s) /\ scount (sem s) = 0 /\ sum_list_with id (tokens (sghost s)) = 0%nat.
Proof.
  intros HI Hstuck.
  assert (forall p pc w, sprocs s !! p = Some pc -> sleeps_on pc = Some w -> p ∈ (squeue (sem s)).*1) as Hin.
  { intros p pc w Hp Hsl. destruct (sem_stuck_pc s p pc HI Hp (Hstuck p)) as [->|[(v & _ & Hd)|[-> _]]]; [done| |done].
    apply elem_of_app in Hd as [|(pq & Ht & (q & Hq)%list_elem_of_lookup)%list_elem_of_bind]; [done|].
    destruct (sem_stuck_pc s q pq HI Hq (Hstuck q)) as [->|[(v' & Hv & _)|[-> _]]]; [set_solver| |set_solver].
    destruct pq; simpl in *; set_solver. }
  intros p pc w Hp Hsl. pose proof (Hin p pc w Hp Hsl) as Hp1. apply list_elem_of_fmap in Hp1 as ([t v] & Et & Htv). simpl in Et. subst t.
  destruct (si_queue _ HI p v Htv) as [(pc' & Hpc' & Hsl') _]. assert (v = w) as -> by congruence.
  assert (scount (sem s) = 0) as Hc0 by (apply (si_empty _ HI); intros E; rewrite E in Htv; set_solver).
  split_and!; [done..|]. apply sum_zero. intros q n Hq.
  destruct (lookup_lt_is_Some_2 (sprocs s) q) as [pq Hpq]; [rewrite <-(si_length _ HI); by eapply lookup_lt_Some|].
  pose proof (si_pcs _ HI q pq Hpq) as Hok. unfold id.
  destruct (sem_stuck_pc s q pq HI Hpq (Hstuck q)) as [->|[(u & Hu & _)|[-> _]]]; simpl in Hok; unfold has_token in Hok; [congruence| |congruence].
  pose proof (Hin q pq u Hpq Hu) as Hq1. apply list_elem_of_fmap in Hq1 as ([t u'] & Et & Htu). simpl in Et. subst t.
  destruct (si_queue _ HI q u' Htu) as [(pc'' & Hpc'' & Hsl'') (x & Hx & Hqx)]. assert (u' = u) as -> by congruence.
  destruct pq; simpl in *; simplify_eq; destruct Hok as (_ & y & Hy & _ & Hty & _); rewrite Hx in Hy; injection Hy as <-;
    rewrite Hqx in Hty; unfold has_token in Hty; simpl in Hty; congruence.
Qed.

(** C4 In every interleaving of waits (of coroutines and threads, with and without time
    limits), posts, timer callbacks and the final destroy: no freed semaphore or waiter
    is accessed and the blocking layer never aborts; tokens are conserved, so the
    initial value and the posts are the count, the waits that returned with a token and
    the tokens on their way to one; no wake-up is lost: when no call can go on and a
    process still sleeps, it is on the list, the count is zero and every token supplied
    has been won by a wait that returned; and once the handle is given up, no call is in
    progress and no timer is armed, nothing is leaked: the semaphore and all waiters
    have been released. *)
Theorem sem_correct v m w n s :
  xylem_sem_create true v = Some m -> ubound 32 v -> (forall p, (p < n)%nat -> in_phase w p Run) ->
  reachable sem_step (sem_start m w n) s ->
  sfault s = false
  /\ (0 <= scount (sem s)
      /\ scount (sem s) + wins (sghost s) + Z.of_nat (sum_list_with id (tokens (sghost s))) = supply (sghost s))
  /\ ((forall q, sem_step (SStep q) s = None) ->
      forall p pc w, sprocs s !! p = Some pc -> sleeps_on pc = Some w ->
      (p, w) ∈ squeue (sem s) /\ scount (sem s) = 0 /\ wins (sghost s) = supply (sghost s))
  /\ (salive (sghost s) = false -> (forall p pc, sprocs s !! p = Some pc -> pc = SIdle) ->
      (forall w x, sws s !! w = Some x -> timer x <> Armed) ->
      srefcnt (sem s) = 0 /\ forall w x, sws s !! w = Some x -> wref x = 0).
Proof.
  intros Hm Hv Hw Hr.
  assert (sem_inv s) as HI by (eapply reachable_invariant; [by apply (sem_start_inv m w n v)|exact sem_step_inv|exact Hr]).
  pose proof (si_count _ HI). pose proof (si_tokens _ HI). pose proof (si_bound _ HI) as Hb. unfold ubound in Hb.
  split_and!; [apply HI|lia|lia| |].
  - intros Hstuck p pc u Hp Hsl. destruct (sem_stuck s HI Hstuck p pc u Hp Hsl) as (Q1 & Q2 & Q3). split_and!; [done..|lia].
  - intros Hd Hidle Hna. assert (forall u x, sws s !! u = Some x -> armed x = 0%nat) as Ha
      by (intros u x Hx; unfold armed; specialize (Hna u x Hx); by destruct (timer x)).
    split.
    + rewrite (si_ref _ HI), Hd, (sum_zero srefs), (sum_zero armed); [done|exact Ha|]. by intros p pc ->%Hidle.
    + intros u x Hx. rewrite (si_wref _ HI u x Hx), (sum_zero (holds u)), (Ha u x Hx); [done|]. by intros p pc ->%Hidle.
Qed.
End sem_correct.

(** One token; a coroutine takes it, a second coroutine waits with a time limit that
    runs out and a thread waits without. *)
Definition sem_demo : list sem_label :=
  [SCall (STake false) 0; SStep 0; SCall (STake true) 1; SStep 1; SStep 1; SStep 1; SStep 1; SStep 1;
   SCall (STake false) 2; SStep 2; SStep 2; Fire 0 3; SStep 3; SStep 3; SStep 3; SStep 3;
   SStep 1; SStep 1; SStep 1; SStep 1; SStep 1].
Definition sem_demo_contexts : list context := [Coro SCHED_CORO_RUNNING; Coro SCHED_CORO_RUNNING; Thrd 0; Thrd 0].
Definition sem_demo_end : sem_sys :=
  default (sem_start (Sem 1 1 []) sem_demo_contexts 4) (run sem_step sem_demo (sem_start (Sem 1 1 []) sem_demo_contexts 4)).
Lemma sem_correct_witness :
  (2%nat, 1%nat) ∈ squeue (sem sem_demo_end) /\ scount (sem sem_demo_end) = 0 /\ wins (sghost sem_demo_end) = supply (sghost sem_demo_end).
Proof.
  refine (proj1 (proj2 (proj2 (sem_correct 1 (Sem 1 1 []) sem_demo_contexts 4 sem_demo_end eq_refl _ _ (ex_intro _ sem_demo _))))
    _ 2%nat (SBlocked false 1) 1%nat _ eq_refl).
  - unfold ubound. lia.
  - intros [|[|[|[|p]]]] Hp; [exact I..|lia].
  - vm_compute. reflexivity.
  - intros [|[|[|[|p]]]]; vm_compute; reflexivity.
  - vm_compute. reflexivity.
Defined.
