(* ===== verification/ThrdWake.v ===== *)
(** * Wake objects of threads (src/sync/thrd-wake.c)

    The owner of a wake object waits for tokens, other threads signal it.  Steps are the
    atomic accesses of [count] and [refcnt] and the calls of the futex, which behave as
    platform-futex.h documents: a wait goes to sleep only if the word still has the
    expected value, a signal ends the sleep of the thread, and a sleep may end for no
    reason or because its time is over.  The wake object in [Parking] is the abstraction
    of this one: a signal adds a token, a wait takes one. *)

From S2P Require Import Prelude Interleave.

Record thrd_wake_t := ThrdWake { tw_count : Z; tw_refcnt : Z }.

(** Where the owner is, in [thrd_wake_wait] or ([timed]) [thrd_wake_timedwait]. *)
Inductive owner_pc :=
| OIdle
| OLoad (timed : bool)                (* load of _thrd_wake_try *)
| OCas (timed : bool) (c : Z)         (* exchange of _thrd_wake_try *)
| OClock (timed : bool)               (* no token: look at the clock, if timed *)
| OFutex (timed : bool)
| OSleep (timed : bool)
| OExit                               (* _thrd_wake_dtor *)
| OGone.
Inductive signal_pc := SigIdle | SigAdd | SigFutex | SigUnref.

(** [added] and [taken] count the tokens; [tw_fault] records an access of the freed
    object. *)
Record wake_sys := WakeSys {
  obj : thrd_wake_t; owner : owner_pc; signals : list signal_pc; added : Z; taken : Z; tw_fault : bool }.

Definition live (o : thrd_wake_t) : bool := 0 <? tw_refcnt o.
Definition set_owner (pc : owner_pc) (s : wake_sys) : wake_sys :=
  WakeSys (obj s) pc (signals s) (added s) (taken s) (tw_fault s || negb (live (obj s))).
Definition set_signal (p : nat) (pc : signal_pc) (s : wake_sys) : wake_sys :=
  WakeSys (obj s) (owner s) (<[p := pc]> (signals s)) (added s) (taken s) (tw_fault s || negb (live (obj s))).
Definition set_obj (o : thrd_wake_t) (s : wake_sys) : wake_sys :=
  WakeSys o (owner s) (signals s) (added s) (taken s) (tw_fault s).
Definition _thrd_wake_ref (o : thrd_wake_t) : thrd_wake_t := ThrdWake (tw_count o) (tw_refcnt o + 1).
Definition _thrd_wake_unref (o : thrd_wake_t) : thrd_wake_t := ThrdWake (tw_count o) (tw_refcnt o - 1).

(** The loop test of [_thrd_wake_try] on the value [c] it has read. *)
Definition try_value (timed : bool) (c : Z) : owner_pc := if 0 <? c then OCas timed c else OClock timed.
(** [spurious] is a failure of the weak exchange. *)
Definition _thrd_wake_try (spurious : bool) (pc : owner_pc) (s : wake_sys) : option wake_sys :=
  match pc with
  | OLoad timed => Some (set_owner (try_value timed (tw_count (obj s))) s)
  | OCas timed c =>
      if negb spurious && (tw_count (obj s) =? c)
      then let s := set_owner OIdle s in
           Some (WakeSys (ThrdWake (u32 (c - 1)) (tw_refcnt (obj s))) (owner s) (signals s) (added s) (taken s + 1) (tw_fault s))
      else Some (set_owner (try_value timed (tw_count (obj s))) s)
  | _ => None
  end.
(** [over] tells that the deadline has passed, [awoken] that the sleep ends without a
    signal. *)
Definition thrd_wake_timedwait (spurious over awoken : bool) (s : wake_sys) : option wake_sys :=
  match owner s with
  | OClock timed => Some (set_owner (if timed && over then OIdle else OFutex timed) s)
  | OFutex timed => Some (set_owner (if tw_count (obj s) =? 0 then OSleep timed else OLoad timed) s)
  | OSleep timed => if awoken then Some (set_owner (OLoad timed) s) else None
  | OExit => Some (set_obj (_thrd_wake_unref (obj s)) (set_owner OGone s))
  | pc => _thrd_wake_try spurious pc s
  end.
Definition platform_futex_signal (pc : owner_pc) : owner_pc :=
  match pc with OSleep timed => OLoad timed | pc => pc end.
Definition thrd_wake_signal_step (p : nat) (s : wake_sys) : option wake_sys :=
  pc ← signals s !! p;
  match pc with
  | SigIdle => None
  | SigAdd =>
      if tw_count (obj s) + 1 <? 2 ^ 32
      then let s := set_signal p SigFutex s in
           Some (WakeSys (ThrdWake (u32 (tw_count (obj s) + 1)) (tw_refcnt (obj s))) (owner s) (signals s) (added s + 1) (taken s) (tw_fault s))
      else None
  | SigFutex => let s := set_signal p SigUnref s in
                Some (WakeSys (obj s) (platform_futex_signal (owner s)) (signals s) (added s) (taken s) (tw_fault s))
  | SigUnref => let s := set_signal p SigIdle s in Some (set_obj (_thrd_wake_unref (obj s)) s)
  end.

(** A signal begins with its reference, while the object is valid: the owner has not
    exited. *)
Inductive wake_label := OwnerWait (timed : bool) | OwnerExit | Signal (p : nat) | OwnerStep (spurious over awoken : bool) | SignalStep (p : nat).
Definition wake_step (l : wake_label) (s : wake_sys) : option wake_sys :=
  match l with
  | OwnerWait timed => match owner s with OIdle => Some (set_owner (OLoad timed) s) | _ => None end
  | OwnerExit => match owner s with OIdle => Some (set_owner OExit s) | _ => None end
  | Signal p =>
      match signals s !! p, owner s with
      | Some SigIdle, OGone => None
      | Some SigIdle, _ => Some (set_obj (_thrd_wake_ref (obj s)) (set_signal p SigAdd s))
      | _, _ => None
      end
  | OwnerStep spurious over awoken => thrd_wake_timedwait spurious over awoken s
  | SignalStep p => thrd_wake_signal_step p s
  end.
Definition thrd_wake_self (n : nat) : wake_sys := WakeSys (ThrdWake 0 1) OIdle (replicate n SigIdle) 0 0 false.

(** ** The invariant *)

Definition owner_refs (pc : owner_pc) : nat := match pc with OGone => 0 | _ => 1 end.
Definition signal_refs (pc : signal_pc) : nat := match pc with SigIdle => 0 | _ => 1 end.

Record wake_inv (s : wake_sys) : Prop := {
  wi_count : tw_count (obj s) = added s - taken s;
  wi_bound : ubound 32 (tw_count (obj s));
  wi_refs : tw_refcnt (obj s) = Z.of_nat (owner_refs (owner s) + sum_list_with signal_refs (signals s));
  wi_cas timed c : owner s = OCas timed c -> 0 < c;
  wi_sleep timed : owner s = OSleep timed -> 0 < tw_count (obj s) -> SigFutex ∈ signals s;
  wi_fault : tw_fault s = false
}.

Lemma wake_live s : wake_inv s -> owner s <> OGone -> live (obj s) = true.
Proof. intros HI Ho. apply Z.ltb_lt. rewrite (wi_refs _ HI). destruct (owner s); simpl; try done; lia. Qed.
Lemma signal_live s p pc : wake_inv s -> signals s !! p = Some pc -> pc <> SigIdle -> live (obj s) = true.
Proof.
  intros HI Hp Hne. apply Z.ltb_lt. rewrite (wi_refs _ HI). pose proof (sum_lookup signal_refs _ _ _ Hp).
  destruct pc; simpl in *; try done; lia.
Qed.

(** A step of the owner that does not sleep. *)
Lemma owner_move s pc : wake_inv s -> owner s <> OGone -> pc <> OGone ->
  (forall timed c, pc = OCas timed c -> 0 < c) -> (forall timed, pc = OSleep timed -> tw_count (obj s) = 0) ->
  wake_inv (set_owner pc s).
Proof.
  intros HI Ho Hpc Hc Hs. split; simpl; try apply HI; [|done| |].
  - rewrite (wi_refs _ HI). by destruct (owner s), pc.
  - intros timed E. rewrite (Hs timed E). lia.
  - rewrite (wi_fault _ HI), (wake_live s HI Ho). done.
Qed.
Lemma try_value_ok timed c : try_value timed c <> OGone /\ (forall k d, try_value timed c = OCas k d -> 0 < d)
  /\ forall k, try_value timed c <> OSleep k.
Proof. unfold try_value. destruct (Z.ltb_spec 0 c); split_and!; try done. intros k d [= _ <-]. done. Qed.

Lemma owner_step_inv s s' a b c : wake_inv s -> thrd_wake_timedwait a b c s = Some s' -> wake_inv s'.
Proof.
  intros HI. unfold thrd_wake_timedwait, _thrd_wake_try. destruct (owner s) as [|k|k d|k|k|k| |] eqn:Eo; try done.
  - intros [= <-]. destruct (try_value_ok k (tw_count (obj s))) as (H1 & H2 & H3).
    apply owner_move; try done; [congruence|]. intros timed E. by destruct (H3 timed).
  - pose proof (wi_cas _ HI k d Eo) as Hd. pose proof (wi_bound _ HI) as Hb. unfold ubound in Hb.
    destruct (negb a && (tw_count (obj s) =? d)) eqn:E; intros [= <-].
    + apply andb_true_iff in E as [_ E%Z.eqb_eq]. rewrite uwrap_small by (unfold ubound; lia).
      split; simpl; try done; try (unfold ubound; lia).
      * pose proof (wi_count _ HI). lia.
      * rewrite (wi_refs _ HI). by rewrite Eo.
      * rewrite (wi_fault _ HI), (wake_live s HI) by congruence. done.
    + destruct (try_value_ok k (tw_count (obj s))) as (H1 & H2 & H3).
      apply owner_move; try done; [congruence|]. intros timed E'. by destruct (H3 timed).
  - intros [= <-]. apply owner_move; try done; destruct (k && b); try done; congruence.
  - intros [= <-]. apply owner_move; try done; destruct (Z.eqb_spec (tw_count (obj s)) 0); try done; congruence.
  - destruct c; [|done]. intros [= <-]. apply owner_move; try done; congruence.
  - intros [= <-]. split; simpl; try done; try apply HI.
    + rewrite (wi_refs _ HI), Eo. simpl. lia.
    + rewrite (wi_fault _ HI), (wake_live s HI) by congruence. done.
Qed.

Lemma signal_step_inv s s' p : wake_inv s -> thrd_wake_signal_step p s = Some s' -> wake_inv s'.
Proof.
  intros HI. unfold thrd_wake_signal_step. destruct (signals s !! p) as [pc|] eqn:Hp; simpl; [|done].
  assert (pc <> SigIdle -> tw_fault s || negb (live (obj s)) = false) as Hf.
  { intros Hne. by rewrite (wi_fault _ HI), (signal_live s p pc HI Hp Hne). }
  assert (forall pc', (p < length (signals s))%nat /\ (sum_list_with signal_refs (<[p := pc']> (signals s)) + signal_refs pc
    = sum_list_with signal_refs (signals s) + signal_refs pc')%nat) as Hsum by (intros pc'; split; [by eapply lookup_lt_Some|by apply sum_insert]).
  pose proof (wi_refs _ HI) as Hr. pose proof (wi_bound _ HI) as Hb. unfold ubound in Hb. destruct pc; [done|..].
  - destruct (Z.ltb_spec (tw_count (obj s) + 1) (2 ^ 32)); [|done]. intros [= <-]. simpl. rewrite uwrap_small by (unfold ubound; lia).
    destruct (Hsum SigFutex) as [Hl Hs]. simpl in Hs. split; simpl; try apply HI; try done.
    + pose proof (wi_count _ HI). lia.
    + unfold ubound. lia.
    + lia.
    + intros timed Eo _. apply list_elem_of_lookup. exists p. by apply list_lookup_insert_eq.
    + by apply Hf.
  - intros [= <-]. destruct (Hsum SigUnref) as [Hl Hs]. simpl in Hs. split; simpl; try apply HI; try done.
    + rewrite Hr. destruct (owner s); simpl; lia.
    + intros timed c E. apply (wi_cas _ HI timed c). by destruct (owner s).
    + intros timed E. by destruct (owner s).
    + by apply Hf.
  - intros [= <-]. destruct (Hsum SigIdle) as [Hl Hs]. simpl in Hs. split; simpl; try apply HI; try done.
    + lia.
    + intros timed Eo Hc. pose proof (wi_sleep _ HI timed Eo Hc) as (q & Hq)%list_elem_of_lookup. apply list_elem_of_lookup. exists q.
      rewrite list_lookup_insert_ne; [done|]. intros ->. congruence.
    + by apply Hf.
Qed.

Lemma wake_step_inv l s s' : wake_inv s -> wake_step l s = Some s' -> wake_inv s'.
Proof.
  intros HI. destruct l as [k| |p|a b c|p]; simpl; [| | |by apply owner_step_inv|by apply signal_step_inv].
  - destruct (owner s) eqn:Eo; try done. intros [= <-]. apply owner_move; try done; congruence.
  - destruct (owner s) eqn:Eo; try done. intros [= <-]. apply owner_move; try done; congruence.
  - destruct (signals s !! p) as [[]|] eqn:Hp; try done. intros Hs.
    assert (owner s <> OGone /\ s' = set_obj (_thrd_wake_ref (obj s)) (set_signal p SigAdd s)) as [Ho ->]
      by (destruct (owner s); simplify_eq; done).
    pose proof (sum_insert signal_refs _ _ _ SigAdd Hp) as Hsum. simpl in Hsum. split; simpl; try apply HI.
    + rewrite (wi_refs _ HI). lia.
    + intros timed Eo Hc. pose proof (wi_sleep _ HI timed Eo Hc) as (q & Hq)%list_elem_of_lookup. apply list_elem_of_lookup. exists q.
      rewrite list_lookup_insert_ne; [done|]. intros ->. congruence.
    + by rewrite (wi_fault _ HI), (wake_live s HI Ho).
Qed.

(** C17 In every interleaving of waits of the owner, of any number of signals and of the
    owner's exit: every successful wait has taken one token that a signal added, so the
    word is the number of tokens added and not taken; no wake-up is lost: if the owner
    sleeps and no signal is between its increment and its futex call, there is no token;
    the object is never accessed after it was freed, and it is freed once the owner has
    gone and no signal is in flight. *)
Theorem thrd_wake_correct n s : reachable wake_step (thrd_wake_self n) s ->
  (tw_count (obj s) = added s - taken s /\ 0 <= tw_count (obj s))
  /\ (forall timed, owner s = OSleep timed -> SigFutex ∉ signals s -> added s = taken s)
  /\ tw_fault s = false
  /\ (owner s = OGone -> (forall p pc, signals s !! p = Some pc -> pc = SigIdle) -> tw_refcnt (obj s) = 0).
Proof.
  intros Hr. assert (wake_inv s) as HI.
  { eapply reachable_invariant; [|exact wake_step_inv|exact Hr]. split; simpl; try done.
    rewrite sum_zero; [done|]. by intros p pc [-> _]%lookup_replicate. }
  pose proof (wi_count _ HI). pose proof (wi_bound _ HI) as Hb. unfold ubound in Hb. split_and!; [done|lia| |apply HI|].
  - intros timed Eo Hn. pose proof (wi_sleep _ HI timed Eo) as Hs. destruct (Z.eq_dec (tw_count (obj s)) 0); [lia|].
    destruct Hn. apply Hs. lia.
  - intros Eo Hall. rewrite (wi_refs _ HI), Eo, sum_zero; [done|]. by intros p pc ->%Hall.
Qed.

Definition wake_demo : list wake_label :=
  [OwnerWait false; OwnerStep false false false; OwnerStep false false false; OwnerStep false false false;
   Signal 0; SignalStep 0; SignalStep 0; OwnerStep false false false; OwnerStep false false false; OwnerExit;
   OwnerStep false false false; SignalStep 0].
Definition wake_demo_end : wake_sys := default (thrd_wake_self 1) (run wake_step wake_demo (thrd_wake_self 1)).
Lemma thrd_wake_correct_witness : tw_refcnt (obj wake_demo_end) = 0 /\ taken wake_demo_end = 1.
Proof.
  split; [|vm_compute; reflexivity].
  apply (thrd_wake_correct 1 wake_demo_end).
  - exists wake_demo. vm_compute. reflexivity.
  - vm_compute. reflexivity.
  - intros [|p] pc; vm_compute; congruence.
Defined.
