(* ===== verification/Channel.v ===== *)
(** * Channel (src/sync/xylem-channel.c)

    Many senders and a single receiver over the queue of [Mpsc], whose steps are steps
    of the channel.  Every access of [waiter], [receiving] and [count], and the calls of
    the blocking layer, are steps as well.  A message is the node that carries it; its
    allocation and the first store of [mpsc_push] are one step, for the node is private
    until then.  Modelled are [xylem_channel_send], [xylem_channel_close],
    [xylem_channel_recv] of coroutines and threads and [xylem_channel_recv_timeout] with
    no time; receiving with a time limit and reference counts are not. *)

From S2P Require Import Prelude Interleave Parking Mpsc.

(** The word [waiter]: a state or the waiter of a process. *)
Inductive waiter_slot := CHANNEL_WAITER_NONE | CHANNEL_WAITER_WAIT | CHANNEL_WAITER_CLOSED | WaiterOf (p : nat).
#[export] Instance waiter_slot_eq : EqDecision waiter_slot.
Proof. solve_decision. Defined.

(** Where a process is: sending, closing, or receiving. *)
Inductive chan_pc :=
| HIdle
| HCheck | HCount | HPush | HExchange | HLink           (* send, up to the end of mpsc_push *)
| HLoad (to : waiter_slot) | HCas (to raw : waiter_slot) (* _channel_transition_waiter *)
| HWake (t : nat)
| REnter (try : bool)
| RPop (try : bool) | RPopping (try : bool)              (* mpsc_pop *)
| RSub (n : loc)                                         (* a node was taken *)
| RClosed | RPending                                     (* nothing was there *)
| RSlot | RCan | RAgain | RUndo | RPark | RCommit        (* coroutine *)
| TSlot | TClosed | TCan | TCancel                       (* thread: _channel_publish_waiter *)
| RSleep
| RLeave (payload : option loc).

Section channel.
Context (sentinel : loc) `{Parking W}.

(** Bookkeeping: [closing] once a close has begun; [got] the messages returned;
    [cearly] a blocking receive that returned nothing although the channel was open or
    a message was left; [caborted] an abort. *)
Record chan_sys := ChanSys {
  cq : mpsc_sys; waiter : waiter_slot; receiving : bool; ccount : Z; cwaking : W; cprocs : list chan_pc;
  closing : bool; got : list loc; cearly : bool; caborted : bool }.

Definition at_cpc (p : nat) (pc : chan_pc) (s : chan_sys) : chan_sys :=
  ChanSys (cq s) (waiter s) (receiving s) (ccount s) (cwaking s) (<[p := pc]> (cprocs s)) (closing s) (got s) (cearly s) (caborted s).
Definition with_queue (q : mpsc_sys) (s : chan_sys) : chan_sys :=
  ChanSys q (waiter s) (receiving s) (ccount s) (cwaking s) (cprocs s) (closing s) (got s) (cearly s) (caborted s).
Definition with_slot (x : waiter_slot) (s : chan_sys) : chan_sys :=
  ChanSys (cq s) x (receiving s) (ccount s) (cwaking s) (cprocs s) (closing s) (got s) (cearly s) (caborted s).
Definition with_receiving (b : bool) (s : chan_sys) : chan_sys :=
  ChanSys (cq s) (waiter s) b (ccount s) (cwaking s) (cprocs s) (closing s) (got s) (cearly s) (caborted s).
Definition with_count (n : Z) (s : chan_sys) : chan_sys :=
  ChanSys (cq s) (waiter s) (receiving s) n (cwaking s) (cprocs s) (closing s) (got s) (cearly s) (caborted s).
Definition with_cwaking (w : option W) (s : chan_sys) : chan_sys :=
  match w with
  | Some w => ChanSys (cq s) (waiter s) (receiving s) (ccount s) w (cprocs s) (closing s) (got s) (cearly s) (caborted s)
  | None => ChanSys (cq s) (waiter s) (receiving s) (ccount s) (cwaking s) (cprocs s) (closing s) (got s) (cearly s) true
  end.
Definition chan_abort (s : chan_sys) : chan_sys :=
  ChanSys (cq s) (waiter s) (receiving s) (ccount s) (cwaking s) (cprocs s) (closing s) (got s) (cearly s) true.

Definition _channel_is_closed (s : chan_sys) : bool := bool_decide (waiter s = CHANNEL_WAITER_CLOSED).

(** [_channel_transition_waiter] on the value [raw] it has read: to closed, or to none. *)
Definition transition_test (to raw : waiter_slot) (p : nat) (s : chan_sys) : chan_sys :=
  match to, raw with
  | CHANNEL_WAITER_CLOSED, CHANNEL_WAITER_CLOSED => chan_abort s
  | CHANNEL_WAITER_CLOSED, _ => at_cpc p (HCas to raw) s
  | _, (CHANNEL_WAITER_NONE | CHANNEL_WAITER_CLOSED) => at_cpc p HIdle s
  | _, _ => at_cpc p (HCas to raw) s
  end.
Definition _channel_transition_waiter (spurious : bool) (pc : chan_pc) (p : nat) (s : chan_sys) : option chan_sys :=
  match pc with
  | HLoad to => Some (transition_test to (waiter s) p s)
  | HCas to raw =>
      if negb spurious && bool_decide (waiter s = raw)
      then Some (at_cpc p (match raw with WaiterOf t => HWake t | _ => HIdle end) (with_slot to s))
      else Some (transition_test to (waiter s) p s)
  | HWake t => Some (at_cpc p HIdle (with_cwaking (wake t (cwaking s)) s))
  | _ => None
  end.

(** [xylem_channel_send]; the step at [HPush] is given the node that was allocated. *)
Definition xylem_channel_send (node : loc) (pc : chan_pc) (p : nat) (s : chan_sys) : option chan_sys :=
  match pc with
  | HCheck => Some (if _channel_is_closed s then chan_abort s else at_cpc p HCount s)
  | HCount => if ccount s + 1 <? 2 ^ 64 then Some (at_cpc p HPush (with_count (u64 (ccount s + 1)) s)) else None
  | HPush => q ← mpsc_step sentinel (MPush p node) (cq s); Some (at_cpc p HExchange (with_queue q s))
  | HExchange => q ← mpsc_step sentinel (Producer p) (cq s); Some (at_cpc p HLink (with_queue q s))
  | HLink => q ← mpsc_step sentinel (Producer p) (cq s); Some (at_cpc p (HLoad CHANNEL_WAITER_NONE) (with_queue q s))
  | _ => None
  end.

(** ** Receiving *)

(** [_channel_try_take]: the steps of [mpsc_pop], then the count. *)
Definition _channel_try_take (pc : chan_pc) (p : nat) (s : chan_sys) : option chan_sys :=
  match pc with
  | RPop try => q ← mpsc_step sentinel MPop (cq s); Some (at_cpc p (RPopping try) (with_queue q s))
  | RPopping try =>
      q ← mpsc_step sentinel Consumer (cq s);
      let s' := with_queue q s in
      Some (match mcons q with
            | CIdle =>
                match drop (length (popped (cq s))) (popped q) with
                | n :: _ => at_cpc p (RSub n) s'
                | [] => at_cpc p (if try then RLeave None else RClosed) s'
                end
            | _ => at_cpc p (RPopping try) s'
            end)
  | RSub n => Some (at_cpc p (RLeave (Some n)) (with_count (u64 (ccount s - 1)) s))
  | _ => None
  end.
(** The test for a closed channel, with [_channel_wait_pending_send]. *)
Definition recv_closed (pc : chan_pc) (p : nat) (s : chan_sys) : option chan_sys :=
  match pc with
  | RClosed => Some (at_cpc p (if _channel_is_closed s then RPending else if is_coro (cwaking s) p then RSlot else TSlot) s)
  | RPending => Some (at_cpc p (if ccount s =? 0 then RLeave None else RPop false) s)
  | _ => None
  end.
Definition _channel_wait_commit_cb (p : nat) (s : chan_sys) : chan_sys :=
  if bool_decide (waiter s = CHANNEL_WAITER_WAIT) then at_cpc p RSleep (with_slot (WaiterOf p) s)
  else at_cpc p RSleep (with_cwaking (wake p (cwaking s)) s).
Definition _channel_wait_coro (pc : chan_pc) (p : nat) (s : chan_sys) : option chan_sys :=
  match pc with
  | RSlot => Some (match waiter s with
                   | CHANNEL_WAITER_NONE => at_cpc p RCan (with_slot CHANNEL_WAITER_WAIT s)
                   | CHANNEL_WAITER_CLOSED => at_cpc p (RPop false) s
                   | _ => chan_abort s
                   end)
  | RCan => (fun b : bool => at_cpc p (if b then RUndo else RAgain) s) <$> mpsc_can_pop sentinel (mq (cq s))
  | RAgain => Some (at_cpc p (if _channel_is_closed s then RUndo else RPark) s)
  | RUndo => Some (at_cpc p (RPop false)
               (if bool_decide (waiter s = CHANNEL_WAITER_WAIT) then with_slot CHANNEL_WAITER_NONE s else s))
  | RPark => Some (at_cpc p RCommit (with_cwaking (park p (cwaking s)) s))
  | RCommit => Some (_channel_wait_commit_cb p s)
  | RSleep => w ← resume p (cwaking s); Some (at_cpc p (RPop false) (with_cwaking (Some w) s))
  | _ => None
  end.
(** [_channel_publish_waiter] and the wait of a thread. *)
Definition _channel_wait_thrd (pc : chan_pc) (p : nat) (s : chan_sys) : option chan_sys :=
  match pc with
  | TSlot => Some (if bool_decide (waiter s = CHANNEL_WAITER_NONE) then at_cpc p TClosed (with_slot (WaiterOf p) s)
                   else at_cpc p (RPop false) s)
  | TClosed => Some (at_cpc p (if _channel_is_closed s then TCancel else TCan) s)
  | TCan => (fun b : bool => at_cpc p (if b then TCancel else RSleep) s) <$> mpsc_can_pop sentinel (mq (cq s))
  | TCancel => Some (if bool_decide (waiter s = WaiterOf p) then at_cpc p (RPop false) (with_slot CHANNEL_WAITER_NONE s)
                     else at_cpc p RSleep s)
  | RSleep => w ← resume p (cwaking s); Some (at_cpc p (RPop false) (with_cwaking (Some w) s))
  | _ => None
  end.

(** [_channel_recv_enter] and [_channel_recv_leave]. *)
Definition recv_bounds (pc : chan_pc) (p : nat) (s : chan_sys) : option chan_sys :=
  match pc with
  | REnter try => Some (if receiving s then chan_abort s else at_cpc p (RPop try) (with_receiving true s))
  | RLeave r => Some (at_cpc p HIdle (ChanSys (cq s) (waiter s) false (ccount s) (cwaking s) (cprocs s) (closing s)
                  (got s ++ option_list r) (cearly s) (caborted s)))
  | _ => None
  end.

(** A blocking receive that gives up notes whether it had a reason to. *)
Definition note_early (pc : chan_pc) (s s' : chan_sys) : chan_sys :=
  match pc with
  | RPending => if (ccount s =? 0) && negb (_channel_is_closed s && bool_decide (popped (cq s) = pushed (cq s)))
                then ChanSys (cq s') (waiter s') (receiving s') (ccount s') (cwaking s') (cprocs s') (closing s') (got s') true (caborted s')
                else s'
  | _ => s'
  end.

Definition chan_go (spurious : bool) (pc : chan_pc) (p : nat) (s : chan_sys) : option chan_sys :=
  match pc with
  | HIdle | HPush => None
  | HCheck | HCount | HExchange | HLink => xylem_channel_send sentinel pc p s
  | HLoad _ | HCas _ _ | HWake _ => _channel_transition_waiter spurious pc p s
  | REnter _ | RLeave _ => recv_bounds pc p s
  | RPop _ | RPopping _ | RSub _ => _channel_try_take pc p s
  | RClosed | RPending => note_early pc s <$> recv_closed pc p s
  | RSlot | RCan | RAgain | RUndo | RPark | RCommit | RSleep => _channel_wait_coro pc p s
  | TSlot | TClosed | TCan | TCancel => _channel_wait_thrd pc p s
  end.

Definition sending (pc : chan_pc) : bool :=
  match pc with HCheck | HCount | HPush | HExchange | HLink | HLoad CHANNEL_WAITER_NONE | HCas CHANNEL_WAITER_NONE _ => true | _ => false end.
Definition in_recv (pc : chan_pc) : bool :=
  match pc with
  | REnter _ | RPop _ | RPopping _ | RSub _ | RClosed | RPending | RSlot | RCan | RAgain | RUndo | RPark | RCommit
  | TSlot | TClosed | TCan | TCancel | RSleep | RLeave _ => true
  | _ => false
  end.

(** Calls begin when their process is idle.  The contract of the interface: one receive
    at a time, one close, no send after it began and no close during a send. *)
Inductive chan_label := CallSend (p : nat) | CallClose (p : nat) | CallRecv (try : bool) (p : nat)
  | SendNode (node : loc) (p : nat) | CStep (spurious : bool) (p : nat).
Definition chan_step (l : chan_label) (s : chan_sys) : option chan_sys :=
  match l with
  | CallSend p => match cprocs s !! p with Some HIdle => if closing s then None else Some (at_cpc p HCheck s) | _ => None end
  | CallClose p =>
      match cprocs s !! p with
      | Some HIdle =>
          if closing s || existsb sending (cprocs s) then None
          else Some (ChanSys (cq s) (waiter s) (receiving s) (ccount s) (cwaking s)
                 (<[p := HLoad CHANNEL_WAITER_CLOSED]> (cprocs s)) true (got s) (cearly s) (caborted s))
      | _ => None
      end
  | CallRecv try p =>
      match cprocs s !! p with Some HIdle => if existsb in_recv (cprocs s) then None else Some (at_cpc p (REnter try) s) | _ => None end
  | SendNode node p => match cprocs s !! p with Some HPush => xylem_channel_send node HPush p s | _ => None end
  | CStep spurious p => pc ← cprocs s !! p; chan_go spurious pc p s
  end.
Definition xylem_channel_create (next0 : gmap loc (option loc)) (w : W) (n : nat) : chan_sys :=
  ChanSys (mpsc_start sentinel next0) CHANNEL_WAITER_NONE false 0 w (replicate n HIdle) false [] false false.
End channel.
