(* ===== verification/ChannelCorrect.v ===== *)
(** * Correctness of the channel (src/sync/xylem-channel.c)

    An invariant of every interleaving of [Channel]: the queue satisfies the invariant
    of [Mpsc], the waiter slot and the processes agree, and a receiver that is about to
    sleep on a queue that is not empty has a sender that will still look at the slot. *)

From S2P Require Import Prelude Interleave Parking Mpsc Channel.

Section channel_correct.
Context (sentinel : loc) `{Parking W}.
Implicit Types s : chan_sys (W := W).

Definition chan_mode (pc : chan_pc) : mode :=
  match pc with RSleep | TClosed | TCan | TCancel => Sleeping | RCommit => Committing | _ => Awake end.
Definition chan_targets (pc : chan_pc) : list nat := match pc with HWake t => [t] | _ => [] end.
Definition slot_queue (x : waiter_slot) : list nat := match x with WaiterOf p => [p] | _ => [] end.
Definition bit (b : bool) : nat := if b then 1 else 0.
Definition is_closed (x : waiter_slot) : bool := bool_decide (x = CHANNEL_WAITER_CLOSED).

Definition inside (pc : chan_pc) : bool := match pc with REnter _ => false | _ => in_recv pc end.
Definition popping_pc (pc : chan_pc) : bool := match pc with RPopping _ => true | _ => false end.
Definition busy (c : popping) : bool := match c with CIdle => false | _ => true end.
Definition closer (pc : chan_pc) : bool :=
  match pc with HLoad CHANNEL_WAITER_CLOSED | HCas CHANNEL_WAITER_CLOSED _ => true | _ => false end.
(** Processes whose message is counted and not on the queue. *)
Definition counted (pc : chan_pc) : bool := match pc with HPush | HExchange | RSub _ => true | _ => false end.
Definition inflight (pc : chan_pc) : list loc := match pc with RSub n | RLeave (Some n) => [n] | _ => [] end.
(** The receiver has reserved the slot, has looked at the queue after that; the sender
    has appended its message and will still look at the slot. *)
Definition reserved (pc : chan_pc) : bool := match pc with RCan | RAgain | RUndo | RPark | RCommit => true | _ => false end.
Definition looked (pc : chan_pc) : bool := match pc with RAgain | RPark | RCommit | RSleep => true | _ => false end.
Definition notifying (pc : chan_pc) : bool :=
  match pc with HLink | HLoad CHANNEL_WAITER_NONE | HCas CHANNEL_WAITER_NONE _ => true | _ => false end.

Definition unpopped (q : mpsc_sys) : Z := Z.of_nat (length (pushed q)) - Z.of_nat (length (popped q)).
Definition prod_matches (q : mpsc_sys) (p : nat) (pc : chan_pc) : Prop :=
  match pc with
  | HExchange => exists n, producers q !! p = Some (PInit n)
  | HLink => exists a b, producers q !! p = Some (PLink a b)
  | _ => producers q !! p = None
  end.
Definition chan_pc_ok (w : W) (p : nat) (pc : chan_pc) : Prop :=
  match pc with
  | RSlot | RCan | RAgain | RUndo | RPark | RCommit => is_coro w p = true
  | TSlot | TClosed | TCan | TCancel => is_coro w p = false
  | HLoad to => to = CHANNEL_WAITER_NONE \/ to = CHANNEL_WAITER_CLOSED
  | HCas to raw => raw <> CHANNEL_WAITER_CLOSED /\ (to = CHANNEL_WAITER_NONE \/ to = CHANNEL_WAITER_CLOSED)
  | _ => True
  end.
Definition awaits (x : waiter_slot) (p : nat) : Prop := x = CHANNEL_WAITER_WAIT \/ x = WaiterOf p.

Record chan_inv s : Prop := {
  ci_queue : mpsc_inv sentinel (cq s);
  ci_prod p pc : cprocs s !! p = Some pc -> prod_matches (cq s) p pc;
  ci_outside p : cprocs s !! p = None -> producers (cq s) !! p = None;
  ci_popping : sum_list_with (bit ∘ popping_pc) (cprocs s) = bit (busy (mcons (cq s)));
  ci_waiting : waiting chan_mode chan_targets (cwaking s) (slot_queue (waiter s)) (cprocs s);
  ci_pcs p pc : cprocs s !! p = Some pc -> chan_pc_ok (cwaking s) p pc;
  ci_single : (sum_list_with (bit ∘ in_recv) (cprocs s) <= 1)%nat;
  ci_receiving : sum_list_with (bit ∘ inside) (cprocs s) = bit (receiving s);
  ci_wait : waiter s = CHANNEL_WAITER_WAIT -> exists p pc, cprocs s !! p = Some pc /\ reserved pc = true;
  ci_live p pc : cprocs s !! p = Some pc -> looked pc = true -> awaits (waiter s) p -> popped (cq s) <> pushed (cq s) ->
    exists q pq, cprocs s !! q = Some pq /\ notifying pq = true;
  ci_closers : (sum_list_with (bit ∘ closer) (cprocs s) + bit (is_closed (waiter s)) = bit (closing s))%nat;
  ci_closing p pc : closing s = true -> cprocs s !! p = Some pc -> sending pc = false;
  ci_pending p : cprocs s !! p = Some RPending -> waiter s = CHANNEL_WAITER_CLOSED;
  ci_count : ccount s = unpopped (cq s) + Z.of_nat (sum_list_with (bit ∘ counted) (cprocs s));
  ci_bound : ubound 64 (ccount s);
  ci_got : popped (cq s) = got s ++ (cprocs s ≫= inflight);
  ci_early : cearly s = false;
  ci_aborted : caborted s = false
}.

(** What is left to show when process [p] moves from [pc] to [pc']. *)
Lemma chan_moved s s' p pc pc' :
  chan_inv s -> cprocs s !! p = Some pc -> cprocs s' = <[p := pc']> (cprocs s) ->
  mpsc_inv sentinel (cq s') -> prod_matches (cq s') p pc' ->
  (forall q, q <> p -> producers (cq s') !! q = producers (cq s) !! q) ->
  (bit (busy (mcons (cq s'))) + bit (popping_pc pc) = bit (busy (mcons (cq s))) + bit (popping_pc pc'))%nat ->
  waiting chan_mode chan_targets (cwaking s') (slot_queue (waiter s')) (<[p := pc']> (cprocs s)) ->
  same_kinds (cwaking s) (cwaking s') -> chan_pc_ok (cwaking s) p pc' ->
  (bit (in_recv pc') <= bit (in_recv pc))%nat \/ sum_list_with (bit ∘ in_recv) (cprocs s) = 0%nat ->
  (bit (receiving s') + bit (inside pc) = bit (receiving s) + bit (inside pc'))%nat ->
  (waiter s' = CHANNEL_WAITER_WAIT -> reserved pc' = true \/ waiter s = CHANNEL_WAITER_WAIT /\ reserved pc = false) ->
  (forall r pr, r = p /\ pr = pc' \/ r <> p /\ cprocs s !! r = Some pr -> looked pr = true -> awaits (waiter s') r ->
     popped (cq s') <> pushed (cq s') -> exists q pq, cprocs s' !! q = Some pq /\ notifying pq = true) ->
  (bit (closer pc') + bit (is_closed (waiter s')) + bit (closing s) = bit (closer pc) + bit (is_closed (waiter s)) + bit (closing s'))%nat ->
  (closing s' = true -> sending pc' = false /\ (closing s = true \/ existsb sending (cprocs s) = false)) ->
  (waiter s = CHANNEL_WAITER_CLOSED \/ pc' = RPending -> waiter s' = CHANNEL_WAITER_CLOSED) ->
  ccount s' = ccount s + unpopped (cq s') - unpopped (cq s) + Z.of_nat (bit (counted pc')) - Z.of_nat (bit (counted pc)) ->
  ubound 64 (ccount s') -> popped (cq s') = got s' ++ (<[p := pc']> (cprocs s) ≫= inflight) ->
  cearly s' = false -> caborted s' = false -> chan_inv s'.
Proof.
  intros HI Hp Hs' Hq Hpm Hprod Hpop Hw Hk Hpc Hrec Hins Hwt Hlive Hcl Hcg Hpd Hcnt Hb Hgot He Ha.
  assert (forall f, (sum_list_with f (cprocs s') + f pc = sum_list_with f (cprocs s) + f pc')%nat) as Hsum
    by (intros f; rewrite Hs'; by apply sum_insert).
  split; try done.
  - intros q pq. rewrite Hs', list_lookup_insert_Some. intros [(<- & <- & _)|[Hne Hpq]]; [done|].
    pose proof (ci_prod _ HI q pq Hpq) as Hm. unfold prod_matches in *. by destruct pq; rewrite Hprod by done.
  - intros q. rewrite Hs', list_lookup_insert_None. intros Hq'.
    rewrite Hprod; [by apply HI|]. intros ->. congruence.
  - pose proof (Hsum (bit ∘ popping_pc)). pose proof (ci_popping _ HI). simpl in *. lia.
  - by rewrite Hs'.
  - intros q pq. rewrite Hs', list_lookup_insert_Some. intros [(<- & <- & _)|[Hne Hpq]].
    + unfold chan_pc_ok in *. by destruct pc'; rewrite ?Hk.
    + pose proof (ci_pcs _ HI q pq Hpq) as Ho. unfold chan_pc_ok in *. by destruct pq; rewrite ?Hk.
  - pose proof (Hsum (bit ∘ in_recv)) as Hsr. simpl in Hsr. pose proof (ci_single _ HI).
    destruct Hrec as [|E]; [lia|]. rewrite E in Hsr. destruct (in_recv pc'); simpl in *; lia.
  - pose proof (Hsum (bit ∘ inside)). pose proof (ci_receiving _ HI). simpl in *. lia.
  - intros Ew. destruct (Hwt Ew) as [Hr|[Ew0 Hr]].
    + exists p, pc'. rewrite Hs', list_lookup_insert_eq by (by eapply lookup_lt_Some). done.
    + destruct (ci_wait _ HI Ew0) as (q & pq & Hq' & Hrq). exists q, pq. rewrite Hs', list_lookup_insert_ne by congruence. done.
  - intros r pr. rewrite Hs' at 1. rewrite list_lookup_insert_Some. intros [(<- & <- & _)|[Hne Hpr]] Hl Haw Hn; [by eapply (Hlive p pc'); auto|].
    eapply (Hlive r pr); auto.
  - pose proof (Hsum (bit ∘ closer)). pose proof (ci_closers _ HI). simpl in *. lia.
  - intros q pq Hc. destruct (Hcg Hc) as [Hsp Hor]. rewrite Hs', list_lookup_insert_Some. intros [(<- & <- & _)|[Hne Hpq]]; [done|].
    destruct Hor as [Hc0|Hex]; [by eapply (ci_closing _ HI)|]. apply not_true_is_false. intros Ht.
    rewrite <-not_true_iff_false, existsb_exists in Hex. apply Hex. exists pq. split; [|done].
    apply list_elem_of_In. by eapply list_elem_of_lookup_2.
  - intros q. rewrite Hs', list_lookup_insert_Some. intros [(<- & -> & _)|[Hne Hpq]]; apply Hpd; [by right|left]. by eapply HI.
  - pose proof (Hsum (bit ∘ counted)). pose proof (ci_count _ HI). simpl in *. lia.
  - by rewrite Hs'.
Qed.

(** ** The receiver *)

Lemma sum_pos {A} (f : A -> bool) l : sum_list_with (bit ∘ f) l <> 0%nat -> exists i x, l !! i = Some x /\ f x = true.
Proof.
  induction l as [|x l IH]; simpl; [done|]. destruct (f x) eqn:E; [by exists 0%nat, x|].
  simpl. intros (i & y & ?)%IH. by exists (S i), y.
Qed.
Lemma one_receiver s p q pc pq : chan_inv s -> cprocs s !! p = Some pc -> cprocs s !! q = Some pq ->
  in_recv pc = true -> in_recv pq = true -> p = q.
Proof.
  intros HI Hp Hq Hrp Hrq. destruct (decide (p = q)) as [|Hne]; [done|]. exfalso.
  pose proof (sum_insert (bit ∘ in_recv) _ _ _ HIdle Hp) as E. simpl in E. rewrite Hrp in E.
  pose proof (sum_lookup (bit ∘ in_recv) (<[p := HIdle]> (cprocs s)) q pq) as Hle. rewrite list_lookup_insert_ne in Hle by done.
  specialize (Hle Hq). simpl in Hle. rewrite Hrq in Hle. pose proof (ci_single _ HI). simpl in *. lia.
Qed.

Lemma looked_recv pc : looked pc = true -> in_recv pc = true. Proof. by destruct pc. Qed.
Lemma reserved_recv pc : reserved pc = true -> in_recv pc = true. Proof. by destruct pc. Qed.
Lemma sleeping_recv pc : chan_mode pc = Sleeping -> in_recv pc = true. Proof. by destruct pc. Qed.
Lemma popping_recv pc : popping_pc pc = true -> in_recv pc = true. Proof. by destruct pc. Qed.
Lemma inside_recv pc : inside pc = true -> in_recv pc = true. Proof. by destruct pc. Qed.

(** A slot that is neither free nor closed is that of the receiver. *)
Lemma slot_of_receiver s p pc : chan_inv s -> cprocs s !! p = Some pc -> in_recv pc = true ->
  match waiter s with
  | CHANNEL_WAITER_WAIT => reserved pc = true
  | WaiterOf q => q = p /\ chan_mode pc = Sleeping
  | _ => True
  end.
Proof.
  intros HI Hp Hr. destruct (waiter s) as [| | |q] eqn:Ew; try done.
  - destruct (ci_wait _ HI Ew) as (q & pq & Hq & Hrq). pose proof (one_receiver s p q pc pq HI Hp Hq Hr (reserved_recv _ Hrq)) as <-. congruence.
  - pose proof (ci_waiting _ HI) as Hw. rewrite Ew in Hw.
    destruct (due_sleeps _ _ _ Hw q) as [Hm _]; [unfold due; set_solver|].
    rewrite list_lookup_fmap, fmap_Some in Hm. destruct Hm as (pq & Hq & Hm). symmetry in Hm.
    pose proof (one_receiver s p q pc pq HI Hp Hq Hr (sleeping_recv _ Hm)) as <-. split; congruence.
Qed.
Lemma receiver_idle s p pc : chan_inv s -> cprocs s !! p = Some pc -> in_recv pc = true -> popping_pc pc = false ->
  mcons (cq s) = CIdle.
Proof.
  intros HI Hp Hr Hn. pose proof (ci_popping _ HI) as E. destruct (mcons (cq s)) eqn:Ec; [done|..].
  all: destruct (sum_pos popping_pc (cprocs s)) as (q & pq & Hq & Hpq); [by rewrite E|].
  all: pose proof (one_receiver s p q pc pq HI Hp Hq Hr (popping_recv _ Hpq)) as <-; congruence.
Qed.

Lemma bind_insert {A B} (f : A -> list B) l p x y : l !! p = Some x -> f y = f x -> <[p := y]> l ≫= f = l ≫= f.
Proof.
  revert p. induction l as [|z l IH]; intros [|p] Hp Hf; simpl in *; [done..| |]; simplify_eq; [by rewrite Hf|].
  f_equal. by apply (IH p).
Qed.
Lemma list_bind_nil {A B} (f : A -> list B) l : (forall i x, l !! i = Some x -> f x = []) -> l ≫= f = [].
Proof. induction l as [|x l IH]; intros Hf; simpl; [done|]. rewrite (Hf 0%nat x eq_refl). apply IH. intros i. apply (Hf (S i)). Qed.
Lemma bind_single {A B} (f : A -> list B) l p x : l !! p = Some x -> (forall q y, q <> p -> l !! q = Some y -> f y = []) -> l ≫= f = f x.
Proof.
  revert p. induction l as [|z l IH]; intros [|p] Hp Hf; simpl in *; [done..| |].
  - simplify_eq. rewrite <-(app_nil_r (f x)) at 2. f_equal. clear IH. apply list_bind_nil. intros q y Hq.
    exact (Hf (S q) y ltac:(done) Hq).
  - rewrite (Hf 0%nat z ltac:(done) eq_refl). simpl. apply (IH p Hp). intros q y Hq. apply (Hf (S q)). congruence.
Qed.
(** Only the receiver holds a message. *)
Lemma inflight_at s p pc pc' : chan_inv s -> cprocs s !! p = Some pc -> in_recv pc = true ->
  <[p := pc']> (cprocs s) ≫= inflight = inflight pc'.
Proof.
  intros HI Hp Hr. apply (bind_single inflight _ p pc'); [apply list_lookup_insert_eq; by eapply lookup_lt_Some|].
  intros q pq Hne. rewrite list_lookup_insert_ne by done. intros Hq. destruct (in_recv pq) eqn:E.
  - destruct Hne. by eapply one_receiver.
  - by destruct pq.
Qed.

(** ** Steps that leave the queue alone *)

(** The two places agree on everything the shared words count, the slot apart. *)
Definition alike (pc pc' : chan_pc) : Prop :=
  popping_pc pc' = popping_pc pc /\ inside pc' = inside pc /\ in_recv pc' = in_recv pc /\ counted pc' = counted pc
  /\ inflight pc' = inflight pc /\ (sending pc' = true -> sending pc = true)
  /\ forall q p, prod_matches q p pc -> prod_matches q p pc'.

(** The liveness of the receiver after a move that sets the slot to [x]. *)
Definition stays_live s (p : nat) (pc pc' : chan_pc) (x : waiter_slot) : Prop :=
  x = CHANNEL_WAITER_NONE \/ x = CHANNEL_WAITER_CLOSED
  \/ (in_recv pc = true \/ x = waiter s)
     /\ (notifying pc = true -> notifying pc' = true)
     /\ (looked pc' = true -> looked pc = true /\ (awaits x p -> awaits (waiter s) p)
          \/ (popped (cq s) <> pushed (cq s) -> exists q pq, q <> p /\ cprocs s !! q = Some pq /\ notifying pq = true)).
Lemma notifier_moved s p pc pc' : cprocs s !! p = Some pc -> (notifying pc = true -> notifying pc' = true) ->
  (exists q pq, cprocs s !! q = Some pq /\ notifying pq = true) ->
  exists q pq, <[p := pc']> (cprocs s) !! q = Some pq /\ notifying pq = true.
Proof.
  intros Hp Hn (q & pq & Hq & Hnq). destruct (decide (p = q)) as [<-|Hne].
  - exists p, pc'. rewrite list_lookup_insert_eq by (by eapply lookup_lt_Some). split; [done|]. apply Hn. congruence.
  - exists q, pq. by rewrite list_lookup_insert_ne.
Qed.
Lemma live_moved s p pc pc' x r pr : chan_inv s -> cprocs s !! p = Some pc -> stays_live s p pc pc' x ->
  r = p /\ pr = pc' \/ r <> p /\ cprocs s !! r = Some pr -> looked pr = true -> awaits x r -> popped (cq s) <> pushed (cq s) ->
  exists q pq, <[p := pc']> (cprocs s) !! q = Some pq /\ notifying pq = true.
Proof.
  intros HI Hp [->|[->|(Hx & Hn & Hl)]] Hr Hlr Haw Hne; [by destruct Haw..|].
  destruct Hr as [[-> ->]|[Hrp Hr]].
  - destruct (Hl Hlr) as [[Hlp Ha]|Hex].
    + apply (notifier_moved s p pc pc' Hp Hn). apply (ci_live _ HI p pc); auto.
    + destruct (Hex Hne) as (q & pq & Hqp & Hq & Hnq). exists q, pq. by rewrite list_lookup_insert_ne.
  - apply (notifier_moved s p pc pc' Hp Hn). destruct Hx as [Hrec| ->]; [|by eapply ci_live].
    destruct Hrp. symmetry. eapply (one_receiver s p r); eauto using looked_recv.
Qed.

Lemma chan_goes s p pc pc' x w' :
  chan_inv s -> cprocs s !! p = Some pc -> alike pc pc' ->
  waiting chan_mode chan_targets w' (slot_queue x) (<[p := pc']> (cprocs s)) -> same_kinds (cwaking s) w' ->
  chan_pc_ok (cwaking s) p pc' ->
  (x = CHANNEL_WAITER_WAIT -> reserved pc' = true \/ waiter s = CHANNEL_WAITER_WAIT /\ reserved pc = false) ->
  stays_live s p pc pc' x ->
  (bit (closer pc') + bit (is_closed x) = bit (closer pc) + bit (is_closed (waiter s)))%nat ->
  (waiter s = CHANNEL_WAITER_CLOSED \/ pc' = RPending -> x = CHANNEL_WAITER_CLOSED) ->
  chan_inv (ChanSys (cq s) x (receiving s) (ccount s) w' (<[p := pc']> (cprocs s)) (closing s) (got s) (cearly s) (caborted s)).
Proof.
  intros HI Hp (A1 & A2 & A3 & A4 & A5 & A6 & A7) Hw Hk Hpc Hwt Hl Hcl Hpd.
  apply (chan_moved s _ p pc pc'); simpl; try done; try (by destruct HI).
  - apply A7. by apply HI.
  - by rewrite A1.
  - left. by rewrite A3.
  - by rewrite A2.
  - intros r pr Hr. by eapply live_moved.
  - lia.
  - intros Hc. split; [|by left]. apply not_true_is_false. intros Hs%A6. pose proof (ci_closing _ HI p pc Hc Hp). congruence.
  - rewrite A4. lia.
  - rewrite (bind_insert inflight _ p pc pc') by done. apply HI.
Qed.

(** Only the place changes. *)
Lemma chan_quiet s p pc pc' :
  chan_inv s -> cprocs s !! p = Some pc -> alike pc pc' ->
  chan_mode pc' = chan_mode pc -> chan_targets pc' = chan_targets pc -> chan_pc_ok (cwaking s) p pc' ->
  (waiter s = CHANNEL_WAITER_WAIT -> reserved pc = true -> reserved pc' = true) ->
  stays_live s p pc pc' (waiter s) -> closer pc' = closer pc -> (pc' = RPending -> waiter s = CHANNEL_WAITER_CLOSED) ->
  chan_inv (at_cpc p pc' s).
Proof.
  intros HI Hp Ha Hm Ht Hok Hres Hl Hc Hpd. apply (chan_goes s p pc pc' (waiter s) (cwaking s)); try done.
  - eapply waiting_keep; [apply HI|done..|by rewrite Ht].
  - intros E. destruct (reserved pc) eqn:Er; [left; by apply Hres|by right].
  - by rewrite Hc.
  - intros [|]; auto.
Qed.

Ltac alike_pcs := solve [unfold alike; simpl; split_and!; try done; intros; congruence].

Ltac chan_auto :=
  try done; try exact I; try alike_pcs; try (intros [|]; congruence); try (left; done);
  try (right; right; split_and!; [auto; done|done|first [left; done|done]]);
  try (intros; first [left; done|right; split; done]); try (intros _; left; auto; done).

Lemma transition_inv s p pc to : chan_inv s -> cprocs s !! p = Some pc ->
  pc = HLoad to \/ (exists raw, pc = HCas to raw) -> chan_inv (transition_test to (waiter s) p s).
Proof.
  intros HI Hp Hpc.
  assert (to = CHANNEL_WAITER_NONE \/ to = CHANNEL_WAITER_CLOSED) as Hto
    by (pose proof (ci_pcs _ HI p pc Hp) as Ho; destruct Hpc as [->|[raw ->]]; simpl in Ho; tauto).
  assert (to = CHANNEL_WAITER_CLOSED -> waiter s <> CHANNEL_WAITER_CLOSED) as Hnc.
  { intros -> E. pose proof (sum_lookup (bit ∘ closer) _ _ _ Hp) as Hle. pose proof (ci_closers _ HI) as Hs.
    rewrite E in Hs. unfold is_closed in Hs. rewrite bool_decide_eq_true_2 in Hs by done.
    assert (closer pc = true) as Hc by (destruct Hpc as [->|[raw ->]]; done). simpl in *. rewrite Hc in Hle.
    destruct (closing s); simpl in *; lia. }
  assert (forall pc', (exists raw, raw = waiter s /\ raw <> CHANNEL_WAITER_CLOSED /\ pc' = HCas to raw) -> chan_inv (at_cpc p pc' s)) as Hcas.
  { intros pc' (raw & Hraw & Hr & ->). destruct Hto as [-> | ->], Hpc as [->|[raw' ->]];
      (eapply (chan_quiet s p); [done|done|alike_pcs|done|done|simpl; auto|done|right; right; split_and!; auto; done|done|done]). }
  destruct Hto as [-> | ->]; simpl.
  - destruct (waiter s) eqn:Ew; try (apply Hcas; eexists; split; [reflexivity|by split]).
    all: destruct Hpc as [->|[raw' ->]]; (eapply (chan_quiet s p); [done|done|alike_pcs|done|done|exact I|done|rewrite Ew; unfold stays_live; auto|done|done]).
  - destruct (waiter s) eqn:Ew; try (apply Hcas; eexists; split; [reflexivity|by split]). by destruct Hnc.
Qed.

Lemma cas_inv s p to raw : chan_inv s -> cprocs s !! p = Some (HCas to raw) -> waiter s = raw ->
  chan_inv (at_cpc p (match raw with WaiterOf t => HWake t | _ => HIdle end) (with_slot to s)).
Proof.
  intros HI Hp Hw. destruct (ci_pcs _ HI p _ Hp) as [Hr Hto].
  pose proof (ci_waiting _ HI) as Hq. rewrite Hw in Hq.
  apply (chan_goes s p (HCas to raw) _ to (cwaking s)); try done.
  - by destruct to, raw; try alike_pcs.
  - eapply waiting_keep; [done|done|by destruct raw|]. by destruct Hto as [-> | ->], raw.
  - by destruct raw; simpl.
  - by destruct Hto as [-> | ->].
  - unfold stays_live. tauto.
  - rewrite Hw. destruct Hto as [-> | ->], raw; done.
  - intros [|]; [congruence|]. by destruct raw.
Qed.

Lemma chan_wake_inv s p t : chan_inv s -> cprocs s !! p = Some (HWake t) ->
  chan_inv (at_cpc p HIdle (with_cwaking (wake t (cwaking s)) s)).
Proof.
  intros HI Hp. destruct (waiting_wake chan_mode chan_targets _ _ _ p t (HWake t) HIdle (ci_waiting _ HI) Hp) as (w' & Hw & Hwt & Hk); [done..|].
  rewrite Hw. apply (chan_goes s p (HWake t) HIdle (waiter s) w'); chan_auto.
Qed.

(** ** The receiver waits *)

(** Looking at the queue after the slot was taken finds a message, or a sender that
    will look at the slot. *)
Lemma can_pop_live s p pc : chan_inv s -> cprocs s !! p = Some pc -> in_recv pc = true -> popping_pc pc = false ->
  exists b, mpsc_can_pop sentinel (mq (cq s)) = Some b
  /\ (b = false -> popped (cq s) <> pushed (cq s) -> exists q pq, q <> p /\ cprocs s !! q = Some pq /\ notifying pq = true).
Proof.
  intros HI Hp Hr Hn. destruct (can_pop_ok _ _ (ci_queue _ HI) (receiver_idle s p pc HI Hp Hr Hn)) as (b & Hb & Hl).
  exists b. split; [done|]. intros Eb Hne. destruct (Hl Eb Hne) as (q & x & y & Hq). exists q.
  destruct (cprocs s !! q) as [pq|] eqn:Eq; [|pose proof (ci_outside _ HI q Eq); congruence].
  pose proof (ci_prod _ HI q pq Eq) as Hm. exists pq. destruct pq; simpl in Hm; try congruence.
  - destruct Hm. congruence.
  - split_and!; [|done|done]. intros ->. rewrite Hp in Eq. by injection Eq as ->.
Qed.

Lemma recv_closed_inv s p pc s' : chan_inv s -> cprocs s !! p = Some pc ->
  recv_closed pc p s = Some s' -> chan_inv (note_early pc s s').
Proof.
  intros HI Hp. destruct pc; try done; intros [= <-]; simpl.
  - unfold _channel_is_closed. case_bool_decide as Ec; [|destruct (is_coro (cwaking s) p) eqn:Ek]; apply (chan_quiet s p RClosed); chan_auto.
  - pose proof (ci_pending _ HI p Hp) as Ec. unfold _channel_is_closed. rewrite bool_decide_eq_true_2 by done. simpl.
    assert (chan_inv (at_cpc p (RPop false) s)) as H1 by (apply (chan_quiet s p RPending); chan_auto).
    destruct (Z.eqb_spec (ccount s) 0) as [E0|]; simpl; [|done].
    rewrite bool_decide_eq_true_2; simpl; [apply (chan_quiet s p RPending); chan_auto|].
    pose proof (ci_count _ HI) as Hc. unfold unpopped in Hc. pose proof (m_hist _ _ (ci_queue _ HI)) as Hh.
    rewrite Hh in Hc |- *. rewrite length_app in Hc. rewrite (nil_length_inv (filter _ _)); [by rewrite app_nil_r|].
    lia.
Qed.

Lemma wait_coro_inv s p pc s' : chan_inv s -> cprocs s !! p = Some pc ->
  _channel_wait_coro sentinel pc p s = Some s' -> chan_inv s'.
Proof.
  intros HI Hp. pose proof (ci_pcs _ HI p pc Hp) as Hok. pose proof (slot_of_receiver s p pc HI Hp) as Hsl.
  pose proof (ci_waiting _ HI) as Hwt. destruct pc; try done; simpl in *; specialize (Hsl eq_refl).
  - (* RSlot *) intros [= <-]. destruct (waiter s) eqn:Ew; try naive_solver; [|by apply (chan_quiet s p RSlot); chan_auto; rewrite Ew; chan_auto].
    apply (chan_goes s p RSlot RCan CHANNEL_WAITER_WAIT (cwaking s)); chan_auto.
    + by eapply waiting_keep.
    + by rewrite Ew.
  - (* RCan *) destruct (can_pop_live s p RCan HI Hp) as (b & Hb & Hl); [done..|]. rewrite Hb. intros [= <-].
    destruct b; apply (chan_quiet s p RCan); chan_auto. right; right. split_and!; [by left|done|]. intros _. right. by apply Hl.
  - (* RAgain *) intros [= <-]. destruct (_channel_is_closed s); apply (chan_quiet s p RAgain); chan_auto.
  - (* RUndo *) intros [= <-]. case_bool_decide as Ew; [|apply (chan_quiet s p RUndo); chan_auto].
    apply (chan_goes s p RUndo (RPop false) CHANNEL_WAITER_NONE (cwaking s)); chan_auto; rewrite Ew in *; [by eapply waiting_keep|chan_auto..].
  - (* RPark *) intros [= <-]. destruct (waiting_park chan_mode chan_targets _ _ _ p RPark RCommit Hwt Hp) as (w' & Hw & Hwt' & Hk); [done..|].
    rewrite Hw. apply (chan_goes s p RPark RCommit (waiter s) w'); chan_auto.
  - (* RCommit *) intros [= <-]. unfold _channel_wait_commit_cb. case_bool_decide as Ew.
    + apply (chan_goes s p RCommit RSleep (WaiterOf p) (cwaking s)); chan_auto; rewrite Ew in *; chan_auto.
      * apply (waiting_publish chan_mode chan_targets _ [] _ p RCommit RSleep); [done|done|by left|done|done].
      * right; right. split_and!; [by left|done|]. intros _. left. rewrite Ew. split; [done|]. intros _. by left.
    + destruct (waiting_refuse chan_mode chan_targets _ _ _ p RCommit RSleep Hwt Hp) as (w' & Hw & Hwt' & Hk); [done..|].
      rewrite Hw. apply (chan_goes s p RCommit RSleep (waiter s) w'); chan_auto.
  - (* RSleep *) destruct (resume p (cwaking s)) as [w'|] eqn:Ew; [|done]. intros [= <-].
    destruct (waiting_resume chan_mode chan_targets _ w' _ _ p RSleep (RPop false) Hwt Hp) as (_ & Hwt' & Hk); [done..|].
    apply (chan_goes s p RSleep (RPop false) (waiter s) w'); chan_auto.
Qed.

Lemma waiting_cancel w queue procs p pc pc' :
  waiting chan_mode chan_targets w (p :: queue) procs -> procs !! p = Some pc -> is_coro w p = false ->
  chan_mode pc' = Awake -> chan_targets pc' = chan_targets pc -> waiting chan_mode chan_targets w queue (<[p := pc']> procs).
Proof.
  intros Hk Hp Hc Hm Ht. unfold waiting. rewrite list_fmap_insert, Hm. apply (parked_perm _ _ (due chan_targets queue procs)).
  - symmetry. eapply due_moved; [done|]. by rewrite Ht.
  - by apply parked_cancel.
Qed.

Lemma wait_thrd_inv s p pc s' : chan_inv s -> cprocs s !! p = Some pc -> pc <> RSleep ->
  _channel_wait_thrd sentinel pc p s = Some s' -> chan_inv s'.
Proof.
  intros HI Hp Hns. pose proof (ci_pcs _ HI p pc Hp) as Hok. pose proof (slot_of_receiver s p pc HI Hp) as Hsl.
  pose proof (ci_waiting _ HI) as Hwt. destruct pc; try done; simpl in *; specialize (Hsl eq_refl).
  - (* TSlot *) intros [= <-]. case_bool_decide as Ew; [|apply (chan_quiet s p TSlot); chan_auto].
    apply (chan_goes s p TSlot TClosed (WaiterOf p) (cwaking s)); chan_auto; rewrite Ew in *; chan_auto.
    apply (waiting_publish chan_mode chan_targets _ [] _ p TSlot TClosed); [done|done|by right|done|done].
  - (* TClosed *) intros [= <-]. destruct (_channel_is_closed s); apply (chan_quiet s p TClosed); chan_auto.
  - (* TCan *) destruct (can_pop_live s p TCan HI Hp) as (b & Hb & Hl); [done..|]. rewrite Hb. intros [= <-].
    destruct b; apply (chan_quiet s p TCan); chan_auto. right; right. split_and!; [by left|done|]. intros _. right. by apply Hl.
  - (* TCancel *) intros [= <-]. case_bool_decide as Ew.
    + apply (chan_goes s p TCancel (RPop false) CHANNEL_WAITER_NONE (cwaking s)); chan_auto; rewrite Ew in *; chan_auto.
      by eapply waiting_cancel.
    + apply (chan_quiet s p TCancel); chan_auto. destruct (waiter s) as [| | |q] eqn:Ew'; chan_auto. { by right; left. } by destruct Hsl as [-> _].
Qed.

(** ** Steps on the queue *)

(** The slot and the blocking layer stay as they are. *)
Lemma chan_works s p pc pc' q rc cnt gt :
  chan_inv s -> cprocs s !! p = Some pc -> chan_mode pc' = chan_mode pc -> chan_targets pc' = chan_targets pc ->
  chan_pc_ok (cwaking s) p pc' /\ closer pc' = closer pc /\ pc' <> RPending /\ looked pc' = false /\ reserved pc = false
    /\ (sending pc' = true -> sending pc = true) /\ (in_recv pc' = true -> in_recv pc = true) ->
  mpsc_inv sentinel q -> prod_matches q p pc' -> (forall r, r <> p -> producers q !! r = producers (cq s) !! r) ->
  (bit (busy (mcons q)) + bit (popping_pc pc) = bit (busy (mcons (cq s))) + bit (popping_pc pc'))%nat ->
  (bit rc + bit (inside pc) = bit (receiving s) + bit (inside pc'))%nat ->
  in_recv pc = true \/ notifying pc' = true \/ notifying pc = false /\ popped q = popped (cq s) /\ pushed q = pushed (cq s) ->
  cnt = ccount s + unpopped q - unpopped (cq s) + Z.of_nat (bit (counted pc')) - Z.of_nat (bit (counted pc)) ->
  ubound 64 cnt -> popped q = gt ++ (<[p := pc']> (cprocs s) ≫= inflight) ->
  chan_inv (ChanSys q (waiter s) rc cnt (cwaking s) (<[p := pc']> (cprocs s)) (closing s) gt (cearly s) (caborted s)).
Proof.
  intros HI Hp Hm Ht (Hok & Hc & Hnp & Hnl & Hnr & Hs & Hrv) Hq Hpm Hpo Hpop Hin Hl Hcnt Hb Hg.
  apply (chan_moved s _ p pc pc'); simpl; try done; try (by destruct HI).
  - eapply waiting_keep; [apply HI|done..|by rewrite Ht].
  - left. destruct (in_recv pc'); [by rewrite Hrv|simpl; lia].
  - intros E. by right.
  - intros r pr Hr Hlr Haw Hne. destruct Hr as [[-> ->]|[Hrp Hr]]; [congruence|].
    destruct Hl as [Hrec|[Hn|(Hn & Epp & Eps)]].
    + destruct Hrp. symmetry. eapply (one_receiver s p r); eauto using looked_recv.
    + exists p, pc'. rewrite list_lookup_insert_eq by (by eapply lookup_lt_Some). done.
    + apply (notifier_moved s p pc pc' Hp); [congruence|]. apply (ci_live _ HI r pr); congruence.
  - rewrite Hc. lia.
  - intros Hcl. split; [|by left]. apply not_true_is_false. intros E%Hs. pose proof (ci_closing _ HI p pc Hcl Hp). congruence.
  - intros [|]; congruence.
Qed.

Lemma unpopped_nonneg s : chan_inv s -> 0 <= unpopped (cq s).
Proof. intros HI. unfold unpopped. rewrite (m_hist _ _ (ci_queue _ HI)), length_app. lia. Qed.

Lemma send_inv s p pc node s' : chan_inv s -> cprocs s !! p = Some pc ->
  xylem_channel_send sentinel node pc p s = Some s' -> chan_inv s'.
Proof.
  intros HI Hp. pose proof (ci_prod _ HI p pc Hp) as Hm. pose proof (ci_waiting _ HI) as Hwt. pose proof (ci_bound _ HI) as Hb0.
  pose proof (ci_queue _ HI) as Hq0. pose proof (ci_got _ HI) as Hg.
  assert (sending pc = true -> closing s = false) as Hns
    by (intros Hs; destruct (closing s) eqn:E; [by rewrite (ci_closing _ HI p pc E Hp) in Hs|done]).
  destruct pc; try done; cbn -[mpsc_step unpopped] in *; specialize (Hns eq_refl).
  - (* HCheck *) pose proof (ci_closers _ HI) as Hc. rewrite Hns in Hc. unfold is_closed in Hc. unfold _channel_is_closed.
    case_bool_decide; simpl in Hc; [lia|]. intros [= <-]. apply (chan_quiet s p HCheck); chan_auto.
  - (* HCount *) destruct (Z.ltb_spec (ccount s + 1) (2 ^ 64)) as [Hb|]; [|done]. intros [= <-].
    assert (u64 (ccount s + 1) = ccount s + 1) as Eu by (apply uwrap_small; unfold ubound in *; lia).
    apply (chan_works s p HCount HPush); simpl; rewrite ?Eu; try done; [auto|lia|unfold ubound in *; lia|].
    by rewrite (bind_insert inflight _ p HCount HPush).
  - (* HPush *) destruct (mpsc_step sentinel (MPush p node) (cq s)) as [q|] eqn:Eq; [|done]. intros [= <-].
    pose proof (mpsc_step_inv _ _ _ _ Hq0 Eq) as Hq. simpl in Eq. rewrite Hm in Eq. destruct (pushable _ _ _); [|done]. injection Eq as <-.
    apply (chan_works s p HPush HExchange); simpl; try done; [eexists; apply lookup_insert_eq| |auto|unfold unpopped; simpl; lia|].
    + intros r Hr. by rewrite lookup_insert_ne.
    + by rewrite (bind_insert inflight _ p HPush HExchange).
  - (* HExchange *) destruct (mpsc_step sentinel (Producer p) (cq s)) as [q|] eqn:Eq; [|done]. intros [= <-].
    pose proof (mpsc_step_inv _ _ _ _ Hq0 Eq) as Hq. destruct Hm as [n Hm]. simpl in Eq. rewrite Hm in Eq. injection Eq as <-.
    apply (chan_works s p HExchange HLink); simpl; try done; [eexists _, _; apply lookup_insert_eq| |auto|unfold unpopped; simpl; rewrite length_app; simpl; lia|].
    + intros r Hr. by rewrite lookup_insert_ne.
    + by rewrite (bind_insert inflight _ p HExchange HLink).
  - (* HLink *) destruct (mpsc_step sentinel (Producer p) (cq s)) as [q|] eqn:Eq; [|done]. intros [= <-].
    pose proof (mpsc_step_inv _ _ _ _ Hq0 Eq) as Hq. destruct Hm as (a & b & Hm). simpl in Eq. rewrite Hm in Eq. injection Eq as <-.
    apply (chan_works s p HLink (HLoad CHANNEL_WAITER_NONE)); simpl; try done; [split_and!; auto|apply lookup_delete_eq| |auto|unfold unpopped; simpl; lia|].
    + intros r Hr. by rewrite lookup_delete_ne.
    + by rewrite (bind_insert inflight _ p HLink (HLoad CHANNEL_WAITER_NONE)).
Qed.

Lemma popping_inv s p try q : chan_inv s -> cprocs s !! p = Some (RPopping try) -> mpsc_step sentinel Consumer (cq s) = Some q ->
  chan_inv (match mcons q with
            | CIdle =>
                match drop (length (popped (cq s))) (popped q) with
                | n :: _ => at_cpc p (RSub n) (with_queue q s)
                | [] => at_cpc p (if try then RLeave None else RClosed) (with_queue q s)
                end
            | _ => at_cpc p (RPopping try) (with_queue q s)
            end).
Proof.
  intros HI Hp Eq. pose proof (mpsc_step_inv _ _ _ _ (ci_queue _ HI) Eq) as Hq.
  pose proof (sum_lookup (bit ∘ popping_pc) _ _ _ Hp) as Hb. rewrite (ci_popping _ HI) in Hb. simpl in Hb.
  assert (mcons (cq s) <> CIdle) as Hbusy by (intros E; rewrite E in Hb; simpl in Hb; lia).
  assert (bit (busy (mcons (cq s))) = 1%nat) as Hb1 by (by destruct (mcons (cq s))).
  pose proof (ci_prod _ HI p _ Hp) as Hm. simpl in Hm. pose proof (inflight_at s p _ (RPopping try) HI Hp eq_refl) as Hfl.
  pose proof (bind_insert inflight _ p _ (RPopping try) Hp eq_refl) as Efl. rewrite Hfl in Efl. simpl in Efl.
  pose proof (ci_got _ HI) as Hg. rewrite <-Efl, app_nil_r in Hg.
  destruct (pop_continues _ _ _ Eq) as (Epr & Epu & Ecn). assert (mcons q = CIdle \/ mcons q <> CIdle) as [Ec|Ec] by (destruct (mcons q); [by left|by right..]).
  - destruct (pop_returns _ _ _ (ci_queue _ HI) Hbusy Eq Ec) as (_ & _ & Hor). rewrite Ec.
    destruct Hor as [[Epp _]|[n Epp]]; rewrite Epp.
    + rewrite drop_ge by done. apply (chan_works s p (RPopping try)); simpl; rewrite ?Ec, ?Epr, ?Epp, ?Hb1; try done; try apply HI;
        try (destruct try; simpl; rewrite ?Epr; done).
      * by left.
      * unfold unpopped. rewrite Epp, Epu. destruct try; simpl; lia.
      * rewrite (inflight_at s p (RPopping try)) by done. rewrite Hg. by destruct try; simpl; rewrite app_nil_r.
    + rewrite drop_app_length. apply (chan_works s p (RPopping try) (RSub n)); simpl; rewrite ?Ec, ?Epr, ?Hb1; try done; try apply HI.
      * by left.
      * unfold unpopped. rewrite Epp, Epu, length_app. simpl. lia.
      * rewrite (inflight_at s p (RPopping try)) by done. by rewrite Epp, Hg.
  - assert (chan_inv (at_cpc p (RPopping try) (with_queue q s))) as H1.
    { apply (chan_works s p (RPopping try) (RPopping try)); simpl; rewrite ?Epr, ?Hb1; try done; try apply HI.
      - by destruct (mcons q).
      - by left.
      - unfold unpopped. rewrite Ecn, Epu by done. lia.
      - rewrite Hfl, Ecn by done. simpl. by rewrite app_nil_r. }
    by destruct (mcons q).
Qed.

Lemma try_take_inv s p pc s' : chan_inv s -> cprocs s !! p = Some pc ->
  _channel_try_take sentinel pc p s = Some s' -> chan_inv s'.
Proof.
  intros HI Hp. pose proof (ci_prod _ HI p pc Hp) as Hm. pose proof (ci_bound _ HI) as Hb0.
  pose proof (ci_queue _ HI) as Hq0. pose proof (ci_got _ HI) as Hg.
  destruct pc; try done; cbn -[mpsc_step unpopped] in *.
  - (* RPop *) destruct (mpsc_step sentinel MPop (cq s)) as [q|] eqn:Eq; [|done]. intros [= <-].
    pose proof (mpsc_step_inv _ _ _ _ Hq0 Eq) as Hq. simpl in Eq. destruct (mcons (cq s)) eqn:Ec; try done. injection Eq as <-.
    apply (chan_works s p (RPop try) (RPopping try)); simpl; try done; [by rewrite Ec|auto|unfold unpopped; simpl; lia|].
    by rewrite (bind_insert inflight _ p (RPop try) (RPopping try)).
  - (* RPopping *) destruct (mpsc_step sentinel Consumer (cq s)) as [q|] eqn:Eq; [|done]. intros [= <-]. by apply popping_inv.
  - (* RSub *) intros [= <-]. pose proof (sum_lookup (bit ∘ counted) _ _ _ Hp) as Hc. pose proof (ci_count _ HI) as Hcnt. simpl in *.
    pose proof (unpopped_nonneg s HI).
    assert (u64 (ccount s - 1) = ccount s - 1) as Eu by (apply uwrap_small; unfold ubound in *; lia).
    apply (chan_works s p (RSub n) (RLeave (Some n))); simpl; rewrite ?Eu; try done; [auto|lia|unfold ubound in *; lia|].
    by rewrite (bind_insert inflight _ p (RSub n) (RLeave (Some n))).
Qed.

Lemma recv_bounds_inv s p pc s' : chan_inv s -> cprocs s !! p = Some pc -> recv_bounds pc p s = Some s' -> chan_inv s'.
Proof.
  intros HI Hp. pose proof (ci_prod _ HI p pc Hp) as Hm. pose proof (ci_receiving _ HI) as Hrc.
  pose proof (ci_got _ HI) as Hg. destruct pc; try done; simpl in *; intros [= <-].
  - (* REnter *) destruct (receiving s) eqn:Er.
    + destruct (sum_pos inside (cprocs s)) as (q & pq & Hq & Hi); [by rewrite Hrc|].
      pose proof (one_receiver s p q _ _ HI Hp Hq eq_refl (inside_recv _ Hi)) as <-. rewrite Hp in Hq. by injection Hq as <-.
    + apply (chan_works s p (REnter try) (RPop try)); simpl; try done; try apply HI; [by rewrite Er|auto|lia|].
      by rewrite (bind_insert inflight _ p (REnter try) (RPop try)).
  - (* RLeave *) assert (receiving s = true) as Er.
    { pose proof (sum_lookup (bit ∘ inside) _ _ _ Hp) as Hle. simpl in Hle. destruct (receiving s); [done|]. simpl in *. lia. }
    pose proof (inflight_at s p _ (RLeave payload) HI Hp eq_refl) as Hfl. rewrite list_insert_id in Hfl by done.
    apply (chan_works s p (RLeave payload) HIdle); simpl; try done; try apply HI; [by rewrite Er|auto|lia|].
    rewrite (inflight_at s p (RLeave payload)) by done. rewrite Hg, Hfl. by destruct payload; simpl; rewrite ?app_nil_r.
Qed.

Lemma chan_go_inv s p pc b s' : chan_inv s -> cprocs s !! p = Some pc -> chan_go sentinel b pc p s = Some s' -> chan_inv s'.
Proof.
  intros HI Hp. destruct pc; cbn [chan_go]; try done;
    try (by eapply send_inv); try (by eapply recv_bounds_inv); try (by eapply try_take_inv); try (by eapply wait_coro_inv);
    try (by eapply wait_thrd_inv).
  - intros [= <-]. eapply transition_inv; [done|done|by left].
  - simpl. intros E. destruct (negb b && bool_decide (waiter s = raw)) eqn:Eb; injection E as <-.
    + apply andb_true_iff in Eb as [_ Ew%bool_decide_eq_true]. by apply cas_inv.
    + eapply transition_inv; [done|done|right; by eexists].
  - intros [= <-]. by apply chan_wake_inv.
  - destruct (recv_closed _ _ _) as [s1|] eqn:E; [|done]. intros [= <-]. exact (recv_closed_inv s p RClosed s1 HI Hp E).
  - destruct (recv_closed _ _ _) as [s1|] eqn:E; [|done]. intros [= <-]. exact (recv_closed_inv s p RPending s1 HI Hp E).
Qed.

(** The calls begin. *)
Lemma call_inv s p pc' cl : chan_inv s -> cprocs s !! p = Some HIdle ->
  pc' = HCheck /\ closing s = false /\ cl = false
  \/ pc' = HLoad CHANNEL_WAITER_CLOSED /\ closing s = false /\ existsb sending (cprocs s) = false /\ cl = true
  \/ (exists try, pc' = REnter try) /\ existsb in_recv (cprocs s) = false /\ cl = closing s ->
  chan_inv (ChanSys (cq s) (waiter s) (receiving s) (ccount s) (cwaking s) (<[p := pc']> (cprocs s)) cl (got s) (cearly s) (caborted s)).
Proof.
  intros HI Hp Hcase.
  assert (pc' = HCheck \/ pc' = HLoad CHANNEL_WAITER_CLOSED \/ exists try, pc' = REnter try) as Hpc by naive_solver.
  apply (chan_moved s _ p HIdle pc'); simpl; try done; try (by destruct HI).
  - pose proof (ci_prod _ HI p HIdle Hp). by destruct Hpc as [->|[->|[try ->]]].
  - by destruct Hpc as [->|[->|[try ->]]].
  - eapply waiting_keep; [apply HI|done|by destruct Hpc as [->|[->|[try ->]]]..].
  - destruct Hpc as [->|[->|[try ->]]]; simpl; auto.
  - destruct Hcase as [(-> & _)|[(-> & _)|(_ & Hex & _)]]; [left; simpl; lia..|right].
    apply sum_zero. intros i x Hi. simpl. destruct (in_recv x) eqn:E; [|done].
    rewrite <-not_true_iff_false, existsb_exists in Hex. destruct Hex. exists x. split; [|done].
    apply list_elem_of_In. by eapply list_elem_of_lookup_2.
  - destruct Hpc as [->|[->|[try ->]]]; simpl; lia.
  - intros E. by right.
  - intros r pr [[_ ->]|[_ Hr]] Hl; [by destruct Hpc as [->|[->|[try ->]]]|].
    intros Haw Hne. apply (notifier_moved s p HIdle); [done|done|]. by eapply ci_live.
  - destruct Hcase as [(-> & -> & ->)|[(-> & -> & _ & ->)|([try ->] & _ & ->)]]; simpl; lia.
  - destruct Hcase as [(-> & E & ->)|[(-> & E & Hex & ->)|([try ->] & _ & ->)]]; [done|..]; simpl; auto.
  - intros [| ->]; [done|]. by destruct Hpc as [?|[?|[try ?]]].
  - destruct Hpc as [->|[->|[try ->]]]; simpl; lia.
  - rewrite (bind_insert inflight _ p HIdle); [apply HI|done|by destruct Hpc as [->|[->|[try ->]]]].
Qed.

Lemma chan_step_inv l s s' : chan_inv s -> chan_step sentinel l s = Some s' -> chan_inv s'.
Proof.
  intros HI. destruct l as [p|p|try p|node p|b p]; cbn [chan_step].
  - destruct (cprocs s !! p) as [[]|] eqn:Hp; try done. destruct (closing s) eqn:Hc; [done|]. intros [= <-].
    unfold at_cpc. rewrite Hc. apply call_inv; auto.
  - destruct (cprocs s !! p) as [[]|] eqn:Hp; try done. destruct (closing s) eqn:Hc; [done|]. simpl.
    destruct (existsb _ _) eqn:Hex; [done|]. intros [= <-]. apply call_inv; auto 10.
  - destruct (cprocs s !! p) as [[]|] eqn:Hp; try done. destruct (existsb _ _) eqn:Hex; [done|]. intros [= <-].
    apply call_inv; [done..|]. right; right. split; [by eexists|done].
  - destruct (cprocs s !! p) as [[]|] eqn:Hp; try done. exact (send_inv s p HPush node s' HI Hp).
  - destruct (cprocs s !! p) as [pc|] eqn:Hp; [|done]. simpl. by apply chan_go_inv.
Qed.

Lemma chan_start_inv next0 w n : (forall p, (p < n)%nat -> in_phase w p Run) -> chan_inv (xylem_channel_create sentinel next0 w n).
Proof.
  intros Hw. assert (forall p pc, replicate n HIdle !! p = Some pc -> pc = HIdle) as Hidle by (intros p pc [-> _]%lookup_replicate; done).
  assert (forall f : chan_pc -> nat, f HIdle = 0%nat -> sum_list_with f (replicate n HIdle) = 0%nat) as Hsum
    by (intros f Hf; apply sum_zero; by intros i x ->%Hidle).
  split; simpl; try done; try (by rewrite Hsum); try (by intros p pc ->%Hidle); try by intros p ->%Hidle.
  - apply mpsc_start_inv.
  - by apply waiting_start.
  - rewrite Hsum by done. lia.
  - by intros p ?%Hidle.
  - symmetry. apply list_bind_nil. by intros i x ->%Hidle.
Qed.

(** ** Progress *)

Lemma pushable_node (q : mpsc_sys) : exists node, pushable sentinel node q = true.
Proof.
  set (node_of := fun c => match c with PInit n | PLink _ n => n end).
  set (used := sentinel :: chain q ++ (node_of <$> (map_to_list (producers q)).*2)).
  exists (fresh used). pose proof (infinite_is_fresh used) as Hf. unfold pushable.
  rewrite !andb_true_iff, !bool_decide_eq_true. split_and!; [set_solver..|].
  intros p c Hp ->. apply Hf. unfold used. right. apply elem_of_app. right. apply list_elem_of_fmap. exists (PInit (fresh used)).
  split; [done|]. apply list_elem_of_fmap. exists (p, PInit (fresh used)). split; [done|]. by apply elem_of_map_to_list.
Qed.

(** Who cannot go on: an idle process, a sender that waits for memory or for room in
    the counter, and a receiver that was not woken. *)
Lemma chan_blocked s p pc b : chan_inv s -> cprocs s !! p = Some pc -> chan_go sentinel b pc p s = None ->
  pc = HIdle \/ pc = HPush \/ pc = HCount /\ ccount s = 2 ^ 64 - 1
  \/ pc = RSleep /\ p ∈ due chan_targets (slot_queue (waiter s)) (cprocs s).
Proof.
  intros HI Hp. pose proof (ci_prod _ HI p pc Hp) as Hm. pose proof (ci_bound _ HI) as Hb.
  destruct pc; cbn -[mpsc_step] in *; try (auto; done).
  - destruct (Z.ltb_spec (ccount s + 1) (2 ^ 64)); [done|]. intros _. right; right; left. unfold ubound in *. split; [done|lia].
  - destruct Hm as [n Hm]. simpl. by rewrite Hm.
  - destruct Hm as (x & y & Hm). simpl. by rewrite Hm.
  - by destruct (_ && _).
  - simpl. by rewrite (receiver_idle s p _ HI Hp).
  - pose proof (sum_lookup (bit ∘ popping_pc) _ _ _ Hp) as Hbusy. rewrite (ci_popping _ HI) in Hbusy.
    destruct (consumer_enabled sentinel (cq s) (ci_queue _ HI)) as [q ->]; [intros E; rewrite E in Hbusy; simpl in Hbusy; lia|done].
  - by destruct (can_pop_live s p _ HI Hp) as (x & -> & _).
  - by destruct (can_pop_live s p _ HI Hp) as (x & -> & _).
  - intros Hn. right; right; right. split; [done|].
    apply (waiting_blocks chan_mode chan_targets _ _ _ p RSleep (ci_waiting _ HI)); [done..|]. by destruct (resume p (cwaking s)).
Qed.

(** A receiver asleep when nothing can go on has received all there is, from a channel
    nobody has begun to close. *)
Lemma asleep_empty s p : chan_inv s -> (forall b q, chan_step sentinel (CStep b q) s = None) -> cprocs s !! p = Some RSleep ->
  p ∈ due chan_targets (slot_queue (waiter s)) (cprocs s) -> closing s = false /\ got s = pushed (cq s).
Proof.
  intros HI Hst Hp Hd.
  assert (forall q pq, cprocs s !! q = Some pq -> notifying pq = false /\ closer pq = false /\ chan_targets pq = []) as Hq.
  { intros q pq Hq. pose proof (Hst false q) as Hn. cbn [chan_step] in Hn. rewrite Hq in Hn. simpl in Hn.
    by destruct (chan_blocked s q pq false HI Hq Hn) as [->|[->|[[-> _]|[-> _]]]]. }
  assert (waiter s = WaiterOf p) as Hw.
  { unfold due in Hd. rewrite (list_bind_nil chan_targets), app_nil_r in Hd by (intros q pq ?%Hq; tauto).
    destruct (waiter s); simpl in Hd; try set_solver. }
  split.
  - destruct (closing s) eqn:Hc; [|done]. pose proof (ci_closers _ HI) as Hs. rewrite Hw, Hc in Hs. simpl in Hs.
    rewrite sum_zero in Hs; [done|]. intros q pq [_ [E _]]%Hq. simpl. by rewrite E.
  - pose proof (inflight_at s p _ RSleep HI Hp eq_refl) as Hf. rewrite list_insert_id in Hf by done.
    pose proof (ci_got _ HI) as Hg. rewrite Hf, app_nil_r in Hg. rewrite <-Hg.
    destruct (decide (popped (cq s) = pushed (cq s))) as [|Hne]; [done|].
    destruct (ci_live _ HI p RSleep Hp eq_refl (or_intror Hw) Hne) as (q & pq & [Hn _]%Hq & Hnq). congruence.
Qed.

(** C8 In every interleaving of senders, one closing call and one receive at a time by
    coroutines and threads: nothing aborts; messages are received in the order in which
    the senders exchanged the tail, each once; a blocking receive gives up only when the
    channel is closed and every message was received; the count of a channel at rest is
    the number of messages left; and no wake-up is lost: when no call can go on, the
    only calls left are a send that found the counter at its limit and a receive
    asleep, and then all sent messages were received and no close has begun. *)
Theorem channel_correct next0 w n s : (forall p, (p < n)%nat -> in_phase w p Run) ->
  reachable (chan_step sentinel) (xylem_channel_create sentinel next0 w n) s ->
  caborted s = false /\ cearly s = false /\ (exists rest, pushed (cq s) = got s ++ rest)
  /\ ((forall p pc, cprocs s !! p = Some pc -> pc = HIdle) ->
        ccount s = Z.of_nat (length (pushed (cq s))) - Z.of_nat (length (got s)))
  /\ ((forall b q, chan_step sentinel (CStep b q) s = None) -> (forall node q, chan_step sentinel (SendNode node q) s = None) ->
        forall p pc, cprocs s !! p = Some pc ->
          pc = HIdle \/ pc = HCount /\ ccount s = 2 ^ 64 - 1 \/ pc = RSleep /\ closing s = false /\ got s = pushed (cq s)).
Proof.
  intros Hw Hr. assert (chan_inv s) as HI.
  { eapply reachable_invariant; [by apply chan_start_inv|intros l s1 s2; apply chan_step_inv|exact Hr]. }
  pose proof (m_hist _ _ (ci_queue _ HI)) as Hh. pose proof (ci_got _ HI) as Hg. split_and!; [apply HI..| | |].
  - rewrite Hh, Hg, <-app_assoc. by eexists.
  - intros Hidle. pose proof (ci_count _ HI) as Hc. rewrite sum_zero in Hc by (by intros q pq ->%Hidle).
    rewrite list_bind_nil, app_nil_r in Hg by (by intros q pq ->%Hidle). rewrite <-Hg. unfold unpopped in Hc. lia.
  - intros Hst Hsn p pc Hp. pose proof (Hst false p) as Hn. cbn [chan_step] in Hn. rewrite Hp in Hn. simpl in Hn.
    destruct (chan_blocked s p pc false HI Hp Hn) as [->|[->|[[-> Hc]|[-> Hd]]]]; [by left| |by right; left|].
    + destruct (pushable_node (cq s)) as [node Hnode]. pose proof (Hsn node p) as Hx. cbn [chan_step] in Hx. rewrite Hp in Hx.
      simpl in Hx. pose proof (ci_prod _ HI p _ Hp) as Hm. simpl in Hm. by rewrite Hm, Hnode in Hx.
    + right; right. split; [done|]. by apply (asleep_empty s p).
Qed.
End channel_correct.

(** A coroutine receives and goes to sleep on the empty channel; a thread sends, which
    wakes it; it receives again and sleeps. *)
Definition chan_demo : list chan_label :=
  [CallRecv false 0] ++ replicate 11 (CStep false 0) ++ [CallSend 1; CStep false 1; CStep false 1; SendNode 5%positive 1]
  ++ replicate 5 (CStep false 1) ++ replicate 14 (CStep false 0) ++ [CallRecv false 0] ++ replicate 11 (CStep false 0).
Definition chan_demo_start : chan_sys :=
  xylem_channel_create 1%positive ∅ [Coro SCHED_CORO_RUNNING; Thrd 0] 2.
Definition chan_demo_end : chan_sys := default chan_demo_start (run (chan_step 1%positive) chan_demo chan_demo_start).

Lemma channel_correct_witness :
  caborted chan_demo_end = false /\ closing chan_demo_end = false /\ got chan_demo_end = pushed (cq chan_demo_end).
Proof.
  destruct (channel_correct 1%positive ∅ [Coro SCHED_CORO_RUNNING; Thrd 0] 2 chan_demo_end) as (Ha & _ & _ & _ & Hst).
  - intros [|[|p]] Hp; [exact I..|lia].
  - exists chan_demo. vm_compute. reflexivity.
  - split; [exact Ha|]. destruct (Hst ltac:(intros b [|[|q]]; destruct b; vm_compute; reflexivity)
      ltac:(intros node [|[|q]]; vm_compute; reflexivity) 0%nat RSleep) as [E|[[E _]|[_ E]]].
    + vm_compute. reflexivity.
    + discriminate E.
    + discriminate E.
    + exact E.
Defined.
