(* ===== verification/GaloisField.v ===== *)
(** * Arithmetic in GF(2^8) (src/encoding/fec/reedsolomon-c/rs.c)

    The tables [generate_gf] and [init_mul_table] build, and the theorem that the
    multiplication read from them makes bytes with exclusive or a field.  A [gf] is a
    byte of the C code, an element of the inductive type with 256 values, so that the
    field laws are equations without side conditions. *)

From S2P Require Import Prelude.
From Stdlib Require Strings.Byte.
From Stdlib Require Import setoid_ring.Field_theory.

Notation gf := Byte.byte.
#[export] Instance gf_eq_dec : EqDecision gf := Byte.byte_eq_dec.
#[export] Instance gf_inhabited : Inhabited gf := populate Byte.x00.

(** Promotion to [int], and the truncation of an assignment to [gf]. *)
Definition gf_z (b : gf) : Z := Z.of_N (Byte.to_N b).
Definition gf_of (z : Z) : gf := default Byte.x00 (Byte.of_N (Z.to_N (z mod 256))).
Definition gf_nat (b : gf) : nat := Z.to_nat (gf_z b).
Definition gf_xor (a b : gf) : gf := gf_of (Z.lxor (gf_z a) (gf_z b)).

Definition GF_BITS : nat := 8.
Definition GF_PP : list bool := [true; false; true; true; true; false; false; false; true].
Definition GF_SIZE : nat := 255.

(** ** Tables *)

Record tables := Tables { gf_exp : list gf; gf_log : list Z; inverse : list gf }.
Definition set_exp (i : nat) (v : gf) (t : tables) : tables := Tables (<[i := v]> (gf_exp t)) (gf_log t) (inverse t).
Definition set_log (b : gf) (v : Z) (t : tables) : tables := Tables (gf_exp t) (<[gf_nat b := v]> (gf_log t)) (inverse t).
Definition set_inverse (i : nat) (v : gf) (t : tables) : tables := Tables (gf_exp t) (gf_log t) (<[i := v]> (inverse t)).
Definition exp_at (t : tables) (i : nat) : gf := gf_exp t !!! i.
Definition log_at (t : tables) (b : gf) : Z := gf_log t !!! gf_nat b.

(** The first loop of [generate_gf]: the powers below [GF_BITS] are single bits. *)
Definition first_powers (t : tables) : tables :=
  fold_left (fun t i =>
    let mask := gf_of (Z.shiftl 1 (Z.of_nat i)) in
    let t := set_log mask (Z.of_nat i) (set_exp i mask t) in
    if (GF_PP !!! i : bool) then set_exp GF_BITS (gf_xor (exp_at t GF_BITS) mask) t else t) (seq 0 GF_BITS) t.
(** The second: shift left, reducing by the polynomial when the top bit falls out. *)
Definition next_power (t : tables) (i : nat) : tables :=
  let mask := Z.shiftl 1 (Z.of_nat (GF_BITS - 1)) in
  let prev := gf_z (exp_at t (i - 1)) in
  let v := if mask <=? prev then gf_of (Z.lxor (gf_z (exp_at t GF_BITS)) (Z.shiftl (Z.lxor prev mask) 1))
           else gf_of (Z.shiftl prev 1) in
  set_log v (Z.of_nat i) (set_exp i v t).
Definition generate_gf : tables :=
  let t := Tables (replicate (2 * GF_SIZE) Byte.x00) (replicate (GF_SIZE + 1) 0) (replicate (GF_SIZE + 1) Byte.x00) in
  let t := first_powers (set_exp GF_BITS Byte.x00 t) in
  let t := set_log (exp_at t GF_BITS) (Z.of_nat GF_BITS) t in
  let t := fold_left next_power (seq (GF_BITS + 1) (GF_SIZE - GF_BITS - 1)) t in
  let t := set_log Byte.x00 (Z.of_nat GF_SIZE) t in
  let t := fold_left (fun t i => set_exp (i + GF_SIZE) (exp_at t i) t) (seq 0 GF_SIZE) t in
  let t := set_inverse 1 Byte.x01 (set_inverse 0 Byte.x00 t) in
  fold_left (fun t i => set_inverse i (exp_at t (GF_SIZE - Z.to_nat (gf_log t !!! i))) t) (seq 2 (GF_SIZE - 1)) t.

(** [x % GF_SIZE] without division; two rounds are enough for the sums it is given. *)
Fixpoint modnn_loop (fuel : nat) (x : Z) : Z :=
  match fuel with
  | O => x
  | S fuel => if Z.of_nat GF_SIZE <=? x
              then let x := x - Z.of_nat GF_SIZE in modnn_loop fuel (Z.shiftr x (Z.of_nat GF_BITS) + Z.land x (Z.of_nat GF_SIZE))
              else x
  end.
Definition modnn (x : Z) : gf := gf_of (modnn_loop 3 x).

Definition gf_indices : list nat := seq 0 (GF_SIZE + 1).
(** The cell [(i << 8) + j]; the last loop clears row and column zero. *)
Definition mul_entry (t : tables) (i j : nat) : gf :=
  if (i =? 0)%nat || (j =? 0)%nat then Byte.x00
  else exp_at t (gf_nat (modnn (gf_log t !!! i + gf_log t !!! j))).
Definition init_mul_table (t : tables) : list gf := i ← gf_indices; mul_entry t i <$> gf_indices.

(** [reed_solomon_init]: the tables all later calls read. *)
Definition the_tables : tables := Eval vm_compute in generate_gf.
Definition gf_mul_table : list gf := init_mul_table the_tables.
Definition gf_mul (x y : gf) : gf := gf_mul_table !!! (Z.to_nat (Z.shiftl (gf_z x) 8 + gf_z y)).
Definition gf_inverse (x : gf) : gf := inverse the_tables !!! gf_nat x.

Lemma the_tables_generated : the_tables = generate_gf.
Proof. vm_compute. reflexivity. Qed.

(** ** Bytes *)

Definition all_gf : list gf := (fun i => gf_of (Z.of_nat i)) <$> gf_indices.
Lemma gf_of_z b : gf_of (gf_z b) = b.
Proof. by destruct b. Qed.
Lemma gf_z_bound b : byte (gf_z b).
Proof. unfold byte, gf_z. pose proof (Byte.to_N_bounded b). lia. Qed.
Lemma gf_z_of z : gf_z (gf_of z) = z mod 256.
Proof.
  unfold gf_of, gf_z. pose proof (Z.mod_pos_bound z 256 ltac:(lia)) as Hb. destruct (Byte.of_N (Z.to_N (z mod 256))) as [b|] eqn:E.
  - apply Byte.to_of_N in E. simpl. rewrite E. lia.
  - apply Byte.of_N_None_iff in E. lia.
Qed.
Lemma gf_z_inj a b : gf_z a = gf_z b -> a = b.
Proof. intros E. by rewrite <-(gf_of_z a), <-(gf_of_z b), E. Qed.
Lemma gf_nat_lt b : (gf_nat b < 256)%nat.
Proof. pose proof (gf_z_bound b). unfold gf_nat, byte in *. lia. Qed.
Lemma gf_nat_of i : (i < 256)%nat -> gf_nat (gf_of (Z.of_nat i)) = i.
Proof. intros Hi. unfold gf_nat. rewrite gf_z_of, Z.mod_small by lia. lia. Qed.
Lemma gf_of_nat b : gf_of (Z.of_nat (gf_nat b)) = b.
Proof. pose proof (gf_z_bound b). unfold gf_nat, byte in *. rewrite Z2Nat.id by lia. apply gf_of_z. Qed.

(** Facts about all bytes by evaluation. *)
Lemma forall_gf (f : gf -> bool) : forallb f all_gf = true -> forall b, f b = true.
Proof.
  intros Hf b. rewrite forallb_forall in Hf. apply Hf, list_elem_of_In, list_elem_of_fmap.
  exists (gf_nat b). rewrite gf_of_nat. split; [done|]. apply elem_of_seq. pose proof (gf_nat_lt b). simpl. lia.
Qed.
Lemma forall_seq n (f : nat -> bool) : forallb f (seq 0 n) = true -> forall i, (i < n)%nat -> f i = true.
Proof. intros Hf i Hi. rewrite forallb_forall in Hf. apply Hf, in_seq. lia. Qed.

Lemma gf_z_xor a b : gf_z (gf_xor a b) = Z.lxor (gf_z a) (gf_z b).
Proof. unfold gf_xor. rewrite gf_z_of. apply Z.mod_small. apply (lxor_byte (gf_z b) (gf_z a)); apply gf_z_bound. Qed.
Lemma gf_xor_comm a b : gf_xor a b = gf_xor b a.
Proof. unfold gf_xor. by rewrite Z.lxor_comm. Qed.
Lemma gf_xor_assoc a b c : gf_xor a (gf_xor b c) = gf_xor (gf_xor a b) c.
Proof. apply gf_z_inj. by rewrite !gf_z_xor, Z.lxor_assoc. Qed.
Lemma gf_xor_0_l a : gf_xor Byte.x00 a = a.
Proof. apply gf_z_inj. by rewrite gf_z_xor. Qed.
Lemma gf_xor_nilpotent a : gf_xor a a = Byte.x00.
Proof. apply gf_z_inj. by rewrite gf_z_xor, Z.lxor_nilpotent. Qed.

(** ** Powers of the generator *)

Definition pow_gf (a : Z) : gf := exp_at the_tables (Z.to_nat (a mod 255)).
Definition log_gf (x : gf) : Z := log_at the_tables x.
(** Multiplication by the generator. *)
Definition xtime (b : gf) : gf :=
  if 128 <=? gf_z b then gf_of (Z.lxor 0x1d (Z.shiftl (Z.lxor (gf_z b) 128) 1)) else gf_of (Z.shiftl (gf_z b) 1).

Lemma pow_log x : x <> Byte.x00 -> 0 <= log_gf x < 255 /\ pow_gf (log_gf x) = x.
Proof.
  intros Hx. pose (f x := Byte.eqb x Byte.x00 || ((0 <=? log_gf x) && (log_gf x <? 255) && Byte.eqb (pow_gf (log_gf x)) x)).
  assert (f x = true) as Hf by (apply forall_gf; vm_compute; reflexivity). unfold f in Hf.
  apply orb_true_iff in Hf as [E|E]; [by apply Byte.byte_dec_bl in E|].
  apply andb_true_iff in E as [[E1 E2]%andb_true_iff E3%Byte.byte_dec_bl]. split; [lia|done].
Qed.
Lemma log_pow a : pow_gf a <> Byte.x00 /\ log_gf (pow_gf a) = a mod 255.
Proof.
  pose (f i := let b := exp_at the_tables i in negb (Byte.eqb b Byte.x00) && (log_gf b =? Z.of_nat i)).
  pose proof (Z.mod_pos_bound a 255 ltac:(lia)) as Hb.
  assert (f (Z.to_nat (a mod 255)) = true) as Hf by (apply (forall_seq 255); [vm_compute; reflexivity|lia]).
  unfold f in Hf. apply andb_true_iff in Hf as [H1 H2]. split.
  - intros E. unfold pow_gf in E. rewrite E in H1. done.
  - unfold pow_gf. apply Z.eqb_eq in H2. rewrite H2. lia.
Qed.
Lemma pow_ext a b : a mod 255 = b mod 255 -> pow_gf a = pow_gf b.
Proof. unfold pow_gf. by intros ->. Qed.
Lemma xtime_pow a : xtime (pow_gf a) = pow_gf (a + 1).
Proof.
  pose (f i := Byte.eqb (xtime (pow_gf (Z.of_nat i))) (pow_gf (Z.of_nat i + 1))).
  pose proof (Z.mod_pos_bound a 255 ltac:(lia)) as Hb.
  assert (f (Z.to_nat (a mod 255)) = true) as Hf by (apply (forall_seq 255); [vm_compute; reflexivity|lia]).
  apply Byte.byte_dec_bl in Hf. rewrite Z2Nat.id in Hf by lia.
  rewrite (pow_ext a (a mod 255)), Hf by (by rewrite Z.mod_mod). apply pow_ext. by rewrite Z.add_mod_idemp_l.
Qed.
Lemma gf_xtime_xor a b : xtime (gf_xor a b) = gf_xor (xtime a) (xtime b).
Proof.
  pose (f a := forallb (fun b => Byte.eqb (xtime (gf_xor a b)) (gf_xor (xtime a) (xtime b))) all_gf).
  assert (f a = true) as Hf by (apply forall_gf; vm_compute; reflexivity).
  apply Byte.byte_dec_bl, (forall_gf _ Hf b).
Qed.

(** ** The multiplication table *)

Lemma bind_blocks {A B} (g : A -> list B) m l i j x : (forall y, length (g y) = m) -> l !! i = Some x -> (j < m)%nat ->
  (l ≫= g) !! (i * m + j)%nat = g x !! j.
Proof.
  intros Hg. revert i. induction l as [|y l IH]; intros [|i] Hi Hj; [done..| |]; simpl in *.
  - simplify_eq. rewrite lookup_app_l; [done|]. by rewrite Hg.
  - rewrite lookup_app_r by (rewrite Hg; lia). rewrite Hg. rewrite <-(IH i Hi Hj). f_equal. lia.
Qed.
Lemma modnn_spec x : 0 <= x <= 508 -> gf_z (modnn x) = x mod 255.
Proof.
  intros Hx. pose (f i := gf_z (modnn (Z.of_nat i)) =? Z.of_nat i mod 255).
  assert (f (Z.to_nat x) = true) as Hf by (apply (forall_seq 509); [vm_compute; reflexivity|lia]).
  unfold f in Hf. rewrite Z2Nat.id in Hf by lia. lia.
Qed.
Lemma gf_nat_0 x : gf_nat x = 0%nat <-> x = Byte.x00.
Proof.
  split; [|by intros ->]. intros E. apply gf_z_inj. pose proof (gf_z_bound x). unfold gf_nat, byte in *.
  change (gf_z Byte.x00) with 0. lia.
Qed.

Lemma gf_mul_entry x y : gf_mul x y = mul_entry the_tables (gf_nat x) (gf_nat y).
Proof.
  unfold gf_mul, gf_mul_table, init_mul_table. pose proof (gf_nat_lt x) as Hx. pose proof (gf_nat_lt y) as Hy.
  apply list_lookup_total_correct. pose proof (gf_z_bound x). pose proof (gf_z_bound y). unfold byte in *.
  replace (Z.to_nat (Z.shiftl (gf_z x) 8 + gf_z y)) with (gf_nat x * 256 + gf_nat y)%nat
    by (rewrite Z.shiftl_mul_pow2 by lia; unfold gf_nat; lia).
  rewrite (bind_blocks _ 256 _ (gf_nat x) (gf_nat y) (gf_nat x)); [|by intros; rewrite length_fmap|by apply lookup_seq_lt|done].
  rewrite list_lookup_fmap. unfold gf_indices. rewrite lookup_seq_lt by done. done.
Qed.
Lemma gf_mul_0_l y : gf_mul Byte.x00 y = Byte.x00.
Proof. rewrite gf_mul_entry. unfold mul_entry. done. Qed.
Lemma gf_mul_0_r x : gf_mul x Byte.x00 = Byte.x00.
Proof. rewrite gf_mul_entry. unfold mul_entry. by rewrite orb_true_r. Qed.
Lemma gf_mul_pow a b : gf_mul (pow_gf a) (pow_gf b) = pow_gf (a + b).
Proof.
  destruct (log_pow a) as [Ha La]. destruct (log_pow b) as [Hb Lb]. rewrite gf_mul_entry. unfold mul_entry.
  pose proof (Z.mod_pos_bound a 255 ltac:(lia)). pose proof (Z.mod_pos_bound b 255 ltac:(lia)).
  destruct (Nat.eqb_spec (gf_nat (pow_gf a)) 0) as [E%gf_nat_0|_]; [done|].
  destruct (Nat.eqb_spec (gf_nat (pow_gf b)) 0) as [E%gf_nat_0|_]; [done|]. cbn [orb].
  change (gf_log the_tables !!! gf_nat (pow_gf a)) with (log_gf (pow_gf a)).
  change (gf_log the_tables !!! gf_nat (pow_gf b)) with (log_gf (pow_gf b)). rewrite La, Lb.
  unfold gf_nat. rewrite modnn_spec by lia. unfold pow_gf. by rewrite <-Z.add_mod by lia.
Qed.

(** Multiplying by a power of the generator is repeated [xtime]. *)
Lemma gf_mul_iter n y : gf_mul (pow_gf (Z.of_nat n)) y = Nat.iter n xtime y.
Proof.
  destruct (decide (y = Byte.x00)) as [->|Hy].
  - rewrite gf_mul_0_r. induction n as [|n IH]; [done|]. simpl. by rewrite <-IH.
  - destruct (pow_log y Hy) as [_ Ey]. rewrite <-Ey, gf_mul_pow. induction n as [|n IH]; [done|].
    simpl. rewrite <-IH, xtime_pow. apply pow_ext. f_equal. lia.
Qed.
Lemma iter_xor n a b : Nat.iter n xtime (gf_xor a b) = gf_xor (Nat.iter n xtime a) (Nat.iter n xtime b).
Proof. induction n as [|n IH]; [done|]. simpl. by rewrite IH, gf_xtime_xor. Qed.
Lemma as_power x : x <> Byte.x00 -> exists n, x = pow_gf (Z.of_nat n).
Proof. intros Hx. destruct (pow_log x Hx) as [Hb E]. exists (Z.to_nat (log_gf x)). rewrite Z2Nat.id by lia. done. Qed.

Lemma gf_mul_xor_r x a b : gf_mul x (gf_xor a b) = gf_xor (gf_mul x a) (gf_mul x b).
Proof.
  destruct (decide (x = Byte.x00)) as [->|Hx]; [by rewrite !gf_mul_0_l|].
  destruct (as_power x Hx) as [n ->]. by rewrite !gf_mul_iter, iter_xor.
Qed.
Lemma gf_mul_comm x y : gf_mul x y = gf_mul y x.
Proof.
  destruct (decide (x = Byte.x00)) as [->|Hx]; [by rewrite gf_mul_0_l, gf_mul_0_r|].
  destruct (decide (y = Byte.x00)) as [->|Hy]; [by rewrite gf_mul_0_l, gf_mul_0_r|].
  destruct (as_power x Hx) as [n ->], (as_power y Hy) as [m ->]. rewrite !gf_mul_pow. f_equal. lia.
Qed.
Lemma gf_mul_assoc x y z : gf_mul x (gf_mul y z) = gf_mul (gf_mul x y) z.
Proof.
  destruct (decide (x = Byte.x00)) as [->|Hx]; [by rewrite !gf_mul_0_l|].
  destruct (decide (y = Byte.x00)) as [->|Hy]; [by rewrite gf_mul_0_l, gf_mul_0_r, gf_mul_0_l|].
  destruct (decide (z = Byte.x00)) as [->|Hz]; [by rewrite !gf_mul_0_r|].
  destruct (as_power x Hx) as [n ->], (as_power y Hy) as [m ->], (as_power z Hz) as [o ->]. rewrite !gf_mul_pow. f_equal. lia.
Qed.
Lemma gf_mul_1_l x : gf_mul Byte.x01 x = x.
Proof. exact (gf_mul_iter 0 x). Qed.
Lemma gf_inverse_l x : x <> Byte.x00 -> gf_mul (gf_inverse x) x = Byte.x01.
Proof.
  intros Hx. pose (f x := Byte.eqb x Byte.x00 || Byte.eqb (pow_gf (log_gf (gf_inverse x) + log_gf x)) Byte.x01 && negb (Byte.eqb (gf_inverse x) Byte.x00)).
  assert (f x = true) as Hf by (apply forall_gf; vm_compute; reflexivity). unfold f in Hf.
  apply orb_true_iff in Hf as [E%Byte.byte_dec_bl|[E%Byte.byte_dec_bl Hi]%andb_true_iff]; [done|].
  assert (gf_inverse x <> Byte.x00) as Hi' by (intros Ei; by rewrite Ei in Hi).
  destruct (pow_log x Hx) as [_ Ex], (pow_log _ Hi') as [_ Eix]. by rewrite <-E, <-gf_mul_pow, Ex, Eix.
Qed.

(** The bytes with [gf_xor] and [gf_mul] are a field; negation is the identity. *)
Lemma gf_field : field_theory Byte.x00 Byte.x01 gf_xor gf_mul gf_xor (fun x => x) (fun x y => gf_mul x (gf_inverse y)) gf_inverse eq.
Proof.
  split; [split|done|done|exact gf_inverse_l].
  - exact gf_xor_0_l.
  - exact gf_xor_comm.
  - exact gf_xor_assoc.
  - exact gf_mul_1_l.
  - exact gf_mul_comm.
  - exact gf_mul_assoc.
  - intros x y z. rewrite gf_mul_comm, gf_mul_xor_r. by rewrite (gf_mul_comm z x), (gf_mul_comm z y).
  - done.
  - exact gf_xor_nilpotent.
Qed.
