(* ===== verification/LinearAlgebra.v ===== *)
(** * Linear algebra over a field of characteristic two

    The mathematics behind src/encoding/fec/reedsolomon-c/rs.c, over any field in which
    [x + x = 0]: sums over index lists, the nonsingularity of Cauchy matrices, and what
    the in-place pivot steps of a Gauss-Jordan inversion preserve. *)

From S2P Require Import Prelude.
From Stdlib Require Import setoid_ring.Field_theory setoid_ring.Field_tac.

Section linear_algebra.
Context {F : Type} (rO rI : F) (radd rmul : F -> F -> F) (rinv : F -> F).
Context (Fth : field_theory rO rI radd rmul radd (fun x => x) (fun x y => rmul x (rinv y)) rinv eq).
Add Field F2 : Fth.
#[local] Infix "+!" := radd (at level 50, left associativity).
#[local] Infix "*!" := rmul (at level 40, left associativity).

Lemma add_self x : x +! x = rO.
Proof. exact (Ropp_def (F_R Fth) x). Qed.
Lemma add_eq_0 x y : x +! y = rO -> x = y.
Proof.
  intros E. transitivity (x +! (y +! y)); [rewrite add_self; ring|].
  replace (x +! (y +! y)) with ((x +! y) +! y) by ring. rewrite E. ring.
Qed.
Lemma mul_eq_0 x y : x <> rO -> x *! y = rO -> y = rO.
Proof.
  intros Hx E. transitivity (rinv x *! (x *! y)); [field; done|]. rewrite E. ring.
Qed.

(** ** Sums *)

Definition sum_over {A} (l : list A) (f : A -> F) : F := foldr (fun x s => f x +! s) rO l.

Lemma sum_over_ext {A} (l : list A) f g : (forall x, x ∈ l -> f x = g x) -> sum_over l f = sum_over l g.
Proof. induction l as [|x l IH]; intros Hf; simpl; [done|]. rewrite Hf, IH by set_solver. done. Qed.
Lemma sum_over_0 {A} (l : list A) f : (forall x, x ∈ l -> f x = rO) -> sum_over l f = rO.
Proof. induction l as [|x l IH]; intros Hf; simpl; [done|]. rewrite Hf, IH by set_solver. ring. Qed.
Lemma sum_over_add {A} (l : list A) f g : sum_over l (fun x => f x +! g x) = sum_over l f +! sum_over l g.
Proof. induction l as [|x l IH]; simpl; [ring|]. rewrite IH. ring. Qed.
Lemma sum_over_scale {A} (l : list A) c f : sum_over l (fun x => c *! f x) = c *! sum_over l f.
Proof. induction l as [|x l IH]; simpl; [ring|]. rewrite IH. ring. Qed.
Lemma sum_over_app {A} (l k : list A) f : sum_over (l ++ k) f = sum_over l f +! sum_over k f.
Proof. induction l as [|x l IH]; simpl; [ring|]. rewrite IH. ring. Qed.
Lemma sum_over_perm {A} (l k : list A) f : l ≡ₚ k -> sum_over l f = sum_over k f.
Proof. induction 1; simpl; [done|congruence|ring|congruence]. Qed.
Lemma sum_over_fmap {A B} (g : A -> B) (l : list A) f : sum_over (g <$> l) f = sum_over l (fun x => f (g x)).
Proof. induction l as [|x l IH]; simpl; [done|]. by f_equal. Qed.
(** One summand, or the summands of a part, taken out. *)
Lemma sum_over_split {A} (P : A -> Prop) `{!forall x, Decision (P x)} (l : list A) f :
  sum_over l f = sum_over (filter P l) f +! sum_over (filter (fun x => ~ P x) l) f.
Proof.
  induction l as [|x l IH]; simpl; [ring|]. rewrite !filter_cons. destruct (decide (P x)).
  - rewrite decide_False by tauto. simpl. rewrite IH. ring.
  - rewrite decide_True by done. simpl. rewrite IH. ring.
Qed.
Lemma sum_over_at {A} `{EqDecision A} (l : list A) f c : NoDup l -> c ∈ l ->
  sum_over l f = f c +! sum_over (filter (fun x => x <> c) l) f.
Proof.
  intros Hnd Hc. rewrite (sum_over_split (fun x => x = c)). f_equal.
  induction Hnd as [|x l Hx Hnd IH]; [set_solver|]. rewrite filter_cons. destruct (decide (x = c)) as [->|Hne].
  - simpl. rewrite sum_over_0; [ring|]. intros y [-> Hy]%list_elem_of_filter. done.
  - apply IH. set_solver.
Qed.
Lemma sum_over_delta {A} `{EqDecision A} (l : list A) c (f : A -> F) : NoDup l -> c ∈ l ->
  sum_over l (fun x => if decide (x = c) then f x else rO) = f c.
Proof.
  intros Hnd Hc. rewrite (sum_over_at l _ c Hnd Hc), decide_True by done.
  rewrite sum_over_0; [ring|]. intros x [Hx _]%list_elem_of_filter. by rewrite decide_False.
Qed.

(** ** Cauchy matrices

    With distinct [xs], distinct [ys] and no element in both, the matrix of the
    [1 / (x + y)] has no null vector: eliminating the first row and column leaves a
    matrix of the same kind up to factors of the rows and columns. *)

Lemma cauchy_step c0 x0 x y y0 : x +! y <> rO -> x +! y0 <> rO -> x0 +! y <> rO -> x0 +! y0 <> rO ->
  (x0 +! y) *! (c0 *! rinv (x +! y)) +! (x0 +! y0) *! (c0 *! rinv (x +! y0))
  = (y +! y0) *! (c0 *! ((x +! x0) *! rinv (x +! y0)) *! rinv (x +! y)).
Proof.
  intros. assert (forall a b c d : F, (a +! b) +! (c +! d) = (a +! c) +! (b +! d)) as Hsw by (intros; ring).
  transitivity (c0 *! (((x0 +! y) *! (x +! y0) +! (x0 +! y0) *! (x +! y)) *! rinv (x +! y) *! rinv (x +! y0))); [field; done|].
  replace ((x0 +! y) *! (x +! y0) +! (x0 +! y0) *! (x +! y))
    with ((x +! x0) *! (y +! y0) +! (x0 *! x +! x0 *! x) +! (y *! y0 +! y *! y0)) by ring.
  rewrite !add_self. field. done.
Qed.

Lemma cauchy_null xs ys (c : F -> F) : NoDup xs -> NoDup ys -> length xs = length ys ->
  (forall x y, x ∈ xs -> y ∈ ys -> x +! y <> rO) ->
  (forall y, y ∈ ys -> sum_over xs (fun x => c x *! rinv (x +! y)) = rO) ->
  forall x, x ∈ xs -> c x = rO.
Proof.
  revert ys c. induction xs as [|x0 xs IH]; intros [|y0 ys] c Hnx Hny Hlen Hne Hs; try done; [set_solver|].
  apply NoDup_cons in Hnx as [Hx0 Hnx]. apply NoDup_cons in Hny as [Hy0 Hny]. simpl in *.
  assert (forall x, x ∈ xs -> c x *! ((x +! x0) *! rinv (x +! y0)) = rO) as Hc'.
  { apply (IH ys); [done|done|lia|set_solver|]. intros y Hy.
    apply (mul_eq_0 (y +! y0)); [intros E%add_eq_0; subst; done|].
    pose proof (Hs y0 ltac:(set_solver)) as E0. pose proof (Hs y ltac:(set_solver)) as E1.
    transitivity ((x0 +! y) *! rO +! (x0 +! y0) *! rO); [|ring]. rewrite <-E1 at 1. rewrite <-E0.
    pose proof (Hne x0 y ltac:(set_solver) ltac:(set_solver)). pose proof (Hne x0 y0 ltac:(set_solver) ltac:(set_solver)).
    transitivity ((c x0 +! c x0) +! ((x0 +! y) *! sum_over xs (fun x => c x *! rinv (x +! y))
      +! (x0 +! y0) *! sum_over xs (fun x => c x *! rinv (x +! y0)))); [|field; done].
    rewrite add_self, <-!sum_over_scale, <-sum_over_add.
    transitivity (sum_over xs (fun x => (x0 +! y) *! (c x *! rinv (x +! y)) +! (x0 +! y0) *! (c x *! rinv (x +! y0)))); [|ring].
    apply sum_over_ext. intros x Hx. symmetry. apply cauchy_step; [apply Hne; set_solver..|done|done]. }
  assert (forall x, x ∈ xs -> c x = rO) as Hc.
  { intros x Hx. specialize (Hc' x Hx). pose proof (Hne x y0 ltac:(set_solver) ltac:(set_solver)) as Hxy.
    assert (x +! x0 <> rO) as Hxx by (intros E%add_eq_0; subst; done).
    apply (mul_eq_0 ((x +! x0) *! rinv (x +! y0))).
    - intros E. apply (mul_eq_0 _ _ Hxx) in E. apply (F_1_neq_0 Fth). rewrite <-(Finv_l Fth _ Hxy), E. ring.
    - rewrite <-Hc'. ring. }
  intros x [->|Hx]%elem_of_cons; [|by apply Hc].
  specialize (Hs y0 ltac:(set_solver)). rewrite sum_over_0 in Hs by (intros z Hz; rewrite (Hc z Hz); ring).
  pose proof (Hne x0 y0 ltac:(set_solver) ltac:(set_solver)) as Hxy.
  apply (mul_eq_0 (rinv (x0 +! y0))); [|rewrite <-Hs; ring].
  intros E. apply (F_1_neq_0 Fth). rewrite <-(Finv_l Fth _ Hxy), E. ring.
Qed.

(** ** Gauss-Jordan inversion in place

    [mixed k S P x z]: the matrix [S] expresses the variables of one side by those of
    the other, where [x] and [z] have changed sides at the indices in [P]. *)

Section inversion.
Context (k : nat).
Definition dot (row v : nat -> F) : F := sum_over (seq 0 k) (fun j => row j *! v j).
Definition mixed (S : nat -> nat -> F) (P : nat -> bool) (x z : nat -> F) : Prop :=
  forall i, (i < k)%nat -> (if P i then x i else z i) = dot (S i) (fun j => if P j then z j else x j).

Definition transpose (a b i : nat) : nat := if decide (i = a) then b else if decide (i = b) then a else i.
Lemma transpose_lt a b i : (a < k)%nat -> (b < k)%nat -> (i < k)%nat -> (transpose a b i < k)%nat.
Proof. unfold transpose. repeat case_decide; lia. Qed.
Lemma transpose_invol a b i : transpose a b (transpose a b i) = i.
Proof. unfold transpose. repeat case_decide; congruence. Qed.

(** Two rows whose index has not changed sides are exchanged. *)
Lemma mixed_swap_rows S P x z a b : (a < k)%nat -> (b < k)%nat -> P a = false -> P b = false ->
  mixed S P x z <-> mixed (fun i => S (transpose a b i)) P x (fun i => z (transpose a b i)).
Proof.
  intros Ha Hb Pa Pb.
  assert (forall i, P (transpose a b i) = P i) as HP by (intros i; unfold transpose; repeat case_decide; congruence).
  assert (forall i, P i = true -> transpose a b i = i) as Hid by (intros i Hi; unfold transpose; repeat case_decide; congruence).
  assert (forall row, dot row (fun j => if P j then z (transpose a b j) else x j) = dot row (fun j => if P j then z j else x j)) as Hd.
  { intros row. apply sum_over_ext. intros j _. destruct (P j) eqn:E; [by rewrite Hid|done]. }
  split; intros Hm i Hi.
  - rewrite Hd, <-Hm by (by apply transpose_lt). rewrite HP. destruct (P i) eqn:E; [by rewrite Hid|done].
  - specialize (Hm (transpose a b i) (transpose_lt a b i Ha Hb Hi)). rewrite Hd, !transpose_invol, HP in Hm.
    destruct (P i) eqn:E; [by rewrite Hid in Hm|done].
Qed.

(** The pivot at [c] changes sides. *)
Definition pivot (S : nat -> nat -> F) (c i j : nat) : F :=
  let s := rinv (S c c) in
  if decide (i = c) then (if decide (j = c) then s else s *! S c j)
  else if decide (j = c) then S i c *! s else S i j +! S i c *! (s *! S c j).
Definition mark (c : nat) (P : nat -> bool) (i : nat) : bool := if decide (i = c) then true else P i.

Lemma dot_at row v c : (c < k)%nat ->
  dot row v = row c *! v c +! sum_over (filter (fun j => j <> c) (seq 0 k)) (fun j => row j *! v j).
Proof. intros Hc. apply (sum_over_at _ (fun j => row j *! v j)); [apply NoDup_seq|apply elem_of_seq; lia]. Qed.

Lemma mixed_pivot S P x z c : (c < k)%nat -> P c = false -> S c c <> rO ->
  mixed S P x z <-> mixed (pivot S c) (mark c P) x z.
Proof.
  intros Hc Pc Hs. set (s := S c c) in *. set (rest := filter (fun j => j <> c) (seq 0 k)).
  set (v := fun j => if P j then z j else x j). set (R i := sum_over rest (fun j => S i j *! v j)).
  assert (forall i, dot (S i) v = S i c *! x c +! R i) as H1.
  { intros i. rewrite (dot_at (S i) v c) by done. unfold v at 1. by rewrite Pc. }
  assert (forall i, dot (pivot S c i) (fun j => if mark c P j then z j else x j)
    = if decide (i = c) then rinv s *! (z c +! R c) else R i +! S i c *! (rinv s *! (z c +! R c))) as H2.
  { intros i. rewrite (dot_at _ _ c) by done. unfold mark at 1, pivot at 1. rewrite !(decide_True (P := c = c)) by done.
    rewrite (sum_over_ext _ _ (fun j => if decide (i = c) then rinv s *! (S c j *! v j)
      else S i j *! v j +! (S i c *! rinv s) *! (S c j *! v j))).
    - destruct (decide (i = c)); [rewrite sum_over_scale|rewrite sum_over_add, sum_over_scale]; unfold R; fold rest s; ring.
    - intros j [Hj _]%list_elem_of_filter. unfold pivot, mark, v. rewrite !(decide_False (P := j = c)) by done.
      destruct (decide (i = c)); fold s; ring. }
  assert (z c = s *! x c +! R c <-> x c = rinv s *! (z c +! R c)) as H3.
  { split; intros E.
    - rewrite E. replace (s *! x c +! R c +! R c) with (s *! x c +! (R c +! R c)) by ring. rewrite add_self. field. done.
    - rewrite E. transitivity (z c +! (R c +! R c)); [rewrite add_self; ring|field; done]. }
  split; intros Hm.
  - pose proof (Hm c Hc) as Ec. rewrite Pc, H1 in Ec. apply H3 in Ec. intros i Hi. rewrite H2. unfold mark at 1.
    destruct (decide (i = c)) as [->|Hne]; [done|]. rewrite Hm, H1, <-Ec by done. ring.
  - pose proof (Hm c Hc) as Ec. rewrite H2 in Ec. unfold mark at 1 in Ec. rewrite !decide_True in Ec by done.
    intros i Hi. fold v. rewrite H1. destruct (decide (i = c)) as [->|Hne]; [rewrite Pc; by apply H3|].
    pose proof (Hm i Hi) as Ei. rewrite H2 in Ei. unfold mark at 1 in Ei. rewrite !decide_False in Ei by done.
    rewrite Ei, <-Ec. ring.
Qed.

(** Without a pivot left, a vector that is not zero is mapped to zero. *)
Lemma mixed_stuck S P q : (q < k)%nat -> P q = false ->
  (forall i j, (i < k)%nat -> (j < k)%nat -> P i = false -> P j = false -> S i j = rO) ->
  exists x, x q = rI /\ mixed S P x (fun _ => rO).
Proof.
  intros Hq Pq Hz. exists (fun j => if P j then S j q else if decide (j = q) then rI else rO).
  split; [by rewrite Pq, decide_True|]. intros i Hi. unfold dot.
  rewrite (sum_over_ext _ _ (fun j => if decide (j = q) then S i j else rO)).
  - rewrite sum_over_delta; [|apply NoDup_seq|apply elem_of_seq; lia]. destruct (P i) eqn:E; [done|]. symmetry. by apply Hz.
  - intros j _. destruct (P j) eqn:E, (decide (j = q)) as [->|]; try congruence; ring.
Qed.
End inversion.
End linear_algebra.
