(* ===== verification/ReedSolomon.v ===== *)
(** * Reed-Solomon erasure code (src/encoding/fec/reedsolomon-c/rs.c, xylem-fec.c)

    Matrices are the row-major arrays of the code, as lists of rows.  Shards are buffers
    of a store, named by their index in it: the pointers of the code.  [malloc_ok n]
    tells whether the [n]-th allocation of a call succeeds. *)

From S2P Require Import Prelude GaloisField.

(** ** Rows *)

(** [dst ^= c * src] on [sz] bytes. *)
Definition addmul (dst src : list gf) (c : gf) (sz : nat) : list gf :=
  if bool_decide (c = Byte.x00) then dst
  else zip_with (fun d s => gf_xor d (gf_mul c s)) (take sz dst) (take sz src) ++ drop sz dst.
(** [dst = c * src]; for [c = 0] the call is [memset(dst1, 0, c)]. *)
Definition mul (dst src : list gf) (c : gf) (sz : nat) : list gf :=
  if bool_decide (c = Byte.x00) then replicate (gf_nat c) Byte.x00 ++ drop (gf_nat c) dst
  else (gf_mul c <$> take sz src) ++ drop sz dst.

Definition multiply1 (a : list (list gf)) (ac : nat) (b : list (list gf)) (bc : nat) : list (list gf) :=
  (fun row : list gf =>
     (fun c => fold_left (fun tg i => gf_xor tg (gf_mul (row !!! i) (b !!! i !!! c))) (seq 0 ac) Byte.x00) <$> seq 0 bc) <$> a.
Definition sub_matrix (matrix : list (list gf)) (rmin cmin rmax cmax : nat) : list (list gf) :=
  (fun row => take (cmax - cmin) (drop cmin row)) <$> take (rmax - rmin) (drop rmin matrix).

(** ** Inversion *)

(** The search for a pivot: the column's own diagonal element, else the first element
    that is not zero in a row and a column not used yet. *)
Inductive search := Found (irow icol : nat) | Singular | NotFound.
Fixpoint scan_columns (row : list gf) (irow : nat) (ipiv : list Z) (ixs : list nat) : search :=
  match ixs with
  | [] => NotFound
  | ix :: rest =>
      if ipiv !!! ix =? 0 then
        if bool_decide (row !!! ix = Byte.x00) then scan_columns row irow ipiv rest else Found irow ix
      else if 1 <? ipiv !!! ix then Singular
      else scan_columns row irow ipiv rest
  end.
Fixpoint scan_rows (src : list (list gf)) (k : nat) (ipiv : list Z) (rows : list nat) : search :=
  match rows with
  | [] => NotFound
  | row :: rest =>
      if ipiv !!! row =? 1 then scan_rows src k ipiv rest
      else match scan_columns (src !!! row) row ipiv (seq 0 k) with
           | NotFound => scan_rows src k ipiv rest
           | found => found
           end
  end.
Definition find_pivot (src : list (list gf)) (k : nat) (ipiv : list Z) (col : nat) : search :=
  if negb (ipiv !!! col =? 1) && negb (bool_decide (src !!! col !!! col = Byte.x00)) then Found col col
  else scan_rows src k ipiv (seq 0 k).

Definition swap_rows (a b : nat) (src : list (list gf)) : list (list gf) :=
  if (a =? b)%nat then src else <[a := src !!! b]> (<[b := src !!! a]> src).
Definition swap_cols (a b : nat) (row : list gf) : list gf := <[a := row !!! b]> (<[b := row !!! a]> row).

(** The pivot row is divided by its pivot, whose place takes the inverse. *)
Definition scale_row (icol : nat) (row : list gf) : list gf :=
  let c := row !!! icol in
  if bool_decide (c = Byte.x01) then row else gf_mul (gf_inverse c) <$> <[icol := Byte.x01]> row.
(** The other rows lose their multiple of it, unless it is a row of the identity. *)
Definition eliminate (k icol : nat) (src : list (list gf)) : list (list gf) :=
  let pivot_row := src !!! icol in
  let id_row := <[icol := Byte.x01]> (replicate k Byte.x00) in
  if bool_decide (pivot_row = id_row) then src
  else imap (fun ix p => if (ix =? icol)%nat then p
                         else addmul (<[icol := Byte.x00]> p) pivot_row (p !!! icol) k) src.

(** [indx] holds the pairs [(indxr[col], indxc[col])] of the columns done. *)
Record inv_state := InvState { isrc : list (list gf); ipiv : list Z; indx : list (nat * nat) }.
(** The loop over [col]; false: the matrix was found singular. *)
Fixpoint invert_loop (k : nat) (cols : list nat) (st : inv_state) : bool * inv_state :=
  match cols with
  | [] => (true, st)
  | col :: rest =>
      match find_pivot (isrc st) k (ipiv st) col with
      | Found irow icol =>
          let piv := <[icol := (ipiv st !!! icol) + 1]> (ipiv st) in
          let src := swap_rows irow icol (isrc st) in
          let st := InvState src piv (indx st ++ [(irow, icol)]) in
          if bool_decide (src !!! icol !!! icol = Byte.x00) then (false, st)
          else invert_loop k rest
                 (InvState (eliminate k icol (<[icol := scale_row icol (src !!! icol)]> src)) piv (indx st))
      | _ => (false, st)
      end
  end.
(** The columns are put back in order, last exchange first. *)
Definition unscramble (k : nat) (indx : list (nat * nat)) (src : list (list gf)) : list (list gf) :=
  fold_left (fun src '(r, c) =>
    if (k <=? r)%nat then src else if (k <=? c)%nat then src
    else if (r =? c)%nat then src else swap_cols r c <$> src) (rev indx) src.
(** The error code and the array. *)
Definition invert_mat (src : list (list gf)) (k : nat) : Z * list (list gf) :=
  let '(ok, st) := invert_loop k (seq 0 k) (InvState src (replicate k 0) []) in
  if ok then (0, unscramble k (indx st) (isrc st)) else (1, isrc st).

(** ** Coding shards *)

Notation store := (list (list gf)).
Definition code_some_shards (matrixRows : list (list gf)) (inputs outputs : list nat)
    (dataShards outputCount byteCount : nat) (st : store) : store :=
  fold_left (fun st c =>
    fold_left (fun st iRow =>
      let out : nat := outputs !!! iRow in
      let coef := matrixRows !!! iRow !!! c in
      let f := if (c =? 0)%nat then mul else addmul in
      <[out := f (st !!! out) (st !!! (inputs !!! c)) coef byteCount]> st) (seq 0 outputCount) st) (seq 0 dataShards) st.

Definition DATA_SHARDS_MAX : Z := 255.
Record reed_solomon := RS { data_shards : Z; parity_shards : Z; shards : Z; rs_m : list (list gf); rs_parity : list (list gf) }.
Definition identity_rows (rows cols : nat) : list (list gf) :=
  (fun row => (fun col => if (row =? col)%nat then Byte.x01 else Byte.x00) <$> seq 0 cols) <$> seq 0 rows.

(** [None]: null.  A failed assertion is [None] as well; it is shown not to fail. *)
Definition reed_solomon_new (malloc_ok : nat -> bool) (data parity : Z) : option reed_solomon :=
  let total := i32 (data + parity) in
  if negb (malloc_ok 0%nat) then None
  else if (DATA_SHARDS_MAX <? total) || (data <=? 0) || (parity <=? 0) then None
  else
    let ds := Z.to_nat data in let ps := Z.to_nat parity in let ss := Z.to_nat total in
    if negb (malloc_ok 1%nat) then None
    else
      let vm := identity_rows ss ds in
      if negb (malloc_ok 2%nat) then None
      else
        let '(err, top) := invert_mat (sub_matrix vm 0 0 ds ds) ds in
        if negb (err =? 0) then None
        else if negb (malloc_ok 3%nat) then None
        else
          let m := multiply1 vm ds top ds in
          let m := fold_left (fun m j =>
                     fold_left (fun m i =>
                       <[(ds + j)%nat := <[i := gf_inverse (gf_of (Z.lxor (parity + Z.of_nat i) (Z.of_nat j)))]> (m !!! (ds + j)%nat)]> m)
                       (seq 0 ds) m) (seq 0 ps) m in
          if negb (malloc_ok 4%nat) then None
          else Some (RS data parity total m (sub_matrix m ds 0 ss ds)).

(** The exchange sort of [erased_blocks], which stops at the first position that needs
    no exchange. *)
Definition sort_pass (n i : nat) (l : list nat) : bool * list nat :=
  fold_left (fun '(swap, l) j =>
    if (l !!! j <? l !!! i)%nat then (true, <[i := l !!! j]> (<[j := l !!! i]> l)) else (swap, l))
    (seq (i + 1) (n - (i + 1))) (false, l).
Fixpoint sort_erased (n : nat) (rounds : list nat) (l : list nat) : list nat :=
  match rounds with
  | [] => l
  | i :: rest => let '(swap, l) := sort_pass n i l in if (swap : bool) then sort_erased n rest l else l
  end.

(** The rows of the matrix and the shards that are there: data first, then parity. *)
Definition data_rows (rs : reed_solomon) (data_blocks erased : list nat) (nr : nat) : list (list gf) * list nat :=
  let '(_, rows, subs) :=
    fold_left (fun '(j, rows, subs) i =>
      if (j <? nr)%nat && (i =? erased !!! j)%nat then ((j + 1)%nat, rows, subs)
      else (j, rows ++ [rs_m rs !!! i], subs ++ [data_blocks !!! i]))
      (seq 0 (Z.to_nat (data_shards rs))) (0%nat, [], []) in
  (rows, subs).
Definition parity_rows (rs : reed_solomon) (fec_blocks fec_nos : list nat) (nr : nat)
    (rows_subs : list (list gf) * list nat) : list (list gf) * list nat :=
  let ds := Z.to_nat (data_shards rs) in
  fold_left (fun '(rows, subs) i =>
    if (length rows <? ds)%nat
    then (rows ++ [rs_m rs !!! (ds + fec_nos !!! i)%nat], subs ++ [fec_blocks !!! i]) else (rows, subs)) (seq 0 nr) rows_subs.
(** The rows of the erased blocks are moved to the front, in place. *)
Definition front_rows (erased : list nat) (nr : nat) (m : list (list gf)) : list (list gf) :=
  fold_left (fun m i => <[i := m !!! (erased !!! i)]> m) (seq 0 nr) m.

Definition reed_solomon_decode (rs : reed_solomon) (data_blocks : list nat) (block_size : nat)
    (dec_fec_blocks fec_block_nos erased_blocks : list nat) (nr : nat) (st : store) : Z * store :=
  let ds := Z.to_nat (data_shards rs) in
  let erased := sort_erased nr (seq 0 nr) erased_blocks in
  let '(rows, subShards) := parity_rows rs dec_fec_blocks fec_block_nos nr (data_rows rs data_blocks erased nr) in
  if (length rows <? ds)%nat then (-1, st)
  else
    let dataDecodeMatrix := front_rows erased nr (snd (invert_mat rows ds)) in
    let outputs := (fun i => data_blocks !!! (erased !!! i)) <$> seq 0 nr in
    (0, code_some_shards dataDecodeMatrix subShards outputs ds nr block_size st).

(** [blocks] are the pointers of the shards: the data of all groups, then their parity. *)
Definition reed_solomon_encode (rs : reed_solomon) (blocks : list nat) (nr_shards block_size : nat) (st : store) : Z * store :=
  let ds := Z.to_nat (data_shards rs) in let ps := Z.to_nat (parity_shards rs) in let ss := Z.to_nat (shards rs) in
  let fec0 := (nr_shards / ss * ds)%nat in
  (0, fold_left (fun st g =>
        code_some_shards (rs_parity rs) (drop (g * ds) blocks) (drop (fec0 + g * ps) blocks) ds ps block_size st)
      (seq 0 ((nr_shards + ss - 1) / ss)) st).

(** The positions of the marked data blocks, and of the first [dn] parity blocks that
    are there. *)
Definition erased_of (marks : list Z) (ds : nat) : list nat := filter (fun i => marks !!! i <> 0) (seq 0 ds).
Definition parity_of (marks : list Z) (ps dn : nat) : list nat := take dn (filter (fun i => marks !!! i = 0) (seq 0 ps)).

Definition reed_solomon_reconstruct (rs : reed_solomon) (blocks : list nat) (marks : list Z)
    (nr_shards block_size : nat) (st : store) : Z * store :=
  let ds := Z.to_nat (data_shards rs) in let ps := Z.to_nat (parity_shards rs) in
  let n := (nr_shards / Z.to_nat (shards rs))%nat in
  fold_left (fun '(err, st) j =>
    let data_blocks := drop (j * ds) blocks in
    let fec_blocks := drop (n * ds + j * ps) blocks in
    let erased := erased_of (drop (j * ds) marks) ds in
    let dn := length erased in
    if (dn =? 0)%nat then (err, st)
    else
      let nos := parity_of (drop (n * ds + j * ps) marks) ps dn in
      if (dn =? length nos)%nat
      then (err, snd (reed_solomon_decode rs data_blocks block_size ((fun i => fec_blocks !!! i) <$> nos) nos erased dn st))
      else (-1, st)) (seq 0 n) (0, st).

(** ** src/encoding/fec/xylem-fec.c *)

Record xylem_fec_t := Fec { fec_rs : reed_solomon; fec_data : Z; fec_parity : Z }.
Definition xylem_fec_create (malloc_ok calloc_ok : nat -> bool) (data parity : Z) : option xylem_fec_t :=
  if (data <=? 0) || (parity <=? 0) then None
  else if 255 <? i32 (data + parity) then None
  else
    match reed_solomon_new malloc_ok data parity with
    | None => None
    | Some rs => if calloc_ok 0%nat && calloc_ok 1%nat then Some (Fec rs data parity) else None
    end.
(** Null pointers are [None]; the size is cast to [int] for the coder, whose loops do
    nothing for a negative size. *)
Definition xylem_fec_encode (fec : option xylem_fec_t) (data parity : option (list nat)) (shard_size : Z) (st : store) : Z * store :=
  match fec, data, parity with
  | Some fec, Some data, Some parity =>
      if shard_size =? 0 then (-1, st)
      else
        let total := Z.to_nat (i32 (fec_data fec + fec_parity fec)) in
        let blocks := take (Z.to_nat (fec_data fec)) data ++ take (Z.to_nat (fec_parity fec)) parity in
        let '(rc, st) := reed_solomon_encode (fec_rs fec) blocks total (Z.to_nat (i32 shard_size)) st in
        (if rc =? 0 then 0 else -1, st)
  | _, _, _ => (-1, st)
  end.
Definition xylem_fec_reconstruct (fec : option xylem_fec_t) (blocks : option (list nat)) (marks : option (list Z))
    (shard_size : Z) (st : store) : Z * store :=
  match fec, blocks, marks with
  | Some fec, Some blocks, Some marks =>
      if shard_size =? 0 then (-1, st)
      else
        let total := Z.to_nat (i32 (fec_data fec + fec_parity fec)) in
        let '(rc, st) := reed_solomon_reconstruct (fec_rs fec) blocks marks total (Z.to_nat (i32 shard_size)) st in
        (if rc =? 0 then 0 else -1, st)
  | _, _, _ => (-1, st)
  end.

(** ** Two corners of the code that its callers do not reach *)

(** For a zero coefficient [mul] clears no byte: the length it passes is the
    coefficient.  No first coefficient of an encoding or decoding row is zero. *)
Lemma mul_zero_keeps dst src sz : mul dst src Byte.x00 sz = dst.
Proof. reflexivity. Qed.
(** The sort gives up on a list whose first element is in place; [reed_solomon_reconstruct]
    passes sorted lists. *)
Lemma sort_erased_incomplete : sort_erased 3 (seq 0 3) [0; 2; 1]%nat = [0; 2; 1]%nat.
Proof. reflexivity. Qed.
