(* ===== verification/RsInvert.v ===== *)
(** * Matrix inversion of the erasure code (invert_mat of rs.c)

    The in-place Gauss-Jordan inversion returns zero exactly for the matrices without a
    null vector, and the array then holds the inverse. *)

From S2P Require Import Prelude Interleave GaloisField LinearAlgebra ReedSolomon.
From Stdlib Require Import setoid_ring.Field_theory setoid_ring.Field_tac.

Add Field GF : gf_field.
(** A lemma of [LinearAlgebra], for bytes. *)
Notation over_gf lem := (lem gf Byte.x00 Byte.x01 gf_xor gf_mul gf_inverse gf_field) (only parsing).
Notation gsum := (sum_over Byte.x00 gf_xor).
Notation gdot := (dot Byte.x00 gf_xor gf_mul).
Notation gmixed := (mixed Byte.x00 gf_xor gf_mul).
Notation gpivot := (pivot gf_xor gf_mul gf_inverse).

Definition mat (src : list (list gf)) (i j : nat) : gf := src !!! i !!! j.
Definition shaped (k : nat) (src : list (list gf)) : Prop := length src = k /\ forall i, (i < k)%nat -> length (src !!! i) = k.
(** [y] is the image of [x]. *)
Definition image (k : nat) (A : nat -> nat -> gf) (x y : nat -> gf) : Prop := forall i, (i < k)%nat -> y i = gdot k (A i) x.

Lemma addmul_lookup dst src c k j : length dst = k -> length src = k -> (j < k)%nat ->
  addmul dst src c k !!! j = gf_xor (dst !!! j) (gf_mul c (src !!! j)).
Proof.
  intros Hd Hs Hj. unfold addmul. case_bool_decide as Hc; [rewrite Hc, gf_mul_0_l; ring|].
  rewrite !take_ge by lia. rewrite drop_ge, app_nil_r by lia. apply list_lookup_total_correct.
  rewrite lookup_zip_with, (list_lookup_lookup_total_lt dst), (list_lookup_lookup_total_lt src) by lia. done.
Qed.
Lemma addmul_length dst src c k : length dst = k -> length src = k -> length (addmul dst src c k) = k.
Proof.
  intros Hd Hs. unfold addmul. case_bool_decide; [done|]. rewrite length_app, length_zip_with, !length_take, length_drop. lia.
Qed.

Lemma mixed_ext k S S' P x z : (forall i j, (i < k)%nat -> (j < k)%nat -> S i j = S' i j) -> gmixed k S P x z -> gmixed k S' P x z.
Proof.
  intros HS Hm i Hi. rewrite Hm by done. unfold dot. apply (over_gf (@sum_over_ext)). intros j [_ Hj]%elem_of_seq. by rewrite HS by lia.
Qed.

(** ** One column *)

Lemma swap_rows_mat k a b src i j : length src = k -> (a < k)%nat -> (b < k)%nat -> (i < k)%nat ->
  mat (swap_rows a b src) i j = mat src (transpose a b i) j.
Proof.
  intros Hl Ha Hb Hi. unfold swap_rows, mat, transpose. destruct (Nat.eqb_spec a b) as [->|Hne].
  - repeat case_decide; by subst.
  - destruct (decide (i = a)) as [->|Hia]; [by rewrite list_lookup_total_insert_eq by (rewrite length_insert; lia)|].
    rewrite list_lookup_total_insert_ne by done. destruct (decide (i = b)) as [->|Hib].
    + by rewrite list_lookup_total_insert_eq by lia.
    + by rewrite list_lookup_total_insert_ne.
Qed.
Lemma swap_rows_shaped k a b src : shaped k src -> (a < k)%nat -> (b < k)%nat -> shaped k (swap_rows a b src).
Proof.
  intros [Hl Hr] Ha Hb. split; [unfold swap_rows; destruct (_ =? _)%nat; by rewrite ?length_insert|]. intros i Hi.
  assert (forall l : list gf, l = src !!! transpose a b i -> length l = k) as H1.
  { intros l ->. apply Hr. by apply transpose_lt. }
  apply H1. unfold swap_rows, transpose. destruct (Nat.eqb_spec a b) as [->|Hne]; [repeat case_decide; by subst|].
  destruct (decide (i = a)) as [->|Hia]; [by rewrite list_lookup_total_insert_eq by (rewrite length_insert; lia)|].
  rewrite list_lookup_total_insert_ne by done. destruct (decide (i = b)) as [->|Hib].
  - by rewrite list_lookup_total_insert_eq by lia.
  - by rewrite list_lookup_total_insert_ne.
Qed.

(** Dividing the pivot row and clearing the column are the pivot step. *)
Lemma scale_row_lookup k c row j : length row = k -> (c < k)%nat -> (j < k)%nat -> row !!! c <> Byte.x00 ->
  scale_row c row !!! j = if decide (j = c) then gf_inverse (row !!! c) else gf_mul (gf_inverse (row !!! c)) (row !!! j).
Proof.
  intros Hl Hc Hj Hp. unfold scale_row. case_bool_decide as E1.
  - rewrite E1. assert (gf_inverse Byte.x01 = Byte.x01) as -> by (vm_compute; reflexivity). rewrite gf_mul_1_l.
    destruct (decide (j = c)) as [->|]; [done|done].
  - rewrite (list_lookup_total_fmap (gf_mul _)) by (rewrite length_insert; lia). destruct (decide (j = c)) as [->|Hne].
    + rewrite list_lookup_total_insert_eq by lia. ring.
    + by rewrite list_lookup_total_insert_ne.
Qed.
Lemma scale_row_length c row : length (scale_row c row) = length row.
Proof. unfold scale_row. case_bool_decide; [done|]. by rewrite length_fmap, length_insert. Qed.

Definition pivot_rows (k c : nat) (src : list (list gf)) : list (list gf) :=
  eliminate k c (<[c := scale_row c (src !!! c)]> src).
Lemma pivot_rows_row k c src i : shaped k src -> (c < k)%nat -> (i < k)%nat ->
  let prow := scale_row c (src !!! c) in
  pivot_rows k c src !!! i =
    if decide (i = c) then prow
    else if bool_decide (prow = <[c := Byte.x01]> (replicate k Byte.x00)) then src !!! i
    else addmul (<[c := Byte.x00]> (src !!! i)) prow (src !!! i !!! c) k.
Proof.
  intros [Hl Hr] Hc Hi prow. unfold pivot_rows, eliminate. rewrite list_lookup_total_insert_eq by lia. fold prow.
  case_bool_decide.
  - destruct (decide (i = c)) as [->|]; [by rewrite list_lookup_total_insert_eq by lia|by rewrite list_lookup_total_insert_ne].
  - apply list_lookup_total_correct. rewrite list_lookup_imap. destruct (decide (i = c)) as [->|Hne].
    + rewrite list_lookup_insert_eq by lia. simpl. by rewrite Nat.eqb_refl.
    + rewrite list_lookup_insert_ne, (list_lookup_lookup_total_lt src) by (done || lia). simpl.
      by destruct (Nat.eqb_spec i c).
Qed.
Lemma pivot_rows_shaped k c src : shaped k src -> (c < k)%nat -> shaped k (pivot_rows k c src).
Proof.
  intros Hsh Hc. pose proof Hsh as [Hl Hr]. split.
  - unfold pivot_rows, eliminate. case_bool_decide; by rewrite ?length_imap, length_insert.
  - intros i Hi. rewrite pivot_rows_row by done. destruct (decide (i = c)); [by rewrite scale_row_length, Hr|].
    case_bool_decide; [by apply Hr|]. apply addmul_length; [by rewrite length_insert, Hr|by rewrite scale_row_length, Hr].
Qed.
Lemma pivot_rows_mat k c src i j : shaped k src -> (c < k)%nat -> mat src c c <> Byte.x00 -> (i < k)%nat -> (j < k)%nat ->
  mat (pivot_rows k c src) i j = gpivot (mat src) c i j.
Proof.
  intros Hsh Hc Hp Hi Hj. pose proof Hsh as [Hl Hr]. unfold mat at 1. rewrite pivot_rows_row by done.
  pose proof (scale_row_lookup k c (src !!! c)) as Hsc. unfold pivot. fold (mat src c c) in Hsc |- *.
  destruct (decide (i = c)) as [->|Hne]; [by rewrite Hsc by auto|].
  case_bool_decide as Eid.
  - assert (forall j, (j < k)%nat -> (if decide (j = c) then gf_inverse (mat src c c) else gf_mul (gf_inverse (mat src c c)) (src !!! c !!! j))
      = if decide (j = c) then Byte.x01 else Byte.x00) as Hid.
    { intros j' Hj'. rewrite <-Hsc, Eid by auto. destruct (decide (j' = c)) as [->|].
      - by rewrite list_lookup_total_insert_eq by (rewrite length_replicate; lia).
      - rewrite list_lookup_total_insert_ne by done. by apply lookup_total_replicate_2. }
    pose proof (Hid c Hc) as Hcc. rewrite !decide_True in Hcc by done. specialize (Hid j Hj). fold (mat src i c).
    unfold mat in *. destruct (decide (j = c)) as [->|Hjc]; [rewrite Hcc; ring|]. rewrite Hid. ring.
  - rewrite addmul_lookup by (rewrite ?length_insert, ?scale_row_length, ?Hr; done). rewrite Hsc by auto.
    destruct (decide (j = c)) as [->|Hjc].
    + rewrite list_lookup_total_insert_eq by (rewrite Hr; done). unfold mat. ring.
    + rewrite list_lookup_total_insert_ne by done. done.
Qed.

(** ** The search *)

Definition used (piv : list Z) (i : nat) : bool := piv !!! i =? 1.
(** Every mark is zero or one. *)
Definition marks_ok (k : nat) (piv : list Z) : Prop := length piv = k /\ forall i, (i < k)%nat -> piv !!! i = 0 \/ piv !!! i = 1.

Lemma scan_columns_spec k piv row irow ixs : marks_ok k piv -> (forall i, i ∈ ixs -> (i < k)%nat) ->
  match scan_columns row irow piv ixs with
  | Found r c => r = irow /\ (c < k)%nat /\ used piv c = false /\ row !!! c <> Byte.x00
  | Singular => False
  | NotFound => forall j, j ∈ ixs -> used piv j = false -> row !!! j = Byte.x00
  end.
Proof.
  intros [_ Hp]. induction ixs as [|ix ixs IH]; intros Hr; simpl; [set_solver|].
  assert (ix < k)%nat as Hix by (apply Hr; set_solver). specialize (IH ltac:(set_solver)). unfold used in *.
  destruct (Hp ix Hix) as [E|E]; rewrite E; simpl.
  - case_bool_decide as E0; [|split_and!; [done|done|by rewrite E|done]]. destruct (scan_columns _ _ _ _); [done..|]. intros j [->|Hj]%elem_of_cons; auto.
  - destruct (scan_columns _ _ _ _); [done..|]. intros j [->|Hj]%elem_of_cons; [by rewrite E|auto].
Qed.
Lemma scan_rows_spec k src piv rows : marks_ok k piv -> (forall i, i ∈ rows -> (i < k)%nat) ->
  match scan_rows src k piv rows with
  | Found r c => (r < k)%nat /\ (c < k)%nat /\ used piv r = false /\ used piv c = false /\ mat src r c <> Byte.x00
  | Singular => False
  | NotFound => forall i j, i ∈ rows -> (j < k)%nat -> used piv i = false -> used piv j = false -> mat src i j = Byte.x00
  end.
Proof.
  intros Hp. induction rows as [|r rows IH]; intros Hr; simpl; [set_solver|].
  specialize (IH ltac:(set_solver)). assert (r < k)%nat as Hrk by (apply Hr; set_solver). fold (used piv r).
  destruct (used piv r) eqn:Eu.
  - destruct (scan_rows _ _ _ _); [done..|]. intros i j [->|Hi]%elem_of_cons; [congruence|auto].
  - pose proof (scan_columns_spec k piv (src !!! r) r (seq 0 k) Hp) as Hs.
    destruct (scan_columns _ _ _ _) as [r' c| |]; [|by apply Hs; intros i ?%elem_of_seq; lia|].
    + destruct Hs as (-> & ? & ? & ?); [intros i ?%elem_of_seq; lia|done].
    + destruct (scan_rows _ _ _ _); [done..|]. intros i j [->|Hi]%elem_of_cons Hj ? ?; [|auto].
      apply Hs; [intros x ?%elem_of_seq; lia|apply elem_of_seq; lia|done].
Qed.
Lemma find_pivot_spec k src piv col : marks_ok k piv -> (col < k)%nat ->
  match find_pivot src k piv col with
  | Found r c => (r < k)%nat /\ (c < k)%nat /\ used piv r = false /\ used piv c = false /\ mat src r c <> Byte.x00
  | Singular => False
  | NotFound => forall i j, (i < k)%nat -> (j < k)%nat -> used piv i = false -> used piv j = false -> mat src i j = Byte.x00
  end.
Proof.
  intros Hp Hc. unfold find_pivot. fold (used piv col). destruct (_ && _) eqn:E.
  - apply andb_true_iff in E as [E1%negb_true_iff E2%negb_true_iff%bool_decide_eq_false]. done.
  - pose proof (scan_rows_spec k src piv (seq 0 k) Hp ltac:(intros i ?%elem_of_seq; lia)) as Hs.
    destruct (scan_rows _ _ _ _); [done..|]. intros i j Hi. apply Hs, elem_of_seq. lia.
Qed.

(** ** The loop over the columns *)

(** The row exchanges so far, as a permutation. *)
Definition perm_of (l : list (nat * nat)) (i : nat) : nat := foldr (fun rc i => transpose rc.1 rc.2 i) i l.
Lemma perm_of_snoc l r c i : perm_of (l ++ [(r, c)]) i = perm_of l (transpose r c i).
Proof. unfold perm_of. by rewrite foldr_app. Qed.

Record inv_ok (k : nat) (A : nat -> nat -> gf) (n : nat) (st : inv_state) : Prop := {
  io_shaped : shaped k (isrc st);
  io_marks : marks_ok k (ipiv st);
  io_count : sum_list_with Z.to_nat (ipiv st) = n;
  io_indx r c : (r, c) ∈ indx st -> (r < k)%nat /\ (c < k)%nat;
  io_mixed x y : image k A x y <-> gmixed k (mat (isrc st)) (used (ipiv st)) x (fun i => y (perm_of (indx st) i)) }.

Lemma used_insert piv c i : (c < length piv)%nat -> piv !!! c = 0 ->
  used (<[c := (piv !!! c) + 1]> piv) i = mark c (used piv) i.
Proof.
  intros Hc E. unfold used, mark. rewrite E. destruct (decide (i = c)) as [->|Hne].
  - by rewrite list_lookup_total_insert_eq.
  - by rewrite list_lookup_total_insert_ne.
Qed.
Lemma marks_insert k piv c : marks_ok k piv -> (c < k)%nat -> piv !!! c = 0 -> marks_ok k (<[c := (piv !!! c) + 1]> piv).
Proof.
  intros [Hl Hp] Hc E. split; [by rewrite length_insert|]. intros i Hi. rewrite E. destruct (decide (i = c)) as [->|Hne].
  - rewrite list_lookup_total_insert_eq by lia. by right.
  - rewrite list_lookup_total_insert_ne by done. auto.
Qed.
Lemma marks_sum k piv : marks_ok k piv -> (sum_list_with Z.to_nat piv <= k)%nat
  /\ (sum_list_with Z.to_nat piv = k <-> forall i, (i < k)%nat -> used piv i = true).
Proof.
  unfold used. revert k. induction piv as [|x piv IH]; intros k [Hl Hp]; simpl in *; subst k.
  - split; [lia|]. split; [lia|done].
  - destruct (IH (length piv)) as [H1 H2]. { split; [done|]. intros i Hi. exact (Hp (S i) ltac:(lia)). }
    destruct (Hp 0%nat ltac:(lia)) as [E|E]; simpl in E; subst x; simpl.
    + split; [lia|]. split; [lia|]. intros Ha. by specialize (Ha 0%nat ltac:(lia)).
    + split; [lia|]. split; intros Hs.
      * intros [|i] Hi; [done|]. apply H2; lia.
      * f_equal. apply H2. intros i Hi. exact (Hs (S i) ltac:(lia)).
Qed.
(** While a pivot is missing some index is unused. *)
Lemma marks_unused k piv : marks_ok k piv -> (sum_list_with Z.to_nat piv < k)%nat -> exists q, (q < k)%nat /\ used piv q = false.
Proof.
  intros Hp Hs. destruct (decide (Exists (fun i => used piv i = false) (seq 0 k))) as [He|He].
  - apply Exists_exists in He as (q & Hq%elem_of_seq & E). exists q. split; [lia|done].
  - exfalso. destruct (marks_sum k piv Hp) as [_ H2]. assert (sum_list_with Z.to_nat piv = k); [|lia]. apply H2.
    intros i Hi. destruct (used piv i) eqn:E; [done|]. destruct He. apply Exists_exists. exists i. split; [apply elem_of_seq; lia|done].
Qed.

Lemma invert_step k A n st r c : inv_ok k A n st -> (r < k)%nat -> (c < k)%nat -> used (ipiv st) r = false ->
  used (ipiv st) c = false -> mat (isrc st) r c <> Byte.x00 ->
  let src := swap_rows r c (isrc st) in
  src !!! c !!! c <> Byte.x00
  /\ inv_ok k A (S n) (InvState (pivot_rows k c src) (<[c := (ipiv st !!! c) + 1]> (ipiv st)) (indx st ++ [(r, c)])).
Proof.
  intros [Hsh Hmk Hcnt Hix Hmx] Hr Hc Hur Huc Hne src.
  assert (ipiv st !!! c = 0) as E0. { destruct (proj2 Hmk c Hc) as [?|E]; [done|]. unfold used in Huc. by rewrite E in Huc. }
  assert (forall i j, (i < k)%nat -> mat src i j = mat (isrc st) (transpose r c i) j) as Hsw by (intros; by apply (swap_rows_mat k); [apply Hsh|..]).
  assert (mat src c c <> Byte.x00) as Hcc.
  { rewrite Hsw by done. unfold transpose. rewrite (decide_True (P := c = c)) by done. case_decide; [by subst|done]. }
  split; [done|]. assert (shaped k src) as Hsh' by (by apply swap_rows_shaped). pose proof (proj1 Hmk) as Hlen. split; simpl.
  - by apply pivot_rows_shaped.
  - by apply marks_insert.
  - pose proof (sum_insert Z.to_nat (ipiv st) c 0 ((ipiv st !!! c) + 1)) as Hs. rewrite E0 in *. simpl in Hs.
    rewrite (list_lookup_lookup_total_lt (ipiv st)) in Hs by lia. specialize (Hs ltac:(by rewrite E0)). simpl in *. lia.
  - intros r' c' [Hin|[= -> ->]%list_elem_of_singleton]%elem_of_app; [by apply Hix|done].
  - intros x y. rewrite Hmx, (over_gf (@mixed_swap_rows) k _ _ _ _ r c) by done.
    assert (forall S, gmixed k S (used (<[c := (ipiv st !!! c) + 1]> (ipiv st))) x (fun i => y (perm_of (indx st ++ [(r, c)]) i))
      <-> gmixed k S (mark c (used (ipiv st))) x (fun i => y (perm_of (indx st) (transpose r c i)))) as Hext.
    { intros S. unfold mixed. split; intros Hm i Hi; specialize (Hm i Hi); unfold dot in *.
      - rewrite used_insert, perm_of_snoc in Hm by (done || lia). rewrite Hm. apply (over_gf (@sum_over_ext)). intros j _.
        by rewrite used_insert, perm_of_snoc by (done || lia).
      - rewrite used_insert, perm_of_snoc by (done || lia). rewrite Hm. apply (over_gf (@sum_over_ext)). intros j _.
        by rewrite used_insert, perm_of_snoc by (done || lia). }
    rewrite Hext. split; intros Hm.
    + apply (mixed_ext k (gpivot (mat src) c)); [intros; symmetry; by apply pivot_rows_mat|].
      apply (over_gf (@mixed_pivot)); [done..|]. eapply mixed_ext; [|exact Hm]. intros. by rewrite Hsw.
    + apply (mixed_ext k (mat src)); [intros; by apply Hsw|]. apply (over_gf (@mixed_pivot) k _ _ _ _ c); [done..|].
      eapply mixed_ext; [|exact Hm]. intros. by apply pivot_rows_mat.
Qed.

(** The matrix has no null vector. *)
Definition nonsingular (k : nat) (A : nat -> nat -> gf) : Prop :=
  forall x, image k A x (fun _ => Byte.x00) -> forall i, (i < k)%nat -> x i = Byte.x00.

Lemma invert_loop_ok k A cols n st : inv_ok k A n st -> (n + length cols = k)%nat -> Forall (fun c => (c < k)%nat) cols ->
  let '(ok, st') := invert_loop k cols st in
  (ok = true /\ inv_ok k A k st') \/ (ok = false /\ ~ nonsingular k A).
Proof.
  revert n st. induction cols as [|col cols IH]; intros n st HI Hn Hcols; simpl in *.
  - left. split; [done|]. by replace k with n at 2 by lia.
  - apply Forall_cons in Hcols as [Hcol Hcols].
    pose proof (find_pivot_spec k (isrc st) (ipiv st) col (io_marks _ _ _ _ HI) Hcol) as Hf.
    destruct (find_pivot _ _ _ _) as [r c| |]; [|done|].
    + destruct Hf as (Hr & Hc & Hur & Huc & Hne). destruct (invert_step k A n st r c HI Hr Hc Hur Huc Hne) as [Hcc HI'].
      rewrite bool_decide_eq_false_2 by done. apply (IH (S n)); [exact HI'|lia|done].
    + right. split; [done|]. intros Hns. destruct (marks_unused k (ipiv st) (io_marks _ _ _ _ HI)) as (q & Hq & Huq);
        [rewrite (io_count _ _ _ _ HI); lia|].
      destruct (over_gf (@mixed_stuck) k (mat (isrc st)) (used (ipiv st)) q Hq Huq) as (x & Hx1 & Hm); [intros; by apply Hf|].
      apply (io_mixed _ _ _ _ HI x (fun _ => Byte.x00)) in Hm. rewrite (Hns x Hm q Hq) in Hx1. done.
Qed.

(** ** The columns put back in order *)

Lemma transpose_perm k a b : (a < k)%nat -> (b < k)%nat -> transpose a b <$> seq 0 k ≡ₚ seq 0 k.
Proof.
  intros Ha Hb. apply NoDup_Permutation; [|apply NoDup_seq|].
  - apply NoDup_fmap; [|apply NoDup_seq]. intros i j E. by rewrite <-(transpose_invol a b i), E, transpose_invol.
  - intros i. rewrite list_elem_of_fmap, elem_of_seq. split.
    + intros (j & -> & Hj%elem_of_seq). pose proof (transpose_lt k a b j Ha Hb ltac:(lia)). lia.
    + intros Hi. exists (transpose a b i). rewrite transpose_invol. split; [done|]. apply elem_of_seq.
      pose proof (transpose_lt k a b i Ha Hb ltac:(lia)). lia.
Qed.
Lemma dot_transpose k a b f g : (a < k)%nat -> (b < k)%nat ->
  gdot k (fun j => f (transpose a b j)) g = gdot k f (fun j => g (transpose a b j)).
Proof.
  intros Ha Hb. unfold dot. rewrite <-(over_gf (@sum_over_perm) _ _ (fun j => gf_mul (f j) (g (transpose a b j))) (transpose_perm k a b Ha Hb)).
  rewrite sum_over_fmap. apply (over_gf (@sum_over_ext)). intros j _. by rewrite transpose_invol.
Qed.
Lemma swap_cols_lookup k a b row j : length row = k -> (a < k)%nat -> (b < k)%nat -> (j < k)%nat ->
  swap_cols a b row !!! j = row !!! transpose a b j.
Proof.
  intros Hl Ha Hb Hj. unfold swap_cols, transpose. destruct (decide (j = a)) as [->|Hja].
  - by rewrite list_lookup_total_insert_eq by (rewrite length_insert; lia).
  - rewrite list_lookup_total_insert_ne by done. destruct (decide (j = b)) as [->|Hjb].
    + by rewrite list_lookup_total_insert_eq by lia.
    + by rewrite list_lookup_total_insert_ne.
Qed.
Lemma swap_cols_length a b row : length (swap_cols a b row) = length row.
Proof. unfold swap_cols. by rewrite !length_insert. Qed.
Lemma fmap_row (f : list gf -> list gf) k src i : length src = k -> (i < k)%nat -> (f <$> src) !!! i = f (src !!! i).
Proof. intros Hl Hi. apply (list_lookup_total_fmap f). lia. Qed.

Lemma unscramble_dot k indx src : shaped k src -> (forall r c, (r, c) ∈ indx -> (r < k)%nat /\ (c < k)%nat) ->
  shaped k (unscramble k indx src)
  /\ forall y i, (i < k)%nat -> gdot k (mat (unscramble k indx src) i) y = gdot k (mat src i) (fun j => y (perm_of indx j)).
Proof.
  revert src. induction indx as [|[r c] l IH] using rev_ind; intros src Hsh Hin; [done|].
  unfold unscramble in *. rewrite rev_app_distr. simpl. destruct (Hin r c ltac:(set_solver)) as [Hr Hc].
  rewrite (proj2 (Nat.leb_gt k r)), (proj2 (Nat.leb_gt k c)) by done. pose proof Hsh as [Hl Hrow].
  set (src1 := if (r =? c)%nat then src else swap_cols r c <$> src).
  assert (forall i, (i < k)%nat -> length (src1 !!! i) = k /\ forall j, (j < k)%nat -> mat src1 i j = mat src i (transpose r c j)) as H1.
  { intros i' Hi'. unfold src1. destruct (Nat.eqb_spec r c) as [->|Hne].
    - split; [by apply Hrow|]. intros j Hj. unfold transpose. case_decide; by subst.
    - unfold mat. rewrite (fmap_row _ k) by done. split; [rewrite swap_cols_length; by apply Hrow|].
      intros j Hj. apply (swap_cols_lookup k); auto. }
  destruct (IH src1) as [Hsh1 Hd]; [|set_solver|].
  { split; [unfold src1; destruct (r =? c)%nat; by rewrite ?length_fmap|]. intros i' Hi'. by apply H1. }
  split; [exact Hsh1|]. intros y i Hi. rewrite Hd by done.
  transitivity (gdot k (fun j => mat src i (transpose r c j)) (fun j => y (perm_of l j))).
  - apply (over_gf (@sum_over_ext)). intros j Hj%elem_of_seq. destruct (H1 i Hi) as [_ Hm]. by rewrite Hm by lia.
  - rewrite dot_transpose by done. apply (over_gf (@sum_over_ext)). intros j _. by rewrite perm_of_snoc.
Qed.

Lemma invert_mat_ok k src : shaped k src ->
  match invert_mat src k with
  | (0, B) => shaped k B /\ forall x y, image k (mat src) x y <-> image k (mat B) y x
  | (err, _) => err = 1 /\ ~ nonsingular k (mat src)
  end.
Proof.
  intros Hsh. unfold invert_mat.
  assert (inv_ok k (mat src) 0 (InvState src (replicate k 0) [])) as HI.
  { split; simpl; try done.
    - split; [apply length_replicate|]. intros i Hi. left. by apply lookup_total_replicate_2.
    - apply sum_zero. by intros i x [-> _]%lookup_replicate.
    - set_solver.
    - intros x y. unfold image, mixed. assert (forall i, (i < k)%nat -> used (replicate k 0) i = false) as Hu.
      { intros i Hi. unfold used. by rewrite lookup_total_replicate_2. }
      split; intros Hm i Hi; specialize (Hm i Hi); unfold dot in *.
      + rewrite Hu by done. rewrite Hm. apply (over_gf (@sum_over_ext)). intros j Hj%elem_of_seq. by rewrite Hu by lia.
      + rewrite Hu in Hm by done. rewrite Hm. apply (over_gf (@sum_over_ext)). intros j Hj%elem_of_seq. by rewrite Hu by lia. }
  pose proof (invert_loop_ok k (mat src) (seq 0 k) 0 _ HI) as Hloop. rewrite length_seq in Hloop.
  specialize (Hloop eq_refl ltac:(apply Forall_forall; intros c Hc%elem_of_seq; lia)).
  destruct (invert_loop _ _ _) as [ok st] eqn:El. destruct Hloop as [[-> HI']|[-> Hns]]; [|by split].
  - assert (forall i, (i < k)%nat -> used (ipiv st) i = true) as Hall.
    { apply (marks_sum k); [apply HI'|apply HI']. }
    destruct (unscramble_dot k (indx st) (isrc st)) as [Hsh' Hdot]; [apply HI'..|]. split; [done|].
    intros x y. rewrite (io_mixed _ _ _ _ HI' x y). unfold image, mixed.
    assert (forall i, (i < k)%nat -> gdot k (mat (isrc st) i) (fun j => if used (ipiv st) j then y (perm_of (indx st) j) else x j)
      = gdot k (mat (unscramble k (indx st) (isrc st)) i) y) as Hd.
    { intros i Hi. rewrite Hdot by done.
      apply (over_gf (@sum_over_ext)). intros j Hj%elem_of_seq. by rewrite Hall by lia. }
    split; intros Hm i Hi; specialize (Hm i Hi).
    + rewrite Hall, Hd in Hm by done. done.
    + by rewrite Hall, Hd by done.
Qed.

(** C22 Inversion in place of any square matrix: it returns zero exactly for the matrices
    without a null vector, and the array then holds the inverse, from both sides. *)
Theorem invert_mat_correct k src : shaped k src ->
  let '(err, B) := invert_mat src k in
  (err = 0 <-> nonsingular k (mat src)) /\ (err = 0 \/ err = 1)
  /\ (err = 0 -> forall x y, image k (mat src) x y <-> image k (mat B) y x).
Proof.
  intros Hsh. pose proof (invert_mat_ok k src Hsh) as Hinv. destruct (invert_mat src k) as [err B].
  destruct (decide (err = 0)) as [->|Hne].
  - destruct Hinv as [_ HB]. split_and!; [|by left|done]. split; [|done]. intros _ x Hx i Hi. apply HB in Hx. rewrite (Hx i Hi).
    apply (over_gf (@sum_over_0)). intros j _. apply gf_mul_0_r.
  - assert (err = 1 /\ ~ nonsingular k (mat src)) as [-> Hns] by (destruct err; done). split_and!; [done|by right|done].
Qed.

(** A matrix whose inversion exchanges rows. *)
Definition demo_matrix : list (list gf) := [[Byte.x00; Byte.x02]; [Byte.x03; Byte.x01]].
Lemma invert_mat_correct_witness : nonsingular 2 (mat demo_matrix).
Proof.
  pose proof (invert_mat_correct 2 demo_matrix) as H. assert (fst (invert_mat demo_matrix 2) = 0) as E by (vm_compute; reflexivity).
  destruct (invert_mat demo_matrix 2) as [err B]. apply H; [|exact E].
  split; [reflexivity|]. intros [|[|i]] Hi; [reflexivity..|lia].
Defined.
