(* ===== verification/RsCorrect.v ===== *)
(** * Correctness of the erasure code (rs.c, xylem-fec.c)

    Encoding multiplies the data by a matrix whose upper part is the identity and whose
    lower part is a Cauchy matrix; any choice of as many rows as there are data shards
    is nonsingular, and reconstruction inverts that choice. *)

From S2P Require Import Prelude GaloisField LinearAlgebra ReedSolomon RsInvert.
From Stdlib Require Import setoid_ring.Field_theory setoid_ring.Field_tac.

Add Field GFc : gf_field.

(** ** Loops that assign *)

Lemma fold_row {A} (f : list gf -> A -> list gf) R l (m : list (list gf)) : (R < length m)%nat ->
  fold_left (fun m x => <[R := f (m !!! R) x]> m) l m = <[R := fold_left f l (m !!! R)]> m.
Proof.
  revert m. induction l as [|x l IH]; intros m HR; simpl.
  - symmetry. apply list_insert_id. by apply list_lookup_lookup_total_lt.
  - rewrite IH by (by rewrite length_insert). rewrite list_lookup_total_insert_eq by done. by rewrite list_insert_insert_eq.
Qed.
Lemma fmap_seq {A} `{Inhabited A} (g : nat -> A) n i : (i < n)%nat -> (g <$> seq 0 n) !!! i = g i.
Proof. intros Hi. apply list_lookup_total_correct. by rewrite list_lookup_fmap, lookup_seq_lt. Qed.
(** Each index of a range is assigned once. *)
Lemma fold_assign {A} `{Inhabited A} (g : nat -> A) o n (m : list A) : (o + n <= length m)%nat ->
  let m' := fold_left (fun m i => <[(o + i)%nat := g i]> m) (seq 0 n) m in
  length m' = length m /\ (forall i, (i < n)%nat -> m' !!! (o + i)%nat = g i)
  /\ forall i, (i < o)%nat \/ (o + n <= i)%nat -> m' !!! i = m !!! i.
Proof.
  induction n as [|n IH]; intros Hn; [split_and!; [done|lia|done]|]. rewrite seq_S, fold_left_app. simpl.
  destruct IH as (Hl & Hg & Ho); [lia|]. set (m1 := fold_left _ (seq 0 n) m) in *. split_and!.
  - by rewrite length_insert.
  - intros i Hi. destruct (decide (i = n)) as [->|Hne]; [by rewrite list_lookup_total_insert_eq by lia|].
    rewrite list_lookup_total_insert_ne by lia. apply Hg. lia.
  - intros i Hi. rewrite list_lookup_total_insert_ne by lia. apply Ho. lia.
Qed.
Lemma fold_assign_row (g : nat -> gf) n (row : list gf) : length row = n ->
  fold_left (fun row i => <[i := g i]> row) (seq 0 n) row = g <$> seq 0 n.
Proof.
  intros Hl. destruct (fold_assign g 0 n row ltac:(lia)) as (Hl' & Hg & _). simpl in *.
  set (m' := fold_left _ _ _) in *. apply list_eq_same_length with n; [by rewrite length_fmap, length_seq|congruence|].
  intros i x y Hi. rewrite (list_lookup_lookup_total_lt m') by lia. rewrite list_lookup_fmap, lookup_seq_lt by lia.
  rewrite Hg by lia. simpl. congruence.
Qed.

(** ** The matrix of the code *)

Section code.
Context (ds ps : nat) (Hds : (0 < ds)%nat) (Hps : (0 < ps)%nat) (Hmax : (ds + ps <= 255)%nat).

(** Row [r] and column [i]: the identity above, the Cauchy matrix below. *)
Definition column_point (i : nat) : gf := gf_of (Z.of_nat (ps + i)).
Definition row_point (j : nat) : gf := gf_of (Z.of_nat j).
Definition generator (r i : nat) : gf :=
  if decide (r < ds)%nat then (if decide (r = i) then Byte.x01 else Byte.x00)
  else gf_inverse (gf_xor (column_point i) (row_point (r - ds))).

Lemma identity_rows_mat rows cols i j : (i < rows)%nat -> (j < cols)%nat ->
  mat (identity_rows rows cols) i j = if decide (i = j) then Byte.x01 else Byte.x00.
Proof.
  intros Hi Hj. unfold mat, identity_rows. rewrite !fmap_seq by done.
  destruct (Nat.eqb_spec i j), (decide (i = j)); congruence.
Qed.
Lemma identity_shaped k : shaped k (identity_rows k k).
Proof.
  split; [unfold identity_rows; by rewrite length_fmap, length_seq|]. intros i Hi. unfold identity_rows.
  rewrite fmap_seq by done. by rewrite length_fmap, length_seq.
Qed.
Lemma image_identity k A x y : (forall i j, (i < k)%nat -> (j < k)%nat -> A i j = if decide (i = j) then Byte.x01 else Byte.x00) ->
  image k A x y <-> forall i, (i < k)%nat -> y i = x i.
Proof.
  intros HA. assert (forall i, (i < k)%nat -> gdot k (A i) x = x i) as Hd.
  { intros i Hi. unfold dot. rewrite (over_gf (@sum_over_ext) _ _ (fun j => if decide (j = i) then x j else Byte.x00)).
    - apply (over_gf (@sum_over_delta)); [apply NoDup_seq|apply elem_of_seq; lia].
    - intros j Hj%elem_of_seq. rewrite HA by lia. destruct (decide (i = j)), (decide (j = i)); try congruence; ring. }
  unfold image. split; intros Hm i Hi; rewrite ?Hd, Hm by done; [by apply Hd|done].
Qed.

(** The identity is its own inverse, so the assertion of [reed_solomon_new] holds. *)
Lemma invert_identity k src : shaped k src ->
  (forall i j, (i < k)%nat -> (j < k)%nat -> mat src i j = if decide (i = j) then Byte.x01 else Byte.x00) ->
  exists B, invert_mat src k = (0, B) /\ shaped k B
    /\ forall i j, (i < k)%nat -> (j < k)%nat -> mat B i j = if decide (i = j) then Byte.x01 else Byte.x00.
Proof.
  intros Hsh Hid. pose proof (invert_mat_ok k src Hsh) as Hinv. destruct (invert_mat src k) as [err B].
  assert (nonsingular k (mat src)) as Hns.
  { intros x Hx i Hi. rewrite (image_identity k) in Hx by done. symmetry. by apply Hx. }
  destruct (decide (err = 0)) as [->|Hne]; [|destruct err; [done|destruct Hinv; done..]].
  destruct Hinv as [HshB HB]. exists B. split_and!; [done|done|]. intros i j Hi Hj.
  set (e := fun l : nat => if decide (l = j) then Byte.x01 else Byte.x00).
  assert (image k (mat B) e e) as He by (apply HB, (image_identity k); done).
  specialize (He i Hi). unfold dot in He.
  rewrite (over_gf (@sum_over_ext) _ _ (fun l => if decide (l = j) then mat B i l else Byte.x00)) in He.
  - rewrite (over_gf (@sum_over_delta)) in He; [|apply NoDup_seq|apply elem_of_seq; lia]. by rewrite <-He.
  - intros l _. unfold e. destruct (decide (l = j)); ring.
Qed.

Record rs_ok (rs : reed_solomon) : Prop := {
  ro_data : data_shards rs = Z.of_nat ds;
  ro_parity : parity_shards rs = Z.of_nat ps;
  ro_shards : shards rs = Z.of_nat (ds + ps);
  ro_length : length (rs_m rs) = (ds + ps)%nat;
  ro_row r : (r < ds + ps)%nat -> length (rs_m rs !!! r) = ds;
  ro_m r i : (r < ds + ps)%nat -> (i < ds)%nat -> mat (rs_m rs) r i = generator r i;
  ro_coefs j i : (j < ps)%nat -> (i < ds)%nat -> mat (rs_parity rs) j i = generator (ds + j) i }.

Lemma sub_matrix_row m r0 r1 cols j : (r0 <= r1)%nat -> (r1 <= length m)%nat -> (j < r1 - r0)%nat ->
  (forall r, (r0 <= r < r1)%nat -> length (m !!! r) = cols) -> sub_matrix m r0 0 r1 cols !!! j = m !!! (r0 + j)%nat.
Proof.
  intros Hr Hl Hj Hrow. apply list_lookup_total_correct. unfold sub_matrix. rewrite list_lookup_fmap, lookup_take_lt by lia.
  rewrite lookup_drop, (list_lookup_lookup_total_lt m) by lia. simpl. rewrite drop_0, take_ge; [done|]. rewrite Hrow; lia.
Qed.

(** The loop that writes the Cauchy rows. *)
Lemma parity_loop (m : list (list gf)) : length m = (ds + ps)%nat -> (forall r, (r < ds + ps)%nat -> length (m !!! r) = ds) ->
  let m' := fold_left (fun m j =>
              fold_left (fun m i =>
                <[(ds + j)%nat := <[i := gf_inverse (gf_of (Z.lxor (Z.of_nat ps + Z.of_nat i) (Z.of_nat j)))]> (m !!! (ds + j)%nat)]> m)
                (seq 0 ds) m) (seq 0 ps) m in
  length m' = (ds + ps)%nat /\ (forall r, (r < ds)%nat -> m' !!! r = m !!! r)
  /\ forall j, (j < ps)%nat -> m' !!! (ds + j)%nat = generator (ds + j) <$> seq 0 ds.
Proof.
  intros Hl Hrow m'.
  assert (forall j i, (j < ps)%nat -> (i < ds)%nat ->
    gf_inverse (gf_of (Z.lxor (Z.of_nat ps + Z.of_nat i) (Z.of_nat j))) = generator (ds + j) i) as Hg.
  { intros j i Hj Hi. unfold generator. rewrite decide_False by lia. f_equal. unfold gf_xor, column_point, row_point.
    rewrite !gf_z_of, !Z.mod_small by lia. do 2 f_equal; lia. }
  assert (forall n, (n <= ps)%nat -> let mn := fold_left (fun m j =>
              fold_left (fun m i =>
                <[(ds + j)%nat := <[i := gf_inverse (gf_of (Z.lxor (Z.of_nat ps + Z.of_nat i) (Z.of_nat j)))]> (m !!! (ds + j)%nat)]> m)
                (seq 0 ds) m) (seq 0 n) m in
     mn = fold_left (fun m j => <[(ds + j)%nat := generator (ds + j) <$> seq 0 ds]> m) (seq 0 n) m) as Hfold.
  { induction n as [|n IH]; intros Hn mn; [done|]. unfold mn. rewrite seq_S, !fold_left_app. simpl. rewrite IH by lia.
    set (m1 := fold_left _ (seq 0 n) m). destruct (fold_assign (fun j => generator (ds + j) <$> seq 0 ds) ds n m ltac:(lia)) as (Hl1 & _ & Ho1).
    fold m1 in Hl1, Ho1.
    rewrite (fold_row (fun row i => <[i := gf_inverse (gf_of (Z.lxor (Z.of_nat ps + Z.of_nat i) (Z.of_nat n)))]> row)) by lia.
    f_equal. rewrite (fold_assign_row (fun i => gf_inverse (gf_of (Z.lxor (Z.of_nat ps + Z.of_nat i) (Z.of_nat n))))).
    - apply list_fmap_ext. intros _ i Hi%list_elem_of_lookup_2%elem_of_seq. apply Hg; lia.
    - rewrite Ho1 by lia. apply Hrow. lia. }
  unfold m'. rewrite Hfold by lia.
  destruct (fold_assign (fun j => generator (ds + j) <$> seq 0 ds) ds ps m ltac:(lia)) as (Hl1 & Hg1 & Ho1).
  split_and!; [lia|intros r Hr; apply Ho1; lia|done].
Qed.

Lemma multiply_identity (vm top : list (list gf)) r : (r < length vm)%nat -> (r < ds)%nat ->
  (forall j, (j < ds)%nat -> mat vm r j = if decide (r = j) then Byte.x01 else Byte.x00) ->
  (forall i j, (i < ds)%nat -> (j < ds)%nat -> mat top i j = if decide (i = j) then Byte.x01 else Byte.x00) ->
  forall i, (i < ds)%nat -> mat (multiply1 vm ds top ds) r i = if decide (r = i) then Byte.x01 else Byte.x00.
Proof.
  intros Hr Hrd Hvm Htop i Hi. unfold mat, multiply1.
  rewrite (list_lookup_total_fmap (fun row : list gf => _)) by lia. rewrite fmap_seq by done.
  assert (forall n acc, fold_left (fun tg j => gf_xor tg (gf_mul (vm !!! r !!! j) (top !!! j !!! i))) (seq 0 n) acc
    = gf_xor acc (gsum (seq 0 n) (fun j => gf_mul (mat vm r j) (mat top j i)))) as Hf.
  { induction n as [|n IH]; intros acc; [simpl; ring|]. rewrite seq_S, fold_left_app, IH.
    rewrite (over_gf (@sum_over_app)). simpl. unfold mat. ring. }
  rewrite Hf. rewrite (over_gf (@sum_over_ext) _ _ (fun j => if decide (j = r) then mat top j i else Byte.x00)).
  - rewrite (over_gf (@sum_over_delta)); [|apply NoDup_seq|apply elem_of_seq; lia]. rewrite Htop by done. ring.
  - intros j Hj%elem_of_seq. rewrite Hvm by lia. destruct (decide (r = j)), (decide (j = r)); try congruence; ring.
Qed.
Lemma multiply_rows (a b : list (list gf)) r : (r < length a)%nat ->
  length (multiply1 a ds b ds) = length a /\ length (multiply1 a ds b ds !!! r) = ds.
Proof.
  intros Hr. unfold multiply1. split; [by rewrite length_fmap|].
  rewrite (list_lookup_total_fmap (fun row : list gf => _)) by lia. by rewrite length_fmap, length_seq.
Qed.

Lemma reed_solomon_new_ok malloc_ok : (forall n, (n < 5)%nat -> malloc_ok n = true) ->
  exists rs, reed_solomon_new malloc_ok (Z.of_nat ds) (Z.of_nat ps) = Some rs /\ rs_ok rs.
Proof.
  intros Hm. unfold reed_solomon_new. rewrite !Hm by lia. cbn [negb].
  rewrite i32_small by lia. unfold DATA_SHARDS_MAX.
  rewrite (proj2 (Z.ltb_ge 255 _)), (proj2 (Z.leb_gt (Z.of_nat ds) 0)), (proj2 (Z.leb_gt (Z.of_nat ps) 0)) by lia. cbn [orb].
  rewrite !Nat2Z.id. replace (Z.to_nat (Z.of_nat ds + Z.of_nat ps)) with (ds + ps)%nat by lia.
  set (vm := identity_rows (ds + ps) ds). assert (length vm = (ds + ps)%nat) as Hvl by (unfold vm, identity_rows; by rewrite length_fmap, length_seq).
  assert (forall r, (r < ds + ps)%nat -> length (vm !!! r) = ds) as Hvr.
  { intros r Hr. unfold vm, identity_rows. rewrite fmap_seq by done. by rewrite length_fmap, length_seq. }
  assert (forall r, (r < ds)%nat -> sub_matrix vm 0 0 ds ds !!! r = vm !!! r) as Htop.
  { intros r Hr. apply (sub_matrix_row vm 0 ds ds r); [lia..|]. intros r' Hr'. apply Hvr. lia. }
  destruct (invert_identity ds (sub_matrix vm 0 0 ds ds)) as (top & -> & Hsh & Hid).
  { split; [unfold sub_matrix; rewrite length_fmap, length_take, length_drop; lia|]. intros r Hr. rewrite Htop by done. apply Hvr. lia. }
  { intros r j Hr Hj. unfold mat. rewrite Htop by done. apply identity_rows_mat; lia. }
  cbn [negb Z.eqb]. set (m0 := multiply1 vm ds top ds).
  assert (length m0 = (ds + ps)%nat) as Hl0 by (rewrite <-Hvl; apply (multiply_rows vm top 0); lia).
  destruct (parity_loop m0) as (Hl & Hup & Hlow); [done|intros r Hr; apply (multiply_rows vm top); lia|].
  set (m := fold_left _ (seq 0 ps) m0) in *. eexists. split; [reflexivity|].
  assert (forall r, (r < ds + ps)%nat -> length (m !!! r) = ds) as Hrow.
  { intros r Hr. destruct (decide (r < ds)%nat); [rewrite Hup by done; apply (multiply_rows vm top); lia|].
    replace r with (ds + (r - ds))%nat by lia. rewrite Hlow by lia. by rewrite length_fmap, length_seq. }
  assert (forall r i, (r < ds + ps)%nat -> (i < ds)%nat -> mat m r i = generator r i) as Hgen.
  { intros r i Hr Hi. destruct (decide (r < ds)%nat) as [Hrd|Hrd].
    - unfold mat. rewrite Hup by done. unfold generator. rewrite decide_True by done.
      apply multiply_identity; [lia|done|intros; by apply identity_rows_mat; [lia|]|done|done].
    - unfold mat. replace r with (ds + (r - ds))%nat by lia. rewrite Hlow by lia. by rewrite fmap_seq. }
  split; simpl; [done..|lia|done|done|done|].
  intros j i Hj Hi. unfold mat. rewrite (sub_matrix_row m ds (ds + ps) ds j); [by apply Hgen; [lia|]|lia..|].
  intros r Hr. apply Hrow. lia.
Qed.

(** ** Any choice of enough rows is nonsingular *)

Definition row_dot (r : nat) (x : nat -> gf) : gf := gdot ds (generator r) x.

Lemma points_inj i j : (i < 256)%nat -> (j < 256)%nat -> gf_of (Z.of_nat i) = gf_of (Z.of_nat j) -> i = j.
Proof. intros Hi Hj E. by rewrite <-(gf_nat_of i), <-(gf_nat_of j), E. Qed.

(** Columns and parity rows of equal number. *)
Lemma parity_null (cols rows : list nat) (z : nat -> gf) : NoDup cols -> NoDup rows -> length cols = length rows ->
  (forall i, i ∈ cols -> (i < ds)%nat) -> (forall j, j ∈ rows -> (j < ps)%nat) ->
  (forall j, j ∈ rows -> gsum cols (fun i => gf_mul (generator (ds + j) i) (z i)) = Byte.x00) ->
  forall i, i ∈ cols -> z i = Byte.x00.
Proof.
  intros Hnc Hnr Hlen Hc Hr Hs. set (c := fun x => z (gf_nat x - ps)%nat).
  assert (forall i, i ∈ cols -> c (column_point i) = z i) as Hcz.
  { intros i Hi%Hc. unfold c, column_point. rewrite gf_nat_of by lia. f_equal. lia. }
  assert (forall x, x ∈ column_point <$> cols -> c x = Byte.x00) as Hall.
  { apply (over_gf (@cauchy_null) (column_point <$> cols) (row_point <$> rows)).
    - apply NoDup_fmap_2_strong; [|done]. intros i j Hi%Hc Hj%Hc E. apply points_inj in E; lia.
    - apply NoDup_fmap_2_strong; [|done]. intros i j Hi%Hr Hj%Hr E. apply points_inj in E; lia.
    - by rewrite !length_fmap.
    - intros x y (i & -> & Hi%Hc)%list_elem_of_fmap (j & -> & Hj%Hr)%list_elem_of_fmap E.
      apply (over_gf (@add_eq_0)) in E. apply points_inj in E; lia.
    - intros y (j & -> & Hj)%list_elem_of_fmap. rewrite sum_over_fmap. etransitivity; [|exact (Hs j Hj)]. apply (over_gf (@sum_over_ext)).
      intros i Hi. rewrite Hcz by done. unfold generator. rewrite decide_False by lia.
      replace (ds + j - ds)%nat with j by lia. ring. }
  intros i Hi. rewrite <-Hcz by done. apply Hall. apply list_elem_of_fmap. eauto.
Qed.

Lemma data_row r x : (r < ds)%nat -> row_dot r x = x r.
Proof.
  intros Hr. unfold row_dot, dot. rewrite (over_gf (@sum_over_ext) _ _ (fun j => if decide (j = r) then x j else Byte.x00)).
  - apply (over_gf (@sum_over_delta)); [apply NoDup_seq|apply elem_of_seq; lia].
  - intros j _. unfold generator. rewrite decide_True by done. destruct (decide (r = j)), (decide (j = r)); try congruence; ring.
Qed.
(** A row's value when [x] vanishes outside of some columns. *)
Lemma row_dot_cols r x cols : NoDup cols -> (forall i, i ∈ cols -> (i < ds)%nat) ->
  (forall i, (i < ds)%nat -> i ∉ cols -> x i = Byte.x00) -> row_dot r x = gsum cols (fun i => gf_mul (generator r i) (x i)).
Proof.
  intros Hnd Hc Hz. unfold row_dot, dot. rewrite (over_gf (@sum_over_split) (fun i => i ∈ cols)).
  rewrite (over_gf (@sum_over_0) (filter (fun i => ~ i ∈ cols) _)).
  - rewrite (over_gf (@sum_over_perm) _ cols); [ring|]. apply NoDup_Permutation; [apply NoDup_filter, NoDup_seq|done|].
    intros i. rewrite list_elem_of_filter, elem_of_seq. split; [tauto|]. intros Hi. pose proof (Hc i Hi). split; [done|lia].
  - intros i [Hi Hs%elem_of_seq]%list_elem_of_filter. rewrite Hz by (done || lia). ring.
Qed.

Section chosen.
(** The erased columns, the surviving ones, and as many parity rows. *)
Context (erased surv nos : list nat) (Hsplit : surv ++ erased ≡ₚ seq 0 ds) (Hnos : NoDup nos)
  (Hnos_lt : forall j, j ∈ nos -> (j < ps)%nat) (Hlen : length nos = length erased).
Definition chosen : list nat := surv ++ ((fun j => ds + j)%nat <$> nos).

Lemma split_nodup : NoDup (surv ++ erased).
Proof. rewrite Hsplit. apply NoDup_seq. Qed.
Lemma split_lt i : i ∈ surv \/ i ∈ erased <-> (i < ds)%nat.
Proof. rewrite <-elem_of_app, Hsplit, elem_of_seq. lia. Qed.
Lemma chosen_length : length chosen = ds.
Proof.
  unfold chosen. rewrite length_app, length_fmap, Hlen, <-length_app. by rewrite Hsplit, length_seq.
Qed.

Lemma chosen_null x : (forall r, r ∈ chosen -> row_dot r x = Byte.x00) -> forall i, (i < ds)%nat -> x i = Byte.x00.
Proof.
  intros Hx. pose proof split_nodup as (_ & Hdis & Hne)%NoDup_app.
  assert (forall i, i ∈ surv -> x i = Byte.x00) as Hs.
  { intros i Hi. rewrite <-(data_row i x) by (apply split_lt; auto). apply Hx. unfold chosen. set_solver. }
  assert (forall i, i ∈ erased -> x i = Byte.x00) as He.
  { apply (parity_null erased nos); [done|done|done|intros; apply split_lt; auto|done|].
    intros j Hj. rewrite <-row_dot_cols; [apply Hx; unfold chosen; set_solver|done|intros; apply split_lt; auto|].
    intros i [Hi|Hi]%split_lt Hni; [by apply Hs|done]. }
  intros i [Hi|Hi]%split_lt; auto.
Qed.
(** The solution for the first unit vector has no zero at an erased column. *)
Lemma chosen_first x r0 rest : chosen = r0 :: rest -> row_dot r0 x = Byte.x01 -> (forall r, r ∈ rest -> row_dot r x = Byte.x00) ->
  forall e, e ∈ erased -> x e <> Byte.x00.
Proof.
  intros Hch Hr0 Hrest e He Hxe. pose proof split_nodup as (Hns & Hdis & Hne)%NoDup_app.
  assert (length (filter (fun i => i <> e) erased) = pred (length erased)) as Hle.
  { apply list_elem_of_split in He as (l1 & l2 & E). rewrite E in Hne |- *. rewrite filter_remove by done. rewrite !length_app. simpl. lia. }
  assert (NoDup (filter (fun i => i <> e) erased)) as Hnf by by apply NoDup_filter.
  assert (surv = [] \/ exists i0 s, surv = i0 :: s) as [Esv|(i0 & s & Esv)] by (clear; destruct surv; eauto).
  - assert (exists j0 ns, nos = j0 :: ns) as (j0 & ns & Eno).
    { destruct nos as [|j0 ns]; [|eauto]. symmetry in Hlen. apply nil_length_inv in Hlen. rewrite Hlen in He. set_solver. }
    unfold chosen in Hch. rewrite Esv, Eno in Hch. simpl in Hch. injection Hch as <- <-. pose proof Hnos as Hnd. rewrite Eno in Hnd.
    apply NoDup_cons in Hnd as [Hj0 Hn'].
    assert (forall i, (i < ds)%nat -> i ∉ filter (fun i => i <> e) erased -> x i = Byte.x00) as Hout.
    { intros i [Hi|Hi]%split_lt Hni; [rewrite Esv in Hi; set_solver|]. destruct (decide (i = e)) as [->|]; [done|].
      destruct Hni. by apply list_elem_of_filter. }
    assert (forall i, i ∈ filter (fun i => i <> e) erased -> x i = Byte.x00) as Hz.
    { apply (parity_null _ ns); [done|done|rewrite Hle, <-Hlen, Eno; done|intros i [_ Hi]%list_elem_of_filter; apply split_lt; auto| |].
      - intros j Hj. apply Hnos_lt. rewrite Eno. set_solver.
      - intros j Hj. rewrite <-row_dot_cols; [apply Hrest; set_solver|done|intros i [_ Hi]%list_elem_of_filter; apply split_lt; auto|done]. }
    rewrite (row_dot_cols _ _ []) in Hr0; [done|constructor|set_solver|].
    intros i Hi _. destruct (decide (i ∈ filter (fun i => i <> e) erased)); auto.
  - unfold chosen in Hch. rewrite Esv in Hch. simpl in Hch. injection Hch as <- <-.
    assert (i0 ∈ surv) as Hi0 by (rewrite Esv; set_solver). rewrite data_row in Hr0 by (apply split_lt; auto).
    set (cols := i0 :: filter (fun i => i <> e) erased).
    assert (forall i, i ∈ cols -> (i < ds)%nat) as Hcols.
    { intros i [->|[_ Hi]%list_elem_of_filter]%elem_of_cons; apply split_lt; auto. }
    assert (NoDup cols) as Hnc.
    { apply NoDup_cons. split; [|done]. intros [_ Hi]%list_elem_of_filter. by apply (Hdis i0). }
    enough (x i0 = Byte.x00) by congruence. apply (parity_null cols nos); [done|done| |done|done| |unfold cols; set_solver].
    + simpl. rewrite Hle, Hlen. destruct erased; [set_solver|done].
    + intros j Hj. rewrite <-row_dot_cols; [apply Hrest; set_solver|done|done|].
      intros i [Hi|Hi]%split_lt Hni.
      * pose proof Hi as Hi'. rewrite Esv in Hi'. apply elem_of_cons in Hi' as [->|Hi']; [unfold cols in Hni; set_solver|].
        rewrite <-(data_row i x) by (apply split_lt; auto). apply Hrest. set_solver.
      * destruct (decide (i = e)) as [->|]; [done|]. destruct Hni. right. by apply list_elem_of_filter.
Qed.
End chosen.
End code.
