(* ===== verification/RsShards.v ===== *)
(** * Encoding and reconstructing shards (rs.c, xylem-fec.c)

    What the loops over shards compute, and the theorem that reconstruction returns the
    data whenever as many shards are left as there were data shards. *)

From S2P Require Import Prelude GaloisField LinearAlgebra ReedSolomon RsInvert RsCorrect.
From Stdlib Require Import setoid_ring.Field_theory setoid_ring.Field_tac.

Add Field GFs : gf_field.

(** ** [code_some_shards] *)

Lemma index_inj (l : list nat) i j : NoDup l -> (i < length l)%nat -> (j < length l)%nat -> l !!! i = l !!! j -> i = j.
Proof.
  intros Hnd Hi Hj E. apply (NoDup_lookup l i j (l !!! i)); [done| |rewrite E]; by apply list_lookup_lookup_total_lt.
Qed.

(** One round over the outputs. *)
Lemma outputs_round (g : nat -> list gf -> list gf -> list gf) (outs : list nat) (inp n : nat) (st : store) :
  NoDup outs -> (n <= length outs)%nat -> (forall p, p ∈ outs -> (p < length st)%nat) -> inp ∉ outs ->
  let st' := fold_left (fun st i => <[outs !!! i := g i (st !!! (outs !!! i)) (st !!! inp)]> st) (seq 0 n) st in
  length st' = length st
  /\ (forall i, (i < n)%nat -> st' !!! (outs !!! i) = g i (st !!! (outs !!! i)) (st !!! inp))
  /\ forall p, (forall i, (i < n)%nat -> p <> outs !!! i) -> st' !!! p = st !!! p.
Proof.
  intros Hnd Hn Hlt Hinp. induction n as [|n IH]; [split_and!; [done|lia|done]|]. rewrite seq_S, fold_left_app. simpl.
  destruct IH as (Hl & Hin & Hout); [lia|]. set (st1 := fold_left _ (seq 0 n) st) in *.
  assert (forall i, (i < length outs)%nat -> outs !!! i ∈ outs) as Hel by (intros i Hi; by apply list_elem_of_lookup_total_2).
  assert (st1 !!! inp = st !!! inp) as Einp by (apply Hout; intros i Hi ->; apply Hinp, Hel; lia).
  assert (forall i, (i < n)%nat -> outs !!! i <> outs !!! n) as Hne.
  { intros i Hi E%index_inj; [lia|done|lia|lia]. }
  assert (st1 !!! (outs !!! n) = st !!! (outs !!! n)) as En by (apply Hout; intros i Hi; by apply not_eq_sym, Hne).
  rewrite Einp, En. split_and!.
  - by rewrite length_insert.
  - intros i Hi. destruct (decide (i = n)) as [->|Hin'].
    + rewrite list_lookup_total_insert_eq; [done|]. rewrite Hl. apply Hlt, Hel. lia.
    + rewrite list_lookup_total_insert_ne by (apply not_eq_sym, Hne; lia). apply Hin. lia.
  - intros p Hp. rewrite list_lookup_total_insert_ne by (apply not_eq_sym, Hp; lia). apply Hout. intros i Hi. apply Hp. lia.
Qed.

Section coding.
Context (rows : list (list gf)) (ins outs : list nat) (ds n sz : nat) (st : store).
Context (Hds : (0 < ds)%nat) (Hnd : NoDup outs) (Hn : length outs = n) (Hout_lt : forall p, p ∈ outs -> (p < length st)%nat).
Context (Hdisj : forall c, (c < ds)%nat -> ins !!! c ∉ outs) (Hsz : forall p, (p < length st)%nat -> length (st !!! p) = sz).
Context (Hin_lt : forall c, (c < ds)%nat -> (ins !!! c < length st)%nat).
Context (Hfirst : forall i, (i < n)%nat -> mat rows i 0 <> Byte.x00).

(** Byte [b] of output [i] after [c] columns. *)
Definition coded (c i b : nat) : gf := gsum (seq 0 c) (fun c => gf_mul (mat rows i c) (st !!! (ins !!! c) !!! b)).

Lemma code_columns c : (0 < c <= ds)%nat ->
  let st' := fold_left (fun st c =>
    fold_left (fun st iRow =>
      let out : nat := outs !!! iRow in
      let coef := rows !!! iRow !!! c in
      let f := if (c =? 0)%nat then mul else addmul in
      <[out := f (st !!! out) (st !!! (ins !!! c)) coef sz]> st) (seq 0 n) st) (seq 0 c) st in
  length st' = length st
  /\ (forall i, (i < n)%nat -> length (st' !!! (outs !!! i)) = sz /\ forall b, (b < sz)%nat -> st' !!! (outs !!! i) !!! b = coded c i b)
  /\ forall p, p ∉ outs -> st' !!! p = st !!! p.
Proof.
  assert (forall i, (i < n)%nat -> outs !!! i ∈ outs) as Hel by (intros i Hi; apply list_elem_of_lookup_total_2; lia).
  intros Hc. induction c as [|[|c] IH]; [lia|..].
  - simpl. destruct (outputs_round (fun i d s => mul d s (rows !!! i !!! 0%nat) sz) outs (ins !!! 0%nat) n st) as (Hl & Hi & Ho);
      [done|lia|done|by apply Hdisj|]. split_and!; [done| |].
    + intros i Hin. rewrite Hi by done. unfold mul. rewrite bool_decide_eq_false_2 by (by apply (Hfirst i)).
      pose proof (Hsz _ (Hout_lt _ (Hel i Hin))) as Ho'. pose proof (Hsz _ (Hin_lt 0%nat Hds)) as Hi'.
      rewrite take_ge by lia. rewrite drop_ge, app_nil_r by lia. split; [by rewrite length_fmap|]. intros b Hb.
      rewrite (list_lookup_total_fmap (gf_mul _)) by lia. unfold coded. simpl. unfold mat. ring.
    + intros p Hp. apply Ho. intros i Hin ->. by apply Hp, Hel.
  - rewrite seq_S, fold_left_app. destruct IH as (Hl & Hi & Ho); [lia|]. set (st1 := fold_left _ (seq 0 (S c)) st) in *.
    cbn [fold_left Nat.add Nat.eqb].
    destruct (outputs_round (fun i d s => addmul d s (rows !!! i !!! S c) sz) outs (ins !!! S c) n st1) as (Hl2 & Hi2 & Ho2);
      [done|lia|intros p Hp; rewrite Hl; auto|by apply Hdisj; lia|].
    set (st2 := fold_left _ (seq 0 n) st1) in Hl2, Hi2, Ho2.
    match goal with |- context [fold_left ?f (seq 0 n) st1] => change (fold_left f (seq 0 n) st1) with st2 end.
    split_and!; [lia| |].
    + intros i Hin. rewrite Hi2 by done. destruct (Hi i Hin) as [Hlen Hb]. rewrite (Ho (ins !!! S c)) by (apply Hdisj; lia).
      pose proof (Hsz _ (Hin_lt (S c) ltac:(lia))) as Hi'. split; [by apply addmul_length|]. intros b Hbs.
      rewrite addmul_lookup by done. rewrite Hb by done. unfold coded. rewrite (seq_S (S c)), (over_gf (@sum_over_app)). simpl. unfold mat. ring.
    + intros p Hp. rewrite Ho2, Ho; [done|done|]. intros i Hin ->. by apply Hp, Hel.
Qed.
End coding.

(** ** Selecting rows *)

Lemma sort_id n l : (forall i j, (i < j < n)%nat -> (l !!! i <= l !!! j)%nat) -> sort_erased n (seq 0 n) l = l.
Proof.
  intros Hs. destruct n as [|n]; [done|]. cbn [seq sort_erased]. unfold sort_pass.
  assert (forall js, (forall j, j ∈ js -> (0 < j < S n)%nat) -> fold_left (fun '(swap, l) j =>
    if (l !!! j <? l !!! 0)%nat then (true, <[0%nat := l !!! j]> (<[j := l !!! 0%nat]> l)) else (swap, l)) js (false, l) = (false, l)) as Hp.
  { induction js as [|j js IH]; intros Hj; [done|]. simpl.
    rewrite (proj2 (Nat.ltb_ge _ _)) by (apply Hs; apply Hj; set_solver). apply IH. set_solver. }
  rewrite Hp; [done|]. intros j Hj%elem_of_seq. lia.
Qed.

Section select.
Context (P : nat -> Prop) `{!forall i, Decision (P i)}.

Lemma filter_seq_increasing a n i j x y : (i < j)%nat -> filter P (seq a n) !! i = Some x -> filter P (seq a n) !! j = Some y -> (x < y)%nat.
Proof.
  revert a i j. induction n as [|n IH]; intros a i j Hij; [done|]. simpl. rewrite filter_cons. destruct (decide (P a)).
  - destruct i as [|i], j as [|j]; simpl; try lia; [|apply IH; lia]. intros [= <-] Hy.
    apply list_elem_of_lookup_2 in Hy as Hy'. apply list_elem_of_filter in Hy' as [_ ?%elem_of_seq]. lia.
  - by apply IH.
Qed.
Lemma filter_seq_ge a n i x : filter P (seq a n) !! i = Some x -> (a + i <= x)%nat.
Proof.
  revert a i. induction n as [|n IH]; intros a i; [done|]. simpl. rewrite filter_cons. destruct (decide (P a)).
  - destruct i as [|i]; simpl; [intros [= <-]; lia|]. intros Hx%IH. lia.
  - intros Hx%IH. lia.
Qed.
Lemma filter_seq_at n m : (n < m)%nat ->
  let E := filter P (seq 0 m) in let j := length (filter P (seq 0 n)) in
  ((j <? length E)%nat && (n =? E !!! j)%nat) = bool_decide (P n).
Proof.
  intros Hnm E j. assert (E = filter P (seq 0 n) ++ filter P (seq n (m - n))) as HE.
  { unfold E. rewrite <-filter_app. f_equal. replace m with (n + (m - n))%nat at 1 by lia. by rewrite seq_app. }
  replace (m - n)%nat with (S (m - n - 1)) in HE by lia. cbn [seq] in HE. rewrite filter_cons in HE.
  assert (E !! j = (if decide (P n) then n :: filter P (seq (S n) (m - n - 1)) else filter P (seq (S n) (m - n - 1))) !! 0%nat) as Hj.
  { rewrite HE, lookup_app_r by done. f_equal. unfold j. lia. }
  destruct (decide (P n)) as [Hp|Hp].
  - rewrite bool_decide_eq_true_2 by done. simpl in Hj. pose proof (lookup_lt_Some _ _ _ Hj).
    rewrite (list_lookup_total_correct _ _ _ Hj), Nat.eqb_refl, andb_true_r. by apply Nat.ltb_lt.
  - rewrite bool_decide_eq_false_2 by done. destruct (E !! j) as [x|] eqn:Ex.
    + rewrite (list_lookup_total_correct _ _ _ Ex). symmetry in Hj. apply filter_seq_ge in Hj.
      rewrite (proj2 (Nat.eqb_neq n x)) by lia. apply andb_false_r.
    + apply lookup_ge_None in Ex. by rewrite (proj2 (Nat.ltb_ge _ _)).
Qed.

Context (rs : reed_solomon) (blocks : list nat) (ds : nat) (Hds : data_shards rs = Z.of_nat ds).

Lemma data_rows_spec : let E := filter P (seq 0 ds) in let surv := filter (fun i => ~ P i) (seq 0 ds) in
  data_rows rs blocks E (length E) = ((fun i => rs_m rs !!! i) <$> surv, (fun i => blocks !!! i) <$> surv).
Proof.
  intros E surv. unfold data_rows. rewrite Hds, Nat2Z.id.
  assert (forall n, (n <= ds)%nat -> fold_left (fun '(j, rows, subs) i =>
      if (j <? length E)%nat && (i =? E !!! j)%nat then ((j + 1)%nat, rows, subs)
      else (j, rows ++ [rs_m rs !!! i], subs ++ [blocks !!! i])) (seq 0 n) (0%nat, [], [])
    = (length (filter P (seq 0 n)), (fun i => rs_m rs !!! i) <$> filter (fun i => ~ P i) (seq 0 n),
        (fun i => blocks !!! i) <$> filter (fun i => ~ P i) (seq 0 n))) as Hf.
  { induction n as [|n IH]; intros Hn; [done|]. rewrite seq_S, fold_left_app, IH by lia. cbn [fold_left Nat.add].
    unfold E. rewrite filter_seq_at by lia. rewrite !filter_app, !filter_cons, !filter_nil.
    destruct (decide (P n)) as [Hp|Hp].
    - rewrite bool_decide_eq_true_2 by done. rewrite (decide_False (P := ~ P n)) by tauto. by rewrite length_app, app_nil_r.
    - rewrite bool_decide_eq_false_2 by done. rewrite (decide_True (P := ~ P n)) by done. by rewrite !app_nil_r, !fmap_app. }
  by rewrite Hf.
Qed.

Lemma parity_rows_spec (fec nos : list nat) rows subs : (length rows + length nos = ds)%nat -> length subs = length rows ->
  parity_rows rs ((fun i => fec !!! i) <$> nos) nos (length nos) (rows, subs)
  = (rows ++ ((fun j => rs_m rs !!! (ds + j)%nat) <$> nos), subs ++ ((fun j => fec !!! j) <$> nos)).
Proof.
  intros Hlen Hs. unfold parity_rows. rewrite Hds, Nat2Z.id.
  assert (forall m, (m <= length nos)%nat -> fold_left (fun '(rows, subs) i =>
    if (length rows <? ds)%nat
    then (rows ++ [rs_m rs !!! (ds + nos !!! i)%nat], subs ++ [((fun i => fec !!! i) <$> nos) !!! i]) else (rows, subs)) (seq 0 m) (rows, subs)
    = (rows ++ ((fun j => rs_m rs !!! (ds + j)%nat) <$> take m nos), subs ++ ((fun j => fec !!! j) <$> take m nos))) as Hf.
  { induction m as [|m IH]; intros Hm; [by rewrite take_0, !app_nil_r|]. rewrite seq_S, fold_left_app, IH by lia. cbn [fold_left Nat.add].
    rewrite length_app, length_fmap, length_take, (proj2 (Nat.ltb_lt _ _)) by lia.
    pose proof (list_lookup_lookup_total_lt nos m ltac:(lia)) as Hx. rewrite (take_S_r _ _ _ Hx), !fmap_app, !app_assoc. simpl.
    rewrite (list_lookup_total_fmap (fun i => fec !!! i)) by lia. done. }
  rewrite Hf by lia. by rewrite firstn_all.
Qed.
End select.

Lemma front_rows_spec (E : list nat) n (m : list (list gf)) : (n <= length m)%nat -> (forall i, (i < n)%nat -> (i <= E !!! i)%nat) ->
  let m' := front_rows E n m in length m' = length m /\ (forall i, (i < n)%nat -> m' !!! i = m !!! (E !!! i))
  /\ forall i, (n <= i)%nat -> m' !!! i = m !!! i.
Proof.
  intros Hn HE. unfold front_rows. induction n as [|n IH]; [split_and!; [done|lia|done]|]. rewrite seq_S, fold_left_app. cbn [fold_left Nat.add].
  destruct IH as (Hl & Hi & Ho); [lia|intros; apply HE; lia|]. set (m1 := fold_left _ (seq 0 n) m) in *. split_and!.
  - by rewrite length_insert.
  - intros i Hin. destruct (decide (i = n)) as [->|Hne].
    + rewrite list_lookup_total_insert_eq by lia. apply Ho. apply HE. lia.
    + rewrite list_lookup_total_insert_ne by done. apply Hi. lia.
  - intros i Hin. rewrite list_lookup_total_insert_ne by lia. apply Ho. lia.
Qed.

(** ** Decoding *)

Section decoding.
Context (ds ps : nat) (Hds : (0 < ds)%nat) (Hps : (0 < ps)%nat) (Hmax : (ds + ps <= 255)%nat).
Context (rs : reed_solomon) (Hrs : rs_ok ds ps rs) (P : nat -> Prop) `{!forall i, Decision (P i)}.
Notation erased := (filter P (seq 0 ds)).
Notation surv := (filter (fun i => ~ P i) (seq 0 ds)).
Context (nos : list nat) (Hnos : NoDup nos) (Hnos_lt : forall j, j ∈ nos -> (j < ps)%nat) (Hlen : length nos = length erased).
Notation picked := (chosen ds surv nos).
Notation value := (row_dot ds ps).

Lemma surv_erased : surv ++ erased ≡ₚ seq 0 ds.
Proof.
  clear Hlen. induction (seq 0 ds) as [|x l IH]; [done|]. rewrite !filter_cons. destruct (decide (P x)).
  - rewrite decide_False by tauto. etransitivity; [symmetry; apply Permutation_middle|]. by apply perm_skip.
  - rewrite decide_True by done. simpl. by apply perm_skip.
Qed.
Lemma picked_lt c : (c < ds)%nat -> (picked !!! c < ds + ps)%nat.
Proof.
  intros Hc. assert (picked !!! c ∈ picked) as [Hin|Hin]%elem_of_app.
  { apply list_elem_of_lookup_total_2. rewrite (chosen_length ds erased surv nos surv_erased Hlen). done. }
  - apply list_elem_of_filter in Hin as [_ ?%elem_of_seq]. lia.
  - apply list_elem_of_fmap in Hin as (j & -> & ?%Hnos_lt). lia.
Qed.

(** The matrix that is inverted, and its inverse. *)
Definition picked_rows : list (list gf) := (fun r => rs_m rs !!! r) <$> picked.
Lemma picked_row c : (c < ds)%nat -> picked_rows !!! c = rs_m rs !!! (picked !!! c).
Proof.
  intros Hc. apply (list_lookup_total_fmap (fun r => rs_m rs !!! r)).
  by rewrite (chosen_length ds erased surv nos surv_erased Hlen).
Qed.
Lemma picked_shaped : shaped ds picked_rows.
Proof.
  split; [unfold picked_rows; by rewrite length_fmap, (chosen_length ds erased surv nos surv_erased Hlen)|].
  intros c Hc. rewrite picked_row by done. apply (ro_row _ _ _ Hrs), picked_lt. done.
Qed.
Lemma picked_image x y : image ds (mat picked_rows) x y <-> forall c, (c < ds)%nat -> y c = value (picked !!! c) x.
Proof.
  assert (forall c, (c < ds)%nat -> gdot ds (mat picked_rows c) x = value (picked !!! c) x) as Hd.
  { intros c Hc. apply (over_gf (@sum_over_ext)). intros i Hi%elem_of_seq. unfold mat. rewrite picked_row by done.
    fold (mat (rs_m rs) (picked !!! c) i). rewrite (ro_m _ _ _ Hrs); [done|by apply picked_lt|lia]. }
  unfold image. split; intros Hy c Hc; rewrite Hy, ?Hd by done; done.
Qed.
Lemma picked_inverse : exists B, invert_mat picked_rows ds = (0, B) /\ shaped ds B
  /\ (forall x y, (forall c, (c < ds)%nat -> y c = value (picked !!! c) x) <-> image ds (mat B) y x)
  /\ forall e, e ∈ erased -> mat B e 0 <> Byte.x00.
Proof.
  pose proof (chosen_length ds erased surv nos surv_erased Hlen) as Hpl.
  assert (nonsingular ds (mat picked_rows)) as Hns.
  { intros x Hx. rewrite picked_image in Hx. apply (chosen_null ds ps Hds Hps Hmax erased surv nos surv_erased Hnos Hnos_lt Hlen).
    intros r (c & Hc)%list_elem_of_lookup. pose proof (lookup_lt_Some _ _ _ Hc). rewrite <-(list_lookup_total_correct _ _ _ Hc).
    symmetry. apply Hx. lia. }
  pose proof (invert_mat_ok ds picked_rows picked_shaped) as Hinv. destruct (invert_mat picked_rows ds) as [err B].
  destruct (decide (err = 0)) as [->|Hne]; [|destruct err; [done|destruct Hinv; done..]]. destruct Hinv as [HshB HB].
  assert (forall x y, (forall c, (c < ds)%nat -> y c = value (picked !!! c) x) <-> image ds (mat B) y x) as Hiff
    by (intros x y; by rewrite <-picked_image, HB).
  exists B. split_and!; [done..|]. destruct picked as [|r0 rest] eqn:Ep; [simpl in Hpl; lia|].
  set (unit0 := fun c : nat => if decide (c = 0%nat) then Byte.x01 else Byte.x00).
  assert (image ds (mat B) unit0 (fun i => mat B i 0)) as Him.
  { intros i Hi. unfold dot. rewrite (over_gf (@sum_over_ext) _ _ (fun c => if decide (c = 0%nat) then mat B i c else Byte.x00)).
    - symmetry. apply (over_gf (@sum_over_delta)); [apply NoDup_seq|apply elem_of_seq; lia].
    - intros c _. unfold unit0. destruct (decide (c = 0%nat)); ring. }
  pose proof (proj2 (Hiff (fun i => mat B i 0) unit0) Him) as Hone. clear Him. rename Hone into Him.
  apply (chosen_first ds ps Hds Hps Hmax erased surv nos surv_erased Hnos Hnos_lt Hlen _ r0 rest); [done|exact (eq_sym (Him 0%nat Hds))|].
  intros r (c & Hc)%list_elem_of_lookup. pose proof (lookup_lt_Some _ _ _ Hc). specialize (Him (S c) ltac:(simpl in Hpl; lia)).
  simpl in Him. rewrite (list_lookup_total_correct _ _ _ Hc) in Him. done.
Qed.

Context (blocks : list nat) (st : store) (sz : nat) (d : nat -> nat -> gf).
Context (Hblocks : length blocks = (ds + ps)%nat) (Hnd : NoDup blocks) (Hptr : forall p, p ∈ blocks -> (p < length st)%nat).
Context (Hsz : forall p, (p < length st)%nat -> length (st !!! p) = sz).
(** The shards that are there hold the encoding of the data [d]. *)
Context (Hcode : forall r b, r ∈ picked -> (b < sz)%nat -> st !!! (blocks !!! r) !!! b = value r (fun i => d i b)).

Lemma block_inj r r' : (r < ds + ps)%nat -> (r' < ds + ps)%nat -> blocks !!! r = blocks !!! r' -> r = r'.
Proof. intros Hr Hr'. apply index_inj; [done|lia|lia]. Qed.
Lemma block_lt r : (r < ds + ps)%nat -> (blocks !!! r < length st)%nat.
Proof. intros Hr. apply Hptr, list_elem_of_lookup_total_2. lia. Qed.

Lemma picked_in c : (c < ds)%nat -> picked !!! c ∈ picked.
Proof. intros Hc. apply list_elem_of_lookup_total_2. by rewrite (chosen_length ds erased surv nos surv_erased Hlen). Qed.
Lemma picked_outside c e : (c < ds)%nat -> e ∈ erased -> picked !!! c <> e.
Proof.
  intros Hc [HP He%elem_of_seq]%list_elem_of_filter E. pose proof (picked_in c Hc) as [Hin|Hin]%elem_of_app.
  - apply list_elem_of_filter in Hin as [Hn _]. congruence.
  - apply list_elem_of_fmap in Hin as (j & Hj & _). lia.
Qed.

Lemma decode_ok : exists st',
  reed_solomon_decode rs blocks sz ((fun j => drop ds blocks !!! j) <$> nos) nos erased (length erased) st = (0, st')
  /\ length st' = length st
  /\ (forall e, e ∈ erased -> length (st' !!! (blocks !!! e)) = sz /\ forall b, (b < sz)%nat -> st' !!! (blocks !!! e) !!! b = d e b)
  /\ forall p, p ∉ (fun e => blocks !!! e) <$> erased -> st' !!! p = st !!! p.
Proof.
  pose proof (chosen_length ds erased surv nos surv_erased Hlen) as Hpl. unfold chosen in Hpl. rewrite length_app, length_fmap in Hpl.
  set (E := erased) in *.
  assert (forall i, (i < length E)%nat -> E !!! i ∈ E) as HEin by (intros i Hi; by apply list_elem_of_lookup_total_2).
  assert (forall e, e ∈ E -> (e < ds)%nat) as HE by (intros e [_ ?%elem_of_seq]%list_elem_of_filter; lia).
  unfold reed_solomon_decode. rewrite sort_id.
  2: { intros i j Hij. apply Nat.lt_le_incl, (filter_seq_increasing P 0 ds i j); [lia|apply list_lookup_lookup_total_lt; lia..]. }
  pose proof (data_rows_spec P rs blocks ds (ro_data _ _ _ Hrs)) as Hdr. cbv zeta in Hdr. fold E in Hdr. rewrite Hdr. rewrite <-Hlen.
  rewrite (parity_rows_spec rs ds (ro_data _ _ _ Hrs)) by (rewrite ?length_fmap; lia). clear Hdr.
  assert (((fun i => rs_m rs !!! i) <$> surv) ++ ((fun j => rs_m rs !!! (ds + j)%nat) <$> nos) = picked_rows) as ->
    by (unfold picked_rows, chosen; by rewrite fmap_app, <-list_fmap_compose).
  assert (((fun i => blocks !!! i) <$> surv) ++ ((fun j => drop ds blocks !!! j) <$> nos) = (fun r => blocks !!! r) <$> picked) as ->.
  { unfold chosen. rewrite fmap_app, <-list_fmap_compose. f_equal. apply list_fmap_ext. intros _ j _. apply lookup_total_drop. }
  pose proof picked_shaped as [Hpr _]. rewrite (ro_data _ _ _ Hrs), Nat2Z.id, Hpr, Nat.ltb_irrefl.
  destruct picked_inverse as (B & -> & [HlB HrB] & Hiff & Hne). fold E in Hne. cbn [snd]. rewrite Hlen. eexists. split; [reflexivity|].
  destruct (front_rows_spec E (length E) B) as (Hfl & Hfr & _); [lia|intros i Hi|].
  { pose proof (filter_seq_ge P 0 ds i (E !!! i) ltac:(by apply list_lookup_lookup_total_lt)). lia. }
  assert (((fun i => blocks !!! (E !!! i)) <$> seq 0 (length E)) = (fun e => blocks !!! e) <$> E) as ->.
  { apply list_eq. intros i. rewrite !list_lookup_fmap. destruct (decide (i < length E)%nat).
    - rewrite lookup_seq_lt, (list_lookup_lookup_total_lt E) by done. done.
    - rewrite !lookup_ge_None_2 by (rewrite ?length_seq; lia). done. }
  assert (forall c, (c < ds)%nat -> ((fun r => blocks !!! r) <$> picked) !!! c = blocks !!! (picked !!! c)) as Hins.
  { intros c Hc. apply (list_lookup_total_fmap (fun r => blocks !!! r)). rewrite (chosen_length ds erased surv nos surv_erased Hlen). done. }
  assert (forall i, (i < length E)%nat -> ((fun e => blocks !!! e) <$> E) !!! i = blocks !!! (E !!! i)) as Houts.
  { intros i Hi. by apply (list_lookup_total_fmap (fun r => blocks !!! r)). }
  destruct (code_columns (front_rows E (length E) B) ((fun r => blocks !!! r) <$> picked) ((fun e => blocks !!! e) <$> E) ds (length E) sz st)
    with (c := ds) as (Hcl & Hci & Hco); 
    [done| |by rewrite length_fmap| | |done| | |lia|].
  { apply NoDup_fmap_2_strong; [|apply NoDup_filter, NoDup_seq]. intros x y Hx%HE Hy%HE. apply block_inj; lia. }
  { intros p (e & -> & He%HE)%list_elem_of_fmap. apply block_lt. lia. }
  { intros c Hc (e & Heq & He)%list_elem_of_fmap. rewrite Hins in Heq by done. apply (picked_outside c e Hc He).
    apply block_inj; [by apply picked_lt|pose proof (HE e He); lia|done]. }
  { intros c Hc. rewrite Hins by done. by apply block_lt, picked_lt. }
  { intros i Hi. unfold mat. rewrite Hfr by done. by apply Hne, HEin. }
  split_and!; [exact Hcl| |exact Hco].
  intros e He. apply list_elem_of_lookup in He as [i Hi]. pose proof (lookup_lt_Some _ _ _ Hi) as Hil.
  destruct (Hci i Hil) as [Hl Hb]. rewrite Houts, (list_lookup_total_correct _ _ _ Hi) in Hl, Hb by done. split; [exact Hl|].
  intros b Hbs. rewrite Hb by done. unfold coded.
  pose (y c := st !!! (blocks !!! (picked !!! c)) !!! b).
  assert (image ds (mat B) y (fun i => d i b)) as Him by (apply Hiff; intros c Hc; by apply Hcode; [apply picked_in|]).
  rewrite (Him e) by (apply HE; by eapply list_elem_of_lookup_2). apply (over_gf (@sum_over_ext)). intros c Hc%elem_of_seq.
  rewrite Hins by lia. unfold mat. by rewrite Hfr, (list_lookup_total_correct _ _ _ Hi) by done.
Qed.
End decoding.

(** ** Encoding and reconstructing one group *)

Section group.
Context (ds ps : nat) (Hds : (0 < ds)%nat) (Hps : (0 < ps)%nat) (Hmax : (ds + ps <= 255)%nat).
Context (rs : reed_solomon) (Hrs : rs_ok ds ps rs) (blocks : list nat) (sz : nat).
Context (Hblocks : length blocks = (ds + ps)%nat) (Hnd : NoDup blocks).
(** A store whose buffers have the size of the shards. *)
Definition buffers (st : store) : Prop :=
  (forall p, p ∈ blocks -> (p < length st)%nat) /\ forall p, (p < length st)%nat -> length (st !!! p) = sz.

Lemma generator_nonzero j i : (j < ps)%nat -> (i < ds)%nat -> generator ds ps (ds + j) i <> Byte.x00.
Proof.
  intros Hj Hi E. unfold generator in E. rewrite decide_False in E by lia.
  assert (gf_xor (column_point ps i) (row_point (ds + j - ds)) <> Byte.x00) as Hne.
  { intros E0%(over_gf (@add_eq_0)). apply points_inj in E0; lia. }
  pose proof (gf_inverse_l _ Hne) as E1. by rewrite E, gf_mul_0_l in E1.
Qed.
Lemma nth_block r : (r < ds + ps)%nat -> blocks !!! r ∈ blocks.
Proof. intros Hr. apply list_elem_of_lookup_total_2. lia. Qed.

Lemma encode_ok st : buffers st -> exists st', reed_solomon_encode rs blocks (ds + ps) sz st = (0, st')
  /\ buffers st' /\ length st' = length st
  /\ (forall p, p ∉ drop ds blocks -> st' !!! p = st !!! p)
  /\ forall r b, (r < ds + ps)%nat -> (b < sz)%nat ->
       st' !!! (blocks !!! r) !!! b = row_dot ds ps r (fun i => st !!! (blocks !!! i) !!! b).
Proof.
  intros [Hptr Hsz]. unfold reed_solomon_encode. rewrite (ro_data _ _ _ Hrs), (ro_parity _ _ _ Hrs), (ro_shards _ _ _ Hrs), !Nat2Z.id.
  rewrite Nat.div_same by lia. replace ((ds + ps + (ds + ps) - 1) / (ds + ps))%nat with 1%nat
    by (apply Nat.div_unique with (ds + ps - 1)%nat; lia). cbn [seq fold_left Nat.mul].
  rewrite Nat.add_0_r, Nat.add_0_r, drop_0. eexists. split; [reflexivity|].
  pose proof (take_drop ds blocks) as Htd. assert (length (drop ds blocks) = ps) as Hdl by (rewrite length_drop; lia).
  assert (forall i, (i < ds)%nat -> blocks !!! i ∉ drop ds blocks) as Hdis.
  { intros i Hi Hin. rewrite <-Htd in Hnd. apply NoDup_app in Hnd as (_ & Hd & _). apply (Hd (blocks !!! i)); [|done].
    rewrite <-(lookup_total_take_lt blocks ds i) by done. apply list_elem_of_lookup_total_2. rewrite length_take. lia. }
  destruct (code_columns (rs_parity rs) blocks (drop ds blocks) ds ps sz st) with (c := ds) as (Hl & Hi & Ho);
    [done|by rewrite <-Htd in Hnd; apply NoDup_app in Hnd as (_ & _ & ?)|done|intros p Hp; apply Hptr; rewrite <-Htd; set_solver|done|done| | |lia|].
  { intros c Hc. apply Hptr, nth_block. lia. }
  { intros j Hj. rewrite (ro_coefs _ _ _ Hrs) by done. by apply generator_nonzero. }
  set (st' := fold_left _ (seq 0 ds) st) in *.
  assert (forall j, (j < ps)%nat -> drop ds blocks !!! j = blocks !!! (ds + j)%nat) as Hdrop by (intros; apply lookup_total_drop).
  unfold code_some_shards. fold st'. split_and!; [|done|done|].
  - split; [by rewrite Hl|]. intros p Hp. rewrite Hl in Hp. destruct (decide (p ∈ drop ds blocks)) as [(j & Hj)%list_elem_of_lookup|Hn].
    + pose proof (lookup_lt_Some _ _ _ Hj). rewrite <-(list_lookup_total_correct _ _ _ Hj). apply Hi. lia.
    + rewrite Ho by done. by apply Hsz.
  - intros r b Hr Hb. destruct (decide (r < ds)%nat) as [Hrd|Hrd].
    + rewrite data_row by done. by rewrite Ho by (by apply Hdis).
    + replace r with (ds + (r - ds))%nat by lia. rewrite <-Hdrop by lia. destruct (Hi (r - ds)%nat ltac:(lia)) as [_ Hbytes].
      rewrite Hbytes by done. apply (over_gf (@sum_over_ext)). intros i Hin%elem_of_seq. rewrite (ro_coefs _ _ _ Hrs) by lia. done.
Qed.

(** Reconstruction from what is left of an encoded group. *)
Lemma reconstruct_ok st marks d : buffers st -> length marks = (ds + ps)%nat ->
  (forall r b, (r < ds + ps)%nat -> marks !!! r = 0 -> (b < sz)%nat -> st !!! (blocks !!! r) !!! b = row_dot ds ps r (fun i => d i b)) ->
  let lost := length (filter (fun i => marks !!! i <> 0) (seq 0 ds)) in
  let left := length (filter (fun j => marks !!! (ds + j)%nat = 0) (seq 0 ps)) in
  if (lost <=? left)%nat
  then exists st', reed_solomon_reconstruct rs blocks marks (ds + ps) sz st = (0, st')
    /\ (length st' = length st /\ forall p, (forall i, (i < ds)%nat -> blocks !!! i <> p) -> st' !!! p = st !!! p)
    /\ forall i, (i < ds)%nat -> length (st' !!! (blocks !!! i)) = sz /\ forall b, (b < sz)%nat -> st' !!! (blocks !!! i) !!! b = d i b
  else reed_solomon_reconstruct rs blocks marks (ds + ps) sz st = (-1, st).
Proof.
  intros [Hptr Hsz] Hml Hcode lost left. unfold reed_solomon_reconstruct.
  rewrite (ro_data _ _ _ Hrs), (ro_parity _ _ _ Hrs), (ro_shards _ _ _ Hrs), !Nat2Z.id, Nat.div_same by lia.
  cbn [seq fold_left Nat.mul]. rewrite !Nat.add_0_r, !drop_0.
  unfold erased_of, parity_of. fold lost.
  assert (filter (fun i => drop ds marks !!! i = 0) (seq 0 ps) = filter (fun j => marks !!! (ds + j)%nat = 0) (seq 0 ps)) as ->
    by (apply list_filter_iff; intros j; by rewrite lookup_total_drop).
  set (avail := filter (fun j => marks !!! (ds + j)%nat = 0) (seq 0 ps)) in *. rewrite length_take. fold left.
  assert (forall i, (i < ds)%nat -> marks !!! i = 0 -> length (st !!! (blocks !!! i)) = sz
    /\ forall b, (b < sz)%nat -> st !!! (blocks !!! i) !!! b = d i b) as Hkept.
  { intros i Hi Hmk. split; [apply Hsz, Hptr, nth_block; lia|]. intros b Hb. rewrite Hcode by (done || lia). by rewrite data_row. }
  destruct (Nat.leb_spec lost left) as [Hle|Hgt].
  - replace (lost `min` left)%nat with lost by lia. rewrite Nat.eqb_refl. destruct (Nat.eqb_spec lost 0) as [E0|E0].
    + exists st. split; [done|]. split; [done|]. intros i Hi. apply Hkept; [done|]. apply nil_length_inv in E0.
      destruct (decide (marks !!! i = 0)) as [|Hn]; [done|]. exfalso. eapply not_elem_of_nil. rewrite <-E0.
      apply list_elem_of_filter. split; [exact Hn|apply elem_of_seq; lia].
    + assert (NoDup avail) as Hna by (apply NoDup_filter, NoDup_seq).
      assert (forall j, j ∈ take lost avail -> marks !!! (ds + j)%nat = 0 /\ (j < ps)%nat) as Htk.
      { intros j Hj. assert (j ∈ avail) as [Hm ?%elem_of_seq]%list_elem_of_filter
          by (rewrite <-(take_drop lost avail); set_solver). split; [done|lia]. }
      destruct (decode_ok ds ps Hds Hps Hmax rs Hrs (fun i => marks !!! i <> 0) (take lost avail)) with
        (blocks := blocks) (st := st) (sz := sz) (d := d) as (st' & Hd & Hl & Hdec & Hkeep);
        [by rewrite <-(take_drop lost avail) in Hna; apply NoDup_app in Hna as (? & _)|intros j Hj; by apply Htk|by rewrite length_take; apply Nat.min_l|done|done|done|done| |].
      { intros r b Hr Hb. apply elem_of_app in Hr as [[Hm%dec_stable Hr%elem_of_seq]%list_elem_of_filter|(j & -> & Hj)%list_elem_of_fmap];
          [apply Hcode; [lia|done|done]|]. destruct (Htk j Hj). apply Hcode; [lia|done|done]. }
      fold lost in Hd. rewrite Hd. exists st'. split; [done|]. split.
      { split; [done|]. intros p Hp. apply Hkeep. intros (e & -> & [_ He%elem_of_seq]%list_elem_of_filter)%list_elem_of_fmap. apply (Hp e); [lia|done]. }
      intros i Hi. destruct (decide (marks !!! i = 0)) as [Hm|Hm].
      * rewrite Hkeep; [by apply Hkept|]. intros (e & Heq & [He Hes%elem_of_seq]%list_elem_of_filter)%list_elem_of_fmap.
        assert (i = e) as <-; [|done]. apply (index_inj blocks); [done|lia|lia|done].
      * apply Hdec, list_elem_of_filter. split; [done|apply elem_of_seq; lia].
  - destruct (Nat.eqb_spec lost 0); [lia|]. by rewrite (proj2 (Nat.eqb_neq lost _)) by lia.
Qed.
End group.

(** ** The codec *)

Lemma new_allocates malloc_ok data parity rs : reed_solomon_new malloc_ok data parity = Some rs -> forall n, (n < 5)%nat -> malloc_ok n = true.
Proof.
  unfold reed_solomon_new. destruct (malloc_ok 0%nat) eqn:E0; [|done]. cbn [negb]. destruct (_ || _); [done|].
  destruct (malloc_ok 1%nat) eqn:E1; [|done]. cbn [negb]. destruct (malloc_ok 2%nat) eqn:E2; [|done]. cbn [negb].
  destruct (invert_mat _ _) as [err top]. destruct (negb (err =? 0)); [done|].
  destruct (malloc_ok 3%nat) eqn:E3; [|done]. cbn [negb]. destruct (malloc_ok 4%nat) eqn:E4; [|done]. intros _ n Hn.
  destruct n as [|[|[|[|[|n]]]]]; [done..|lia].
Qed.
Lemma fec_create_some malloc_ok calloc_ok data parity fec : data + parity < 2 ^ 31 ->
  xylem_fec_create malloc_ok calloc_ok data parity = Some fec ->
  0 < data /\ 0 < parity /\ data + parity <= 255 /\ fec_data fec = data /\ fec_parity fec = parity
  /\ rs_ok (Z.to_nat data) (Z.to_nat parity) (fec_rs fec).
Proof.
  intros Hov. unfold xylem_fec_create.
  destruct (Z.leb_spec data 0) as [|Hd]; [done|]. destruct (Z.leb_spec parity 0) as [|Hp]; [done|]. cbn [orb].
  rewrite i32_small by lia. destruct (Z.ltb_spec 255 (data + parity)) as [|Hm]; [done|].
  destruct (reed_solomon_new malloc_ok data parity) as [rs|] eqn:En; [|done]. destruct (_ && _); [|done]. intros [= <-]. simpl.
  split_and!; [lia..|done|done|].
  assert (forall n, (n < 5)%nat -> malloc_ok n = true) as Hok.
  { by apply (new_allocates malloc_ok data parity rs). }
  destruct (reed_solomon_new_ok (Z.to_nat data) (Z.to_nat parity)) with (malloc_ok := malloc_ok) as (rs' & E' & Hrs); [lia..|done|].
  rewrite !Z2Nat.id in E' by lia. congruence.
Qed.

Lemma fec_create_iff malloc_ok calloc_ok data parity : data + parity < 2 ^ 31 ->
  (forall n, malloc_ok n = true) -> (forall n, calloc_ok n = true) ->
  xylem_fec_create malloc_ok calloc_ok data parity = None <-> data <= 0 \/ parity <= 0 \/ 255 < data + parity.
Proof.
  intros Hov Hmal Hcal. split.
  - intros Hn. destruct (decide (data <= 0)); [by left|]. destruct (decide (parity <= 0)); [by right; left|]. right; right.
    apply Znot_ge_lt. intros Hge. unfold xylem_fec_create in Hn.
    rewrite (proj2 (Z.leb_gt data 0)), (proj2 (Z.leb_gt parity 0)) in Hn by lia. cbn [orb] in Hn.
    rewrite i32_small, (proj2 (Z.ltb_ge 255 _)) in Hn by lia.
    destruct (reed_solomon_new_ok (Z.to_nat data) (Z.to_nat parity)) with (malloc_ok := malloc_ok) as (rs & E & _); [lia..|auto|].
    rewrite !Z2Nat.id in E by lia. by rewrite E, !Hcal in Hn.
  - intros Hr. destruct (xylem_fec_create _ _ _ _) as [fec|] eqn:E; [|done]. apply fec_create_some in E; [lia|done].
Qed.

(** C7 The codec for any numbers of shards: creation fails exactly for numbers out of
    the documented range when memory is there; encoding leaves the data alone; and from
    an encoded group in which the marked shards hold anything, reconstruction returns
    zero and restores every data shard if at least as many parity shards are left as
    data shards are lost, and otherwise returns -1 and changes nothing.  The matrix
    inversion it relies on never meets a singular matrix. *)
Theorem fec_correct malloc_ok calloc_ok data parity : data + parity < 2 ^ 31 ->
  ((forall n, malloc_ok n = true) -> (forall n, calloc_ok n = true) ->
     xylem_fec_create malloc_ok calloc_ok data parity = None <-> data <= 0 \/ parity <= 0 \/ 255 < data + parity)
  /\ forall fec dptrs pptrs sz st0 marks st2,
  xylem_fec_create malloc_ok calloc_ok data parity = Some fec ->
  Z.of_nat (length dptrs) = data -> Z.of_nat (length pptrs) = parity -> NoDup (dptrs ++ pptrs) -> 0 < sz < 2 ^ 31 ->
  buffers (dptrs ++ pptrs) (Z.to_nat sz) st0 -> length marks = length (dptrs ++ pptrs) ->
  let '(rc1, st1) := xylem_fec_encode (Some fec) (Some dptrs) (Some pptrs) sz st0 in
  rc1 = 0 /\ (forall p, p ∉ pptrs -> st1 !!! p = st0 !!! p)
  /\ (buffers (dptrs ++ pptrs) (Z.to_nat sz) st2 ->
      (forall r p, (dptrs ++ pptrs) !! r = Some p -> marks !!! r = 0 -> st2 !!! p = st1 !!! p) ->
      let lost := filter (fun i => marks !!! i <> 0) (seq 0 (length dptrs)) in
      let left := filter (fun j => marks !!! (length dptrs + j)%nat = 0) (seq 0 (length pptrs)) in
      let '(rc2, st3) := xylem_fec_reconstruct (Some fec) (Some (dptrs ++ pptrs)) (Some marks) sz st2 in
      if (length lost <=? length left)%nat then rc2 = 0 /\ forall p, p ∈ dptrs -> st3 !!! p = st0 !!! p
      else rc2 = -1 /\ st3 = st2).
Proof.
  intros Hov. split; [by apply fec_create_iff|].
  intros fec dptrs pptrs sz st0 marks st2 Hcr Hdl Hpl Hnd Hsz Hb0 Hml.
  destruct (fec_create_some _ _ _ _ _ Hov Hcr) as (Hd & Hp & Hm & Ed & Ep & Hrs).
  set (ds := length dptrs) in *. set (ps := length pptrs) in *.
  replace (Z.to_nat data) with ds in Hrs by lia. replace (Z.to_nat parity) with ps in Hrs by lia.
  assert (length (dptrs ++ pptrs) = (ds + ps)%nat) as Hbl by (by rewrite length_app).
  assert (drop ds (dptrs ++ pptrs) = pptrs) as Hdr by apply drop_app_length.
  unfold xylem_fec_encode, xylem_fec_reconstruct. rewrite (proj2 (Z.eqb_neq sz 0)), (i32_small sz) by lia. rewrite Ed, Ep.
  rewrite i32_small by lia. replace (Z.to_nat (data + parity)) with (ds + ps)%nat by lia.
  replace (Z.to_nat data) with ds by lia. replace (Z.to_nat parity) with ps by lia. unfold ds at 1, ps at 1. rewrite !firstn_all.
  destruct (encode_ok ds ps) with (rs := fec_rs fec) (blocks := dptrs ++ pptrs) (sz := Z.to_nat sz) (st := st0)
    as (st1 & -> & Hb1 & Hl1 & Hkeep & Hcode); [lia..|done|done|done|done|]. cbn [Z.eqb]. rewrite Hdr in Hkeep.
  split_and!; [done|done|]. intros Hb2 Hag.
  assert (forall r, (r < ds + ps)%nat -> (dptrs ++ pptrs) !! r = Some ((dptrs ++ pptrs) !!! r)) as Hlk
    by (intros r Hr; apply list_lookup_lookup_total_lt; lia).
  pose proof (reconstruct_ok ds ps) as Hrec. specialize (Hrec ltac:(lia) ltac:(lia) ltac:(lia) (fec_rs fec) Hrs (dptrs ++ pptrs) (Z.to_nat sz) Hbl Hnd
    st2 marks (fun i b => st0 !!! ((dptrs ++ pptrs) !!! i) !!! b) Hb2 ltac:(lia)
    ltac:(intros r b Hr Hmk Hb; rewrite (Hag r _ (Hlk r Hr) Hmk); by apply Hcode)). cbv zeta in Hrec.
  destruct (_ <=? _)%nat.
  - destruct Hrec as (st3 & -> & _ & Hres). cbn [Z.eqb]. split; [done|]. intros p (i & Hi)%list_elem_of_lookup. pose proof (lookup_lt_Some _ _ _ Hi) as Hil. fold ds in Hil.
    assert ((dptrs ++ pptrs) !!! i = p) as Ei by (apply list_lookup_total_correct; by rewrite lookup_app_l).
    destruct (Hres i Hil) as [Hlen Hby]. rewrite Ei in Hlen, Hby.
    assert (length (st0 !!! p) = Z.to_nat sz) as Hl0 by (apply (proj2 Hb0), (proj1 Hb0); apply elem_of_app; left; by eapply list_elem_of_lookup_2).
    apply (list_eq_same_length _ _ (Z.to_nat sz)); [done|done|]. intros b x y Hb Hx Hy.
    rewrite (list_lookup_lookup_total_lt (st3 !!! p)) in Hx by lia. rewrite (list_lookup_lookup_total_lt (st0 !!! p)) in Hy by lia.
    rewrite Hby in Hx by done. congruence.
  - by rewrite Hrec.
Qed.

(** Three data shards and two parity shards; the first and the last data shard are lost. *)
Definition demo_fec : xylem_fec_t := default (Fec (RS 0 0 0 [] []) 0 0) (xylem_fec_create (fun _ => true) (fun _ => true) 3 2).
Definition demo_st0 : store :=
  [[Byte.x01; Byte.x02]; [Byte.x10; Byte.x20]; [Byte.xff; Byte.x07]; [Byte.x00; Byte.x00]; [Byte.x00; Byte.x00]].
Definition demo_st1 : store := snd (xylem_fec_encode (Some demo_fec) (Some [0; 1; 2]%nat) (Some [3; 4]%nat) 2 demo_st0).
Definition demo_st2 : store := <[0%nat := [Byte.x55; Byte.xaa]]> (<[2%nat := [Byte.x33; Byte.x33]]> demo_st1).

Lemma fec_correct_witness :
  snd (xylem_fec_reconstruct (Some demo_fec) (Some [0; 1; 2; 3; 4]%nat) (Some [1; 0; 1; 0; 0]) 2 demo_st2) !!! 2%nat = [Byte.xff; Byte.x07].
Proof.
  pose proof (proj2 (fec_correct (fun _ => true) (fun _ => true) 3 2 ltac:(lia)) demo_fec [0; 1; 2]%nat [3; 4]%nat 2
    demo_st0 [1; 0; 1; 0; 0] demo_st2 ltac:(vm_compute; reflexivity) eq_refl eq_refl ltac:(by apply (bool_decide_unpack _); vm_compute)
    ltac:(lia)) as H.
  assert (forall st, st = demo_st0 \/ st = demo_st2 -> buffers [0; 1; 2; 3; 4]%nat 2 st) as Hb.
  { intros st [-> | ->]; (split; [intros p Hp; repeat (apply elem_of_cons in Hp as [->|Hp]; [vm_compute; lia|]); by apply elem_of_nil in Hp|];
      intros [|[|[|[|[|p]]]]] Hp; [vm_compute; reflexivity..|vm_compute in Hp; lia]). }
  specialize (H (Hb _ (or_introl eq_refl)) eq_refl).
  assert (xylem_fec_encode (Some demo_fec) (Some [0; 1; 2]%nat) (Some [3; 4]%nat) 2 demo_st0 = (0, demo_st1)) as E1 by (vm_compute; reflexivity).
  rewrite E1 in H. destruct H as (_ & _ & H). specialize (H (Hb _ (or_intror eq_refl))).
  destruct (xylem_fec_reconstruct _ _ _ _ _) as [rc st3] eqn:E2.
  change (snd (rc, st3)) with st3. apply H.
  - intros [|[|[|[|[|r]]]]] p Hp Hm; simpl in Hp; try discriminate Hp; injection Hp as <-; try discriminate Hm; vm_compute; reflexivity.
  - repeat constructor.
Defined.
