(* ===== verification/MuxFrame.v ===== *)
(** * Multiplexer frames and streams (src/net/mux/mux-frame.c, mux-stream.c)

    The 12-byte frame header with its encoder and decoder, and the stream object with
    the operations of mux-stream.c, each of which is one section under the lock of the
    stream.  [recv_buf] is the first [recv_len] bytes of the buffer, the only ones that
    are read; sizes stay below [2^63], so the doubling of the capacity does not wrap. *)

From S2P Require Import Prelude.

(** ** Frames *)

Definition MUX_FRAME_HDR_SIZE : nat := 12.
Definition MUX_PROTO_VERSION : Z := 0.
Definition MUX_TYPE_DATA : Z := 0.
Definition MUX_TYPE_WINDOW_UPDATE : Z := 1.
Definition MUX_TYPE_PING : Z := 2.
Definition MUX_TYPE_GO_AWAY : Z := 3.
Definition MUX_FLAG_SYN : Z := 1.
Definition MUX_FLAG_ACK : Z := 2.
Definition MUX_FLAG_FIN : Z := 4.
Definition MUX_FLAG_RST : Z := 8.

Record _mux_frame_hdr_t := Hdr { version : Z; type : Z; flags : Z; stream_id : Z; length_ : Z }.
#[export] Instance mux_frame_hdr_eq : EqDecision _mux_frame_hdr_t.
Proof. solve_decision. Defined.

Definition mux_frame_encode (hdr : _mux_frame_hdr_t) : list Z :=
  [version hdr; type hdr;
   u8 (Z.shiftr (flags hdr) 8); u8 (flags hdr);
   u8 (Z.shiftr (stream_id hdr) 24); u8 (Z.shiftr (stream_id hdr) 16); u8 (Z.shiftr (stream_id hdr) 8); u8 (stream_id hdr);
   u8 (Z.shiftr (length_ hdr) 24); u8 (Z.shiftr (length_ hdr) 16); u8 (Z.shiftr (length_ hdr) 8); u8 (length_ hdr)].

Definition mux_frame_decode (buf : list Z) : _mux_frame_hdr_t :=
  let b i := nth i buf 0 in
  Hdr (b 0%nat) (b 1%nat)
    (u16 (Z.lor (u16 (Z.shiftl (b 2%nat) 8)) (b 3%nat)))
    (Z.lor (Z.lor (Z.lor (u32 (Z.shiftl (b 4%nat) 24)) (u32 (Z.shiftl (b 5%nat) 16))) (u32 (Z.shiftl (b 6%nat) 8))) (b 7%nat))
    (Z.lor (Z.lor (Z.lor (u32 (Z.shiftl (b 8%nat) 24)) (u32 (Z.shiftl (b 9%nat) 16))) (u32 (Z.shiftl (b 10%nat) 8))) (b 11%nat)).

(** The fields fit their C types. *)
Definition hdr_ok (h : _mux_frame_hdr_t) : Prop :=
  byte (version h) /\ byte (type h) /\ ubound 16 (flags h) /\ ubound 32 (stream_id h) /\ ubound 32 (length_ h).
#[export] Instance hdr_ok_dec h : Decision (hdr_ok h) := ltac:(unfold hdr_ok, ubound; apply _).

Lemma join_bytes4 a b c d : byte a -> byte b -> byte c -> byte d ->
  Z.lor (Z.lor (Z.lor (u32 (Z.shiftl a 24)) (u32 (Z.shiftl b 16))) (u32 (Z.shiftl c 8))) d
  = a * 2 ^ 24 + b * 2 ^ 16 + c * 2 ^ 8 + d.
Proof.
  unfold byte. intros. rewrite !Z.shiftl_mul_pow2 by lia. rewrite !uwrap_small by (unfold ubound; lia).
  pose proof (lor_bytes8 0 0 0 0 a b c d) as Hl. rewrite !Z.mul_0_l, !Z.lor_0_l, !Z.add_0_l in Hl. apply Hl; unfold byte; lia.
Qed.

Lemma split_bytes4 x : ubound 32 x ->
  u8 (Z.shiftr x 24) * 2 ^ 24 + u8 (Z.shiftr x 16) * 2 ^ 16 + u8 (Z.shiftr x 8) * 2 ^ 8 + u8 x = x.
Proof. unfold ubound, uwrap. intros. rewrite !shiftr_div by lia. zdm. Qed.

Lemma mux_frame_roundtrip h rest : hdr_ok h -> mux_frame_decode (mux_frame_encode h ++ rest) = h.
Proof.
  destruct h as [v t fl i l]. unfold hdr_ok, mux_frame_decode, mux_frame_encode. cbn -[Z.shiftr Z.shiftl Z.pow uwrap].
  intros (Hv & Ht & Hf & Hi & Hl). rewrite !join_bytes4 by apply u8_byte. rewrite !split_bytes4 by done. f_equal.
  assert (0 <= fl / 2 ^ 8 < 256) by (unfold ubound in Hf; zdm). unfold ubound in Hf.
  rewrite shiftr_div, (uwrap_small 8 (fl / _)) by (unfold ubound; lia).
  rewrite Z.shiftl_mul_pow2 by lia. rewrite (uwrap_small 16 (_ * _)) by (unfold ubound; lia).
  rewrite lor_low by (pose proof (u8_byte fl); unfold byte in *; lia). rewrite uwrap_small by (unfold ubound, uwrap; zdm). unfold uwrap; zdm.
Qed.

(** ** Streams *)

Inductive _mux_stream_state_t :=
  MUX_STREAM_INIT | MUX_STREAM_SYN_SENT | MUX_STREAM_ESTABLISHED | MUX_STREAM_LOCAL_CLOSE | MUX_STREAM_REMOTE_CLOSE | MUX_STREAM_CLOSED.
#[export] Instance mux_stream_state_eq : EqDecision _mux_stream_state_t.
Proof. solve_decision. Defined.

(** Waiters are coroutine numbers. *)
Record xylem_mux_stream_s := Stream {
  id : Z; state : _mux_stream_state_t; recv_buf : list Z; recv_cap : nat; recv_window : Z; recv_waiter : option nat;
  send_window : Z; send_waiter : option nat; rd_deadline : Z; wr_deadline : Z; closed : bool; refcnt : Z }.
Notation recv_len s := (length (recv_buf s)).

Definition with_state (st : _mux_stream_state_t) (s : xylem_mux_stream_s) : xylem_mux_stream_s :=
  Stream (id s) st (recv_buf s) (recv_cap s) (recv_window s) (recv_waiter s) (send_window s) (send_waiter s) (rd_deadline s) (wr_deadline s) (closed s) (refcnt s).
Definition with_recv (buf : list Z) (cap : nat) (win : Z) (s : xylem_mux_stream_s) : xylem_mux_stream_s :=
  Stream (id s) (state s) buf cap win (recv_waiter s) (send_window s) (send_waiter s) (rd_deadline s) (wr_deadline s) (closed s) (refcnt s).
Definition with_send (win : Z) (s : xylem_mux_stream_s) : xylem_mux_stream_s :=
  Stream (id s) (state s) (recv_buf s) (recv_cap s) (recv_window s) (recv_waiter s) win (send_waiter s) (rd_deadline s) (wr_deadline s) (closed s) (refcnt s).
Definition with_waiters (rw sw : option nat) (s : xylem_mux_stream_s) : xylem_mux_stream_s :=
  Stream (id s) (state s) (recv_buf s) (recv_cap s) (recv_window s) rw (send_window s) sw (rd_deadline s) (wr_deadline s) (closed s) (refcnt s).
Definition with_closed (s : xylem_mux_stream_s) : xylem_mux_stream_s :=
  Stream (id s) (state s) (recv_buf s) (recv_cap s) (recv_window s) (recv_waiter s) (send_window s) (send_waiter s) (rd_deadline s) (wr_deadline s) true (refcnt s).
Definition with_deadlines (rd wr : Z) (s : xylem_mux_stream_s) : xylem_mux_stream_s :=
  Stream (id s) (state s) (recv_buf s) (recv_cap s) (recv_window s) (recv_waiter s) (send_window s) (send_waiter s) rd wr (closed s) (refcnt s).
Definition with_refcnt (n : Z) (s : xylem_mux_stream_s) : xylem_mux_stream_s :=
  Stream (id s) (state s) (recv_buf s) (recv_cap s) (recv_window s) (recv_waiter s) (send_window s) (send_waiter s) (rd_deadline s) (wr_deadline s) (closed s) n.

(** [calloc_ok] says whether the two allocations succeed. *)
Definition mux_stream_create (calloc_ok : bool * bool) (id window : Z) : option xylem_mux_stream_s :=
  if fst calloc_ok && snd calloc_ok
  then Some (Stream id MUX_STREAM_INIT [] (Z.to_nat window) window None window None 0 0 false 1)
  else None.

(** One reference for a slot of the array, the handle of the user and every call in
    progress: far fewer than [2^31].  The object is freed when the count reaches zero,
    which is how a freed object is recognised. *)
Definition mux_stream_ref (s : xylem_mux_stream_s) : xylem_mux_stream_s := with_refcnt (refcnt s + 1) s.
Definition mux_stream_unref (s : xylem_mux_stream_s) : xylem_mux_stream_s := with_refcnt (refcnt s - 1) s.

Definition _mux_stream_detach_recv (s : xylem_mux_stream_s) : xylem_mux_stream_s * option nat :=
  (with_waiters None (send_waiter s) s, recv_waiter s).
Definition _mux_stream_detach_send (s : xylem_mux_stream_s) : xylem_mux_stream_s * option nat :=
  (with_waiters (recv_waiter s) None s, send_waiter s).

(** [while (new_cap < need) new_cap *= 2]; [need] rounds are enough from a positive
    capacity. *)
Fixpoint grow (fuel new_cap need : nat) : nat :=
  match fuel with
  | O => new_cap
  | S fuel => if (new_cap <? need)%nat then grow fuel (2 * new_cap) need else new_cap
  end.
Definition mux_stream_push_data (realloc_ok : bool) (data : list Z) (s : xylem_mux_stream_s) : xylem_mux_stream_s * option nat :=
  if (length data =? 0)%nat then (s, None)
  else
    let need := (recv_len s + length data)%nat in
    if (recv_cap s <? need)%nat && negb realloc_ok then (s, None)
    else
      let cap := if (recv_cap s <? need)%nat then grow need (2 * recv_cap s) need else recv_cap s in
      _mux_stream_detach_recv (with_recv (recv_buf s ++ data) cap (u32 (recv_window s - u32 (Z.of_nat (length data)))) s).

Definition mux_stream_update_send_window (delta : Z) (s : xylem_mux_stream_s) : xylem_mux_stream_s * option nat :=
  _mux_stream_detach_send (with_send (u32 (send_window s + delta)) s).

Definition mux_stream_notify_remote_fin (s : xylem_mux_stream_s) : xylem_mux_stream_s * option nat :=
  _mux_stream_detach_recv
    (match state s with
     | MUX_STREAM_ESTABLISHED => with_state MUX_STREAM_REMOTE_CLOSE s
     | MUX_STREAM_LOCAL_CLOSE => with_state MUX_STREAM_CLOSED s
     | _ => s
     end).

Definition mux_stream_notify_reset (s : xylem_mux_stream_s) : xylem_mux_stream_s * (option nat * option nat) :=
  let '(s, recv) := _mux_stream_detach_recv (with_closed (with_state MUX_STREAM_CLOSED s)) in
  let '(s, send) := _mux_stream_detach_send s in
  (s, (recv, send)).

(** The doubling reaches what is needed. *)
Lemma grow_enough fuel cap need : (0 < cap)%nat -> (need <= cap + fuel)%nat -> (need <= grow fuel cap need)%nat.
Proof.
  revert cap. induction fuel as [|fuel IH]; intros cap Hc Hn; simpl; [lia|].
  destruct (Nat.ltb_spec cap need); [|done]. apply IH; lia.
Qed.
(** The copy of [mux_stream_push_data] stays inside the buffer. *)
Lemma push_data_fits realloc_ok data s : (recv_len s <= recv_cap s)%nat -> (0 < recv_cap s)%nat ->
  let s' := fst (mux_stream_push_data realloc_ok data s) in (recv_len s' <= recv_cap s')%nat /\ (0 < recv_cap s')%nat.
Proof.
  intros Hf Hc. unfold mux_stream_push_data. destruct (Nat.eqb_spec (length data) 0); [done|].
  destruct (Nat.ltb_spec (recv_cap s) (recv_len s + length data)); destruct realloc_ok; try done;
    cbn -[grow Nat.mul]; rewrite length_app; [|split; lia..].
  pose proof (grow_enough (recv_len s + length data) (2 * recv_cap s) (recv_len s + length data) ltac:(lia) ltac:(lia)). lia.
Qed.
