(* ===== verification/Mux.v ===== *)
(** * Multiplexer sessions (src/net/mux/xylem-mux.c)

    Two sessions, the two ends of one connection, with their reader coroutines and any
    number of user coroutines.  Every section under a lock, every access of an atomic
    flag and every transport call is a step.  A transport end passes bytes on in order
    until it is cut, by [close_fn] or by the environment; from then on its reads and
    writes fail.  [_mux_read_full] waits for all the bytes it wants.

    Coroutines park and are made ready through the scheduler of [Parking].  Whoever takes
    a waiter off a stream makes it ready after leaving the lock of the stream, as a step
    of its own, and the waiter goes on only when it has been made ready.  Waiting for the
    write mutex, for a new stream and for bytes of the peer is a step that is not possible
    yet.  The answers of the allocator are part of a step.  The codes the calls return are
    not recorded. *)

From S2P Require Import Prelude Interleave Parking MuxFrame.

Definition MUX_DEFAULT_WINDOW : Z := 262144.
Definition MUX_MAX_FRAME_PAYLOAD : Z := 65535.

(** ** The session object

    Streams are known by their handles, their positions in the heap. *)

Record xylem_mux_s := Mux {
  next_stream_id : Z; max_stream_window : Z; streams : list nat; stream_cap : nat;
  mux_closed : bool; reader_done : bool; accept_ch : list nat; accept_closed : bool }.

Definition with_streams (l : list nat) (cap : nat) (m : xylem_mux_s) : xylem_mux_s :=
  Mux (next_stream_id m) (max_stream_window m) l cap (mux_closed m) (reader_done m) (accept_ch m) (accept_closed m).
Definition with_next (i : Z) (m : xylem_mux_s) : xylem_mux_s :=
  Mux i (max_stream_window m) (streams m) (stream_cap m) (mux_closed m) (reader_done m) (accept_ch m) (accept_closed m).
Definition with_mux_closed (m : xylem_mux_s) : xylem_mux_s :=
  Mux (next_stream_id m) (max_stream_window m) (streams m) (stream_cap m) true (reader_done m) (accept_ch m) (accept_closed m).
Definition with_reader_done (m : xylem_mux_s) : xylem_mux_s :=
  Mux (next_stream_id m) (max_stream_window m) (streams m) (stream_cap m) (mux_closed m) true (accept_ch m) (accept_closed m).
Definition with_accept (l : list nat) (m : xylem_mux_s) : xylem_mux_s :=
  Mux (next_stream_id m) (max_stream_window m) (streams m) (stream_cap m) (mux_closed m) (reader_done m) l (accept_closed m).
Definition with_accept_closed (m : xylem_mux_s) : xylem_mux_s :=
  Mux (next_stream_id m) (max_stream_window m) (streams m) (stream_cap m) (mux_closed m) (reader_done m) (accept_ch m) true.

Notation heap_t := (list xylem_mux_stream_s).

Definition has_id (heap : heap_t) (i : Z) (h : nat) : bool :=
  match heap !! h with Some s => id s =? i | None => false end.
Definition _mux_find_stream (m : xylem_mux_s) (heap : heap_t) (i : Z) : option nat := List.find (has_id heap i) (streams m).

Definition _mux_add_stream (realloc_ok : bool) (h : nat) (m : xylem_mux_s) : Z * xylem_mux_s :=
  if (length (streams m) =? stream_cap m)%nat then
    let new_cap := if (stream_cap m =? 0)%nat then 16%nat else (stream_cap m * 2)%nat in
    if realloc_ok then (0, with_streams (streams m ++ [h]) new_cap m) else (-1, m)
  else (0, with_streams (streams m ++ [h]) (stream_cap m) m).

(** What the allocator answers in a step: for a stream object, for a buffer, and for the
    array of streams. *)
Record answers := Answers { a_object : bool; a_buffer : bool; a_array : bool }.
Definition yes : answers := Answers true true true.
Definition granted_all (a : answers) : bool := a_object a && a_buffer a && a_array a.

(** [mux_stream_create] followed by the store of the state. *)
Definition new_stream (a : answers) (m : xylem_mux_s) (i : Z) : option xylem_mux_stream_s :=
  with_state MUX_STREAM_ESTABLISHED <$> mux_stream_create (a_object a, a_buffer a) i (max_stream_window m).

(** The section of [_mux_accept_syn] under the lock; the flag says that the stream is new.
    The result of [_mux_add_stream] is not looked at. *)
Definition _mux_accept_syn (a : answers) (i : Z) (m : xylem_mux_s) (heap : heap_t) : option nat * bool * xylem_mux_s * heap_t :=
  if mux_closed m then (None, false, m, heap)
  else
    match _mux_find_stream m heap i with
    | Some h => (Some h, false, m, heap)
    | None =>
        match new_stream a m i with
        | Some s => let h := length heap in (Some h, true, snd (_mux_add_stream (a_array a) h m), heap ++ [mux_stream_ref s])
        | None => (None, false, m, heap)
        end
    end.

(** ** Control points *)

(** A header with the bytes that follow it. *)
Notation frame := (_mux_frame_hdr_t * list Z)%type.
Definition wire_of (f : frame) : list Z := mux_frame_encode (fst f) ++ snd f.

(** What follows when a session has been closed. *)
Inductive after := ToIdle | ToTeardown | ToDestroy.
(** What follows when a frame has been written. *)
Inductive cont :=
| KOpen (h : nat) | KWrite (h chunk : nat) (rest : list Z) | KRead (h : nat) | KReader | KFin (h : nat) | KGoAway (a : after).

Inductive mux_pc :=
| Idle
| FLock (f : frame) (k : cont) | FTry (f : frame) (k : cont)
| FHdr (f : frame) (k : cont) | FPay (f : frame) (k : cont) | FUnlock (rc : Z) (k : cont)
| OTake | OAdd (h : nat)
| Accept | AcceptRecv
| Rd (h : nat) (len : Z) | RdTest (h : nat) (len : Z) (st : _mux_stream_state_t) | RdCommit (h : nat) (len : Z) | RdParked (h : nat) (len : Z)
| Wr (h : nat) (rest : list Z) | WrCommit (h : nat) (rest : list Z) | WrParked (h : nat) (rest : list Z) | WrSub (h chunk : nat) (rest : list Z)
| Unref (n h : nat)
| Cs (h : nat) | CsState (h : nat)
| Cl (a : after) | ClCount (a : after) | ClReset (i n : nat) (a : after) | ClTransport (a : after)
| DWait
| LTop | LHdr | LDisp (hdr : _mux_frame_hdr_t) | LFind (hdr : _mux_frame_hdr_t) | LSyn (hdr : _mux_frame_hdr_t)
| LSend (hdr : _mux_frame_hdr_t) (h : nat) | LBody (hdr : _mux_frame_hdr_t) (oh : option nat)
| LPush (hdr : _mux_frame_hdr_t) (h : nat) (payload : list Z) | LFin (hdr : _mux_frame_hdr_t) (h : nat) | LRst (hdr : _mux_frame_hdr_t) (h : nat)
| LWuFind (hdr : _mux_frame_hdr_t) | LWu (hdr : _mux_frame_hdr_t) (h : nat)
| TdChan | TdDone | LDone.

(** ** One end of the connection

    [out] are the bytes written and not yet read by the peer, [owned] the handles the
    user holds, [coros] the states of the coroutines in the scheduler and [detached] the
    waiters a coroutine has taken off a stream and is about to make ready, with that
    coroutine.  The rest is bookkeeping: [pend] the frames whose header is in [out], [cur]
    the payload that follows the header this end has read last, the data written and
    returned by reads, the windows granted to the peer and credited by it, the streams for
    which a frame was dropped, the handles whose user reference is lost, and [bad] after
    an access to freed or uninitialised memory, or an [abort]. *)
Record side := Side {
  mx : xylem_mux_s; heap : heap_t; out : list Z; cut : bool; write_mu : bool; procs : list mux_pc; freed : bool; destroying : bool;
  owned : list nat; coros : list context; detached : list (nat * nat);
  pend : list frame; cur : list Z; wrote : list (Z * list Z); took : list (Z * list Z);
  granted : list (Z * Z); credited : list (Z * Z); dropped : list Z; leaked : list nat; bad : bool }.

Definition set_mx (m : xylem_mux_s) (s : side) : side :=
  Side m (heap s) (out s) (cut s) (write_mu s) (procs s) (freed s) (destroying s) (owned s) (coros s) (detached s) (pend s) (cur s) (wrote s) (took s) (granted s) (credited s) (dropped s) (leaked s) (bad s).
Definition set_heap (hp : heap_t) (s : side) : side :=
  Side (mx s) hp (out s) (cut s) (write_mu s) (procs s) (freed s) (destroying s) (owned s) (coros s) (detached s) (pend s) (cur s) (wrote s) (took s) (granted s) (credited s) (dropped s) (leaked s) (bad s).
Definition set_out (o : list Z) (fs : list frame) (s : side) : side :=
  Side (mx s) (heap s) o (cut s) (write_mu s) (procs s) (freed s) (destroying s) (owned s) (coros s) (detached s) fs (cur s) (wrote s) (took s) (granted s) (credited s) (dropped s) (leaked s) (bad s).
Definition set_cut (s : side) : side :=
  Side (mx s) (heap s) (out s) true (write_mu s) (procs s) (freed s) (destroying s) (owned s) (coros s) (detached s) (pend s) (cur s) (wrote s) (took s) (granted s) (credited s) (dropped s) (leaked s) (bad s).
Definition set_mu (b : bool) (s : side) : side :=
  Side (mx s) (heap s) (out s) (cut s) b (procs s) (freed s) (destroying s) (owned s) (coros s) (detached s) (pend s) (cur s) (wrote s) (took s) (granted s) (credited s) (dropped s) (leaked s) (bad s).
Definition at_pc (p : nat) (pc : mux_pc) (s : side) : side :=
  Side (mx s) (heap s) (out s) (cut s) (write_mu s) (<[p := pc]> (procs s)) (freed s) (destroying s) (owned s) (coros s) (detached s) (pend s) (cur s) (wrote s) (took s) (granted s) (credited s) (dropped s) (leaked s) (bad s).
Definition set_freed (s : side) : side :=
  Side (mx s) (heap s) (out s) (cut s) (write_mu s) (procs s) true (destroying s) (owned s) (coros s) (detached s) (pend s) (cur s) (wrote s) (took s) (granted s) (credited s) (dropped s) (leaked s) (bad s).
Definition set_destroying (s : side) : side :=
  Side (mx s) (heap s) (out s) (cut s) (write_mu s) (procs s) (freed s) true (owned s) (coros s) (detached s) (pend s) (cur s) (wrote s) (took s) (granted s) (credited s) (dropped s) (leaked s) (bad s).
Definition set_owned (l : list nat) (s : side) : side :=
  Side (mx s) (heap s) (out s) (cut s) (write_mu s) (procs s) (freed s) (destroying s) l (coros s) (detached s) (pend s) (cur s) (wrote s) (took s) (granted s) (credited s) (dropped s) (leaked s) (bad s).
Definition set_coros (w : list context) (s : side) : side :=
  Side (mx s) (heap s) (out s) (cut s) (write_mu s) (procs s) (freed s) (destroying s) (owned s) w (detached s) (pend s) (cur s) (wrote s) (took s) (granted s) (credited s) (dropped s) (leaked s) (bad s).
Definition set_detached (l : list (nat * nat)) (s : side) : side :=
  Side (mx s) (heap s) (out s) (cut s) (write_mu s) (procs s) (freed s) (destroying s) (owned s) (coros s) l (pend s) (cur s) (wrote s) (took s) (granted s) (credited s) (dropped s) (leaked s) (bad s).
Definition set_cur (l : list Z) (s : side) : side :=
  Side (mx s) (heap s) (out s) (cut s) (write_mu s) (procs s) (freed s) (destroying s) (owned s) (coros s) (detached s) (pend s) l (wrote s) (took s) (granted s) (credited s) (dropped s) (leaked s) (bad s).
Definition note_wrote (l : list (Z * list Z)) (s : side) : side :=
  Side (mx s) (heap s) (out s) (cut s) (write_mu s) (procs s) (freed s) (destroying s) (owned s) (coros s) (detached s) (pend s) (cur s) (wrote s ++ l) (took s) (granted s) (credited s) (dropped s) (leaked s) (bad s).
Definition note_took (i : Z) (l : list Z) (s : side) : side :=
  Side (mx s) (heap s) (out s) (cut s) (write_mu s) (procs s) (freed s) (destroying s) (owned s) (coros s) (detached s) (pend s) (cur s) (wrote s) (took s ++ [(i, l)]) (granted s) (credited s) (dropped s) (leaked s) (bad s).
Definition note_granted (i d : Z) (s : side) : side :=
  Side (mx s) (heap s) (out s) (cut s) (write_mu s) (procs s) (freed s) (destroying s) (owned s) (coros s) (detached s) (pend s) (cur s) (wrote s) (took s) (granted s ++ [(i, d)]) (credited s) (dropped s) (leaked s) (bad s).
Definition note_credited (i d : Z) (s : side) : side :=
  Side (mx s) (heap s) (out s) (cut s) (write_mu s) (procs s) (freed s) (destroying s) (owned s) (coros s) (detached s) (pend s) (cur s) (wrote s) (took s) (granted s) (credited s ++ [(i, d)]) (dropped s) (leaked s) (bad s).
Definition note_dropped (i : Z) (s : side) : side :=
  Side (mx s) (heap s) (out s) (cut s) (write_mu s) (procs s) (freed s) (destroying s) (owned s) (coros s) (detached s) (pend s) (cur s) (wrote s) (took s) (granted s) (credited s) (i :: dropped s) (leaked s) (bad s).
Definition note_leaked (h : nat) (s : side) : side :=
  Side (mx s) (heap s) (out s) (cut s) (write_mu s) (procs s) (freed s) (destroying s) (owned s) (coros s) (detached s) (pend s) (cur s) (wrote s) (took s) (granted s) (credited s) (dropped s) (h :: leaked s) (bad s).
Definition go_bad (s : side) : side :=
  Side (mx s) (heap s) (out s) (cut s) (write_mu s) (procs s) (freed s) (destroying s) (owned s) (coros s) (detached s) (pend s) (cur s) (wrote s) (took s) (granted s) (credited s) (dropped s) (leaked s) true.

(** An access to a stream object. *)
Definition on_stream (h : nat) (me : side) (f : xylem_mux_stream_s -> side) : side :=
  match heap me !! h with
  | Some s => if 0 <? refcnt s then f s else go_bad me
  | None => go_bad me
  end.
Definition put (h : nat) (s : xylem_mux_stream_s) (me : side) : side := set_heap (<[h := s]> (heap me)) me.

#[global] Arguments park : simpl never.
#[global] Arguments wake : simpl never.
#[global] Arguments resume : simpl never.
(** The waiters a coroutine has taken off a stream, which it makes ready next. *)
Definition detach (p : nat) (co : option nat) (me : side) : side :=
  set_detached (detached me ++ match co with Some q => [(p, q)] | None => [] end) me.
Fixpoint next_detached (p : nat) (l : list (nat * nat)) : option (nat * list (nat * nat)) :=
  match l with
  | [] => None
  | (q, co) :: l => if (q =? p)%nat then Some (co, l) else '(co', l') ← next_detached p l; Some (co', (q, co) :: l')
  end.
(** [scheduler_coro_ready] aborts when the coroutine is not waiting. *)
Definition make_ready (co : nat) (me : side) : side :=
  match wake co (coros me) with Some w => set_coros w me | None => go_bad me end.
(** [scheduler_coro_park] with the verdict of the commit callback: a coroutine that is
    refused is queued again. *)
Definition park_coro (p : nat) (verdict : bool) (me : side) : side :=
  match park p (coros me) with
  | Some w => if verdict then set_coros w me else match wake p w with Some w' => set_coros w' me | None => go_bad me end
  | None => go_bad me
  end.

(** ** Writing frames *)

Definition data_frame (i : Z) (fl : Z) (payload : list Z) : frame :=
  (Hdr MUX_PROTO_VERSION MUX_TYPE_DATA fl i (Z.of_nat (length payload)), payload).
Definition update_frame (fl i delta : Z) : frame := (Hdr MUX_PROTO_VERSION MUX_TYPE_WINDOW_UPDATE fl i delta, []).
Definition ping_frame (len : Z) : frame := (Hdr MUX_PROTO_VERSION MUX_TYPE_PING MUX_FLAG_ACK 0 len, []).
Definition go_away_frame : frame := (Hdr MUX_PROTO_VERSION MUX_TYPE_GO_AWAY 0 0 0, []).

Definition after_close (a : after) : mux_pc := match a with ToIdle => Idle | ToTeardown => TdChan | ToDestroy => DWait end.

(** The caller goes on with the return code. *)
Definition finish (k : cont) (rc : Z) (p : nat) (me : side) : side :=
  match k with
  | KOpen h => if rc =? 0 then on_stream h me (fun s => at_pc p (OAdd h) (put h (mux_stream_ref s) me)) else at_pc p (Unref 1 h) me
  | KWrite h chunk rest => at_pc p (if rc =? 0 then WrSub h chunk rest else Unref 1 h) me
  | KRead h | KFin h => at_pc p (Unref 1 h) me
  | KReader => at_pc p LTop me
  | KGoAway a => at_pc p (ClTransport a) me
  end.

Definition data_of (f : frame) : list (Z * list Z) :=
  if type (fst f) =? MUX_TYPE_DATA then [(stream_id (fst f), snd f)] else [].

(** [_mux_write_frame], from the lock on, and [_mux_write_frame_try]. *)
Definition _mux_write_frame (pc : mux_pc) (p : nat) (me : side) : option side :=
  match pc with
  | FLock f k => if write_mu me then None else Some (at_pc p (FHdr f k) (set_mu true me))
  | FTry f k => Some (if write_mu me then finish k (-1) p me else at_pc p (FHdr f k) (set_mu true me))
  | FHdr f k =>
      Some (if cut me then at_pc p (FUnlock (-1) k) me
            else at_pc p (match snd f with [] => FUnlock 0 k | _ => FPay f k end)
                   (note_wrote (data_of f) (set_out (out me ++ mux_frame_encode (fst f)) (pend me ++ [f]) me)))
  | FPay f k =>
      Some (if cut me then at_pc p (FUnlock (-1) k) me else at_pc p (FUnlock 0 k) (set_out (out me ++ snd f) (pend me) me))
  | FUnlock rc k => Some (finish k rc p (set_mu false me))
  | _ => None
  end.

(** ** Operations of the user *)

Definition unref_at (h : nat) (me : side) : side := on_stream h me (fun s => put h (mux_stream_unref s) me).

Definition xylem_mux_open_stream (a : answers) (pc : mux_pc) (p : nat) (me : side) : option side :=
  match pc with
  | OTake =>
      if mux_closed (mx me) then Some (at_pc p Idle me)
      else
        let i := next_stream_id (mx me) in
        let me' := set_mx (with_next (u32 (i + 2)) (mx me)) me in
        match new_stream a (mx me) i with
        | None => Some (at_pc p Idle me')
        | Some s =>
            Some (at_pc p (FLock (update_frame MUX_FLAG_SYN i (max_stream_window (mx me))) (KOpen (length (heap me))))
                    (note_granted i (max_stream_window (mx me)) (set_heap (heap me ++ [s]) me')))
        end
  | OAdd h =>
      Some (if mux_closed (mx me) then at_pc p (Unref 2 h) me
            else at_pc p Idle (set_owned (h :: owned me) (set_mx (snd (_mux_add_stream (a_array a) h (mx me))) me)))
  | _ => None
  end.

(** A call that is going to receive from the channel of new streams, or does. *)
Definition accepting (pc : mux_pc) : bool := match pc with Accept | AcceptRecv => true | _ => false end.
Definition receiving (me : side) : bool := existsb (fun pc => match pc with AcceptRecv => true | _ => false end) (procs me).
(** [xylem_channel_recv] aborts where another coroutine receives. *)
Definition xylem_mux_accept_stream (pc : mux_pc) (p : nat) (me : side) : option side :=
  match pc with
  | Accept => Some (if mux_closed (mx me) then at_pc p Idle me else if receiving me then go_bad me else at_pc p AcceptRecv me)
  | AcceptRecv =>
      match accept_ch (mx me) with
      | h :: rest => Some (at_pc p Idle (set_owned (h :: owned me) (set_mx (with_accept rest (mx me)) me)))
      | [] => if accept_closed (mx me) then Some (at_pc p Idle me) else None
      end
  | _ => None
  end.

(** The section of [xylem_mux_read] that takes data: the bytes, what is granted to the
    peer if anything is, the stream; [None] when the length to copy is negative. *)
Definition read_section (max len : Z) (s : xylem_mux_stream_s) : option (list Z * option Z * xylem_mux_stream_s) :=
  let n := if i32 (Z.of_nat (recv_len s)) <? len then i32 (Z.of_nat (recv_len s)) else len in
  if n <? 0 then None
  else
    let buf := drop (Z.to_nat n) (recv_buf s) in
    let consumed := u32 (max - recv_window s - u32 (Z.of_nat (length buf))) in
    Some (take (Z.to_nat n) (recv_buf s),
          if max / 2 <=? consumed then Some consumed else None,
          with_recv buf (recv_cap s) (if max / 2 <=? consumed then u32 (recv_window s + consumed) else recv_window s) s).
Definition read_done (st : _mux_stream_state_t) (s : xylem_mux_stream_s) : bool :=
  bool_decide (st = MUX_STREAM_REMOTE_CLOSE) || bool_decide (st = MUX_STREAM_CLOSED) || closed s.
(** [_mux_recv_wait_commit_cb]: whether the coroutine [co] parks; [None] where it aborts. *)
Definition _mux_recv_wait_commit_cb (co : nat) (s : xylem_mux_stream_s) : option (bool * xylem_mux_stream_s) :=
  if (0 <? recv_len s)%nat || read_done (state s) s then Some (false, s)
  else match recv_waiter s with Some _ => None | None => Some (true, with_waiters (Some co) (send_waiter s) s) end.
Definition xylem_mux_read (pc : mux_pc) (p : nat) (me : side) : option side :=
  match pc with
  | Rd h len =>
      Some (on_stream h me (fun s =>
        match recv_buf s with
        | [] => at_pc p (RdTest h len (state s)) me
        | _ =>
            match read_section (max_stream_window (mx me)) len s with
            | None => go_bad me
            | Some (data, grant, s') =>
                let me' := note_took (id s) data (put h s' me) in
                match grant with
                | Some consumed => at_pc p (FLock (update_frame 0 (id s) consumed) (KRead h)) (note_granted (id s) consumed me')
                | None => at_pc p (Unref 1 h) me'
                end
            end
        end))
  | RdTest h len st => Some (on_stream h me (fun s => at_pc p (if read_done st s then Unref 1 h else RdCommit h len) me))
  | RdCommit h len =>
      Some (on_stream h me (fun s =>
        match _mux_recv_wait_commit_cb p s with
        | None => go_bad me
        | Some (verdict, s') => park_coro p verdict (at_pc p (RdParked h len) (put h s' me))
        end))
  | RdParked h len => w ← resume p (coros me); Some (at_pc p (Rd h len) (set_coros w me))
  | _ => None
  end.

Definition write_chunk (window : Z) (rest : list Z) : nat :=
  let chunk := if MUX_MAX_FRAME_PAYLOAD <? window then MUX_MAX_FRAME_PAYLOAD else window in
  Z.to_nat (if u32 (Z.of_nat (length rest)) <? chunk then u32 (Z.of_nat (length rest)) else chunk).
Definition write_closed (s : xylem_mux_stream_s) : bool := closed s || bool_decide (state s = MUX_STREAM_CLOSED).
Definition _mux_send_wait_commit_cb (co : nat) (s : xylem_mux_stream_s) : option (bool * xylem_mux_stream_s) :=
  if (0 <? send_window s) || write_closed s then Some (false, s)
  else match send_waiter s with Some _ => None | None => Some (true, with_waiters (recv_waiter s) (Some co) s) end.
Definition xylem_mux_write (pc : mux_pc) (p : nat) (me : side) : option side :=
  match pc with
  | Wr h [] => Some (at_pc p (Unref 1 h) me)
  | Wr h rest =>
      Some (on_stream h me (fun s =>
        if write_closed s then at_pc p (Unref 1 h) me
        else if send_window s =? 0 then at_pc p (WrCommit h rest) me
        else let chunk := write_chunk (send_window s) rest in
             at_pc p (FLock (data_frame (id s) 0 (take chunk rest)) (KWrite h chunk rest)) me))
  | WrCommit h rest =>
      Some (on_stream h me (fun s =>
        match _mux_send_wait_commit_cb p s with
        | None => go_bad me
        | Some (verdict, s') => park_coro p verdict (at_pc p (WrParked h rest) (put h s' me))
        end))
  | WrParked h rest => w ← resume p (coros me); Some (at_pc p (Wr h rest) (set_coros w me))
  | WrSub h chunk rest =>
      Some (on_stream h me (fun s =>
        at_pc p (Wr h (drop chunk rest)) (put h (with_send (u32 (send_window s - Z.of_nat chunk)) s) me)))
  | _ => None
  end.

Definition close_section (s : xylem_mux_stream_s) : xylem_mux_stream_s * (option nat * option nat) :=
  (with_waiters None None (with_state (if bool_decide (state s = MUX_STREAM_ESTABLISHED) then MUX_STREAM_LOCAL_CLOSE else MUX_STREAM_CLOSED) s),
   (recv_waiter s, send_waiter s)).
Definition xylem_mux_close_stream (pc : mux_pc) (p : nat) (me : side) : option side :=
  match pc with
  | Cs h => Some (on_stream h me (fun s => if closed s then at_pc p Idle (note_leaked h me) else at_pc p (CsState h) (put h (with_closed s) me)))
  | CsState h =>
      Some (on_stream h me (fun s =>
        let r := close_section s in
        at_pc p (FTry (data_frame (id s) MUX_FLAG_FIN []) (KFin h)) (detach p (snd (snd r)) (detach p (fst (snd r)) (put h (fst r) me)))))
  | _ => None
  end.

Definition xylem_mux_set_read_deadline (deadline_ms : Z) (s : xylem_mux_stream_s) : xylem_mux_stream_s := with_deadlines deadline_ms (wr_deadline s) s.
Definition xylem_mux_set_write_deadline (deadline_ms : Z) (s : xylem_mux_stream_s) : xylem_mux_stream_s := with_deadlines (rd_deadline s) deadline_ms s.

(** The references dropped when a call returns. *)
Definition drop_refs (pc : mux_pc) (p : nat) (me : side) : option side :=
  match pc with
  | Unref 0 h => Some (at_pc p Idle me)
  | Unref (S n) h => Some (at_pc p (if (n =? 0)%nat then Idle else Unref n h) (unref_at h me))
  | _ => None
  end.

(** ** Closing and destroying a session *)

Definition reset_stream (p h : nat) (s : xylem_mux_stream_s) (me : side) : side :=
  let r := mux_stream_notify_reset s in detach p (snd (snd r)) (detach p (fst (snd r)) (put h (fst r) me)).
Definition _mux_close_session (pc : mux_pc) (p : nat) (me : side) : option side :=
  match pc with
  | Cl a => Some (if mux_closed (mx me) then at_pc p (after_close a) me else at_pc p (ClCount a) (set_mx (with_mux_closed (mx me)) me))
  | ClCount a => Some (at_pc p (ClReset 0 (length (streams (mx me))) a) me)
  | ClReset i n a =>                                                (* _mux_reset_streams *)
      if (i <? n)%nat then
        match streams (mx me) !! i with
        | Some h => Some (on_stream h me (fun s => at_pc p (ClReset (S i) n a) (reset_stream p h s me)))
        | None => Some (go_bad me)
        end
      else Some (at_pc p (FTry go_away_frame (KGoAway a)) me)
  | ClTransport a => Some (at_pc p (after_close a) (set_cut me))
  | _ => None
  end.

(** [_mux_free]: the streams nobody accepted, then those of the array. *)
Definition _mux_free (me : side) : side :=
  set_freed (set_mx (with_streams [] 0 (with_accept [] (mx me)))
    (fold_left (fun me h => unref_at h me) (accept_ch (mx me) ++ streams (mx me)) me)).
Definition xylem_mux_destroy (pc : mux_pc) (p : nat) (me : side) : option side :=
  match pc with
  | DWait => Some (if reader_done (mx me) then at_pc p Idle (_mux_free me) else me)
  | _ => None
  end.

(** ** The reader *)

Definition flag (hdr : _mux_frame_hdr_t) (f : Z) : bool := negb (Z.land (flags hdr) f =? 0).

(** [_mux_read_full] takes its bytes off what the peer has written. *)
Definition read_full (n : nat) (peer : side) : option (list Z) :=
  if (n <=? length (out peer))%nat then Some (take n (out peer)) else None.

Definition _mux_dispatch (hdr : _mux_frame_hdr_t) : mux_pc :=
  if type hdr =? MUX_TYPE_DATA then LFind hdr
  else if type hdr =? MUX_TYPE_WINDOW_UPDATE then (if flag hdr MUX_FLAG_SYN then LSyn hdr else LWuFind hdr)
  else if type hdr =? MUX_TYPE_PING then                              (* _mux_handle_ping *)
    (if flag hdr MUX_FLAG_ACK then LTop else FLock (ping_frame (length_ hdr)) KReader)
  else if type hdr =? MUX_TYPE_GO_AWAY then Cl ToTeardown
  else LTop.

(** [_mux_accept_syn] and the send to the channel of new streams, for both kinds of frames. *)
Definition accept_syn (a : answers) (pc : mux_pc) (p : nat) (me : side) : option side :=
  let next hdr oh := if type hdr =? MUX_TYPE_DATA then LBody hdr oh else LWuFind hdr in
  match pc with
  | LSyn hdr =>
      let '(oh, created, m, hp) := _mux_accept_syn a (stream_id hdr) (mx me) (heap me) in
      let me' := set_mx m (set_heap hp me) in
      Some (at_pc p (match oh, created with Some h, true => LSend hdr h | _, _ => next hdr oh end) me')
  | LSend hdr h => Some (at_pc p (next hdr (Some h)) (set_mx (with_accept (accept_ch (mx me) ++ [h]) (mx me)) me))
  | _ => None
  end.

(** The rest of [_mux_handle_data] after the payload. *)
Definition after_body (hdr : _mux_frame_hdr_t) (oh : option nat) : mux_pc := match oh with Some h => LFin hdr h | None => LTop end.

(** [_mux_handle_data]; the payload is read or discarded in one step.  Where there is no
    memory for it, it stays on the wire. *)
Definition _mux_handle_data (a : answers) (pc : mux_pc) (p : nat) (me peer : side) : option (side * side) :=
  match pc with
  | LFind hdr =>
      Some (at_pc p (if flag hdr MUX_FLAG_SYN then LSyn hdr else LBody hdr (_mux_find_stream (mx me) (heap me) (stream_id hdr))) me, peer)
  | LBody hdr oh =>
      if length_ hdr =? 0 then Some (at_pc p (after_body hdr oh) me, peer)
      else if bool_decide (is_Some oh) && negb (a_buffer a) then Some (at_pc p (after_body hdr oh) me, peer)
      else if i32 (length_ hdr) <? 0 then                             (* nothing is read *)
        Some (match oh with Some _ => go_bad me | None => at_pc p LTop me end, peer)
      else if cut me then Some (at_pc p (match oh with Some h => LFin hdr h | None => Cl ToTeardown end) me, peer)
      else
        payload ← read_full (Z.to_nat (length_ hdr)) peer;
        let peer' := set_out (drop (Z.to_nat (length_ hdr)) (out peer)) (pend peer) peer in
        match oh with
        | Some h => Some (at_pc p (LPush hdr h payload) (set_cur [] me), peer')
        | None => Some (at_pc p LTop (note_dropped (stream_id hdr) (set_cur [] me)), peer')
        end
  | LPush hdr h payload =>
      Some (on_stream h me (fun s =>
        let r := mux_stream_push_data (a_buffer a) payload s in at_pc p (LFin hdr h) (detach p (snd r) (put h (fst r) me))), peer)
  | LFin hdr h =>
      Some (if flag hdr MUX_FLAG_FIN then
              on_stream h me (fun s => let r := mux_stream_notify_remote_fin s in at_pc p (LRst hdr h) (detach p (snd r) (put h (fst r) me)))
            else at_pc p (LRst hdr h) me, peer)
  | LRst hdr h =>
      Some (if flag hdr MUX_FLAG_RST then on_stream h me (fun s => at_pc p LTop (reset_stream p h s me))
            else at_pc p LTop me, peer)
  | _ => None
  end.

Definition _mux_handle_window_update (pc : mux_pc) (p : nat) (me : side) : option side :=
  match pc with
  | LWuFind hdr =>
      Some (match _mux_find_stream (mx me) (heap me) (stream_id hdr) with
            | Some h => at_pc p (LWu hdr h) me
            | None => at_pc p LTop (note_dropped (stream_id hdr) me)
            end)
  | LWu hdr h =>
      Some (on_stream h me (fun s =>
        let r := mux_stream_update_send_window (length_ hdr) s in
        at_pc p LTop (note_credited (stream_id hdr) (length_ hdr) (detach p (snd r) (put h (fst r) me)))))
  | _ => None
  end.

Definition _mux_reader_loop (pc : mux_pc) (p : nat) (me peer : side) : option (side * side) :=
  match pc with
  | LTop => Some (at_pc p (if mux_closed (mx me) then Cl ToTeardown else LHdr) me, peer)
  | LHdr =>
      if cut me then Some (at_pc p (Cl ToTeardown) me, peer)
      else
        hdr_buf ← read_full MUX_FRAME_HDR_SIZE peer;
        let hdr := mux_frame_decode hdr_buf in
        let peer' := set_out (drop MUX_FRAME_HDR_SIZE (out peer)) (drop 1 (pend peer)) peer in
        Some (at_pc p (if version hdr =? MUX_PROTO_VERSION then LDisp hdr else Cl ToTeardown)
                (set_cur (match pend peer with f :: _ => snd f | [] => [] end) me), peer')
  | LDisp hdr => Some (at_pc p (_mux_dispatch hdr) me, peer)
  | TdChan => Some (at_pc p TdDone (set_mx (with_accept_closed (mx me)) me), peer)      (* _mux_teardown *)
  | TdDone => Some (at_pc p LDone (set_mx (with_reader_done (mx me)) me), peer)
  | _ => None
  end.

(** ** The system *)

Definition mux_go (a : answers) (pc : mux_pc) (p : nat) (me peer : side) : option (side * side) :=
  let alone r := (fun me' => (me', peer)) <$> r in
  match pc with
  | Idle | LDone => None
  | FLock _ _ | FTry _ _ | FHdr _ _ | FPay _ _ | FUnlock _ _ => alone (_mux_write_frame pc p me)
  | OTake | OAdd _ => alone (xylem_mux_open_stream a pc p me)
  | Accept | AcceptRecv => alone (xylem_mux_accept_stream pc p me)
  | Rd _ _ | RdTest _ _ _ | RdCommit _ _ | RdParked _ _ => alone (xylem_mux_read pc p me)
  | Wr _ _ | WrCommit _ _ | WrParked _ _ | WrSub _ _ _ => alone (xylem_mux_write pc p me)
  | Unref _ _ => alone (drop_refs pc p me)
  | Cs _ | CsState _ => alone (xylem_mux_close_stream pc p me)
  | Cl _ | ClCount _ | ClReset _ _ _ | ClTransport _ => alone (_mux_close_session pc p me)
  | DWait => alone (xylem_mux_destroy pc p me)
  | LTop | LHdr | LDisp _ | TdChan | TdDone => _mux_reader_loop pc p me peer
  | LFind _ | LBody _ _ | LPush _ _ _ | LFin _ _ | LRst _ _ => _mux_handle_data a pc p me peer
  | LSyn _ | LSend _ _ => alone (accept_syn a pc p me)
  | LWuFind _ | LWu _ _ => alone (_mux_handle_window_update pc p me)
  end.

(** The stream a read or a write in progress is for. *)
Definition reading (pc : mux_pc) : option nat :=
  match pc with
  | Rd h _ | RdTest h _ _ | RdCommit h _ | RdParked h _ => Some h
  | FLock _ (KRead h) | FHdr _ (KRead h) | FPay _ (KRead h) | FUnlock _ (KRead h) => Some h
  | _ => None
  end.
Definition writing (pc : mux_pc) : option nat :=
  match pc with
  | Wr h _ | WrCommit h _ | WrParked h _ | WrSub h _ _ => Some h
  | FLock _ (KWrite h _ _) | FHdr _ (KWrite h _ _) | FPay _ (KWrite h _ _) | FUnlock _ (KWrite h _ _) => Some h
  | _ => None
  end.
(** A call that has not taken its stream number yet. *)
Definition opens (pc : mux_pc) : nat := match pc with OTake => 1%nat | _ => 0%nat end.
Definition is_idle (pc : mux_pc) : bool := match pc with Idle => true | _ => false end.
Definition at_rest (pc : mux_pc) : bool := match pc with Idle | LDone => true | _ => false end.

Fixpoint remove1 (h : nat) (l : list nat) : list nat :=
  match l with [] => [] | g :: l => if (g =? h)%nat then l else g :: remove1 h l end.

(** Calls of the user.  The contract of the interface: handles that were returned and
    not closed, one read and one write at a time on a stream, one accept at a time, nothing
    after destroying and nothing in progress then; fewer than [2^31] streams are opened. *)
Inductive mux_call := COpen | CAccept | CRead (h : nat) (len : Z) | CWrite (h : nat) (data : list Z) | CCloseStream (h : nat) | CSetRead (h : nat) (deadline_ms : Z) | CSetWrite (h : nat) (deadline_ms : Z) | CClose | CDestroy.
Definition allowed (c : mux_call) (me : side) : bool :=
  negb (destroying me) &&
  match c with
  | COpen => next_stream_id (mx me) + 2 * Z.of_nat (S (sum_list_with opens (procs me))) <? 2 ^ 32
  | CAccept => negb (existsb accepting (procs me))
  | CClose => true
  | CRead h len => bool_decide (h ∈ owned me) && (len <? 2 ^ 31) && negb (existsb (fun pc => bool_decide (reading pc = Some h)) (procs me))
  | CWrite h data => bool_decide (h ∈ owned me) && (Z.of_nat (length data) <? 2 ^ 31) && bool_decide (Forall byte data)
                     && negb (existsb (fun pc => bool_decide (writing pc = Some h)) (procs me))
  | CCloseStream h | CSetRead h _ | CSetWrite h _ => bool_decide (h ∈ owned me)
  | CDestroy => forallb is_idle (drop 1 (procs me))
  end.
Definition begin (c : mux_call) (p : nat) (me : side) : side :=
  match c with
  | COpen => at_pc p OTake me
  | CAccept => at_pc p Accept me
  | CRead h len => if len <=? 0 then me else on_stream h me (fun s => at_pc p (Rd h len) (put h (mux_stream_ref s) me))
  | CWrite h [] => me
  | CWrite h data => on_stream h me (fun s => at_pc p (Wr h data) (put h (mux_stream_ref s) me))
  | CCloseStream h => at_pc p (Cs h) (set_owned (remove1 h (owned me)) me)
  | CSetRead h deadline_ms => on_stream h me (fun s => at_pc p Idle (put h (xylem_mux_set_read_deadline deadline_ms s) me))
  | CSetWrite h deadline_ms => on_stream h me (fun s => at_pc p Idle (put h (xylem_mux_set_write_deadline deadline_ms s) me))
  | CClose => at_pc p (Cl ToIdle) me
  | CDestroy => at_pc p (Cl ToDestroy) (set_destroying me)
  end.

(** The two ends; [false] is the client. *)
Record mux_sys := MuxSys { client : side; server : side }.
Definition end_of (b : bool) (s : mux_sys) : side := if b then server s else client s.
Definition set_ends (b : bool) (me peer : side) : mux_sys := if b then MuxSys peer me else MuxSys me peer.

(** A coroutine that has detached waiters makes them ready before anything else. *)
Inductive mux_label := Call (b : bool) (p : nat) (c : mux_call) | Go (b : bool) (p : nat) (a : answers) | Cut (b : bool).
Definition mux_step (l : mux_label) (s : mux_sys) : option mux_sys :=
  match l with
  | Call b p c =>
      let me := end_of b s in
      match procs me !! p with
      | Some Idle => if allowed c me then Some (set_ends b (begin c p me) (end_of (negb b) s)) else None
      | _ => None
      end
  | Go b p a =>
      let me := end_of b s in
      pc ← procs me !! p;
      match next_detached p (detached me) with
      | Some (co, l) => Some (set_ends b (make_ready co (set_detached l me)) (end_of (negb b) s))
      | None =>
          if freed me && negb (at_rest pc) then Some (set_ends b (go_bad me) (end_of (negb b) s))
          else '(me, peer) ← mux_go a pc p me (end_of (negb b) s); Some (set_ends b me peer)
      end
  | Cut b => Some (set_ends b (set_cut (end_of b s)) (end_of (negb b) s))
  end.

(** An allocation is refused whose failure the caller does not handle: only
    [xylem_mux_open_stream] gives up cleanly, before its first frame. *)
Definition refused (l : mux_label) (s : mux_sys) : bool :=
  match l with
  | Go b p a => negb (granted_all a) && match procs (end_of b s) !! p with Some OTake => false | _ => true end
  | _ => false
  end.
(** The steps of a system that does not run out of memory there. *)
Definition mux_step_granted (l : mux_label) (s : mux_sys) : option mux_sys := if refused l s then None else mux_step l s.

(** [xylem_mux_create], when it succeeds, with [n] user coroutines beside the reader; the
    window comes from the options. *)
Definition mux_window (opt : option Z) : Z :=
  match opt with Some w => if 0 <? w then w else MUX_DEFAULT_WINDOW | None => MUX_DEFAULT_WINDOW end.
Definition xylem_mux_create (is_server : bool) (opt : option Z) (n : nat) : side :=
  Side (Mux (if is_server then 2 else 1) (mux_window opt) [] 0 false false [] false) [] [] false false
    (LTop :: replicate n Idle) false false [] (replicate (S n) (Coro SCHED_CORO_RUNNING)) [] [] [] [] [] [] [] [] [] false.
Definition mux_start (optc opts : option Z) (n : nat) : mux_sys :=
  MuxSys (xylem_mux_create false optc n) (xylem_mux_create true opts n).
