(* ===== verification/MuxMemory.v ===== *)
(** * Multiplexer: memory and mutual exclusion

    The part of the invariant of [Mux] that concerns one end alone: the reference count
    of every stream is the number of its holders and of the references lost, what the
    reader uses is in the array, the write mutex is held by one coroutine, and destroying
    waits for everybody. *)

From S2P Require Import Prelude Interleave Parking MuxFrame Mux.

(** Fields of an updated end. *)
Ltac proj := cbn [mx heap out cut write_mu procs freed destroying owned coros detached pend cur wrote took granted credited dropped leaked bad
  set_mx set_heap set_out set_cut set_mu at_pc set_freed set_destroying set_owned set_coros set_detached detach reset_stream set_cur note_wrote note_took note_granted note_credited note_dropped note_leaked put
  streams accept_ch max_stream_window next_stream_id mux_closed reader_done with_streams with_next with_mux_closed with_reader_done with_accept with_accept_closed].

(** ** Holders of a stream *)

Definition one (h g : nat) : nat := if decide (h = g) then 1%nat else 0%nat.
Definition occ (g : nat) (l : list nat) : nat := sum_list_with (fun h => one h g) l.

Definition cont_pins (k : cont) (g : nat) : nat :=
  match k with KOpen h | KWrite h _ _ | KRead h | KFin h => one h g | KReader | KGoAway _ => 0%nat end.
Definition pins (pc : mux_pc) (g : nat) : nat :=
  match pc with
  | FLock _ k | FTry _ k | FHdr _ k | FPay _ k | FUnlock _ k => cont_pins k g
  | OAdd h => (2 * one h g)%nat
  | Rd h _ | RdTest h _ _ | RdCommit h _ | RdParked h _ | Wr h _ | WrCommit h _ | WrParked h _ | WrSub h _ _ | Cs h | CsState h | LSend _ h => one h g
  | Unref n h => (n * one h g)%nat
  | _ => 0%nat
  end.
(** Handles used without a reference of one's own. *)
Definition uses (pc : mux_pc) : list nat :=
  match pc with
  | LBody _ (Some h) | LPush _ h _ | LFin _ h | LRst _ h | LWu _ h | LSend _ h => [h]
  | _ => []
  end.
Definition base (me : side) (g : nat) : nat :=
  (occ g (streams (mx me)) + occ g (accept_ch (mx me)) + occ g (owned me) + occ g (leaked me))%nat.
Definition refs (me : side) (g : nat) : nat := (base me g + sum_list_with (fun pc => pins pc g) (procs me))%nat.
(** Without the references that are lost. *)
Definition held (me : side) (g : nat) : nat :=
  (occ g (streams (mx me)) + occ g (accept_ch (mx me)) + occ g (owned me) + sum_list_with (fun pc => pins pc g) (procs me))%nat.
Lemma refs_held me g : refs me g = (held me g + occ g (leaked me))%nat.
Proof. unfold refs, base, held. lia. Qed.

(** ** Kinds of control points *)

Definition is_after (a b : after) : bool := match a, b with ToIdle, ToIdle | ToTeardown, ToTeardown | ToDestroy, ToDestroy => true | _, _ => false end.
Definition cont_reader (k : cont) : bool := match k with KReader => true | KGoAway a => is_after a ToTeardown | _ => false end.
Definition is_reader (pc : mux_pc) : bool :=
  match pc with
  | FLock _ k | FTry _ k | FHdr _ k | FPay _ k | FUnlock _ k => cont_reader k
  | Cl a | ClCount a | ClReset _ _ a | ClTransport a => is_after a ToTeardown
  | LTop | LHdr | LDisp _ | LFind _ | LSyn _ | LSend _ _ | LBody _ _ | LPush _ _ _ | LFin _ _ | LRst _ _ | LWuFind _ | LWu _ _
  | TdChan | TdDone | LDone => true
  | _ => false
  end.
Definition leaving (pc : mux_pc) : bool :=
  match pc with
  | FLock _ k | FTry _ k | FHdr _ k | FPay _ k | FUnlock _ k => match k with KGoAway a => is_after a ToDestroy | _ => false end
  | Cl a | ClCount a | ClReset _ _ a | ClTransport a => is_after a ToDestroy
  | DWait => true
  | _ => false
  end.
Definition locking (pc : mux_pc) : bool := match pc with FHdr _ _ | FPay _ _ | FUnlock _ _ => true | _ => false end.
Definition count (f : mux_pc -> bool) (l : list mux_pc) : nat := sum_list_with (fun pc => Nat.b2n (f pc)) l.

Record mem_ok (me : side) : Prop := {
  m_count g o : heap me !! g = Some o -> refcnt o = Z.of_nat (refs me g);
  m_range g : (length (heap me) <= g)%nat -> refs me g = 0%nat;
  m_uses p pc h : procs me !! p = Some pc -> h ∈ uses pc -> h ∈ streams (mx me);
  m_reset p i n a : procs me !! p = Some (ClReset i n a) -> (n <= length (streams (mx me)))%nat;
  m_reader p pc : procs me !! p = Some pc -> is_reader pc = (p =? 0)%nat;
  m_done : reader_done (mx me) = true -> procs me !! 0%nat = Some LDone;
  m_leaving : (count leaving (procs me) <= Nat.b2n (destroying me))%nat;
  m_destroying p pc : destroying me = true -> procs me !! p = Some pc -> is_idle pc || leaving pc || (p =? 0)%nat = true;
  m_freed p pc : freed me = true -> procs me !! p = Some pc -> at_rest pc = true;
  m_freed_streams : freed me = true -> destroying me = true;
  m_lock : count locking (procs me) = Nat.b2n (write_mu me)
}.

Lemma one_eq h : one h h = 1%nat.
Proof. unfold one. by rewrite decide_True. Qed.
Lemma one_ne h g : h <> g -> one h g = 0%nat.
Proof. intros. unfold one. by rewrite decide_False. Qed.
Lemma occ_app g l k : occ g (l ++ k) = (occ g l + occ g k)%nat.
Proof. apply sum_list_with_app. Qed.
Lemma occ_elem g l : g ∈ l -> (0 < occ g l)%nat.
Proof. intros (i & Hi)%list_elem_of_lookup. pose proof (sum_lookup (fun h => one h g) l i g Hi) as H. simpl in H. rewrite one_eq in H. exact H. Qed.
Lemma occ_remove1 g h l : h ∈ l -> (occ g (remove1 h l) + one h g = occ g l)%nat.
Proof.
  induction l as [|x l IH]; intros Hh; [by apply elem_of_nil in Hh|]. simpl. destruct (Nat.eqb_spec x h) as [->|Hne].
  - unfold occ. simpl. lia.
  - apply elem_of_cons in Hh as [->|Hh]; [done|]. specialize (IH Hh). unfold occ in *. simpl. lia.
Qed.

(** A stream somebody holds is there and has not been freed. *)
Lemma held_alive me h : mem_ok me -> (0 < refs me h)%nat -> exists o, heap me !! h = Some o /\ (0 <? refcnt o) = true.
Proof.
  intros Hm Hh. destruct (decide (length (heap me) <= h)%nat) as [Hr|Hr].
  - rewrite (m_range _ Hm h Hr) in Hh. lia.
  - destruct (lookup_lt_is_Some_2 (heap me) h ltac:(lia)) as [o Ho]. exists o. split; [done|].
    rewrite (m_count _ Hm _ _ Ho). apply Z.ltb_lt. lia.
Qed.
Lemma on_stream_held me h f : mem_ok me -> (0 < refs me h)%nat ->
  exists o, heap me !! h = Some o /\ 0 < refcnt o /\ on_stream h me f = f o.
Proof.
  intros Hm Hh. destruct (held_alive me h Hm Hh) as (o & Ho & Hr). exists o. unfold on_stream. rewrite Ho, Hr. split_and!; [done|lia|done].
Qed.
Lemma pins_held me p pc h : procs me !! p = Some pc -> (0 < pins pc h)%nat -> (0 < refs me h)%nat.
Proof. intros Hp Hh. pose proof (sum_lookup (fun pc => pins pc h) _ _ _ Hp). unfold refs. simpl in *. lia. Qed.
Lemma stream_held me h : h ∈ streams (mx me) -> (0 < refs me h)%nat.
Proof. intros Hh%occ_elem. unfold refs, base. lia. Qed.
Lemma owned_held me h : h ∈ owned me -> (0 < refs me h)%nat.
Proof. intros Hh%occ_elem. unfold refs, base. lia. Qed.

(** ** One coroutine moves *)

(** What the control points before and after a step have to satisfy. *)
Definition step_kinds (pc pc' : mux_pc) : Prop :=
  is_reader pc' = is_reader pc /\ (leaving pc' = true -> leaving pc = true)
  /\ (leaving pc = true -> is_idle pc' || leaving pc' = true) /\ pc <> LDone.

Lemma mem_moved me me' p pc pc' :
  mem_ok me -> procs me !! p = Some pc -> procs me' = <[p := pc']> (procs me) ->
  freed me = false -> freed me' = false -> destroying me' = destroying me -> (is_idle pc = true -> destroying me = false) -> step_kinds pc pc' ->
  (forall g o', heap me' !! g = Some o' ->
     refcnt o' + Z.of_nat (base me g + pins pc g) = from_option refcnt 0 (heap me !! g) + Z.of_nat (base me' g + pins pc' g)) ->
  (length (heap me) <= length (heap me'))%nat ->
  (forall g, (length (heap me') <= g)%nat -> (base me' g + pins pc' g = 0)%nat) ->
  (exists l, streams (mx me') = streams (mx me) ++ l) ->
  (forall h, h ∈ uses pc' -> h ∈ streams (mx me')) ->
  (forall i n a, pc' = ClReset i n a -> (n <= length (streams (mx me')))%nat) ->
  (reader_done (mx me') = true -> pc' = LDone \/ reader_done (mx me) = true) ->
  (Nat.b2n (locking pc') + Nat.b2n (write_mu me) = Nat.b2n (write_mu me') + Nat.b2n (locking pc))%nat ->
  mem_ok me'.
Proof.
  intros Hm Hp Hpr Hf Hf' Hd Hidle (Hk1 & Hk2 & Hk3 & Hk4) Hrc Hlen Hout [l Hl] Hu Hr Hdone Hlock.
  assert (Hlt : (p < length (procs me))%nat) by (by eapply lookup_lt_Some).
  assert (forall g, (sum_list_with (fun pc => pins pc g) (procs me') + pins pc g = sum_list_with (fun pc => pins pc g) (procs me) + pins pc' g)%nat) as Hs.
  { intros g. rewrite Hpr. exact (sum_insert (fun pc => pins pc g) _ _ _ pc' Hp). }
  assert (forall q pcq, procs me' !! q = Some pcq -> q = p /\ pcq = pc' \/ q <> p /\ procs me !! q = Some pcq) as Hq.
  { intros q pcq. rewrite Hpr, list_lookup_insert_Some. naive_solver. }
  split.
  - intros g o' Ho'. specialize (Hrc g o' Ho'). specialize (Hs g). unfold refs.
    destruct (heap me !! g) as [o|] eqn:Eo; simpl in Hrc.
    + rewrite (m_count _ Hm g o Eo) in Hrc. unfold refs in Hrc. lia.
    + apply lookup_ge_None_1 in Eo. pose proof (m_range _ Hm g Eo) as Hz. unfold refs in Hz. lia.
  - intros g Hg. specialize (Hs g). specialize (Hout g Hg). pose proof (m_range _ Hm g ltac:(lia)) as Hz. unfold refs in *. lia.
  - intros q pcq h Hpq Hh. apply Hq in Hpq as [[-> ->]|[_ Hpq]]; [by apply Hu|]. rewrite Hl. apply elem_of_app. left. by eapply (m_uses _ Hm).
  - intros q i n a Hpq. apply Hq in Hpq as [[_ He]|[_ Hpq]]; [by eapply Hr|]. pose proof (m_reset _ Hm _ _ _ _ Hpq). rewrite Hl, length_app. lia.
  - intros q pcq Hpq. apply Hq in Hpq as [[-> ->]|[_ Hpq]]; [rewrite Hk1; by apply (m_reader _ Hm)|by apply (m_reader _ Hm)].
  - intros Hrd. destruct (Hdone Hrd) as [->|Hrd'].
    + pose proof (m_reader _ Hm _ _ Hp) as He. rewrite <-Hk1 in He. destruct p; [|done]. by rewrite Hpr, list_lookup_insert_eq.
    + pose proof (m_done _ Hm Hrd') as H0. rewrite Hpr, list_lookup_insert_ne; [done|]. intros ->. congruence.
  - rewrite Hd. pose proof (m_leaving _ Hm) as HL. unfold count in *. pose proof (sum_insert (fun pc => Nat.b2n (leaving pc)) _ _ _ pc' Hp) as Hi. simpl in Hi.
    rewrite Hpr. assert (Nat.b2n (leaving pc') <= Nat.b2n (leaving pc))%nat by (destruct (leaving pc'); [by rewrite Hk2|simpl; lia]). lia.
  - rewrite Hd. intros q pcq Hdd Hpq%Hq. destruct Hpq as [[-> ->]|[_ Hpq]]; [|by apply (m_destroying _ Hm)].
    pose proof (m_destroying _ Hm _ _ Hdd Hp) as H0. destruct (leaving pc) eqn:El; [by rewrite Hk3|].
    rewrite orb_false_r in H0. destruct (is_idle pc) eqn:Ei; [|rewrite orb_false_l in H0; rewrite H0; by rewrite orb_true_r].
    by rewrite Hidle in Hdd.
  - congruence.
  - congruence.
  - pose proof (m_lock _ Hm) as HL. unfold count in *. pose proof (sum_insert (fun pc => Nat.b2n (locking pc)) _ _ _ pc' Hp) as Hi. simpl in Hi.
    rewrite Hpr. lia.
Qed.

Section moves.
Context (me me' : side) (p : nat) (pc pc' : mux_pc).
Hypotheses (Hm : mem_ok me) (Hp : procs me !! p = Some pc) (Hpr : procs me' = <[p := pc']> (procs me)).
Hypotheses (Hf : freed me = false) (Hf' : freed me' = false) (Hd : destroying me' = destroying me).
Hypotheses (Hidle : is_idle pc = true -> destroying me = false) (Hk : step_kinds pc pc').
Hypotheses (Hst : exists l, streams (mx me') = streams (mx me) ++ l).
Hypotheses (Hu : forall h, h ∈ uses pc' -> h ∈ streams (mx me')).
Hypotheses (Hr : forall i n a, pc' = ClReset i n a -> (n <= length (streams (mx me')))%nat).
Hypotheses (Hdone : reader_done (mx me') = true -> pc' = LDone \/ reader_done (mx me) = true).
Hypotheses (Hlock : (Nat.b2n (locking pc') + Nat.b2n (write_mu me) = Nat.b2n (write_mu me') + Nat.b2n (locking pc))%nat).

(** References change hands. *)
Lemma mem_keep : heap me' = heap me -> (forall g, (base me' g + pins pc' g = base me g + pins pc g)%nat) -> mem_ok me'.
Proof.
  intros Hh Hb. eapply mem_moved; try done.
  - intros g o'. rewrite Hh, Hb. intros ->. done.
  - by rewrite Hh.
  - intros g Hg. rewrite Hb. rewrite Hh in Hg. pose proof (m_range _ Hm g Hg) as Hz. unfold refs in Hz.
    pose proof (sum_lookup (fun pc => pins pc g) _ _ _ Hp). simpl in *. lia.
Qed.

(** One stream is updated. *)
Lemma mem_put h s s' : heap me !! h = Some s -> heap me' = <[h := s']> (heap me) ->
  refcnt s' + Z.of_nat (base me h + pins pc h) = refcnt s + Z.of_nat (base me' h + pins pc' h) ->
  (forall g, g <> h -> (base me' g + pins pc' g = base me g + pins pc g)%nat) -> mem_ok me'.
Proof.
  intros Hs Hh Hrc Hb. pose proof (lookup_lt_Some _ _ _ Hs) as Hlt. eapply mem_moved; try done.
  - intros g o'. rewrite Hh. destruct (decide (g = h)) as [->|Hne].
    + rewrite list_lookup_insert_eq by done. intros [= <-]. by rewrite Hs.
    + rewrite list_lookup_insert_ne by done. intros ->. by rewrite Hb.
  - by rewrite Hh, length_insert.
  - rewrite Hh, length_insert. intros g Hg. rewrite Hb by lia. pose proof (m_range _ Hm g Hg) as Hz. unfold refs in Hz.
    pose proof (sum_lookup (fun pc => pins pc g) _ _ _ Hp). simpl in *. lia.
Qed.

(** A stream is created. *)
Lemma mem_new s : heap me' = heap me ++ [s] -> refcnt s = Z.of_nat (base me' (length (heap me)) + pins pc' (length (heap me))) ->
  (forall g, g <> length (heap me) -> (base me' g + pins pc' g = base me g + pins pc g)%nat) -> mem_ok me'.
Proof.
  intros Hh Hrc Hb. assert (forall g, (length (heap me) <= g)%nat -> (base me g + pins pc g = 0)%nat) as Hz.
  { intros g Hg. pose proof (m_range _ Hm g Hg) as Hz. unfold refs in Hz. pose proof (sum_lookup (fun pc => pins pc g) _ _ _ Hp). simpl in *. lia. }
  eapply mem_moved; try done.
  - intros g o'. rewrite Hh. destruct (decide (g < length (heap me))%nat) as [Hlt|Hge].
    + rewrite lookup_app_l by done. intros ->. by rewrite Hb by lia.
    + rewrite lookup_app_r by lia. intros [Hg <-]%list_lookup_singleton_Some. assert (g = length (heap me)) as -> by lia.
      rewrite Hz by done. rewrite (lookup_ge_None_2 _ _ (le_n _)). simpl. lia.
  - rewrite Hh, length_app. lia.
  - rewrite Hh, length_app. simpl. intros g Hg. rewrite Hb by lia. apply Hz. lia.
Qed.
End moves.

(** ** Every step *)

(** The side conditions of the lemmas above, where they follow by computation. *)
Ltac kinds := unfold step_kinds; split_and!; cbn; try done; try congruence; try (by intros; rewrite ?orb_true_r).
Ltac mref := unfold base; cbn -[occ]; unfold occ; cbn; rewrite ?one_eq; lia.
Ltac mside :=
  lazymatch goal with
  | |- step_kinds _ _ => kinds
  | |- exists l, _ => by (exists []; cbn; rewrite app_nil_r)
  | |- _ -> _ \/ _ => by (cbn; auto)
  | |- forall h, h ∈ uses _ -> _ => let h := fresh "h" in intros h; cbn; by (intros ?%elem_of_nil || auto)
  | |- forall i n a, _ = ClReset i n a -> _ => done
  | H : forall pc', locking pc' = false -> _ |- context [locking] => by apply H
  | |- context [locking] => cbn; try (match goal with H : write_mu _ = _ |- _ => rewrite H end); cbn; (done || lia || (repeat case_match; cbn in *; (done || lia || congruence)))
  | |- forall g, (base _ _ + _ = _)%nat => let g := fresh "g" in intros g; mref
  | |- forall g, g <> _ -> (base _ _ + _ = _)%nat =>
      let g := fresh "g" in let H := fresh "Hne" in intros g H; unfold base; cbn -[occ]; rewrite ?(one_ne _ g) by done; lia
  | |- refcnt _ + _ = _ => mref
  | |- _ => done
  end.
Tactic Notation "mkeep" uconstr(pc) uconstr(pc') := eapply (mem_keep _ _ _ pc pc'); try mside.
Tactic Notation "mput" uconstr(pc) uconstr(pc') := eapply (mem_put _ _ _ pc pc'); try mside.

(** The caller of [_mux_write_frame] goes on; the mutex is now [b]. *)
Lemma mem_finish k rc p me pc b :
  mem_ok me -> freed me = false -> procs me !! p = Some pc ->
  (forall g, pins pc g = cont_pins k g) -> is_reader pc = cont_reader k -> is_idle pc = false -> pc <> LDone ->
  (Nat.b2n b + Nat.b2n (locking pc) = Nat.b2n (write_mu me))%nat ->
  leaving pc = match k with KGoAway a => is_after a ToDestroy | _ => false end ->
  mem_ok (finish k rc p (set_mu b me)) /\ bad (finish k rc p (set_mu b me)) = bad me.
Proof.
  intros Hm Hf Hp Hpin Hrd Hi Hne Hb Hlv.
  assert (is_idle pc = true -> destroying me = false) as Hidle by congruence.
  assert (Hlock : forall pc', locking pc' = false -> (Nat.b2n (locking pc') + Nat.b2n (write_mu me) = Nat.b2n b + Nat.b2n (locking pc))%nat)
    by (intros pc' ->; simpl; lia).
  destruct k as [h|h chunk rest|h| |h|a]; unfold finish; simpl in Hrd, Hlv, Hpin.
  - destruct (rc =? 0).
    + destruct (on_stream_held me h (fun s => at_pc p (OAdd h) (put h (mux_stream_ref s) (set_mu b me))) Hm) as (o & Ho & Hr & _).
      { eapply pins_held; [done|]. rewrite Hpin. rewrite one_eq. lia. }
      unfold on_stream. cbn [heap set_mu]. rewrite Ho, (proj2 (Z.ltb_lt 0 _) Hr).
      split; [|done].
      mput pc (OAdd h); [rewrite Hpin; mref|].
      intros g Hg. rewrite Hpin. unfold base; cbn -[occ]. rewrite one_ne by done. lia.
    + split; [|done]. mkeep pc (Unref 1 h). intros g. rewrite Hpin. mref.
  - split; [|done]. destruct (rc =? 0); [mkeep pc (WrSub h chunk rest)|mkeep pc (Unref 1 h)]; intros g; rewrite Hpin; mref.
  - split; [|done]. mkeep pc (Unref 1 h). intros g. rewrite Hpin. mref.
  - split; [|done]. mkeep pc LTop. intros g. rewrite Hpin. mref.
  - split; [|done]. mkeep pc (Unref 1 h). intros g. rewrite Hpin. mref.
  - split; [|done]. mkeep pc (ClTransport a). intros g. rewrite Hpin. mref.
Qed.

Lemma set_mu_id me : set_mu (write_mu me) me = me.
Proof. by destruct me. Qed.

Definition mem_next (me me' : side) : Prop := mem_ok me' /\ bad me' = bad me.

Section steps.
Context (me : side) (p : nat) (pc : mux_pc).
Hypotheses (Hm : mem_ok me) (Hf : freed me = false) (Hp : procs me !! p = Some pc).

(** The step works on a stream for which somebody has a reference. *)
Ltac mstream h f :=
  let o := fresh "o" in let Ho := fresh "Ho" in let Hr := fresh "Hr" in let E := fresh "E" in
  destruct (on_stream_held me h f Hm) as (o & Ho & Hr & E);
  [first [by (eapply pins_held; [done|]; cbn; rewrite one_eq; lia) | by (eapply stream_held, (m_uses _ Hm); [done|cbn; set_solver])]|].

Lemma mem_write_frame me' : _mux_write_frame pc p me = Some me' -> mem_next me me'.
Proof.
  destruct pc; try done; simpl.
  - destruct (write_mu me) eqn:E; [done|]. intros [= <-]. split; [|done]. mkeep (FLock f k) (FHdr f k).
  - destruct (write_mu me) eqn:E; intros [= <-].
    + rewrite <-(set_mu_id me). by apply (mem_finish k _ p me (FTry f k)); try done; rewrite E.
    + split; [|done]. mkeep (FTry f k) (FHdr f k).
  - destruct (cut me); intros [= <-]; (split; [|done]); [mkeep (FHdr f k) (FUnlock (-1) k)|].
    destruct (snd f); [mkeep (FHdr f k) (FUnlock 0 k)|mkeep (FHdr f k) (FPay f k)].
  - destruct (cut me); intros [= <-]; (split; [|done]); [mkeep (FPay f k) (FUnlock (-1) k)|mkeep (FPay f k) (FUnlock 0 k)].
  - intros [= <-]. apply (mem_finish k rc p me (FUnlock rc k)); try done.
    pose proof (m_lock _ Hm) as HL. pose proof (sum_lookup (fun pc => Nat.b2n (locking pc)) _ _ _ Hp) as Hs. unfold count in HL. simpl in Hs.
    destruct (write_mu me); simpl in *; lia.
Qed.

Lemma add_stream_streams h m : streams (snd (_mux_add_stream true h m)) = streams m ++ [h].
Proof. unfold _mux_add_stream. by destruct (_ =? _)%nat. Qed.
Lemma add_stream_rest h m : let m' := snd (_mux_add_stream true h m) in
  accept_ch m' = accept_ch m /\ reader_done m' = reader_done m /\ mux_closed m' = mux_closed m /\ max_stream_window m' = max_stream_window m
  /\ next_stream_id m' = next_stream_id m.
Proof. unfold _mux_add_stream. by destruct (_ =? _)%nat. Qed.

Lemma mem_open a me' : a = yes \/ pc = OTake -> xylem_mux_open_stream a pc p me = Some me' -> mem_next me me'.
Proof.
  intros Hor. destruct pc; try done; simpl.
  - destruct (mux_closed (mx me)) eqn:E; [intros [= <-]; split; [|done]; mkeep OTake Idle|].
    unfold new_stream, mux_stream_create. destruct (_ && _); intros [= <-]; (split; [|done]); [|mkeep OTake Idle].
    eapply (mem_new _ _ _ OTake (FLock _ _)); try mside.
    unfold base. cbn -[occ]. rewrite one_eq. pose proof (m_range _ Hm (length (heap me)) (le_n _)) as Hz. unfold refs, base in Hz. simpl. lia.
  - destruct Hor as [->|]; [|done]. destruct (mux_closed (mx me)) eqn:E; intros [= <-]; (split; [|done]); [mkeep (OAdd h) (Unref 2 h)|].
    destruct (add_stream_rest h (mx me)) as (Ea & Er & _). mkeep (OAdd h) Idle.
    + cbn. rewrite add_stream_streams. by eexists.
    + cbn. rewrite Er. auto.
    + intros g. unfold base. cbn -[_mux_add_stream]. rewrite add_stream_streams, Ea, occ_app. unfold occ. simpl. lia.
Qed.

(** The scheduler lets a coroutine park. *)
Definition can_park (p : nat) (me : side) : Prop := forall verdict, exists w, forall m, coros m = coros me -> park_coro p verdict m = set_coros w m.
(** What is known before a step that might go wrong. *)
Definition step_ok (p : nat) (pc : mux_pc) (me : side) : Prop :=
  match pc with
  | Accept => receiving me = false
  | Rd h len => forall o, heap me !! h = Some o -> 0 < len /\ Z.of_nat (recv_len o) < 2 ^ 31
  | RdCommit h len => can_park p me /\ forall o, heap me !! h = Some o -> recv_waiter o = None
  | WrCommit h rest => can_park p me /\ forall o, heap me !! h = Some o -> send_waiter o = None
  | LBody hdr (Some _) => length_ hdr = 0 \/ 0 <= i32 (length_ hdr)
  | _ => True
  end.

Lemma mem_accept me' : step_ok p pc me -> xylem_mux_accept_stream pc p me = Some me' -> mem_next me me'.
Proof.
  intros Hgood. destruct pc; try done; simpl.
  - simpl in Hgood. rewrite Hgood. intros [= <-]. destruct (mux_closed (mx me)); (split; [|done]); [mkeep Accept Idle|mkeep Accept AcceptRecv].
  - destruct (accept_ch (mx me)) as [|h rest] eqn:E.
    + destruct (accept_closed (mx me)); [|done]. intros [= <-]. split; [|done]. mkeep AcceptRecv Idle.
    + intros [= <-]. split; [|done]. mkeep AcceptRecv Idle. intros g. unfold base. cbn -[occ]. rewrite E. unfold occ. simpl. lia.
Qed.

Lemma mem_read me' : step_ok p pc me -> xylem_mux_read pc p me = Some me' -> mem_next me me'.
Proof.
  intros Hgood. destruct pc; try done; simpl.
  - intros [= <-]. match goal with |- mem_next _ (on_stream h me ?f) => mstream h f end. rewrite E. destruct (Hgood o Ho) as [Hl1 Hl2].
    destruct (recv_buf o) as [|x buf] eqn:Eb; [split; [|done]; mkeep (Rd h len) (RdTest h len (state o))|].
    unfold read_section. rewrite Eb, i32_small by lia. clear E.
    assert ((if Z.of_nat (length (x :: buf)) <? len then Z.of_nat (length (x :: buf)) else len) <? 0 = false) as -> by (case_match; lia).
    destruct (_ <=? _); (split; [|done]).
    + mput (Rd h len) (FLock _ (KRead h)).
    + mput (Rd h len) (Unref 1 h).
  - intros [= <-]. match goal with |- mem_next _ (on_stream h me ?f) => mstream h f end. rewrite E. split; [|done].
    destruct (read_done st o); [mkeep (RdTest h len st) (Unref 1 h)|mkeep (RdTest h len st) (RdCommit h len)].
  - intros [= <-]. match goal with |- mem_next _ (on_stream h me ?f) => mstream h f end. rewrite E. destruct Hgood as [Hpk Hgood]. unfold _mux_recv_wait_commit_cb. rewrite (Hgood o Ho).
    destruct (_ || _); [destruct (Hpk false) as [w ->]|destruct (Hpk true) as [w ->]]; try done; (split; [|done]); mput (RdCommit h len) (RdParked h len).
  - destruct (resume p (coros me)); [|done]. intros [= <-]. split; [|done]. mkeep (RdParked h len) (Rd h len).
Qed.

Lemma mem_write me' : step_ok p pc me -> xylem_mux_write pc p me = Some me' -> mem_next me me'.
Proof.
  intros Hgood. destruct pc; try done; simpl.
  - destruct rest as [|x rest]; intros [= <-]; [split; [|done]; mkeep (Wr h []) (Unref 1 h)|].
    match goal with |- mem_next _ (on_stream h me ?f) => mstream h f end. rewrite E.
    destruct (write_closed o); [split; [|done]; mkeep (Wr h (x :: rest)) (Unref 1 h)|]. destruct (_ =? _); (split; [|done]).
    + mkeep (Wr h (x :: rest)) (WrCommit h (x :: rest)).
    + mkeep (Wr h (x :: rest)) (FLock _ (KWrite h _ _)).
  - intros [= <-]. match goal with |- mem_next _ (on_stream h me ?f) => mstream h f end. rewrite E. destruct Hgood as [Hpk Hgood]. unfold _mux_send_wait_commit_cb. rewrite (Hgood o Ho).
    destruct (_ || _); [destruct (Hpk false) as [w ->]|destruct (Hpk true) as [w ->]]; try done; (split; [|done]); mput (WrCommit h rest) (WrParked h rest).
  - destruct (resume p (coros me)); [|done]. intros [= <-]. split; [|done]. mkeep (WrParked h rest) (Wr h rest).
  - intros [= <-]. match goal with |- mem_next _ (on_stream h me ?f) => mstream h f end. rewrite E.
    split; [|done]. mput (WrSub h chunk rest) (Wr h _).
Qed.

Lemma mem_close_stream me' : xylem_mux_close_stream pc p me = Some me' -> mem_next me me'.
Proof.
  destruct pc; try done; simpl; intros [= <-];
    (match goal with |- mem_next _ (on_stream ?g me ?f) => mstream g f end); rewrite E.
  - destruct (closed o); (split; [|done]); [|mput (Cs h) (CsState h)].
    mkeep (Cs h) Idle.
  - split; [|done]. mput (CsState h) (FTry _ (KFin h)).
Qed.

Lemma mem_drop_refs me' : drop_refs pc p me = Some me' -> mem_next me me'.
Proof.
  destruct pc; try done; simpl. destruct n as [|n]; intros [= <-]; [split; [|done]; mkeep (Unref 0 h) Idle|].
  unfold unref_at. mstream h (fun s => put h (mux_stream_unref s) me). rewrite E.
  split; [|done]. destruct (Nat.eqb_spec n 0) as [->|Hn]; [mput (Unref 1 h) Idle|mput (Unref (S n) h) (Unref n h)].
Qed.

Lemma mem_close_session me' : _mux_close_session pc p me = Some me' -> mem_next me me'.
Proof.
  destruct pc; try done; simpl.
  - destruct (mux_closed (mx me)); intros [= <-]; (split; [|done]); [|mkeep (Cl a) (ClCount a)].
    destruct a; [mkeep (Cl ToIdle) Idle|mkeep (Cl ToTeardown) TdChan|mkeep (Cl ToDestroy) DWait].
  - intros [= <-]. split; [|done]. mkeep (ClCount a) (ClReset 0 _ a). intros i n b [= _ <- _]. done.
  - pose proof (m_reset _ Hm _ _ _ _ Hp) as Hn. destruct (Nat.ltb_spec i n) as [Hi|Hi].
    + destruct (lookup_lt_is_Some_2 (streams (mx me)) i ltac:(lia)) as [h Hh]. rewrite Hh. intros [= <-].
      match goal with |- mem_next _ (on_stream h me ?f) => destruct (on_stream_held me h f Hm) as (o & Ho & Hr & ->) end.
      { apply stream_held. by eapply list_elem_of_lookup_2. }
      split; [|done]. mput (ClReset i n a) (ClReset (S i) n a). by intros i' n' b [= _ <- _].
    + intros [= <-]. split; [|done]. mkeep (ClReset i n a) (FTry go_away_frame (KGoAway a)).
  - intros [= <-]. split; [|done]. destruct a; [mkeep (ClTransport ToIdle) Idle|mkeep (ClTransport ToTeardown) TdChan|mkeep (ClTransport ToDestroy) DWait].
Qed.
End steps.

(** ** Destroying *)

Lemma unref_all l : forall me,
  (forall g, g ∈ l -> exists o, heap me !! g = Some o /\ Z.of_nat (occ g l) <= refcnt o) ->
  exists hp, fold_left (fun me h => unref_at h me) l me = set_heap hp me /\ length hp = length (heap me)
    /\ forall g o', hp !! g = Some o' -> exists o, heap me !! g = Some o /\ o' = with_refcnt (refcnt o - Z.of_nat (occ g l)) o.
Proof.
  induction l as [|h l IH]; intros me Hl.
  - exists (heap me). split_and!; [by destruct me|done|]. intros g o' Ho. exists o'. split; [done|]. unfold occ. simpl. rewrite Z.sub_0_r. by destruct o'.
  - destruct (Hl h ltac:(set_solver)) as (o & Ho & Hr). cbn [fold_left].
    assert (occ h (h :: l) = S (occ h l)) as Eo by (unfold occ; simpl; by rewrite one_eq). rewrite Eo in Hr.
    assert (unref_at h me = put h (mux_stream_unref o) me) as -> by (unfold unref_at, on_stream; rewrite Ho, (proj2 (Z.ltb_lt _ _)) by lia; done).
    destruct (IH (put h (mux_stream_unref o) me)) as (hp & -> & Hlen & Hrc).
    { intros g Hg. simpl. destruct (decide (g = h)) as [->|Hne].
      - rewrite list_lookup_insert_eq by (by eapply lookup_lt_Some). eexists. split; [done|]. simpl. lia.
      - rewrite list_lookup_insert_ne by done. destruct (Hl g ltac:(set_solver)) as (og & Hog & Hrg). exists og. split; [done|].
        unfold occ in *. simpl in Hrg. lia. }
    exists hp. split_and!; [done|by rewrite Hlen; simpl; rewrite length_insert|]. intros g o' Ho'. destruct (Hrc g o' Ho') as (o1 & Ho1 & ->). simpl in Ho1.
    destruct (decide (g = h)) as [->|Hne].
    + rewrite list_lookup_insert_eq in Ho1 by (by eapply lookup_lt_Some). injection Ho1 as <-. exists o. split; [done|]. rewrite Eo. unfold with_refcnt, mux_stream_unref. simpl. f_equal. lia.
    + rewrite list_lookup_insert_ne in Ho1 by done. exists o1. split; [done|]. unfold occ. simpl. by rewrite one_ne by done.
Qed.

Lemma free_all me : mem_ok me -> exists hp,
  fold_left (fun me h => unref_at h me) (accept_ch (mx me) ++ streams (mx me)) me = set_heap hp me /\ length hp = length (heap me)
  /\ forall g o', hp !! g = Some o' ->
     exists o, heap me !! g = Some o /\ o' = with_refcnt (refcnt o - Z.of_nat (occ g (accept_ch (mx me) ++ streams (mx me)))) o.
Proof.
  intros Hm. apply unref_all. intros g Hg. apply occ_elem in Hg as Hpos. destruct (held_alive me g Hm) as (o & Ho & Hr).
  - unfold refs, base. rewrite occ_app in Hpos. lia.
  - exists o. split; [done|]. rewrite (m_count _ Hm g o Ho). unfold refs, base. rewrite occ_app. lia.
Qed.

Lemma count_other f l p q pc pcq : f Idle = false -> (count f l <= 1)%nat -> l !! p = Some pc -> f pc = true -> l !! q = Some pcq -> q <> p -> f pcq = false.
Proof.
  intros Hi0 Hc Hp Hf Hq Hne. pose proof (sum_insert (fun pc => Nat.b2n (f pc)) _ _ _ Idle Hp) as Hi. simpl in Hi. rewrite Hf, Hi0 in Hi. unfold count in Hc.
  assert (<[p := Idle]> l !! q = Some pcq) as Hq' by (by rewrite list_lookup_insert_ne).
  pose proof (sum_lookup (fun pc => Nat.b2n (f pc)) _ _ _ Hq') as Hs. simpl in Hs. destruct (f pcq); [|done]. simpl in *. lia.
Qed.

(** Everybody has left when the destroyer has seen the reader's last store. *)
Lemma left_behind me p : mem_ok me -> procs me !! p = Some DWait -> reader_done (mx me) = true ->
  destroying me = true /\ forall q pc, procs me !! q = Some pc -> q = p \/ at_rest pc = true.
Proof.
  intros Hm Hp Hd. pose proof (m_leaving _ Hm) as HL.
  pose proof (sum_lookup (fun pc => Nat.b2n (leaving pc)) _ _ _ Hp) as Hs. unfold count in HL. simpl in Hs.
  destruct (destroying me) eqn:Ed; simpl in HL; [|lia]. split; [done|]. intros q pc Hq.
  destruct (decide (q = p)) as [->|Hne]; [by left|]. right. pose proof (m_destroying _ Hm _ _ Ed Hq) as Hk.
  rewrite (count_other leaving _ p q DWait pc eq_refl HL) in Hk by done. destruct (Nat.eqb_spec q 0) as [->|Hq0].
  - rewrite (m_done _ Hm Hd) in Hq. by injection Hq as <-.
  - rewrite !orb_false_r in Hk. by destruct pc.
Qed.

Lemma mem_destroy me p pc me' : mem_ok me -> freed me = false -> procs me !! p = Some pc ->
  xylem_mux_destroy pc p me = Some me' -> mem_next me me'.
Proof.
  intros Hm Hf Hp. destruct pc; try done; simpl. destruct (reader_done (mx me)) eqn:Ed; intros [= <-]; [|done].
  destruct (left_behind me p Hm Hp Ed) as [Hd Hrest].
  assert (forall g, sum_list_with (fun pc => pins pc g) (procs me) = 0%nat) as Hz.
  { intros g. apply sum_zero. intros q pc Hq. destruct (Hrest q pc Hq) as [->|Hr]; [by rewrite Hp in Hq; injection Hq as <-|by destruct pc]. }
  unfold _mux_free. destruct (free_all me Hm) as (hp & -> & Hlen & Hrc).
  split; [|done].
  assert (forall q pcq, <[p := Idle]> (procs me) !! q = Some pcq -> at_rest pcq = true) as Hall.
  { intros q pcq. rewrite list_lookup_insert_Some. intros [(<- & <- & _)|[Hne Hq]]; [done|]. by destruct (Hrest q pcq Hq) as [->|]. }
  assert (forall g, sum_list_with (fun pc => pins pc g) (<[p := Idle]> (procs me)) = 0%nat) as Hz'.
  { intros g. apply sum_zero. intros q pc Hq. apply Hall in Hq. by destruct pc. }
  split; unfold refs, base; simpl.
  - intros g o' Ho'. destruct (Hrc g o' Ho') as (o & Ho & ->). cbn [refcnt with_refcnt]. rewrite (m_count _ Hm g o Ho), Hz'. unfold refs, base. rewrite Hz, occ_app. change (occ g []) with 0%nat. lia.
  - intros g Hg. rewrite Hlen in Hg. pose proof (m_range _ Hm g Hg) as Hr. unfold refs, base in Hr. rewrite Hz'. change (occ g []) with 0%nat. lia.
  - intros q pc h Hq Hu. apply Hall in Hq. destruct pc; try done; by apply elem_of_nil in Hu.
  - intros q i n a Hq. by apply Hall in Hq.
  - intros q pc. rewrite list_lookup_insert_Some. intros [(<- & <- & _)|[Hne Hq]]; [pose proof (m_reader _ Hm _ _ Hp) as H0; exact H0|by apply (m_reader _ Hm)].
  - intros _. pose proof (m_done _ Hm Ed) as H0. rewrite list_lookup_insert_ne; [done|]. intros ->. congruence.
  - unfold count. rewrite sum_zero; [lia|]. intros q pc Hq. apply Hall in Hq. by destruct pc.
  - intros q pc _. rewrite list_lookup_insert_Some. intros [(<- & <- & _)|[Hne Hq]]; [done|by apply (m_destroying _ Hm)].
  - intros q pc _. apply Hall.
  - done.
  - unfold count. rewrite sum_zero; [|intros q pc Hq; apply Hall in Hq; by destruct pc].
    pose proof (m_lock _ Hm) as HL. unfold count in HL. rewrite sum_zero in HL; [done|].
    intros q pc Hq. destruct (Hrest q pc Hq) as [->|Hr]; [by rewrite Hp in Hq; injection Hq as <-|by destruct pc].
Qed.

(** ** The reader *)

Lemma find_stream_in m hp i h : _mux_find_stream m hp i = Some h -> h ∈ streams m /\ has_id hp i h = true.
Proof. intros [Hin Hid]%List.find_some. split; [by apply list_elem_of_In|done]. Qed.

Section reader_steps.
Context (me peer : side) (p : nat) (pc : mux_pc).
Hypotheses (Hm : mem_ok me) (Hf : freed me = false) (Hp : procs me !! p = Some pc).

Ltac ustream := match goal with |- mem_next _ (on_stream ?h me ?f) =>
  destruct (on_stream_held me h f Hm) as (o & Ho & Hr & ->); [by (eapply stream_held, (m_uses _ Hm); [done|cbn; set_solver])|] end.

Lemma mem_reader_loop me' peer' : _mux_reader_loop pc p me peer = Some (me', peer') -> mem_next me me'.
Proof.
  destruct pc; try done; simpl.
  - intros [= <- <-]. split; [|done]. destruct (mux_closed (mx me)); [mkeep LTop (Cl ToTeardown)|mkeep LTop LHdr].
  - destruct (cut me); [intros [= <- <-]; split; [|done]; mkeep LHdr (Cl ToTeardown)|].
    destruct (read_full _ _); [|done]. intros [= <- <-]. split; [|done]. destruct (_ =? _); [mkeep LHdr (LDisp _)|mkeep LHdr (Cl ToTeardown)].
  - intros [= <- <-]. split; [|done]. unfold _mux_dispatch. repeat case_match.
    + mkeep (LDisp hdr) (LFind hdr).
    + mkeep (LDisp hdr) (LSyn hdr).
    + mkeep (LDisp hdr) (LWuFind hdr).
    + mkeep (LDisp hdr) LTop.
    + mkeep (LDisp hdr) (FLock _ KReader).
    + mkeep (LDisp hdr) (Cl ToTeardown).
    + mkeep (LDisp hdr) LTop.
  - intros [= <- <-]. split; [|done]. mkeep TdChan TdDone.
  - intros [= <- <-]. split; [|done]. mkeep TdDone LDone.
Qed.

Lemma mem_handle_data me' peer' :
  (forall hdr h, pc = LBody hdr (Some h) -> length_ hdr = 0 \/ 0 <= i32 (length_ hdr)) ->
  _mux_handle_data yes pc p me peer = Some (me', peer') -> mem_next me me'.
Proof.
  intros Hgood. destruct pc; try done; simpl.
  - intros [= <- <-]. split; [|done]. destruct (flag _ _); [mkeep (LFind hdr) (LSyn hdr)|]. mkeep (LFind hdr) (LBody hdr _).
    cbn. intros h. destruct (_mux_find_stream _ _ _) eqn:E; [|by intros ?%elem_of_nil]. intros ->%list_elem_of_singleton. by eapply find_stream_in.
  - assert (forall h, h ∈ uses (LBody hdr oh) -> h ∈ streams (mx me)) as Hu by (intros h Hh; by eapply (m_uses _ Hm)).
    destruct (Z.eqb_spec (length_ hdr) 0) as [E0|E0].
    { intros [= <- <-]. split; [|done]. destruct oh as [h|]; [mkeep (LBody hdr (Some h)) (LFin hdr h)|mkeep (LBody hdr None) LTop]. }
    rewrite andb_false_r. destruct (Z.ltb_spec (i32 (length_ hdr)) 0) as [E1|E1].
    { destruct oh as [h|]; [by destruct (Hgood hdr h eq_refl); [|lia]|]. intros [= <- <-]. split; [|done]. mkeep (LBody hdr None) LTop. }
    destruct (cut me).
    { intros [= <- <-]. split; [|done]. destruct oh as [h|]; [mkeep (LBody hdr (Some h)) (LFin hdr h)|mkeep (LBody hdr None) (Cl ToTeardown)]. }
    destruct (read_full _ _) as [payload|]; [|done]. simpl. destruct oh as [h|]; intros [= <- <-]; (split; [|done]).
    + mkeep (LBody hdr (Some h)) (LPush hdr h payload).
    + mkeep (LBody hdr None) LTop.
  - intros [= <- <-]. ustream.
    split; [|done]. mput (LPush hdr h payload) (LFin hdr h).
    + cbn. intros h' Hh. by eapply (m_uses _ Hm).
    + unfold mux_stream_push_data. destruct (_ =? _)%nat; [mref|]. rewrite andb_false_r. mref.
  - destruct (flag _ _); intros [= <- <-].
    + ustream.
      split; [|done]. mput (LFin hdr h) (LRst hdr h); [cbn; intros h' Hh; by eapply (m_uses _ Hm)|].
      unfold mux_stream_notify_remote_fin. destruct (state o); mref.
    + split; [|done]. mkeep (LFin hdr h) (LRst hdr h). cbn; intros h' Hh; by eapply (m_uses _ Hm).
  - destruct (flag _ _); intros [= <- <-].
    + ustream.
      split; [|done]. mput (LRst hdr h) LTop.
    + split; [|done]. mkeep (LRst hdr h) LTop.
Qed.

Lemma mem_window_update me' : _mux_handle_window_update pc p me = Some me' -> mem_next me me'.
Proof.
  destruct pc; try done; simpl; intros [= <-].
  - destruct (_mux_find_stream _ _ _) eqn:E; (split; [|done]).
    + mkeep (LWuFind hdr) (LWu hdr n). cbn. intros h ->%list_elem_of_singleton. by eapply find_stream_in.
    + mkeep (LWuFind hdr) LTop.
  - ustream. split; [|done]. mput (LWu hdr h) LTop.
Qed.

Lemma mem_accept_syn me' : accept_syn yes pc p me = Some me' -> mem_next me me'.
Proof.
  destruct pc; try done; simpl.
  - unfold _mux_accept_syn. destruct (mux_closed (mx me)) eqn:Ec.
    { intros [= <-]. split; [|done]. destruct (_ =? _); [mkeep (LSyn hdr) (LBody hdr None)|mkeep (LSyn hdr) (LWuFind hdr)]. }
    destruct (_mux_find_stream _ _ _) as [h|] eqn:E.
    { intros [= <-]. apply find_stream_in in E as [Hin _]. split; [|done]. destruct (_ =? _); [mkeep (LSyn hdr) (LBody hdr (Some h))|mkeep (LSyn hdr) (LWuFind hdr)].
      cbn. by intros h' ->%list_elem_of_singleton. }
    intros [= <-]. destruct (add_stream_rest (length (heap me)) (mx me)) as (Ea & Er & _). split; [|done].
    eapply (mem_new _ _ _ (LSyn hdr) (LSend hdr (length (heap me)))); try mside.
    + cbn. rewrite add_stream_streams. by eexists.
    + cbn. rewrite add_stream_streams. set_solver.
    + cbn. rewrite Er. auto.
    + unfold base. cbn -[occ _mux_add_stream]. rewrite add_stream_streams, Ea, occ_app, one_eq.
      pose proof (m_range _ Hm (length (heap me)) (le_n _)) as Hz. unfold refs, base in Hz. unfold occ at 2. simpl. rewrite one_eq. lia.
    + intros g Hg. unfold base. cbn -[occ _mux_add_stream]. rewrite add_stream_streams, Ea, occ_app. unfold occ at 2. simpl. rewrite one_ne by done. lia.
  - intros [= <-]. split; [|done].
    assert (h ∈ streams (mx me)) as Hin by (eapply (m_uses _ Hm); [done|cbn; set_solver]).
    destruct (_ =? _); [mkeep (LSend hdr h) (LBody hdr (Some h))|mkeep (LSend hdr h) (LWuFind hdr)].
    + cbn. by intros h' ->%list_elem_of_singleton.
    + intros g. unfold base. cbn -[occ]. rewrite occ_app. unfold occ at 3. simpl. lia.
    + intros g. unfold base. cbn -[occ]. rewrite occ_app. unfold occ at 3. simpl. lia.
Qed.
End reader_steps.

Lemma mem_go a me peer p pc me' peer' : a = yes \/ pc = OTake ->
  mem_ok me -> freed me = false -> procs me !! p = Some pc -> step_ok p pc me ->
  mux_go a pc p me peer = Some (me', peer') -> mem_next me me' /\ exists o fs, peer' = set_out o fs peer.
Proof.
  intros Ha Hm Hf Hp Hgood. assert (peer = set_out (out peer) (pend peer) peer) as Eid by (by destruct peer).
  destruct pc; unfold mux_go; try done; try (destruct Ha as [->|]; [|done]);
    try (intros (me1 & Hs & [= <- <-])%fmap_Some; split; [|by eexists _, _]).
  1-5: by eapply mem_write_frame.
  1-2: eapply mem_open; [done..|by auto|done].
  1-2: by eapply mem_accept.
  1-4: by eapply mem_read.
  1-4: by eapply mem_write.
  1: by eapply mem_drop_refs.
  1-2: by eapply mem_close_stream.
  1-4: by eapply mem_close_session.
  1: by eapply mem_destroy.
  all: try by eapply mem_accept_syn.
  all: try by eapply mem_window_update.
  all: intros Hs; split; [try (by eapply mem_reader_loop);
    (eapply mem_handle_data; [done|done|done| |done]; try done; intros ? h [= -> ->]; apply Hgood)|].
  all: revert Hs; simpl; unfold mbind, option_bind; repeat case_match; intros; simplify_eq; by eexists _, _.
Qed.

Lemma mem_set_out me o fs : mem_ok me -> mem_ok (set_out o fs me).
Proof. by intros []. Qed.
Lemma mem_set_cut me : mem_ok me -> mem_ok (set_cut me).
Proof. by intros []. Qed.

(** Nothing else is going on when the destruction of the session begins. *)
Lemma mem_begin_destroy me p : mem_ok me -> procs me !! p = Some Idle -> destroying me = false -> freed me = false ->
  forallb is_idle (drop 1 (procs me)) = true -> mem_ok (at_pc p (Cl ToDestroy) (set_destroying me)).
Proof.
  intros Hm Hp Hd Hf Hall.
  assert (forall q pc, procs me !! q = Some pc -> pc = Idle \/ q = 0%nat /\ is_reader pc = true) as Hq.
  { intros [|q] pc Hpc; [right; split; [done|exact (m_reader _ Hm _ _ Hpc)]|]. left. rewrite forallb_forall in Hall.
    specialize (Hall pc). destruct pc; try done; discriminate Hall; apply list_elem_of_In, list_elem_of_lookup; exists q; by rewrite lookup_drop. }
  assert (p <> 0%nat) as Hp0 by (intros ->; pose proof (m_reader _ Hm _ _ Hp); done).
  assert (Hlt : (p < length (procs me))%nat) by (by eapply lookup_lt_Some).
  assert (forall q pc, <[p := Cl ToDestroy]> (procs me) !! q = Some pc -> q = p /\ pc = Cl ToDestroy \/ q <> p /\ procs me !! q = Some pc) as Hi.
  { intros q pc. rewrite list_lookup_insert_Some. naive_solver. }
  assert (forall f : mux_pc -> nat, f Idle = f (Cl ToDestroy) -> sum_list_with f (<[p := Cl ToDestroy]> (procs me)) = sum_list_with f (procs me)) as Hsum.
  { intros f Ef. pose proof (sum_insert f _ _ _ (Cl ToDestroy) Hp). lia. }
  split; unfold refs; simpl.
  - intros g o Ho. rewrite (Hsum (fun pc => pins pc g)) by done. by apply (m_count _ Hm).
  - intros g Hg. rewrite (Hsum (fun pc => pins pc g)) by done. by apply (m_range _ Hm).
  - intros q pc h [[-> ->]|[_ Hpc]]%Hi; [by intros ?%elem_of_nil|by apply (m_uses _ Hm q)].
  - intros q i n a [[_ E]|[_ Hpc]]%Hi; [done|by eapply (m_reset _ Hm)].
  - intros q pc [[-> ->]|[_ Hpc]]%Hi; [by destruct p|by apply (m_reader _ Hm)].
  - intros Hr. rewrite list_lookup_insert_ne by done. by apply (m_done _ Hm).
  - pose proof (sum_insert (fun pc => Nat.b2n (leaving pc)) _ _ _ (Cl ToDestroy) Hp) as Hs. simpl in Hs.
    pose proof (m_leaving _ Hm) as HL. rewrite Hd in HL. unfold count in *. simpl in *. lia.
  - intros q pc _ [[-> ->]|[_ Hpc]]%Hi; [done|]. destruct (Hq q pc Hpc) as [->|[-> _]]; [done|]. by rewrite orb_true_r.
  - congruence.
  - done.
  - unfold count. rewrite Hsum by done. apply (m_lock _ Hm).
Qed.

Lemma mem_begin me p c : mem_ok me -> procs me !! p = Some Idle -> allowed c me = true -> mem_next me (begin c p me).
Proof.
  intros Hm Hp [Hd Hc]%andb_true_iff. apply negb_true_iff in Hd.
  assert (freed me = false) as Hf by (destruct (freed me) eqn:E; [rewrite (m_freed_streams _ Hm E) in Hd; done|done]).
  destruct c as [| |h len|h data|h|h d|h d| |]; simpl in *.
  - split; [|done]. mkeep Idle OTake.
  - split; [|done]. mkeep Idle Accept.
  - repeat (apply andb_true_iff in Hc as [Hc ?]). apply bool_decide_eq_true in Hc.
    destruct (len <=? 0); [done|]. destruct (on_stream_held me h (fun s => at_pc p (Rd h len) (put h (mux_stream_ref s) me)) Hm) as (o & Ho & Hr & ->); [by apply owned_held|].
    split; [|done]. mput Idle (Rd h len).
  - repeat (apply andb_true_iff in Hc as [Hc ?]). apply bool_decide_eq_true in Hc.
    destruct data as [|x data]; [done|].
    destruct (on_stream_held me h (fun s => at_pc p (Wr h (x :: data)) (put h (mux_stream_ref s) me)) Hm) as (o & Ho & Hr & ->); [by apply owned_held|].
    split; [|done]. mput Idle (Wr h (x :: data)).
  - apply bool_decide_eq_true in Hc. split; [|done]. mkeep Idle (Cs h).
    intros g. unfold base. cbn -[occ]. pose proof (occ_remove1 g h _ Hc). lia.
  - apply bool_decide_eq_true in Hc.
    destruct (on_stream_held me h (fun s => at_pc p Idle (put h (xylem_mux_set_read_deadline d s) me)) Hm) as (o & Ho & Hr & ->); [by apply owned_held|].
    split; [|done]. mput Idle Idle.
  - apply bool_decide_eq_true in Hc.
    destruct (on_stream_held me h (fun s => at_pc p Idle (put h (xylem_mux_set_write_deadline d s) me)) Hm) as (o & Ho & Hr & ->); [by apply owned_held|].
    split; [|done]. mput Idle Idle.
  - split; [|done]. mkeep Idle (Cl ToIdle).
  - split; [|done]. by apply mem_begin_destroy.
Qed.
