(* ===== verification/MuxFlow.v ===== *)
(** * Multiplexer: what flows between the two ends

    The quantities the invariant of a connection is about, how they change when one
    coroutine moves, and the invariant itself: [local] for one end, [pair] for the
    bytes that go from one end to the other and the windows that come back. *)

From S2P Require Import Prelude Interleave Parking MuxFrame Mux MuxMemory.

(** ** Quantities of one end *)

(** What a list of numbered pieces, or of numbered amounts, holds for stream [x]. *)
Definition log_of (x : Z) (l : list (Z * list Z)) : list Z := l ≫= (fun e => if fst e =? x then snd e else []).
Fixpoint sum_of (x : Z) (l : list (Z * Z)) : Z :=
  match l with [] => 0 | e :: l => (if fst e =? x then snd e else 0) + sum_of x l end.

Definition update_of (f : frame) : list (Z * Z) :=
  if type (fst f) =? MUX_TYPE_WINDOW_UPDATE then [(stream_id (fst f), length_ (fst f))] else [].
Definition frames_data (x : Z) (fs : list frame) : list Z := log_of x (fs ≫= data_of).
Definition frames_update (x : Z) (fs : list frame) : Z := sum_of x (fs ≫= update_of).

Definition buf_of (x : Z) (hp : heap_t) : list Z := hp ≫= (fun o => if id o =? x then recv_buf o else []).
Definition has_object (x : Z) (hp : heap_t) : bool := existsb (fun o => id o =? x) hp.

(** The header the reader works on while the payload has not been read. *)
Definition reader (me : side) : mux_pc := default LDone (procs me !! 0%nat).
Definition before_body (pc : mux_pc) : option _mux_frame_hdr_t :=
  match pc with LDisp hdr | LFind hdr | LSyn hdr | LSend hdr _ | LBody hdr _ => Some hdr | _ => None end.
Definition coming_bytes (me : side) : list Z := match before_body (reader me) with Some _ => cur me | None => [] end.
Definition coming_data (x : Z) (me : side) : list Z :=
  match before_body (reader me) with Some hdr => log_of x (data_of (hdr, cur me)) | None => [] end.
Definition in_hand (x : Z) (me : side) : list Z :=
  match reader me with LPush hdr _ payload => if stream_id hdr =? x then payload else [] | _ => [] end.
(** A window update the reader has not applied yet. *)
Definition update_hdr (pc : mux_pc) : option _mux_frame_hdr_t :=
  match pc with LWuFind hdr | LWu hdr _ => Some hdr | _ => before_body pc end.
Definition update_in_hand (x : Z) (me : side) : Z :=
  match update_hdr (reader me) with Some hdr => sum_of x (update_of (hdr, [])) | None => 0 end.

(** Frames a coroutine has not put on the wire yet, and the payload it still has to write. *)
Definition pc_update (x : Z) (pc : mux_pc) : Z := match pc with FLock f _ | FHdr f _ => sum_of x (update_of f) | _ => 0 end.
Fixpoint held_update (x : Z) (l : list mux_pc) : Z := match l with [] => 0 | pc :: l => pc_update x pc + held_update x l end.
Definition lack (pc : mux_pc) : list Z := match pc with FPay f _ => snd f | _ => [] end.
Definition lacking (me : side) : list Z := procs me ≫= lack.
Definition unsent_pc (x : Z) (pc : mux_pc) : bool :=
  match pc with FLock f (KOpen _) | FHdr f (KOpen _) => stream_id (fst f) =? x | _ => false end.

(** Bytes on the wire that have not been subtracted from the window. *)
Definition unsubtracted (h : nat) (pc : mux_pc) : nat :=
  match pc with FPay _ (KWrite g c _) | FUnlock 0 (KWrite g c _) | WrSub g c _ => (one g h * c)%nat | _ => 0%nat end.
Definition opening (h : nat) (pc : mux_pc) : nat :=
  match pc with FLock _ (KOpen g) | FHdr _ (KOpen g) | FUnlock _ (KOpen g) | OAdd g => one g h | _ => 0%nat end.
Definition writes (h : nat) (pc : mux_pc) : nat := match writing pc with Some g => one g h | None => 0%nat end.

(** ** Lemmas on the quantities *)

Lemma log_of_app x l k : log_of x (l ++ k) = log_of x l ++ log_of x k.
Proof. apply bind_app. Qed.
Lemma sum_of_app x l k : sum_of x (l ++ k) = sum_of x l + sum_of x k.
Proof. induction l as [|e l IH]; simpl; lia. Qed.
Lemma frames_data_app x fs gs : frames_data x (fs ++ gs) = frames_data x fs ++ frames_data x gs.
Proof. unfold frames_data. by rewrite bind_app, log_of_app. Qed.
Lemma frames_update_app x fs gs : frames_update x (fs ++ gs) = frames_update x fs + frames_update x gs.
Proof. unfold frames_update. by rewrite bind_app, sum_of_app. Qed.
Lemma frames_data_one x f : frames_data x [f] = log_of x (data_of f).
Proof. unfold frames_data. by rewrite bind_singleton. Qed.
Lemma frames_update_one x f : frames_update x [f] = sum_of x (update_of f).
Proof. unfold frames_update. by rewrite bind_singleton. Qed.
Lemma held_insert x l p pc pc' : l !! p = Some pc -> held_update x (<[p := pc']> l) = held_update x l - pc_update x pc + pc_update x pc'.
Proof.
  revert p. induction l as [|y l IH]; intros [|p] Hp; simpl in *; [done..|simplify_eq; lia|]. rewrite IH by done. lia.
Qed.
(** Only one element contributes. *)
Lemma bind_none {A B} (f : A -> list B) l : (forall q y, l !! q = Some y -> f y = []) -> l ≫= f = [].
Proof.
  induction l as [|z l IH]; intros Hz; [done|]. rewrite bind_cons, (Hz 0%nat z eq_refl), IH; [done|]. intros q w Hq. by apply (Hz (S q)).
Qed.
Lemma bind_only {A B} (f : A -> list B) l p x : l !! p = Some x -> (forall q y, q <> p -> l !! q = Some y -> f y = []) -> l ≫= f = f x.
Proof.
  revert p. induction l as [|y l IH]; intros [|p] Hp Hf; [done..| |]; rewrite bind_cons.
  - injection Hp as ->. rewrite bind_none, app_nil_r; [done|]. intros q z Hq. by apply (Hf (S q)).
  - rewrite (Hf 0%nat y) by done. simpl. apply (IH p); [done|]. intros q z Hq Hz. by apply (Hf (S q)); [lia|].
Qed.
Lemma bind_insert_same {A B} (f : A -> list B) l p x y : l !! p = Some x -> f x = f y -> <[p := y]> l ≫= f = l ≫= f.
Proof.
  revert p. induction l as [|z l IH]; intros [|p] Hp Hf; [done..| |].
  - injection Hp as ->. cbn [insert list_insert]. by rewrite !bind_cons, Hf.
  - change (<[S p := y]> (z :: l)) with (z :: <[p := y]> l). by rewrite !bind_cons, (IH p).
Qed.

(** Streams that agree in what the flow depends on. *)
Definition same_flow (o o' : xylem_mux_stream_s) : Prop :=
  id o' = id o /\ recv_buf o' = recv_buf o /\ recv_window o' = recv_window o /\ send_window o' = send_window o.
#[export] Instance same_flow_refl : Reflexive same_flow.
Proof. intros o. by split_and!. Qed.

Definition distinct_ids (hp : heap_t) : Prop := forall h1 h2 o1 o2, hp !! h1 = Some o1 -> hp !! h2 = Some o2 -> id o1 = id o2 -> h1 = h2.

Lemma buf_of_object hp h o : distinct_ids hp -> hp !! h = Some o -> buf_of (id o) hp = recv_buf o.
Proof.
  intros Hd Hh. unfold buf_of. rewrite (bind_only _ hp h o Hh); [by rewrite Z.eqb_refl|].
  intros q y Hq Hy. destruct (Z.eqb_spec (id y) (id o)) as [E|]; [|done]. by rewrite (Hd _ _ _ _ Hy Hh E) in Hq.
Qed.
Lemma distinct_insert hp h o o' : distinct_ids hp -> hp !! h = Some o -> id o' = id o -> distinct_ids (<[h := o']> hp).
Proof.
  intros Hd Hh E h1 h2 o1 o2. pose proof (lookup_lt_Some _ _ _ Hh) as Hlt.
  rewrite !list_lookup_insert_Some. intros [(<- & <- & _)|[Hn1 H1]] [(<- & <- & _)|[Hn2 H2]] Ei; [done| | |by eapply Hd].
  - by eapply (Hd h h2 o o2); [done..|congruence].
  - by eapply (Hd h1 h o1 o); [done..|congruence].
Qed.
Lemma buf_of_insert hp h o o' x : distinct_ids hp -> hp !! h = Some o -> id o' = id o ->
  buf_of x (<[h := o']> hp) = if id o =? x then recv_buf o' else buf_of x hp.
Proof.
  intros Hd Hh E. pose proof (lookup_lt_Some _ _ _ Hh) as Hlt. destruct (Z.eqb_spec (id o) x) as [<-|Hne].
  - rewrite <-E. eapply buf_of_object; [by eapply distinct_insert|]. by rewrite list_lookup_insert_eq.
  - apply (bind_insert_same _ _ _ o); [done|]. rewrite E. by rewrite (proj2 (Z.eqb_neq _ _) Hne).
Qed.
Lemma has_object_insert hp h o o' x : hp !! h = Some o -> id o' = id o -> has_object x (<[h := o']> hp) = has_object x hp.
Proof.
  revert h. induction hp as [|y hp IH]; intros [|h] Hh E; simpl in *; [done..| |].
  - injection Hh as ->. by rewrite E.
  - by rewrite (IH h).
Qed.
Lemma has_object_spec x hp : has_object x hp = true <-> exists h o, hp !! h = Some o /\ id o = x.
Proof.
  unfold has_object. rewrite existsb_exists. split.
  - intros (o & Ho & E). apply list_elem_of_In, list_elem_of_lookup in Ho as [h Hh]. exists h, o. split; [done|lia].
  - intros (h & o & Hh & <-). exists o. split; [|apply Z.eqb_refl]. apply list_elem_of_In. by eapply list_elem_of_lookup_2.
Qed.
Lemma has_object_app x hp o : has_object x (hp ++ [o]) = has_object x hp || (id o =? x).
Proof. unfold has_object. rewrite existsb_app. simpl. by rewrite orb_false_r. Qed.
Lemma buf_of_app x hp o : buf_of x (hp ++ [o]) = buf_of x hp ++ (if id o =? x then recv_buf o else []).
Proof. unfold buf_of. by rewrite bind_app, bind_singleton. Qed.
Lemma buf_of_none x hp : has_object x hp = false -> buf_of x hp = [].
Proof.
  induction hp as [|o hp IH]; simpl; [done|]. intros [H1 H2]%orb_false_iff. unfold buf_of. simpl. rewrite H1. by apply IH.
Qed.

(** ** The invariant *)

Section invariant.
Context (win : bool -> Z).
Hypotheses (Hwin : forall b, 0 < win b) (Hwins : win false + win true < 2 ^ 31).

(** The end that opened a stream: the client opens odd numbers. *)
Definition own (b : bool) (x : Z) : bool := Bool.eqb (Z.even x) b.
(** What the peer may send beyond its own window: the first window update of an opened
    stream grants the receive window a second time. *)
Definition extra (b : bool) (x : Z) : Z := if own b x then win b else 0.

Definition writer_ok (me : side) (h chunk : nat) (rest : list Z) : Prop :=
  h ∈ streams (mx me) /\ 0 < Z.of_nat chunk <= MUX_MAX_FRAME_PAYLOAD /\ (chunk <= length rest)%nat /\ Z.of_nat (length rest) < 2 ^ 31
  /\ exists o, heap me !! h = Some o /\ (cut me = false -> Z.of_nat chunk <= send_window o).
Definition frame_of_cont (b : bool) (me : side) (f : frame) (k : cont) : Prop :=
  match k with
  | KOpen h => exists o, heap me !! h = Some o /\ own b (id o) = true /\ f = update_frame MUX_FLAG_SYN (id o) (win b)
  | KWrite h chunk rest => writer_ok me h chunk rest /\ exists o, heap me !! h = Some o /\ f = data_frame (id o) 0 (take chunk rest)
  | KRead h => h ∈ streams (mx me) /\ exists o d, heap me !! h = Some o /\ ubound 32 d /\ f = update_frame 0 (id o) d
  | KFin h => h ∈ streams (mx me) /\ exists o, heap me !! h = Some o /\ f = data_frame (id o) MUX_FLAG_FIN []
  | KReader => False
  | KGoAway _ => f = go_away_frame
  end.
Definition for_stream (me : side) (hdr : _mux_frame_hdr_t) (h : nat) : Prop := exists o, heap me !! h = Some o /\ id o = stream_id hdr.
Definition pc_ok (b : bool) (me : side) (pc : mux_pc) : Prop :=
  match pc with
  | FLock f k => frame_of_cont b me f k /\ match k with KFin _ | KGoAway _ => False | _ => True end
  | FTry f k => frame_of_cont b me f k /\ match k with KFin _ | KGoAway _ => True | _ => False end
  | FHdr f k => frame_of_cont b me f k
  | FPay f k => frame_of_cont b me f k /\ match k with KWrite _ _ _ => True | _ => False end
  | FUnlock rc k => match k with KWrite h chunk rest => writer_ok me h chunk rest | KReader => False | _ => True end
                    /\ (rc = 0 \/ cut me = true)
  | WrSub h chunk rest => writer_ok me h chunk rest
  | Wr h rest | WrCommit h rest | WrParked h rest => h ∈ streams (mx me) /\ Z.of_nat (length rest) < 2 ^ 31
  | Rd h len | RdTest h len _ | RdCommit h len | RdParked h len => h ∈ streams (mx me) /\ 0 < len < 2 ^ 31
  | Cs h | CsState h => h ∈ streams (mx me)
  | OAdd h => exists o, heap me !! h = Some o
  | LFind hdr => type hdr = MUX_TYPE_DATA
  | LBody hdr oh => type hdr = MUX_TYPE_DATA /\ match oh with Some h => for_stream me hdr h | None => True end
  | LPush hdr h _ | LWu hdr h => for_stream me hdr h
  | LSend hdr h => for_stream me hdr h /\ type hdr = MUX_TYPE_WINDOW_UPDATE
  | LSyn hdr => type hdr = MUX_TYPE_WINDOW_UPDATE /\ flag hdr MUX_FLAG_SYN = true
  | _ => True
  end.

(** What holds at one end. *)
Record local (b : bool) (me : side) : Prop := {
  l_win : max_stream_window (mx me) = win b;
  l_next : own b (next_stream_id (mx me)) = true /\ 0 < next_stream_id (mx me) < 2 ^ 32;
  l_ids : distinct_ids (heap me);
  l_id h o : heap me !! h = Some o -> 0 < id o < 2 ^ 32 /\ ubound 32 (send_window o) /\ (own b (id o) = true -> id o < next_stream_id (mx me));
  l_peer h o : freed me = false -> heap me !! h = Some o -> own b (id o) = false -> h ∈ streams (mx me);
  l_open h : (sum_list_with (opening h) (procs me) + occ h (streams (mx me)) <= 1)%nat;
  l_range h : h ∈ streams (mx me) -> (h < length (heap me))%nat;
  l_user h : freed me = false -> h ∈ owned me \/ h ∈ accept_ch (mx me) -> h ∈ streams (mx me);
  l_writer h : (sum_list_with (writes h) (procs me) <= 1)%nat;
  l_pc p pc : procs me !! p = Some pc -> pc_ok b me pc;
  l_logs x : has_object x (heap me) = false ->
    log_of x (wrote me) = [] /\ log_of x (took me) = [] /\ sum_of x (granted me) = 0 /\ sum_of x (credited me) = 0;
  l_send h o : heap me !! h = Some o -> cut me = false ->
    send_window o = win b - Z.of_nat (length (log_of (id o) (wrote me))) + Z.of_nat (sum_list_with (unsubtracted h) (procs me)) + sum_of (id o) (credited me);
  l_recv h o : heap me !! h = Some o ->
    recv_window o = u32 (win b - extra b (id o) - Z.of_nat (length (log_of (id o) (took me))) - Z.of_nat (recv_len o) + sum_of (id o) (granted me));
  l_grant h o : heap me !! h = Some o ->
    let u := extra b (id o) + Z.of_nat (length (log_of (id o) (took me))) - sum_of (id o) (granted me) in 0 <= u /\ (u = 0 \/ u < win b / 2)
}.

(** Frames an end of kind [b] sends. *)
Definition frame_form (b : bool) (f : frame) : Prop :=
  hdr_ok (fst f) /\ version (fst f) = MUX_PROTO_VERSION
  /\ (type (fst f) = MUX_TYPE_DATA /\ (flags (fst f) = 0 \/ flags (fst f) = MUX_FLAG_FIN) /\ length_ (fst f) = Z.of_nat (length (snd f))
        /\ Z.of_nat (length (snd f)) <= MUX_MAX_FRAME_PAYLOAD /\ 0 < stream_id (fst f)
      \/ type (fst f) = MUX_TYPE_WINDOW_UPDATE /\ snd f = [] /\ (flags (fst f) = 0 \/ flags (fst f) = MUX_FLAG_SYN /\ own b (stream_id (fst f)) = true)
        /\ 0 < stream_id (fst f)
      \/ type (fst f) = MUX_TYPE_GO_AWAY /\ snd f = [] /\ stream_id (fst f) = 0).

(** The first frame of a stream the reader has not looked up yet. *)
Fixpoint first_of (x : Z) (l : list _mux_frame_hdr_t) : option _mux_frame_hdr_t :=
  match l with [] => None | hdr :: l => if stream_id hdr =? x then Some hdr else first_of x l end.
Definition deciding (pc : mux_pc) : list _mux_frame_hdr_t := match pc with LDisp hdr | LFind hdr | LSyn hdr => [hdr] | _ => [] end.
Definition upcoming (s r : side) : list _mux_frame_hdr_t := deciding (reader r) ++ (fst <$> pend s).

(** What holds of the bytes from [s], an end of kind [b], to [r], and of the windows
    [r] grants in return. *)
Record pair (b : bool) (s r : side) : Prop := {
  p_wire : cut r = false -> exists rest, out s ++ rest = coming_bytes r ++ concat (wire_of <$> pend s) /\ (cut s = false -> rest = lacking s);
  p_form : Forall (frame_form b) (pend s);
  p_cur hdr : before_body (reader r) = Some hdr -> frame_form b (hdr, cur r);
  p_upd hdr : update_hdr (reader r) = Some hdr -> 0 <= length_ hdr;
  p_wu hdr : (reader r = LWuFind hdr \/ exists h, reader r = LWu hdr h) -> type hdr = MUX_TYPE_WINDOW_UPDATE;
  p_amount x : (length (log_of x (took r)) + length (buf_of x (heap r)) + length (in_hand x r) + length (coming_data x r) + length (frames_data x (pend s))
    <= length (log_of x (wrote s)))%nat;
  p_order x : x ∉ dropped r -> exists rest,
    log_of x (wrote s) = log_of x (took r) ++ buf_of x (heap r) ++ in_hand x r ++ rest
    /\ (cut r = false -> rest = coming_data x r ++ frames_data x (pend s));
  p_credit x : let sent := sum_of x (credited s) + update_in_hand x s + frames_update x (pend r) + held_update x (procs r) in
    sent <= sum_of x (granted r) /\ (x ∉ dropped s -> cut r = false -> sent = sum_of x (granted r));
  p_bound x : Z.of_nat (length (log_of x (wrote s))) <= Z.of_nat (length (log_of x (took r))) + win b + extra (negb b) x;
  p_syn x : 0 < x -> own b x = true -> has_object x (heap r) = false -> mux_closed (mx r) = false -> x ∉ dropped r ->
    match first_of x (upcoming s r) with
    | Some hdr => flag hdr MUX_FLAG_SYN = true
    | None => existsb (unsent_pc x) (procs s) = true \/ has_object x (heap s) = false \/ cut s = true
    end;
  p_known hdr : own b (stream_id hdr) = true -> 0 < stream_id hdr ->
    (reader r = LWuFind hdr -> has_object (stream_id hdr) (heap r) = true \/ mux_closed (mx r) = true)
    /\ (reader r = LBody hdr None -> has_object (stream_id hdr) (heap r) = false /\ mux_closed (mx r) = true);
  p_drop x : x ∈ dropped r -> own b x = true -> 0 < x -> mux_closed (mx r) = true /\ has_object x (heap r) = false
}.

(** ** One end moves *)

Lemma pc_ok_mono b me me' pc :
  (forall h o, heap me !! h = Some o -> exists o', heap me' !! h = Some o' /\ id o' = id o
     /\ (cut me' = false -> send_window o <= send_window o' \/ writes h pc = 0%nat)) ->
  (forall h, h ∈ streams (mx me) -> h ∈ streams (mx me')) -> (cut me = true -> cut me' = true) ->
  pc_ok b me pc -> pc_ok b me' pc.
Proof.
  intros Hh Hs Hc.
  assert (forall h chunk rest, writing pc = Some h -> writer_ok me h chunk rest -> writer_ok me' h chunk rest) as Hw.
  { intros h chunk rest Hwr (H1 & H2 & H3 & H4 & o & Ho & Hle). split_and!; [by apply Hs|lia..|lia|lia|].
    destruct (Hh h o Ho) as (o' & Ho' & _ & Hsw). exists o'. split; [done|]. intros E.
    destruct (Hsw E) as [H5|H5]; [|unfold writes in H5; rewrite Hwr, one_eq in H5; done].
    assert (cut me = false) as E' by (destruct (cut me); [by rewrite Hc in E|done]). specialize (Hle E'). lia. }
  assert (forall hdr h, for_stream me hdr h -> for_stream me' hdr h) as Hfs.
  { intros hdr h (o & Ho & E). destruct (Hh h o Ho) as (o' & Ho' & E' & _). exists o'. split; [done|congruence]. }
  assert (forall f k, (forall h c rest, k = KWrite h c rest -> writing pc = Some h) -> frame_of_cont b me f k -> frame_of_cont b me' f k) as Hf.
  { intros f k Hk. destruct k; simpl; [| | |done| |done].
    - intros (o & Ho & Hown & ->). destruct (Hh h o Ho) as (o' & Ho' & E & _). exists o'. by rewrite E.
    - intros (H1 & o & Ho & ->). split; [by apply Hw; [eapply Hk|]|]. destruct (Hh h o Ho) as (o' & Ho' & E & _). exists o'. by rewrite E.
    - intros (H1 & o & d & Ho & Hd & ->). split; [by apply Hs|]. destruct (Hh h o Ho) as (o' & Ho' & E & _). exists o', d. by rewrite E.
    - intros (H1 & o & Ho & ->). split; [by apply Hs|]. destruct (Hh h o Ho) as (o' & Ho' & E & _). exists o'. by rewrite E. }
  destruct pc; simpl; try done; try (intros [? ?]; split; [|done]; by auto); try (by auto).
  - intros [H1 H2]. split; [|done]. apply Hf; [|done]. by intros ? ? ? ->.
  - intros [H1 H2]. split; [|done]. apply Hf; [|done]. intros ? ? ? ->. done.
  - apply Hf. by intros ? ? ? ->.
  - intros [H1 H2]. split; [|done]. apply Hf; [|done]. by intros ? ? ? ->.
  - intros [H1 H2]. split; [|destruct H2; auto]. destruct k; auto.
  - intros (o & Ho). destruct (Hh h o Ho) as (o' & Ho' & _). by eexists.
  - destruct oh; intros [? ?]; auto.
Qed.

(** Streams that agree in their number and the bytes they hold. *)
Definition same_buf (o o' : xylem_mux_stream_s) : Prop := id o' = id o /\ recv_buf o' = recv_buf o.
Lemma Forall2_put (R : xylem_mux_stream_s -> xylem_mux_stream_s -> Prop) `{!Reflexive R} (hp : heap_t) h o o' :
  hp !! h = Some o -> R o o' -> Forall2 R hp (<[h := o']> hp).
Proof.
  intros Hh Hr. apply Forall2_same_length_lookup_2; [by rewrite length_insert|].
  intros g x y Hx. rewrite list_lookup_insert_Some. intros [(<- & <- & _)|[_ Hy]]; [by rewrite Hh in Hx; injection Hx as <-|].
  rewrite Hx in Hy. by injection Hy as ->.
Qed.
Lemma same_bufs_buf hp hp' x : Forall2 same_buf hp hp' -> buf_of x hp' = buf_of x hp.
Proof. unfold buf_of. induction 1 as [|o o' hp hp' [E1 E2] _ IH]; [done|]. rewrite !bind_cons. by rewrite E1, E2, IH. Qed.
Lemma same_bufs_object hp hp' x : Forall2 same_buf hp hp' -> has_object x hp' = has_object x hp.
Proof. unfold has_object. induction 1 as [|o o' hp hp' [E1 E2] _ IH]; simpl; [done|]. by rewrite E1, IH. Qed.

(** A step that moves no bytes and no windows. *)
Record quiet (me me' : side) : Prop := {
  q_out : out me' = out me /\ pend me' = pend me /\ dropped me' = dropped me;
  q_logs : wrote me' = wrote me /\ took me' = took me /\ granted me' = granted me /\ credited me' = credited me;
  q_cut : cut me = true -> cut me' = true;
  q_closed : mux_closed (mx me) = true -> mux_closed (mx me') = true;
  q_heap : Forall2 same_buf (heap me) (heap me');
  q_held x : held_update x (procs me') <= held_update x (procs me) /\ (cut me' = false -> held_update x (procs me') = held_update x (procs me));
  q_lack : cut me' = false -> lacking me' = lacking me;
  q_unsent x : existsb (unsent_pc x) (procs me) = true -> existsb (unsent_pc x) (procs me') = true \/ cut me' = true;
  q_coming : cut me' = false -> coming_bytes me' = coming_bytes me;
  q_data x : (length (coming_data x me') <= length (coming_data x me))%nat /\ (cut me' = false -> coming_data x me' = coming_data x me);
  q_hand x : in_hand x me' = in_hand x me;
  q_update x : update_in_hand x me' = update_in_hand x me
}.

Lemma pair_sender_gen b me me' peer :
  out me' = out me -> pend me' = pend me -> (forall x, x ∉ dropped me' -> x ∉ dropped me) ->
  (forall x, log_of x (wrote me') = log_of x (wrote me)) -> (forall x, sum_of x (credited me') = sum_of x (credited me)) ->
  (cut me = true -> cut me' = true) -> (forall x, own b x = true -> has_object x (heap me') = has_object x (heap me)) ->
  (cut me' = false -> lacking me' = lacking me) ->
  (forall x, existsb (unsent_pc x) (procs me) = true -> existsb (unsent_pc x) (procs me') = true \/ cut me' = true) ->
  (forall x, update_in_hand x me' = update_in_hand x me) -> pair b me peer -> pair b me' peer.
Proof.
  intros E1 E2 E3 L1 L4 Hcut Hob Hlack Huns Hupd [].
  assert (cut me' = false -> cut me = false) as Hcut' by (intros E; destruct (cut me); [by rewrite Hcut in E|done]).
  split; rewrite ?E1, ?E2; try done.
  - intros Hc. destruct (p_wire0 Hc) as (rest & Hw & Hr). exists rest. split; [done|]. intros E. rewrite Hlack by done. auto.
  - intros x. rewrite L1. exact (p_amount0 x).
  - intros x. rewrite L1. exact (p_order0 x).
  - intros x. rewrite L4, Hupd. destruct (p_credit0 x) as [H1 H2]. split; [done|]. auto.
  - intros x. rewrite L1. exact (p_bound0 x).
  - intros x H1 H2 H3 H4 H5. specialize (p_syn0 x H1 H2 H3 H4 H5). unfold upcoming in *. rewrite E2. destruct (first_of _ _); [done|].
    rewrite Hob by done. destruct p_syn0 as [Hu|[Ho|Hc]]; [|by auto..]. destruct (Huns x Hu); auto.
Qed.
Lemma pair_sender b me me' peer : quiet me me' -> pair b me peer -> pair b me' peer.
Proof.
  intros [(E1 & E2 & E3) (L1 & L2 & L3 & L4)]. apply pair_sender_gen; try done; try (intros x; congruence).
  intros x _. by apply same_bufs_object.
Qed.

Lemma pair_receiver_gen b me me' peer :
  dropped me' = dropped me -> (cut me = true -> cut me' = true) -> (mux_closed (mx me) = true -> mux_closed (mx me') = true) ->
  (forall x, own b x = true -> has_object x (heap me') = has_object x (heap me)) ->
  (forall x, log_of x (took me') ++ buf_of x (heap me') ++ in_hand x me' = log_of x (took me) ++ buf_of x (heap me) ++ in_hand x me
     /\ (length (log_of x (took me)) <= length (log_of x (took me')))%nat) ->
  (cut me' = false -> coming_bytes me' = coming_bytes me) ->
  (forall x, (length (coming_data x me') <= length (coming_data x me))%nat /\ (cut me' = false -> coming_data x me' = coming_data x me)) ->
  (forall x, let d := frames_update x (pend me') + held_update x (procs me') - sum_of x (granted me')
                  - (frames_update x (pend me) + held_update x (procs me) - sum_of x (granted me)) in d <= 0 /\ (cut me' = false -> d = 0)) ->
  (forall hdr, before_body (reader me') = Some hdr -> frame_form b (hdr, cur me')) ->
  (forall hdr, update_hdr (reader me') = Some hdr -> 0 <= length_ hdr) ->
  (forall hdr, reader me' = LWuFind hdr \/ (exists h, reader me' = LWu hdr h) -> type hdr = MUX_TYPE_WINDOW_UPDATE) ->
  (forall x, 0 < x -> own b x = true -> has_object x (heap me) = false -> mux_closed (mx me') = false -> x ∉ dropped me ->
     first_of x (upcoming peer me') = first_of x (upcoming peer me)) ->
  (forall hdr, own b (stream_id hdr) = true -> 0 < stream_id hdr ->
     (reader me' = LWuFind hdr -> has_object (stream_id hdr) (heap me) = true \/ mux_closed (mx me') = true)
     /\ (reader me' = LBody hdr None -> has_object (stream_id hdr) (heap me) = false /\ mux_closed (mx me') = true)) ->
  pair b peer me -> pair b peer me'.
Proof.
  intros E3 Hcut Hcl Hob Hcat Hcom Hdat Hcr Hform Huf Hwu Hsyn Hknown [].
  assert (cut me' = false -> cut me = false) as Hcut' by (intros E; destruct (cut me); [by rewrite Hcut in E|done]).
  split; rewrite ?E3; try done.
  - intros Hc. destruct (p_wire0 (Hcut' Hc)) as (rest & Hw & Hr). exists rest. by rewrite Hcom.
  - intros x. destruct (Hcat x) as [Hx _]. apply (f_equal length) in Hx. rewrite !length_app in Hx. specialize (p_amount0 x). destruct (Hdat x). lia.
  - intros x Hd. destruct (Hcat x) as [Hx _]. destruct (p_order0 x Hd) as (rest & Hr & Hc). exists rest. split.
    + rewrite Hr, 2!app_assoc, <-(app_assoc _ _ (in_hand x me)), <-Hx, !app_assoc. done.
    + intros E. destruct (Hdat x) as [_ ->]; [|done]. auto.
  - intros x. destruct (p_credit0 x) as [Hle Heq]. destruct (Hcr x) as [Hle' Heq']. split; [lia|].
    intros Hd E. specialize (Heq' E). specialize (Heq Hd (Hcut' E)). lia.
  - intros x. destruct (Hcat x) as [_ Hx]. specialize (p_bound0 x). lia.
  - intros x H1 H2 H3 H4 H5. rewrite Hob in H3 by done. rewrite (Hsyn x) by done.
    apply p_syn0; [done..| |done]. destruct (mux_closed (mx me)); [by rewrite Hcl in H4|done].
  - intros hdr H1 H2. rewrite Hob by done. by apply Hknown.
  - intros x H1 H2 H3. rewrite Hob by done. destruct (p_drop0 x H1 H2 H3). auto.
Qed.

Lemma existsb_insert {A} (f : A -> bool) l p x y : l !! p = Some x -> existsb f l = true -> f x = false \/ f y = true -> existsb f (<[p := y]> l) = true.
Proof.
  intros Hp (z & Hz & Hf)%existsb_exists Hor. apply existsb_exists. apply list_elem_of_In, list_elem_of_lookup in Hz as [q Hq].
  pose proof (lookup_lt_Some _ _ _ Hp). destruct (decide (q = p)) as [->|Hne].
  - rewrite Hp in Hq. injection Hq as ->. exists y. split; [|destruct Hor; congruence]. apply list_elem_of_In, list_elem_of_lookup. exists p. by apply list_lookup_insert_eq.
  - exists z. split; [|done]. apply list_elem_of_In, list_elem_of_lookup. exists q. by rewrite list_lookup_insert_ne.
Qed.

(** What a step does to the processes. *)
Section at_process.
Context (me me' : side) (p : nat) (pc pc' : mux_pc).
Hypotheses (Hp : procs me !! p = Some pc) (Hpr : procs me' = <[p := pc']> (procs me)).

Lemma held_moved x : held_update x (procs me') = held_update x (procs me) - pc_update x pc + pc_update x pc'.
Proof. rewrite Hpr. by apply held_insert. Qed.
Lemma lacking_moved : lack pc' = lack pc -> lacking me' = lacking me.
Proof. intros E. unfold lacking. rewrite Hpr. by apply (bind_insert_same _ _ _ pc). Qed.
Lemma unsent_moved x : existsb (unsent_pc x) (procs me) = true -> unsent_pc x pc = false \/ unsent_pc x pc' = true ->
  existsb (unsent_pc x) (procs me') = true.
Proof. intros H1 H2. rewrite Hpr. by apply (existsb_insert _ _ _ pc). Qed.
Lemma reader_other : p <> 0%nat -> reader me' = reader me.
Proof. intros Hne. unfold reader. rewrite Hpr. by rewrite list_lookup_insert_ne. Qed.
Lemma reader_moved : p = 0%nat -> reader me = pc /\ reader me' = pc'.
Proof. intros ->. unfold reader. rewrite Hpr, Hp. rewrite list_lookup_insert_eq by (by eapply lookup_lt_Some). done. Qed.

(** The process changes nothing the frames depend on. *)
Definition pc_quiet : Prop :=
  (forall x, pc_update x pc' <= pc_update x pc /\ (cut me' = false -> pc_update x pc' = pc_update x pc))
  /\ (cut me' = false -> lack pc' = lack pc)
  /\ (forall x, unsent_pc x pc = true -> unsent_pc x pc' = true \/ cut me' = true).

(** The reader is not at work on a frame, or does not move. *)
Definition plain (pc : mux_pc) : bool :=
  match pc with LDisp _ | LFind _ | LSyn _ | LSend _ _ | LBody _ _ | LPush _ _ _ | LWuFind _ | LWu _ _ => false | _ => true end.

Lemma reader_plain : plain pc = true -> plain pc' = true -> reader me' = reader me \/ plain (reader me) = true /\ plain (reader me') = true.
Proof.
  intros H1 H2. destruct (decide (p = 0%nat)) as [E|E]; [right|left; by apply reader_other].
  destruct (reader_moved E) as [-> ->]. done.
Qed.

Lemma quiet_plain : plain pc = true -> plain pc' = true -> pc_quiet -> cur me' = cur me ->
  out me' = out me /\ pend me' = pend me /\ dropped me' = dropped me ->
  wrote me' = wrote me /\ took me' = took me /\ granted me' = granted me /\ credited me' = credited me ->
  (cut me = true -> cut me' = true) -> (mux_closed (mx me) = true -> mux_closed (mx me') = true) ->
  Forall2 same_buf (heap me) (heap me') -> quiet me me'.
Proof.
  intros Hpl Hpl' (H1 & H2 & H3) Hcur Ho Hl Hc Hm Hh. pose proof (reader_plain Hpl Hpl') as Hr. split; try done.
  - intros x. rewrite held_moved. destruct (H1 x) as [H4 H5]. split; [lia|]. intros E. rewrite H5 by done. lia.
  - intros E. apply lacking_moved. auto.
  - intros x E. destruct (unsent_pc x pc) eqn:Eu; [|left; by apply unsent_moved; auto].
    destruct (H3 x Eu); [left; by apply unsent_moved; auto|by right].
  - intros _. unfold coming_bytes. destruct Hr as [->|[Hr Hr']]; [by rewrite Hcur|by destruct (reader me), (reader me')].
  - intros x. unfold coming_data. destruct Hr as [->|[Hr Hr']]; [by rewrite Hcur|by destruct (reader me), (reader me')].
  - intros x. unfold in_hand. destruct Hr as [->|[Hr Hr']]; [done|by destruct (reader me), (reader me')].
  - intros x. unfold update_in_hand. destruct Hr as [->|[Hr Hr']]; [done|by destruct (reader me), (reader me')].
Qed.
End at_process.

(** Both ends with all that is known of them. *)
Record conn (b : bool) (me peer : side) : Prop := {
  c_mem : mem_ok me; c_mem' : mem_ok peer;
  c_local : local b me; c_local' : local (negb b) peer;
  c_send : pair b me peer; c_recv : pair (negb b) peer me
}.

(** The receiving part of a step of a coroutine that is not working on a received frame. *)
Lemma pair_receiver_plain b me me' peer :
  reader me' = reader me \/ plain (reader me) = true /\ plain (reader me') = true -> cur me' = cur me -> dropped me' = dropped me ->
  (cut me = true -> cut me' = true) -> (mux_closed (mx me) = true -> mux_closed (mx me') = true) ->
  (forall x, own b x = true -> has_object x (heap me') = has_object x (heap me)) ->
  (forall x, log_of x (took me') ++ buf_of x (heap me') = log_of x (took me) ++ buf_of x (heap me)
     /\ (length (log_of x (took me)) <= length (log_of x (took me')))%nat) ->
  (forall x, let d := frames_update x (pend me') + held_update x (procs me') - sum_of x (granted me')
                  - (frames_update x (pend me) + held_update x (procs me) - sum_of x (granted me)) in d <= 0 /\ (cut me' = false -> d = 0)) ->
  pair b peer me -> pair b peer me'.
Proof.
  intros Hr Hcur Hdr Hcut Hcl Hob Hcat Hcr Hpair. pose proof Hpair as []. eapply pair_receiver_gen; try done.
  - intros x. destruct (Hcat x) as [Hx Hx']. split; [|done]. rewrite !app_assoc, Hx. f_equal.
    unfold in_hand. destruct Hr as [->|[Hr Hr']]; [done|by destruct (reader me), (reader me')].
  - intros _. unfold coming_bytes. destruct Hr as [->|[Hr Hr']]; [by rewrite Hcur|by destruct (reader me), (reader me')].
  - intros x. unfold coming_data. destruct Hr as [->|[Hr Hr']]; [by rewrite Hcur|by destruct (reader me), (reader me')].
  - rewrite Hcur. destruct Hr as [->|[_ Hr]]; [done|by destruct (reader me')].
  - destruct Hr as [->|[_ Hr]]; [done|by destruct (reader me')].
  - destruct Hr as [->|[_ Hr]]; [done|]. intros hdr [E|[h E]]; by rewrite E in Hr.
  - intros x _ _ _ _ _. unfold upcoming. destruct Hr as [->|[Hr Hr']]; [done|by destruct (reader me), (reader me')].
  - destruct Hr as [->|[_ Hr]]; [|intros hdr _ _; split; intros E; by rewrite E in Hr]. intros hdr H1 H2. destruct (p_known0 hdr H1 H2) as [H3 H4].
    split; intros E; [destruct (H3 E) as [|Hc]; [by left|right; by auto]|]. destruct (H4 E). split; [done|]. by auto.
Qed.

Lemma conn_quiet b me me' peer : conn b me peer -> quiet me me' ->
  reader me' = reader me \/ plain (reader me) = true /\ plain (reader me') = true -> cur me' = cur me ->
  mem_ok me' -> local b me' -> conn b me' peer.
Proof.
  intros [] Hq Hr Hcur Hm Hl. split; try done; [by eapply pair_sender|].
  destruct Hq as [(E1 & E2 & E3) (L1 & L2 & L3 & L4) Hcut Hcl Hhp Hheld Hlack Huns Hcom Hdat Hhand Hupd].
  eapply pair_receiver_plain; try done.
  - intros x _. by apply same_bufs_object.
  - intros x. by rewrite L2, (same_bufs_buf _ _ _ Hhp).
  - intros x. rewrite E2, L3. destruct (Hheld x) as [H1 H2]. split; [lia|]. intros E. specialize (H2 E). lia.
Qed.

(** The local part when windows and logs stay as they are. *)
Lemma local_keep b me me' p pc pc' :
  local b me -> procs me !! p = Some pc -> procs me' = <[p := pc']> (procs me) ->
  Forall2 same_flow (heap me) (heap me') -> freed me = false -> freed me' = false ->
  max_stream_window (mx me') = max_stream_window (mx me) /\ next_stream_id (mx me') = next_stream_id (mx me) ->
  (forall x, log_of x (wrote me') = log_of x (wrote me) /\ log_of x (took me') = log_of x (took me)
     /\ sum_of x (granted me') = sum_of x (granted me) /\ sum_of x (credited me') = sum_of x (credited me)) ->
  (cut me = true -> cut me' = true) ->
  (forall h, h ∈ streams (mx me) -> h ∈ streams (mx me')) ->
  (forall h, (opening h pc' + occ h (streams (mx me')) <= opening h pc + occ h (streams (mx me)))%nat) ->
  (forall h, h ∈ streams (mx me') -> (h < length (heap me))%nat) ->
  (forall h, h ∈ owned me' \/ h ∈ accept_ch (mx me') -> h ∈ streams (mx me')) ->
  (forall h, (writes h pc' <= writes h pc)%nat) \/ (forall h, (sum_list_with (writes h) (procs me) + writes h pc' <= 1)%nat) ->
  (cut me' = false -> forall h, unsubtracted h pc' = unsubtracted h pc) -> pc_ok b me' pc' ->
  local b me'.
Proof.
  intros [] Hp Hpr Hhp Hf Hf' [M1 M2] Hlogs Hcut Hst Hop Hrg Hus Hwr Hsub Hok.
  assert (cut me' = false -> cut me = false) as Hcut' by (intros E; destruct (cut me); [by rewrite Hcut in E|done]).
  assert (forall h o', heap me' !! h = Some o' -> exists o, heap me !! h = Some o /\ same_flow o o') as Hback.
  { intros h o' Ho'. destruct (Forall2_lookup_r _ _ _ _ _ Hhp Ho') as (o & Ho & Hs). by exists o. }
  assert (Forall2 same_buf (heap me) (heap me')) as Hb.
  { eapply Forall2_impl; [done|]. intros o o' (E1 & E2 & _). done. }
  split; rewrite ?M1, ?M2; try done.
  - intros h1 h2 o1' o2' H1 H2 E. destruct (Hback _ _ H1) as (o1 & Ho1 & E1 & _), (Hback _ _ H2) as (o2 & Ho2 & E2 & _).
    eapply l_ids0; [done..|congruence].
  - intros h o' Ho'. destruct (Hback _ _ Ho') as (o & Ho & E1 & _ & _ & E4). rewrite E1, E4. by eapply l_id0.
  - intros h o' _ Ho'. destruct (Hback _ _ Ho') as (o & Ho & E1 & _). rewrite E1. intros Hn. apply Hst. by eapply l_peer0.
  - intros h. rewrite Hpr. pose proof (sum_insert (opening h) _ _ _ pc' Hp) as Hs. specialize (l_open0 h). specialize (Hop h). lia.
  - intros h Hh. rewrite <-(Forall2_length _ _ _ Hhp). by apply Hrg.
  - intros h. auto.
  - intros h. rewrite Hpr. pose proof (sum_insert (writes h) _ _ _ pc' Hp) as Hs. specialize (l_writer0 h). destruct Hwr as [Hwr|Hwr]; specialize (Hwr h); lia.
  - intros q pcq. rewrite Hpr, list_lookup_insert_Some. intros [(<- & <- & _)|[_ Hq]]; [done|].
    eapply pc_ok_mono; [|done|done|by eapply l_pc0]. intros h o Ho. destruct (Forall2_lookup_l _ _ _ _ _ Hhp Ho) as (o' & Ho' & E1 & _ & _ & E4).
    exists o'. split_and!; [done|done|]. intros _. left. lia.
  - intros x. rewrite (same_bufs_object _ _ _ Hb). destruct (Hlogs x) as (-> & -> & -> & ->). apply l_logs0.
  - intros h o' Ho' Hc. destruct (Hback _ _ Ho') as (o & Ho & E1 & _ & _ & E4). rewrite E1, E4, (l_send0 h o Ho) by auto. destruct (Hlogs (id o)) as (-> & _ & _ & ->).
    rewrite Hpr. pose proof (sum_insert (unsubtracted h) _ _ _ pc' Hp) as Hs. rewrite Hsub in Hs by done. lia.
  - intros h o' Ho'. destruct (Hback _ _ Ho') as (o & Ho & E1 & E2 & E3 & _). rewrite E1, E2, E3. destruct (Hlogs (id o)) as (_ & -> & -> & _). by eapply l_recv0.
  - intros h o' Ho'. destruct (Hback _ _ Ho') as (o & Ho & E1 & _). rewrite E1. destruct (Hlogs (id o)) as (_ & -> & -> & _). by eapply l_grant0.
Qed.

(** The local part when the windows or logs of one stream change. *)
Lemma local_put b me me' p pc pc' h o o' :
  local b me -> procs me !! p = Some pc -> procs me' = <[p := pc']> (procs me) ->
  heap me !! h = Some o -> heap me' = <[h := o']> (heap me) -> id o' = id o ->
  mx me' = mx me -> owned me' = owned me -> freed me' = freed me -> cut me' = cut me ->
  (forall x, x <> id o -> log_of x (wrote me') = log_of x (wrote me) /\ log_of x (took me') = log_of x (took me)
     /\ sum_of x (granted me') = sum_of x (granted me) /\ sum_of x (credited me') = sum_of x (credited me)) ->
  (forall g, (opening g pc' <= opening g pc)%nat) -> (forall g, (writes g pc' <= writes g pc)%nat) ->
  (forall g, g <> h -> unsubtracted g pc' = unsubtracted g pc) -> pc_ok b me' pc' ->
  (cut me = false -> send_window o <= send_window o' \/ forall q pcq, q <> p -> procs me !! q = Some pcq -> writes h pcq = 0%nat) ->
  ubound 32 (send_window o') ->
  (cut me = false -> send_window o' = win b - Z.of_nat (length (log_of (id o) (wrote me')))
     + Z.of_nat (sum_list_with (unsubtracted h) (procs me')) + sum_of (id o) (credited me')) ->
  recv_window o' = u32 (win b - extra b (id o) - Z.of_nat (length (log_of (id o) (took me'))) - Z.of_nat (recv_len o') + sum_of (id o) (granted me')) ->
  (let u := extra b (id o) + Z.of_nat (length (log_of (id o) (took me'))) - sum_of (id o) (granted me') in 0 <= u /\ (u = 0 \/ u < win b / 2)) ->
  local b me'.
Proof.
  intros [] Hp Hpr Ho Hhp Hid Hmx Hown Hfr Hcut Hlogs Hop Hwr Hsub Hok Hoth Hub Hsend Hrecv Hgrant.
  pose proof (lookup_lt_Some _ _ _ Ho) as Hlt.
  assert (forall g y, heap me' !! g = Some y -> g = h /\ y = o' \/ g <> h /\ heap me !! g = Some y /\ id y <> id o) as Hback.
  { intros g y. rewrite Hhp, list_lookup_insert_Some. intros [(<- & <- & _)|[Hne Hy]]; [by left|right]. split_and!; [done|done|].
    intros E. by rewrite (l_ids0 _ _ _ _ Hy Ho E) in Hne. }
  split; rewrite ?Hmx, ?Hown, ?Hfr; try done.
  - rewrite Hhp. by eapply distinct_insert.
  - intros g y [[-> ->]|(_ & Hy & _)]%Hback; [|by eapply l_id0]. rewrite Hid. destruct (l_id0 _ _ Ho) as (H1 & _ & H2). done.
  - intros g y Hfd [[-> ->]|(_ & Hy & _)]%Hback; [|by eapply l_peer0]. rewrite Hid. by eapply l_peer0.
  - intros g. rewrite Hpr. pose proof (sum_insert (opening g) _ _ _ pc' Hp) as Hs. specialize (l_open0 g). specialize (Hop g). lia.
  - intros g Hg. rewrite Hhp, length_insert. by apply l_range0.
  - intros g. rewrite Hpr. pose proof (sum_insert (writes g) _ _ _ pc' Hp) as Hs. specialize (l_writer0 g). specialize (Hwr g). lia.
  - intros q pcq. rewrite Hpr, list_lookup_insert_Some. intros [(<- & <- & _)|[Hne Hq]]; [done|].
    apply (pc_ok_mono b me); [|by rewrite Hmx|by rewrite Hcut|by eapply l_pc0]. intros g y Hy. rewrite Hhp, Hcut. destruct (decide (g = h)) as [->|Hgh].
    + rewrite list_lookup_insert_eq by done. rewrite Ho in Hy. injection Hy as <-. exists o'. split_and!; [done|done|]. intros Hc.
      destruct (Hoth Hc) as [|Hw]; [by left|]. right. by eapply Hw.
    + rewrite list_lookup_insert_ne by done. exists y. split_and!; [done|done|]. intros _. left. lia.
  - intros x Hx. assert (x <> id o) as Hne.
    { intros ->. rewrite Hhp, (has_object_insert _ _ _ _ _ Ho Hid) in Hx.
      assert (has_object (id o) (heap me) = true) by (apply has_object_spec; eauto). congruence. }
    destruct (Hlogs x Hne) as (-> & -> & -> & ->). apply l_logs0. rewrite Hhp in Hx. by rewrite (has_object_insert _ _ _ _ _ Ho Hid) in Hx.
  - intros g y [[-> ->]|(Hne & Hy & Hi)]%Hback; rewrite Hcut; [rewrite Hid; exact Hsend|]. intros Hc. destruct (Hlogs _ Hi) as (-> & _ & _ & ->).
    rewrite (l_send0 g y Hy Hc). rewrite Hpr. pose proof (sum_insert (unsubtracted g) _ _ _ pc' Hp) as Hs. rewrite Hsub in Hs by done. lia.
  - intros g y [[-> ->]|(Hne & Hy & Hi)]%Hback; [by rewrite Hid|]. destruct (Hlogs _ Hi) as (_ & -> & -> & _). by eapply l_recv0.
  - intros g y [[-> ->]|(Hne & Hy & Hi)]%Hback; [by rewrite Hid|]. destruct (Hlogs _ Hi) as (_ & -> & -> & _). by eapply l_grant0.
Qed.

(** The local part when a stream is created. *)
Lemma distinct_app hp s : distinct_ids hp -> has_object (id s) hp = false -> distinct_ids (hp ++ [s]).
Proof.
  intros Hd Hno h1 h2 o1 o2. rewrite !lookup_app_Some, !list_lookup_singleton_Some.
  assert (forall h o, hp !! h = Some o -> id o = id s -> False) as Hx.
  { intros h o Ho E. rewrite (proj2 (has_object_spec (id s) hp)) in Hno by eauto. done. }
  intros [H1|(L1 & E1 & <-)] [H2|(L2 & E2 & <-)] E; [by eapply Hd|by destruct (Hx h1 o1)|by destruct (Hx h2 o2)|lia].
Qed.
Lemma unsubtracted_new b me : local b me -> sum_list_with (unsubtracted (length (heap me))) (procs me) = 0%nat.
Proof.
  intros []. apply sum_zero. intros q pcq Hq. pose proof (l_pc0 _ _ Hq) as Hok.
  assert (forall g c, g ∈ streams (mx me) -> (one g (length (heap me)) * c = 0)%nat) as Hz.
  { intros g c Hg%l_range0. rewrite one_ne by lia. done. }
  destruct pcq; try done; simpl in *.
  - destruct k; try done. destruct Hok as [(Hw & _) _]. apply Hz, Hw.
  - destruct rc; [|done..]. destruct k; try done. destruct Hok as [Hw _]. apply Hz, Hw.
  - apply Hz, Hok.
Qed.

Lemma local_new b me me' p pc pc' s :
  local b me -> procs me !! p = Some pc -> procs me' = <[p := pc']> (procs me) ->
  heap me' = heap me ++ [s] -> has_object (id s) (heap me) = false -> 0 < id s < 2 ^ 32 ->
  recv_buf s = [] -> recv_window s = win b -> send_window s = win b ->
  max_stream_window (mx me') = win b -> own b (next_stream_id (mx me')) = true /\ 0 < next_stream_id (mx me') < 2 ^ 32 ->
  next_stream_id (mx me) <= next_stream_id (mx me') -> (own b (id s) = true -> id s < next_stream_id (mx me')) ->
  freed me = false -> freed me' = false -> cut me' = cut me ->
  (forall h, h ∈ streams (mx me) -> h ∈ streams (mx me')) -> (own b (id s) = false -> length (heap me) ∈ streams (mx me')) ->
  (forall h, (sum_list_with (opening h) (procs me') + occ h (streams (mx me')) <= 1)%nat) ->
  (forall h, h ∈ streams (mx me') -> (h <= length (heap me))%nat) ->
  (forall h, h ∈ owned me' \/ h ∈ accept_ch (mx me') -> h ∈ streams (mx me')) ->
  (forall h, writes h pc' = 0%nat) -> (forall h, unsubtracted h pc' = 0%nat /\ unsubtracted h pc = 0%nat) -> pc_ok b me' pc' ->
  wrote me' = wrote me -> took me' = took me -> credited me' = credited me ->
  (forall x, sum_of x (granted me') = sum_of x (granted me) + (if id s =? x then extra b x else 0)) ->
  local b me'.
Proof.
  intros Hl Hp Hpr Hhp Hno Hid Hbuf Hrw Hsw Mw Mn Hnx Hnew Hf Hf' Hcut Hst Hpeer Hop Hrg Hus Hwr Hsub Hok Lw Lt Lc Lg.
  pose proof (unsubtracted_new b me Hl) as Hun. destruct Hl.
  assert (forall h o, heap me' !! h = Some o -> heap me !! h = Some o \/ h = length (heap me) /\ o = s) as Hback.
  { intros h o. rewrite Hhp, lookup_app_Some, list_lookup_singleton_Some. intros [H|(H1 & H2 & <-)]; [by left|right; split; [lia|done]]. }
  assert (forall x, has_object x (heap me') = has_object x (heap me) || (id s =? x)) as Hob by (intros x; by rewrite Hhp, has_object_app).
  assert (forall x, id s =? x = true -> log_of x (wrote me) = [] /\ log_of x (took me) = [] /\ sum_of x (granted me) = 0 /\ sum_of x (credited me) = 0) as Hz.
  { intros x <-%Z.eqb_eq. by apply l_logs0. }
  assert (forall h, sum_list_with (unsubtracted h) (procs me') = sum_list_with (unsubtracted h) (procs me)) as Hss.
  { intros h. rewrite Hpr. pose proof (sum_insert (unsubtracted h) _ _ _ pc' Hp) as Hs. destruct (Hsub h). lia. }
  assert (forall h o, heap me !! h = Some o -> id s =? id o = false) as Hne.
  { intros h o Ho. apply Z.eqb_neq. intros E. rewrite E, (proj2 (has_object_spec (id o) (heap me))) in Hno by eauto. done. }
  assert (0 < win b < 2 ^ 31) as Hws by (pose proof (Hwin b); pose proof (Hwin (negb b)); destruct b; simpl in *; lia).
  split; rewrite ?Hhp, ?Hcut, ?Lw, ?Lt, ?Lc; try done.
  - by apply distinct_app.
  - rewrite <-Hhp. intros h o [Ho|[-> ->]]%Hback; [destruct (l_id0 _ _ Ho) as (H1 & H2 & H3); split; [done|]; split; [done|]; intros E; specialize (H3 E); lia|].
    split; [done|]. split; [unfold ubound; rewrite Hsw; lia|done].
  - rewrite <-Hhp. intros h o _ [Ho|[-> ->]]%Hback; [|done]. intros E. apply Hst. by eapply l_peer0.
  - intros h Hh. rewrite length_app. simpl. specialize (Hrg h Hh). lia.
  - auto.
  - intros h. rewrite Hpr. pose proof (sum_insert (writes h) _ _ _ pc' Hp) as Hs. specialize (l_writer0 h). rewrite Hwr in Hs. lia.
  - intros q pcq. rewrite Hpr, list_lookup_insert_Some. intros [(<- & <- & _)|[_ Hq]]; [done|].
    apply (pc_ok_mono b me); [|done|by rewrite Hcut|by eapply l_pc0]. intros h o Ho. exists o. rewrite Hhp. split_and!; [by apply lookup_app_l_Some|done|]. intros _. left. lia.
  - intros x Hx. rewrite has_object_app in Hx. apply orb_false_iff in Hx as [Hx1 Hx2]. rewrite Lg, Hx2, Z.add_0_r. by apply l_logs0.
  - rewrite <-Hhp. intros h o [Ho|[-> ->]]%Hback Hc; rewrite Hss; [by apply l_send0|]. destruct (Hz (id s) (Z.eqb_refl _)) as (-> & _ & _ & ->). rewrite Hun, Hsw. simpl. lia.
  - rewrite <-Hhp. intros h o [Ho|[-> ->]]%Hback; rewrite Lg; [rewrite (Hne _ _ Ho), Z.add_0_r; by eapply l_recv0|].
    destruct (Hz (id s) (Z.eqb_refl _)) as (_ & -> & -> & _). rewrite Hbuf, Hrw, Z.eqb_refl. rewrite uwrap_small by (unfold ubound; simpl; lia). simpl. lia.
  - rewrite <-Hhp. intros h o [Ho|[-> ->]]%Hback; rewrite Lg; [rewrite (Hne _ _ Ho), Z.add_0_r; by eapply l_grant0|].
    destruct (Hz (id s) (Z.eqb_refl _)) as (_ & -> & -> & _). rewrite Z.eqb_refl. simpl. lia.
Qed.

(** A step of a coroutine that is not working on a received frame. *)
Section plain_steps.
Context (b : bool) (me me' peer : side) (p : nat) (pc pc' : mux_pc).
Hypotheses (Hconn : conn b me peer) (Hm : mem_ok me') (Hp : procs me !! p = Some pc) (Hpr : procs me' = <[p := pc']> (procs me)).
Hypotheses (Hpl : plain pc = true) (Hpl' : plain pc' = true) (Hcur : cur me' = cur me).
Hypotheses (Hout : out me' = out me /\ pend me' = pend me /\ dropped me' = dropped me).
Hypotheses (Hlogs : wrote me' = wrote me /\ took me' = took me /\ granted me' = granted me /\ credited me' = credited me).
Hypotheses (Hcut : cut me = true -> cut me' = true) (Hclosed : mux_closed (mx me) = true -> mux_closed (mx me') = true).
Hypotheses (Hq : pc_quiet me' pc pc').

Lemma conn_plain : Forall2 same_buf (heap me) (heap me') -> local b me' -> conn b me' peer.
Proof.
  intros Hh Hl. eapply conn_quiet; try done; [by eapply quiet_plain|]. by eapply reader_plain.
Qed.

Lemma conn_keep : Forall2 same_flow (heap me) (heap me') -> freed me = false -> freed me' = false ->
  max_stream_window (mx me') = max_stream_window (mx me) /\ next_stream_id (mx me') = next_stream_id (mx me) ->
  (forall h, h ∈ streams (mx me) -> h ∈ streams (mx me')) ->
  (forall h, (opening h pc' + occ h (streams (mx me')) <= opening h pc + occ h (streams (mx me)))%nat) ->
  (forall h, h ∈ streams (mx me') -> (h < length (heap me))%nat) ->
  (forall h, h ∈ owned me' \/ h ∈ accept_ch (mx me') -> h ∈ streams (mx me')) ->
  (forall h, (writes h pc' <= writes h pc)%nat) \/ (forall h, (sum_list_with (writes h) (procs me) + writes h pc' <= 1)%nat) ->
  (cut me' = false -> forall h, unsubtracted h pc' = unsubtracted h pc) -> pc_ok b me' pc' -> conn b me' peer.
Proof.
  intros Hh Hf Hf' Hmx Hst Hop Hrg Hus Hwr Hsub Hok. apply conn_plain.
  - eapply Forall2_impl; [done|]. intros o o' (E1 & E2 & _). done.
  - eapply local_keep; try done; [apply Hconn|]. destruct Hlogs as (-> & -> & -> & ->). done.
Qed.
End plain_steps.

(** ** The reader moves *)

Definition calm (pc : mux_pc) : bool :=
  match pc with
  | LTop | LHdr | LDisp _ | LFind _ | LSyn _ | LSend _ _ | LBody _ _ | LPush _ _ _ | LFin _ _ | LRst _ _ | LWuFind _ | LWu _ _ | Cl _ => true
  | _ => false
  end.
Lemma calm_nothing pc : calm pc = true ->
  lack pc = [] /\ (forall x, pc_update x pc = 0) /\ (forall x, unsent_pc x pc = false) /\ (forall h, opening h pc = 0%nat) /\ (forall h, writes h pc = 0%nat)
  /\ (forall h, unsubtracted h pc = 0%nat).
Proof. by destruct pc. Qed.

Definition hdr_data (x : Z) (pc : mux_pc) (c : list Z) : list Z := match before_body pc with Some hdr => log_of x (data_of (hdr, c)) | None => [] end.
Definition hdr_bytes (pc : mux_pc) (c : list Z) : list Z := match before_body pc with Some _ => c | None => [] end.
Definition hdr_update (x : Z) (pc : mux_pc) : Z := match update_hdr pc with Some hdr => sum_of x (update_of (hdr, [])) | None => 0 end.
Definition hdr_hand (x : Z) (pc : mux_pc) : list Z := match pc with LPush hdr _ payload => if stream_id hdr =? x then payload else [] | _ => [] end.

Section reader_steps.
Context (b : bool) (me me' peer : side) (pc pc' : mux_pc).
Hypotheses (Hconn : conn b me peer) (Hm : mem_ok me') (Hp : procs me !! 0%nat = Some pc) (Hpr : procs me' = <[0%nat := pc']> (procs me)).
Hypotheses (Hc : calm pc = true) (Hc' : calm pc' = true) (Hf : freed me = false) (Hf' : freed me' = false).
Hypotheses (Hmx : max_stream_window (mx me') = max_stream_window (mx me) /\ next_stream_id (mx me') = next_stream_id (mx me)
  /\ streams (mx me') = streams (mx me) /\ mux_closed (mx me') = mux_closed (mx me)).
Hypotheses (Hout : out me' = out me /\ pend me' = pend me /\ dropped me' = dropped me /\ cut me' = cut me /\ owned me' = owned me).
Hypotheses (Hlogs : wrote me' = wrote me /\ took me' = took me /\ granted me' = granted me /\ credited me' = credited me).
Hypotheses (Hheap : Forall2 same_flow (heap me) (heap me')).
Hypotheses (Hacc : forall h, h ∈ accept_ch (mx me') -> h ∈ streams (mx me)).
Hypotheses (Hok : pc_ok b me' pc').
Hypotheses (Hupd : forall x, hdr_update x pc' = hdr_update x pc) (Hhand : forall x, hdr_hand x pc' = hdr_hand x pc).
Hypotheses (Hbytes : cut me = false -> hdr_bytes pc' (cur me') = hdr_bytes pc (cur me)).
Hypotheses (Hdata : forall x, (length (hdr_data x pc' (cur me')) <= length (hdr_data x pc (cur me)))%nat /\ (cut me = false -> hdr_data x pc' (cur me') = hdr_data x pc (cur me))).
Hypotheses (Hform : forall hdr, before_body pc' = Some hdr -> frame_form (negb b) (hdr, cur me')).
Hypotheses (Hlen : forall hdr, update_hdr pc' = Some hdr -> 0 <= length_ hdr).
Hypotheses (Hwu : forall hdr, pc' = LWuFind hdr \/ (exists h, pc' = LWu hdr h) -> type hdr = MUX_TYPE_WINDOW_UPDATE).
Hypotheses (Hdec : forall x, 0 < x -> own (negb b) x = true -> has_object x (heap me) = false -> mux_closed (mx me) = false -> x ∉ dropped me ->
  first_of x (deciding pc' ++ (fst <$> pend peer)) = first_of x (deciding pc ++ (fst <$> pend peer))).
Hypotheses (Hknown : forall hdr, own (negb b) (stream_id hdr) = true -> 0 < stream_id hdr ->
  (pc' = LWuFind hdr -> has_object (stream_id hdr) (heap me) = true \/ mux_closed (mx me) = true)
  /\ (pc' = LBody hdr None -> has_object (stream_id hdr) (heap me) = false /\ mux_closed (mx me) = true)).

Lemma conn_reader : conn b me' peer.
Proof.
  destruct (calm_nothing pc Hc) as (A1 & A2 & A3 & A4 & A5 & A6), (calm_nothing pc' Hc') as (B1 & B2 & B3 & B4 & B5 & B6).
  destruct Hmx as (M1 & M2 & M3 & M4), Hout as (O1 & O2 & O3 & O4 & O5). pose proof Hconn as [Hm0 Hm1 Hl Hl1 Hsend Hrecv].
  destruct (reader_moved me me' 0 pc pc' Hp Hpr eq_refl) as [R R'].
  assert (Forall2 same_buf (heap me) (heap me')) as Hb by (eapply Forall2_impl; [done|]; by intros o o' (E1 & E2 & _)).
  split; try done.
  - eapply (local_keep b me me' 0 pc pc'); try done; rewrite ?M3, ?O4, ?O5; try done.
    + destruct Hlogs as (-> & -> & -> & ->). done.
    + intros h. by rewrite B4, A4.
    + apply (l_range _ _ Hl).
    + intros h [Hh|Hh]; [|by apply Hacc]. apply (l_user _ _ Hl); auto.
    + left. intros h. by rewrite B5, A5.
    + intros _ h. by rewrite B6, A6.
  - destruct Hlogs as (L1 & L2 & L3 & L4). eapply (pair_sender_gen b me me'); rewrite ?O3, ?O4; try done; try (intros x; congruence).
    + intros x _. by apply same_bufs_object.
    + intros _. apply (lacking_moved me me' 0 pc pc'); [done..|congruence].
    + intros x E. left. apply (unsent_moved me me' 0 pc pc'); auto.
    + intros x. unfold update_in_hand. rewrite R, R'. apply Hupd.
  - destruct Hlogs as (L1 & L2 & L3 & L4). eapply (pair_receiver_gen _ me me'); rewrite ?O4, ?M4; try done; unfold coming_bytes, coming_data, upcoming; rewrite ?R, ?R'; try done.
    + intros x _. by apply same_bufs_object.
    + intros x. rewrite L2, (same_bufs_buf _ _ _ Hb). split; [|done]. unfold in_hand. rewrite R, R'. fold (hdr_hand x pc) (hdr_hand x pc'). by rewrite Hhand.
    + intros x. rewrite O2, L3, (held_moved me me' 0 pc pc' Hp Hpr), A2, B2. split; [lia|intros _; lia].
Qed.
End reader_steps.
End invariant.
