(* ===== verification/MuxHandles.v ===== *)
(** * Multiplexer: the handles of the user

    A stream has one reference for its user, from the call that creates it to the one
    that closes it.  A call that closes a stream which has been reset returns without
    giving this reference back, and there is no other way to lose one. *)

From S2P Require Import Prelude Interleave Parking MuxFrame Mux MuxMemory MuxFlow.

(** The reference of the user on its way. *)
Definition user_pins (pc : mux_pc) (g : nat) : nat :=
  match pc with
  | FLock _ (KOpen h) | FTry _ (KOpen h) | FHdr _ (KOpen h) | FPay _ (KOpen h) | FUnlock _ (KOpen h) => one h g
  | OAdd h | Cs h | LSend _ h => one h g
  | _ => 0%nat
  end.
Definition user_base (me : side) (g : nat) : nat := (occ g (accept_ch (mx me)) + occ g (owned me) + occ g (leaked me))%nat.
Definition user (me : side) (g : nat) : nat := (user_base me g + sum_list_with (fun pc => user_pins pc g) (procs me))%nat.

Record handles_ok (me : side) : Prop := {
  u_once g : (user me g <= 1)%nat;
  u_closed g o : heap me !! g = Some o -> closed o = true -> state o = MUX_STREAM_CLOSED \/ user me g = 0%nat;
  u_leaked g o : heap me !! g = Some o -> g ∈ leaked me -> closed o = true;
  u_accept : (count accepting (procs me) <= 1)%nat
}.

Lemma user_refs me g : (user me g <= refs me g)%nat.
Proof.
  unfold user, user_base, refs, base.
  assert (sum_list_with (fun pc => user_pins pc g) (procs me) <= sum_list_with (fun pc => pins pc g) (procs me))%nat; [|lia].
  induction (procs me) as [|pc l IH]; [done|]. simpl. assert (user_pins pc g <= pins pc g)%nat; [|lia]. destruct pc; simpl; try lia; destruct k; simpl; lia.
Qed.

(** What may happen to a stream. *)
Definition ages (o o' : xylem_mux_stream_s) : Prop :=
  (closed o = true -> closed o' = true) /\ (state o = MUX_STREAM_CLOSED -> state o' = MUX_STREAM_CLOSED)
  /\ (closed o' = true -> closed o = true \/ state o' = MUX_STREAM_CLOSED).
#[export] Instance ages_refl : Reflexive ages.
Proof. intros o. split_and!; auto. Qed.
Lemma ages_same o o' : closed o' = closed o -> state o' = state o -> ages o o'.
Proof. intros E1 E2. unfold ages. rewrite E1, E2. apply ages_refl. Qed.

Lemma ages_recv_commit co o v o' : _mux_recv_wait_commit_cb co o = Some (v, o') -> ages o o'.
Proof. unfold _mux_recv_wait_commit_cb. repeat case_match; intros [= <- <-]; by apply ages_same. Qed.
Lemma ages_send_commit co o v o' : _mux_send_wait_commit_cb co o = Some (v, o') -> ages o o'.
Proof. unfold _mux_send_wait_commit_cb. repeat case_match; intros [= <- <-]; by apply ages_same. Qed.
Lemma ages_read max len o data g o' : read_section max len o = Some (data, g, o') -> ages o o'.
Proof. unfold read_section. case_match; intros [= <- <- <-]; by apply ages_same. Qed.
Lemma ages_push ok data o : ages o (fst (mux_stream_push_data ok data o)).
Proof. unfold mux_stream_push_data. repeat case_match; by apply ages_same. Qed.
Lemma ages_fin o : ages o (fst (mux_stream_notify_remote_fin o)).
Proof. unfold mux_stream_notify_remote_fin. destruct (state o) eqn:E; split_and!; simpl; rewrite ?E; auto; done. Qed.
Lemma ages_close o : ages o (fst (close_section o)).
Proof. unfold close_section. split_and!; simpl; auto. intros ->. by rewrite bool_decide_eq_false_2. Qed.
Lemma ages_reset o : ages o (fst (mux_stream_notify_reset o)).
Proof. split_and!; simpl; auto. Qed.
Create HintDb mux_ages.
#[export] Hint Resolve ages_recv_commit ages_send_commit ages_read ages_push ages_fin ages_close ages_reset : mux_ages.

Section moved.
Context (me me' : side) (p : nat) (pc pc' : mux_pc).
Hypotheses (Hh : handles_ok me) (Hm : mem_ok me) (Hp : procs me !! p = Some pc) (Hpr : procs me' = <[p := pc']> (procs me)).

Lemma user_moved g : (user me' g + user_pins pc g + user_base me g = user me g + user_pins pc' g + user_base me' g)%nat.
Proof. unfold user. rewrite Hpr. pose proof (sum_insert (fun pc => user_pins pc g) _ _ _ pc' Hp) as Hs. simpl in Hs. lia. Qed.
Lemma accept_moved : (Nat.b2n (accepting pc') <= Nat.b2n (accepting pc))%nat -> (count accepting (procs me') <= 1)%nat.
Proof.
  intros Ha. rewrite Hpr. pose proof (u_accept _ Hh) as Hu. unfold count in *. pose proof (sum_insert (fun pc => Nat.b2n (accepting pc)) _ _ _ pc' Hp) as Hs. simpl in Hs. lia.
Qed.

Lemma handles_keep : (forall g, (user_base me' g + user_pins pc' g <= user_base me g + user_pins pc g)%nat) -> Forall2 ages (heap me) (heap me') ->
  (forall g, g ∈ leaked me' -> g ∈ leaked me) -> (count accepting (procs me') <= 1)%nat -> handles_ok me'.
Proof.
  intros Hb Hs Hlk Hacc. assert (forall g, (user me' g <= user me g)%nat) as Hle by (intros g; pose proof (user_moved g); specialize (Hb g); lia). split; [| | |done].
  - intros g. pose proof (u_once _ Hh g). specialize (Hle g). lia.
  - intros g o' Ho' Hc. destruct (Forall2_lookup_r _ _ _ _ _ Hs Ho') as (o & Ho & _ & H2 & H3). destruct (H3 Hc) as [Hc'|]; [|by left].
    destruct (u_closed _ Hh g o Ho Hc') as [|Hz]; [left; auto|right]. specialize (Hle g). lia.
  - intros g o' Ho' Hg. destruct (Forall2_lookup_r _ _ _ _ _ Hs Ho') as (o & Ho & H1 & _). apply H1. apply (u_leaked _ Hh g o Ho). auto.
Qed.

(** A stream is created. *)
Lemma handles_new o : heap me' = heap me ++ [o] -> closed o = false -> leaked me' = leaked me ->
  (forall g, g <> length (heap me) -> (user_base me' g + user_pins pc' g <= user_base me g + user_pins pc g)%nat) ->
  (user_base me' (length (heap me)) + user_pins pc' (length (heap me)) <= 1)%nat -> (count accepting (procs me') <= 1)%nat -> handles_ok me'.
Proof.
  intros Hhp Hc Hlk Hb Hn Hacc. pose proof (user_refs me (length (heap me))) as Hz. rewrite (m_range _ Hm _ (le_n _)) in Hz.
  assert (forall g o', heap me' !! g = Some o' -> closed o' = true \/ g ∈ leaked me' -> heap me !! g = Some o' /\ g <> length (heap me)) as Hold.
  { intros g o'. rewrite Hhp, lookup_app_Some, list_lookup_singleton_Some. intros [Ho|(Hl & Hg & <-)]; [intros _; apply lookup_lt_Some in Ho as Hlt; split; [done|lia]|].
    intros [?|Hin]; [congruence|]. rewrite Hlk in Hin. apply occ_elem in Hin. assert (g = length (heap me)) as -> by lia. unfold user, user_base in Hz. lia. }
  split; [| | |done].
  - intros g. pose proof (user_moved g). pose proof (u_once _ Hh g). destruct (decide (g = length (heap me))) as [->|Hne]; [|specialize (Hb g Hne)]; lia.
  - intros g o' Ho' Hc'. destruct (Hold g o' Ho' (or_introl Hc')) as [Ho Hne]. destruct (u_closed _ Hh g o' Ho Hc') as [|Hu]; [by left|right].
    pose proof (user_moved g). specialize (Hb g Hne). lia.
  - intros g o' Ho' Hg. destruct (Hold g o' Ho' (or_intror Hg)) as [Ho _]. rewrite Hlk in Hg. by eapply (u_leaked _ Hh).
Qed.
End moved.

Lemma handles_bad me : handles_ok me -> handles_ok (go_bad me).
Proof. by intros []. Qed.

(** ** Every step *)

Section steps.
Context (me : side) (p : nat) (pc : mux_pc).
Hypotheses (Hh : handles_ok me) (Hm : mem_ok me) (Hp : procs me !! p = Some pc).

Lemma ages_put h o o' : heap me !! h = Some o -> ages o o' -> Forall2 ages (heap me) (<[h := o']> (heap me)).
Proof. intros. by eapply Forall2_put; [apply _|..]. Qed.
Lemma ages_unlocked (hp : heap_t) : Forall2 ages hp hp.
Proof. apply (reflexivity (R := Forall2 ages)). Qed.

(** The user closes a stream, which gives its reference up or loses it. *)
Lemma handles_close h me' : pc = Cs h -> xylem_mux_close_stream pc p me = Some me' -> handles_ok me'.
Proof.
  intros Epc. pose proof Hp as Hp'. rewrite Epc in Hp'. rewrite Epc. simpl. unfold on_stream. destruct (heap me !! h) as [o|] eqn:Ho; [|intros [= <-]; by apply handles_bad].
  destruct (_ <? _); [|intros [= <-]; by apply handles_bad].
  assert (user me h = 1%nat) as Hu.
  { pose proof (u_once _ Hh h). pose proof (sum_lookup (fun pc => user_pins pc h) _ _ _ Hp') as Hs. simpl in Hs. rewrite one_eq in Hs. unfold user in *. lia. }
  destruct (closed o) eqn:Ec; intros [= <-].
  - pose proof (user_moved me (at_pc p Idle (note_leaked h me)) p (Cs h) Idle Hp' eq_refl) as Hmv.
    assert (forall g, user (at_pc p Idle (note_leaked h me)) g = user me g) as He.
    { intros g. specialize (Hmv g). unfold user_base at 2 in Hmv. unfold user_base in Hmv. cbn -[occ user] in Hmv. unfold occ at 6 in Hmv. simpl in Hmv. fold (occ g (leaked me)) in Hmv. lia. }
    split; proj; [intros g; rewrite He; apply (u_once _ Hh)|intros g y; rewrite He; apply (u_closed _ Hh)| |by apply (accept_moved me (at_pc p Idle (note_leaked h me)) p (Cs h) Idle)].
    intros g y Hy [->|Hg]%elem_of_cons; [congruence|by eapply (u_leaked _ Hh)].
  - pose proof (user_moved me (at_pc p (CsState h) (put h (with_closed o) me)) p (Cs h) (CsState h) Hp' eq_refl) as Hmv. cbn -[user user_base] in Hmv.
    assert (forall g, user_base (at_pc p (CsState h) (put h (with_closed o) me)) g = user_base me g) as Eb by done.
    split; [| | |by apply (accept_moved me (at_pc p (CsState h) (put h (with_closed o) me)) p (Cs h) (CsState h))].
    + intros g. specialize (Hmv g). rewrite Eb in Hmv. pose proof (u_once _ Hh g). lia.
    + intros g y. proj. rewrite list_lookup_insert_Some. intros [(<- & <- & _)|[Hne Hy]] Hc.
      * right. specialize (Hmv h). rewrite Eb, one_eq in Hmv. lia.
      * destruct (u_closed _ Hh g y Hy Hc) as [|Hz]; [by left|right]. specialize (Hmv g). rewrite Eb in Hmv. lia.
    + intros g y. proj. rewrite list_lookup_insert_Some. intros [(<- & <- & _)|[Hne Hy]] Hg; [done|by eapply (u_leaked _ Hh)].
Qed.

(** Obligations that hold by computation. *)
Ltac hside :=
  lazymatch goal with
  | |- Forall2 ages _ _ => first [by apply ages_unlocked | proj; eapply ages_put; [eassumption|]; first [by apply ages_same | by eauto with mux_ages] | idtac]
  | |- forall g, g ∈ _ -> _ => by proj
  | |- (count accepting _ <= 1)%nat => try (eapply (accept_moved me); [done|done|reflexivity|cbn; lia])
  | |- forall g, (_ <= _)%nat => try (let g := fresh in intros g; unfold user_base; cbn -[occ _mux_add_stream]; rewrite ?occ_app; unfold occ; simpl; lia)
  | |- _ => idtac
  end.
Ltac hkeep := match goal with |- handles_ok ?m => eapply (handles_keep me m p _ _ Hh Hp eq_refl); hside end.

Lemma user_fresh : user_base me (length (heap me)) = 0%nat.
Proof. pose proof (user_refs me (length (heap me))) as Hz. rewrite (m_range _ Hm _ (le_n _)) in Hz. unfold user in Hz. lia. Qed.
Ltac hnew :=
  match goal with |- handles_ok ?m => eapply (handles_new me m p _ _ Hh Hm Hp eq_refl); [reflexivity| |reflexivity| | |]; hside end;
  [match goal with H : _ = Some _ |- _ => by injection H as <- end|intros g Hne|];
  match goal with |- (user_base ?m ?g + _ <= _)%nat => change (user_base m g) with (occ g (accept_ch (mx m)) + occ g (owned me) + occ g (leaked me))%nat; proj end.

Lemma handles_go a me' peer peer' : a = yes \/ pc = OTake -> mux_go a pc p me peer = Some (me', peer') -> handles_ok me'.
Proof.
  intros Ha. pose proof handles_close as Hclose. pose proof (add_stream_rest) as Hadd.
  destruct pc eqn:Epc; try done; unfold mux_go; try (intros (me1 & Hs & [= <- <-])%fmap_Some; revert Hs); try (destruct Ha as [->|]; [|done]);
    unfold _mux_write_frame, xylem_mux_open_stream, xylem_mux_accept_stream, xylem_mux_read, xylem_mux_write, drop_refs, _mux_close_session, xylem_mux_destroy,
      _mux_reader_loop, _mux_handle_data, accept_syn, _mux_handle_window_update, finish, unref_at, on_stream, read_full, _mux_accept_syn, _mux_dispatch,
      after_body, after_close, park_coro, new_stream, mux_stream_create, mbind, option_bind; cbn [fmap option_fmap option_map].
  all: try (by eapply Hclose).
  all: repeat case_match; intros; simplify_eq; try done; try (by hkeep); try (apply handles_bad; first [done|by destruct Hh|by hkeep]).
  - pose proof user_fresh as Hz. hnew; [cbn; rewrite (one_ne _ g) by done; unfold user_base; lia|]. cbn. rewrite one_eq. unfold user_base in Hz. lia.
  - hkeep. intros g. unfold user_base. cbn -[occ _mux_add_stream]. destruct (Hadd h (mx me)) as (-> & _). unfold occ. simpl. lia.
  - hkeep. intros g. unfold user_base. cbn -[occ]. match goal with H : accept_ch _ = _ |- _ => rewrite H end. unfold occ. simpl. lia.
  - match goal with H : xylem_mux_close_stream _ _ _ = _ |- _ => revert H end. unfold xylem_mux_close_stream, on_stream. repeat case_match; intros; simplify_eq; try (by apply handles_bad). hkeep.
  - destruct (free_all me Hm) as (hp & E & Hlen & Hrc). unfold _mux_free. rewrite E. hkeep. proj. apply Forall2_same_length_lookup_2; [done|].
    intros g o o' Ho Ho'. destruct (Hrc g o' Ho') as (o1 & Ho1 & ->). rewrite Ho in Ho1. injection Ho1 as <-. by apply ages_same.
  - pose proof user_fresh as Hz. destruct (Hadd (length (heap me)) (mx me)) as (E & _).
    hnew; change (a_array yes) with true; rewrite E; [cbn; rewrite (one_ne _ g) by done; unfold user_base; lia|]. cbn. rewrite one_eq. unfold user_base in Hz. lia.
Qed.

(** A call begins. *)
Lemma handles_begin c : pc = Idle -> allowed c me = true -> handles_ok (begin c p me).
Proof.
  intros Epc [_ Ha]%andb_true_iff. rewrite Epc in Hp. destruct c as [| |h len|h data|h|h d|h d| |]; cbn [begin] in *; unfold on_stream.
  - by hkeep.
  - hkeep. assert (count accepting (procs me) = 0%nat) as Hz.
    { apply sum_zero. intros q pcq Hq. apply negb_true_iff in Ha. destruct (accepting pcq) eqn:E; [|done]. rewrite (proj2 (existsb_exists _ _)) in Ha; [done|].
      exists pcq. split; [apply list_elem_of_In; by eapply list_elem_of_lookup_2|done]. }
    proj. pose proof (sum_insert (fun pc => Nat.b2n (accepting pc)) _ _ _ Accept Hp) as Hs. unfold count in *. simpl in Hs. lia.
  - repeat case_match; try done; try (by apply handles_bad). by hkeep.
  - repeat case_match; try done; try (by apply handles_bad). by hkeep.
  - apply bool_decide_eq_true in Ha. hkeep. intros g. unfold user_base. cbn -[occ]. pose proof (occ_remove1 g h _ Ha). lia.
  - repeat case_match; try (by apply handles_bad). by hkeep.
  - repeat case_match; try (by apply handles_bad). by hkeep.
  - by hkeep.
  - by hkeep.
Qed.

(** The call that is about to receive is the only one. *)
Lemma accept_alone : pc = Accept -> receiving me = false.
Proof.
  intros ->. unfold receiving. destruct (existsb _ _) eqn:E; [|done]. apply existsb_exists in E as (pcq & Hq & Er). apply list_elem_of_In, list_elem_of_lookup in Hq as [q Hq].
  assert (q <> p) as Hne by (intros ->; rewrite Hp in Hq; by injection Hq as <-).
  pose proof (count_other accepting _ p q Accept pcq eq_refl (u_accept _ Hh) Hp eq_refl Hq Hne). by destruct pcq.
Qed.

(** What is lost was the reference to a stream that has been reset. *)
Lemma leaked_reset h o : heap me !! h = Some o -> (occ h (leaked me) <= 1)%nat /\ (h ∈ leaked me -> state o = MUX_STREAM_CLOSED /\ h ∉ owned me).
Proof.
  intros Ho. pose proof (u_once _ Hh h) as Hu. unfold user, user_base in Hu. split; [lia|]. intros Hl. pose proof (occ_elem _ _ Hl) as Hpos. split.
  - destruct (u_closed _ Hh h o Ho (u_leaked _ Hh h o Ho Hl)) as [|Hz]; [done|]. unfold user, user_base in Hz. lia.
  - intros Hin%occ_elem. lia.
Qed.
End steps.
