(* ===== verification/MuxPark.v ===== *)
(** * Multiplexer: coroutines that wait on a stream

    The waiter of a stream is a coroutine parked on it, and it has nothing to do: whoever
    brings data, opens the window or closes the stream detaches it. *)

From S2P Require Import Prelude Interleave Parking MuxFrame Mux MuxMemory MuxFlow.

Definition reads (h : nat) (pc : mux_pc) : nat := match reading pc with Some g => one g h | None => 0%nat end.

(** Somebody has marked the stream closed and is about to wake its waiters. *)
Definition closing (h : nat) (pr : list mux_pc) : Prop := exists q, pr !! q = Some (CsState h).

Record wait_ok (pr : list mux_pc) (h : nat) (o : xylem_mux_stream_s) : Prop := {
  w_recv q : recv_waiter o = Some q -> (exists len, pr !! q = Some (RdParked h len)) /\ recv_buf o = []
    /\ state o <> MUX_STREAM_REMOTE_CLOSE /\ state o <> MUX_STREAM_CLOSED /\ (closed o = true -> closing h pr);
  w_send q : send_waiter o = Some q -> (exists rest, pr !! q = Some (WrParked h rest)) /\ send_window o = 0
    /\ state o <> MUX_STREAM_CLOSED /\ (closed o = true -> closing h pr);
  w_local : state o = MUX_STREAM_LOCAL_CLOSE -> closed o = true /\ recv_waiter o = None /\ send_waiter o = None
}.
(** The coroutines that sleep on streams, and those that are due to be made ready. *)
Definition pmode (pc : mux_pc) : mode := match pc with RdParked _ _ | WrParked _ _ => Sleeping | _ => Awake end.
Definition opt_list (co : option nat) : list nat := match co with Some q => [q] | None => [] end.
Definition waiters (o : xylem_mux_stream_s) : list nat := opt_list (recv_waiter o) ++ opt_list (send_waiter o).
Definition due_of (me : side) : list nat := (heap me ≫= waiters) ++ (snd <$> detached me).
(** Where a coroutine is that has detached waiters. *)
Definition wakes (pc : mux_pc) : bool := match pc with LFin _ _ | LRst _ _ | LTop | ClReset _ _ _ | FTry _ _ => true | _ => false end.

Record waits_ok (me : side) : Prop := {
  k_read h : (sum_list_with (reads h) (procs me) <= 1)%nat;
  k_write h : (sum_list_with (writes h) (procs me) <= 1)%nat;
  k_wait h o : heap me !! h = Some o -> wait_ok (procs me) h o;
  k_closing q h o : procs me !! q = Some (CsState h) -> heap me !! h = Some o -> closed o = true;
  k_parked : parked (coros me) (pmode <$> procs me) (due_of me);
  k_coro q pc : procs me !! q = Some pc -> is_coro (coros me) q = true;
  k_waker q co : (q, co) ∈ detached me -> exists pc, procs me !! q = Some pc /\ wakes pc = true
}.

(** Streams that agree in what waiting depends on. *)
Definition same_wait (o o' : xylem_mux_stream_s) : Prop :=
  recv_waiter o' = recv_waiter o /\ send_waiter o' = send_waiter o /\ recv_buf o' = recv_buf o /\ send_window o' = send_window o
  /\ state o' = state o /\ closed o' = closed o.
#[export] Instance same_wait_refl : Reflexive same_wait.
Proof. intros o. by split_and!. Qed.
Lemma wait_same pr h o o' : same_wait o o' -> wait_ok pr h o -> wait_ok pr h o'.
Proof. intros (E1 & E2 & E3 & E4 & E5 & E6) []. split; rewrite ?E1, ?E2, ?E3, ?E4, ?E5, ?E6; done. Qed.
Lemma same_waiters hp hp' : Forall2 same_wait hp hp' -> hp' ≫= waiters = hp ≫= waiters.
Proof.
  induction 1 as [|o o' hp hp' (E1 & E2 & _) _ IH]; [done|]. rewrite !bind_cons, IH. unfold waiters. by rewrite E1, E2.
Qed.

(** Streams nobody waits on. *)
Lemma wait_none pr h o : recv_waiter o = None -> send_waiter o = None -> (state o = MUX_STREAM_LOCAL_CLOSE -> closed o = true) -> wait_ok pr h o.
Proof. intros E1 E2 H. split; rewrite ?E1, ?E2; auto; done. Qed.

Section moved.
Context (me me' : side) (p : nat) (pc pc' : mux_pc).
Hypotheses (Hk : waits_ok me) (Hm : mem_ok me) (Hp : procs me !! p = Some pc) (Hpr : procs me' = <[p := pc']> (procs me)).

Definition not_waiter : Prop := forall h o, heap me !! h = Some o -> recv_waiter o <> Some p /\ send_waiter o <> Some p.
Lemma not_parked : pmode pc = Awake -> not_waiter.
Proof.
  intros Hpk h o Ho. destruct (k_wait _ Hk _ _ Ho) as [Hr Hs _]. split; intros E.
  - destruct (Hr _ E) as [[len E'] _]. rewrite Hp in E'. injection E' as ->. done.
  - destruct (Hs _ E) as [[rest E'] _]. rewrite Hp in E'. injection E' as ->. done.
Qed.
Lemma not_due : p ∉ due_of me -> not_waiter.
Proof.
  intros Hd h o Ho. split; intros E; apply Hd, elem_of_app; left; apply list_elem_of_bind; exists o; (split; [|by eapply list_elem_of_lookup_2]);
    unfold waiters; rewrite E; set_solver.
Qed.

Lemma wait_other h o : not_waiter -> pc <> CsState h -> heap me !! h = Some o -> wait_ok (procs me') h o.
Proof.
  intros Hn Hne Ho. destruct (Hn h o Ho) as [N1 N2]. destruct (k_wait _ Hk _ _ Ho) as [Hr Hs Hl].
  assert (closing h (procs me) -> closing h (procs me')) as Hc.
  { intros [q Hq]. exists q. rewrite Hpr, list_lookup_insert_ne; [done|]. intros ->. rewrite Hp in Hq. by injection Hq as ->. }
  split; [| |done].
  - intros q E. destruct (Hr q E) as ([len Hq] & H1 & H2 & H3 & H4). split_and!; auto. exists len. rewrite Hpr, list_lookup_insert_ne; [done|congruence].
  - intros q E. destruct (Hs q E) as ([rest Hq] & H1 & H2 & H3). split_and!; auto. exists rest. rewrite Hpr, list_lookup_insert_ne; [done|congruence].
Qed.

(** One coroutine, which has nobody to make ready, moves, and at most one stream changes
    in what waiting depends on. *)
Hypothesis (Hnd : forall co, (p, co) ∉ detached me).
Lemma park_moved : not_waiter ->
  (forall h, (reads h pc' <= reads h pc)%nat) \/ (forall h, (sum_list_with (reads h) (procs me) + reads h pc' <= 1)%nat) ->
  (forall h, (writes h pc' <= writes h pc)%nat) \/ (forall h, (sum_list_with (writes h) (procs me) + writes h pc' <= 1)%nat) ->
  (forall h o', heap me' !! h = Some o' -> (exists o, heap me !! h = Some o /\ same_wait o o' /\ pc <> CsState h) \/ wait_ok (procs me') h o') ->
  (forall h o', heap me' !! h = Some o' -> (length (heap me) <= h)%nat \/ exists o, heap me !! h = Some o /\ (closed o = true -> closed o' = true)) ->
  (forall h o', pc' = CsState h -> heap me' !! h = Some o' -> closed o' = true) ->
  parked (coros me') (pmode <$> procs me') (due_of me') -> same_kinds (coros me) (coros me') ->
  (forall q co, (q, co) ∈ detached me' -> (q, co) ∈ detached me \/ q = p /\ wakes pc' = true) -> waits_ok me'.
Proof.
  intros Hn Hr Hw Hh Hc Hcs Hpk Hkd Hwk. pose proof (lookup_lt_Some _ _ _ Hp) as Hlt. split; [| | | |done| |].
  - intros h. rewrite Hpr. pose proof (sum_insert (reads h) _ _ _ pc' Hp). pose proof (k_read _ Hk h). destruct Hr as [Hr|Hr]; specialize (Hr h); lia.
  - intros h. rewrite Hpr. pose proof (sum_insert (writes h) _ _ _ pc' Hp). pose proof (k_write _ Hk h). destruct Hw as [Hw|Hw]; specialize (Hw h); lia.
  - intros h o' Ho'. destruct (Hh h o' Ho') as [(o & Ho & Hs & Hne)|]; [|done]. eapply wait_same; [done|]. by apply wait_other.
  - intros q h o'. rewrite Hpr, list_lookup_insert_Some. intros [(<- & -> & _)|[_ Hq]] Ho'; [by eapply Hcs|].
    destruct (Hc h o' Ho') as [Hlen|(o & Ho & Himp)]; [|apply Himp; by eapply (k_closing _ Hk)].
    pose proof (pins_held me q _ h Hq) as Hh'. rewrite (m_range _ Hm h Hlen) in Hh'. cbn in Hh'. rewrite one_eq in Hh'. lia.
  - intros q pcq Hq. rewrite Hkd. rewrite Hpr in Hq. apply list_lookup_insert_Some in Hq as [(<- & _ & _)|[_ Hq]]; by eapply (k_coro _ Hk).
  - intros q co [Hq|[-> Hq]]%Hwk; rewrite Hpr; [|exists pc'; by rewrite list_lookup_insert_eq].
    destruct (decide (q = p)) as [->|Hne]; [by apply Hnd in Hq|]. rewrite list_lookup_insert_ne by done. by eapply (k_waker _ Hk).
Qed.

Lemma modes_keep : pmode pc' = pmode pc -> pmode <$> procs me' = pmode <$> procs me.
Proof. intros E. rewrite Hpr, list_fmap_insert, E. apply list_insert_id. by rewrite list_lookup_fmap, Hp. Qed.

Lemma park_keep : pmode pc = Awake -> pmode pc' = Awake -> coros me' = coros me -> detached me' = detached me ->
  Forall2 same_wait (heap me) (heap me') -> (forall h, pc <> CsState h) -> (forall h, pc' <> CsState h) ->
  (forall h, (reads h pc' <= reads h pc)%nat) \/ (forall h, (sum_list_with (reads h) (procs me) + reads h pc' <= 1)%nat) ->
  (forall h, (writes h pc' <= writes h pc)%nat) \/ (forall h, (sum_list_with (writes h) (procs me) + writes h pc' <= 1)%nat) -> waits_ok me'.
Proof.
  intros M1 M2 Ec Ed Hh H1 H2 Hr Hw. apply park_moved; auto.
  - by apply not_parked.
  - intros h o' Ho'. destruct (Forall2_lookup_r _ _ _ _ _ Hh Ho') as (o & Ho & Hs). left. eauto.
  - intros h o' Ho'. destruct (Forall2_lookup_r _ _ _ _ _ Hh Ho') as (o & Ho & (_ & _ & _ & _ & _ & E)). right. exists o. by rewrite E.
  - intros h o' E. by destruct (H2 h).
  - unfold due_of. rewrite Ec, Ed, (same_waiters _ _ Hh), modes_keep by congruence. apply (k_parked _ Hk).
  - by rewrite Ec.
  - rewrite Ed. auto.
Qed.

(** One stream changes; the waiters that are not its waiters any more are detached. *)
Lemma park_put h o o' cos : pmode pc = Awake -> pmode pc' = Awake -> heap me !! h = Some o -> heap me' = <[h := o']> (heap me) ->
  coros me' = coros me -> detached me' = detached me ++ ((fun co => (p, co)) <$> cos) -> waiters o' ++ cos ≡ₚ waiters o -> (cos = [] \/ wakes pc' = true) ->
  (forall g, g <> h -> pc <> CsState g) ->
  (forall g, pc' = CsState g -> g = h /\ closed o' = true) -> (closed o = true -> closed o' = true) ->
  (forall h, (reads h pc' <= reads h pc)%nat) -> (forall h, (writes h pc' <= writes h pc)%nat) -> wait_ok (procs me') h o' -> waits_ok me'.
Proof.
  intros M1 M2 Ho Hh Ec Ed Hd Hcos H1 H2 Hc Hr Hw Hwait. pose proof (lookup_lt_Some _ _ _ Ho) as Hlt. apply park_moved; auto.
  - by apply not_parked.
  - intros g y. rewrite Hh, list_lookup_insert_Some. intros [(<- & <- & _)|[Hne Hy]]; [by right|left]. exists y. split_and!; try done. by apply H1.
  - intros g y. rewrite Hh, list_lookup_insert_Some. intros [(<- & <- & _)|[Hne Hy]]; right; eauto.
  - intros g y E Hy. destruct (H2 g E) as [-> Hcl]. rewrite Hh, list_lookup_insert_eq in Hy by done. by injection Hy as <-.
  - rewrite Ec, modes_keep by congruence. eapply parked_perm; [|apply (k_parked _ Hk)]. unfold due_of. rewrite Hh, Ed, fmap_app, <-list_fmap_compose.
    assert (snd ∘ (fun co => (p, co)) <$> cos = cos) as -> by apply list_fmap_id. pose proof (union_insert waiters _ _ _ o' Ho) as HU.
    apply (Permutation_app_inv_l (waiters o')). rewrite !app_assoc, <-HU, <-Hd. solve_Permutation.
  - by rewrite Ec.
  - intros q co. rewrite Ed, elem_of_app, list_elem_of_fmap. intros [Hq|(co' & [= -> ->] & Hin)]; [by left|]. destruct Hcos as [->|]; [by apply elem_of_nil in Hin|by right].
Qed.

(** A stream is created. *)
Lemma park_new o : pmode pc = Awake -> pmode pc' = Awake -> heap me' = heap me ++ [o] -> recv_waiter o = None -> send_waiter o = None ->
  state o <> MUX_STREAM_LOCAL_CLOSE -> coros me' = coros me -> detached me' = detached me -> (forall h, pc <> CsState h) -> (forall h, pc' <> CsState h) ->
  (forall h, (reads h pc' <= reads h pc)%nat) -> (forall h, (writes h pc' <= writes h pc)%nat) -> waits_ok me'.
Proof.
  intros M1 M2 Hh E1 E2 E3 Ec Ed H1 H2 Hr Hw. apply park_moved; auto.
  - by apply not_parked.
  - intros g o'. rewrite Hh, lookup_app_Some, list_lookup_singleton_Some. intros [Ho|(_ & _ & <-)]; [left; by exists o'|right; by apply wait_none].
  - intros g o'. rewrite Hh, lookup_app_Some. intros [Ho|[Hlen _]]; [right; by exists o'|by left].
  - intros h o' E. by destruct (H2 h).
  - unfold due_of. rewrite Ec, Ed, Hh, bind_app, bind_singleton, modes_keep by congruence. unfold waiters at 2. rewrite E1, E2. simpl. rewrite app_nil_r. apply (k_parked _ Hk).
  - by rewrite Ec.
  - rewrite Ed. auto.
Qed.

(** The scheduler parks a coroutine, which becomes due where it has published itself. *)
Lemma park_coro_ok verdict : pmode pc = Awake -> exists w, (forall m, coros m = coros me -> park_coro p verdict m = set_coros w m)
  /\ parked w (<[p := Sleeping]> (pmode <$> procs me)) ((if verdict then [p] else []) ++ due_of me) /\ same_kinds (coros me) w.
Proof.
  intros Ha. pose proof (lookup_lt_Some _ _ _ Hp) as Hlt. assert ((pmode <$> procs me) !! p = Some Awake) as Hl by (by rewrite list_lookup_fmap, Hp; simpl; rewrite Ha).
  destruct (parked_park _ _ _ p (k_parked _ Hk) Hl (k_coro _ Hk _ _ Hp)) as (w1 & Ew1 & Hw1 & Hk1).
  assert (<[p := Committing]> (pmode <$> procs me) !! p = Some Committing) as Hl1 by (by rewrite list_lookup_insert_eq by (by rewrite length_fmap)).
  destruct verdict.
  - exists w1. split_and!; [intros m Em; unfold park_coro; by rewrite Em, Ew1| |done].
    rewrite <-(list_insert_insert_eq _ p Sleeping Committing). by eapply parked_publish; [|done|left].
  - destruct (parked_refuse _ _ _ p Hw1 Hl1) as (w2 & Ew2 & Hw2 & Hk2). exists w2. split_and!; [intros m Em; unfold park_coro; by rewrite Em, Ew1, Ew2| |].
    + by rewrite list_insert_insert_eq in Hw2.
    + intros q. by rewrite Hk2, Hk1.
Qed.
Lemma park_commit h o o' w pub : pmode pc = Awake -> pmode pc' = Sleeping -> heap me !! h = Some o -> heap me' = <[h := o']> (heap me) ->
  coros me' = w -> detached me' = detached me -> waiters o' ≡ₚ pub ++ waiters o ->
  parked w (<[p := Sleeping]> (pmode <$> procs me)) (pub ++ due_of me) -> same_kinds (coros me) w -> (forall g, pc <> CsState g) -> (forall g, pc' <> CsState g) ->
  closed o' = closed o -> (forall h, (reads h pc' <= reads h pc)%nat) -> (forall h, (writes h pc' <= writes h pc)%nat) -> wait_ok (procs me') h o' -> waits_ok me'.
Proof.
  intros M1 M2 Ho Hh Ec Ed Hw Hpk Hkd H1 H2 Hc Hr Hwr Hwait. apply park_moved; auto.
  - by apply not_parked.
  - intros g y. rewrite Hh, list_lookup_insert_Some. intros [(<- & <- & _)|[Hne Hy]]; [by right|left]. by exists y.
  - intros g y. rewrite Hh, list_lookup_insert_Some. intros [(<- & <- & _)|[Hne Hy]]; right; [exists o; by rewrite Hc|by exists y].
  - intros g y E. by destruct (H2 g).
  - rewrite Ec, Hpr, list_fmap_insert, M2. eapply parked_perm; [|done]. unfold due_of. rewrite Hh, Ed. pose proof (union_insert waiters _ _ _ o' Ho) as HU.
    apply (Permutation_app_inv_l (waiters o)). rewrite !app_assoc, HU, Hw. solve_Permutation.
  - by rewrite Ec.
  - rewrite Ed. auto.
Qed.
Lemma park_resume w : pmode pc = Sleeping -> pmode pc' = Awake -> resume p (coros me) = Some w -> heap me' = heap me -> coros me' = w -> detached me' = detached me ->
  (forall g, pc <> CsState g) -> (forall g, pc' <> CsState g) -> (forall h, (reads h pc' <= reads h pc)%nat) -> (forall h, (writes h pc' <= writes h pc)%nat) -> waits_ok me'.
Proof.
  intros M1 M2 Hres Hh Ec Ed H1 H2 Hr Hwr. destruct (parked_resume _ w _ _ p (k_parked _ Hk)) as (Hd & Hpk & Hkd); [by rewrite list_lookup_fmap, Hp; simpl; rewrite M1|done|].
  apply park_moved; rewrite ?Ec, ?Ed, ?Hh; auto.
  - by apply not_due.
  - intros h o Ho. left. by exists o.
  - intros h o Ho. right. by exists o.
  - intros h o E. by destruct (H2 h).
  - unfold due_of. rewrite Ed, Hh, Hpr, list_fmap_insert, M2. done.
Qed.
End moved.

Lemma same_wait_put (hp : heap_t) h o o' : hp !! h = Some o -> same_wait o o' -> Forall2 same_wait hp (<[h := o']> hp).
Proof. intros. by eapply Forall2_put; [apply _|..]. Qed.

(** ** Every step keeps it *)

Section park_steps.
Context (me : side) (p : nat) (pc : mux_pc).
Hypotheses (Hk : waits_ok me) (Hm : mem_ok me) (Hp : procs me !! p = Some pc) (Hnd : forall co, (p, co) ∉ detached me).
Hypotheses (Hsw : forall h o, heap me !! h = Some o -> 0 <= send_window o).
Hypotheses (Htry : forall f k, pc = FTry f k -> match k with KFin _ | KGoAway _ => True | _ => False end).

Ltac wside :=
  lazymatch goal with
  | |- procs _ = _ => reflexivity
  | |- not_waiter _ _ => first [done | eapply not_parked; done]
  | |- pmode _ = Awake => first [done | by repeat case_match]
  | |- (forall h, (_ <= _)%nat) \/ _ => left; cbn; (done || (intros; lia) || (by intros; repeat case_match))
  | |- Forall2 same_wait _ _ => first [by apply (reflexivity (R := Forall2 same_wait)) | by (cbn; eapply same_wait_put)]
  | |- forall h, (_ <= _)%nat => cbn; (done || (intros; lia))
  | |- _ => done
  end.
Tactic Notation "kkeep" := eapply (park_keep me _ p _ _ Hk Hm Hp); try wside.
Tactic Notation "kput" constr(h) constr(o) constr(cos) := match goal with |- waits_ok ?m => eapply (park_put me m p _ _ Hk Hm Hp eq_refl Hnd h o _ cos) end; [| | |reflexivity|..]; try wside.
Tactic Notation "kput0" constr(h) constr(o) := kput h o (@nil nat); try (by rewrite app_nil_r); try (by left).
Tactic Notation "kcommit" constr(h) constr(o) constr(w) constr(pub) :=
  match goal with |- waits_ok ?m => eapply (park_commit me m p _ _ Hk Hm Hp eq_refl Hnd h o _ w pub) end; [| | |reflexivity|..]; try wside.
Ltac kstream h :=
  match goal with |- context [on_stream h me ?f] =>
    let o := fresh "o" in let Ho := fresh "Ho" in let E := fresh "E" in
    destruct (on_stream_held me h f Hm) as (o & Ho & _ & E);
    [first [by (eapply pins_held; [done|]; cbn; rewrite one_eq; lia) | by (eapply stream_held, (m_uses _ Hm); [done|cbn; set_solver])
            | by (apply stream_held; eapply list_elem_of_lookup_2)]|]; rewrite E; clear E
  end.

Lemma park_finish k rc c : (forall g, pins pc g = cont_pins k g) -> (exists f, pc = FTry f k) \/ pc = FUnlock rc k -> waits_ok (finish k rc p (set_mu c me)).
Proof.
  intros Hpin Hpc. assert (pmode pc = Awake) as Hn by (by destruct Hpc as [[f ->]| ->]).
  assert (forall h, pc <> CsState h) as Hcs by (by intros h; destruct Hpc as [[f ->]| ->]). unfold finish.
  destruct k as [h|h chunk rest|h| |h|a]; try (by kkeep).
  - destruct (rc =? 0); [|by kkeep]. destruct (held_alive me h Hm) as (o & Ho & Hr); [eapply pins_held; [done|]; rewrite Hpin; cbn; rewrite one_eq; lia|].
    unfold on_stream. cbn [heap set_mu]. rewrite Ho, Hr. by kkeep.
  - destruct (Z.eqb_spec rc 0) as [->|]; [|by kkeep]. destruct Hpc as [[f E]|E]; [by specialize (Htry _ _ E)|]. kkeep. left. by rewrite E.
Qed.

Lemma park_write_frame me' : _mux_write_frame pc p me = Some me' -> waits_ok me'.
Proof.
  pose proof park_finish as Hfin. destruct pc; try done; simpl.
  - destruct (write_mu me); [done|]. intros [= <-]. kkeep; left; intros h; by destruct k.
  - destruct (write_mu me) eqn:E; intros [= <-].
    + rewrite <-(set_mu_id me). apply Hfin; [done|by left; eexists].
    + specialize (Htry _ _ eq_refl). destruct k; try done; by kkeep.
  - intros [= <-]. destruct (cut me); [|destruct (snd f)]; kkeep; left; intros h; by destruct k.
  - intros [= <-]. destruct (cut me); kkeep; left; intros h; by destruct k.
  - intros [= <-]. apply Hfin; [done|by right].
Qed.

Lemma park_user me' : step_ok p pc me -> (xylem_mux_accept_stream pc p me = Some me' \/ drop_refs pc p me = Some me' \/ xylem_mux_destroy pc p me = Some me') -> waits_ok me'.
Proof.
  intros Hgood [Hs|[Hs|Hs]]; revert Hs; destruct pc; try done; simpl.
  - simpl in Hgood. rewrite Hgood. intros [= <-]. destruct (mux_closed (mx me)); by kkeep.
  - destruct (accept_ch (mx me)) as [|h rest]; [destruct (accept_closed (mx me)); [|done]|]; intros [= <-]; by kkeep.
  - destruct n as [|n]; intros [= <-]; [by kkeep|]. unfold unref_at. kstream h. by kkeep; case_match.
  - destruct (reader_done (mx me)); intros [= <-]; [|done]. destruct (free_all me Hm) as (hp & E & Hlen & Hrc). unfold _mux_free. rewrite E.
    kkeep. cbn. apply Forall2_same_length_lookup_2; [done|]. intros g o o' Ho Ho'. destruct (Hrc g o' Ho') as (o1 & Ho1 & ->). rewrite Ho in Ho1. by injection Ho1 as <-.
Qed.

Lemma park_open a me' : xylem_mux_open_stream a pc p me = Some me' -> waits_ok me'.
Proof.
  destruct pc; try done; simpl.
  - destruct (mux_closed (mx me)); [intros [= <-]; by kkeep|]. unfold new_stream, mux_stream_create.
    destruct (_ && _); intros [= <-]; [|by kkeep]. by eapply (park_new me _ p _ _ Hk Hm Hp); try wside.
  - intros [= <-]. destruct (mux_closed (mx me)); by kkeep.
Qed.

Lemma park_accept_syn a me' : accept_syn a pc p me = Some me' -> waits_ok me'.
Proof.
  destruct pc; try done; simpl.
  - unfold _mux_accept_syn. destruct (mux_closed (mx me)); [intros [= <-]; by kkeep; case_match|]. destruct (_mux_find_stream _ _ _); [intros [= <-]; by kkeep; case_match|].
    unfold new_stream, mux_stream_create. destruct (_ && _); intros [= <-]; [|by kkeep; case_match]. by eapply (park_new me _ p _ _ Hk Hm Hp); try wside.
  - intros [= <-]. by kkeep; case_match.
Qed.

Lemma detach_one co (m : side) : detached (detach p co m) = detached m ++ ((fun co => (p, co)) <$> opt_list co).
Proof. by destruct co. Qed.
(** A stream whose waiters are all detached. *)
Lemma detach_all o (m : side) : detached (detach p (send_waiter o) (detach p (recv_waiter o) m)) = detached m ++ ((fun co => (p, co)) <$> waiters o).
Proof. unfold waiters. cbn. rewrite <-app_assoc, fmap_app. f_equal. by destruct (recv_waiter o), (send_waiter o). Qed.

Lemma park_close_session me' : (forall i n a, pc = ClReset i n a -> (n <= length (streams (mx me)))%nat) -> _mux_close_session pc p me = Some me' -> waits_ok me'.
Proof.
  intros Hn. destruct pc; try done; simpl.
  - intros [= <-]. destruct (mux_closed (mx me)); [|by kkeep]. destruct a; by kkeep.
  - intros [= <-]. by kkeep.
  - destruct (Nat.ltb_spec i n); [|intros [= <-]; by kkeep]. specialize (Hn i n a eq_refl).
    destruct (streams (mx me) !! i) as [h|] eqn:Eh; [|apply lookup_ge_None in Eh; lia]. intros [= <-]. kstream h. kput h o (waiters o); [exact (detach_all o (put h _ me))|by right].
  - intros [= <-]. destruct a; by kkeep.
Qed.

Lemma park_close_stream me' : xylem_mux_close_stream pc p me = Some me' -> waits_ok me'.
Proof.
  destruct pc; try done; simpl; intros [= <-]; kstream h.
  - destruct (closed o) eqn:Ec; [by kkeep|]. kput h o (@nil nat); [by rewrite app_nil_r|by rewrite app_nil_r|by left|by intros g [= <-]|]. proj. pose proof (not_parked me p _ Hk Hp eq_refl) as Hnw.
    assert (wait_ok (<[p := CsState h]> (procs me)) h o) as [Hr Hs Hl] by (eapply (wait_other me (at_pc p (CsState h) me) p (Cs h)); done).
    assert (closing h (<[p := CsState h]> (procs me))) as Hcl by (exists p; by rewrite list_lookup_insert_eq by (by eapply lookup_lt_Some)).
    split; cbn; naive_solver.
  - kput h o (waiters o); [exact (detach_all o (put h _ me))|by right|congruence|]. apply wait_none; [done..|]. intros _. exact (k_closing _ Hk p h o Hp Ho).
Qed.

Lemma park_window_update me' : _mux_handle_window_update pc p me = Some me' -> waits_ok me'.
Proof.
  destruct pc; try done; simpl; intros [= <-].
  - destruct (_mux_find_stream _ _ _); by kkeep.
  - kstream h. kput h o (opt_list (send_waiter o)); [exact (detach_one (send_waiter o) (put h _ me))|by unfold waiters; cbn; rewrite app_nil_r|by right|].
    pose proof (not_parked me p _ Hk Hp eq_refl) as Hnw.
    assert (wait_ok (<[p := LTop]> (procs me)) h o) as [Hr Hs Hl] by (eapply (wait_other me (at_pc p LTop me) p (LWu hdr h)); done).
    split; cbn; naive_solver.
Qed.

(** What a stream kept by the others is worth after the step. *)
Lemma wait_after pc' h o : match pc with RdParked _ _ | WrParked _ _ | CsState _ => false | _ => true end = true -> heap me !! h = Some o ->
  wait_ok (<[p := pc']> (procs me)) h o.
Proof.
  intros Hpc Ho. apply (wait_other me (at_pc p pc' me) p pc pc'); try done; [|by intros ->].
  eapply not_parked; [done..|]. by destruct pc.
Qed.

Ltac waft h o :=
  match goal with Haft : context [wait_ok], Ho : heap me !! h = Some o |- wait_ok (procs ?m) _ _ =>
    let Hr := fresh "Hr" in let Hs := fresh "Hs" in let Hl := fresh "Hl" in
    assert (wait_ok (procs m) h o) as [Hr Hs Hl] by (by apply Haft); clear Haft
  end.

Lemma park_read me' : step_ok p pc me -> xylem_mux_read pc p me = Some me' -> waits_ok me'.
Proof.
  intros Hgood. pose proof wait_after as Haft. destruct pc; try done; simpl.
  - intros [= <-]. kstream h. destruct (Hgood o Ho) as [Hl1 Hl2]. destruct (recv_buf o) as [|x buf] eqn:Eb; [by kkeep|].
    assert (recv_waiter o = None) as Hrw.
    { destruct (recv_waiter o) as [q|] eqn:E; [|done]. destruct (w_recv _ _ _ (k_wait _ Hk _ _ Ho) q E) as (_ & E' & _). congruence. }
    unfold read_section. rewrite Eb, i32_small by lia.
    assert ((if Z.of_nat (length (x :: buf)) <? len then Z.of_nat (length (x :: buf)) else len) <? 0 = false) as -> by (case_match; lia).
    destruct (_ <=? _).
    + kput0 h o. waft h o. split; cbn; [congruence|done|done].
    + kput0 h o. waft h o. split; cbn; [congruence|done|done].
  - intros [= <-]. kstream h. destruct (read_done st o); by kkeep.
  - intros [= <-]. destruct Hgood as [_ Hgood]. kstream h. unfold _mux_recv_wait_commit_cb. rewrite (Hgood o Ho). destruct (_ || _) eqn:Ec.
    + destruct (park_coro_ok me p _ Hk Hp false eq_refl) as (w & -> & Hw & Hkd); [|done]. kcommit h o w (@nil nat). by apply Haft.
    + apply orb_false_iff in Ec as [E1 E2]. unfold read_done in E2. rewrite !orb_false_iff, !bool_decide_eq_false in E2. destruct E2 as [[E2 E3] E4].
      destruct (park_coro_ok me p _ Hk Hp true eq_refl) as (w & -> & Hw & Hkd); [|done]. kcommit h o w [p].
      { unfold waiters. cbn. by rewrite (Hgood o Ho). }
      waft h o. split; cbn; [|done|intros E; by destruct (Hl E) as [? _]; congruence].
      intros q [= <-]. split_and!; try done; [exists len; by rewrite list_lookup_insert_eq by (by eapply lookup_lt_Some)|by destruct (recv_buf o)|congruence].
  - destruct (resume p (coros me)) as [w|] eqn:Er; [|done]. intros [= <-]. match goal with |- waits_ok ?m => by eapply (park_resume me m p _ _ Hk Hm Hp eq_refl Hnd w) end.
Qed.

Lemma park_write me' : step_ok p pc me -> xylem_mux_write pc p me = Some me' -> waits_ok me'.
Proof.
  intros Hgood. pose proof wait_after as Haft. destruct pc; try done; simpl.
  - destruct rest as [|x rest]; intros [= <-]; [by kkeep|]. kstream h. destruct (write_closed o); [by kkeep|]. destruct (_ =? _); by kkeep.
  - intros [= <-]. destruct Hgood as [_ Hgood]. kstream h. unfold _mux_send_wait_commit_cb. rewrite (Hgood o Ho). destruct (_ || _) eqn:Ec.
    + destruct (park_coro_ok me p _ Hk Hp false eq_refl) as (w & -> & Hw & Hkd); [|done]. kcommit h o w (@nil nat). by apply Haft.
    + apply orb_false_iff in Ec as [E1 E2]. unfold write_closed in E2. rewrite orb_false_iff, bool_decide_eq_false in E2. destruct E2 as [E2 E3].
      destruct (park_coro_ok me p _ Hk Hp true eq_refl) as (w & -> & Hw & Hkd); [|done]. kcommit h o w [p].
      { unfold waiters. cbn. rewrite (Hgood o Ho). simpl. rewrite app_nil_r. symmetry. apply Permutation_cons_append. }
      waft h o. split; cbn; [done| |intros E; by destruct (Hl E) as [? _]; congruence].
      intros q [= <-]. split_and!; try done; [exists rest; by rewrite list_lookup_insert_eq by (by eapply lookup_lt_Some)| |congruence].
      specialize (Hsw h o Ho). lia.
  - destruct (resume p (coros me)) as [w|] eqn:Er; [|done]. intros [= <-]. match goal with |- waits_ok ?m => by eapply (park_resume me m p _ _ Hk Hm Hp eq_refl Hnd w) end.
  - intros [= <-]. kstream h. kput0 h o. waft h o. split; cbn; [done| |done].
    intros q E. destruct (w_send _ _ _ (k_wait _ Hk _ _ Ho) q E) as ([r Hq] & _).
    assert (writes h (WrParked h r) = 0%nat) as Hz; [|cbn in Hz; by rewrite one_eq in Hz].
    eapply (sum_other (writes h) _ p q); [apply (k_write _ Hk)|exact Hp|cbn; apply one_eq|done|congruence].
Qed.

Lemma park_handle_data a me' peer peer' : a = yes -> step_ok p pc me -> _mux_handle_data a pc p me peer = Some (me', peer') -> waits_ok me'.
Proof.
  intros -> Hgood. pose proof wait_after as Haft. destruct pc; try done; simpl.
  - intros [= <- _]. by kkeep; case_match.
  - destruct (_ =? 0) eqn:E0; [intros [= <- _]; by destruct oh; kkeep|]. rewrite andb_false_r. destruct (_ <? 0) eqn:E1.
    { destruct oh as [h|]; intros [= <- _]; [simpl in Hgood; lia|]. by kkeep. }
    destruct (cut me); [intros [= <- _]; by destruct oh; kkeep|]. destruct (read_full _ _); [|done]. simpl. destruct oh; intros [= <- _]; by kkeep.
  - intros [= <- _]. kstream h. unfold mux_stream_push_data. destruct (_ =? _)%nat eqn:El.
    + kput0 h o. waft h o. done.
    + rewrite andb_false_r. kput h o (opt_list (recv_waiter o)); [exact (detach_one (recv_waiter o) (put h _ me))|apply Permutation_app_comm|by right|]. waft h o. split; cbn; naive_solver.
  - destruct (flag _ _); intros [= <- _]; [|by kkeep]. kstream h. unfold mux_stream_notify_remote_fin.
    destruct (state o) eqn:Es; (kput h o (opt_list (recv_waiter o)); [exact (detach_one (recv_waiter o) (put h _ me))|apply Permutation_app_comm|by right|]);
      waft h o; split; cbn; rewrite ?Es in *; naive_solver.
  - destruct (flag _ _); intros [= <- _]; [|by kkeep]. kstream h. kput h o (waiters o); [exact (detach_all o (put h _ me))|by right].
Qed.

Lemma park_reader_loop me' peer peer' : _mux_reader_loop pc p me peer = Some (me', peer') -> waits_ok me'.
Proof.
  destruct pc; try done; simpl.
  - intros [= <- _]. by kkeep; case_match.
  - destruct (cut me); [intros [= <- _]; by kkeep|]. destruct (read_full _ _); [|done]. intros [= <- _]. by kkeep; case_match.
  - intros [= <- _]. unfold _mux_dispatch. repeat case_match; by kkeep.
  - intros [= <- _]. by kkeep.
  - intros [= <- _]. by kkeep.
Qed.

Lemma park_go a me' peer peer' : a = yes \/ pc = OTake -> step_ok p pc me -> mux_go a pc p me peer = Some (me', peer') -> waits_ok me'.
Proof.
  intros Ha Hgood. pose proof park_write_frame as A1. pose proof park_open as A2. pose proof park_user as A3. pose proof park_read as A4. pose proof park_write as A5.
  pose proof park_close_stream as A6. pose proof park_close_session as A7. pose proof park_reader_loop as A8. pose proof park_handle_data as A9.
  pose proof park_accept_syn as A10. pose proof park_window_update as A11.
  assert (forall i n a, pc = ClReset i n a -> (n <= length (streams (mx me)))%nat) as Hn by (intros i n a1 E; rewrite E in Hp; by eapply (m_reset _ Hm)).
  destruct pc; unfold mux_go; try done; try (intros (me1 & Hs & [= <- _])%fmap_Some); eauto; destruct Ha as [->|]; eauto; done.
Qed.

(** A call begins. *)
Lemma park_begin c : pc = Idle -> allowed c me = true -> waits_ok (begin c p me).
Proof.
  intros Epc [_ Ha]%andb_true_iff. rewrite Epc in Hp.
  assert (forall h f, h ∈ owned me -> exists o, heap me !! h = Some o /\ on_stream h me f = f o) as Hon.
  { intros h f Hh. destruct (on_stream_held me h f Hm (owned_held _ _ Hh)) as (o & Ho & _ & E). by exists o. }
  assert (forall (f : mux_pc -> option nat) h, negb (existsb (fun pc => bool_decide (f pc = Some h)) (procs me)) = true ->
    sum_list_with (fun pc => match f pc with Some g => one g h | None => 0%nat end) (procs me) = 0%nat) as Hnone.
  { intros f h Hx%negb_true_iff. apply sum_zero. intros q pcq Hq. destruct (f pcq) as [g|] eqn:E; [|done].
    destruct (decide (g = h)) as [->|Hne]; [|by apply one_ne]. rewrite (proj2 (existsb_exists _ _)) in Hx; [done|].
    exists pcq. split; [apply list_elem_of_In; by eapply list_elem_of_lookup_2|]. by apply bool_decide_eq_true. }
  assert (forall h pc' o', (forall g, pc' <> CsState g) -> pmode pc' = Awake -> (forall g, reads g pc' = 0%nat) \/ (forall g, (sum_list_with (reads g) (procs me) + reads g pc' <= 1)%nat) ->
    (forall g, writes g pc' = 0%nat) \/ (forall g, (sum_list_with (writes g) (procs me) + writes g pc' <= 1)%nat) -> (exists o, heap me !! h = Some o /\ same_wait o o') ->
    waits_ok (at_pc p pc' (put h o' me))) as Hput.
  { intros h pc' o' Hc Hpm Hr Hw (o & Ho & Hs). assert (Forall2 same_wait (heap me) (<[h := o']> (heap me))) as Hh by (by eapply same_wait_put). kkeep.
    - destruct Hr as [Hr|Hr]; [left|by right]. intros g. rewrite Hr. lia.
    - destruct Hw as [Hw|Hw]; [left|by right]. intros g. rewrite Hw. lia. }
  destruct c as [| |h len|h data|h|h d|h d| |]; simpl in *; try (by kkeep); repeat (apply andb_true_iff in Ha as [Ha ?]); apply bool_decide_eq_true in Ha.
  - destruct (len <=? 0); [done|]. destruct (Hon h (fun s => at_pc p (Rd h len) (put h (mux_stream_ref s) me)) Ha) as (o & Ho & ->).
    apply Hput; [done|done| |by left|by exists o]. right. intros g. change (reads g (Rd h len)) with (one h g).
    destruct (decide (h = g)) as [<-|Hne]; [unfold reads; rewrite Hnone, one_eq by done; lia|]. rewrite one_ne by done. pose proof (k_read _ Hk g). lia.
  - destruct data as [|x data]; [done|]. set (d := x :: data). destruct (Hon h (fun s => at_pc p (Wr h d) (put h (mux_stream_ref s) me)) Ha) as (o & Ho & ->).
    apply Hput; [done|done|by left| |by exists o]. right. intros g. change (writes g (Wr h d)) with (one h g).
    destruct (decide (h = g)) as [<-|Hne]; [unfold writes; rewrite Hnone, one_eq by done; lia|]. rewrite one_ne by done. pose proof (k_write _ Hk g). lia.
  - destruct (Hon h (fun s => at_pc p Idle (put h (xylem_mux_set_read_deadline d s) me)) Ha) as (o & Ho & ->). apply Hput; [done|done|by left|by left|by exists o].
  - destruct (Hon h (fun s => at_pc p Idle (put h (xylem_mux_set_write_deadline d s) me)) Ha) as (o & Ho & ->). apply Hput; [done|done|by left|by left|by exists o].
Qed.

(** Nobody else waits where a coroutine is about to, and the scheduler lets it park. *)
Lemma commit_free : match pc with
  | RdCommit h _ => can_park p me /\ forall o, heap me !! h = Some o -> recv_waiter o = None
  | WrCommit h _ => can_park p me /\ forall o, heap me !! h = Some o -> send_waiter o = None
  | _ => True end.
Proof.
  clear Htry. assert (pmode pc = Awake -> can_park p me) as Hcp by (intros Ha v; destruct (park_coro_ok me p pc Hk Hp v Ha) as (w & H & _); by exists w).
  destruct pc; try done; (split; [by apply Hcp|]); intros o Ho.
  - destruct (recv_waiter o) as [q|] eqn:E; [|done]. destruct (w_recv _ _ _ (k_wait _ Hk _ _ Ho) q E) as ([l Hq] & _).
    assert (reads h (RdParked h l) = 0%nat) as Hz; [|cbn in Hz; by rewrite one_eq in Hz].
    eapply (sum_other (reads h) _ p q); [apply (k_read _ Hk)|exact Hp|cbn; apply one_eq|done|congruence].
  - destruct (send_waiter o) as [q|] eqn:E; [|done]. destruct (w_send _ _ _ (k_wait _ Hk _ _ Ho) q E) as ([l Hq] & _).
    assert (writes h (WrParked h l) = 0%nat) as Hz; [|cbn in Hz; by rewrite one_eq in Hz].
    eapply (sum_other (writes h) _ p q); [apply (k_write _ Hk)|exact Hp|cbn; apply one_eq|done|congruence].
Qed.
End park_steps.

(** ** Detached waiters are made ready *)

Lemma next_detached_some p l co l' : next_detached p l = Some (co, l') -> l ≡ₚ (p, co) :: l'.
Proof.
  revert l'. induction l as [|[q c] l IH]; intros l'; [done|]. simpl. destruct (Nat.eqb_spec q p) as [->|_]; [by intros [= -> ->]|].
  destruct (next_detached p l) as [[c' l1]|]; [|done]. intros [= -> <-]. rewrite (IH l1 eq_refl). constructor.
Qed.
Lemma next_detached_none p l : next_detached p l = None -> forall co, (p, co) ∉ l.
Proof.
  induction l as [|[q c] l IH]; simpl; [intros _ co; apply not_elem_of_nil|]. destruct (Nat.eqb_spec q p) as [->|Hne]; [done|].
  destruct (next_detached p l) as [[c' l1]|]; [done|]. intros _ co. rewrite not_elem_of_cons. split; [congruence|by apply IH].
Qed.

Lemma park_ready me p co l : waits_ok me -> next_detached p (detached me) = Some (co, l) ->
  exists w, make_ready co (set_detached l me) = set_coros w (set_detached l me) /\ waits_ok (set_coros w (set_detached l me))
    /\ due_of me ≡ₚ co :: due_of (set_coros w (set_detached l me)).
Proof.
  intros Hk Hn%next_detached_some. assert (due_of me ≡ₚ co :: due_of (set_detached l me)) as Hd by (unfold due_of; rewrite Hn; simpl; solve_Permutation).
  destruct (parked_wake (coros me) (pmode <$> procs me) (due_of (set_detached l me)) co) as (w & Hw & Hpk & Hkd); [by eapply parked_perm, (k_parked _ Hk)|].
  exists w. split_and!; [unfold make_ready; proj; by rewrite Hw| |done]. destruct Hk. split; try done.
  - intros q pc Hq. proj. rewrite Hkd. by eapply k_coro0.
  - intros q c Hq. apply (k_waker0 q c). rewrite Hn. set_solver.
Qed.
