(* ===== verification/MuxSteps.v ===== *)
(** * Multiplexer: the steps of the coroutines that use a session

    Every step that is not a step of the reader keeps the invariant [conn]. *)

From S2P Require Import Prelude Interleave Parking MuxFrame Mux MuxMemory MuxFlow.

Lemma write_chunk_ok w rest : 0 < w -> rest <> [] -> Z.of_nat (length rest) < 2 ^ 31 ->
  0 < Z.of_nat (write_chunk w rest) <= MUX_MAX_FRAME_PAYLOAD /\ (write_chunk w rest <= length rest)%nat /\ Z.of_nat (write_chunk w rest) <= w.
Proof.
  intros Hw Hr Hl. assert (length rest <> 0)%nat by (by destruct rest). unfold write_chunk. rewrite uwrap_small by (unfold ubound; lia).
  unfold MUX_MAX_FRAME_PAYLOAD. destruct (Z.ltb_spec 65535 w); [destruct (Z.ltb_spec (Z.of_nat (length rest)) 65535)|destruct (Z.ltb_spec (Z.of_nat (length rest)) w)]; lia.
Qed.

(** The section of [xylem_mux_read] that takes data, when it is called with data. *)
Lemma read_section_ok max len s : 0 < len -> recv_buf s <> [] -> Z.of_nat (recv_len s) < 2 ^ 31 ->
  exists n g rw, read_section max len s = Some (take n (recv_buf s), g, with_recv (drop n (recv_buf s)) (recv_cap s) rw s)
    /\ (0 < n <= recv_len s)%nat
    /\ let c := u32 (max - recv_window s - u32 (Z.of_nat (recv_len s - n))) in
       g = Some c /\ rw = u32 (recv_window s + c) /\ max / 2 <= c \/ g = None /\ rw = recv_window s /\ c < max / 2.
Proof.
  intros Hl Hne Hs. unfold read_section. rewrite i32_small by lia. assert (recv_len s <> 0)%nat by (by destruct (recv_buf s)).
  set (n := if Z.of_nat (recv_len s) <? len then Z.of_nat (recv_len s) else len).
  assert (0 < n <= Z.of_nat (recv_len s)) as Hn by (unfold n; destruct (Z.ltb_spec (Z.of_nat (recv_len s)) len); lia).
  destruct (Z.ltb_spec n 0); [lia|]. rewrite length_drop. eexists (Z.to_nat n), _, _. split; [reflexivity|]. split; [lia|].
  destruct (Z.leb_spec (max / 2) (u32 (max - recv_window s - u32 (Z.of_nat (recv_len s - Z.to_nat n))))); auto.
Qed.

Lemma u32_sub2 a b c : u32 (a - u32 b - u32 c) = u32 (a - b - c).
Proof. unfold uwrap. rewrite Zminus_mod_idemp_r, <-(Zminus_mod_idemp_l _ c), Zminus_mod_idemp_r, Zminus_mod_idemp_l. done. Qed.
Lemma u32_add1 a b : u32 (u32 a + b) = u32 (a + b).
Proof. unfold uwrap. by rewrite Zplus_mod_idemp_l. Qed.

Lemma same_put (hp : heap_t) h o o' : hp !! h = Some o -> same_flow o o' -> Forall2 same_flow hp (<[h := o']> hp).
Proof. intros. by eapply Forall2_put; [apply _|..]. Qed.
Ltac sput := cbn; eapply same_put; done.

(** Obligations that hold by computation. *)
Ltac cside :=
  lazymatch goal with
  | |- pc_quiet _ _ _ => unfold pc_quiet; split_and!; cbn; try done; try (by intros ? ?; left)
  | |- Forall2 same_flow _ _ => first [done | by apply (reflexivity (R := Forall2 same_flow))]
  | |- _ /\ _ => by split_and!
  | |- _ -> forall h, unsubtracted _ _ = _ => by intros
  | |- forall h, h ∈ owned _ \/ _ -> _ => cbn; eauto
  | |- (forall h, (_ <= _)%nat) \/ _ => left; cbn; (done || (intros; lia))
  | |- forall h, (_ <= _)%nat => cbn; (done || (intros; lia))
  | |- forall h, h ∈ streams _ -> _ => cbn; (done || auto)
  | |- _ => done
  end.
Tactic Notation "ckeep" uconstr(pc) uconstr(pc') := eapply (conn_keep _ _ _ _ _ _ pc pc'); try cside.

Lemma remove1_elem g h l : g ∈ remove1 h l -> g ∈ l.
Proof.
  induction l as [|x l IH]; [done|]. simpl. destruct (Nat.eqb_spec x h); [set_solver|]. rewrite !elem_of_cons. intros [->|Hg]; auto.
Qed.

Section correct.
Context (win : bool -> Z).
Hypotheses (Hwin : forall b, 0 < win b) (Hwins : win false + win true < 2 ^ 31).
Notation conn := (conn win).
Notation local := (local win).
Notation pair := (pair win).

Lemma frame_update_nonneg b me f k x : frame_of_cont win b me f k -> 0 <= sum_of x (update_of f).
Proof.
  destruct k; simpl; [| | |done| |].
  - intros (o & _ & _ & ->). cbn. pose proof (Hwin b). case_match; lia.
  - by intros (_ & o & _ & ->).
  - intros (_ & o & d & _ & Hd & ->). cbn. unfold ubound in Hd. case_match; lia.
  - by intros (_ & o & _ & ->).
  - by intros ->.
Qed.

Lemma frame_form_nonneg c f x : frame_form c f -> 0 <= sum_of x (update_of f).
Proof. intros ((_ & _ & _ & _ & Hl) & _). unfold update_of, ubound in *. repeat case_match; simpl; try case_match; lia. Qed.
Lemma frames_nonneg c fs x : Forall (frame_form c) fs -> 0 <= frames_update x fs.
Proof.
  induction 1 as [|f fs Hf _ IH]; [done|]. unfold frames_update in *. rewrite bind_cons, sum_of_app. pose proof (frame_form_nonneg c f x Hf). lia.
Qed.
Lemma held_nonneg c (m : side) x : local c m -> 0 <= held_update x (procs m).
Proof.
  intros Hl. assert (forall pcq, pcq ∈ procs m -> 0 <= pc_update x pcq) as Hq.
  { intros pcq [q Hq]%list_elem_of_lookup. pose proof (l_pc _ _ _ Hl _ _ Hq) as Hok. destruct pcq; simpl in *; try lia; [destruct Hok as [Hok _]|]; by eapply frame_update_nonneg. }
  clear Hl. induction (procs m) as [|y l IH]; [done|]. simpl. pose proof (Hq y ltac:(set_solver)). specialize (IH ltac:(set_solver)). lia.
Qed.

Lemma win_small c : 0 < win c < 2 ^ 31.
Proof. pose proof (Hwin c). pose proof (Hwin (negb c)). destruct c; simpl in *; lia. Qed.

(** Every frame a coroutine is about to write has the form the peer relies on. *)
Lemma hdr_ok_intro t fl x l : 0 <= t < 256 -> 0 <= fl < 2 ^ 16 -> ubound 32 x -> ubound 32 l -> hdr_ok (Hdr MUX_PROTO_VERSION t fl x l).
Proof. intros. by split_and!. Qed.
Ltac hdr_bounds := apply hdr_ok_intro; unfold ubound, MUX_TYPE_WINDOW_UPDATE, MUX_TYPE_DATA, MUX_TYPE_GO_AWAY, MUX_FLAG_SYN, MUX_FLAG_FIN in *; simpl; lia.
Lemma frame_of_cont_form c m f k : local c m -> frame_of_cont win c m f k -> frame_form c f.
Proof.
  intros Hl. pose proof (win_small c).
  assert (forall h o, heap m !! h = Some o -> 0 < id o /\ ubound 32 (id o)) as Hid
    by (intros h o Ho; destruct (l_id _ _ _ Hl _ _ Ho); unfold ubound; lia).
  destruct k; simpl.
  - intros (o & Ho & Hown & ->). destruct (Hid h o Ho). split; [hdr_bounds|]. split; [done|]. right. left.
    cbn. split_and!; auto.
  - intros ((_ & Hc & Hle & Hlen & _) & o & Ho & ->). destruct (Hid h o Ho). assert (length (take chunk rest) = chunk) as El by (rewrite length_take; lia).
    unfold MUX_MAX_FRAME_PAYLOAD in *. split; [rewrite ?El; hdr_bounds|]. split; [done|]. left.
    cbn [fst snd data_frame type flags length_ stream_id]. rewrite El. unfold MUX_MAX_FRAME_PAYLOAD. split_and!; auto; lia.
  - intros (_ & o & d & Ho & Hd & ->). destruct (Hid h o Ho). split; [hdr_bounds|]. split; [done|]. right. left.
    cbn. split_and!; auto.
  - done.
  - intros (_ & o & Ho & ->). destruct (Hid h o Ho). split; [hdr_bounds|]. split; [done|]. left.
    cbn. unfold MUX_MAX_FRAME_PAYLOAD. split_and!; auto; lia.
  - intros ->. split; [hdr_bounds|]. split; [done|]. right. right. done.
Qed.

Section steps.
Context (b : bool) (me peer : side) (p : nat) (pc : mux_pc).
Hypotheses (Hconn : conn b me peer) (Hf : freed me = false) (Hp : procs me !! p = Some pc).

Lemma user_streams h : h ∈ owned me \/ h ∈ accept_ch (mx me) -> h ∈ streams (mx me).
Proof. by apply (l_user _ _ _ (c_local _ _ _ _ Hconn)). Qed.
Lemma streams_range h : h ∈ streams (mx me) -> (h < length (heap me))%nat.
Proof. by apply (l_range _ _ _ (c_local _ _ _ _ Hconn)). Qed.
#[local] Hint Resolve user_streams streams_range : core.

Lemma conn_accept me' : step_ok p pc me -> xylem_mux_accept_stream pc p me = Some me' -> mem_ok me' -> conn b me' peer.
Proof.
  intros Hgood. destruct pc; try done; simpl.
  - simpl in Hgood. rewrite Hgood. intros [= <-] Hm. destruct (mux_closed (mx me)) eqn:E; [ckeep Accept Idle|ckeep Accept AcceptRecv].
  - destruct (accept_ch (mx me)) as [|h rest] eqn:E.
    + destruct (accept_closed (mx me)); [|done]. intros [= <-] Hm. ckeep AcceptRecv Idle.
    + intros [= <-] Hm. ckeep AcceptRecv Idle. cbn. intros g Hg. apply user_streams. rewrite E. set_solver.
Qed.

Lemma pc_here : pc_ok win b me pc.
Proof. by eapply (l_pc _ _ _ (c_local _ _ _ _ Hconn)). Qed.

Ltac mstream :=
  match goal with |- conn _ (on_stream ?h ?m ?f) _ =>
    destruct (on_stream_held me h f (c_mem _ _ _ _ Hconn)) as (o & Ho & Hr & E);
    [first [by (eapply pins_held; [done|]; cbn; rewrite one_eq; lia) | by (eapply stream_held, (m_uses _ (c_mem _ _ _ _ Hconn)); [done|cbn; set_solver])]|];
    rewrite E in *; clear E
  end.

Lemma conn_open_add me' : pc <> OTake -> xylem_mux_open_stream yes pc p me = Some me' -> mem_ok me' -> conn b me' peer.
Proof.
  pose proof pc_here as Hok. destruct pc; try done; simpl. intros _. destruct (mux_closed (mx me)) eqn:Ec; intros [= <-] Hm; [ckeep (OAdd h) (Unref 2 h)|].
  destruct (add_stream_rest h (mx me)) as (Ea & _ & Ecl & Ew & En). pose proof (add_stream_streams h (mx me)) as Es.
  ckeep (OAdd h) Idle.
  - cbn. by rewrite Ecl.
  - cbn. rewrite Es. set_solver.
  - intros g. cbn -[_mux_add_stream]. rewrite Es, occ_app. unfold occ. simpl. lia.
  - intros g. cbn -[_mux_add_stream]. rewrite Es, elem_of_app, list_elem_of_singleton. intros [Hg| ->]; [auto|].
    destruct Hok as [o Ho]. by eapply lookup_lt_Some.
  - intros g. cbn -[_mux_add_stream]. rewrite Es, Ea, elem_of_app, elem_of_cons, list_elem_of_singleton. intros [[->|Hg]|Hg]; auto.
Qed.

Lemma conn_write_check me' h rest : pc = Wr h rest -> xylem_mux_write pc p me = Some me' -> mem_ok me' -> conn b me' peer.
Proof.
  pose proof pc_here as Hok. destruct pc; try done; simpl. intros [= -> ->] Hs. destruct rest as [|x rest]; [injection Hs as <-; intros Hm; ckeep (Wr h []) (Unref 1 h)|].
  injection Hs as <-. intros Hm. mstream. destruct (write_closed o); [ckeep (Wr h (x :: rest)) (Unref 1 h)|].
  destruct (Z.eqb_spec (send_window o) 0) as [E|E]; [ckeep (Wr h (x :: rest)) (WrCommit h (x :: rest))|].
  destruct Hok as [Hin Hlen].
  destruct (l_id _ _ _ (c_local _ _ _ _ Hconn) h o Ho) as (Hid & Hsw & _).
  destruct (write_chunk_ok (send_window o) (x :: rest)) as (H1 & H2 & H3); [unfold ubound in Hsw; lia|done|done|].
  ckeep (Wr h (x :: rest)) (FLock _ (KWrite h _ _)).
  split; [|done]. split; [|by exists o]. split_and!; [done|lia..|]. by exists o.
Qed.

(** A coroutine parks on a stream, or goes on. *)
Lemma conn_write_park me' h rest : pc = WrCommit h rest \/ pc = WrParked h rest -> step_ok p pc me -> xylem_mux_write pc p me = Some me' -> mem_ok me' -> conn b me' peer.
Proof.
  intros Epc Hgood. pose proof pc_here as Hok. destruct Epc as [-> | ->]; simpl.
  - intros [= <-] Hm. mstream. destruct Hgood as [Hpk Hgood]. unfold _mux_send_wait_commit_cb in *. rewrite (Hgood o Ho) in *.
    destruct (_ || _); [destruct (Hpk false) as [w E]|destruct (Hpk true) as [w E]]; rewrite E in *; try done; ckeep (WrCommit h rest) (WrParked h rest); sput.
  - destruct (resume p (coros me)); [|done]. intros [= <-] Hm. ckeep (WrParked h rest) (Wr h rest).
Qed.
Lemma conn_read_park me' h len : pc = RdCommit h len \/ pc = RdParked h len -> step_ok p pc me -> xylem_mux_read pc p me = Some me' -> mem_ok me' -> conn b me' peer.
Proof.
  intros Epc Hgood. pose proof pc_here as Hok. destruct Epc as [-> | ->]; simpl.
  - intros [= <-] Hm. mstream. destruct Hgood as [Hpk Hgood]. unfold _mux_recv_wait_commit_cb in *. rewrite (Hgood o Ho) in *.
    destruct (_ || _); [destruct (Hpk false) as [w E]|destruct (Hpk true) as [w E]]; rewrite E in *; try done; ckeep (RdCommit h len) (RdParked h len); sput.
  - destruct (resume p (coros me)); [|done]. intros [= <-] Hm. ckeep (RdParked h len) (Rd h len).
Qed.

Lemma conn_unref me' : drop_refs pc p me = Some me' -> mem_ok me' -> conn b me' peer.
Proof.
  pose proof pc_here as Hok. destruct pc; try done; simpl. destruct n as [|n]; intros [= <-] Hm; [ckeep (Unref 0 h) Idle|].
  destruct (on_stream_held me h (fun s => put h (mux_stream_unref s) me) (c_mem _ _ _ _ Hconn)) as (o & Ho & Hr & E).
  { eapply pins_held; [done|]. cbn. rewrite one_eq. lia. }
  unfold unref_at in *. rewrite E in *. destruct (Nat.eqb_spec n 0); [ckeep (Unref (S n) h) Idle|ckeep (Unref (S n) h) (Unref n h)]; sput.
Qed.

Lemma conn_close_stream me' : xylem_mux_close_stream pc p me = Some me' -> mem_ok me' -> conn b me' peer.
Proof.
  pose proof pc_here as Hok. destruct pc; try done; simpl; intros [= <-] Hm; mstream.
  - destruct (closed o); [ckeep (Cs h) Idle|ckeep (Cs h) (CsState h)]. sput.
  - ckeep (CsState h) (FTry _ (KFin h)); [sput|]. split; [|done]. split; [exact Hok|].
    exists (fst (close_section o)). split; [|done]. cbn. by rewrite list_lookup_insert_eq by (by eapply lookup_lt_Some).
Qed.

Lemma conn_close_session me' : _mux_close_session pc p me = Some me' -> mem_ok me' -> conn b me' peer.
Proof.
  pose proof pc_here as Hok. destruct pc; try done; simpl.
  - destruct (mux_closed (mx me)) eqn:Ec; intros [= <-] Hm; [|ckeep (Cl a) (ClCount a)].
    ckeep (Cl a) (after_close a); destruct a; first [done|by left].
  - intros [= <-] Hm. ckeep (ClCount a) (ClReset 0 _ a).
  - destruct (Nat.ltb_spec i n).
    + pose proof (m_reset _ (c_mem _ _ _ _ Hconn) _ _ _ _ Hp) as Hn. destruct (streams (mx me) !! i) as [h|] eqn:Eh; [|apply lookup_ge_None in Eh; lia].
      intros [= <-] Hm. match goal with |- conn _ (on_stream ?h me ?f) _ => destruct (on_stream_held me h f (c_mem _ _ _ _ Hconn)) as (o & Ho & Hr & E) end.
      { apply stream_held. by eapply list_elem_of_lookup_2. }
      rewrite E in *. ckeep (ClReset i n a) (ClReset (S i) n a). sput.
    + intros [= <-] Hm. ckeep (ClReset i n a) (FTry go_away_frame (KGoAway a)).
  - intros [= <-] Hm. ckeep (ClTransport a) (after_close a); destruct a; first [done|by left].
Qed.

Lemma conn_read_test me' h len st : pc = RdTest h len st -> xylem_mux_read pc p me = Some me' -> mem_ok me' -> conn b me' peer.
Proof.
  pose proof pc_here as Hok. destruct pc; try done; simpl. intros [= -> -> ->] [= <-] Hm. mstream.
  destruct (read_done st o); [ckeep (RdTest h len st) (Unref 1 h)|ckeep (RdTest h len st) (RdCommit h len)].
Qed.

(** The caller of [_mux_write_frame] goes on. *)
Lemma conn_finish k rc c : (exists f, pc = FTry f k) \/ pc = FUnlock rc k -> mem_ok (finish k rc p (set_mu c me)) ->
  conn b (finish k rc p (set_mu c me)) peer.
Proof.
  intros Hpc. pose proof pc_here as Hok. destruct Hpc as [[f ->]| ->].
  - destruct Hok as [Hk Hok]. destruct k as [h|h chunk rest|h| |h|a]; try done; unfold finish; intros Hm.
    + ckeep (FTry f (KFin h)) (Unref 1 h).
    + ckeep (FTry f (KGoAway a)) (ClTransport a).
  - destruct Hok as [Hk Hcut].
    destruct k as [h|h chunk rest|h| |h|a]; unfold finish; [| | |done|by intros Hm; ckeep (FUnlock rc (KFin h)) (Unref 1 h); destruct rc|].
    + destruct (Z.eqb_spec rc 0) as [->|Hne]; intros Hm.
      * destruct (held_alive me h (c_mem _ _ _ _ Hconn)) as (o & Ho & Hr).
        { eapply pins_held; [done|]. simpl. rewrite one_eq. lia. }
        unfold on_stream in *. cbn [heap set_mu] in *. rewrite Ho, Hr in *.
        ckeep (FUnlock 0 (KOpen h)) (OAdd h); [sput|]. cbn. by rewrite list_lookup_insert_eq by (by eapply lookup_lt_Some); eexists.
      * ckeep (FUnlock rc (KOpen h)) (Unref 1 h). by destruct rc.
    + intros Hm. destruct (Z.eqb_spec rc 0) as [->|Hne]; [ckeep (FUnlock 0 (KWrite h chunk rest)) (WrSub h chunk rest)|].
      ckeep (FUnlock rc (KWrite h chunk rest)) (Unref 1 h). by destruct rc.
    + intros Hm. ckeep (FUnlock rc (KRead h)) (Unref 1 h). by destruct rc.
    + intros Hm. ckeep (FUnlock rc (KGoAway a)) (ClTransport a). by destruct rc.
Qed.

(** [_mux_write_frame] where nothing is put on the wire. *)
Lemma conn_write_frame me' : cut me = true \/ locking pc = false \/ (exists rc k, pc = FUnlock rc k) ->
  _mux_write_frame pc p me = Some me' -> mem_ok me' -> conn b me' peer.
Proof.
  intros Hcase. pose proof pc_here as Hok. pose proof conn_finish as Hfin. destruct pc; try done; simpl.
  - destruct (write_mu me); [done|]. intros [= <-] Hm. ckeep (FLock f k) (FHdr f k). exact (proj1 Hok).
  - destruct (write_mu me) eqn:E; intros [= <-] Hm.
    + rewrite <-(set_mu_id me) in *. apply Hfin; [by left; eexists|done].
    + destruct Hok as [Hk Hok].
      assert (forall x, sum_of x (update_of f) = 0) as Hz by (destruct k; try done; [by destruct Hk as (_ & o & _ & ->)|by rewrite Hk]).
      destruct k as [| | | |h|a]; try done; [ckeep (FTry f (KFin h)) (FHdr f (KFin h))|ckeep (FTry f (KGoAway a)) (FHdr f (KGoAway a))]; intros x; by rewrite Hz.
  - destruct Hcase as [Hc|[Hc|(? & ? & ?)]]; [|done..]. rewrite Hc. intros [= <-] Hm. ckeep (FHdr f k) (FUnlock (-1) k).
    + intros x. rewrite Hc. split; [by eapply frame_update_nonneg|done].
    + intros x _. by right.
    + split; [|by right]. destruct k; try done. by destruct Hok.
  - destruct Hcase as [Hc|[Hc|(? & ? & ?)]]; [|done..]. rewrite Hc. intros [= <-] Hm. destruct Hok as [Hk Hok]. ckeep (FPay f k) (FUnlock (-1) k).
    + cbn. congruence.
    + intros h. cbn. by destruct k.
    + cbn. congruence.
    + split; [|by right]. destruct k; try done. by destruct Hk.
  - intros [= <-] Hm. apply Hfin; [by right|done].
Qed.

Lemma conn_destroy me' : xylem_mux_destroy pc p me = Some me' -> mem_ok me' -> conn b me' peer.
Proof.
  destruct pc; try done; simpl. destruct (reader_done (mx me)) eqn:Ed; intros [= <-] Hm; [|done].
  pose proof Hconn as [Hm0 _ Hl _ _ _]. destruct Hl. destruct (left_behind me p Hm0 Hp Ed) as [Hd Hrest].
  unfold _mux_free in *. destruct (free_all me Hm0) as (hp & E & Hlen & Hrc). rewrite E in *. clear E.
  assert (Forall2 same_flow (heap me) hp) as Hhp.
  { apply Forall2_same_length_lookup_2; [done|]. intros g o o' Ho Ho'. destruct (Hrc g o' Ho') as (o1 & Ho1 & ->).
    rewrite Ho in Ho1. by injection Ho1 as <-. }
  assert (Forall2 same_buf (heap me) hp) as Hb by (eapply Forall2_impl; [done|]; by intros o o' (E1 & E2 & _)).
  assert (forall q pcq, <[p := Idle]> (procs me) !! q = Some pcq -> at_rest pcq = true) as Hall.
  { intros q pcq. rewrite list_lookup_insert_Some. intros [(<- & <- & _)|[Hne Hq]]; [done|]. by destruct (Hrest q pcq Hq) as [->|]. }
  assert (forall f : mux_pc -> nat, f Idle = 0%nat -> f LDone = 0%nat -> sum_list_with f (<[p := Idle]> (procs me)) = 0%nat) as Hz.
  { intros f H1 H2. apply sum_zero. intros q pcq Hq. apply Hall in Hq. by destruct pcq. }
  eapply (conn_plain win b me _ peer p DWait Idle); try cside; try done.
  split; proj; try done.
  - intros h1 h2 o1' o2' H1 H2 E. destruct (Hrc _ _ H1) as (o1 & Ho1 & ->), (Hrc _ _ H2) as (o2 & Ho2 & ->). by eapply l_ids.
  - intros h o' Ho'. destruct (Hrc _ _ Ho') as (o & Ho & ->). exact (l_id _ _ Ho).
  - intros h. rewrite Hz by done. cbn. lia.
  - by intros h ?%elem_of_nil.
  - intros h. rewrite Hz; [lia|done..].
  - intros q pcq Hq. apply Hall in Hq. by destruct pcq.
  - intros x. rewrite (same_bufs_object _ _ _ Hb). apply l_logs.
  - intros h o' Ho' Hc. destruct (Hrc _ _ Ho') as (o & Ho & ->). cbn. rewrite (l_send h o Ho Hc).
    pose proof (sum_insert (unsubtracted h) _ _ _ Idle Hp) as Hs. simpl in Hs. lia.
  - intros h o' Ho'. destruct (Hrc _ _ Ho') as (o & Ho & ->). exact (l_recv _ _ Ho).
  - intros h o' Ho'. destruct (Hrc _ _ Ho') as (o & Ho & ->). exact (l_grant _ _ Ho).
Qed.

(** Two coroutines do not write on the same stream. *)
Lemma other_writer q pcq h : writes h pc = 1%nat -> q <> p -> procs me !! q = Some pcq -> writes h pcq = 0%nat.
Proof.
  intros Hw Hne Hq. eapply (sum_other (writes h) _ p q); [apply (l_writer _ _ _ (c_local _ _ _ _ Hconn))|exact Hp|done..].
Qed.

Lemma conn_write_sub me' h chunk rest : pc = WrSub h chunk rest -> xylem_mux_write pc p me = Some me' -> mem_ok me' -> conn b me' peer.
Proof.
  pose proof pc_here as Hok. pose proof other_writer as Hother. destruct pc; try done; simpl. intros [= -> -> ->] [= <-] Hm. mstream.
  destruct Hok as (Hin & Hch & Hlen & Hrl & o' & Ho' & Hle). rewrite Ho in Ho'. injection Ho' as <-.
  pose proof (c_local _ _ _ _ Hconn) as Hl. destruct (l_id _ _ _ Hl _ _ Ho) as (Hid & Hub & _).
  eapply (conn_plain win b me _ peer p (WrSub h chunk rest) (Wr h (drop chunk rest))); try cside; try done.
  { cbn. eapply Forall2_put; [intros x; done|done|done]. }
  eapply (local_put win b me _ p (WrSub h chunk rest) (Wr h (drop chunk rest)) h o); try done; proj.
  - intros g Hg. cbn. by rewrite one_ne.
  - split; [done|]. rewrite length_drop. lia.
  - intros _. right. intros q pcq Hne Hq. eapply Hother; [|done..]. cbn. by rewrite one_eq.
  - cbn. apply uwrap_bound. lia.
  - intros Hc. cbn. rewrite uwrap_small by (unfold ubound in *; specialize (Hle Hc); lia). rewrite (l_send _ _ _ Hl _ _ Ho Hc).
    pose proof (sum_insert (unsubtracted h) _ _ _ (Wr h (drop chunk rest)) Hp) as Hs. cbn in Hs. rewrite one_eq in Hs. lia.
  - exact (l_recv _ _ _ Hl _ _ Ho).
  - exact (l_grant _ _ _ Hl _ _ Ho).
Qed.

(** The receive buffer of a stream stays within the windows. *)
Lemma buf_bound x : Z.of_nat (length (buf_of x (heap me))) <= win (negb b) + extra win b x.
Proof.
  pose proof (p_amount _ _ _ _ (c_recv _ _ _ _ Hconn) x) as HA. pose proof (p_bound _ _ _ _ (c_recv _ _ _ _ Hconn) x) as HB.
  rewrite negb_involutive in HB. lia.
Qed.
Lemma wins_small : win (negb b) + win b < 2 ^ 31.
Proof. destruct b; simpl; lia. Qed.
Lemma extra_bound x : 0 <= extra win b x <= win b.
Proof. unfold extra. pose proof (Hwin b). case_match; lia. Qed.
Lemma recv_len_bound h o : heap me !! h = Some o -> Z.of_nat (recv_len o) < 2 ^ 31.
Proof.
  intros Ho. pose proof (buf_bound (id o)) as HB. rewrite (buf_of_object (heap me) h o) in HB; [|apply (l_ids _ _ _ (c_local _ _ _ _ Hconn))|done].
  pose proof wins_small. pose proof (extra_bound (id o)). lia.
Qed.

(** Data is taken from a stream, and perhaps a window is granted. *)
Lemma conn_take me' h o n rw gl pc' :
  (exists len, pc = Rd h len) -> heap me !! h = Some o -> (n <= recv_len o)%nat -> mem_ok me' ->
  me' = at_pc p pc' (Side (mx me) (<[h := with_recv (drop n (recv_buf o)) (recv_cap o) rw o]> (heap me)) (out me) (cut me) (write_mu me) (procs me) (freed me) (destroying me)
    (owned me) (coros me) (detached me) (pend me) (cur me) (wrote me) (took me ++ [(id o, take n (recv_buf o))]) (granted me ++ gl) (credited me) (dropped me) (leaked me) (bad me)) ->
  plain pc' = true -> lack pc' = [] -> (forall g, opening g pc' = 0%nat) -> (forall g, writes g pc' = 0%nat) -> (forall g, unsubtracted g pc' = 0%nat) ->
  (forall x, pc_update x pc' = sum_of x gl) -> (forall x, x <> id o -> sum_of x gl = 0) -> pc_ok win b me' pc' ->
  rw = u32 (win b - extra win b (id o) - Z.of_nat (length (log_of (id o) (took me))) - Z.of_nat (recv_len o) + sum_of (id o) (granted me) + sum_of (id o) gl) ->
  (let u := extra win b (id o) + Z.of_nat (length (log_of (id o) (took me))) + Z.of_nat n - sum_of (id o) (granted me) - sum_of (id o) gl in 0 <= u /\ (u = 0 \/ u < win b / 2)) ->
  conn b me' peer.
Proof.
  intros Hpc Ho Hn Hm -> Hpl Hlk Hop Hwr Hus Hup Hgl Hok Hrw Hu.
  pose proof (c_local _ _ _ _ Hconn) as Hl. pose proof (l_ids _ _ _ Hl) as Hids.
  set (o' := with_recv (drop n (recv_buf o)) (recv_cap o) rw o) in *.
  assert (plain pc = true /\ lack pc = [] /\ (forall g, opening g pc = 0%nat) /\ (forall g, writes g pc = 0%nat) /\ (forall g, unsubtracted g pc = 0%nat)
    /\ (forall x, pc_update x pc = 0) /\ forall x, unsent_pc x pc = false) as (P1 & P2 & P3 & P4 & P5 & P6 & P7) by (by destruct Hpc as [len ->]).
  assert (forall x, log_of x (took me ++ [(id o, take n (recv_buf o))]) = log_of x (took me) ++ (if id o =? x then take n (recv_buf o) else [])) as Htk.
  { intros x. rewrite log_of_app. unfold log_of. by rewrite bind_singleton. }
  assert (length (take n (recv_buf o)) = n) as Hlt by (rewrite length_take; lia).
  assert (local b (at_pc p pc' (Side (mx me) (<[h := o']> (heap me)) (out me) (cut me) (write_mu me) (procs me) (freed me) (destroying me)
    (owned me) (coros me) (detached me) (pend me) (cur me) (wrote me) (took me ++ [(id o, take n (recv_buf o))]) (granted me ++ gl) (credited me) (dropped me) (leaked me) (bad me)))) as Hl'.
  { eapply (local_put win b me _ p pc pc' h o o'); try done; proj.
    - intros x Hx. rewrite Htk, sum_of_app, (Hgl x Hx), (proj2 (Z.eqb_neq _ _) (not_eq_sym Hx)), app_nil_r. split_and!; [done|done|lia|done].
    - intros g. by rewrite Hop, P3.
    - intros g. by rewrite Hwr, P4.
    - intros g _. by rewrite Hus, P5.
    - intros _. left. done.
    - apply (l_id _ _ _ Hl _ _ Ho).
    - intros Hc. unfold o'. cbn [send_window with_recv]. rewrite (l_send _ _ _ Hl _ _ Ho Hc).
      pose proof (sum_insert (unsubtracted h) _ _ _ pc' Hp) as Hs. rewrite Hus, P5 in Hs. lia.
    - unfold o'. cbn [recv_window recv_buf with_recv]. rewrite Hrw, Htk, sum_of_app, Z.eqb_refl, length_app, Hlt, length_drop. f_equal. lia.
    - rewrite Htk, sum_of_app, Z.eqb_refl, length_app, Hlt. cbv zeta in Hu. replace (Z.of_nat (length (log_of (id o) (took me)) + n)) with (Z.of_nat (length (log_of (id o) (took me))) + Z.of_nat n) by lia. 
      cbv zeta. lia. }
  assert (p <> 0%nat) as Hp0 by (intros ->; pose proof (m_reader _ (c_mem _ _ _ _ Hconn) _ _ Hp) as Hr; by destruct Hpc as [len ->]).
  match goal with |- conn b ?m peer => set (me' := m) in *; assert (procs me' = <[p := pc']> (procs me)) as Hpr by done end.
  pose proof (reader_other me me' p pc' Hpr Hp0) as Hrd.
  pose proof Hconn as [_ _ _ Hlp Hsend Hrecv].
  assert (forall x, has_object x (heap me') = has_object x (heap me)) as Hob by (intros x; by eapply has_object_insert).
  assert (forall x, log_of x (took me') ++ buf_of x (heap me') = log_of x (took me) ++ buf_of x (heap me)) as Hcat.
  { intros x. unfold me'. proj. rewrite Htk, (buf_of_insert _ _ o) by done. destruct (Z.eqb_spec (id o) x) as [<-|Hne]; [|by rewrite app_nil_r].
    rewrite (buf_of_object _ h o), <-app_assoc by done. unfold o'. cbn [recv_buf with_recv]. by rewrite take_drop. }
  assert (forall x, held_update x (procs me') = held_update x (procs me) + sum_of x gl) as Hheld.
  { intros x. rewrite (held_moved me me' p pc pc' Hp Hpr), P6, Hup. lia. }
  split; try done; [by destruct Hconn| |].
  - eapply (pair_sender_gen win b me me'); try done.
    + intros _. by apply (lacking_moved me me' p pc pc'); [..|congruence].
    + intros x E. left. apply (unsent_moved me me' p pc pc'); auto.
    + intros x. unfold update_in_hand. by rewrite Hrd.
  - eapply (pair_receiver_plain win _ me me'); try done; [by left|..].
    + intros x. split; [apply Hcat|]. unfold me'. proj. rewrite Htk, length_app. lia.
    + intros x. rewrite Hheld. change (granted me') with (granted me ++ gl). rewrite sum_of_app. change (pend me') with (pend me). split; [lia|intros _; lia].
Qed.

Lemma conn_read_data me' h len : pc = Rd h len -> xylem_mux_read pc p me = Some me' -> mem_ok me' -> conn b me' peer.
Proof.
  pose proof pc_here as Hok. pose proof conn_take as Htake. pose proof recv_len_bound as Hrl. pose proof wins_small as Hws. pose proof extra_bound as Hex.
  destruct pc; try done; simpl. intros [= -> ->] [= <-] Hm. mstream.
  destruct Hok as [Hin Hlen]. specialize (Hrl h o Ho). pose proof (c_local _ _ _ _ Hconn) as Hl.
  destruct (decide (recv_buf o = [])) as [Eb|Eb]; [rewrite Eb in *; ckeep (Rd h len) (RdTest h len (state o))|].
  destruct (read_section_ok (max_stream_window (mx me)) len o) as (n & g & rw & E & Hn & Hc); [lia|done|done|].
  rewrite E in *. replace (match recv_buf o with [] => at_pc p (RdTest h len (state o)) me | _ :: _ => _ end) with
    (match g with
     | Some consumed => at_pc p (FLock (update_frame 0 (id o) consumed) (KRead h)) (note_granted (id o) consumed (note_took (id o) (take n (recv_buf o)) (put h (with_recv (drop n (recv_buf o)) (recv_cap o) rw o) me)))
     | None => at_pc p (Unref 1 h) (note_took (id o) (take n (recv_buf o)) (put h (with_recv (drop n (recv_buf o)) (recv_cap o) rw o) me))
     end) in * by (by destruct (recv_buf o)).
  pose proof (l_grant _ _ _ Hl _ _ Ho) as [Hu1 Hu2]. pose proof (l_recv _ _ _ Hl _ _ Ho) as Hrw. pose proof (Hwin b). pose proof (Hwin (negb b)). specialize (Hex (id o)).
  rewrite (l_win _ _ _ Hl) in Hc.
  set (u := extra win b (id o) + Z.of_nat (length (log_of (id o) (took me))) - sum_of (id o) (granted me)) in *.
  assert (u <= win b) as Hub by (pose proof (Z.div_lt (win b) 2); lia).
  assert (u32 (win b - recv_window o - u32 (Z.of_nat (recv_len o - n))) = u + Z.of_nat n) as Ec.
  { rewrite Hrw, u32_sub2, uwrap_small by (unfold ubound; lia). lia. }
  rewrite Ec in Hc. cbv zeta in Hc. destruct Hc as [(-> & -> & Hc)|(-> & -> & Hc)].
  - apply (Htake _ h o n (u32 (recv_window o + (u + Z.of_nat n))) [(id o, u + Z.of_nat n)] (FLock (update_frame 0 (id o) (u + Z.of_nat n)) (KRead h))); try done; [by eexists|lia|..].
    + intros x Hx. simpl. by rewrite (proj2 (Z.eqb_neq _ _) (not_eq_sym Hx)).
    + split; [|done]. split; [done|]. exists (with_recv (drop n (recv_buf o)) (recv_cap o) (u32 (recv_window o + (u + Z.of_nat n))) o), (u + Z.of_nat n).
      split_and!; [|unfold ubound; lia|done]. cbn. by rewrite list_lookup_insert_eq by (by eapply lookup_lt_Some).
    + rewrite Hrw, u32_add1. f_equal. simpl. rewrite Z.eqb_refl. lia.
    + simpl. rewrite Z.eqb_refl. lia.
  - apply (Htake _ h o n (recv_window o) [] (Unref 1 h)); try done; [by eexists|lia|by rewrite app_nil_r|..].
    + rewrite Hrw. f_equal. simpl. lia.
    + simpl. lia.
Qed.

(** The payload of a frame is written. *)
Lemma conn_payload me' f k : pc = FPay f k -> cut me = false -> _mux_write_frame pc p me = Some me' -> mem_ok me' -> conn b me' peer.
Proof.
  pose proof pc_here as Hok. destruct pc; try done; simpl. intros [= -> ->] Hc. rewrite Hc. intros [= <-] Hm. destruct Hok as [Hk Hkk].
  match goal with |- conn b ?m peer => set (me' := m) in *; assert (procs me' = <[p := FUnlock 0 k]> (procs me)) as Hpr by done end.
  pose proof Hconn as [Hm0 Hm1 Hl Hl1 Hsend Hrecv].
  assert (forall q pcq, q <> p -> procs me !! q = Some pcq -> lack pcq = []) as Hoth.
  { intros q pcq Hne Hq. pose proof (m_lock _ Hm0) as HL. assert (locking pcq = false) as Hlk; [|by destruct pcq].
    eapply (count_other locking); [done| |exact Hp|done|exact Hq|done]. rewrite HL. destruct (write_mu me); simpl; lia. }
  assert (lacking me = snd f) as E1 by (by apply (bind_only lack _ p (FPay f k))).
  assert (lacking me' = []) as E2.
  { unfold lacking. rewrite Hpr. rewrite (bind_only lack _ p (FUnlock 0 k)); [done|by rewrite list_lookup_insert_eq by (by eapply lookup_lt_Some)|].
    intros q pcq Hne. rewrite list_lookup_insert_ne by done. by apply Hoth. }
  pose proof (reader_plain me me' p (FPay f k) (FUnlock 0 k) Hp Hpr eq_refl eq_refl) as Hrd.
  split; try done.
  - eapply (local_keep win b me me' p (FPay f k) (FUnlock 0 k)); try cside.
    + intros h. cbn. by destruct k.
    + split; [|by left]. destruct k; try done. by destruct Hk.
  - destruct Hsend. split; try done.
    + intros Hcr. destruct (p_wire Hcr) as (rest & Hw & Hr). exists []. rewrite app_nil_r. split; [|by rewrite E2].
      unfold me'. proj. rewrite <-Hw, (Hr Hc), E1. done.
    + intros x. unfold update_in_hand in *. destruct Hrd as [Hrd|[Hr1 Hr2]]; [by rewrite Hrd; apply p_credit|].
      specialize (p_credit x). by destruct (reader me), (reader me').
    + intros x H1 H2 H3 H4 H5. specialize (p_syn x H1 H2 H3 H4 H5). unfold upcoming in *. change (pend me') with (pend me).
      destruct (first_of _ _); [done|]. destruct p_syn as [Hu|Hu]; [left|by right]. apply (unsent_moved me me' p (FPay f k) (FUnlock 0 k)); auto.
  - eapply (pair_receiver_plain win _ me me'); try done. intros x. rewrite (held_moved me me' p _ _ Hp Hpr). cbn [pc_update].
    change (pend me') with (pend me). change (granted me') with (granted me). split; [lia|intros _; lia].
Qed.

(** ** Windows *)

Lemma in_hand_nonneg x : 0 <= update_in_hand x me.
Proof.
  unfold update_in_hand. destruct (update_hdr (reader me)) as [hdr|] eqn:E; [|done]. pose proof (p_upd _ _ _ _ (c_recv _ _ _ _ Hconn) hdr E).
  unfold update_of. repeat case_match; simpl; try case_match; simpl in *; lia.
Qed.
(** What has been credited, or is about to be, was granted for data that was read. *)
Lemma credit_bound x : sum_of x (credited me) + update_in_hand x me <= Z.of_nat (length (log_of x (took peer))) + extra win (negb b) x.
Proof.
  pose proof Hconn as [_ _ _ Hlp Hsend Hrecv]. destruct (p_credit _ _ _ _ Hsend x) as [Hle _].
  pose proof (frames_nonneg _ _ x (p_form _ _ _ _ Hrecv)) as H1. pose proof (held_nonneg _ peer x Hlp) as H2.
  assert (sum_of x (granted peer) <= Z.of_nat (length (log_of x (took peer))) + extra win (negb b) x); [|lia].
  destruct (has_object x (heap peer)) eqn:Eo.
  - apply has_object_spec in Eo as (h & o & Ho & <-). destruct (l_grant _ _ _ Hlp _ _ Ho). lia.
  - destruct (l_logs _ _ _ Hlp _ Eo) as (_ & -> & -> & _). unfold extra. pose proof (Hwin (negb b)). case_match; simpl; lia.
Qed.

(** The writer of a stream is the only one with bytes not yet subtracted. *)
Lemma unsubtracted_sum h : writes h pc = 1%nat -> sum_list_with (unsubtracted h) (procs me) = unsubtracted h pc.
Proof.
  intros Hw. pose proof (sum_insert (unsubtracted h) _ _ _ Idle Hp) as Hs. change (unsubtracted h Idle) with 0%nat in Hs.
  rewrite (sum_zero (unsubtracted h) (<[p := Idle]> (procs me))) in Hs; [lia|].
  intros q pcq. rewrite list_lookup_insert_Some. intros [(<- & <- & _)|[Hne Hq]]; [done|].
  pose proof (other_writer q pcq h Hw (not_eq_sym Hne) Hq) as Hz. unfold writes in Hz. destruct pcq; try done; simpl in *.
  - destruct k; try done. by rewrite Hz.
  - destruct rc; [|done..]. destruct k; try done. by rewrite Hz.
  - by rewrite Hz.
Qed.

(** The local part when a header, and the data that follows it, goes on the wire. *)
Lemma local_header me' f k pc' : pc = FHdr f k -> cut me = false ->
  me' = at_pc p pc' (note_wrote (data_of f) (set_out (out me ++ mux_frame_encode (fst f)) (pend me ++ [f]) me)) ->
  pc' = match snd f with [] => FUnlock 0 k | _ => FPay f k end -> local b me'.
Proof.
  pose proof pc_here as Hok. intros -> Hc -> Epc. simpl in Hok. pose proof Hconn as [_ _ Hl _ _ _].
  destruct k as [h|h chunk rest|h| |h|a]; simpl in Hok.
  - destruct Hok as (o & Ho & Hown & ->). simpl in Epc. subst pc'.
    eapply (local_keep win b me _ p (FHdr _ (KOpen h)) (FUnlock 0 (KOpen h))); try cside.
    + intros x. proj. cbn. by rewrite app_nil_r.
    + split; [done|by left].
  - destruct Hok as (Hw & o & Ho & ->). pose proof Hw as (Hin & Hch & Hle & Hrl & o2 & Ho2 & Hsw). rewrite Ho in Ho2. injection Ho2 as <-.
    assert (length (take chunk rest) = chunk) as El by (rewrite length_take; lia).
    assert (pc' = FPay (data_frame (id o) 0 (take chunk rest)) (KWrite h chunk rest)) as -> by (rewrite Epc; simpl; destruct (take chunk rest); simpl in *; [lia|done]).
    assert (forall x, log_of x (data_of (data_frame (id o) 0 (take chunk rest))) = if id o =? x then take chunk rest else []) as Hlog by (intros x; cbn; by rewrite app_nil_r).
    eapply (local_put win b me _ p (FHdr _ (KWrite h chunk rest)) (FPay _ (KWrite h chunk rest)) h o o); try done; proj.
    + by rewrite list_insert_id.
    + intros x Hx. rewrite log_of_app, Hlog, (proj2 (Z.eqb_neq _ _) (not_eq_sym Hx)), app_nil_r. done.
    + intros g Hg. cbn. by rewrite one_ne.
    + split; [|done]. split; [done|]. by exists o.
    + intros _. left. lia.
    + apply (l_id _ _ _ Hl _ _ Ho).
    + intros _. rewrite (l_send _ _ _ Hl _ _ Ho Hc), log_of_app, Hlog, Z.eqb_refl, length_app, El.
      pose proof (sum_insert (unsubtracted h) _ _ _ (FPay (data_frame (id o) 0 (take chunk rest)) (KWrite h chunk rest)) Hp) as Hs.
      cbn [unsubtracted] in Hs. rewrite one_eq in Hs. lia.
    + exact (l_recv _ _ _ Hl _ _ Ho).
    + exact (l_grant _ _ _ Hl _ _ Ho).
  - destruct Hok as (Hin & o & d & Ho & Hd & ->). simpl in Epc. subst pc'.
    eapply (local_keep win b me _ p (FHdr _ (KRead h)) (FUnlock 0 (KRead h))); try cside.
    + intros x. proj. cbn. by rewrite app_nil_r.
    + split; [done|by left].
  - done.
  - destruct Hok as (Hin & o & Ho & ->). simpl in Epc. subst pc'.
    eapply (local_keep win b me _ p (FHdr _ (KFin h)) (FUnlock 0 (KFin h))); try cside.
    + intros x. proj. rewrite log_of_app. cbn. case_match; by rewrite app_nil_r.
    + split; [done|by left].
  - rewrite Hok in *. simpl in Epc. subst pc'.
    eapply (local_keep win b me _ p (FHdr _ (KGoAway a)) (FUnlock 0 (KGoAway a))); try cside.
    + intros x. proj. cbn. by rewrite app_nil_r.
    + split; [done|by left].
Qed.

Lemma first_of_app x l k : first_of x (l ++ k) = match first_of x l with Some hdr => Some hdr | None => first_of x k end.
Proof. induction l as [|hdr l IH]; [done|]. simpl. by destruct (stream_id hdr =? x). Qed.

(** A stream in the array is not being opened. *)
Lemma registered_sent h o : heap me !! h = Some o -> h ∈ streams (mx me) -> existsb (unsent_pc (id o)) (procs me) = false.
Proof.
  intros Ho Hin. pose proof (c_local _ _ _ _ Hconn) as Hl. destruct (existsb _ _) eqn:E; [|done]. apply existsb_exists in E as (pcq & Hq & Hu).
  apply list_elem_of_In, list_elem_of_lookup in Hq as [q Hq]. pose proof (l_pc _ _ _ Hl _ _ Hq) as Hok.
  assert (exists g og, opening g pcq = 1%nat /\ heap me !! g = Some og /\ id og = id o) as (g & og & Hop & Hog & Hid).
  { destruct pcq; try done; simpl in *; destruct k; try done; simpl in *; [destruct Hok as [Hok _]|]; destruct Hok as (og & Hog & _ & ->); exists h0, og;
      (split; [apply one_eq|]); (split; [done|]); simpl in Hu; lia. }
  assert (g = h) as -> by (by eapply (l_ids _ _ _ Hl)).
  pose proof (l_open _ _ _ Hl h) as HL. pose proof (sum_lookup (opening h) _ _ _ Hq). apply occ_elem in Hin. lia.
Qed.

(** A header goes on the wire. *)
Lemma conn_header me' f k : pc = FHdr f k -> cut me = false -> _mux_write_frame pc p me = Some me' -> mem_ok me' -> conn b me' peer.
Proof.
  intros Epc Hc. pose proof pc_here as Hok. pose proof (local_header me' f k) as Hloc. pose proof registered_sent as Hreg. pose proof credit_bound as Hcb.
  pose proof unsubtracted_sum as Hus. pose proof in_hand_nonneg as Hnn.
  rewrite Epc in Hok, Hp. rewrite Epc. simpl. rewrite Hc. intros [= <-] Hm. simpl in Hok.
  set (pc' := match snd f with [] => FUnlock 0 k | _ => FPay f k end) in *.
  specialize (Hloc pc' Epc Hc eq_refl eq_refl).
  match goal with |- conn b ?m peer => set (me' := m) in *; assert (procs me' = <[p := pc']> (procs me)) as Hpr by done end.
  pose proof Hconn as [Hm0 Hm1 Hl Hl1 Hsend Hrecv].
  assert (plain pc' = true /\ lack pc' = snd f /\ (forall x, pc_update x pc' = 0)) as (P1 & P2 & P3) by (unfold pc'; by destruct (snd f) eqn:E; simpl; rewrite ?E).
  assert (forall q pcq, q <> p -> procs me !! q = Some pcq -> lack pcq = []) as Hoth.
  { intros q pcq Hne Hq. pose proof (m_lock _ Hm0) as HL. assert (locking pcq = false) as Hlk; [|by destruct pcq].
    eapply (count_other locking); [done| |exact Hp|done|exact Hq|done]. rewrite HL. destruct (write_mu me); simpl; lia. }
  assert (lacking me = []) as E1 by (by apply (bind_only lack _ p (FHdr f k))).
  assert (lacking me' = snd f) as E2.
  { unfold lacking. rewrite Hpr, <-P2. apply (bind_only lack _ p pc'); [by rewrite list_lookup_insert_eq by (by eapply lookup_lt_Some)|].
    intros q pcq Hne. rewrite list_lookup_insert_ne by done. by apply Hoth. }
  pose proof (reader_plain me me' p (FHdr f k) pc' Hp Hpr eq_refl P1) as Hrd.
  assert (forall x, log_of x (wrote me') = log_of x (wrote me) ++ log_of x (data_of f)) as Hwr by (intros x; apply log_of_app).
  split; try done.
  - destruct Hsend. split; try done.
    + intros Hcr. destruct (p_wire Hcr) as (rest & Hw & Hr). exists (snd f). rewrite E2. split; [|done]. unfold me'. proj.
      rewrite (Hr Hc), E1, app_nil_r in Hw. rewrite fmap_app, concat_app, app_assoc, <-Hw. simpl. rewrite app_nil_r. unfold wire_of. by rewrite <-app_assoc.
    + apply Forall_app. split; [done|]. constructor; [|done]. by eapply frame_of_cont_form.
    + intros x. rewrite Hwr. change (pend me') with (pend me ++ [f]). rewrite frames_data_app, frames_data_one, !length_app. specialize (p_amount x). lia.
    + intros x Hd. destruct (p_order x Hd) as (rest & Hr & Hrest). exists (rest ++ log_of x (data_of f)). rewrite Hwr, Hr, !app_assoc. split; [done|].
      intros Hcr. change (pend me') with (pend me ++ [f]). rewrite frames_data_app, frames_data_one, (Hrest Hcr), app_assoc. done.
    + intros x. unfold update_in_hand in *. destruct Hrd as [Hrd|[Hr1 Hr2]]; [by rewrite Hrd; apply p_credit|].
      specialize (p_credit x). by destruct (reader me), (reader me').
    + intros x. rewrite Hwr, length_app. specialize (p_bound x). destruct k as [h|h chunk rest|h| |h|a].
      * destruct Hok as (o & _ & _ & ->). simpl. lia.
      * destruct Hok as ((Hin & Hch & Hle & Hrl & o2 & Ho2 & Hsw) & o & Ho & ->). rewrite Ho in Ho2. injection Ho2 as <-.
        assert (log_of x (data_of (data_frame (id o) 0 (take chunk rest))) = if id o =? x then take chunk rest else []) as -> by (cbn; by rewrite app_nil_r).
        destruct (Z.eqb_spec (id o) x) as [<-|Hne]; [|simpl; lia]. rewrite length_take.
        pose proof (l_send _ _ _ Hl _ _ Ho Hc) as Hse. rewrite (Hus h) in Hse by (rewrite Epc; cbn; by rewrite one_eq). rewrite Epc in Hse. cbn [unsubtracted] in Hse.
        specialize (Hsw Hc). specialize (Hcb (id o)). specialize (Hnn (id o)). lia.
      * destruct Hok as (_ & o & d & _ & _ & ->). simpl. lia.
      * done.
      * destruct Hok as (_ & o & _ & ->). cbn. case_match; simpl; lia.
      * rewrite Hok. simpl. lia.
    + intros x H1 H2 H3 H4 H5. specialize (p_syn x H1 H2 H3 H4 H5). unfold upcoming in *. change (pend me') with (pend me ++ [f]).
      rewrite fmap_app, app_assoc, first_of_app. destruct (first_of x (deciding _ ++ _)); [done|].
      cbn [fmap list_fmap first_of]. destruct (Z.eqb_spec (stream_id (fst f)) x) as [Ex|Ex].
      * assert (forall h o, h ∈ streams (mx me) -> heap me !! h = Some o -> id o = x -> False) as Hno.
        { intros h o Hin Ho Hid. destruct p_syn as [Hu|[Hu|Hu]]; [|rewrite (proj2 (has_object_spec x (heap me))) in Hu by eauto; done|congruence].
          rewrite <-Hid, (Hreg h o Ho Hin) in Hu. done. }
        destruct k as [h|h chunk rest|h| |h|a]; simpl in Hok.
        -- by destruct Hok as (o & _ & _ & ->).
        -- destruct Hok as ((Hin & _) & o & Ho & ->). by destruct (Hno h o Hin Ho).
        -- destruct Hok as (Hin & o & d & Ho & _ & ->). by destruct (Hno h o Hin Ho).
        -- done.
        -- destruct Hok as (Hin & o & Ho & ->). by destruct (Hno h o Hin Ho).
        -- rewrite Hok in Ex. simpl in Ex. lia.
      * destruct p_syn as [Hu|Hu]; [left|by right]. apply (unsent_moved me me' p (FHdr f k) pc'); [done..|]. left. simpl. destruct k; try done. by apply Z.eqb_neq.
  - eapply (pair_receiver_plain win _ me me'); try done. intros x. rewrite (held_moved me me' p _ _ Hp Hpr), P3. cbn [pc_update].
    change (pend me') with (pend me ++ [f]). change (granted me') with (granted me). rewrite frames_update_app, frames_update_one. split; [lia|intros _; lia].
Qed.

(** Nobody knows the handle of the next stream yet. *)
Lemma fresh_handle (m : side) : mem_ok m ->
  sum_list_with (opening (length (heap m))) (procs m) = 0%nat /\ occ (length (heap m)) (streams (mx m)) = 0%nat.
Proof.
  intros Hm. pose proof (m_range _ Hm (length (heap m)) (le_n _)) as Hz. unfold refs, base in Hz. split; [|lia].
  assert (sum_list_with (fun pcq => pins pcq (length (heap m))) (procs m) = 0%nat) as Hs by lia. apply sum_zero.
  intros q pcq Hq. pose proof (sum_lookup (fun pcq => pins pcq (length (heap m))) _ _ _ Hq) as Hle. simpl in Hle. rewrite Hs in Hle.
  destruct pcq; try done; simpl in *; try (destruct k; try done; simpl in *); lia.
Qed.

(** A stream is created to be opened. *)
Lemma own_next i : own b i = true -> own b (i + 2) = true.
Proof. unfold own. rewrite Z.even_add. by destruct (Z.even i). Qed.

(** There is no memory for the stream: only its number is used up. *)
Lemma conn_open_refused : pc = OTake -> next_stream_id (mx me) + 2 < 2 ^ 32 ->
  let me' := at_pc p Idle (set_mx (with_next (u32 (next_stream_id (mx me) + 2)) (mx me)) me) in mem_ok me' -> conn b me' peer.
Proof.
  intros Epc Hnx me' Hm. pose proof own_next as Hon. rewrite Epc in Hp. pose proof (c_local _ _ _ _ Hconn) as Hl. destruct (l_next _ _ _ Hl) as [Hown Hi].
  assert (u32 (next_stream_id (mx me) + 2) = next_stream_id (mx me) + 2) as E by (apply uwrap_small; unfold ubound; lia).
  eapply (conn_plain win b me me' peer p OTake Idle); try cside; [by apply Forall_Forall2_diag, Forall_true|].
  assert (local b (at_pc p Idle me)) as [] by (eapply (local_keep win b me _ p OTake Idle); try cside; done).
  split; unfold me'; proj; rewrite ?E; try done; [split; [by apply Hon|lia]|].
  intros h o Ho. destruct (l_id h o Ho) as (H1 & H2 & H3). split; [done|]. split; [done|]. intros Ho'. specialize (H3 Ho'). simpl in H3. lia.
Qed.

Lemma conn_open_take a me' : pc = OTake -> next_stream_id (mx me) + 2 < 2 ^ 32 -> xylem_mux_open_stream a pc p me = Some me' -> mem_ok me' -> conn b me' peer.
Proof.
  intros Epc Hnx. pose proof own_next as Hon. pose proof (conn_open_refused Epc Hnx) as Href. pose proof win_small as Hws. rewrite Epc in Hp. rewrite Epc. simpl.
  pose proof Hconn as [Hm0 Hm1 Hl Hl1 Hsend Hrecv]. destruct (mux_closed (mx me)); [intros [= <-] Hm; ckeep OTake Idle|].
  unfold new_stream, mux_stream_create. destruct (_ && _); intros [= <-] Hm; [|by apply Href].
  set (i := next_stream_id (mx me)) in *. destruct (l_next _ _ _ Hl) as [Hown Hi]. fold i in Hown, Hi.
  rewrite (l_win _ _ _ Hl) in *. rewrite (uwrap_small 32 (i + 2)) in * by (unfold ubound; lia).
  set (s := with_state MUX_STREAM_ESTABLISHED (Stream i MUX_STREAM_INIT [] (Z.to_nat (win b)) (win b) None (win b) None 0 0 false 1)) in *.
  match goal with |- conn b (at_pc p ?q ?m) peer => set (pc' := q) in *; set (me' := at_pc p pc' m) in *; assert (procs me' = <[p := pc']> (procs me)) as Hpr by done end.
  assert (has_object i (heap me) = false) as Hno.
  { destruct (has_object i (heap me)) eqn:E; [|done]. apply has_object_spec in E as (h & o & Ho & E). destruct (l_id _ _ _ Hl _ _ Ho) as (_ & _ & H3).
    rewrite E in H3. specialize (H3 Hown). fold i in H3. lia. }
  assert (forall x, sum_of x (granted me') = sum_of x (granted me) + (if i =? x then extra win b x else 0)) as Hg.
  { intros x. unfold me'. proj. rewrite sum_of_app. simpl. destruct (Z.eqb_spec i x) as [<-|]; [|lia]. unfold extra. rewrite Hown. lia. }
  assert (local b me') as Hl'.
  { eapply (local_new win Hwin Hwins b me me' p OTake pc' s); try done; unfold me'; proj.
    - by rewrite (l_win _ _ _ Hl).
    - split; [by apply Hon|lia].
    - lia.
    - unfold s. simpl. lia.
    - unfold s. simpl. congruence.
    - intros h. pose proof (sum_insert (opening h) _ _ _ pc' Hp) as Hs. change (opening h pc') with (one (length (heap me)) h) in Hs. simpl in Hs.
      pose proof (l_open _ _ _ Hl h). destruct (decide (length (heap me) = h)) as [<-|Hne]; [|rewrite one_ne in Hs by done; lia].
      rewrite one_eq in Hs. destruct (fresh_handle me Hm0) as [H1 H2]. lia.
    - intros h Hh. pose proof (l_range _ _ _ Hl h Hh). lia.
    - eauto.
    - split; [|done]. exists s. proj. split_and!; [|done|done]. by rewrite lookup_app_r, Nat.sub_diag by lia. }
  pose proof (reader_plain me me' p OTake pc' Hp Hpr eq_refl eq_refl) as Hrd.
  assert (forall x, has_object x (heap me') = has_object x (heap me) || (i =? x)) as Hob by (intros x; apply has_object_app).
  split; try done.
  - destruct Hsend. split; try done.
    + intros Hc. destruct (p_wire Hc) as (rest & Hw & Hr). exists rest. split; [done|]. intros E. rewrite (lacking_moved me me' p OTake pc') by done. auto.
    + intros x. specialize (p_credit x). change (credited me') with (credited me). change (dropped me') with (dropped me).
      replace (update_in_hand x me') with (update_in_hand x me); [done|]. unfold update_in_hand. destruct Hrd as [->|[Hr1 Hr2]]; [done|by destruct (reader me), (reader me')].
    + intros x H1 H2 H3 H4 H5. specialize (p_syn x H1 H2 H3 H4 H5). change (upcoming me' peer) with (upcoming me peer). destruct (first_of _ _); [done|].
      destruct (Z.eqb_spec i x) as [<-|Hne].
      * left. apply existsb_exists. exists pc'. split; [|apply Z.eqb_refl]. apply list_elem_of_In, list_elem_of_lookup. exists p. rewrite Hpr. by rewrite list_lookup_insert_eq by (by eapply lookup_lt_Some).
      * rewrite Hob, (proj2 (Z.eqb_neq _ _) Hne), orb_false_r. destruct p_syn as [Hu|Hu]; [left|by right]. apply (unsent_moved me me' p OTake pc'); auto.
  - eapply (pair_receiver_plain win _ me me'); try done.
    + intros x Hx. rewrite Hob. destruct (Z.eqb_spec i x) as [<-|]; [|by rewrite orb_false_r]. unfold own in *. by destruct (Z.even i), b.
    + intros x. split; [|done]. unfold me'. proj. rewrite buf_of_app. unfold s. simpl. case_match; by rewrite app_nil_r.
    + intros x. rewrite Hg, (held_moved me me' p _ _ Hp Hpr). change (pend me') with (pend me). cbn [pc_update pc'].
      assert (sum_of x (update_of (update_frame MUX_FLAG_SYN i (win b))) = if i =? x then extra win b x else 0) as Hu.
      { simpl. destruct (Z.eqb_spec i x) as [<-|]; [|done]. unfold extra. rewrite Hown. lia. }
      unfold pc'. cbn [pc_update]. rewrite Hu. split; [lia|intros _; lia].
Qed.
(** The reader between frames, and when it leaves. *)
Lemma conn_loop me' peer' : plain pc = true -> pc <> LHdr \/ cut me = true -> _mux_reader_loop pc p me peer = Some (me', peer') -> mem_ok me' -> conn b me' peer'.
Proof.
  intros Hpl Hor. destruct pc; try done; simpl.
  - intros [= <- <-] Hm. destruct (mux_closed (mx me)); [ckeep LTop (Cl ToTeardown)|ckeep LTop LHdr].
  - destruct Hor as [|Hc]; [done|]. rewrite Hc. intros [= <- <-] Hm. ckeep LHdr (Cl ToTeardown).
  - intros [= <- <-] Hm. ckeep TdChan TdDone.
  - intros [= <- <-] Hm. ckeep TdDone LDone.
Qed.

(** A call begins. *)
Lemma no_writer h : negb (existsb (fun pc => bool_decide (writing pc = Some h)) (procs me)) = true -> sum_list_with (writes h) (procs me) = 0%nat.
Proof.
  intros Hn%negb_true_iff. apply sum_zero. intros q pcq Hq. unfold writes. destruct (writing pcq) as [g|] eqn:E; [|done].
  destruct (decide (g = h)) as [->|Hne]; [|by apply one_ne]. rewrite (proj2 (existsb_exists _ _)) in Hn; [done|].
  exists pcq. split; [apply list_elem_of_In; by eapply list_elem_of_lookup_2|]. by apply bool_decide_eq_true.
Qed.

Lemma conn_begin c : pc = Idle -> allowed c me = true -> mem_ok (begin c p me) -> conn b (begin c p me) peer.
Proof.
  intros Epc Hal Hm. pose proof no_writer as Hnw. rewrite Epc in Hp. apply andb_true_iff in Hal as [_ Hal].
  destruct c as [| |h len|h data|h|h d|h d| |]; simpl in *.
  - ckeep Idle OTake.
  - ckeep Idle Accept.
  - repeat (apply andb_true_iff in Hal as [Hal ?]). apply bool_decide_eq_true in Hal.
    destruct (Z.leb_spec len 0); [done|]. destruct (on_stream_held me h (fun s => at_pc p (Rd h len) (put h (mux_stream_ref s) me)) (c_mem _ _ _ _ Hconn)) as (o & Ho & Hr & E); [by apply owned_held|].
    rewrite E in *. ckeep Idle (Rd h len); [sput|]. split; [cbn; auto|lia].
  - repeat (apply andb_true_iff in Hal as [Hal ?]). apply bool_decide_eq_true in Hal.
    destruct data as [|x data]; [done|]. set (d := x :: data) in *. destruct (on_stream_held me h (fun s => at_pc p (Wr h d) (put h (mux_stream_ref s) me)) (c_mem _ _ _ _ Hconn)) as (o & Ho & Hr & E); [by apply owned_held|].
    rewrite E in *. ckeep Idle (Wr h d); [sput| |split; [cbn; auto|lia]]. right. intros g. change (writes g (Wr h d)) with (one h g).
    destruct (decide (h = g)) as [<-|Hne]; [rewrite Hnw, one_eq by done; lia|]. rewrite one_ne by done. pose proof (l_writer _ _ _ (c_local _ _ _ _ Hconn) g). lia.
  - apply bool_decide_eq_true in Hal. ckeep Idle (Cs h); [|cbn; auto]. cbn. intros g [Hg%remove1_elem|Hg]; auto.
  - apply bool_decide_eq_true in Hal.
    destruct (on_stream_held me h (fun s => at_pc p Idle (put h (xylem_mux_set_read_deadline d s) me)) (c_mem _ _ _ _ Hconn)) as (o & Ho & Hr & E); [by apply owned_held|].
    rewrite E in *. ckeep Idle Idle. sput.
  - apply bool_decide_eq_true in Hal.
    destruct (on_stream_held me h (fun s => at_pc p Idle (put h (xylem_mux_set_write_deadline d s) me)) (c_mem _ _ _ _ Hconn)) as (o & Ho & Hr & E); [by apply owned_held|].
    rewrite E in *. ckeep Idle Idle. sput.
  - ckeep Idle (Cl ToIdle).
  - ckeep Idle (Cl ToDestroy).
Qed.
End steps.

(** The transport of an end is cut. *)
Lemma conn_cut b me peer : conn b me peer -> conn b (set_cut me) peer.
Proof.
  intros [Hm Hm1 Hl Hl1 Hsend Hrecv]. split; try done; [by apply mem_set_cut|..].
  - destruct Hl. split; try done. intros q pcq Hq. apply (pc_ok_mono win b me); [|done|done|by eapply l_pc]. intros h o Ho. by exists o.
  - eapply (pair_sender_gen win b me); try done. by left.
  - eapply (pair_receiver_plain win _ me); try done; [by left|]. intros x. proj. split; [lia|intros _; lia].
Qed.

(** Both ends are treated alike. *)
Lemma conn_sym b me peer : conn b me peer <-> conn (negb b) peer me.
Proof. split; intros []; split; rewrite ?negb_involutive in *; done. Qed.
End correct.
