(* ===== verification/MuxReader.v ===== *)
(** * Multiplexer: the steps of the reader

    Every step of the reader coroutine keeps the invariant [conn]. *)

From S2P Require Import Prelude Interleave Parking MuxFrame Mux MuxMemory MuxFlow MuxSteps.

Section correct.
Context (win : bool -> Z).
Hypotheses (Hwin : forall b, 0 < win b) (Hwins : win false + win true < 2 ^ 31).
Notation conn := (conn win).
Notation local := (local win).
Notation pair := (pair win).

Section reader.
Context (b : bool) (me peer : side) (pc : mux_pc).
Hypotheses (Hconn : conn b me peer) (Hf : freed me = false) (Hp : procs me !! 0%nat = Some pc).

Lemma reader_here : reader me = pc.
Proof. unfold reader. by rewrite Hp. Qed.
Lemma reader_ok : pc_ok win b me pc.
Proof. by eapply (l_pc _ _ _ (c_local _ _ _ _ Hconn)). Qed.
Lemma reader_form hdr : before_body pc = Some hdr -> frame_form (negb b) (hdr, cur me).
Proof. rewrite <-reader_here. apply (p_cur _ _ _ _ (c_recv _ _ _ _ Hconn)). Qed.
Lemma accept_streams h : h ∈ accept_ch (mx me) -> h ∈ streams (mx me).
Proof. intros Hh. apply (l_user _ _ _ (c_local _ _ _ _ Hconn)); auto. Qed.

(** A frame of a stream the peer has opened finds the stream, unless the session is
    closed: the frame that opens the stream came first. *)
Lemma stream_known hdr : deciding pc = [hdr] -> flag hdr MUX_FLAG_SYN = false -> own (negb b) (stream_id hdr) = true -> 0 < stream_id hdr ->
  has_object (stream_id hdr) (heap me) = true \/ mux_closed (mx me) = true.
Proof.
  intros Hd Hfl Hown Hpos. destruct (has_object _ _) eqn:Eo; [by left|]. destruct (mux_closed (mx me)) eqn:Ec; [by right|].
  pose proof (c_recv _ _ _ _ Hconn) as Hr.
  assert (stream_id hdr ∉ dropped me) as Hnd by (intros Hin; destruct (p_drop _ _ _ _ Hr _ Hin Hown Hpos); congruence).
  pose proof (p_syn _ _ _ _ Hr _ Hpos Hown Eo Ec Hnd) as Hs. unfold upcoming in Hs. rewrite reader_here, Hd in Hs. simpl in Hs. rewrite Z.eqb_refl in Hs. congruence.
Qed.
(** The next frames are the same for streams that are not known. *)
Lemma decided hdr x : deciding pc = [hdr] -> flag hdr MUX_FLAG_SYN = false \/ stream_id hdr = 0 -> 0 < x -> own (negb b) x = true ->
  has_object x (heap me) = false -> mux_closed (mx me) = false -> first_of x (fst <$> pend peer) = first_of x (deciding pc ++ (fst <$> pend peer)).
Proof.
  intros Hd Hfl Hpos Hown Ho Hc. rewrite Hd. simpl. destruct (Z.eqb_spec (stream_id hdr) x) as [<-|]; [|done].
  destruct Hfl as [Hfl|]; [|lia]. destruct (stream_known hdr Hd Hfl Hown Hpos); congruence.
Qed.

Ltac rside :=
  lazymatch goal with
  | |- _ /\ _ => by split_and!
  | |- Forall2 same_flow _ _ => first [done | by apply (reflexivity (R := Forall2 same_flow))]
  | |- forall h, h ∈ accept_ch _ -> _ => exact accept_streams
  | |- _ => done
  end.
Tactic Notation "cread" uconstr(pc) uconstr(pc') := eapply (conn_reader win _ _ _ _ pc pc'); try rside.

Lemma conn_dispatch me' hdr peer' : pc = LDisp hdr -> _mux_reader_loop pc 0 me peer = Some (me', peer') -> mem_ok me' -> conn b me' peer'.
Proof.
  intros Epc. pose proof (reader_form hdr) as Hfm. pose proof decided as Hdec. pose proof stream_known as Hkn. rewrite Epc in *. simpl. intros [= <- <-] Hm.
  specialize (Hfm eq_refl). pose proof Hfm as (Hok & Hv & Hcase). simpl in Hcase.
  assert (0 <= length_ hdr) as Hlen by (by destruct Hok as (_ & _ & _ & _ & [? _])).
  destruct Hcase as [(Ht & Hfl & Hl & Hmax & Hpos)|[(Ht & Hcur & Hfl & Hpos)|(Ht & Hcur & Hz)]].
  - assert (_mux_dispatch hdr = LFind hdr) as E by (unfold _mux_dispatch; by rewrite Ht). rewrite E in *. cread (LDisp hdr) (LFind hdr).
    + by intros hdr' [= <-].
    + by intros hdr' [= <-].
    + by intros hdr' [|[? ?]].
  - assert (forall c, log_of c (data_of (hdr, cur me)) = []) as Hnd by (intros c; unfold data_of; simpl; by rewrite Ht).
    destruct Hfl as [Hfl|[Hfl Hown]].
    + assert (flag hdr MUX_FLAG_SYN = false) as Hsyn by (unfold flag; by rewrite Hfl).
      assert (_mux_dispatch hdr = LWuFind hdr) as E by (unfold _mux_dispatch; by rewrite Ht, Hsyn). rewrite E in *. cread (LDisp hdr) (LWuFind hdr).
      * intros x. unfold hdr_data. simpl. by rewrite Hnd.
      * by intros hdr' [= <-].
      * by intros hdr' [[= <-]|[? ?]].
      * intros x H1 H2 H3 H4 _. apply (Hdec hdr); auto.
      * intros hdr' H1 H2. split; [|done]. intros [= <-]. by apply Hkn.
    + assert (flag hdr MUX_FLAG_SYN = true) as Hsyn by (unfold flag; by rewrite Hfl).
      assert (_mux_dispatch hdr = LSyn hdr) as E by (unfold _mux_dispatch; by rewrite Ht, Hsyn). rewrite E in *. cread (LDisp hdr) (LSyn hdr).
      * by intros hdr' [= <-].
      * by intros hdr' [= <-].
      * by intros hdr' [|[? ?]].
  - assert (_mux_dispatch hdr = Cl ToTeardown) as E by (unfold _mux_dispatch; by rewrite Ht). rewrite E in *. cread (LDisp hdr) (Cl ToTeardown).
    + intros x. unfold hdr_update, update_of. simpl. by rewrite Ht.
    + intros x. unfold hdr_data, data_of. simpl. by rewrite Ht.
    + by intros hdr' [|[? ?]].
    + intros x H1 H2 H3 H4 _. apply (Hdec hdr); auto.
Qed.

(** The array holds every stream the peer has opened. *)
Lemma find_none x : _mux_find_stream (mx me) (heap me) x = None -> own (negb b) x = true -> has_object x (heap me) = false.
Proof.
  intros Hn Hown. destruct (has_object x (heap me)) eqn:E; [|done]. apply has_object_spec in E as (h & o & Ho & <-).
  pose proof (l_peer _ _ _ (c_local _ _ _ _ Hconn) h o Hf Ho) as Hin.
  assert (own b (id o) = false) as Hno by (unfold own in *; by destruct (Z.even (id o)), b).
  pose proof (List.find_none _ _ Hn h (proj1 (list_elem_of_In _ _) (Hin Hno))) as Hx. unfold has_id in Hx. rewrite Ho, Z.eqb_refl in Hx. done.
Qed.
Lemma find_some x h : _mux_find_stream (mx me) (heap me) x = Some h -> h ∈ streams (mx me) /\ exists o, heap me !! h = Some o /\ id o = x.
Proof.
  intros [Hin Hid]%find_stream_in. split; [done|]. unfold has_id in Hid. destruct (heap me !! h) as [o|]; [|done]. exists o. split; [done|lia].
Qed.

Lemma conn_find me' hdr peer' : pc = LFind hdr -> _mux_handle_data yes pc 0 me peer = Some (me', peer') -> mem_ok me' -> conn b me' peer'.
Proof.
  intros Epc. pose proof (reader_form hdr) as Hfm. pose proof decided as Hdec. pose proof stream_known as Hkn. pose proof reader_ok as Hok.
  rewrite Epc in *. simpl. intros [= <- <-] Hm.
  specialize (Hfm eq_refl). pose proof Hfm as (Hhdr & Hv & Hcase). simpl in Hcase, Hok.
  destruct Hcase as [(Ht & Hfl & Hl & Hmax & Hpos)|[(Ht & _)|(Ht & _)]]; [|by rewrite Hok in Ht..].
  assert (flag hdr MUX_FLAG_SYN = false) as Hsyn by (unfold flag; by destruct Hfl as [-> | ->]). rewrite Hsyn in *.
  cread (LFind hdr) (LBody hdr _).
  - split; [done|]. destruct (_mux_find_stream _ _ _) as [h|] eqn:E; [|done]. apply find_some in E as (_ & o & Ho & Hid). by exists o.
  - by intros hdr' [= <-].
  - intros hdr' [= <-]. by destruct Hhdr as (_ & _ & _ & _ & [? _]).
  - by intros hdr' [|[? ?]].
  - intros x H1 H2 H3 H4 _. apply (Hdec hdr); auto.
  - intros hdr' H1 H2. split; [done|]. intros [= <- Hn]. pose proof (find_none _ Hn H1) as Ho. split; [done|]. destruct (Hkn hdr eq_refl Hsyn H1 H2); congruence.
Qed.

Lemma conn_send me' hdr h : pc = LSend hdr h -> accept_syn yes pc 0 me = Some me' -> mem_ok me' -> conn b me' peer.
Proof.
  intros Epc. pose proof (reader_form hdr) as Hfm. pose proof reader_ok as Hok. rewrite Epc in *. simpl. intros [= <-] Hm.
  specialize (Hfm eq_refl). pose proof Hfm as (Hhdr & Hv & Hcase). simpl in Hcase, Hok. destruct Hok as [(o & Ho & Hid) Ht]. rewrite Ht in *.
  destruct Hcase as [(Ht' & _)|[(_ & Hcur & _)|(Ht' & _)]]; [done| |done].
  change (MUX_TYPE_WINDOW_UPDATE =? MUX_TYPE_DATA) with false in *. cbn iota in *.
  cread (LSend hdr h) (LWuFind hdr).
  - cbn. intros g. rewrite elem_of_app, list_elem_of_singleton. intros [Hg| ->]; [by apply accept_streams|].
    eapply (m_uses _ (c_mem _ _ _ _ Hconn)); [done|]. cbn. set_solver.
  - intros x. unfold hdr_data, data_of. simpl. by rewrite Ht.
  - intros hdr' [= <-]. by destruct Hhdr as (_ & _ & _ & _ & [? _]).
  - by intros hdr' [[= <-]|[? ?]].
  - intros hdr' H1 H2. split; [|done]. intros [= <-]. left. apply has_object_spec. eauto.
Qed.

Lemma conn_syn me' hdr : pc = LSyn hdr -> mux_closed (mx me) = true \/ (exists h, _mux_find_stream (mx me) (heap me) (stream_id hdr) = Some h) ->
  accept_syn yes pc 0 me = Some me' -> mem_ok me' -> conn b me' peer.
Proof.
  intros Epc Hcl. pose proof (reader_form hdr) as Hfm. pose proof reader_ok as Hok. rewrite Epc in *. simpl in *.
  specialize (Hfm eq_refl). pose proof Hfm as (Hhdr & Hv & Hcase). simpl in Hcase. destruct Hok as [Hok _]. rewrite Hok in *.
  destruct Hcase as [(Ht' & _)|[(_ & Hcur & _)|(Ht' & _)]]; [done| |done].
  change (MUX_TYPE_WINDOW_UPDATE =? MUX_TYPE_DATA) with false. cbn iota.
  assert (forall me', me' = at_pc 0 (LWuFind hdr) (set_mx (mx me) (set_heap (heap me) me)) -> mem_ok me' -> conn b me' peer) as Hgo.
  { intros me1 -> Hm. cread (LSyn hdr) (LWuFind hdr).
    - intros x. unfold hdr_data, data_of. simpl. by rewrite Hok.
    - intros hdr' [= <-]. by destruct Hhdr as (_ & _ & _ & _ & [? _]).
    - by intros hdr' [[= <-]|[? ?]].
    - intros x H1 H2 H3 H4 _. simpl. destruct (Z.eqb_spec (stream_id hdr) x) as [<-|]; [|done].
      destruct Hcl as [|[h Hh]]; [congruence|]. apply find_some in Hh as (_ & o & Ho & Hid). rewrite (proj2 (has_object_spec _ _)) in H3 by eauto. done.
    - intros hdr' H1 H2. split; [|done]. intros [= <-]. destruct Hcl as [|[h Hh]]; [by right|left]. apply find_some in Hh as (_ & o & Ho & Hid). apply has_object_spec. eauto. }
  unfold _mux_accept_syn. destruct Hcl as [->|[h Hh]]; [|destruct (mux_closed (mx me)); [|rewrite Hh]]; intros [= <-] Hm; by apply Hgo.
Qed.

(** A frame without payload, or a transport that has been cut. *)
Lemma conn_no_body me' hdr oh peer' : pc = LBody hdr oh -> length_ hdr = 0 \/ cut me = true ->
  _mux_handle_data yes pc 0 me peer = Some (me', peer') -> mem_ok me' -> conn b me' peer'.
Proof.
  intros Epc Hor. pose proof (reader_form hdr) as Hfm. pose proof reader_ok as Hok. rewrite Epc in *. simpl in *. destruct Hok as [Ht Hok].
  specialize (Hfm eq_refl). destruct Hfm as (Hhdr & Hv & Hcase). simpl in Hcase.
  destruct Hcase as [(_ & Hfl & Hl & Hmax & Hpos)|[(Ht' & _)|(Ht' & _)]]; [|by rewrite Ht in Ht'..].
  assert (0 <= i32 (length_ hdr)) as Hi by (unfold MUX_MAX_FRAME_PAYLOAD in *; rewrite i32_small; lia).
  assert (forall me' pc', pc' = after_body hdr oh \/ pc' = Cl ToTeardown -> me' = at_pc 0 pc' me -> mem_ok me' -> conn b me' peer) as Hgo.
  { intros me1 pc' Hpc' -> Hm.
    assert (calm pc' = true /\ before_body pc' = None /\ update_hdr pc' = None /\ deciding pc' = [] /\ (forall x, hdr_hand x pc' = []) /\ pc_ok win b (at_pc 0 pc' me) pc'
      /\ (forall hdr' oh, pc' <> LBody hdr' oh) /\ (forall hdr', pc' <> LWuFind hdr') /\ forall hdr' h, pc' <> LWu hdr' h) as (P1 & P2 & P3 & P4 & P5 & P6 & P7 & P8 & P9)
      by (destruct Hpc' as [-> | ->]; [by destruct oh|done]).
    cread (LBody hdr oh) pc'.
    - intros x. unfold hdr_update, update_of. rewrite P3. simpl. by rewrite Ht.
    - intros Hc. unfold hdr_bytes. rewrite P2. simpl. destruct Hor as [Hz|]; [|congruence]. rewrite Hl in Hz. by destruct (cur me).
    - intros x. unfold hdr_data. rewrite P2. split; [simpl; lia|]. intros Hc. destruct Hor as [Hz|]; [|congruence]. rewrite Hl in Hz.
      destruct (cur me); [|simpl in Hz; lia]. unfold data_of. simpl. rewrite Ht. simpl. by destruct (_ =? x).
    - intros hdr' E. by rewrite P2 in E.
    - intros hdr' E. by rewrite P3 in E.
    - intros hdr' [E|[h E]]; [by destruct (P8 hdr')|by destruct (P9 hdr' h)].
    - intros x _ _ _ _ _. by rewrite P4.
    - intros hdr' _ _. split; intros E; [by destruct (P8 hdr')|by destruct (P7 hdr' None)]. }
  destruct (Z.eqb_spec (length_ hdr) 0) as [Hz|Hz]; [intros [= <- <-] Hm; eapply Hgo; [by left|done|done]|].
  rewrite andb_false_r. destruct (Z.ltb_spec (i32 (length_ hdr)) 0); [lia|]. destruct Hor as [|Hc]; [done|]. rewrite Hc. intros [= <- <-] Hm.
  destruct oh as [h|]; (eapply Hgo; [|done|done]); auto.
Qed.

Lemma conn_flags me' peer' hdr h : pc = LFin hdr h \/ pc = LRst hdr h -> _mux_handle_data yes pc 0 me peer = Some (me', peer') -> mem_ok me' -> conn b me' peer'.
Proof.
  intros Epc.
  assert (forall pc' me', pc = LFin hdr h /\ pc' = LRst hdr h \/ pc = LRst hdr h /\ pc' = LTop -> Forall2 same_flow (heap me) (heap me') -> me' = at_pc 0 pc' (set_detached (detached me') (set_heap (heap me') me)) ->
    mem_ok me' -> conn b me' peer) as Hgo.
  { intros pc' me1 Hpc' Hs E Hm. assert (calm pc = true /\ calm pc' = true) as [P1 P2] by (destruct Hpc' as [[-> ->]|[-> ->]]; done).
    rewrite E. eapply (conn_reader win b me _ peer pc pc'); try rside; try (by rewrite <-E); try (by destruct Hpc' as [[-> ->]|[-> ->]]);
      destruct Hpc' as [[-> ->]|[-> ->]]; try done; by intros hdr' [|[? ?]]. }
  destruct (held_alive me h (c_mem _ _ _ _ Hconn)) as (o & Ho & Hr).
  { apply stream_held. eapply (m_uses _ (c_mem _ _ _ _ Hconn)); [done|]. destruct Epc as [-> | ->]; cbn; set_solver. }
  destruct Epc as [Epc|Epc]; rewrite Epc at 1; simpl; intros [= <- <-] Hm.
  - destruct (flag _ _).
    + unfold on_stream in *. rewrite Ho, Hr in *. apply (Hgo (LRst hdr h)); [by left| |done|done]. cbn. eapply same_put; [done|].
      unfold mux_stream_notify_remote_fin. by destruct (state o).
    + apply (Hgo (LRst hdr h)); [by left| |by destruct me|done]. apply (reflexivity (R := Forall2 same_flow)).
  - destruct (flag _ _).
    + unfold on_stream in *. rewrite Ho, Hr in *. apply (Hgo LTop); [by right| |done|done]. cbn. by eapply same_put.
    + apply (Hgo LTop); [by right| |by destruct me|done]. apply (reflexivity (R := Forall2 same_flow)).
Qed.

Lemma conn_update_found me' hdr h : pc = LWuFind hdr -> _mux_find_stream (mx me) (heap me) (stream_id hdr) = Some h ->
  _mux_handle_window_update pc 0 me = Some me' -> mem_ok me' -> conn b me' peer.
Proof.
  intros Epc Hh. pose proof reader_here as Hrd. pose proof (c_recv _ _ _ _ Hconn) as Hr. rewrite Epc in *. simpl. rewrite Hh. intros [= <-] Hm.
  cread (LWuFind hdr) (LWu hdr h).
  - by apply find_some in Hh as (_ & o & Ho & Hid); exists o.
  - intros hdr' [= <-]. apply (p_upd _ _ _ _ Hr). by rewrite Hrd.
  - intros hdr' [|[? [= <- _]]]; [done|]. apply (p_wu _ _ _ _ Hr). left. done.
Qed.

Lemma local_set_out c (m : side) o fs : local c m -> local c (set_out o fs m).
Proof. by intros []. Qed.

(** A header has been read. *)
Lemma conn_read_header me' peer' : pc = LHdr -> cut me = false -> _mux_reader_loop pc 0 me peer = Some (me', peer') -> mem_ok me' -> conn b me' peer'.
Proof.
  intros Epc Hc. pose proof reader_here as Hrd. rewrite Epc in *. simpl. rewrite Hc. unfold read_full.
  destruct (Nat.leb_spec MUX_FRAME_HDR_SIZE (length (out peer))) as [Hlen|]; [|done]. cbn [mbind option_bind].
  pose proof Hconn as [Hm0 Hm1 Hl Hl1 Hsend Hrecv].
  destruct (p_wire _ _ _ _ Hrecv Hc) as (rest & Hw & Hr). unfold coming_bytes in Hw. rewrite Hrd in Hw. simpl in Hw.
  pose proof (p_form _ _ _ _ Hrecv) as Hform. destruct (pend peer) as [|f fs] eqn:Ep.
  { simpl in Hw. apply app_eq_nil in Hw as [Hw _]. rewrite Hw in Hlen. unfold MUX_FRAME_HDR_SIZE in Hlen. simpl in Hlen. lia. }
  apply Forall_cons in Hform as [Hff Hfs]. cbn [fmap list_fmap concat] in Hw. unfold wire_of at 1 in Hw. rewrite <-app_assoc in Hw.
  assert (exists o2, out peer = mux_frame_encode (fst f) ++ o2 /\ o2 ++ rest = snd f ++ concat (wire_of <$> fs)) as (o2 & Eo & Ew).
  { exists (drop 12 (out peer)). assert (take 12 (out peer) = mux_frame_encode (fst f)) as Et.
    { apply (f_equal (take 12)) in Hw. rewrite take_app_le in Hw by exact Hlen. rewrite Hw. by apply take_app_length'. }
    rewrite <-Et, take_drop. split; [done|]. apply (app_inv_head (take 12 (out peer))). rewrite app_assoc, take_drop, Hw, Et. done. }
  rewrite Eo. rewrite (take_app_length' (mux_frame_encode (fst f)) o2 MUX_FRAME_HDR_SIZE eq_refl), (drop_app_length' (mux_frame_encode (fst f)) o2 MUX_FRAME_HDR_SIZE eq_refl).
  rewrite <-(app_nil_r (mux_frame_encode (fst f))), mux_frame_roundtrip by apply Hff.
  change (nth 0 (mux_frame_encode (fst f) ++ []) 0) with (version (fst f)).
  assert (version (fst f) =? MUX_PROTO_VERSION = true) as -> by (destruct Hff as (_ & -> & _); done). intros [= <- <-] Hm.
  match goal with |- conn b ?m _ => set (me' := m) in *; assert (procs me' = <[0%nat := LDisp (fst f)]> (procs me)) as Hpr by done end.
  destruct (reader_moved me me' 0 LHdr (LDisp (fst f)) Hp Hpr eq_refl) as [_ R'].
  change (drop 0 fs) with fs. set (peer' := set_out o2 fs peer) in *.
  assert (forall x, update_in_hand x me' = sum_of x (update_of f)) as Hup by (intros x; unfold update_in_hand; rewrite R'; by destruct f).
  assert (forall x, update_in_hand x me = 0) as Hup0 by (intros x; unfold update_in_hand; by rewrite Hrd).
  assert (forall x, frames_update x (f :: fs) = sum_of x (update_of f) + frames_update x fs) as Hfu by (intros x; rewrite <-frames_update_one; apply (frames_update_app x [f] fs)).
  assert (forall x, frames_data x (f :: fs) = log_of x (data_of f) ++ frames_data x fs) as Hfd by (intros x; rewrite <-frames_data_one; apply (frames_data_app x [f] fs)).
  assert (forall x, coming_data x me' = log_of x (data_of f)) as Hcd by (intros x; unfold coming_data; rewrite R'; by destruct f).
  split; try done; [by apply mem_set_out| |by apply local_set_out|..].
  - eapply (local_keep win b me me' 0 LHdr (LDisp (fst f))); try cside.
    + apply (l_range _ _ _ Hl).
    + intros h Hh. by apply (l_user _ _ _ Hl).
  - destruct Hsend. split; try done.
    + intros Hcp. destruct (p_wire Hcp) as (rest' & Hw' & Hr'). exists rest'. split; [done|]. intros _. rewrite (lacking_moved me me' 0 LHdr (LDisp (fst f))) by done. auto.
    + intros x. rewrite Hup. change (pend peer') with fs. change (procs peer') with (procs peer). specialize (p_credit x). rewrite Hup0, Ep, Hfu in p_credit. destruct p_credit as [H1 H2].
      change (credited me') with (credited me). change (granted peer') with (granted peer). split; [lia|]. intros Hd E. specialize (H2 Hd E). lia.
    + intros x H1 H2 H3 H4 H5. specialize (p_syn x H1 H2 H3 H4 H5). change (upcoming me' peer') with (upcoming me peer). destruct (first_of _ _); [done|].
      destruct p_syn as [Hu|Hu]; [left|by right]. apply (unsent_moved me me' 0 LHdr (LDisp (fst f))); auto.
  - destruct Hrecv. rewrite Ep in *. split; try done; rewrite ?R'; try done.
    + intros _. exists rest. unfold coming_bytes. rewrite R'. done.
    + intros hdr [= <-]. by destruct f.
    + intros hdr [= <-]. by destruct Hff as ((_ & _ & _ & _ & [? _]) & _).
    + by intros hdr [|[? ?]].
    + intros x. specialize (p_amount x). unfold coming_data, in_hand in *. rewrite Hrd in p_amount. rewrite R'. cbn [before_body] in *. change (cur me') with (snd f).
      replace (fst f, snd f) with f by (by destruct f). rewrite Hfd, length_app in p_amount. change (pend peer') with fs. simpl in *. lia.
    + intros x Hd. destruct (p_order x Hd) as (r2 & Hr2 & Hrest). exists r2. unfold in_hand in *. rewrite Hrd in Hr2. rewrite R', Hcd. split; [done|].
      intros _. rewrite (Hrest Hc). unfold coming_data. rewrite Hrd. by rewrite Hfd.
    + intros x. specialize (p_credit x). rewrite (held_moved me me' 0 _ _ Hp Hpr). cbn [pc_update]. rewrite Z.sub_0_r, Z.add_0_r. done.
    + intros x H1 H2 H3 H4 H5. specialize (p_syn x H1 H2 H3 H4 H5). unfold upcoming in *. rewrite Hrd, Ep in p_syn. rewrite R'. done.
Qed.

(** The payload of a frame has been read. *)
Lemma conn_read_body me' hdr oh peer' : pc = LBody hdr oh -> length_ hdr <> 0 -> cut me = false ->
  _mux_handle_data yes pc 0 me peer = Some (me', peer') -> mem_ok me' -> conn b me' peer'.
Proof.
  intros Epc Hnz Hc. pose proof (reader_form hdr) as Hfm. pose proof reader_ok as Hok. pose proof reader_here as Hrd. rewrite Epc in *. simpl in *. destruct Hok as [Ht Hok].
  specialize (Hfm eq_refl). destruct Hfm as (Hhdr & Hv & Hcase). simpl in Hcase.
  destruct Hcase as [(_ & Hfl & Hl & Hmax & Hpos)|[(Ht' & _)|(Ht' & _)]]; [|by rewrite Ht in Ht'..].
  assert (0 <= i32 (length_ hdr)) as Hi by (unfold MUX_MAX_FRAME_PAYLOAD in *; rewrite i32_small; lia).
  destruct (Z.eqb_spec (length_ hdr) 0); [done|]. rewrite andb_false_r. destruct (Z.ltb_spec (i32 (length_ hdr)) 0); [lia|]. rewrite Hc.
  rewrite Hl, Nat2Z.id. unfold read_full. destruct (Nat.leb_spec (length (cur me)) (length (out peer))) as [Hlen|]; [|done]. cbn [mbind option_bind].
  pose proof Hconn as [Hm0 Hm1 Hloc Hl1 Hsend Hrecv].
  destruct (p_wire _ _ _ _ Hrecv Hc) as (rest & Hw & Hr). unfold coming_bytes in Hw. rewrite Hrd in Hw. cbn [before_body] in Hw.
  assert (take (length (cur me)) (out peer) = cur me) as Et.
  { apply (f_equal (take (length (cur me)))) in Hw. rewrite take_app_le in Hw by lia. rewrite Hw. apply take_app_length. }
  assert (drop (length (cur me)) (out peer) ++ rest = concat (wire_of <$> pend peer)) as Ed.
  { apply (f_equal (drop (length (cur me)))) in Hw. rewrite drop_app_le, drop_app_length in Hw by lia. done. }
  rewrite Et. set (peer1 := set_out (drop (length (cur me)) (out peer)) (pend peer) peer).
  assert (forall me1 pc1, me1 = at_pc 0 pc1 (set_cur [] me) \/ me1 = at_pc 0 pc1 (note_dropped (stream_id hdr) (set_cur [] me)) ->
    oh = None /\ pc1 = LTop /\ dropped me1 = stream_id hdr :: dropped me \/ (exists h, oh = Some h /\ pc1 = LPush hdr h (cur me) /\ dropped me1 = dropped me) ->
    mem_ok me1 -> conn b me1 peer1) as Hgo.
  { intros me1 pc1 Hme Hpc1 Hm.
    assert (procs me1 = <[0%nat := pc1]> (procs me) /\ heap me1 = heap me /\ mx me1 = mx me /\ out me1 = out me /\ pend me1 = pend me /\ cut me1 = false /\ owned me1 = owned me
      /\ wrote me1 = wrote me /\ took me1 = took me /\ granted me1 = granted me /\ credited me1 = credited me /\ freed me1 = false)
      as (Hpr & Eh & Em & Eo & Ep & Ec & Eow & Ew & Etk & Eg & Ecr & Efr) by (by destruct Hme as [-> | ->]).
    assert (calm pc1 = true /\ before_body pc1 = None /\ update_hdr pc1 = None /\ deciding pc1 = [] /\ pc_ok win b me1 pc1
      /\ (forall hdr' oh, pc1 <> LBody hdr' oh) /\ (forall hdr', pc1 <> LWuFind hdr') /\ forall hdr' h, pc1 <> LWu hdr' h) as (P1 & P2 & P3 & P4 & P6 & P7 & P8 & P9).
    { destruct Hpc1 as [(_ & -> & _)|(h & E & -> & _)]; [done|]. rewrite E in Hok. split_and!; try done. destruct Hok as (o & Ho & Hid). exists o. by rewrite Eh. }
    destruct (reader_moved me me1 0 _ pc1 Hp Hpr eq_refl) as [_ R'].
    destruct (calm_nothing pc1 P1) as (B1 & B2 & B3 & B4 & B5 & B6).
    assert (forall x, update_in_hand x me1 = update_in_hand x me) as Hup.
    { intros x. unfold update_in_hand. rewrite R', Hrd, P3. simpl. unfold update_of. simpl. by rewrite Ht. }
    assert (forall x, log_of x (data_of (hdr, cur me)) = if stream_id hdr =? x then cur me else []) as Hdat.
    { intros x. unfold data_of. simpl. rewrite Ht. simpl. by rewrite app_nil_r. }
    assert (forall x, x ∉ dropped me1 -> x ∉ dropped me /\ in_hand x me1 = log_of x (data_of (hdr, cur me))) as Hnd.
    { intros x. unfold in_hand. rewrite R', Hdat. destruct Hpc1 as [(_ & -> & ->)|(h & _ & -> & ->)]; [|done]. rewrite not_elem_of_cons. intros [Hne Hx]. split; [done|].
      by rewrite (proj2 (Z.eqb_neq _ _) (not_eq_sym Hne)). }
    split; try done; [by apply mem_set_out| |by apply local_set_out|..].
    - eapply (local_keep win b me me1 0 (LBody hdr oh) pc1); try done; rewrite ?Eh, ?Em, ?Eow, ?Ew, ?Etk, ?Eg, ?Ecr; try done; try cside.
      + by rewrite Hc.
      + intros h. by rewrite B4.
      + apply (l_range _ _ _ Hloc).
      + intros h Hh. by apply (l_user _ _ _ Hloc).
      + left. intros h. by rewrite B5.
    - assert (pair b me1 peer) as Hs1; [|by destruct Hs1].
      eapply (pair_sender_gen win b me me1); rewrite ?Ew, ?Ecr, ?Eh; try done.
      + intros x Hx. by apply Hnd.
      + by rewrite Hc.
      + intros _. apply (lacking_moved me me1 0 (LBody hdr oh) pc1); [done..|by rewrite B1].
      + intros x E. left. apply (unsent_moved me me1 0 (LBody hdr oh) pc1); auto.
    - destruct Hrecv. split; rewrite ?Eh, ?Em, ?Etk, ?Eg, ?Ep, ?R', ?P2, ?P3; try done.
      + intros _. exists rest. unfold coming_bytes. rewrite R', P2. done.
      + intros hdr' [E|[h E]]; [by destruct (P8 hdr')|by destruct (P9 hdr' h)].
      + intros x. specialize (p_amount x). change (pend peer1) with (pend peer). change (wrote peer1) with (wrote peer). unfold coming_data in *. rewrite Hrd in p_amount. rewrite R', P2. cbn [before_body] in p_amount.
        unfold in_hand in *. rewrite Hrd in p_amount. rewrite Hdat in p_amount. rewrite R'. destruct Hpc1 as [(_ & -> & _)|(h & _ & -> & _)]; simpl in *; lia.
      + intros x Hx. destruct (Hnd x Hx) as [Hx' Hih]. destruct (p_order x Hx') as (r2 & Hr2 & Hrest). specialize (Hrest Hc).
        unfold coming_data, in_hand in Hr2, Hrest. rewrite Hrd in Hr2, Hrest. cbn [before_body] in Hrest. exists (frames_data x (pend peer)). unfold coming_data. rewrite R', P2, Hih. split; [|done].
        change (wrote peer1) with (wrote peer). rewrite Hr2, Hrest. done.
      + intros x. specialize (p_credit x). change (dropped peer1) with (dropped peer). change (credited peer1) with (credited peer).
        replace (update_in_hand x peer1) with (update_in_hand x peer) by done. rewrite (held_moved me me1 0 _ _ Hp Hpr), B2. cbn [pc_update]. rewrite Z.sub_0_r, Z.add_0_r, Ec. rewrite Hc in p_credit. done.
      + intros x H1 H2 H3 H4 H5. destruct (Hnd x H5) as [H5' _]. specialize (p_syn x H1 H2 H3 H4 H5'). unfold upcoming in *. rewrite Hrd in p_syn. rewrite R', P4. done.
      + intros hdr' _ _. split; intros E; [by destruct (P8 hdr')|by destruct (P7 hdr' None)].
      + intros x Hx H1 H2. destruct Hpc1 as [(Eoh & _ & E)|(h & _ & _ & E)]; rewrite E in Hx; [|by apply p_drop].
        apply elem_of_cons in Hx as [->|Hx]; [|by apply p_drop]. destruct (p_known hdr H1 H2) as [_ Hk]. rewrite Eoh in Hrd. by destruct (Hk Hrd). }
  destruct oh as [h|]; intros [= <- <-] Hm.
  - eapply (Hgo _ (LPush hdr h (cur me))); [by left| |done]. right. by exists h.
  - eapply (Hgo _ LTop); [by right| |done]. by left.
Qed.

(** The stream of the frame at hand. *)
Lemma stream_at_hand h hdr : h ∈ uses pc -> for_stream me hdr h -> exists o, heap me !! h = Some o /\ id o = stream_id hdr /\ (0 <? refcnt o) = true.
Proof.
  intros Hu (o & Ho & Hid). destruct (held_alive me h (c_mem _ _ _ _ Hconn)) as (o' & Ho' & Hr).
  { apply stream_held. by eapply (m_uses _ (c_mem _ _ _ _ Hconn)). }
  rewrite Ho in Ho'. injection Ho' as <-. by exists o.
Qed.

Lemma push_data_spec data o : let o' := fst (mux_stream_push_data true data o) in
  id o' = id o /\ recv_buf o' = recv_buf o ++ data /\ send_window o' = send_window o
  /\ (ubound 32 (recv_window o) -> recv_window o' = u32 (recv_window o - Z.of_nat (length data))).
Proof.
  unfold mux_stream_push_data. destruct (Nat.eqb_spec (length data) 0) as [E|E].
  - destruct data; [|done]. simpl. rewrite app_nil_r. split_and!; [done..|]. intros Hu. rewrite Z.sub_0_r. by rewrite uwrap_small.
  - rewrite andb_false_r. cbn -[grow uwrap]. split_and!; [done..|]. intros _. unfold uwrap. by rewrite Zminus_mod_idemp_r.
Qed.

Lemma conn_push me' hdr h payload peer' : pc = LPush hdr h payload -> _mux_handle_data yes pc 0 me peer = Some (me', peer') -> mem_ok me' -> conn b me' peer'.
Proof.
  intros Epc. pose proof (stream_at_hand h hdr) as Hst. pose proof reader_ok as Hok. pose proof reader_here as Hrd. rewrite Epc in *. simpl. intros [= <- <-] Hm.
  destruct (Hst ltac:(cbn; set_solver) Hok) as (o & Ho & Hid & Hr). unfold on_stream in *. rewrite Ho, Hr in *. destruct (push_data_spec payload o) as (E1 & E2 & E3 & E4).
  change (a_buffer yes) with true in *. set (o' := fst (mux_stream_push_data true payload o)) in *.
  match goal with |- conn b ?m _ => set (me' := m) in *; assert (procs me' = <[0%nat := LFin hdr h]> (procs me)) as Hpr by done end.
  destruct (reader_moved me me' 0 (LPush hdr h payload) (LFin hdr h) Hp Hpr eq_refl) as [_ R'].
  pose proof Hconn as [Hm0 Hm1 Hl Hl1 Hsend Hrecv]. pose proof (l_recv _ _ _ Hl _ _ Ho) as Hrw.
  assert (ubound 32 (recv_window o)) as Hub by (rewrite Hrw; apply uwrap_bound; lia). specialize (E4 Hub).
  assert (forall x, has_object x (heap me') = has_object x (heap me)) as Hob by (intros x; by eapply has_object_insert).
  split; try done.
  - eapply (local_put win b me me' 0 (LPush hdr h payload) (LFin hdr h) h o o'); try done.
    + intros _. left. by rewrite E3.
    + rewrite E3. apply (l_id _ _ _ Hl _ _ Ho).
    + intros Hc. rewrite E3, (l_send _ _ _ Hl _ _ Ho Hc). change (wrote me') with (wrote me). change (credited me') with (credited me). rewrite Hpr.
      pose proof (sum_insert (unsubtracted h) _ _ _ (LFin hdr h) Hp) as Hs. cbn [unsubtracted] in Hs. lia.
    + rewrite E4, Hrw, E2, length_app. change (took me') with (took me). change (granted me') with (granted me). unfold uwrap. rewrite Zminus_mod_idemp_l. f_equal. lia.
    + exact (l_grant _ _ _ Hl _ _ Ho).
  - eapply (pair_sender_gen win b me me'); try done.
    + intros _. by apply (lacking_moved me me' 0 (LPush hdr h payload) (LFin hdr h)).
    + intros x E. left. apply (unsent_moved me me' 0 (LPush hdr h payload) (LFin hdr h)); auto.
    + intros x. unfold update_in_hand. by rewrite R', Hrd.
  - eapply (pair_receiver_gen win _ me me'); rewrite ?R'; try done.
    + intros x. split; [|done]. change (took me') with (took me). change (heap me') with (<[h := o']> (heap me)).
      rewrite (buf_of_insert _ _ o) by (done || apply (l_ids _ _ _ Hl)). unfold in_hand. rewrite R', Hrd, app_nil_r. f_equal. rewrite Hid.
      destruct (Z.eqb_spec (stream_id hdr) x) as [<-|]; [|by rewrite app_nil_r]. rewrite E2, <-Hid. f_equal. symmetry. apply (buf_of_object _ h o); [apply (l_ids _ _ _ Hl)|done].
    + intros _. unfold coming_bytes. by rewrite R', Hrd.
    + intros x. unfold coming_data. by rewrite R', Hrd.
    + intros x. rewrite (held_moved me me' 0 _ _ Hp Hpr). cbn [pc_update]. change (pend me') with (pend me). change (granted me') with (granted me). split; [lia|intros _; lia].
    + by intros hdr' [|[? ?]].
    + intros x _ _ _ _ _. unfold upcoming. by rewrite R', Hrd.
Qed.

(** A window update for a stream that is not there. *)
Lemma conn_update_lost me' hdr : pc = LWuFind hdr -> _mux_find_stream (mx me) (heap me) (stream_id hdr) = None ->
  _mux_handle_window_update pc 0 me = Some me' -> mem_ok me' -> conn b me' peer.
Proof.
  intros Epc Hh. pose proof reader_here as Hrd. rewrite Epc in *. simpl. rewrite Hh. intros [= <-] Hm.
  match goal with |- conn b ?m _ => set (me' := m) in *; assert (procs me' = <[0%nat := LTop]> (procs me)) as Hpr by done end.
  destruct (reader_moved me me' 0 (LWuFind hdr) LTop Hp Hpr eq_refl) as [_ R'].
  pose proof Hconn as [Hm0 Hm1 Hl Hl1 Hsend Hrecv].
  assert (type hdr = MUX_TYPE_WINDOW_UPDATE) as Ht by (apply (p_wu _ _ _ _ Hrecv); by left).
  assert (0 <= length_ hdr) as Hlen by (apply (p_upd _ _ _ _ Hrecv); by rewrite Hrd).
  assert (forall x, update_in_hand x me = if stream_id hdr =? x then length_ hdr else 0) as Hup.
  { intros x. unfold update_in_hand. rewrite Hrd. cbn [update_hdr]. unfold update_of. simpl. rewrite Ht. simpl. lia. }
  assert (forall x, update_in_hand x me' = 0) as Hup' by (intros x; unfold update_in_hand; by rewrite R').
  split; try done.
  - eapply (local_keep win b me me' 0 (LWuFind hdr) LTop); try cside; [apply (l_range _ _ _ Hl)|]. intros h Hh'. by apply (l_user _ _ _ Hl).
  - destruct Hsend. split; try done.
    + intros Hc. destruct (p_wire Hc) as (rest & Hw & Hr). exists rest. split; [done|]. intros E. rewrite (lacking_moved me me' 0 (LWuFind hdr) LTop) by done. auto.
    + intros x. specialize (p_credit x). rewrite Hup in p_credit. rewrite Hup'. change (credited me') with (credited me). destruct p_credit as [H1 H2].
      split; [case_match; lia|]. change (dropped me') with (stream_id hdr :: dropped me). rewrite not_elem_of_cons. intros [Hne Hx] Hc. specialize (H2 Hx Hc).
      rewrite (proj2 (Z.eqb_neq _ _) (not_eq_sym Hne)) in H2. lia.
    + intros x H1 H2 H3 H4 H5. specialize (p_syn x H1 H2 H3 H4 H5). change (upcoming me' peer) with (upcoming me peer). destruct (first_of _ _); [done|].
      destruct p_syn as [Hu|Hu]; [left|by right]. apply (unsent_moved me me' 0 (LWuFind hdr) LTop); auto.
  - pose proof Hrecv as []. split; rewrite ?R'; try done.
    + intros Hc. unfold coming_bytes. rewrite R'. destruct (p_wire Hc) as (rest & Hw & Hr). exists rest. unfold coming_bytes in Hw. rewrite Hrd in Hw. done.
    + by intros hdr' [|[? ?]].
    + intros x. specialize (p_amount x). unfold coming_data, in_hand in *. rewrite Hrd in p_amount. rewrite R'. done.
    + intros x. change (dropped me') with (stream_id hdr :: dropped me). rewrite not_elem_of_cons. intros [_ Hx]. destruct (p_order x Hx) as (rest & H1 & H2). exists rest.
      unfold coming_data, in_hand in *. rewrite Hrd in H1, H2. rewrite R'. done.
    + intros x. specialize (p_credit x). rewrite (held_moved me me' 0 _ _ Hp Hpr). cbn [pc_update]. rewrite Z.sub_0_r, Z.add_0_r. done.
    + intros x H1 H2 H3 H4. change (dropped me') with (stream_id hdr :: dropped me). rewrite not_elem_of_cons. intros [_ H5]. specialize (p_syn x H1 H2 H3 H4 H5).
      unfold upcoming in *. rewrite Hrd in p_syn. rewrite R'. done.
    + intros x. change (dropped me') with (stream_id hdr :: dropped me). intros [->|Hx]%elem_of_cons H1 H2; [|by apply p_drop].
      pose proof (find_none _ Hh H1) as Ho. split; [|done]. destruct (p_known hdr H1 H2) as [Hk _]. destruct (Hk Hrd); [congruence|done].
Qed.
(** The frame that opens a stream creates it. *)
Lemma conn_syn_new me' hdr : pc = LSyn hdr -> mux_closed (mx me) = false -> _mux_find_stream (mx me) (heap me) (stream_id hdr) = None ->
  accept_syn yes pc 0 me = Some me' -> mem_ok me' -> conn b me' peer.
Proof.
  intros Epc Hcl Hnf. pose proof (reader_form hdr) as Hfm. pose proof reader_ok as Hok. pose proof reader_here as Hrd. rewrite Epc in *. simpl in *.
  specialize (Hfm eq_refl). pose proof Hfm as (Hhdr & Hv & Hcase). simpl in Hcase. destruct Hok as [Hok Hsyn].
  destruct Hcase as [(Ht & _)|[(_ & Hcur & Hfl & Hpos)|(Ht & _)]]; [by rewrite Hok in Ht| |by rewrite Hok in Ht].
  assert (own (negb b) (stream_id hdr) = true) as Hown by (destruct Hfl as [Hfl|[_ ?]]; [unfold flag in Hsyn; by rewrite Hfl in Hsyn|done]).
  assert (own b (stream_id hdr) = false) as Hno by (unfold own in *; by destruct (Z.even (stream_id hdr)), b).
  pose proof (find_none _ Hnf Hown) as Hob. unfold _mux_accept_syn. rewrite Hcl, Hnf. cbn -[_mux_add_stream]. intros [= <-] Hm.
  pose proof Hconn as [Hm0 Hm1 Hl Hl1 Hsend Hrecv]. set (n := length (heap me)) in *. rewrite (l_win _ _ _ Hl) in *.
  match goal with |- context [heap me ++ [?o]] => set (s := o) in * end.
  destruct (add_stream_rest n (mx me)) as (Ea & _ & Ecl & Ew & En). pose proof (add_stream_streams n (mx me)) as Es.
  set (m := snd (_mux_add_stream true n (mx me))) in *.
  match goal with |- conn b ?m1 _ => set (me' := m1) in *; assert (procs me' = <[0%nat := LSend hdr n]> (procs me)) as Hpr by done end.
  destruct (reader_moved me me' 0 (LSyn hdr) (LSend hdr n) Hp Hpr eq_refl) as [_ R'].
  assert (forall x, has_object x (heap me') = has_object x (heap me) || (stream_id hdr =? x)) as Hobj by (intros x; apply has_object_app).
  assert (forall x, buf_of x (heap me') = buf_of x (heap me)) as Hbuf.
  { intros x. unfold me'. proj. rewrite buf_of_app. unfold s. simpl. case_match; apply app_nil_r. }
  assert (0 < stream_id hdr < 2 ^ 32) as Hsid by (destruct Hhdr as (_ & _ & _ & Hs4 & _); unfold ubound in Hs4; simpl in Hs4; lia).
  split; try done.
  - eapply (local_new win Hwin Hwins b me me' 0 (LSyn hdr) (LSend hdr n) s); try done; unfold me'; proj; rewrite ?Ew, ?En, ?Es, ?Ea.
    + apply (l_win _ _ _ Hl).
    + apply (l_next _ _ _ Hl).
    + lia.
    + unfold s. simpl. congruence.
    + set_solver.
    + intros _. set_solver.
    + intros h. pose proof (sum_insert (opening h) _ _ _ (LSend hdr n) Hp) as Hs. cbn [opening] in Hs. pose proof (l_open _ _ _ Hl h). rewrite occ_app.
      destruct (decide (n = h)) as [<-|Hne]; [destruct (fresh_handle me Hm0) as [H1 H2]; fold n in H1, H2|]; unfold occ at 2; simpl; [rewrite one_eq|rewrite one_ne by done]; lia.
    + intros h. rewrite elem_of_app, list_elem_of_singleton. intros [Hh%(l_range _ _ _ Hl)| ->]; unfold n; lia.
    + intros h Hh. apply elem_of_app. left. by apply (l_user _ _ _ Hl).
    + split; [|done]. exists s. split; [|done]. proj. by rewrite lookup_app_r, Nat.sub_diag by lia.
    + intros x. unfold s. simpl. destruct (Z.eqb_spec (stream_id hdr) x) as [<-|]; [unfold extra; rewrite Hno|]; lia.
  - eapply (pair_sender_gen win b me me'); try done.
    + intros x Hx. rewrite Hobj. destruct (Z.eqb_spec (stream_id hdr) x) as [<-|]; [congruence|by rewrite orb_false_r].
    + intros _. by apply (lacking_moved me me' 0 (LSyn hdr) (LSend hdr n)).
    + intros x E. left. apply (unsent_moved me me' 0 (LSyn hdr) (LSend hdr n)); auto.
    + intros x. unfold update_in_hand. by rewrite R', Hrd.
  - destruct Hrecv. split; rewrite ?R'; try done.
    + intros Hc. unfold coming_bytes. rewrite R'. destruct (p_wire Hc) as (rest & Hw & Hr). exists rest. unfold coming_bytes in Hw. rewrite Hrd in Hw. done.
    + by intros hdr' [= <-].
    + intros hdr' [= <-]. apply p_upd. by rewrite Hrd.
    + by intros hdr' [|[? ?]].
    + intros x. specialize (p_amount x). rewrite Hbuf. unfold coming_data, in_hand in *. rewrite Hrd in p_amount. rewrite R'. done.
    + intros x Hx. destruct (p_order x Hx) as (rest & H1 & H2). exists rest. rewrite Hbuf. unfold coming_data, in_hand in *. rewrite Hrd in H1, H2. rewrite R'. done.
    + intros x. specialize (p_credit x). rewrite (held_moved me me' 0 _ _ Hp Hpr). cbn [pc_update]. rewrite Z.sub_0_r, Z.add_0_r. done.
    + intros x H1 H2. rewrite Hobj. intros [H3 Hne]%orb_false_iff _ H5. specialize (p_syn x H1 H2 H3 Hcl H5). unfold upcoming in *. rewrite Hrd in p_syn. rewrite R'.
      cbn [deciding app first_of] in p_syn. by rewrite Hne in p_syn.
    + intros x Hx H1 H2. destruct (p_drop x Hx H1 H2). congruence.
Qed.

(** ** The credit of a window update *)

Lemma unsubtracted_small h : Z.of_nat (sum_list_with (unsubtracted h) (procs me)) <= MUX_MAX_FRAME_PAYLOAD.
Proof.
  pose proof (c_local _ _ _ _ Hconn) as Hl. pose proof (l_writer _ _ _ Hl h) as Hw. unfold MUX_MAX_FRAME_PAYLOAD.
  assert (forall pcq, pcq ∈ procs me -> Z.of_nat (unsubtracted h pcq) <= 65535 * Z.of_nat (writes h pcq)) as Hle.
  { assert (forall g c r, writer_ok me g c r -> Z.of_nat (one g h * c) <= 65535 * Z.of_nat (one g h)) as Hwo.
    { intros g c r (_ & Hc & _). unfold one, MUX_MAX_FRAME_PAYLOAD in *. case_decide; lia. }
    intros pcq [q Hq]%list_elem_of_lookup. pose proof (l_pc _ _ _ Hl _ _ Hq) as Hok. unfold writes. destruct pcq; simpl in *; try lia.
    - destruct k; try lia. destruct Hok as [[Hk _] _]. by eapply Hwo.
    - destruct rc; [|lia..]. destruct k; try lia. destruct Hok as [Hk _]. by eapply Hwo.
    - by eapply Hwo. }
  assert (Z.of_nat (sum_list_with (unsubtracted h) (procs me)) <= 65535 * Z.of_nat (sum_list_with (writes h) (procs me))); [|lia]. clear Hw.
  clear Hp Hconn Hl Hf. induction (procs me) as [|y l IH]; [done|]. cbn [sum_list_with]. pose proof (Hle y ltac:(set_solver)). specialize (IH ltac:(set_solver)). lia.
Qed.

Lemma conn_update me' hdr h : pc = LWu hdr h -> _mux_handle_window_update pc 0 me = Some me' -> mem_ok me' -> conn b me' peer.
Proof.
  intros Epc. pose proof (stream_at_hand h hdr) as Hst. pose proof reader_ok as Hok. pose proof reader_here as Hrd. pose proof (unsubtracted_small h) as Hus.
  rewrite Epc in *. simpl. intros [= <-] Hm.
  destruct (Hst ltac:(cbn; set_solver) Hok) as (o & Ho & Hid & Hr). unfold on_stream in *. rewrite Ho, Hr in *.
  set (o' := fst (mux_stream_update_send_window (length_ hdr) o)) in *.
  match goal with |- conn b ?m1 _ => set (me' := m1) in *; assert (procs me' = <[0%nat := LTop]> (procs me)) as Hpr by done end.
  destruct (reader_moved me me' 0 (LWu hdr h) LTop Hp Hpr eq_refl) as [_ R'].
  pose proof Hconn as [Hm0 Hm1 Hl Hl1 Hsend Hrecv].
  assert (type hdr = MUX_TYPE_WINDOW_UPDATE) as Ht by (apply (p_wu _ _ _ _ Hrecv); right; eauto).
  assert (0 <= length_ hdr) as Hlen by (apply (p_upd _ _ _ _ Hrecv); by rewrite Hrd).
  assert (forall x, update_in_hand x me = if stream_id hdr =? x then length_ hdr else 0) as Hup.
  { intros x. unfold update_in_hand. rewrite Hrd. cbn [update_hdr]. unfold update_of. simpl. rewrite Ht. simpl. lia. }
  assert (forall x, update_in_hand x me' = 0) as Hup' by (intros x; unfold update_in_hand; by rewrite R').
  assert (forall x, sum_of x (credited me') = sum_of x (credited me) + (if stream_id hdr =? x then length_ hdr else 0)) as Hcr.
  { intros x. unfold me'. proj. rewrite sum_of_app. simpl. lia. }
  assert (forall x, has_object x (heap me') = has_object x (heap me)) as Hob by (intros x; by eapply has_object_insert).
  destruct (l_id _ _ _ Hl _ _ Ho) as (_ & Hsw & _).
  assert (cut me = false -> send_window o' = send_window o + length_ hdr) as Hsum.
  { intros Hc. change (u32 (send_window o + length_ hdr) = send_window o + length_ hdr). apply uwrap_small. unfold ubound in *.
    pose proof (l_send _ _ _ Hl _ _ Ho Hc) as Hse. pose proof (credit_bound win Hwin Hwins b me peer Hconn (id o)) as Hcb. rewrite Hup, <-Hid, Z.eqb_refl in Hcb.
    pose proof (p_amount _ _ _ _ Hsend (id o)) as Ham. pose proof (win_small win Hwin Hwins b). pose proof (win_small win Hwin Hwins (negb b)).
    assert (extra win (negb b) (id o) <= win (negb b)) by (unfold extra; case_match; lia). unfold MUX_MAX_FRAME_PAYLOAD in Hus.
    pose proof (wins_small win Hwins b me peer Hconn). lia. }
  split; try done.
  - eapply (local_put win b me me' 0 (LWu hdr h) LTop h o o'); try done.
    + intros x Hx. rewrite Hcr, <-Hid, (proj2 (Z.eqb_neq _ _) (not_eq_sym Hx)). split_and!; [done..|lia].
    + intros Hc. left. rewrite Hsum by done. lia.
    + apply uwrap_bound. lia.
    + intros Hc. rewrite Hsum, (l_send _ _ _ Hl _ _ Ho Hc), Hcr, <-Hid, Z.eqb_refl, Hpr by done. change (wrote me') with (wrote me).
      pose proof (sum_insert (unsubtracted h) _ _ _ LTop Hp) as Hs. cbn [unsubtracted] in Hs. lia.
    + exact (l_recv _ _ _ Hl _ _ Ho).
    + exact (l_grant _ _ _ Hl _ _ Ho).
  - destruct Hsend. split; try done.
    + intros Hc. destruct (p_wire Hc) as (rest & Hw & Hr'). exists rest. split; [done|]. intros E. rewrite (lacking_moved me me' 0 (LWu hdr h) LTop) by done. auto.
    + intros x. specialize (p_credit x). rewrite Hup in p_credit. rewrite Hup', Hcr. change (dropped me') with (dropped me). destruct p_credit as [H1 H2].
      split; [lia|]. intros Hd Hc. specialize (H2 Hd Hc). lia.
    + intros x H1 H2 H3 H4 H5. specialize (p_syn x H1 H2 H3 H4 H5). change (upcoming me' peer) with (upcoming me peer). destruct (first_of _ _); [done|]. rewrite Hob.
      destruct p_syn as [Hu|Hu]; [left|by right]. apply (unsent_moved me me' 0 (LWu hdr h) LTop); auto.
  - eapply (pair_receiver_gen win _ me me'); rewrite ?R'; try done.
    + intros x. split; [|done]. change (took me') with (took me). change (heap me') with (<[h := o']> (heap me)).
      rewrite (buf_of_insert _ _ o) by (done || apply (l_ids _ _ _ Hl)). unfold in_hand. rewrite R', Hrd, !app_nil_r. f_equal.
      destruct (Z.eqb_spec (id o) x) as [<-|]; [|done]. symmetry. apply (buf_of_object _ h o); [apply (l_ids _ _ _ Hl)|done].
    + intros _. unfold coming_bytes. by rewrite R', Hrd.
    + intros x. unfold coming_data. by rewrite R', Hrd.
    + intros x. rewrite (held_moved me me' 0 _ _ Hp Hpr). cbn [pc_update]. change (pend me') with (pend me). change (granted me') with (granted me). split; [lia|intros _; lia].
    + by intros hdr' [|[? ?]].
    + intros x _ _ _ _ _. unfold upcoming. by rewrite R', Hrd.
Qed.
End reader.
End correct.
