(* ===== verification/MuxCorrect.v ===== *)
(** * Multiplexer: two sessions over one connection

    The invariant of the whole system, kept by every step, and what it means for the
    users of the two sessions. *)

From S2P Require Import Prelude Interleave Parking MuxFrame Mux MuxMemory MuxFlow MuxHandles MuxPark MuxSteps MuxReader.

(** ** Stream numbers do not wrap *)

Definition opens_ok (me : side) : Prop := next_stream_id (mx me) + 2 * Z.of_nat (sum_list_with opens (procs me)) < 2 ^ 32.

Lemma go_next a me peer p pc me' peer' : mem_ok me -> pc <> OTake -> mux_go a pc p me peer = Some (me', peer') ->
  next_stream_id (mx me') = next_stream_id (mx me) /\ (procs me' = procs me \/ exists pc', procs me' = <[p := pc']> (procs me) /\ opens pc' = 0%nat).
Proof.
  intros Hm Hne. destruct pc; try done; unfold mux_go; try (intros (me1 & Hs & [= <- <-])%fmap_Some; revert Hs);
    unfold _mux_write_frame, xylem_mux_open_stream, xylem_mux_accept_stream, xylem_mux_read, xylem_mux_write, drop_refs, xylem_mux_close_stream,
      _mux_close_session, xylem_mux_destroy, _mux_reader_loop, _mux_handle_data, accept_syn, _mux_handle_window_update, finish, unref_at, on_stream, read_full,
      _mux_accept_syn, _mux_add_stream, _mux_dispatch, after_body, after_close, park_coro, mbind, option_bind.
  all: try (destruct (free_all me Hm) as (hp & E & _); unfold _mux_free; rewrite E).
  all: unfold _mux_recv_wait_commit_cb, _mux_send_wait_commit_cb in *; repeat case_match; intros; simplify_eq; simpl; split; try done; first [by left|right; eexists; (split; [reflexivity|done])].
Qed.

Lemma opens_begin c p me : procs me !! p = Some Idle -> allowed c me = true -> opens_ok me -> opens_ok (begin c p me).
Proof.
  intros Hp [_ Ha]%andb_true_iff Ho. unfold opens_ok in *. pose proof (fun pc' => sum_insert opens _ _ _ pc' Hp) as Hs.
  destruct c; cbv beta iota in Ha; cbn [begin]; unfold on_stream; repeat case_match; proj; try done;
    match goal with |- context [<[p := ?q]> _] => specialize (Hs q); cbn [opens] in Hs; try lia end; apply Z.ltb_lt in Ha; lia.
Qed.

Section system.
Context (win : bool -> Z).
Hypotheses (Hwin : forall b, 0 < win b) (Hwins : win false + win true < 2 ^ 31).
Notation conn := (conn win).

Lemma opens_next a b me peer p pc me' peer' : conn b me peer -> procs me !! p = Some pc -> mux_go a pc p me peer = Some (me', peer') -> opens_ok me -> opens_ok me'.
Proof.
  intros Hc Hp Hgo Ho. unfold opens_ok in *. assert (pc = OTake \/ pc <> OTake) as [->|Hne] by (destruct pc; first [by left|by right]).
  - pose proof (sum_insert opens _ _ _ Idle Hp) as Hs.
    assert (forall f k, sum_list_with opens (<[p := FLock f k]> (procs me)) = sum_list_with opens (<[p := Idle]> (procs me))) as Hs'.
    { intros f k. pose proof (sum_insert opens _ _ _ (FLock f k) Hp) as Hs2. simpl in *. lia. }
    simpl in Hs. pose proof (l_next _ _ _ (c_local _ _ _ _ Hc)) as [_ Hn]. revert Hgo. unfold mux_go. intros (me1 & Hs1 & [= <- <-])%fmap_Some. revert Hs1.
    simpl. destruct (mux_closed (mx me)); [intros [= <-]; proj; lia|]. unfold new_stream, mux_stream_create. destruct (_ && _); intros [= <-]; proj; rewrite ?Hs', uwrap_small by (unfold ubound; lia); lia.
  - destruct (go_next _ _ _ _ _ _ _ (c_mem _ _ _ _ Hc) Hne Hgo) as [-> [->|(pc' & -> & Hz)]]; [done|]. pose proof (sum_insert opens _ _ _ pc' Hp). lia.
Qed.

Lemma opens_take b me peer p : conn b me peer -> procs me !! p = Some OTake -> opens_ok me -> next_stream_id (mx me) + 2 < 2 ^ 32.
Proof. intros Hc Hp Ho. unfold opens_ok in Ho. pose proof (sum_lookup opens _ _ _ Hp) as Hs. simpl in Hs. lia. Qed.

Lemma conn_step_ok b me peer p pc : conn b me peer -> waits_ok me -> handles_ok me -> procs me !! p = Some pc -> step_ok p pc me.
Proof.
  intros Hc Hk Hh Hp. pose proof (pc_here win b me peer p pc Hc Hp) as Hok. pose proof (commit_free me p pc Hk Hp) as Hcf. destruct pc; try done; simpl in *; try exact Hcf.
  - by apply (accept_alone me p Accept Hh Hp).
  - intros o Ho. split; [lia|]. by eapply (recv_len_bound win Hwin Hwins b me peer).
  - destruct oh as [h|]; [|done]. assert (p = 0%nat) as -> by (pose proof (m_reader _ (c_mem _ _ _ _ Hc) _ _ Hp) as Hr; destruct p; [done|done]).
    pose proof (reader_form win b me peer _ Hc Hp hdr eq_refl) as (_ & _ & Hcase). simpl in Hcase. destruct Hok as [Ht _].
    destruct Hcase as [(_ & _ & Hl & Hmax & _)|[(Ht' & _)|(Ht' & _)]]; [|by rewrite Ht in Ht'..]. right. unfold MUX_MAX_FRAME_PAYLOAD in *. rewrite i32_small; lia.
Qed.
Lemma conn_park a b me peer p pc me' peer' : a = yes \/ pc = OTake -> conn b me peer -> waits_ok me -> step_ok p pc me -> procs me !! p = Some pc ->
  next_detached p (detached me) = None -> mux_go a pc p me peer = Some (me', peer') -> waits_ok me'.
Proof.
  intros Ha Hc Hk Hok Hp Hnd Hgo. eapply (park_go me p pc Hk (c_mem _ _ _ _ Hc) Hp); [by apply next_detached_none| | |exact Ha|done|done].
  - intros h o Ho. destruct (l_id _ _ _ (c_local _ _ _ _ Hc) _ _ Ho) as (_ & [? _] & _). done.
  - intros f k ->. pose proof (pc_here win b me peer p _ Hc Hp) as [_ Hok']. by destruct k.
Qed.

(** ** Every step *)

Lemma conn_go a b me peer p pc me' peer' : a = yes \/ pc = OTake -> conn b me peer -> freed me = false -> opens_ok me -> procs me !! p = Some pc -> step_ok p pc me ->
  mux_go a pc p me peer = Some (me', peer') -> mem_ok me' -> conn b me' peer'.
Proof.
  intros Ha Hc Hf Ho Hp Hgood Hgo Hm. pose proof (m_reader _ (c_mem _ _ _ _ Hc) _ _ Hp) as Hrd.
  destruct pc; try done; unfold mux_go in Hgo; try (destruct Ha as [->|]; [|done]); try (apply fmap_Some in Hgo as (me1 & Hs & [= <- <-])).
  - eapply conn_write_frame; eauto.
  - eapply conn_write_frame; eauto.
  - destruct (cut me) eqn:E; [eapply conn_write_frame; eauto|eapply conn_header; eauto].
  - destruct (cut me) eqn:E; [eapply conn_write_frame; eauto|eapply conn_payload; eauto].
  - eapply conn_write_frame; eauto.
  - eapply conn_open_take; eauto. by eapply opens_take.
  - eapply conn_open_add; eauto.
  - eapply conn_accept; eauto.
  - eapply conn_accept; eauto.
  - eapply conn_read_data; eauto.
  - eapply conn_read_test; eauto.
  - eapply conn_read_park; eauto.
  - eapply conn_read_park; eauto.
  - eapply conn_write_check; eauto.
  - eapply conn_write_park; eauto.
  - eapply conn_write_park; eauto.
  - eapply conn_write_sub; eauto.
  - eapply conn_unref; eauto.
  - eapply conn_close_stream; eauto.
  - eapply conn_close_stream; eauto.
  - eapply conn_close_session; eauto.
  - eapply conn_close_session; eauto.
  - eapply conn_close_session; eauto.
  - eapply conn_close_session; eauto.
  - eapply conn_destroy; eauto.
  - eapply conn_loop; eauto.
  - destruct p; [|done]. destruct (cut me) eqn:E; [eapply (conn_loop win b me peer 0 LHdr); eauto|eapply conn_read_header; eauto].
  - destruct p; [|done]. eapply conn_dispatch; eauto.
  - destruct p; [|done]. eapply conn_find; eauto.
  - destruct p; [|done]. destruct (mux_closed (mx me)) eqn:E; [eapply conn_syn; eauto|]. destruct (_mux_find_stream (mx me) (heap me) (stream_id hdr)) eqn:E'; [eapply conn_syn; eauto|].
    eapply conn_syn_new; eauto.
  - destruct p; [|done]. eapply conn_send; eauto.
  - destruct p; [|done]. destruct (decide (length_ hdr = 0)); [eapply conn_no_body; eauto|]. destruct (cut me) eqn:E; [eapply conn_no_body; eauto|eapply conn_read_body; eauto].
  - destruct p; [|done]. eapply conn_push; eauto.
  - destruct p; [|done]. eapply conn_flags; eauto.
  - destruct p; [|done]. eapply conn_flags; eauto.
  - destruct p; [|done]. destruct (_mux_find_stream (mx me) (heap me) (stream_id hdr)) eqn:E'; [eapply conn_update_found|eapply conn_update_lost]; eauto.
  - destruct p; [|done]. eapply conn_update; eauto.
  - eapply conn_loop; eauto.
  - eapply conn_loop; eauto.
Qed.

(** ** The system *)

Definition mux_inv (s : mux_sys) : Prop :=
  conn false (client s) (server s)
  /\ forall b, bad (end_of b s) = false /\ opens_ok (end_of b s) /\ waits_ok (end_of b s) /\ handles_ok (end_of b s).

Lemma inv_ends b s : mux_inv s -> conn b (end_of b s) (end_of (negb b) s).
Proof. intros [Hc _]. destruct b; [by apply conn_sym|done]. Qed.
Definition end_ok (me : side) : Prop := bad me = false /\ opens_ok me /\ waits_ok me /\ handles_ok me.
Lemma inv_intro b me peer : conn b me peer -> end_ok me -> end_ok peer -> mux_inv (set_ends b me peer).
Proof. intros Hc H1 H2. destruct b; (split; [by (done || apply conn_sym)|]); intros []; done. Qed.

Lemma conn_sched b me peer w l : conn b me peer -> conn b (set_coros w (set_detached l me)) peer.
Proof.
  intros [Hm Hm1 Hl Hl1 Hsend Hrecv]. split; [by destruct Hm|done|by destruct Hl|done|by destruct Hsend|by destruct Hrecv].
Qed.

(** A coroutine makes a waiter ready that it has detached. *)
Lemma ready_inv b s p pc co l : mux_inv s -> procs (end_of b s) !! p = Some pc -> next_detached p (detached (end_of b s)) = Some (co, l) ->
  exists w, let me := set_coros w (set_detached l (end_of b s)) in
  (forall a, mux_step (Go b p a) s = Some (set_ends b me (end_of (negb b) s))) /\ mux_inv (set_ends b me (end_of (negb b) s))
  /\ due_of (end_of b s) ≡ₚ co :: due_of me.
Proof.
  intros Hi Hp Hn. pose proof (inv_ends b s Hi) as Hc. destruct Hi as [_ Hi]. destruct (Hi b) as (Hbad & Hop & Hk & Hh).
  destruct (park_ready _ _ _ _ Hk Hn) as (w & E & Hk' & Hd). exists w. split_and!; [|apply inv_intro; [by apply conn_sched| |by apply Hi]|done].
  - intros a. unfold mux_step. rewrite Hp. cbn [mbind option_bind]. by rewrite Hn, E.
  - split_and!; [done|done|done|by destruct Hh].
Qed.

Lemma mux_step_inv l s s' : mux_inv s -> mux_step_granted l s = Some s' -> mux_inv s'.
Proof.
  unfold mux_step_granted. destruct (refused l s) eqn:Href; [done|].
  intros Hinv. pose proof (fun b => inv_ends b s Hinv) as Hc. pose proof Hinv as [_ Hi]. destruct l as [b p c|b p a|b]; [simpl| |simpl].
  - destruct (procs (end_of b s) !! p) as [pc|] eqn:Hp; [|done]. destruct pc; try done. destruct (allowed c _) eqn:Ha; [|done]. intros [= <-].
    destruct (mem_begin _ _ _ (c_mem _ _ _ _ (Hc b)) Hp Ha) as [Hm Hb]. destruct (Hi b) as (Hbad & Hop & Hk & Hh). assert (freed (end_of b s) = false) as Hf.
    { destruct (freed _) eqn:E; [|done]. apply andb_true_iff in Ha as [Ha _]. by rewrite (m_freed_streams _ (c_mem _ _ _ _ (Hc b)) E) in Ha. }
    apply inv_intro; [by apply (conn_begin win _ _ _ _ Idle (Hc b))| |apply Hi]. split_and!; [congruence|by apply opens_begin| |].
    + eapply (park_begin _ p Idle Hk); [apply Hc|done| |done|done]. intros co Hin. destruct (k_waker _ Hk _ _ Hin) as (pc & Hpc & Hw). rewrite Hp in Hpc. by injection Hpc as <-.
    + by apply (handles_begin _ p Idle).
  - destruct (procs (end_of b s) !! p) as [pc|] eqn:Hp; [|simpl; by rewrite Hp]. destruct (next_detached p (detached (end_of b s))) as [[co l]|] eqn:Hn.
    { destruct (ready_inv b s p pc co l Hinv Hp Hn) as (w & Hs & Hi' & _). rewrite Hs. by intros [= <-]. }
    simpl. rewrite Hp. simpl. rewrite Hn. destruct (freed (end_of b s)) eqn:Hf; simpl.
    + pose proof (m_freed _ (c_mem _ _ _ _ (Hc b)) _ _ Hf Hp) as Hr. rewrite Hr. by destruct pc.
    + destruct (mux_go _ _ _ _ _) as [[me' peer']|] eqn:Hgo; [|done]. intros [= <-]. destruct (Hi b) as (Hbad & Hop & Hk & Hh), (Hi (negb b)) as (Hbad' & Hop' & Hk' & Hh').
      assert (a = yes \/ pc = OTake) as Ha.
      { simpl in Href. rewrite Hp in Href. destruct a as [[] [] []]; (by left) || (right; by destruct pc). }
      pose proof (conn_step_ok _ _ _ _ _ (Hc b) Hk Hh Hp) as Hgood. pose proof (c_mem _ _ _ _ (Hc b)) as Hm0.
      destruct (mem_go _ _ _ _ _ _ _ Ha Hm0 Hf Hp Hgood Hgo) as [[Hm Hb] (o & fs & E)].
      apply inv_intro; [by eapply conn_go| |rewrite E; split_and!; [done|done|by destruct Hk'|by destruct Hh']].
      split_and!; [congruence|by eapply opens_next|by eapply (conn_park a b _ _ p pc me' peer' Ha (Hc b))|by eapply (handles_go _ p pc Hh Hm0 Hp)].
  - intros [= <-]. destruct (Hi b) as (? & ? & [] & []). apply inv_intro; [by apply conn_cut|done|apply Hi].
Qed.

(** ** The start *)

Lemma start_procs n q pc : (LTop :: replicate n Idle) !! q = Some pc -> q = 0%nat /\ pc = LTop \/ q <> 0%nat /\ pc = Idle.
Proof. destruct q; simpl; [intros [= <-]; by left|]. intros [-> _]%lookup_replicate. by right. Qed.
Lemma start_sum (f : mux_pc -> nat) n : f LTop = 0%nat -> f Idle = 0%nat -> sum_list_with f (LTop :: replicate n Idle) = 0%nat.
Proof. intros H1 H2. apply sum_zero. intros q pc [[_ ->]|[_ ->]]%start_procs; done. Qed.

Lemma mem_start b opt n : mem_ok (xylem_mux_create b opt n).
Proof.
  split; simpl; try done.
  - intros g _. unfold refs. change (procs (xylem_mux_create b opt n)) with (LTop :: replicate n Idle). by rewrite (start_sum (fun pc => pins pc g)).
  - intros q pc h [[_ ->]|[_ ->]]%start_procs; by intros ?%elem_of_nil.
  - intros q i m a [[_ ?]|[_ ?]]%start_procs; done.
  - intros q pc [[-> ->]|[? ->]]%start_procs; [done|by destruct q].
  - change (count leaving (LTop :: replicate n Idle) <= 0)%nat. unfold count. by rewrite (start_sum (fun pc => Nat.b2n (leaving pc))).
  - change (count locking (LTop :: replicate n Idle) = 0)%nat. unfold count. by rewrite (start_sum (fun pc => Nat.b2n (locking pc))).
Qed.
Lemma start_coro n q pc : (LTop :: replicate n Idle) !! q = Some pc -> replicate (S n) (Coro SCHED_CORO_RUNNING) !! q = Some (Coro SCHED_CORO_RUNNING) /\ pmode pc = Awake.
Proof.
  intros Hq. split; [|by destruct (start_procs _ _ _ Hq) as [[_ ->]|[_ ->]]]. apply lookup_replicate. split; [done|].
  apply lookup_lt_Some in Hq. simpl in Hq. rewrite length_replicate in Hq. lia.
Qed.
Lemma park_start b opt n : waits_ok (xylem_mux_create b opt n).
Proof.
  split; try done.
  - intros h. change (sum_list_with (reads h) (LTop :: replicate n Idle) <= 1)%nat. rewrite start_sum by done. lia.
  - intros h. change (sum_list_with (writes h) (LTop :: replicate n Idle) <= 1)%nat. rewrite start_sum by done. lia.
  - change (parked (replicate (S n) (Coro SCHED_CORO_RUNNING)) (pmode <$> (LTop :: replicate n Idle)) []). split; [constructor|by intros q ?%elem_of_nil|].
    intros q m. rewrite list_lookup_fmap, fmap_Some. intros (pc & [Hq ->]%start_coro & ->). change (context_phase (replicate (S n) (Coro SCHED_CORO_RUNNING)) q Run). unfold context_phase. by rewrite Hq.
  - intros q pc [Hq _]%start_coro. change (context_coro (replicate (S n) (Coro SCHED_CORO_RUNNING)) q = true). unfold context_coro. by rewrite Hq.
  - by intros q co ?%elem_of_nil.
Qed.
Lemma handles_start b opt n : handles_ok (xylem_mux_create b opt n).
Proof.
  split; try done.
  - intros g. change (sum_list_with (fun pc => user_pins pc g) (LTop :: replicate n Idle) <= 1)%nat. rewrite start_sum by done. lia.
  - change (count accepting (LTop :: replicate n Idle) <= 1)%nat. unfold count. rewrite (start_sum (fun pc => Nat.b2n (accepting pc))) by done. lia.
Qed.
Lemma local_start b opt n : win b = mux_window opt -> local win b (xylem_mux_create b opt n).
Proof.
  intros Hw. split; simpl; try done.
  - by destruct b.
  - intros h. change (sum_list_with (opening h) (LTop :: replicate n Idle) + occ h [] <= 1)%nat. by rewrite start_sum by done; apply Nat.le_0_1.
  - by intros h ?%elem_of_nil.
  - by intros h _ [?%elem_of_nil|?%elem_of_nil].
  - intros h. change (sum_list_with (writes h) (LTop :: replicate n Idle) <= 1)%nat. rewrite start_sum by done. lia.
  - intros q pc [[_ ->]|[_ ->]]%start_procs; done.
Qed.
Lemma start_held x n : held_update x (LTop :: replicate n Idle) = 0.
Proof. simpl. induction n; simpl; lia. Qed.
Lemma pair_start b optb optc n : pair win b (xylem_mux_create b optb n) (xylem_mux_create (negb b) optc n).
Proof.
  split; try done.
  - intros _. exists []. split; [done|]. intros _. change ([] = (LTop :: replicate n Idle) ≫= lack). symmetry. apply bind_none. intros q pc [[_ ->]|[_ ->]]%start_procs; done.
  - by intros hdr [|[? ?]].
  - intros x _. by exists [].
  - intros x. change (procs (xylem_mux_create (negb b) optc n)) with (LTop :: replicate n Idle). by rewrite start_held.
  - intros x. pose proof (Hwin b). pose proof (Hwin (negb b)). unfold extra. simpl. case_match; lia.
  - intros x _ _ _ _ _. simpl. auto.
  - by intros x ?%elem_of_nil.
Qed.

Lemma mux_start_inv optc opts n : win false = mux_window optc -> win true = mux_window opts -> mux_inv (mux_start optc opts n).
Proof.
  intros Hc Hs. split.
  - split; [apply mem_start..|by apply local_start|by apply local_start|apply (pair_start false)|apply (pair_start true)].
  - intros b. split; [by destruct b|]. split; [|split; destruct b; first [apply park_start|apply handles_start]]. unfold opens_ok. destruct b; (change (procs _) with (LTop :: replicate n Idle)); rewrite start_sum by done; done.
Qed.
(** ** Coroutines that have been woken go on *)

Definition resumed (pc : mux_pc) : mux_pc := match pc with RdParked h len => Rd h len | WrParked h rest => Wr h rest | pc => pc end.

Lemma inv_run ls s s' : Forall (fun l => forall s, refused l s = false) ls -> mux_inv s -> run mux_step ls s = Some s' -> mux_inv s'.
Proof.
  intros Hls. revert s. induction Hls as [|l ls Hl _ IH]; intros s Hi; simpl; [by intros [= <-]|].
  destruct (mux_step l s) as [s1|] eqn:E; [|done]. simpl. apply IH. apply (mux_step_inv l s s1 Hi). unfold mux_step_granted. by rewrite Hl.
Qed.
Lemma end_set b me peer : end_of b (set_ends b me peer) = me /\ end_of (negb b) (set_ends b me peer) = peer.
Proof. by destruct b. Qed.

(** A coroutine that nobody has to make ready any more goes on. *)
Lemma goes_on b s p pc : mux_inv s -> procs (end_of b s) !! p = Some pc -> pmode pc = Sleeping -> p ∉ due_of (end_of b s) ->
  exists s', mux_step (Go b p yes) s = Some s' /\ procs (end_of b s') !! p = Some (resumed pc).
Proof.
  intros Hi Hp Hs Hd. pose proof (c_mem _ _ _ _ (inv_ends b s Hi)) as Hm. destruct Hi as [_ Hi]. destruct (Hi b) as (_ & _ & Hk & _). set (me := end_of b s) in *.
  assert (freed me = false) as Hf by (destruct (freed me) eqn:E; [|done]; pose proof (m_freed _ Hm _ _ E Hp); by destruct pc).
  assert (next_detached p (detached me) = None) as Hn.
  { destruct (next_detached p (detached me)) as [[co l]|] eqn:E; [|done]. apply next_detached_some in E.
    destruct (k_waker _ Hk p co) as (pc' & Hpc & Hw); [rewrite E; set_solver|]. rewrite Hp in Hpc. injection Hpc as <-. by destruct pc. }
  destruct (resume p (coros me)) as [w|] eqn:Er.
  2: { apply (parked_enabled _ _ _ p (k_parked _ Hk)) in Er; [done|]. rewrite list_lookup_fmap, Hp. by simpl; rewrite Hs. }
  exists (set_ends b (at_pc p (resumed pc) (set_coros w me)) (end_of (negb b) s)). pose proof (lookup_lt_Some _ _ _ Hp) as Hlt. split.
  - unfold mux_step. fold me. rewrite Hp. cbn [mbind option_bind]. rewrite Hn, Hf. cbn [andb]. by destruct pc; try done; simpl; rewrite Er.
  - rewrite (proj1 (end_set _ _ _)). proj. by rewrite list_lookup_insert_eq.
Qed.

(** A coroutine makes the waiters ready that it has detached. *)
Lemma drains b n : forall s p q pc, mux_inv s -> length (detached (end_of b s)) = n -> (q, p) ∈ detached (end_of b s) -> procs (end_of b s) !! p = Some pc ->
  exists k s', (k <= n)%nat /\ run mux_step (replicate k (Go b q yes)) s = Some s' /\ mux_inv s' /\ procs (end_of b s') !! p = Some pc /\ p ∉ due_of (end_of b s').
Proof.
  induction n as [|n IH]; intros s p q pc Hi Hlen Hin Hp; [by apply length_zero_iff_nil in Hlen; rewrite Hlen in Hin; apply elem_of_nil in Hin|].
  destruct (next_detached q (detached (end_of b s))) as [[co l]|] eqn:Hn; [|by apply next_detached_none with (co := p) in Hn].
  pose proof (next_detached_some _ _ _ _ Hn) as Hd. destruct (proj2 Hi b) as (_ & _ & Hk & _). destruct (k_waker _ Hk q p Hin) as (pcq & Hq & _).
  destruct (ready_inv b s q pcq co l Hi Hq Hn) as (w & Hs & Hi1 & Hdue). set (s1 := set_ends b _ _) in *.
  assert (end_of b s1 = set_coros w (set_detached l (end_of b s))) as E1 by apply end_set.
  assert (procs (end_of b s1) !! p = Some pc) as Hp1 by (by rewrite E1).
  destruct (decide (p = co)) as [->|Hne].
  - exists 1%nat, s1. split_and!; [lia|cbn [replicate run]; by rewrite Hs|done|done|]. rewrite E1. intros Hx.
    pose proof (due_once _ _ _ (k_parked _ Hk)) as Hnd. rewrite Hdue in Hnd. by apply NoDup_cons in Hnd as [? _].
  - destruct (IH s1 p q pc Hi1) as (k & s' & Hk' & Hr & Hi' & Hp' & Hd'); [| |done|].
    + rewrite E1. proj. apply Permutation_length in Hd. simpl in Hd. lia.
    + rewrite E1. proj. rewrite Hd in Hin. apply elem_of_cons in Hin as [|]; [congruence|done].
    + exists (S k), s'. split_and!; [lia|cbn [replicate run]; by rewrite Hs|done..].
Qed.

(** The call that closes a stream detaches its waiters. *)
Lemma closes b s q h o : mux_inv s -> procs (end_of b s) !! q = Some (CsState h) -> heap (end_of b s) !! h = Some o ->
  exists s', mux_step (Go b q yes) s = Some s' /\ (forall p, p <> q -> procs (end_of b s') !! p = procs (end_of b s) !! p)
    /\ detached (end_of b s') = detached (end_of b s) ++ ((fun co => (q, co)) <$> waiters o).
Proof.
  intros Hi Hq Ho. pose proof (c_mem _ _ _ _ (inv_ends b s Hi)) as Hm. destruct (proj2 Hi b) as (_ & _ & Hk & _). set (me := end_of b s) in *.
  assert (freed me = false) as Hf by (destruct (freed me) eqn:E; [|done]; by pose proof (m_freed _ Hm _ _ E Hq)).
  assert (next_detached q (detached me) = None) as Hn.
  { destruct (next_detached q (detached me)) as [[co l]|] eqn:E; [|done]. apply next_detached_some in E.
    destruct (k_waker _ Hk q co) as (pc' & Hpc & Hw); [rewrite E; set_solver|]. rewrite Hq in Hpc. by injection Hpc as <-. }
  destruct (held_alive me h Hm) as (o' & Ho' & Hr); [eapply pins_held; [done|]; cbn; rewrite one_eq; lia|]. rewrite Ho in Ho'. injection Ho' as <-.
  eexists. split; [unfold mux_step; fold me; rewrite Hq; cbn [mbind option_bind]; rewrite Hn, Hf; simpl; unfold on_stream; rewrite Ho, Hr; reflexivity|].
  rewrite (proj1 (end_set _ _ _)). split; [intros p Hne; proj; by rewrite list_lookup_insert_ne|exact (detach_all q o (put h _ me))].
Qed.

(** The steps of one other coroutine, at most, are needed to resume a coroutine that some
    coroutine has detached or is about to detach. *)
Lemma wakeup b s p pc : mux_inv s -> procs (end_of b s) !! p = Some pc -> pmode pc = Sleeping ->
  (forall h o, heap (end_of b s) !! h = Some o -> p ∈ waiters o -> closing h (procs (end_of b s))) ->
  exists q k s', (k <= length (detached (end_of b s)) + 3)%nat /\ run mux_step (replicate k (Go b q yes) ++ [Go b p yes]) s = Some s'
    /\ procs (end_of b s') !! p = Some (resumed pc).
Proof.
  intros Hi Hp Hs Hcl.
  assert (forall s1 q k, mux_inv s1 -> run mux_step (replicate k (Go b q yes)) s = Some s1 -> procs (end_of b s1) !! p = Some pc -> p ∉ due_of (end_of b s1) ->
    exists s', run mux_step (replicate k (Go b q yes) ++ [Go b p yes]) s = Some s' /\ procs (end_of b s') !! p = Some (resumed pc)) as Hend.
  { intros s1 q k Hi1 Hr Hp1 Hd1. destruct (goes_on b s1 p pc Hi1 Hp1 Hs Hd1) as (s' & Hg & Hp'). exists s'. split; [|done]. rewrite run_app, Hr. cbn [run mbind option_bind]. by rewrite Hg. }
  destruct (decide (p ∈ due_of (end_of b s))) as [Hin|Hin].
  2: { exists p, 0%nat. destruct (Hend s p 0%nat Hi eq_refl Hp Hin) as (s' & H1 & H2). exists s'. split_and!; [lia|done|done]. }
  apply elem_of_app in Hin as [Hin|Hin].
  - apply list_elem_of_bind in Hin as (o & Hw & [h Ho]%list_elem_of_lookup). destruct (Hcl h o Ho Hw) as [q Hq].
    destruct (closes b s q h o Hi Hq Ho) as (s1 & Hs1 & Hpr & Hdet).
    assert (p <> q) as Hne by (intros ->; rewrite Hp in Hq; by injection Hq as ->).
    assert (mux_inv s1) as Hi1 by (apply (inv_run [Go b q yes] s); [by repeat constructor|done|by cbn [run]; rewrite Hs1]).
    assert (length (waiters o) <= 2)%nat as Hlen by (unfold waiters; destruct (recv_waiter o), (send_waiter o); simpl; lia).
    destruct (drains b (length (detached (end_of b s1))) s1 p q pc Hi1 eq_refl) as (k & s2 & Hk & Hr & Hi2 & Hp2 & Hd2).
    + rewrite Hdet. apply elem_of_app. right. apply list_elem_of_fmap. by exists p.
    + by rewrite Hpr.
    + destruct (Hend s2 q (S k) Hi2) as (s' & H1 & H2); [cbn [replicate run]; by rewrite Hs1|done|done|]. exists q, (S k), s'. split_and!; [|done|done].
      rewrite Hdet, length_app, length_fmap in Hk. lia.
  - apply list_elem_of_fmap in Hin as ([q co] & E & Hin). simpl in E. subst co.
    destruct (drains b _ s p q pc Hi eq_refl Hin Hp) as (k & s1 & Hk & Hr & Hi1 & Hp1 & Hd1). destruct (Hend s1 q k Hi1 Hr Hp1 Hd1) as (s' & H1 & H2).
    exists q, k, s'. split_and!; [lia|done|done].
Qed.
End system.

(** Client and server windows. *)
Definition windows (optc opts : option Z) (b : bool) : Z := mux_window (if b then opts else optc).
Lemma windows_pos optc opts b : 0 < windows optc opts b.
Proof. unfold windows, mux_window, MUX_DEFAULT_WINDOW. repeat case_match; lia. Qed.

Lemma reachable_inv optc opts n s : mux_window optc + mux_window opts < 2 ^ 31 -> reachable mux_step_granted (mux_start optc opts n) s -> mux_inv (windows optc opts) s.
Proof.
  intros Hw Hr. pose proof (windows_pos optc opts) as Hpos.
  eapply (reachable_invariant mux_step_granted); [by apply mux_start_inv| |done]. intros l s1 s2. by apply mux_step_inv.
Qed.



(** C18: No wake-up is lost.  A coroutine goes on after parking only when the scheduler has
    made it ready, which happens when another coroutine has taken it off its stream and then
    calls [scheduler_coro_ready].  In every reachable state, if a coroutine is parked in a
    read although its stream has data, or has been closed by either end or reset, then at
    most some steps of one other coroutine, which can all be made at once, and one of its own
    resume it; and so for a coroutine parked in a write although the window is open or the
    stream has been closed or reset.  [scheduler_coro_ready] is only called for a coroutine
    that waits. *)
Theorem mux_no_lost_wakeup optc opts n s :
  mux_window optc + mux_window opts < 2 ^ 31 -> reachable mux_step_granted (mux_start optc opts n) s ->
  forall b, let me := end_of b s in
  let resumes p pc := exists q k s', (k <= length (detached me) + 3)%nat /\ run mux_step (replicate k (Go b q yes) ++ [Go b p yes]) s = Some s'
                        /\ procs (end_of b s') !! p = Some pc in
  (forall p h o len, heap me !! h = Some o -> procs me !! p = Some (RdParked h len) ->
     recv_buf o <> [] \/ state o = MUX_STREAM_REMOTE_CLOSE \/ state o = MUX_STREAM_CLOSED \/ closed o = true -> resumes p (Rd h len))
  /\ (forall p h o rest, heap me !! h = Some o -> procs me !! p = Some (WrParked h rest) ->
     0 < send_window o \/ state o = MUX_STREAM_CLOSED \/ closed o = true -> resumes p (Wr h rest))
  /\ (forall q co, (q, co) ∈ detached me -> in_phase (coros me) co Published).
Proof.
  intros Hw Hr b me resumes. pose proof (reachable_inv _ _ _ _ Hw Hr) as Hi. destruct (proj2 Hi b) as (_ & _ & Hk & _). fold me in Hk.
  pose proof (windows_pos optc opts) as Hpos.
  assert (forall g og p, heap me !! g = Some og -> p ∈ waiters og -> recv_waiter og = Some p \/ send_waiter og = Some p) as Hwt.
  { intros g og p _. unfold waiters. destruct (recv_waiter og), (send_waiter og); simpl; set_solver. }
  split_and!.
  - intros p h o len Ho Hp Hor. apply (wakeup (windows optc opts) Hpos Hw b s p _ Hi Hp eq_refl). intros g og Hg Hin.
    destruct (k_wait _ Hk _ _ Hg) as [Hwr Hws _]. destruct (Hwt g og p Hg Hin) as [E|E].
    + destruct (Hwr p E) as ([l Hl] & H1 & H2 & H3 & H4). fold me in Hp. rewrite Hp in Hl. injection Hl as -> _. fold me in Hg. rewrite Ho in Hg. injection Hg as <-. naive_solver.
    + destruct (Hws p E) as ([l Hl] & _). fold me in Hp. congruence.
  - intros p h o rest Ho Hp Hor. apply (wakeup (windows optc opts) Hpos Hw b s p _ Hi Hp eq_refl). intros g og Hg Hin.
    destruct (k_wait _ Hk _ _ Hg) as [Hwr Hws _]. destruct (Hwt g og p Hg Hin) as [E|E].
    + destruct (Hwr p E) as ([l Hl] & _). fold me in Hp. congruence.
    + destruct (Hws p E) as ([l Hl] & H1 & H2 & H3). fold me in Hp. rewrite Hp in Hl. injection Hl as -> _. fold me in Hg. rewrite Ho in Hg. injection Hg as <-. naive_solver lia.
  - intros q co Hin. apply (due_sleeps _ _ _ (k_parked _ Hk)). apply elem_of_app. right. apply list_elem_of_fmap. by exists (q, co).
Qed.

(** The server parks in a read before the client writes; its reader has taken it off the
    stream and has not made it ready yet. *)
Definition mux_park_demo : list mux_label :=
  Call false 1 COpen :: replicate 5 (Go false 1 yes) ++ Call true 1 CAccept :: Go true 1 yes :: replicate 7 (Go true 0 yes)
  ++ Go true 1 yes :: Call true 1 (CRead 0 2) :: replicate 3 (Go true 1 yes) ++ Call false 1 (CWrite 0 [7; 8; 9]) :: replicate 5 (Go false 1 yes) ++ replicate 6 (Go true 0 yes).
Lemma mux_no_lost_wakeup_witness : exists s, run mux_step_granted mux_park_demo (mux_start (Some 8) (Some 8) 1) = Some s
  /\ procs (server s) !! 1%nat = Some (RdParked 0 2) /\ detached (server s) = [(0, 1)]%nat /\ mux_step (Go true 1 yes) s = None
  /\ exists q k s', (k <= 4)%nat /\ run mux_step (replicate k (Go true q yes) ++ [Go true 1 yes]) s = Some s'
       /\ procs (server s') !! 1%nat = Some (Rd 0 2).
Proof.
  assert (mux_window (Some 8) + mux_window (Some 8) < 2 ^ 31) as Hw by done.
  assert (forall s o, run mux_step_granted mux_park_demo (mux_start (Some 8) (Some 8) 1) = Some s -> heap (server s) !! 0%nat = Some o ->
    procs (server s) !! 1%nat = Some (RdParked 0 2) -> recv_buf o <> [] -> length (detached (server s)) = 1%nat ->
    exists q k s', (k <= 4)%nat /\ run mux_step (replicate k (Go true q yes) ++ [Go true 1 yes]) s = Some s' /\ procs (server s') !! 1%nat = Some (Rd 0 2)) as H.
  { intros s o Hr Ho Hp Hb Hd. destruct (mux_no_lost_wakeup (Some 8) (Some 8) 1 s Hw (ex_intro _ mux_park_demo Hr) true) as (Hx & _).
    cbn [end_of] in Hx. rewrite Hd in Hx. apply (Hx 1%nat 0%nat o 2 Ho Hp). by left. }
  eexists. split; [vm_compute; reflexivity|]. split; [reflexivity|]. split; [reflexivity|]. split; [vm_compute; reflexivity|].
  eapply H; [vm_compute; reflexivity|reflexivity|reflexivity|done|reflexivity].
Defined.
