(* ===== verification/KcpCodec.v ===== *)
(** * KCP segments (src/net/rudp/kcp/ikcp.c, ikcp.h)

    The segment object, its 24-byte header with encoder and decoder, and the arithmetic
    of sequence numbers and time stamps on 32 bits.  The byte order of the header is
    least significant byte first, on every platform. *)

From S2P Require Import Prelude.

Notation IKCP_RTO_NDL := 30.
Notation IKCP_RTO_MIN := 100.
Notation IKCP_RTO_DEF := 200.
Notation IKCP_RTO_MAX := 60000.
Notation IKCP_CMD_PUSH := 81.
Notation IKCP_CMD_ACK := 82.
Notation IKCP_CMD_WASK := 83.
Notation IKCP_CMD_WINS := 84.
Notation IKCP_ASK_SEND := 1.
Notation IKCP_ASK_TELL := 2.
Notation IKCP_WND_SND := 32.
Notation IKCP_WND_RCV := 128.
Notation IKCP_MTU_DEF := 1400.
Notation IKCP_INTERVAL := 100.
Notation IKCP_OVERHEAD := 24.
Notation IKCP_DEADLINK := 20.
Notation IKCP_THRESH_INIT := 2.
Notation IKCP_THRESH_MIN := 2.
Notation IKCP_PROBE_INIT := 7000.
Notation IKCP_PROBE_LIMIT := 120000.
Notation IKCP_FASTACK_LIMIT := 5.

Definition _imin_ (a b : Z) : Z := if a <=? b then a else b.
Definition _imax_ (a b : Z) : Z := if b <=? a then a else b.
Definition _ibound_ (lower middle upper : Z) : Z := _imin_ (_imax_ lower middle) upper.
Definition _itimediff (later earlier : Z) : Z := i32 (later - earlier).

(** ** Segments

    [len] is the length of [data]. *)

Record IKCPSEG := Seg {
  seg_conv : Z; cmd : Z; frg : Z; wnd : Z; ts : Z; sn : Z; una : Z; resendts : Z; rto : Z; fastack : Z; seg_xmit : Z; data : list Z }.
Notation len s := (Z.of_nat (length (data s))).

Definition ikcp_encode8u (c : Z) : list Z := [c].
Definition ikcp_encode16u (w : Z) : list Z := [Z.land w 255; Z.shiftr w 8].
Definition ikcp_encode32u (l : Z) : list Z :=
  [u8 (Z.land (Z.shiftr l 0) 255); u8 (Z.land (Z.shiftr l 8) 255); u8 (Z.land (Z.shiftr l 16) 255); u8 (Z.land (Z.shiftr l 24) 255)].

(** The decoders return the value and the bytes behind it, [None] past the end. *)
Definition ikcp_decode8u (p : list Z) : option (Z * list Z) := match p with c :: p => Some (c, p) | [] => None end.
Definition ikcp_decode16u (p : list Z) : option (Z * list Z) :=
  match p with b0 :: b1 :: p => Some (u16 (b0 + Z.shiftl b1 8), p) | _ => None end.
Definition ikcp_decode32u (p : list Z) : option (Z * list Z) :=
  match p with
  | b0 :: b1 :: b2 :: b3 :: p =>
      let l := b3 in
      let l := u32 (b2 + u32 (Z.shiftl l 8)) in
      let l := u32 (b1 + u32 (Z.shiftl l 8)) in
      Some (u32 (b0 + u32 (Z.shiftl l 8)), p)
  | _ => None
  end.

Definition ikcp_encode_seg (seg : IKCPSEG) : list Z :=
  ikcp_encode32u (seg_conv seg) ++ ikcp_encode8u (u8 (cmd seg)) ++ ikcp_encode8u (u8 (frg seg)) ++ ikcp_encode16u (u16 (wnd seg))
  ++ ikcp_encode32u (ts seg) ++ ikcp_encode32u (sn seg) ++ ikcp_encode32u (una seg) ++ ikcp_encode32u (len seg).

(** The header at the front of a datagram, in [ikcp_input], without the payload. *)
Record header := Header { h_conv : Z; h_cmd : Z; h_frg : Z; h_wnd : Z; h_ts : Z; h_sn : Z; h_una : Z; h_len : Z }.
Definition decode_header (p : list Z) : option (header * list Z) :=
  '(conv, p) ← ikcp_decode32u p; '(c, p) ← ikcp_decode8u p; '(f, p) ← ikcp_decode8u p; '(w, p) ← ikcp_decode16u p;
  '(t, p) ← ikcp_decode32u p; '(s, p) ← ikcp_decode32u p; '(u, p) ← ikcp_decode32u p; '(l, p) ← ikcp_decode32u p;
  Some (Header conv c f w t s u l, p).

Definition ikcp_getconv (p : list Z) : option Z := fst <$> ikcp_decode32u p.

(** ** The decoder inverts the encoder *)

Lemma decode32_encode32 l p : ubound 32 l -> ikcp_decode32u (ikcp_encode32u l ++ p) = Some (l, p).
Proof.
  intros Hl. unfold ikcp_decode32u, ikcp_encode32u. cbn [app]. do 2 f_equal. rewrite !land_0xff, !Z.shiftr_div_pow2, !Z.shiftl_mul_pow2 by lia.
  unfold uwrap, ubound in *. change (2 ^ 0) with 1. rewrite Z.div_1_r. Z.to_euclidean_division_equations. lia.
Qed.
Lemma decode16_encode16 w p : ubound 16 w -> ikcp_decode16u (ikcp_encode16u w ++ p) = Some (w, p).
Proof.
  intros Hl. unfold ikcp_decode16u, ikcp_encode16u. cbn [app]. do 2 f_equal. rewrite land_0xff, Z.shiftr_div_pow2, Z.shiftl_mul_pow2 by lia.
  unfold uwrap, ubound in *. Z.to_euclidean_division_equations. lia.
Qed.

(** What fits the fields of a header; the window is cut to 16 bits. *)
Definition seg_ok (s : IKCPSEG) : Prop :=
  ubound 32 (seg_conv s) /\ byte (cmd s) /\ byte (frg s) /\ ubound 32 (ts s) /\ ubound 32 (sn s) /\ ubound 32 (una s) /\ ubound 32 (len s).
Definition header_of (s : IKCPSEG) : header := Header (seg_conv s) (cmd s) (frg s) (u16 (wnd s)) (ts s) (sn s) (una s) (len s).

Lemma decode_encode_seg s p : seg_ok s -> decode_header (ikcp_encode_seg s ++ p) = Some (header_of s, p).
Proof.
  intros (H1 & H2 & H3 & H5 & H6 & H7 & H8). unfold decode_header, ikcp_encode_seg. unfold byte in *. rewrite !(uwrap_small 8) by (unfold ubound in *; lia).
  rewrite <-!app_assoc, decode32_encode32 by done. cbn [mbind option_bind ikcp_encode8u app ikcp_decode8u].
  rewrite decode16_encode16 by by apply uwrap_bound. cbn [mbind option_bind]. rewrite decode32_encode32 by done. cbn [mbind option_bind].
  rewrite decode32_encode32 by done. cbn [mbind option_bind]. rewrite decode32_encode32 by done. cbn [mbind option_bind]. by rewrite decode32_encode32.
Qed.
Lemma encode_seg_length s : length (ikcp_encode_seg s) = 24%nat.
Proof. done. Qed.
