(* ===== verification/Kcp.v ===== *)
(** * The KCP protocol engine (src/net/rudp/kcp/ikcp.c, ikcp.h)

    One control block with every operation on it.  The four queues of segments are lists,
    front first; [acklist] holds its first [ackcount] entries, [buffer] the number of bytes
    of the output buffer.  Operations that hand datagrams to the output callback return
    them in order; [None] is a write past the end of the output buffer.  The callback's
    result is not used by the engine, logging is off, and allocations succeed. *)

From S2P Require Import Prelude KcpCodec.

(** Updates of single fields of a record. *)
Class Update {R T : Type} (p : R -> T) := { update : (T -> T) -> R -> R }.
Arguments update {R T} p {_} _ _ /.
Ltac solve_update eta :=
  lazymatch goal with |- Update ?p =>
    let e := eval unfold eta in eta in
    lazymatch eval pattern p in e with ?g _ => let h := eval cbv beta in (fun f r => g (fun r => f (p r)) r) in exact {| update := h |} end
  end.
Notation "r <| p := v |>" := (update p (fun _ => v) r) (at level 1, left associativity, format "r  <|  p  :=  v  |>").

Record IKCPCB := Kcb {
  conv : Z; mtu : Z; mss : Z; state : Z;
  snd_una : Z; snd_nxt : Z; rcv_nxt : Z;
  ssthresh : Z; rx_rttval : Z; rx_srtt : Z; rx_rto : Z; rx_minrto : Z;
  snd_wnd : Z; rcv_wnd : Z; rmt_wnd : Z; cwnd : Z; probe : Z;
  current : Z; interval : Z; ts_flush : Z; xmit : Z;
  nrcv_buf : Z; nsnd_buf : Z; nrcv_que : Z; nsnd_que : Z;
  nodelay : Z; updated : Z; ts_probe : Z; probe_wait : Z; dead_link : Z; incr : Z;
  snd_queue : list IKCPSEG; rcv_queue : list IKCPSEG; snd_buf : list IKCPSEG; rcv_buf : list IKCPSEG;
  acklist : list (Z * Z); ackcount : Z; ackblock : Z; buffer : Z;
  fastresend : Z; fastlimit : Z; nocwnd : Z; stream : Z }.

Definition kcb_eta (k : IKCPCB) : IKCPCB :=
  Kcb (conv k) (mtu k) (mss k) (state k) (snd_una k) (snd_nxt k) (rcv_nxt k) (ssthresh k) (rx_rttval k) (rx_srtt k) (rx_rto k) (rx_minrto k)
    (snd_wnd k) (rcv_wnd k) (rmt_wnd k) (cwnd k) (probe k) (current k) (interval k) (ts_flush k) (xmit k) (nrcv_buf k) (nsnd_buf k) (nrcv_que k) (nsnd_que k)
    (nodelay k) (updated k) (ts_probe k) (probe_wait k) (dead_link k) (incr k) (snd_queue k) (rcv_queue k) (snd_buf k) (rcv_buf k)
    (acklist k) (ackcount k) (ackblock k) (buffer k) (fastresend k) (fastlimit k) (nocwnd k) (stream k).
Definition seg_eta (s : IKCPSEG) : IKCPSEG :=
  Seg (seg_conv s) (cmd s) (frg s) (wnd s) (ts s) (sn s) (una s) (resendts s) (rto s) (fastack s) (seg_xmit s) (data s).
#[export] Hint Extern 1 (@Update IKCPCB _ _) => solve_update kcb_eta : typeclass_instances.
#[export] Hint Extern 1 (@Update IKCPSEG _ _) => solve_update seg_eta : typeclass_instances.

Definition ikcp_create (conv : Z) : IKCPCB :=
  Kcb conv IKCP_MTU_DEF (IKCP_MTU_DEF - IKCP_OVERHEAD) 0 0 0 0 IKCP_THRESH_INIT 0 0 IKCP_RTO_DEF IKCP_RTO_MIN
    IKCP_WND_SND IKCP_WND_RCV IKCP_WND_RCV 0 0 0 IKCP_INTERVAL IKCP_INTERVAL 0 0 0 0 0 0 0 0 0 IKCP_DEADLINK 0
    [] [] [] [] [] 0 0 ((IKCP_MTU_DEF + IKCP_OVERHEAD) * 3) 0 IKCP_FASTACK_LIMIT 0 0.

(** ** Receiving by the user *)

Fixpoint peek_length (q : list IKCPSEG) : Z :=
  match q with [] => 0 | seg :: q => len seg + (if frg seg =? 0 then 0 else peek_length q) end.
Definition ikcp_peeksize (k : IKCPCB) : Z :=
  match rcv_queue k with
  | [] => -1
  | seg :: _ => if frg seg =? 0 then len seg else if nrcv_que k <? u32 (frg seg + 1) then -1 else peek_length (rcv_queue k)
  end.

(** The segments of the first message, and the rest. *)
Fixpoint merge (q : list IKCPSEG) : list IKCPSEG * list IKCPSEG :=
  match q with
  | [] => ([], [])
  | seg :: q => if frg seg =? 0 then ([seg], q) else let '(m, r) := merge q in (seg :: m, r)
  end.

(** Available data moves from [rcv_buf] to [rcv_queue]. *)
Fixpoint move_ready (buf : list IKCPSEG) (k : IKCPCB) : IKCPCB :=
  match buf with
  | [] => k
  | seg :: buf =>
      if (sn seg =? rcv_nxt k) && (nrcv_que k <? rcv_wnd k) then
        move_ready buf (k <| rcv_buf := buf |> <| nrcv_buf := u32 (nrcv_buf k - 1) |> <| rcv_queue := rcv_queue k ++ [seg] |>
                          <| nrcv_que := u32 (nrcv_que k + 1) |> <| rcv_nxt := u32 (rcv_nxt k + 1) |>)
      else k
  end.

(** The code, the bytes copied and the control block; [len] below zero asks for a look only. *)
Definition ikcp_recv (len : Z) (k : IKCPCB) : Z * list Z * IKCPCB :=
  let ispeek := len <? 0 in
  match rcv_queue k with
  | [] => (-1, [], k)
  | _ =>
      let len := if len <? 0 then - len else len in
      let peeksize := ikcp_peeksize k in
      if peeksize <? 0 then (-2, [], k)
      else if len <? peeksize then (-3, [], k)
      else
        let recover := rcv_wnd k <=? nrcv_que k in
        let '(m, rest) := merge (rcv_queue k) in
        let bytes := m ≫= data in
        let k := if ispeek then k else k <| rcv_queue := rest |> <| nrcv_que := u32 (nrcv_que k - Z.of_nat (length m)) |> in
        let k := move_ready (rcv_buf k) k in
        let k := if (nrcv_que k <? rcv_wnd k) && recover then k <| probe := Z.lor (probe k) IKCP_ASK_TELL |> else k in
        (Z.of_nat (length bytes), bytes, k)
  end.

(** ** Sending by the user *)

Definition new_seg (f : Z) (bytes : list Z) : IKCPSEG := Seg 0 0 f 0 0 0 0 0 0 0 0 bytes.

(** The loop over [n] fragments; in streaming mode none is marked. *)
Fixpoint fragments (mss : Z) (streaming : bool) (n : nat) (bytes : list Z) : list IKCPSEG :=
  match n with
  | O => []
  | S n => new_seg (if streaming then 0 else Z.of_nat n) (take (Z.to_nat mss) bytes) :: fragments mss streaming n (drop (Z.to_nat mss) bytes)
  end.

(** Streaming mode: what fits is appended to the last segment of [snd_queue].  The bytes
    appended, those left and the control block. *)
Definition extend_last (bytes : list Z) (k : IKCPCB) : Z * list Z * IKCPCB :=
  match rev (snd_queue k) with
  | old :: before =>
      if len old <? mss k then
        let capacity := i32 (mss k - len old) in
        let extend := if Z.of_nat (length bytes) <? capacity then Z.of_nat (length bytes) else capacity in
        let seg := new_seg 0 (data old ++ take (Z.to_nat extend) bytes) in
        (extend, drop (Z.to_nat extend) bytes, k <| snd_queue := rev before ++ [seg] |>)
      else (0, bytes, k)
  | [] => (0, bytes, k)
  end.
Definition fragment_count (len : Z) (k : IKCPCB) : Z := if len <=? i32 (mss k) then 1 else i32 (u32 (u32 (len + mss k) - 1) / mss k).

Definition ikcp_send (bytes : list Z) (len : Z) (k : IKCPCB) : Z * IKCPCB :=
  if len <? 0 then (-1, k)
  else
    let bytes := take (Z.to_nat len) bytes in
    let streaming := negb (stream k =? 0) in
    let '(sent, bytes, k) := if streaming then extend_last bytes k else (0, bytes, k) in
    let len := Z.of_nat (length bytes) in
    if streaming && (len <=? 0) then (sent, k)
    else
      let count := fragment_count len k in
      if IKCP_WND_RCV <=? count then ((if streaming && (0 <? sent) then sent else -2), k)
      else
        let count := if count =? 0 then 1 else count in
        let segs := fragments (mss k) streaming (Z.to_nat count) bytes in
        (sent + Z.of_nat (length (segs ≫= data)), k <| snd_queue := snd_queue k ++ segs |> <| nsnd_que := u32 (nsnd_que k + count) |>).

(** ** Acknowledgements *)

Definition ikcp_update_ack (rtt : Z) (k : IKCPCB) : IKCPCB :=
  let k :=
    if rx_srtt k =? 0 then k <| rx_srtt := rtt |> <| rx_rttval := Z.quot rtt 2 |>
    else
      let delta := Z.abs (i32 (rtt - rx_srtt k)) in
      let srtt := Z.quot (i32 (i32 (7 * rx_srtt k) + rtt)) 8 in
      k <| rx_rttval := i32 (Z.quot (i32 (3 * rx_rttval k) + delta) 4) |> <| rx_srtt := if srtt <? 1 then 1 else srtt |> in
  let rto := i32 (u32 (rx_srtt k + _imax_ (interval k) (u32 (4 * rx_rttval k)))) in
  k <| rx_rto := i32 (_ibound_ (u32 (rx_minrto k)) (u32 rto) IKCP_RTO_MAX) |>.

Definition ikcp_shrink_buf (k : IKCPCB) : IKCPCB :=
  k <| snd_una := match snd_buf k with seg :: _ => sn seg | [] => snd_nxt k end |>.

Definition outside (s : Z) (k : IKCPCB) : bool := (_itimediff s (snd_una k) <? 0) || (0 <=? _itimediff s (snd_nxt k)).

Fixpoint remove_sn (s : Z) (buf : list IKCPSEG) : list IKCPSEG :=
  match buf with
  | [] => []
  | seg :: rest => if s =? sn seg then rest else if _itimediff s (sn seg) <? 0 then buf else seg :: remove_sn s rest
  end.
(** The counters go down with every segment removed. *)
Definition set_snd_buf (buf : list IKCPSEG) (k : IKCPCB) : IKCPCB :=
  k <| nsnd_buf := u32 (nsnd_buf k - Z.of_nat (length (snd_buf k) - length buf)) |> <| snd_buf := buf |>.
Definition ikcp_parse_ack (s : Z) (k : IKCPCB) : IKCPCB := if outside s k then k else set_snd_buf (remove_sn s (snd_buf k)) k.

Fixpoint remove_below (u : Z) (buf : list IKCPSEG) : list IKCPSEG :=
  match buf with [] => [] | seg :: rest => if 0 <? _itimediff u (sn seg) then remove_below u rest else buf end.
Definition ikcp_parse_una (u : Z) (k : IKCPCB) : IKCPCB := set_snd_buf (remove_below u (snd_buf k)) k.

(** IKCP_FASTACK_CONSERVE is defined. *)
Fixpoint count_fastack (s t : Z) (buf : list IKCPSEG) : list IKCPSEG :=
  match buf with
  | [] => []
  | seg :: rest =>
      if _itimediff s (sn seg) <? 0 then buf
      else (if negb (s =? sn seg) && (0 <=? _itimediff t (ts seg)) then seg <| fastack := u32 (fastack seg + 1) |> else seg) :: count_fastack s t rest
  end.
Definition ikcp_parse_fastack (s t : Z) (k : IKCPCB) : IKCPCB := if outside s k then k else k <| snd_buf := count_fastack s t (snd_buf k) |>.

(** The least power of two from [block] on that is not below [size]. *)
Fixpoint ack_block (fuel : nat) (block size : Z) : Z :=
  match fuel with O => block | S fuel => if block <? size then ack_block fuel (u32 (Z.shiftl block 1)) size else block end.
Definition ikcp_ack_push (s t : Z) (k : IKCPCB) : IKCPCB :=
  let newsize := u32 (ackcount k + 1) in
  let k := if ackblock k <? newsize then k <| ackblock := ack_block 32 8 newsize |> else k in
  k <| acklist := acklist k ++ [(s, t)] |> <| ackcount := u32 (ackcount k + 1) |>.

(** ** Data segments *)

(** Insertion from the back; a segment that is there already is not inserted. *)
Fixpoint insert_back (new : IKCPSEG) (rbuf : list IKCPSEG) : option (list IKCPSEG) :=
  match rbuf with
  | [] => Some [new]
  | seg :: rest =>
      if sn seg =? sn new then None
      else if 0 <? _itimediff (sn new) (sn seg) then Some (new :: rbuf)
      else cons seg <$> insert_back new rest
  end.
Definition ikcp_parse_data (new : IKCPSEG) (k : IKCPCB) : IKCPCB :=
  if (0 <=? _itimediff (sn new) (u32 (rcv_nxt k + rcv_wnd k))) || (_itimediff (sn new) (rcv_nxt k) <? 0) then k
  else
    let k := match insert_back new (rev (rcv_buf k)) with
             | Some rbuf => k <| rcv_buf := rev rbuf |> <| nrcv_buf := u32 (nrcv_buf k + 1) |>
             | None => k
             end in
    move_ready (rcv_buf k) k.

(** ** Input *)

(** The newest acknowledgement of a datagram and its time stamp. *)
Definition newest (acc : option (Z * Z)) (s t : Z) : option (Z * Z) :=
  match acc with
  | None => Some (s, t)
  | Some (maxack, latest_ts) => if (0 <? _itimediff s maxack) && (0 <? _itimediff t latest_ts) then Some (s, t) else acc
  end.

(** One segment of a datagram after the checks of its header. *)
Definition input_segment (h : header) (payload : list Z) (acc : option (Z * Z)) (k : IKCPCB) : option (Z * Z) * IKCPCB :=
  let k := ikcp_shrink_buf (ikcp_parse_una (h_una h) (k <| rmt_wnd := h_wnd h |>)) in
  if h_cmd h =? IKCP_CMD_ACK then
    let k := if 0 <=? _itimediff (current k) (h_ts h) then ikcp_update_ack (_itimediff (current k) (h_ts h)) k else k in
    (newest acc (h_sn h) (h_ts h), ikcp_shrink_buf (ikcp_parse_ack (h_sn h) k))
  else if h_cmd h =? IKCP_CMD_PUSH then
    (acc,
     if _itimediff (h_sn h) (u32 (rcv_nxt k + rcv_wnd k)) <? 0 then
       let k := ikcp_ack_push (h_sn h) (h_ts h) k in
       if 0 <=? _itimediff (h_sn h) (rcv_nxt k) then
         ikcp_parse_data (Seg (h_conv h) (h_cmd h) (h_frg h) (h_wnd h) (h_ts h) (h_sn h) (h_una h) 0 0 0 0 payload) k
       else k
     else k)
  else if h_cmd h =? IKCP_CMD_WASK then (acc, k <| probe := Z.lor (probe k) IKCP_ASK_TELL |>)
  else (acc, k).

Definition known_cmd (c : Z) : bool := (c =? IKCP_CMD_PUSH) || (c =? IKCP_CMD_ACK) || (c =? IKCP_CMD_WASK) || (c =? IKCP_CMD_WINS).

(** The loop over the segments of a datagram, with a return code where it fails. *)
Fixpoint input_loop (fuel : nat) (bytes : list Z) (acc : option (Z * Z)) (k : IKCPCB) : Z * option (Z * Z) * IKCPCB :=
  match fuel with
  | O => (0, acc, k)
  | S fuel =>
      if Z.of_nat (length bytes) <? IKCP_OVERHEAD then (0, acc, k)
      else
        match decode_header bytes with
        | None => (0, acc, k)
        | Some (h, rest) =>
            if negb (h_conv h =? conv k) then (-1, acc, k)
            else if (Z.of_nat (length rest) <? h_len h) || (i32 (h_len h) <? 0) then (-2, acc, k)
            else if negb (known_cmd (h_cmd h)) then (-3, acc, k)
            else
              let '(acc, k) := input_segment h (take (Z.to_nat (h_len h)) rest) acc k in
              input_loop fuel (drop (Z.to_nat (h_len h)) rest) acc k
        end
  end.

(** The congestion window after new acknowledgements. *)
Definition grow_cwnd (k : IKCPCB) : IKCPCB :=
  if cwnd k <? rmt_wnd k then
    let m := mss k in
    let k :=
      if cwnd k <? ssthresh k then k <| cwnd := u32 (cwnd k + 1) |> <| incr := u32 (incr k + m) |>
      else
        let k := if incr k <? m then k <| incr := m |> else k in
        let k := k <| incr := u32 (incr k + (u32 (m * m) / incr k + m / 16)) |> in
        if u32 (u32 (cwnd k + 1) * m) <=? incr k then k <| cwnd := u32 (u32 (incr k + m) - 1) / (if 0 <? m then m else 1) |> else k in
    if rmt_wnd k <? cwnd k then k <| cwnd := rmt_wnd k |> <| incr := u32 (rmt_wnd k * m) |> else k
  else k.

Definition ikcp_input (bytes : list Z) (k : IKCPCB) : Z * IKCPCB :=
  let prev_una := snd_una k in
  if Z.of_nat (length bytes) <? IKCP_OVERHEAD then (-1, k)
  else
    let '(rc, acc, k) := input_loop (length bytes) bytes None k in
    if rc <? 0 then (rc, k)
    else
      let k := match acc with Some (maxack, latest_ts) => ikcp_parse_fastack maxack latest_ts k | None => k end in
      (0, if 0 <? _itimediff (snd_una k) prev_una then grow_cwnd k else k).

(** ** Output

    The bytes between [buffer] and [ptr], and the datagrams handed to the callback. *)

Record writer := Writer { pending : list Z; sent : list (list Z) }.

Definition ikcp_output (w : writer) : writer := Writer [] (match pending w with [] => sent w | b => sent w ++ [b] end).
(** The buffer is handed over first when [need] more bytes exceed a datagram. *)
Definition reserve (need : Z) (k : IKCPCB) (w : writer) : writer := if i32 (mtu k) <? Z.of_nat (length (pending w)) + need then ikcp_output w else w.
Definition append (bytes : list Z) (k : IKCPCB) (w : writer) : option writer :=
  if Z.of_nat (length (pending w) + length bytes) <=? buffer k then Some (Writer (pending w ++ bytes) (sent w)) else None.
Definition put_header (seg : IKCPSEG) (k : IKCPCB) (w : writer) : option writer := append (ikcp_encode_seg seg) k (reserve IKCP_OVERHEAD k w).

Definition ikcp_wnd_unused (k : IKCPCB) : Z := if nrcv_que k <? rcv_wnd k then i32 (rcv_wnd k - nrcv_que k) else 0.

Fixpoint flush_acks (acks : list (Z * Z)) (seg : IKCPSEG) (k : IKCPCB) (w : writer) : option (IKCPSEG * writer) :=
  match acks with
  | [] => Some (seg, w)
  | (s, t) :: acks => let seg := seg <| sn := s |> <| ts := t |> in w ← put_header seg k w; flush_acks acks seg k w
  end.

(** The window probe, when the window of the peer is closed. *)
Definition probe_window (k : IKCPCB) : IKCPCB :=
  if rmt_wnd k =? 0 then
    if probe_wait k =? 0 then k <| probe_wait := IKCP_PROBE_INIT |> <| ts_probe := u32 (current k + IKCP_PROBE_INIT) |>
    else if 0 <=? _itimediff (current k) (ts_probe k) then
      let w := if probe_wait k <? IKCP_PROBE_INIT then IKCP_PROBE_INIT else probe_wait k in
      let w := u32 (w + w / 2) in
      let w := if IKCP_PROBE_LIMIT <? w then IKCP_PROBE_LIMIT else w in
      k <| probe_wait := w |> <| ts_probe := u32 (current k + w) |> <| probe := Z.lor (probe k) IKCP_ASK_SEND |>
    else k
  else k <| ts_probe := 0 |> <| probe_wait := 0 |>.

Definition flush_probe (ask c : Z) (seg : IKCPSEG) (k : IKCPCB) (w : writer) : option (IKCPSEG * writer) :=
  if Z.land (probe k) ask =? 0 then Some (seg, w)
  else let seg := seg <| cmd := c |> in w ← put_header seg k w; Some (seg, w).

(** Segments move from [snd_queue] to [snd_buf] while the window is open. *)
Fixpoint move_queue (que : list IKCPSEG) (cwnd w : Z) (k : IKCPCB) : IKCPCB :=
  match que with
  | [] => k
  | new :: que =>
      if _itimediff (snd_nxt k) (u32 (snd_una k + cwnd)) <? 0 then
        let new := Seg (conv k) IKCP_CMD_PUSH (frg new) w (current k) (snd_nxt k) (rcv_nxt k) (current k) (u32 (rx_rto k)) 0 0 (data new) in
        move_queue que cwnd w (k <| snd_queue := que |> <| snd_buf := snd_buf k ++ [new] |> <| nsnd_que := u32 (nsnd_que k - 1) |>
                                 <| nsnd_buf := u32 (nsnd_buf k + 1) |> <| snd_nxt := u32 (snd_nxt k + 1) |>)
      else k
  end.

(** What the loop over [snd_buf] changes beside the segments. *)
Record loop_state := Loop { l_out : writer; l_xmit : Z; l_state : Z; l_change : Z; l_lost : bool }.

(** Whether a segment is sent, and the segment with its timer set. *)
Definition need_send (resent rtomin : Z) (seg : IKCPSEG) (k : IKCPCB) (st : loop_state) : bool * IKCPSEG * loop_state :=
  if seg_xmit seg =? 0 then
    (true, seg <| seg_xmit := u32 (seg_xmit seg + 1) |> <| rto := u32 (rx_rto k) |> <| resendts := u32 (u32 (current k + u32 (rx_rto k)) + rtomin) |>, st)
  else if 0 <=? _itimediff (current k) (resendts seg) then
    let r := if nodelay k =? 0 then u32 (rto seg + _imax_ (rto seg) (u32 (rx_rto k)))
             else u32 (rto seg + Z.quot (if nodelay k <? 2 then i32 (rto seg) else rx_rto k) 2) in
    (true, seg <| seg_xmit := u32 (seg_xmit seg + 1) |> <| rto := r |> <| resendts := u32 (current k + r) |>,
     Loop (l_out st) (u32 (l_xmit st + 1)) (l_state st) (l_change st) true)
  else if (resent <=? fastack seg) && ((i32 (seg_xmit seg) <=? fastlimit k) || (fastlimit k <=? 0)) then
    (true, seg <| seg_xmit := u32 (seg_xmit seg + 1) |> <| fastack := 0 |> <| resendts := u32 (current k + rto seg) |>,
     Loop (l_out st) (l_xmit st) (l_state st) (l_change st + 1) (l_lost st))
  else (false, seg, st).

Definition flush_segment (resent rtomin w : Z) (seg : IKCPSEG) (k : IKCPCB) (st : loop_state) : option (IKCPSEG * loop_state) :=
  let '(needsend, seg, st) := need_send resent rtomin seg k st in
  if needsend then
    let seg := seg <| ts := current k |> <| wnd := w |> <| una := rcv_nxt k |> in
    let out := reserve (IKCP_OVERHEAD + len seg) k (l_out st) in
    out ← append (ikcp_encode_seg seg) k out;
    out ← append (data seg) k out;
    Some (seg, Loop out (l_xmit st) (if dead_link k <=? seg_xmit seg then u32 (-1) else l_state st) (l_change st) (l_lost st))
  else Some (seg, st).
Fixpoint flush_segments (resent rtomin w : Z) (segs : list IKCPSEG) (k : IKCPCB) (st : loop_state) : option (list IKCPSEG * loop_state) :=
  match segs with
  | [] => Some ([], st)
  | seg :: segs =>
      '(seg, st) ← flush_segment resent rtomin w seg k st; '(segs, st) ← flush_segments resent rtomin w segs k st; Some (seg :: segs, st)
  end.

(** The congestion window after losses. *)
Definition shrink_cwnd (resent cw : Z) (change : Z) (lost : bool) (k : IKCPCB) : IKCPCB :=
  let k := if change =? 0 then k
           else
             let inflight := u32 (snd_nxt k - snd_una k) in
             let t := if inflight / 2 <? IKCP_THRESH_MIN then IKCP_THRESH_MIN else inflight / 2 in
             k <| ssthresh := t |> <| cwnd := u32 (t + resent) |> <| incr := u32 (u32 (t + resent) * mss k) |> in
  let k := if lost then k <| ssthresh := if cw / 2 <? IKCP_THRESH_MIN then IKCP_THRESH_MIN else cw / 2 |> <| cwnd := 1 |> <| incr := mss k |> else k in
  if cwnd k <? 1 then k <| cwnd := 1 |> <| incr := mss k |> else k.

(** Acknowledgements and probes, which share a header. *)
Definition flush_controls (k : IKCPCB) : option (writer * IKCPCB) :=
  let seg := Seg (conv k) IKCP_CMD_ACK 0 (ikcp_wnd_unused k) 0 0 (rcv_nxt k) 0 0 0 0 [] in
  '(seg, out) ← flush_acks (acklist k) seg k (Writer [] []);
  let k := probe_window (k <| acklist := [] |> <| ackcount := 0 |>) in
  '(seg, out) ← flush_probe IKCP_ASK_SEND IKCP_CMD_WASK seg k out;
  '(seg, out) ← flush_probe IKCP_ASK_TELL IKCP_CMD_WINS seg k out;
  Some (out, k <| probe := 0 |>).

Definition ikcp_flush (k : IKCPCB) : option (list (list Z) * IKCPCB) :=
  if updated k =? 0 then Some ([], k)
  else
    let w := ikcp_wnd_unused k in
    '(out, k) ← flush_controls k;
    let cw := _imin_ (snd_wnd k) (rmt_wnd k) in
    let cw := if nocwnd k =? 0 then _imin_ (cwnd k) cw else cw in
    let k := move_queue (snd_queue k) cw w k in
    let resent := if 0 <? fastresend k then fastresend k else 0xffffffff in
    let rtomin := if nodelay k =? 0 then Z.shiftr (rx_rto k) 3 else 0 in
    '(segs, st) ← flush_segments resent rtomin w (snd_buf k) k (Loop out (xmit k) (state k) 0 false);
    let k := k <| snd_buf := segs |> <| xmit := l_xmit st |> <| state := l_state st |> in
    Some (sent (ikcp_output (l_out st)), shrink_cwnd resent cw (l_change st) (l_lost st) k).

(** ** The clock *)

Definition ikcp_update (cur : Z) (k : IKCPCB) : option (list (list Z) * IKCPCB) :=
  let k := k <| current := cur |> in
  let k := if updated k =? 0 then k <| updated := 1 |> <| ts_flush := current k |> else k in
  let slap := _itimediff (current k) (ts_flush k) in
  let '(slap, k) := if (10000 <=? slap) || (slap <? -10000) then (0, k <| ts_flush := current k |>) else (slap, k) in
  if 0 <=? slap then
    let k := k <| ts_flush := u32 (ts_flush k + interval k) |> in
    let k := if 0 <=? _itimediff (current k) (ts_flush k) then k <| ts_flush := u32 (current k + interval k) |> else k in
    ikcp_flush k
  else Some ([], k).

(** The least time until a segment is sent again, [None] when one is due. *)
Fixpoint packet_time (segs : list IKCPSEG) (cur tm : Z) : option Z :=
  match segs with
  | [] => Some tm
  | seg :: segs => let diff := _itimediff (resendts seg) cur in if diff <=? 0 then None else packet_time segs cur (if diff <? tm then diff else tm)
  end.
Definition ikcp_check (cur : Z) (k : IKCPCB) : Z :=
  if updated k =? 0 then cur
  else
    let ts_flush := if (10000 <=? _itimediff cur (ts_flush k)) || (_itimediff cur (ts_flush k) <? -10000) then cur else ts_flush k in
    if 0 <=? _itimediff cur ts_flush then cur
    else
      let tm_flush := _itimediff ts_flush cur in
      match packet_time (snd_buf k) cur 0x7fffffff with
      | None => cur
      | Some tm_packet =>
          let minimal := u32 (if tm_packet <? tm_flush then tm_packet else tm_flush) in
          u32 (cur + (if interval k <=? minimal then interval k else minimal))
      end.

(** ** Settings *)

Definition ikcp_setmtu (m : Z) (k : IKCPCB) : Z * IKCPCB :=
  if (m <? 50) || (m <? IKCP_OVERHEAD) then (-1, k)
  else (0, k <| mtu := m |> <| mss := m - IKCP_OVERHEAD |> <| buffer := (m + IKCP_OVERHEAD) * 3 |>).
Definition clamp_interval (i : Z) : Z := if 5000 <? i then 5000 else if i <? 10 then 10 else i.
Definition ikcp_interval (i : Z) (k : IKCPCB) : IKCPCB := k <| interval := clamp_interval i |>.
Definition ikcp_nodelay (nd i resend nc : Z) (k : IKCPCB) : IKCPCB :=
  let k := if 0 <=? nd then k <| nodelay := nd |> <| rx_minrto := if nd =? 0 then IKCP_RTO_MIN else IKCP_RTO_NDL |> else k in
  let k := if 0 <=? i then k <| interval := clamp_interval i |> else k in
  let k := if 0 <=? resend then k <| fastresend := resend |> else k in
  if 0 <=? nc then k <| nocwnd := nc |> else k.
Definition ikcp_wndsize (sndwnd rcvwnd : Z) (k : IKCPCB) : IKCPCB :=
  let k := if 0 <? sndwnd then k <| snd_wnd := sndwnd |> else k in
  if 0 <? rcvwnd then k <| rcv_wnd := _imax_ rcvwnd IKCP_WND_RCV |> else k.
Definition ikcp_waitsnd (k : IKCPCB) : Z := i32 (u32 (nsnd_buf k + nsnd_que k)).
