(* ===== verification/KcpSender.v ===== *)
(** * The sending half of a KCP control block

    The segments that got a sequence number so far are a list [hist] of fragments, the
    number of a segment being its place in it.  [snd_buf] holds those of the numbers [ns],
    which increase; what an acknowledgement does to it is what it does to [ns]. *)

From S2P Require Import Prelude KcpCodec Kcp.

Notation frag := (Z * list Z)%type.
Definition item (s : IKCPSEG) : frag := (frg s, data s).
(** What stays the same of a segment in [snd_buf]. *)
Definition core (s : IKCPSEG) : Z * Z * frag * Z := (seg_conv s, cmd s, item s, sn s).
Definition sent_core (c : Z) (hist : list frag) (i : nat) : Z * Z * frag * Z := (c, IKCP_CMD_PUSH, hist !!! i, Z.of_nat i).
Notation increasing := (StronglySorted lt).

(** Sequence numbers below [2^31] are compared exactly. *)
Lemma itimediff_exact a b : 0 <= a < 2 ^ 31 -> 0 <= b < 2 ^ 31 -> _itimediff a b = a - b.
Proof. intros. unfold _itimediff. apply i32_small. lia. Qed.

Definition fits (m : Z) (f : frag) : Prop := Z.of_nat (length (snd f)) <= m.
Definition frag_ok (f : frag) : Prop := byte (fst f) /\ fits (2 ^ 31 - 1) f.

Record sends (hist : list frag) (ns : list nat) (k : IKCPCB) : Prop := Sends {
  s_conv : ubound 32 (conv k);
  s_mss : mss k = mtu k - IKCP_OVERHEAD;
  s_mtu : 50 <= mtu k < 2 ^ 24;
  s_buffer : buffer k = (mtu k + IKCP_OVERHEAD) * 3;
  s_nxt : snd_nxt k = Z.of_nat (length hist);
  s_una : snd_una k = Z.of_nat (hd (length hist) ns);
  s_buf : core <$> snd_buf k = sent_core (conv k) hist <$> ns;
  s_incr : increasing ns;
  s_lt : Forall (fun i => i < length hist)%nat ns;
  s_nbuf : nsnd_buf k = Z.of_nat (length (snd_buf k));
  s_nque : nsnd_que k = Z.of_nat (length (snd_queue k));
  s_total : Z.of_nat (length hist + length (snd_queue k)) < 2 ^ 31;
  s_frags : Forall frag_ok (hist ++ (item <$> snd_queue k));
  s_fits : Forall (fits (mss k)) (((fun i => hist !!! i) <$> ns) ++ (item <$> snd_queue k)) }.

Definition snd_view (k : IKCPCB) := (conv k, mtu k, mss k, buffer k, snd_una k, snd_nxt k, snd_buf k, snd_queue k, stream k, nsnd_buf k, nsnd_que k).
Lemma sends_view hist ns k k' : snd_view k' = snd_view k -> sends hist ns k -> sends hist ns k'.
Proof. intros [= E1 E2 E3 E4 E5 E6 E7 E8 E9 E10 E11] []. constructor; rewrite ?E1, ?E2, ?E3, ?E4, ?E5, ?E6, ?E7, ?E8, ?E10, ?E11; done. Qed.

Lemma snd_view_fields k k' : snd_view k' = snd_view k ->
  conv k' = conv k /\ mtu k' = mtu k /\ buffer k' = buffer k /\ stream k' = stream k /\ snd_queue k' = snd_queue k.
Proof. by intros [=]. Qed.

Ltac klia := unfold ubound in *; lia.
Ltac by_cases := repeat (case_match; simplify_eq/=); done.

(** ** Removing segments *)

Lemma increasing_filter P `{forall x, Decision (P x)} ns : increasing ns -> increasing (filter P ns).
Proof. apply StronglySorted_filter. Qed.
Lemma sorted_snoc {A} (R : A -> A -> Prop) l x : StronglySorted R l -> Forall (fun y => R y x) l -> StronglySorted R (l ++ [x]).
Proof.
  intros Hl Hx. induction Hl as [|y l Hl IH Hy]; inversion_clear Hx; cbn; [by repeat constructor|].
  constructor; [by apply IH|]. apply Forall_app; auto.
Qed.
Lemma sorted_rev {A} (R : A -> A -> Prop) l : StronglySorted R l -> StronglySorted (flip R) (rev l).
Proof.
  induction 1 as [|y l Hl IH Hy]; cbn; [constructor|]. apply sorted_snoc; [done|]. apply Forall_forall. intros z Hz.
  apply (proj1 (Forall_forall _ _) Hy). by apply list_elem_of_In, in_rev, list_elem_of_In.
Qed.
Lemma increasing_length ns n : increasing ns -> Forall (fun i => i < n)%nat ns -> (length ns <= n)%nat.
Proof.
  intros Hs Hn. rewrite <-(length_seq n 0). apply submseteq_length, NoDup_submseteq.
  - clear Hn. induction Hs as [|i ns Hs IH Hi]; constructor; [|done]. intros Hin. pose proof (proj1 (Forall_forall _ _) Hi i Hin). lia.
  - intros i Hi. apply elem_of_seq. pose proof (proj1 (Forall_forall _ _) Hn i Hi). cbn in *. lia.
Qed.
Lemma core_sn c hist (buf : list IKCPSEG) (ns : list nat) : core <$> buf = sent_core c hist <$> ns -> sn <$> buf = Z.of_nat <$> ns.
Proof.
  intros E. assert (snd <$> (core <$> buf) = snd <$> (sent_core c hist <$> ns)) as E2 by by rewrite E.
  by rewrite <-!list_fmap_compose in E2.
Qed.

Lemma filter_all {A} P `{forall x, Decision (P x)} (l : list A) : Forall P l -> filter P l = l.
Proof. induction 1 as [|x l Hx _ IH]; [done|]. rewrite filter_cons_True by done. by f_equal. Qed.

Lemma remove_sn_core c hist buf ns i :
  core <$> buf = sent_core c hist <$> ns -> increasing ns -> Forall (fun j => Z.of_nat j < 2 ^ 31) ns -> Z.of_nat i < 2 ^ 31 ->
  core <$> remove_sn (Z.of_nat i) buf = sent_core c hist <$> filter (fun j => j <> i) ns.
Proof.
  revert ns. induction buf as [|s buf IH]; intros [|j ns] E Hs Hb Hi; try done; simplify_eq/=.
  apply StronglySorted_inv in Hs as [Hs Hlt]. inversion_clear Hb as [|? ? Hj Hb'].
  assert (sn s = Z.of_nat j) as Esn by by injection H. rewrite Esn.
  destruct (Z.eqb_spec (Z.of_nat i) (Z.of_nat j)).
  - rewrite filter_cons_False by lia. rewrite filter_all; [congruence|]. eapply Forall_impl; [exact Hlt|]. cbn. lia.
  - rewrite filter_cons_True by lia. rewrite itimediff_exact by lia. destruct (Z.ltb_spec (Z.of_nat i - Z.of_nat j) 0).
    + rewrite filter_all; [cbn; congruence|]. eapply Forall_impl; [exact Hlt|]. cbn. lia.
    + cbn. f_equal; [congruence|]. apply IH; [congruence|done..].
Qed.
Lemma remove_below_core c hist buf ns u :
  core <$> buf = sent_core c hist <$> ns -> increasing ns -> Forall (fun j => Z.of_nat j < 2 ^ 31) ns -> Z.of_nat u < 2 ^ 31 ->
  core <$> remove_below (Z.of_nat u) buf = sent_core c hist <$> filter (fun j => u <= j)%nat ns.
Proof.
  revert ns. induction buf as [|s buf IH]; intros [|j ns] E Hs Hb Hi; try done; simplify_eq/=.
  apply StronglySorted_inv in Hs as [Hs Hlt]. inversion_clear Hb as [|? ? Hj Hb'].
  assert (sn s = Z.of_nat j) as Esn by by injection H. rewrite Esn, itimediff_exact by lia.
  destruct (Z.ltb_spec 0 (Z.of_nat u - Z.of_nat j)).
  - rewrite filter_cons_False by lia. apply IH; [congruence|done..].
  - rewrite filter_cons_True by lia. rewrite filter_all; [cbn; congruence|]. eapply Forall_impl; [exact Hlt|]. cbn. lia.
Qed.
Lemma count_fastack_core s t buf : core <$> count_fastack s t buf = core <$> buf.
Proof. induction buf as [|x buf IH]; [done|]. cbn. case_match; [done|]. cbn. rewrite IH. f_equal. by case_match. Qed.

(** ** The handlers of acknowledgements *)

Section handlers.
Context (hist : list frag).

(** [snd_una] is set by [ikcp_shrink_buf] afterwards. *)
Definition shrunk (k : IKCPCB) (buf : list IKCPSEG) : IKCPCB := ikcp_shrink_buf (set_snd_buf buf k).
Lemma shrunk_sends ns k buf P `{forall x, Decision (P x)} :
  sends hist ns k -> core <$> buf = sent_core (conv k) hist <$> filter P ns -> sends hist (filter P ns) (shrunk k buf).
Proof.
  intros [] E. constructor; try done; cbn.
  - pose proof (core_sn _ _ _ _ E) as Esn. destruct buf as [|s buf], (filter P ns); try done. by simplify_eq/=.
  - by apply increasing_filter.
  - apply Forall_forall. intros i [_ Hi]%list_elem_of_filter. by eapply (proj1 (Forall_forall _ _) s_lt0).
  - apply (f_equal length) in E, s_buf0. rewrite !length_fmap in *. rewrite s_nbuf0, E, s_buf0. pose proof (length_filter P ns).
    pose proof (increasing_length ns (length hist) s_incr0 s_lt0). rewrite uwrap_small by (unfold ubound; lia). lia.
  - apply Forall_app in s_fits0 as [Hf Hq]. apply Forall_app; split; [|done].
    apply Forall_fmap, Forall_forall. intros i [_ Hi]%list_elem_of_filter. by eapply (proj1 (Forall_forall _ _) (proj1 (Forall_fmap _ _ _) Hf)).
Qed.

Lemma shrink_sends ns k : sends hist ns k -> sends hist ns (ikcp_shrink_buf k).
Proof.
  intros Hk. eapply sends_view, Hk. unfold snd_view. cbn. destruct Hk. pose proof (core_sn _ _ _ _ s_buf0) as Esn.
  do 6 f_equal. destruct (snd_buf k), ns; try done; simplify_eq/=; congruence.
Qed.
Lemma ns_small ns k : sends hist ns k -> Forall (fun j => Z.of_nat j < 2 ^ 31) ns.
Proof. intros []. eapply Forall_impl; [exact s_lt0|]. cbn. lia. Qed.

Lemma parse_una_sends ns k u : sends hist ns k -> (u <= length hist)%nat ->
  sends hist (filter (fun j => u <= j)%nat ns) (ikcp_shrink_buf (ikcp_parse_una (Z.of_nat u) k)).
Proof.
  intros Hk Hu. apply (shrunk_sends ns k (remove_below (Z.of_nat u) (snd_buf k))); [done|].
  pose proof (ns_small _ _ Hk). destruct Hk. apply remove_below_core; [done..|lia].
Qed.
(** An acknowledgement of the segment [i] drops at most that one. *)
Lemma parse_ack_sends ns k i : sends hist ns k -> (i < length hist)%nat ->
  exists ns', sends hist ns' (ikcp_shrink_buf (ikcp_parse_ack (Z.of_nat i) k)) /\ (forall j, j ∈ ns' -> j ∈ ns) /\ (forall j, j ∈ ns -> j ∈ ns' \/ j = i).
Proof.
  intros Hk Hi. pose proof (ns_small _ _ Hk) as Hb. unfold ikcp_parse_ack. destruct (outside (Z.of_nat i) k).
  - exists ns. split; [|set_solver]. by apply shrink_sends.
  - exists (filter (fun j => j <> i) ns). split.
    { apply (shrunk_sends ns k (remove_sn (Z.of_nat i) (snd_buf k))); [done|]. destruct Hk. apply remove_sn_core; [done..|lia]. }
    split; intros j; rewrite list_elem_of_filter; [tauto|]. destruct (decide (j = i)); tauto.
Qed.
Lemma parse_fastack_sends ns k s t : sends hist ns k -> sends hist ns (ikcp_parse_fastack s t k).
Proof.
  intros []. unfold ikcp_parse_fastack. case_match; [by constructor|]. constructor; try done; cbn; [by rewrite count_fastack_core|].
  by rewrite <-(length_fmap core), count_fastack_core, length_fmap.
Qed.
End handlers.

(** ** Sequence numbers are given out *)

Lemma sent_core_app c hist more ns : Forall (fun i => i < length hist)%nat ns -> sent_core c (hist ++ more) <$> ns = sent_core c hist <$> ns.
Proof.
  intros Hn. apply list_fmap_ext. intros j i Hi. pose proof (Forall_lookup_1 _ _ _ _ Hn Hi). unfold sent_core. by rewrite lookup_total_app_l.
Qed.
Lemma hist_app (hist more : list frag) ns : Forall (fun i => i < length hist)%nat ns ->
  ((fun i => (hist ++ more) !!! i) <$> ns) = ((fun i => hist !!! i) <$> ns).
Proof. intros Hn. apply list_fmap_ext. intros j i Hi. pose proof (Forall_lookup_1 _ _ _ _ Hn Hi). by rewrite lookup_total_app_l. Qed.

(** One round of the loop in [ikcp_flush]. *)
Definition numbered (w : Z) (new : IKCPSEG) (que : list IKCPSEG) (k : IKCPCB) : IKCPCB :=
  let new := Seg (conv k) IKCP_CMD_PUSH (frg new) w (current k) (snd_nxt k) (rcv_nxt k) (current k) (u32 (rx_rto k)) 0 0 (data new) in
  k <| snd_queue := que |> <| snd_buf := snd_buf k ++ [new] |> <| nsnd_que := u32 (nsnd_que k - 1) |>
    <| nsnd_buf := u32 (nsnd_buf k + 1) |> <| snd_nxt := u32 (snd_nxt k + 1) |>.
Lemma numbered_sends hist ns k w new que : sends hist ns k -> snd_queue k = new :: que ->
  sends (hist ++ [item new]) (ns ++ [length hist]) (numbered w new que k).
Proof.
  intros [] Eq. pose proof (increasing_length _ _ s_incr0 s_lt0) as Hlen. apply (f_equal length) in s_buf0 as Hbl. rewrite !length_fmap in Hbl.
  rewrite Eq in *. cbn [length] in *. constructor; try done; cbn.
  - rewrite s_nxt0, uwrap_small, length_app by (unfold ubound; lia). cbn. lia.
  - rewrite s_una0. by destruct ns.
  - rewrite !fmap_app, sent_core_app, s_buf0 by done. f_equal. cbn. unfold core, sent_core. cbn. rewrite s_nxt0.
    by rewrite lookup_total_app_r, Nat.sub_diag by lia.
  - by apply sorted_snoc.
  - rewrite length_app. apply Forall_app; split; [|constructor; [cbn; lia|done]]. eapply Forall_impl; [exact s_lt0|]. cbn. lia.
  - rewrite s_nbuf0, length_app, Hbl, uwrap_small by (unfold ubound; lia). cbn. lia.
  - rewrite s_nque0, uwrap_small by (unfold ubound; lia). lia.
  - rewrite length_app. cbn. lia.
  - by rewrite <-app_assoc.
  - rewrite fmap_app, hist_app by done. cbn. rewrite lookup_total_app_r, Nat.sub_diag by lia. cbn. by rewrite <-app_assoc.
Qed.

Lemma move_queue_sends hist ns k que cw w : sends hist ns k -> snd_queue k = que ->
  exists n, (n <= length que)%nat /\ sends (hist ++ (item <$> take n que)) (ns ++ seq (length hist) n) (move_queue que cw w k) /\
    snd_queue (move_queue que cw w k) = drop n que.
Proof.
  revert hist ns k. induction que as [|new que IH]; intros hist ns k Hk Eq; cbn.
  { exists 0%nat. cbn. by rewrite !app_nil_r. }
  case_match; [|by exists 0%nat; cbn; rewrite !app_nil_r; split_and!; [lia|..]].
  fold (numbered w new que k). destruct (IH _ _ (numbered w new que k) (numbered_sends _ _ _ w _ _ Hk Eq)) as (n & Hn & Hs & Hq); [done|].
  exists (S n). split; [cbn; lia|]. cbn. rewrite length_app, <-!app_assoc, Nat.add_1_r in Hs. done.
Qed.
