(* ===== verification/KcpSend.v ===== *)
(** * Messages and fragments of KCP

    A message is a list of fragments whose marks count down to zero; the fragments behind
    each other on the way from [ikcp_send] to [ikcp_recv] are a list of messages.  In
    streaming mode the last fragment can grow while it waits. *)

From S2P Require Import Prelude KcpCodec Kcp KcpSender.

Fixpoint countdown (n : nat) : list Z := match n with O => [] | S n => Z.of_nat n :: countdown n end.
Definition message (g : list frag) : Prop := g <> [] /\ fst <$> g = countdown (length g).
Definition payload (g : list frag) : list Z := g ≫= snd.
(** The fragments are these messages. *)
Definition tagged (gs : list (list frag)) (fs : list frag) : Prop := concat gs = fs /\ Forall message gs.

Lemma countdown_length n : length (countdown n) = n.
Proof. induction n; cbn; congruence. Qed.
Lemma countdown_snoc n : (0 < n)%nat -> exists l, countdown n = l ++ [0].
Proof.
  induction n as [|[|n] IH]; intros Hn; [lia|by exists []|]. destruct IH as [l E]; [lia|]. exists (Z.of_nat (S n) :: l). cbn [countdown] in *. by rewrite E.
Qed.
Lemma payload_app g h : payload (g ++ h) = payload g ++ payload h.
Proof. apply bind_app. Qed.
Lemma tagged_app gs hs fs es : tagged gs fs -> tagged hs es -> tagged (gs ++ hs) (fs ++ es).
Proof. intros [<- Hg] [<- Hh]. split; [by rewrite concat_app|by apply Forall_app]. Qed.
Lemma tagged_nil : tagged [] [].
Proof. done. Qed.
Lemma tagged_one g : message g -> tagged [g] g.
Proof. intros Hg. split; [cbn; by rewrite app_nil_r|by constructor]. Qed.

(** The last fragment of a message is marked zero, and may get other bytes. *)
Lemma message_snoc g f : message (g ++ [f]) -> fst f = 0 /\ forall d, message (g ++ [(0, d)]).
Proof.
  intros [_ E]. rewrite fmap_app, length_app, Nat.add_1_r in E. destruct (countdown_snoc (S (length g))) as [l El]; [lia|]. rewrite El in E.
  apply app_inj_tail in E as [E1 E2]. split; [done|]. intros d. split; [by destruct g|].
  rewrite fmap_app, length_app, Nat.add_1_r, El. cbn. by f_equal.
Qed.
Lemma tagged_snoc gs fs f : tagged gs (fs ++ [f]) ->
  exists gs0 g0, gs = gs0 ++ [g0 ++ [f]] /\ fst f = 0 /\ fs = concat gs0 ++ g0 /\ forall d, tagged (gs0 ++ [g0 ++ [(0, d)]]) (fs ++ [(0, d)]).
Proof.
  intros [Ec Hg]. destruct gs as [|g gs0 _] using rev_ind; [by destruct fs|]. rewrite concat_app in Ec. cbn in Ec. rewrite app_nil_r in Ec.
  apply Forall_app in Hg as [Hg Hl]. inversion_clear Hl as [|? ? Hm _]. destruct g as [|x g0 _] using rev_ind; [by destruct Hm|].
  rewrite app_assoc in Ec. apply app_inj_tail in Ec as [<- ->]. destruct (message_snoc _ _ Hm) as [H0 Hd].
  exists gs0, g0. split_and!; [done..|]. intros d. rewrite <-app_assoc. apply tagged_app; [done|]. by apply tagged_one.
Qed.

(** ** The loop over the fragments *)

Lemma fragments_length m b n bytes : length (fragments m b n bytes) = n.
Proof. revert bytes. induction n; intros; cbn; auto. Qed.
Lemma fragments_data m b n bytes : fragments m b n bytes ≫= data = take (n * Z.to_nat m) bytes.
Proof.
  revert bytes. induction n as [|n IH]; intros bytes; [done|]. cbn [fragments Nat.mul]. rewrite bind_cons, IH. cbn [data new_seg].
  rewrite <-(take_drop (Z.to_nat m) bytes) at 3. rewrite take_app. f_equal; [rewrite take_take; f_equal; lia|].
  rewrite length_take. destruct (decide (Z.to_nat m <= length bytes)%nat).
  - f_equal. lia.
  - rewrite drop_ge by lia. by rewrite !take_nil.
Qed.
Lemma item_payload q : payload (item <$> q) = q ≫= data.
Proof. induction q as [|s q IH]; [done|]. cbn. by f_equal. Qed.
Lemma fragments_fits m b n bytes : 0 <= m -> Forall (fits m) (item <$> fragments m b n bytes).
Proof.
  intros Hm. revert bytes. induction n as [|n IH]; intros bytes; cbn; constructor; [|apply IH]. unfold fits. cbn. rewrite length_take. lia.
Qed.
Lemma fragments_ok m b n bytes : 0 <= m < 2 ^ 31 -> (n <= 128)%nat -> Forall frag_ok (item <$> fragments m b n bytes).
Proof.
  intros Hm. revert bytes. induction n as [|n IH]; intros bytes Hn; cbn; constructor; [|apply IH; lia].
  split; unfold byte, fits; cbn; [destruct b; lia|]. rewrite length_take. lia.
Qed.
Lemma fragments_message m n bytes : (0 < n)%nat -> message (item <$> fragments m false n bytes).
Proof.
  intros Hn. split; [by destruct n; [lia|]|]. clear Hn. rewrite length_fmap, fragments_length.
  revert bytes. induction n as [|n IH]; intros bytes; [done|]. cbn. f_equal. apply IH.
Qed.
(** In streaming mode every fragment is a message. *)
Lemma fragments_stream m n bytes : tagged ((fun f => [f]) <$> (item <$> fragments m true n bytes)) (item <$> fragments m true n bytes).
Proof.
  split; [by induction (item <$> _) as [|f l IH]; cbn; [|f_equal]|]. apply Forall_fmap, Forall_forall. intros f Hf. split; [done|].
  cbn. f_equal. revert bytes Hf. induction n as [|n IH]; intros bytes; cbn; [set_solver|]. intros [->|Hf]%elem_of_cons; [done|]. by eapply IH.
Qed.

(** ** Sending

    The messages grow by [bytes]; those that are wholly in [hist] stay as they are. *)
Record grows (hist : list frag) (gs : list (list frag)) (bytes : list Z) (gs' : list (list frag)) (k' : IKCPCB) : Prop := Grows {
  g_tagged : tagged gs' (hist ++ (item <$> snd_queue k'));
  g_stable : forall j, (j <= length gs)%nat -> (length (concat (take j gs)) <= length hist)%nat -> take j gs' = take j gs;
  g_payload : payload (concat gs') = payload (concat gs) ++ bytes }.

Lemma grows_refl hist gs k : tagged gs (hist ++ (item <$> snd_queue k)) -> grows hist gs [] gs k.
Proof. intros Hg. split; [done|done|by rewrite app_nil_r]. Qed.

Definition room (n : nat) (hist : list frag) (k : IKCPCB) : Prop := Z.of_nat (length hist + length (snd_queue k) + n) < 2 ^ 31.
(** What [ikcp_send] leaves alone. *)
Definition other_view (k : IKCPCB) := (conv k, mtu k, rcv_nxt k, rcv_buf k, nrcv_buf k, nrcv_que k, rcv_queue k, acklist k, rx_rto k, rx_minrto k, current k).

Lemma queue_sends hist ns k q : sends hist ns k -> Forall frag_ok (item <$> q) -> Forall (fits (mss k)) (item <$> q) ->
  Z.of_nat (length hist + length q) < 2 ^ 31 -> sends hist ns (k <| snd_queue := q |> <| nsnd_que := Z.of_nat (length q) |>).
Proof.
  intros [] Hok Hfit Hlen. apply Forall_app in s_frags as [? _], s_fits as [? _]. constructor; try done; cbn; by apply Forall_app.
Qed.

Lemma extend_last_sends hist ns k gs bytes e rest k' :
  sends hist ns k -> tagged gs (hist ++ (item <$> snd_queue k)) -> extend_last bytes k = (e, rest, k') ->
  sends hist ns k' /\ other_view k' = other_view k /\ length (snd_queue k') = length (snd_queue k) /\ stream k' = stream k /\
  exists ext gs', bytes = ext ++ rest /\ e = Z.of_nat (length ext) /\ grows hist gs ext gs' k' /\ (length gs' = length gs).
Proof.
  intros Hk Hg. unfold extend_last. destruct (rev (snd_queue k)) as [|old before] eqn:Er.
  { intros [= <- <- <-]. split_and!; [done..|]. exists [], gs. split_and!; [done..|by apply grows_refl|done]. }
  assert (snd_queue k = rev before ++ [old]) as Eq by by rewrite <-(rev_involutive (snd_queue k)), Er.
  case_match eqn:El; cycle 1.
  { intros [= <- <- <-]. split_and!; [done..|]. exists [], gs. split_and!; [done..|by apply grows_refl|done]. }
  apply Z.ltb_lt in El. pose proof Hk as []. rewrite i32_small by klia. intros [= <- <- <-]. rewrite Eq, fmap_app in s_fits, s_frags, Hg.
  cbn in s_fits, s_frags, Hg. rewrite app_assoc in s_fits, s_frags, Hg.
  apply Forall_app in s_fits as [Hf1 _], s_frags as [Ho1 _]. apply Forall_app in Hf1 as [_ Hf1], Ho1 as [_ Ho1].
  set (m := if _ <? _ then _ else _). set (n := Z.to_nat m).
  assert (m = Z.of_nat n /\ (n <= length bytes)%nat /\ Z.of_nat (length (data old) + n) <= mss k) as (Em & Hn & Hfit).
  { subst n m. destruct (Z.ltb_spec (Z.of_nat (length bytes)) (mss k - len old)); klia. }
  set (seg := new_seg 0 _). assert (length (data seg) = length (data old) + n)%nat as Hseg by (cbn; rewrite length_app, length_take; lia).
  split_and!; [|done|cbn; rewrite Eq, !length_app; cbn; lia|done|].
  - eapply sends_view, (queue_sends hist ns k (rev before ++ [seg]) Hk).
    + unfold snd_view. cbn. rewrite s_nque, Eq, !length_app. done.
    + rewrite fmap_app. apply Forall_app; split; [done|]. constructor; [|done]. split; unfold byte, fits; cbn [fst snd item]; [cbn; lia|klia].
    + rewrite fmap_app. apply Forall_app; split; [done|]. constructor; [|done]. unfold fits. cbn [snd item]. lia.
    + rewrite Eq, length_app in s_total. rewrite length_app. cbn in *. lia.
  - destruct (tagged_snoc _ _ _ Hg) as (gs0 & g0 & -> & H0 & Efs & Hd).
    exists (take n bytes), (gs0 ++ [g0 ++ [(0, data seg)]]). split_and!; [by rewrite take_drop|rewrite length_take; lia| |by rewrite !length_app].
    split.
    + cbn [snd_queue update]. rewrite fmap_app, app_assoc. apply Hd.
    + intros j Hj Hl. destruct (decide (j <= length gs0)%nat); [by rewrite !take_app_le|]. rewrite length_app in Hj. cbn in Hj.
      rewrite take_ge in Hl by (rewrite length_app; cbn; lia). rewrite concat_app in Hl. cbn in Hl. rewrite app_nil_r, app_assoc, <-Efs, !length_app in Hl. cbn in Hl. lia.
    + rewrite !concat_app, !payload_app. cbn. rewrite !app_nil_r, !payload_app. cbn. by rewrite !app_nil_r, !app_assoc.
Qed.

Lemma fragment_count_spec k hist ns n : sends hist ns k -> 0 <= n < 2 ^ 31 ->
  let count := fragment_count n k in 1 <= count /\ n <= count * mss k /\ (count = 1 \/ (count - 1) * mss k < n).
Proof.
  intros [] Hn. cbn. unfold fragment_count. rewrite i32_small by klia. destruct (Z.leb_spec n (mss k)); [lia|].
  rewrite (uwrap_small 32 (n + mss k)) by klia. rewrite uwrap_small by klia.
  assert (0 < mss k) by klia. pose proof (Z.div_mod (n + mss k - 1) (mss k)). pose proof (Z.mod_pos_bound (n + mss k - 1) (mss k)).
  assert ((n + mss k - 1) / mss k < 2 ^ 31) by (apply Z.div_lt_upper_bound; klia).
  assert (0 <= (n + mss k - 1) / mss k) by (apply Z.div_pos; klia). rewrite i32_small by lia. nia.
Qed.

Lemma push_fragments hist ns k gs bytes b count (segs := fragments (mss k) b (Z.to_nat count) bytes) :
  sends hist ns k -> tagged gs (hist ++ (item <$> snd_queue k)) -> room 128 hist k -> 1 <= count < 128 -> Z.of_nat (length bytes) <= count * mss k ->
  let k' := k <| snd_queue := snd_queue k ++ segs |> <| nsnd_que := u32 (nsnd_que k + count) |> in
  segs ≫= data = bytes /\ sends hist ns k' /\ exists hs, grows hist gs bytes (gs ++ hs) k' /\ (b = false -> exists g, hs = [g] /\ payload g = bytes).
Proof.
  intros Hk Hg Hroom Hc Hlen k'. pose proof (fragments_length (mss k) b (Z.to_nat count) bytes : length segs = _) as Hsegs.
  assert (segs ≫= data = bytes) as Hdata by (subst segs; rewrite fragments_data; apply take_ge; lia).
  unfold room in Hroom. pose proof Hk as []. apply Forall_app in s_frags as [_ ?], s_fits as [_ ?]. split; [done|]. split.
  - eapply sends_view, (queue_sends hist ns k (snd_queue k ++ segs) Hk).
    + unfold snd_view. cbn. rewrite s_nque, length_app, Hsegs, uwrap_small by klia. do 2 f_equal. lia.
    + rewrite fmap_app. apply Forall_app; split; [done|]. apply fragments_ok; klia.
    + rewrite fmap_app. apply Forall_app; split; [done|]. apply fragments_fits; klia.
    + rewrite length_app. lia.
  - assert (exists hs, tagged hs (item <$> segs) /\ (b = false -> exists g, hs = [g] /\ payload g = bytes)) as (hs & Hh & Hm).
    { destruct b; [eexists; split; [apply fragments_stream|done]|]. exists [item <$> segs]. split; [apply tagged_one, fragments_message; lia|].
      intros _. eexists. split; [done|]. by rewrite item_payload. }
    exists hs. split; [|done]. split.
    + cbn. rewrite fmap_app, app_assoc. by apply tagged_app.
    + intros j Hj _. by rewrite take_app_le.
    + rewrite concat_app, payload_app. f_equal. destruct Hh as [-> _]. by rewrite item_payload.
Qed.

(** What [ikcp_send] accepts is behind what waits already.  Without streaming mode it
    takes a message as a whole or, when it is longer than 127 segments, not at all. *)
Lemma ikcp_send_sends hist ns k gs bytes rc k' :
  sends hist ns k -> tagged gs (hist ++ (item <$> snd_queue k)) -> room 128 hist k -> Z.of_nat (length bytes) < 2 ^ 31 ->
  ikcp_send bytes (Z.of_nat (length bytes)) k = (rc, k') ->
  sends hist ns k' /\ other_view k' = other_view k /\ stream k' = stream k /\
  exists gs', grows hist gs (take (Z.to_nat rc) bytes) gs' k' /\ (length gs <= length gs')%nat /\
    (stream k = 0 -> (rc = -2 /\ gs' = gs /\ 127 * mss k < Z.of_nat (length bytes)) \/
                     (rc = Z.of_nat (length bytes) /\ exists g, gs' = gs ++ [g] /\ payload g = bytes)).
Proof.
  intros Hk Hg Hroom Hlen. unfold ikcp_send. rewrite (proj2 (Z.ltb_ge _ _)) by lia. rewrite Nat2Z.id, take_ge by done.
  destruct (Z.eqb_spec (stream k) 0) as [Hs|Hs]; cbn [negb andb].
  - pose proof (fragment_count_spec k hist ns (Z.of_nat (length bytes)) Hk) as (Hc1 & Hc2 & Hc3); [lia|]. set (count := fragment_count _ k) in *.
    destruct (Z.leb_spec 128 count).
    + intros [= <- <-]. split_and!; [done..|]. exists gs. split_and!; [by apply grows_refl|done|]. intros _. left. split_and!; [done..|]. nia.
    + rewrite (proj2 (Z.eqb_neq count 0)) by lia. destruct (push_fragments hist ns k gs bytes false count) as (Hd & Hk' & hs & Hgr & Hm); [done..|lia|done|].
      rewrite Hd, Z.add_0_l. intros [= <- <-]. split_and!; [done..|]. destruct (Hm eq_refl) as (g & -> & Hp).
      exists (gs ++ [g]). rewrite Nat2Z.id, take_ge by done. split_and!; [done|rewrite length_app; lia|]. intros _. right. eauto.
  - destruct (extend_last bytes k) as [[e rest] k1] eqn:Ee.
    destruct (extend_last_sends _ _ _ _ _ _ _ _ Hk Hg Ee) as (Hk1 & Ho & Hl & Hst & ext & gs1 & -> & -> & Hgr & Hgl).
    assert (take (Z.to_nat (Z.of_nat (length ext))) (ext ++ rest) = ext) as Htk by by rewrite Nat2Z.id, take_app_length.
    destruct (Z.leb_spec (Z.of_nat (length rest)) 0).
    { intros [= <- <-]. split_and!; [done..|]. exists gs1. rewrite Htk. split_and!; [done|lia|done]. }
    rewrite length_app in Hlen.
    pose proof (fragment_count_spec k1 hist ns (Z.of_nat (length rest)) Hk1) as (Hc1 & Hc2 & _); [lia|]. set (count := fragment_count _ k1) in *.
    destruct (Z.leb_spec 128 count).
    + destruct (Z.ltb_spec 0 (Z.of_nat (length ext))); intros [= <- <-]; (split_and!; [done..|]); exists gs1; (split_and!; [|lia|done]); [by rewrite Htk|].
      destruct ext; [done|cbn in *; lia].
    + rewrite (proj2 (Z.eqb_neq count 0)) by lia. destruct Hgr as [Ht Hst1 Hp].
      destruct (push_fragments hist ns k1 gs1 rest true count) as (Hd & Hk' & hs & Hgr2 & _); [done..|unfold room in *; lia|lia|done|].
      rewrite Hd. intros [= <- <-]. split_and!; [done..|]. exists (gs1 ++ hs). split_and!; [|rewrite length_app; lia|done].
      rewrite <-Nat2Z.inj_add, Nat2Z.id, take_ge by (rewrite length_app; lia). destruct Hgr2 as [Ht2 Hst2 Hp2]. split; [done| |].
      * intros j Hj Hle. rewrite Hst2, Hst1 by (rewrite ?Hst1 by lia; lia). done.
      * by rewrite Hp2, Hp, app_assoc.
Qed.
