(* ===== verification/KcpReceiver.v ===== *)
(** * The receiving half of a KCP control block

    [hist] are the fragments the peer has numbered.  The first [n] have left [rcv_buf],
    which holds those of the numbers [ms]; the end of the first [n] waits in [rcv_queue]. *)

From S2P Require Import Prelude KcpCodec Kcp KcpSender.

Definition rcore (s : IKCPSEG) : frag * Z := (item s, sn s).
Definition got_core (hist : list frag) (i : nat) : frag * Z := (hist !!! i, Z.of_nat i).
Definition received (n : nat) (ms : list nat) (i : nat) : Prop := (i < n)%nat \/ i ∈ ms.

Record receives (hist : list frag) (n : nat) (ms : list nat) (k : IKCPCB) : Prop := Receives {
  r_nxt : rcv_nxt k = Z.of_nat n;
  r_le : (n <= length hist)%nat;
  r_buf : rcore <$> rcv_buf k = got_core hist <$> ms;
  r_incr : increasing ms;
  r_range : Forall (fun i => n <= i < length hist)%nat ms;
  r_nbuf : nrcv_buf k = Z.of_nat (length (rcv_buf k));
  r_nque : nrcv_que k = Z.of_nat (length (rcv_queue k));
  r_len : (length (rcv_queue k) <= n)%nat;
  r_items : item <$> rcv_queue k = drop (n - length (rcv_queue k)) (take n hist) }.

Definition rcv_view (k : IKCPCB) := (rcv_nxt k, rcv_buf k, nrcv_buf k, nrcv_que k, rcv_queue k).
Lemma receives_view hist n ms k k' : rcv_view k' = rcv_view k -> receives hist n ms k -> receives hist n ms k'.
Proof. intros [= E1 E2 E3 E4 E5] []. constructor; rewrite ?E1, ?E2, ?E3, ?E4, ?E5; done. Qed.

Lemma rcv_view_fields k k' : rcv_view k' = rcv_view k -> rcv_nxt k' = rcv_nxt k /\ rcv_queue k' = rcv_queue k.
Proof. by intros [=]. Qed.

(** The history of the peer grows behind what was received. *)
Lemma receives_more hist more n ms k : receives hist n ms k -> receives (hist ++ more) n ms k.
Proof.
  intros []. constructor; try done.
  - rewrite length_app. lia.
  - rewrite r_buf0. apply list_fmap_ext. intros j i Hi. pose proof (Forall_lookup_1 _ _ _ _ r_range0 Hi) as [? ?].
    unfold got_core. by rewrite lookup_total_app_l.
  - eapply Forall_impl; [exact r_range0|]. cbn. rewrite length_app. lia.
  - by rewrite take_app_le.
Qed.
Lemma received_lt hist n ms k i : receives hist n ms k -> received n ms i -> (i < length hist)%nat.
Proof. intros [] [?|Hi]; [lia|]. by apply (proj1 (Forall_forall _ _) r_range0). Qed.

Lemma cons_inj {A} (x y : A) l l' : x :: l = y :: l' -> x = y /\ l = l'.
Proof. by intros [= -> ->]. Qed.

Lemma rcore_sn hist (buf : list IKCPSEG) (ms : list nat) : rcore <$> buf = got_core hist <$> ms -> sn <$> buf = Z.of_nat <$> ms.
Proof.
  intros E. assert (snd <$> (rcore <$> buf) = snd <$> (got_core hist <$> ms)) as E2 by by rewrite E. by rewrite <-!list_fmap_compose in E2.
Qed.

(** ** Segments in order leave the buffer *)

Definition moved (seg : IKCPSEG) (buf : list IKCPSEG) (k : IKCPCB) : IKCPCB :=
  k <| rcv_buf := buf |> <| nrcv_buf := u32 (nrcv_buf k - 1) |> <| rcv_queue := rcv_queue k ++ [seg] |>
    <| nrcv_que := u32 (nrcv_que k + 1) |> <| rcv_nxt := u32 (rcv_nxt k + 1) |>.
Lemma moved_receives hist n m ms k seg buf : Z.of_nat (length hist) < 2 ^ 31 ->
  receives hist n (m :: ms) k -> rcv_buf k = seg :: buf -> sn seg = rcv_nxt k -> m = n /\ receives hist (S n) ms (moved seg buf k).
Proof.
  intros Hh [] Eb Esn. rewrite Eb in *. cbn in r_buf0. apply cons_inj in r_buf0 as [Em Er]. apply (f_equal snd) in Em as Em2. cbn in Em2.
  assert (m = n) as -> by lia. split; [done|].
  pose proof (increasing_length _ _ r_incr0 (Forall_impl _ _ _ r_range0 (fun i H => proj2 H))) as Hl.
  apply (f_equal length) in Er as Hlb. rewrite !length_fmap in Hlb. cbn in Hl.
  apply StronglySorted_inv in r_incr0 as [Hs Hlt]. inversion_clear r_range0 as [|? ? [_ Hn] Hr]. constructor; try done; cbn.
  - rewrite r_nxt0, uwrap_small by klia. lia.
  - apply Forall_forall. intros i Hi. pose proof (proj1 (Forall_forall _ _) Hlt i Hi). pose proof (proj1 (Forall_forall _ _) Hr i Hi). cbn in *. lia.
  - rewrite r_nbuf0. cbn. rewrite uwrap_small by klia. lia.
  - rewrite r_nque0, length_app, uwrap_small by klia. cbn. lia.
  - rewrite length_app. cbn. lia.
  - rewrite fmap_app, r_items0, length_app. cbn. rewrite (take_S_r _ _ (hist !!! n)) by by apply list_lookup_lookup_total_lt.
    rewrite drop_app_le by (rewrite length_take; lia). f_equal; [f_equal; lia|]. apply (f_equal fst) in Em. cbn in Em. by rewrite Em.
Qed.

Lemma move_ready_receives hist n ms k buf : Z.of_nat (length hist) < 2 ^ 31 ->
  receives hist n ms k -> rcv_buf k = buf ->
  exists j ms', ms = seq n j ++ ms' /\ receives hist (n + j) ms' (move_ready buf k) /\ length (rcv_queue (move_ready buf k)) = (length (rcv_queue k) + j)%nat.
Proof.
  intros Hh. revert n ms k. induction buf as [|seg buf IH]; intros n ms k Hk Eb; cbn.
  { exists 0%nat, ms. by rewrite !Nat.add_0_r. }
  case_match eqn:Ec; cycle 1.
  { exists 0%nat, ms. by rewrite !Nat.add_0_r. }
  apply andb_true_iff in Ec as [Esn%Z.eqb_eq _]. destruct ms as [|m ms].
  { destruct Hk as [_ _ Hb]. by rewrite Eb in Hb. }
  destruct (moved_receives hist n m ms k seg buf) as [-> Hk']; [done..|]. fold (moved seg buf k).
  destruct (IH _ _ (moved seg buf k) Hk' eq_refl) as (j & ms' & -> & Hm & Hq). exists (S j), ms'. split; [done|].
  rewrite !Nat.add_succ_r. split; [done|]. etrans; [exact Hq|]. cbn. rewrite length_app. cbn. lia.
Qed.
Lemma received_move n j ms i : received (n + j) ms i <-> received n (seq n j ++ ms) i.
Proof. unfold received. rewrite elem_of_app, elem_of_seq. destruct (decide (i < n + j)%nat), (decide (i < n)%nat); intuition lia. Qed.

(** ** A data segment arrives *)

Lemma insert_back_core hist new i rbuf rms :
  rcore new = got_core hist i -> rcore <$> rbuf = got_core hist <$> rms -> StronglySorted gt rms -> Forall (fun j => Z.of_nat j < 2 ^ 31) (i :: rms) ->
  match insert_back new rbuf with
  | None => i ∈ rms
  | Some rbuf' => length rbuf' = S (length rbuf) /\
      exists rms', rcore <$> rbuf' = got_core hist <$> rms' /\ StronglySorted gt rms' /\ forall j, j ∈ rms' <-> j = i \/ j ∈ rms
  end.
Proof.
  intros Hnew. assert (sn new = Z.of_nat i) as Esn by by apply (f_equal snd) in Hnew.
  revert rms. induction rbuf as [|seg rbuf IH]; intros [|m rms] Hb Hs Hi; try done.
  { cbn. split; [done|]. exists [i]. split; [cbn; by rewrite Hnew|]. split; [by repeat constructor|]. set_solver. }
  rewrite !fmap_cons in Hb. apply cons_inj in Hb as [Em Er]. assert (sn seg = Z.of_nat m) as Em2 by by apply (f_equal snd) in Em.
  inversion_clear Hi as [|? ? Hi1 Hi2]. inversion_clear Hi2 as [|? ? Hm Hi3]. apply StronglySorted_inv in Hs as [Hs Hgt].
  cbn. rewrite Esn, Em2. destruct (Z.eqb_spec (Z.of_nat m) (Z.of_nat i)); [set_solver by lia|].
  rewrite itimediff_exact by lia. destruct (Z.ltb_spec 0 (Z.of_nat i - Z.of_nat m)).
  - split; [done|]. exists (i :: m :: rms). cbn. rewrite Hnew, Em, Er. split; [done|]. split; [|set_solver].
    repeat constructor; [done..|lia|]. eapply Forall_impl; [exact Hgt|]. cbn. lia.
  - specialize (IH rms Er Hs ltac:(by constructor)). destruct (insert_back new rbuf) as [rbuf'|]; cbn; [|set_solver].
    destruct IH as (Hl & rms' & Hb' & Hs' & Hin). split; [by rewrite Hl|]. exists (m :: rms'). split; [cbn; by rewrite Em, Hb'|]. split; [|set_solver].
    constructor; [done|]. apply Forall_forall. intros j [->|Hj]%Hin; [lia|]. by apply (proj1 (Forall_forall _ _) Hgt).
Qed.

Lemma fmap_rev {A B} (f : A -> B) l : f <$> rev l = rev (f <$> l).
Proof. apply map_rev. Qed.
Lemma elem_of_rev {A} (x : A) l : x ∈ rev l <-> x ∈ l.
Proof. by rewrite !list_elem_of_In, <-in_rev. Qed.
Lemma insert_receives hist n ms k new i : Z.of_nat (length hist) < 2 ^ 31 -> receives hist n ms k ->
  rcore new = got_core hist i -> (n <= i < length hist)%nat ->
  let k' := match insert_back new (rev (rcv_buf k)) with
            | Some rbuf => k <| rcv_buf := rev rbuf |> <| nrcv_buf := u32 (nrcv_buf k + 1) |>
            | None => k
            end in
  exists ms', receives hist n ms' k' /\ forall j, j ∈ ms' <-> j = i \/ j ∈ ms.
Proof.
  intros Hh Hk Hnew Hi. pose proof Hk as []. pose proof (proj1 (Forall_forall _ _) r_range0) as Hr.
  pose proof (increasing_length _ _ r_incr0 (Forall_impl _ _ _ r_range0 (fun i H => proj2 H))) as Hl.
  pose proof (f_equal length r_buf0) as Hlb. rewrite !length_fmap in Hlb.
  pose proof (insert_back_core hist new i (rev (rcv_buf k)) (rev ms) Hnew) as H. rewrite !fmap_rev, r_buf0 in H.
  assert (Forall (fun j => Z.of_nat j < 2 ^ 31) (i :: rev ms)) as Hsm.
  { constructor; [lia|]. apply Forall_forall. intros j Hj%elem_of_rev%Hr. lia. }
  specialize (H eq_refl (sorted_rev lt ms r_incr0) Hsm).
  destruct (insert_back _ _) as [rbuf'|]; cycle 1.
  { exists ms. split; [done|]. rewrite elem_of_rev in H. set_solver. }
  destruct H as (Hlen & rms' & Hb' & Hs' & Hin). exists (rev rms'). setoid_rewrite elem_of_rev. setoid_rewrite elem_of_rev in Hin. split; [|done].
  constructor; try done; cbn.
  - by rewrite !fmap_rev, Hb'.
  - apply (sorted_rev gt), Hs'.
  - apply Forall_forall. intros j Hj. rewrite elem_of_rev in Hj. apply Hin in Hj as [->|Hj]; [done|auto].
  - rewrite r_nbuf0, length_rev, Hlen, length_rev, uwrap_small by klia. lia.
Qed.

(** A segment inside the window is there afterwards; nothing that was there is lost. *)
Lemma parse_data_receives hist n ms k new i : Z.of_nat (length hist) < 2 ^ 31 -> receives hist n ms k ->
  rcore new = got_core hist i -> (n <= i < length hist)%nat -> _itimediff (sn new) (u32 (rcv_nxt k + rcv_wnd k)) < 0 ->
  exists n' ms', receives hist n' ms' (ikcp_parse_data new k) /\ (n <= n')%nat /\ (forall j, received n' ms' j <-> received n ms j \/ j = i) /\
    (n' - length (rcv_queue (ikcp_parse_data new k)) = n - length (rcv_queue k))%nat.
Proof.
  intros Hh Hk Hnew Hi Hw. assert (sn new = Z.of_nat i) as Esn by by apply (f_equal snd) in Hnew. pose proof Hk as [].
  unfold ikcp_parse_data. rewrite (proj2 (Z.leb_gt _ _)) by lia. rewrite Esn, r_nxt0, itimediff_exact, (proj2 (Z.ltb_ge _ _)) by lia. cbn [orb].
  destruct (insert_receives hist n ms k new i Hh Hk Hnew Hi) as (ms1 & Hk1 & Hin).
  set (k1 := match insert_back _ _ with Some _ => _ | None => _ end) in *. assert (rcv_queue k1 = rcv_queue k) as Eq by (subst k1; by case_match).
  destruct (move_ready_receives hist n ms1 k1 (rcv_buf k1) Hh Hk1 eq_refl) as (j & ms' & -> & Hm & Hq).
  exists (n + j)%nat, ms'. split_and!; [done|lia| |rewrite Hq, Eq; lia]. intros x. rewrite received_move. unfold received. rewrite Hin. tauto.
Qed.

(** What else the engine keeps: the pending acknowledgements and the settings of timing. *)
Definition time_view (k : IKCPCB) := (rx_rto k, rx_minrto k, current k).
Lemma move_ready_other buf k : let k' := move_ready buf k in snd_view k' = snd_view k /\ acklist k' = acklist k /\ time_view k' = time_view k.
Proof. cbn. revert k. induction buf as [|seg buf IH]; intros k; cbn; [done|]. case_match; [|done]. exact (IH (moved seg buf k)). Qed.
Lemma parse_data_other new k : let k' := ikcp_parse_data new k in snd_view k' = snd_view k /\ acklist k' = acklist k /\ time_view k' = time_view k.
Proof. cbn. unfold ikcp_parse_data. case_match; [done|]. case_match; exact (move_ready_other _ _). Qed.
