(* ===== verification/KcpRecv.v ===== *)
(** * [ikcp_recv] returns the messages one by one

    [rcv_queue] begins at the boundary of a message; a message is returned when its last
    fragment is there and the buffer of the user is large enough. *)

From S2P Require Import Prelude KcpCodec Kcp KcpSender KcpSend KcpReceiver.

Lemma message_cons f g : message (f :: g) -> fst f = Z.of_nat (length g) /\ (g = [] \/ message g).
Proof. intros [_ E]. cbn in E. apply cons_inj in E as [E1 E2]. split; [done|]. destruct g; [by left|right]. split; done. Qed.

Lemma merge_message q g rest : message g -> item <$> q = g ++ rest -> merge q = (take (length g) q, drop (length g) q).
Proof.
  revert g. induction q as [|s q IH]; intros [|f g] Hg E; try done; [by destruct Hg|].
  cbn in E. apply cons_inj in E as [E1 E2]. destruct (message_cons f g Hg) as [Hf Hm]. assert (frg s = Z.of_nat (length g)) as Es by by rewrite <-Hf, <-E1.
  cbn. rewrite Es. destruct (Z.eqb_spec (Z.of_nat (length g)) 0) as [E0|E0].
  - by destruct g; [|cbn in E0; lia].
  - destruct Hm as [->|Hm]; [done|]. by rewrite (IH g Hm E2).
Qed.
Lemma peek_length_message q g rest : message g -> item <$> q = g ++ rest -> peek_length q = Z.of_nat (length (payload g)).
Proof.
  revert g. induction q as [|s q IH]; intros [|f g] Hg E; try done; [by destruct Hg|].
  cbn in E. apply cons_inj in E as [E1 E2]. destruct (message_cons f g Hg) as [Hf Hm]. assert (frg s = Z.of_nat (length g)) as Es by by rewrite <-Hf, <-E1.
  assert (payload (f :: g) = data s ++ payload g) as -> by by rewrite <-E1. rewrite length_app. cbn. rewrite Es.
  destruct (Z.eqb_spec (Z.of_nat (length g)) 0) as [E0|E0].
  - destruct g; [cbn; lia|cbn in E0; lia].
  - destruct Hm as [->|Hm]; [done|]. rewrite (IH g Hm E2). lia.
Qed.

(** [gs] are the messages of the peer, of which [j] have left the queue. *)
Definition consumed (gs : list (list frag)) (j n : nat) (k : IKCPCB) : Prop :=
  (j <= length gs)%nat /\ (n - length (rcv_queue k) = length (concat (take j gs)))%nat.

Lemma queue_front hist n ms k gs fs j : receives hist n ms k -> tagged gs (hist ++ fs) -> consumed gs j n k -> rcv_queue k <> [] ->
  exists g rest, gs !! j = Some g /\ message g /\ item <$> rcv_queue k = take (length (rcv_queue k)) (g ++ rest).
Proof.
  intros [] [Ec Hm] [Hj Hc] Hne. set (L := length (rcv_queue k)) in *. assert (L <> 0)%nat by (subst L; by destruct (rcv_queue k)).
  assert (concat gs = concat (take j gs) ++ concat (drop j gs)) as Egs by by rewrite <-concat_app, take_drop.
  assert (item <$> rcv_queue k = take L (concat (drop j gs))) as Eq.
  { rewrite <-(drop_app_length (concat (take j gs)) (concat (drop j gs))), take_drop_commute, <-Egs, Ec, <-Hc, take_app_le by lia.
    rewrite r_items. do 2 f_equal. subst L. lia. }
  destruct (drop j gs) as [|g gs'] eqn:Ed.
  { cbn in Eq. rewrite take_nil in Eq. by apply fmap_nil_inv in Eq. }
  exists g, (concat gs'). assert (gs !! j = Some g) as Eg by (rewrite <-(Nat.add_0_r j), <-lookup_drop, Ed; done).
  split_and!; [done| |done]. by eapply Forall_lookup_1.
Qed.

(** The length of the next message, when all of it is there. *)
Lemma peeksize_message hist n ms k g rest : receives hist n ms k -> Forall frag_ok hist -> rcv_queue k <> [] -> message g ->
  item <$> rcv_queue k = take (length (rcv_queue k)) (g ++ rest) ->
  ikcp_peeksize k = if (length g <=? length (rcv_queue k))%nat then Z.of_nat (length (payload g)) else -1.
Proof.
  intros [] Hh Hne Hg Eq. unfold ikcp_peeksize. rewrite r_nque. clear r_len. revert Hne Eq r_items. generalize (rcv_queue k) as q. intros q Hne Eq r_items.
  assert (length g <= length q -> peek_length q = Z.of_nat (length (payload g)))%nat as Hpl.
  { intros Hl. rewrite take_app, take_ge in Eq by done. by eapply peek_length_message. }
  destruct q as [|s q]; [done|]. destruct g as [|f g]; [by destruct Hg|].
  destruct (message_cons f g Hg) as [Hf _]. cbn in Eq. apply cons_inj in Eq as [E1 _]. assert (frg s = Z.of_nat (length g)) as Ef by by rewrite <-Hf, <-E1.
  assert (0 <= frg s < 256) as Hbyte.
  { assert (item s ∈ hist) as Hin; [|by apply (proj1 (Forall_forall _ _) Hh) in Hin as [? _]].
    eapply subseteq_take, subseteq_drop. rewrite <-r_items. by left. }
  rewrite Ef in *. cbn [length] in *. destruct (Z.eqb_spec (Z.of_nat (length g)) 0) as [E0|E0].
  - rewrite (proj2 (Nat.leb_le _ _)) by lia. rewrite <-Hpl by lia. cbn. rewrite Ef, E0. cbn. lia.
  - rewrite uwrap_small by klia. destruct (Nat.leb_spec (S (length g)) (S (length q))).
    + rewrite (proj2 (Z.ltb_ge _ _)) by lia. apply Hpl. lia.
    + by rewrite (proj2 (Z.ltb_lt _ _)) by lia.
Qed.

(** The segments of a message leave the queue. *)
Definition drop_queue (l : nat) (k : IKCPCB) : IKCPCB :=
  k <| rcv_queue := drop l (rcv_queue k) |> <| nrcv_que := u32 (nrcv_que k - Z.of_nat l) |>.
Lemma drop_queue_receives hist n ms k l : receives hist n ms k -> Z.of_nat (length hist) < 2 ^ 31 -> (l <= length (rcv_queue k))%nat ->
  receives hist n ms (drop_queue l k).
Proof.
  intros [] Hh Hl. constructor; try done; cbn.
  - rewrite r_nque, length_drop, uwrap_small by klia. lia.
  - rewrite length_drop. lia.
  - rewrite fmap_drop, r_items, drop_drop, length_drop. f_equal. lia.
Qed.
Lemma consumed_next hist n ms gs j k g : receives hist n ms k -> consumed gs j n k -> gs !! j = Some g -> (length g <= length (rcv_queue k))%nat ->
  consumed gs (S j) n (drop_queue (length g) k).
Proof.
  intros [] [Hj Hc] Hg Hl. split; [by apply lookup_lt_Some in Hg|]. cbn. rewrite (take_S_r _ _ g Hg), concat_app, length_app, length_drop.
  cbn. rewrite app_nil_r. lia.
Qed.
(** Moving segments into the queue does not change what left it. *)
Lemma refill hist n ms gs j k : receives hist n ms k -> Z.of_nat (length hist) < 2 ^ 31 -> consumed gs j n k ->
  exists n' ms', receives hist n' ms' (move_ready (rcv_buf k) k) /\ (n <= n')%nat /\ (forall i, received n' ms' i <-> received n ms i) /\
    consumed gs j n' (move_ready (rcv_buf k) k).
Proof.
  intros Hk Hh [Hj Hc]. destruct (move_ready_receives hist n ms k (rcv_buf k) Hh Hk eq_refl) as (l & ms' & -> & Hm & Hq).
  exists (n + l)%nat, ms'. split_and!; [done|lia|intros i; apply received_move|]. split; [done|]. rewrite Hq, <-Hc. destruct Hk. lia.
Qed.

(** What a call of [ikcp_recv] does, by its code. *)
Lemma ikcp_recv_receives hist n ms k gs fs j len rc bytes k' :
  receives hist n ms k -> Z.of_nat (length hist) < 2 ^ 31 -> Forall frag_ok hist -> tagged gs (hist ++ fs) -> consumed gs j n k -> ikcp_recv len k = (rc, bytes, k') ->
  (rc < 0 /\ k' = k /\ bytes = [] /\
     ((rc = -1 /\ rcv_queue k = []) \/ exists g, gs !! j = Some g /\
       ((rc = -2 /\ (length (rcv_queue k) < length g)%nat) \/ (rc = -3 /\ Z.abs len < Z.of_nat (length (payload g)))))) \/
  (rc = Z.of_nat (length bytes) /\ rc <= Z.abs len /\ (exists g, gs !! j = Some g /\ bytes = payload g) /\
     snd_view k' = snd_view k /\ acklist k' = acklist k /\ time_view k' = time_view k /\
     exists n' ms', receives hist n' ms' k' /\ (n <= n')%nat /\ (forall i, received n' ms' i <-> received n ms i) /\ consumed gs (if len <? 0 then j else S j) n' k').
Proof.
  intros Hk Hh Hok Hg Hc. unfold ikcp_recv. destruct (decide (rcv_queue k = [])) as [E0|E0].
  { rewrite E0. intros [= <- <- <-]. left. split_and!; [lia|done..|]. by left. }
  destruct (queue_front hist n ms k gs fs j) as (g & rest & Hgj & Hgm & Eq); [done..|].
  pose proof (peeksize_message hist n ms k g rest Hk Hok E0 Hgm Eq) as Ep.
  replace (if len <? 0 then - len else len) with (Z.abs len) by (destruct (Z.ltb_spec len 0); lia).
  destruct (rcv_queue k) as [|s q] eqn:Erq; [done|]. rewrite <-Erq in *. clear s q Erq E0. rewrite Ep. clear Ep.
  destruct (Nat.leb_spec (length g) (length (rcv_queue k))) as [Hl|Hl]; cycle 1.
  { cbn. intros [= <- <- <-]. left. split_and!; [lia|done..|]. right. eauto 10. }
  rewrite (proj2 (Z.ltb_ge (Z.of_nat (length (payload g))) 0)) by lia. destruct (Z.ltb_spec (Z.abs len) (Z.of_nat (length (payload g)))) as [Hs|Hs].
  { intros [= <- <- <-]. left. split_and!; [lia|done..|]. right. eauto 10. }
  rewrite take_app, take_ge in Eq by done. rewrite (merge_message _ _ _ Hgm Eq). rewrite length_take, Nat.min_l by done.
  assert (take (length g) (rcv_queue k) ≫= data = payload g) as -> by by rewrite <-item_payload, fmap_take, Eq, take_app_length.
  fold (drop_queue (length g) k). set (k1 := if len <? 0 then k else drop_queue (length g) k).
  assert (receives hist n ms k1 /\ consumed gs (if len <? 0 then j else S j) n k1 /\ snd_view k1 = snd_view k /\ acklist k1 = acklist k /\ time_view k1 = time_view k)
    as (Hk1 & Hc1 & Ev & Ea & Et).
  { subst k1. destruct (len <? 0); [done|]. split_and!; [by apply drop_queue_receives|by eapply consumed_next|done..]. }
  clearbody k1. destruct (refill hist n ms gs _ k1 Hk1 Hh Hc1) as (n' & ms' & Hm & Hn & Hr & Hc'). destruct (move_ready_other (rcv_buf k1) k1) as (Ev2 & Ea2 & Et2).
  set (full := rcv_wnd k <=? nrcv_que k). destruct (_ && full); intros [= <- <- <-]; right;
    (split_and!; [done..|eauto|exact (eq_trans Ev2 Ev)|exact (eq_trans Ea2 Ea)|exact (eq_trans Et2 Et)|]).
  all: exists n', ms'; split_and!; [|done..]; by eapply receives_view, Hm.
Qed.
