(* ===== verification/KcpInput.v ===== *)
(** * [ikcp_input] on the datagrams of the peer

    [wire] says what the datagrams of a peer are: whole segments, data as the peer numbered
    it, acknowledgements of what the peer has.  Any of them may arrive at any time, again
    and in any order. *)

From S2P Require Import Prelude KcpCodec Kcp KcpSender KcpSend KcpReceiver.

Section wire.
(** The conversation, what the peer numbered and what it received. *)
Context (c : Z) (hist : list frag) (n : nat) (ms : list nat).

Inductive wire_body (s : IKCPSEG) : Prop :=
  | wire_push i : cmd s = IKCP_CMD_PUSH -> sn s = Z.of_nat i -> hist !! i = Some (item s) -> wire_body s
  | wire_ack i : cmd s = IKCP_CMD_ACK -> data s = [] -> sn s = Z.of_nat i -> received n ms i -> wire_body s
  | wire_probe : cmd s = IKCP_CMD_WASK \/ cmd s = IKCP_CMD_WINS -> data s = [] -> wire_body s.
Record wire_seg (s : IKCPSEG) : Prop := WireSeg {
  w_ok : seg_ok s; w_conv : seg_conv s = c; w_len : len s < 2 ^ 31; w_una : exists u, una s = Z.of_nat u /\ (u <= n)%nat; w_body : wire_body s }.
Definition encoded (s : IKCPSEG) : list Z := ikcp_encode_seg s ++ data s.
Definition wire (bytes : list Z) : Prop := exists segs, bytes = segs ≫= encoded /\ Forall wire_seg segs.
End wire.

Lemma wire_mono c hist more n n' ms ms' bytes : (n <= n')%nat -> (forall i, received n ms i -> received n' ms' i) ->
  wire c hist n ms bytes -> wire c (hist ++ more) n' ms' bytes.
Proof.
  intros Hn Hr (segs & -> & Hs). exists segs. split; [done|]. eapply Forall_impl; [exact Hs|]. intros s [H1 H2 H3 (u & Hu & Hle) Hb].
  constructor; [done..|exists u; split; [done|lia]|]. destruct Hb; [eapply wire_push, lookup_app_l_Some; done|eapply wire_ack; eauto|by apply wire_probe].
Qed.

(** ** One end *)

Definition acks_ok (n : nat) (ms : list nat) (l : list (Z * Z)) : Prop :=
  Forall (fun a : Z * Z => ubound 32 a.2 /\ exists i, a.1 = Z.of_nat i /\ received n ms i) l.
Definition timing (k : IKCPCB) : Prop := IKCP_RTO_NDL <= rx_rto k <= IKCP_RTO_MAX /\ IKCP_RTO_NDL <= rx_minrto k <= IKCP_RTO_MIN /\ ubound 32 (current k).

(** [hist] and [ns] of what is sent, [phist], [n] and [ms] of what is received. *)
Record end_ok (hist : list frag) (ns : list nat) (phist : list frag) (n : nat) (ms : list nat) (k : IKCPCB) : Prop := EndOk {
  e_sends : sends hist ns k; e_receives : receives phist n ms k; e_acks : acks_ok n ms (acklist k); e_timing : timing k }.

Lemma timing_view k k' : time_view k' = time_view k -> timing k -> timing k'.
Proof. unfold timing. by intros [= -> -> ->]. Qed.
Lemma acks_mono n n' ms ms' l : (forall i, received n ms i -> received n' ms' i) -> acks_ok n ms l -> acks_ok n' ms' l.
Proof. intros Hr Ha. eapply Forall_impl; [exact Ha|]. intros a (? & i & ? & ?). eauto. Qed.
Lemma ibound_within lo m hi : lo <= hi -> lo <= _ibound_ lo m hi <= hi.
Proof. unfold _ibound_, _imin_, _imax_. intros. repeat case_match; rewrite ?Z.leb_le, ?Z.leb_gt in *; lia. Qed.
Lemma update_ack_timing rtt k : timing k -> timing (ikcp_update_ack rtt k).
Proof.
  intros [_ [Hm Hc]]. split; [|unfold ikcp_update_ack; by case_match].
  assert (exists r, rx_rto (ikcp_update_ack rtt k) = i32 (_ibound_ (u32 (rx_minrto k)) r IKCP_RTO_MAX)) as [r ->] by (unfold ikcp_update_ack; case_match; by eexists).
  rewrite (uwrap_small 32 (rx_minrto k)) by klia. pose proof (ibound_within (rx_minrto k) r 60000). rewrite i32_small; lia.
Qed.
Lemma update_ack_other rtt k : snd_view (ikcp_update_ack rtt k) = snd_view k /\ rcv_view (ikcp_update_ack rtt k) = rcv_view k /\ acklist (ikcp_update_ack rtt k) = acklist k.
Proof. unfold ikcp_update_ack. by case_match. Qed.

Section input.
(** What was sent, what the peer sent, and what the peer received of the former. *)
Context (hist phist : list frag) (pn : nat) (pms : list nat).
Context (Hpeer : forall i, received pn pms i -> (i < length hist)%nat) (Hpn : (pn <= length hist)%nat) (Hph : Z.of_nat (length phist) < 2 ^ 31).

(** A segment leaves [snd_buf] only after the peer received it. *)
Record inv (ns : list nat) (n : nat) (ms : list nat) (k : IKCPCB) : Prop := Inv {
  i_end : end_ok hist ns phist n ms k; i_kept : forall i, (i < length hist)%nat -> i ∈ ns \/ received pn pms i }.
(** What input does not change. *)
Record same (n : nat) (ms : list nat) (k : IKCPCB) (n' : nat) (ms' : list nat) (k' : IKCPCB) : Prop := Same {
  sm_n : (n <= n')%nat; sm_received : forall i, received n ms i -> received n' ms' i;
  sm_conv : conv k' = conv k; sm_queue : snd_queue k' = snd_queue k; sm_stream : stream k' = stream k; sm_mtu : mtu k' = mtu k;
  sm_consumed : (n' - length (rcv_queue k') = n - length (rcv_queue k))%nat }.
Lemma same_refl n ms k : same n ms k n ms k.
Proof. done. Qed.
Lemma same_trans n ms k n1 ms1 k1 n2 ms2 k2 : same n ms k n1 ms1 k1 -> same n1 ms1 k1 n2 ms2 k2 -> same n ms k n2 ms2 k2.
Proof. intros [] []. constructor; [lia|auto|congruence..]. Qed.
Lemma same_view n ms k k' : snd_queue k' = snd_queue k -> (conv k', mtu k', stream k') = (conv k, mtu k, stream k) -> rcv_queue k' = rcv_queue k -> same n ms k n ms k'.
Proof. intros ? [= ? ? ?] E. constructor; [done..|by rewrite E]. Qed.

Lemma una_inv ns n ms k u w : inv ns n ms k -> (u <= pn)%nat ->
  let k' := ikcp_shrink_buf (ikcp_parse_una (Z.of_nat u) (k <| rmt_wnd := w |>)) in exists ns', inv ns' n ms k' /\ same n ms k n ms k'.
Proof.
  intros [[Hs Hr Ha Ht] Hkept] Hu k'. exists (filter (fun j => u <= j)%nat ns). split; [|by apply same_view]. split.
  - constructor; [|by eapply receives_view, Hr|done..]. apply parse_una_sends; [by eapply sends_view, Hs|lia].
  - intros i Hi. rewrite list_elem_of_filter. destruct (Hkept i Hi); [|by right]. destruct (decide (u <= i)%nat); [by left|]. right. left. lia.
Qed.
Lemma rtt_inv ns n ms k b rtt : inv ns n ms k -> let k' := if b : bool then ikcp_update_ack rtt k else k in inv ns n ms k' /\ same n ms k n ms k'.
Proof.
  intros Hk. destruct b; [|done]. destruct Hk as [[Hs Hr Ha Ht] Hkept]. destruct (update_ack_other rtt k) as (E1 & E2 & E3). split.
  - split; [|done]. constructor; [by eapply sends_view|by eapply receives_view|by rewrite E3|by apply update_ack_timing].
  - clear. unfold ikcp_update_ack. case_match; by apply same_view.
Qed.
Lemma ack_inv ns n ms k i : inv ns n ms k -> received pn pms i ->
  let k' := ikcp_shrink_buf (ikcp_parse_ack (Z.of_nat i) k) in exists ns', inv ns' n ms k' /\ same n ms k n ms k'.
Proof.
  intros [[Hs Hr Ha Ht] Hkept] Hi k'. destruct (parse_ack_sends hist ns k i Hs (Hpeer i Hi)) as (ns' & Hs' & Hsub & Hdrop).
  exists ns'. assert (rcv_view k' = rcv_view k /\ acklist k' = acklist k /\ time_view k' = time_view k /\ same n ms k n ms k') as (E1 & E2 & E3 & E4).
  { subst k'. unfold ikcp_parse_ack. case_match; (split_and!; [done..|by apply same_view]). }
  split; [|done]. split.
  - constructor; [done|by eapply receives_view|by rewrite E2|by eapply timing_view].
  - intros j Hj. destruct (Hkept j Hj) as [Hn|]; [|by right]. destruct (Hdrop j Hn) as [?| ->]; auto.
Qed.

(** A data segment of the peer is acknowledged and, when it is new, kept. *)
Definition input_push (new : IKCPSEG) (t : Z) (k : IKCPCB) : IKCPCB :=
  if _itimediff (sn new) (u32 (rcv_nxt k + rcv_wnd k)) <? 0 then
    let k := ikcp_ack_push (sn new) t k in
    if 0 <=? _itimediff (sn new) (rcv_nxt k) then ikcp_parse_data new k else k
  else k.
Lemma ack_push_view s t k : snd_view (ikcp_ack_push s t k) = snd_view k /\ rcv_view (ikcp_ack_push s t k) = rcv_view k /\ time_view (ikcp_ack_push s t k) = time_view k
  /\ acklist (ikcp_ack_push s t k) = acklist k ++ [(s, t)] /\ rcv_wnd (ikcp_ack_push s t k) = rcv_wnd k.
Proof. unfold ikcp_ack_push. by case_match. Qed.
Lemma input_push_inv ns n ms k new t i : inv ns n ms k -> ubound 32 t -> sn new = Z.of_nat i -> phist !! i = Some (item new) ->
  exists n' ms', inv ns n' ms' (input_push new t k) /\ same n ms k n' ms' (input_push new t k).
Proof.
  intros [[Hs Hr Ha Ht] Hkept] Hub Esn Hi. pose proof (lookup_lt_Some _ _ _ Hi) as Hlt. unfold input_push.
  destruct (Z.ltb_spec (_itimediff (sn new) (u32 (rcv_nxt k + rcv_wnd k))) 0) as [Hw|_]; [|by exists n, ms].
  destruct (ack_push_view (sn new) t k) as (E1 & E2 & E3 & E4 & E5). set (k1 := ikcp_ack_push (sn new) t k) in *. clearbody k1. cbn zeta.
  assert (receives phist n ms k1) as Hr1 by by eapply receives_view. assert (sends hist ns k1) as Hs1 by by eapply sends_view.
  assert (rcv_nxt k1 = rcv_nxt k) as En by by injection E2. pose proof (r_le _ _ _ _ Hr). rewrite Esn, En, (r_nxt _ _ _ _ Hr), itimediff_exact by lia.
  destruct (Z.leb_spec 0 (Z.of_nat i - Z.of_nat n)) as [Hge|Hlow].
  - destruct (parse_data_receives phist n ms k1 new i) as (n' & ms' & Hr' & Hn & Hrec & Hc); [done..| | |by rewrite E5, En|].
    { unfold rcore, got_core. by rewrite Esn, (list_lookup_total_correct _ _ _ Hi). }
    { lia. }
    destruct (parse_data_other new k1) as (E6 & E7 & E8). exists n', ms'. split; [split; [|done]|].
    + constructor; [by eapply sends_view|done| |by eapply timing_view, timing_view].
      rewrite E7, E4. apply Forall_app. split; [eapply acks_mono, Ha; intros; apply Hrec; by left|]. constructor; [|done]. split; [done|]. exists i. split; [done|].
      apply Hrec. by right.
    + injection E6. injection E1. injection E2. intros. constructor; [done|intros; apply Hrec; by left|congruence..].
  - exists n, ms. split; [split; [|done]|].
    + constructor; [done..| |by eapply timing_view]. rewrite E4. apply Forall_app. split; [done|]. constructor; [|done]. split; [done|]. exists i. split; [done|]. left. lia.
    + injection E1. injection E2. intros. constructor; try done; congruence.
Qed.

Lemma grow_cwnd_view k : snd_view (grow_cwnd k) = snd_view k /\ rcv_view (grow_cwnd k) = rcv_view k /\ time_view (grow_cwnd k) = time_view k /\ acklist (grow_cwnd k) = acklist k.
Proof. unfold grow_cwnd. repeat (case_match; cbn; try done). Qed.
Lemma inv_view ns n ms k k' : snd_view k' = snd_view k -> rcv_view k' = rcv_view k -> time_view k' = time_view k -> acklist k' = acklist k ->
  inv ns n ms k -> inv ns n ms k' /\ same n ms k n ms k'.
Proof.
  intros E1 E2 E3 E4 [[] ?]. split.
  - split; [constructor|]; [by eapply sends_view|by eapply receives_view|by rewrite E4|by eapply timing_view|done].
  - injection E1. injection E2. intros. constructor; try done; congruence.
Qed.

Lemma segment_inv ns n ms k s acc : inv ns n ms k -> wire_seg (conv k) phist pn pms s ->
  let k' := (input_segment (header_of s) (data s) acc k).2 in exists ns' n' ms', inv ns' n' ms' k' /\ same n ms k n' ms' k'.
Proof.
  intros Hk [Hok Hc Hl (u & Hu & Hun) Hb]. unfold input_segment. cbn [header_of h_una h_wnd h_cmd h_ts h_sn h_conv h_frg]. rewrite Hu.
  destruct (una_inv ns n ms k u (u16 (wnd s)) Hk Hun) as (ns1 & Hk1 & Hsm1). set (k1 := ikcp_shrink_buf _) in *.
  destruct Hb as [i Ec Es Ei|i Ec Ed Es Hr|Ec Ed].
  - rewrite Ec. change (IKCP_CMD_PUSH =? IKCP_CMD_ACK) with false. change (IKCP_CMD_PUSH =? IKCP_CMD_PUSH) with true. cbn [snd].
    set (new := Seg _ _ _ _ _ _ _ _ _ _ _ _). destruct (input_push_inv ns1 n ms k1 new (ts s) i Hk1) as (n' & ms' & Hk' & Hsm'); [by destruct Hok as (_ & _ & _ & ? & _)|done..|].
    exists ns1, n', ms'. split; [done|]. by eapply same_trans.
  - rewrite Ec, Es. change (IKCP_CMD_ACK =? IKCP_CMD_ACK) with true. cbn [snd].
    destruct (rtt_inv ns1 n ms k1 (0 <=? _itimediff (current k1) (ts s)) (_itimediff (current k1) (ts s)) Hk1) as [Hk2 Hsm2]. set (k2 := if _ : bool then _ else _) in *.
    destruct (ack_inv ns1 n ms k2 i Hk2 Hr) as (ns' & Hk' & Hsm'). exists ns', n, ms. split; [done|]. eapply same_trans; [exact Hsm1|]. by eapply same_trans.
  - exists ns1, n, ms. assert ((cmd s =? IKCP_CMD_ACK) = false /\ (cmd s =? IKCP_CMD_PUSH) = false) as [-> ->] by by destruct Ec as [-> | ->].
    case_match; [|done]. destruct (inv_view ns1 n ms k1 (k1 <| probe := Z.lor (probe k1) IKCP_ASK_TELL |>)) as [? ?]; [done..|].
    split; [done|]. by eapply same_trans.
Qed.

(** Zeros behind the segments, as forward error correction leaves them, end the loop: too
    few for a header, or a header of no known command. *)
Lemma input_loop_zeros z fuel acc k : exists rc, input_loop fuel (replicate z 0) acc k = (rc, acc, k) /\ rc <= 0.
Proof.
  destruct fuel as [|fuel]; [by exists 0|]. cbn [input_loop]. rewrite length_replicate. destruct (Z.ltb_spec (Z.of_nat z) IKCP_OVERHEAD) as [|Hz]; [by exists 0|].
  replace z with (24 + (z - 24))%nat by lia. rewrite replicate_add.
  replace (decode_header _) with (Some (Header 0 0 0 0 0 0 0 0, replicate (z - 24) 0)) by reflexivity.
  cbn [h_conv h_len h_cmd]. destruct (negb _); [by exists (-1)|]. rewrite (proj2 (Z.ltb_ge _ _)) by lia. cbn. by exists (-3).
Qed.
Lemma input_loop_inv segs z fuel ns n ms k acc : inv ns n ms k -> Forall (wire_seg (conv k) phist pn pms) segs -> (length segs <= fuel)%nat ->
  exists rc acc' k' ns' n' ms', input_loop fuel ((segs ≫= encoded) ++ replicate z 0) acc k = (rc, acc', k') /\ rc <= 0 /\ inv ns' n' ms' k' /\ same n ms k n' ms' k'.
Proof.
  revert fuel ns n ms k acc. induction segs as [|s segs IH]; intros fuel ns n ms k acc Hk Hw Hf.
  { destruct (input_loop_zeros z fuel acc k) as (rc & Hl & Hrc). by exists rc, acc, k, ns, n, ms. }
  inversion_clear Hw as [|? ? Hs Hw']. destruct fuel as [|fuel]; [cbn in Hf; lia|]. cbn [length] in Hf.
  rewrite bind_cons, <-app_assoc. unfold encoded at 1. rewrite <-app_assoc. cbn [input_loop]. set (rest := (segs ≫= encoded) ++ replicate z 0) in *.
  rewrite !length_app, encode_seg_length, (proj2 (Z.ltb_ge _ _)) by lia.
  pose proof Hs as [Hok Hc Hl _ Hb]. rewrite decode_encode_seg by done. cbn [header_of h_conv h_len h_cmd]. fold (header_of s).
  rewrite Hc, Z.eqb_refl. cbn [negb]. rewrite length_app, i32_small by lia. rewrite !(proj2 (Z.ltb_ge _ _)) by lia. cbn [orb].
  assert (known_cmd (cmd s) = true) as -> by (destruct Hb as [? -> | ? -> |[-> | ->]]; done). cbn [negb].
  rewrite Nat2Z.id, take_app_length, drop_app_length. destruct (segment_inv ns n ms k s acc Hk Hs) as (ns1 & n1 & ms1 & Hk1 & Hsm1).
  destruct (input_segment _ _ acc k) as [acc1 k1]. cbn [snd] in *. rewrite <-(sm_conv _ _ _ _ _ _ Hsm1) in Hw'.
  destruct (IH fuel ns1 n1 ms1 k1 acc1 Hk1 Hw' ltac:(lia)) as (rc & acc' & k' & ns' & n' & ms' & -> & Hrc & Hk' & Hsm'). exists rc, acc', k', ns', n', ms'.
  split_and!; [done..|]. by eapply same_trans.
Qed.

(** A datagram of the peer, with zeros behind it, is taken as a whole. *)
Lemma ikcp_input_inv bytes z ns n ms k : inv ns n ms k -> wire (conv k) phist pn pms bytes -> bytes <> [] ->
  exists rc k' ns' n' ms', ikcp_input (bytes ++ replicate z 0) k = (rc, k') /\ inv ns' n' ms' k' /\ same n ms k n' ms' k'.
Proof.
  intros Hk (segs & -> & Hw) Hne. unfold ikcp_input. destruct segs as [|s segs]; [done|]. rewrite (proj2 (Z.ltb_ge _ _)).
  2:{ rewrite bind_cons. unfold encoded. rewrite !length_app, encode_seg_length. lia. }
  assert (length (s :: segs) <= length (((s :: segs) ≫= encoded) ++ replicate z 0%Z))%nat as Hf.
  { rewrite length_app. clear. generalize (s :: segs). intros l. induction l as [|x l IH]; [cbn; lia|].
    rewrite bind_cons, length_app. unfold encoded at 1. rewrite length_app, encode_seg_length. cbn [length]. lia. }
  destruct (input_loop_inv _ z _ ns n ms k None Hk Hw Hf) as (rc & acc & k1 & ns1 & n1 & ms1 & -> & _ & Hk1 & Hsm1).
  destruct (rc <? 0); [by exists rc, k1, ns1, n1, ms1|].
  set (k2 := match acc with Some _ => _ | None => _ end). assert (inv ns1 n1 ms1 k2 /\ same n1 ms1 k1 n1 ms1 k2) as [Hk2 Hsm2].
  { subst k2. destruct acc as [[a t]|]; [|done]. destruct Hk1 as [[] ?]. split.
    - split; [|done]. constructor; [by apply parse_fastack_sends|eapply receives_view; [|done]|..]; unfold ikcp_parse_fastack; by case_match.
    - unfold ikcp_parse_fastack. case_match; by apply same_view. }
  destruct (grow_cwnd_view k2) as (E1 & E2 & E3 & E4). destruct (inv_view ns1 n1 ms1 k2 _ E1 E2 E3 E4 Hk2) as [Hk3 Hsm3].
  exists 0, (if 0 <? _itimediff (snd_una k2) (snd_una k) then grow_cwnd k2 else k2), ns1, n1, ms1. split; [done|].
  case_match; (split; [done|]); (eapply same_trans; [exact Hsm1|]); [by eapply same_trans|done].
Qed.
End input.
