(* ===== verification/KcpFlush.v ===== *)
(** * [ikcp_flush] writes whole segments into datagrams

    The output buffer never overflows, no datagram is longer than [mtu], and every
    datagram is one that [wire] allows: what the peer relies on in [ikcp_input]. *)

From S2P Require Import Prelude KcpCodec Kcp KcpSender KcpSend KcpReceiver KcpInput.

Lemma wire_app c hist n ms d s : wire c hist n ms d -> wire_seg c hist n ms s -> wire c hist n ms (d ++ encoded s).
Proof.
  intros (segs & -> & Hs) Hw. exists (segs ++ [s]). rewrite bind_app, bind_cons. cbn. rewrite app_nil_r. split; [done|]. apply Forall_app; split; [done|by constructor].
Qed.
Lemma wire_nil c hist n ms : wire c hist n ms [].
Proof. by exists []. Qed.

Section flush.
(** What this end sent and received. *)
Context (c : Z) (hist phist : list frag) (n : nat) (ms : list nat) (m : Z).
Context (Hc : ubound 32 c) (Hm : 50 <= m < 2 ^ 24) (Hn : Z.of_nat n < 2 ^ 31) (Hrec : forall i, received n ms i -> Z.of_nat i < 2 ^ 31).
Context (Hfr : Forall frag_ok hist) (Hh : Z.of_nat (length hist) < 2 ^ 31).

Definition buffered (k : IKCPCB) : Prop := mtu k = m /\ buffer k = (m + IKCP_OVERHEAD) * 3.
Definition datagram (d : list Z) : Prop := wire c hist n ms d /\ d <> [] /\ Z.of_nat (length d) <= m.
Record out_ok (w : writer) : Prop := OutOk {
  o_pending : wire c hist n ms (pending w); o_len : Z.of_nat (length (pending w)) <= m; o_sent : Forall datagram (sent w) }.

Lemma output_ok w : out_ok w -> out_ok (ikcp_output w) /\ pending (ikcp_output w) = [].
Proof.
  intros [Hp Hl Hs]. split; [|done]. constructor; cbn; [apply wire_nil|lia|]. destruct (pending w) eqn:E; [done|].
  apply Forall_app; split; [done|]. constructor; [|done]. by split_and!.
Qed.
Lemma reserve_ok need k w : out_ok w -> buffered k -> 0 <= need <= m ->
  out_ok (reserve need k w) /\ Z.of_nat (length (pending (reserve need k w))) + need <= m.
Proof.
  intros Hw [Ek _] Hneed. unfold reserve. rewrite Ek, i32_small by lia. destruct (Z.ltb_spec m (Z.of_nat (length (pending w)) + need)); [|done].
  destruct (output_ok w Hw) as [? E]. split; [done|]. rewrite E. cbn. lia.
Qed.
(** A segment is written behind the bytes that wait. *)
Lemma append_fits bytes k w : buffered k -> Z.of_nat (length (pending w) + length bytes) <= m -> append bytes k w = Some (Writer (pending w ++ bytes) (sent w)).
Proof. intros [_ Ek] Hl. unfold append. by rewrite Ek, (proj2 (Z.leb_le _ _)) by klia. Qed.
Lemma written_ok s w : out_ok w -> wire_seg c hist n ms s -> Z.of_nat (length (pending w)) + (IKCP_OVERHEAD + len s) <= m ->
  out_ok (Writer (pending w ++ encoded s) (sent w)).
Proof.
  intros [] Hs Hl. constructor; cbn [pending sent]; [by apply wire_app|unfold encoded; rewrite !length_app, encode_seg_length; klia|done].
Qed.
Lemma put_header_ok s k w : out_ok w -> buffered k -> wire_seg c hist n ms s -> data s = [] -> exists w', put_header s k w = Some w' /\ out_ok w'.
Proof.
  intros Hw Hk Hs Hd. destruct (reserve_ok IKCP_OVERHEAD k w Hw Hk) as [Hr Hl]; [klia|]. unfold put_header.
  rewrite append_fits by (done || rewrite encode_seg_length; klia). eexists. split; [done|].
  replace (ikcp_encode_seg s) with (encoded s) by (unfold encoded; by rewrite Hd, app_nil_r). apply written_ok; [done..|]. rewrite Hd. cbn [length]. lia.
Qed.

(** ** Acknowledgements and probes *)

(** The fields of the header that [ikcp_flush] shares between them. *)
Record shared_header (s : IKCPSEG) : Prop := Base {
  b_conv : seg_conv s = c; b_frg : frg s = 0; b_una : una s = Z.of_nat n; b_data : data s = []; b_ts : ubound 32 (ts s); b_sn : ubound 32 (sn s) }.
Lemma shared_header_wire s : shared_header s -> byte (cmd s) -> wire_body hist n ms s -> wire_seg c hist n ms s.
Proof.
  intros [E1 E2 E3 E4 ? ?] Hb Hw. constructor; [|done|by rewrite E4|by exists n|done].
  unfold seg_ok. rewrite E1, E2, E3, E4. split_and!; try done; cbn; unfold byte; klia.
Qed.
Lemma flush_acks_ok acks s k w : out_ok w -> buffered k -> shared_header s -> cmd s = IKCP_CMD_ACK -> acks_ok n ms acks ->
  exists s' w', flush_acks acks s k w = Some (s', w') /\ shared_header s' /\ out_ok w'.
Proof.
  revert s w. induction acks as [|[a t] acks IH]; intros s w Hw Hk Hb Hcmd Ha; [by exists s, w|].
  apply Forall_cons in Ha as [(Ht & i & Hi & Hr) Ha']. cbn [fst snd] in *. pose proof (Hrec i Hr). cbn [flush_acks]. set (s1 := s <| sn := a |> <| ts := t |>).
  assert (shared_header s1) as Hb1. { destruct Hb. constructor; try done. change (sn s1) with a. rewrite Hi. klia. }
  destruct (put_header_ok s1 k w Hw Hk) as (w1 & -> & Hw1); [|by destruct Hb|].
  { apply shared_header_wire; [done|cbn; by rewrite Hcmd|]. eapply wire_ack; [done|by destruct Hb|done..]. }
  cbn. by apply IH.
Qed.
Lemma flush_probe_ok ask cm s k w : out_ok w -> buffered k -> shared_header s -> cm = IKCP_CMD_WASK \/ cm = IKCP_CMD_WINS ->
  exists s' w', flush_probe ask cm s k w = Some (s', w') /\ shared_header s' /\ out_ok w'.
Proof.
  intros Hw Hk Hb Hcm. unfold flush_probe. case_match; [by exists s, w|]. set (s1 := s <| cmd := cm |>). assert (shared_header s1) as Hb1 by (by destruct Hb).
  destruct (put_header_ok s1 k w Hw Hk) as (w1 & -> & Hw1); [|by destruct Hb|by exists s1, w1].
  apply shared_header_wire; [done|cbn; by destruct Hcm as [-> | ->]|]. apply wire_probe; [done|by destruct Hb].
Qed.

(** ** Data *)

Lemma core_sent s i : core s = sent_core c hist i -> (i < length hist)%nat ->
  seg_conv s = c /\ cmd s = IKCP_CMD_PUSH /\ sn s = Z.of_nat i /\ hist !! i = Some (item s) /\ frag_ok (item s).
Proof.
  intros E Hi. injection E as E1 E2 E3 E4. assert (hist !! i = Some (item s)) as El.
  { rewrite (list_lookup_lookup_total_lt _ _ Hi).
    f_equal. exact (eq_sym E3). }
  split_and!; [done..|]. by eapply Forall_lookup_1.
Qed.
Lemma need_send_core resent rtomin s k st b s' st' : need_send resent rtomin s k st = (b, s', st') -> core s' = core s /\ l_out st' = l_out st.
Proof. unfold need_send. repeat case_match; intros; by simplify_eq/=. Qed.

Lemma flush_segment_ok resent rtomin wd s k st i : out_ok (l_out st) -> buffered k -> rcv_nxt k = Z.of_nat n -> ubound 32 (current k) ->
  core s = sent_core c hist i -> (i < length hist)%nat -> fits (m - IKCP_OVERHEAD) (item s) ->
  exists s' st', flush_segment resent rtomin wd s k st = Some (s', st') /\ core s' = core s /\ out_ok (l_out st').
Proof.
  intros Hw Hk Hrn Hcur Hs Hi Hfit. unfold flush_segment. destruct (need_send resent rtomin s k st) as [[b s1] st1] eqn:En.
  destruct (need_send_core _ _ _ _ _ _ _ _ En) as [E1 E2]. destruct b; [|by exists s1, st1; rewrite E2].
  set (s2 := s1 <| ts := current k |> <| wnd := wd |> <| una := rcv_nxt k |>). assert (core s2 = core s) as E3 by done.
  destruct (core_sent s2 i) as (F1 & F2 & F3 & F4 & F5 & F6); [congruence|done|]. unfold fits in *. assert (len s2 = len s) as El by by pose proof (f_equal (fun x => Z.of_nat (length x.1.2.2)) E3).
  cbn [snd item] in Hfit, F6. destruct (reserve_ok (IKCP_OVERHEAD + len s2) k (l_out st1)) as [Hr Hl]; [by rewrite E2|done|klia|]. set (w := reserve _ k _) in *.
  rewrite append_fits by (done || rewrite encode_seg_length; klia). cbn [mbind option_bind].
  rewrite append_fits; [|done|cbn [pending]; rewrite length_app, encode_seg_length; klia]. cbn [mbind option_bind pending sent].
  eexists _, _. split; [done|]. split; [done|]. cbn [l_out]. rewrite <-app_assoc. apply written_ok; [done| |done].
  constructor; [|done|klia|by exists n|by eapply wire_push]. pose proof (lookup_lt_Some _ _ _ F4).
  unfold seg_ok. rewrite F1, F2, F3. split_and!; try done; try (cbn; rewrite ?Hrn; unfold byte; klia); klia.
Qed.
Lemma flush_segments_ok resent rtomin wd segs k st ns : out_ok (l_out st) -> buffered k -> rcv_nxt k = Z.of_nat n -> ubound 32 (current k) ->
  core <$> segs = sent_core c hist <$> ns -> Forall (fun i => i < length hist)%nat ns -> Forall (fits (m - IKCP_OVERHEAD)) ((fun i => hist !!! i) <$> ns) ->
  exists segs' st', flush_segments resent rtomin wd segs k st = Some (segs', st') /\ core <$> segs' = core <$> segs /\ out_ok (l_out st').
Proof.
  intros Hw Hk Hrn Hcur. revert st ns Hw. induction segs as [|s segs IH]; intros st [|i ns] Hw Hs Hi Hfit; try done; [by exists [], st|].
  rewrite !fmap_cons in *. apply cons_inj in Hs as [Hs1 Hs2]. inversion_clear Hi as [|? ? Hi1 Hi2]. inversion_clear Hfit as [|? ? Hf1 Hf2]. cbn [flush_segments].
  destruct (flush_segment_ok resent rtomin wd s k st i) as (s' & st' & -> & Es & Hw'); [done..| |].
  { destruct (core_sent s i) as (_ & _ & _ & El & _); [done..|]. by rewrite (list_lookup_total_correct _ _ _ El) in Hf1. }
  cbn [mbind option_bind]. destruct (IH st' ns Hw' Hs2 Hi2 Hf2) as (segs' & st2 & -> & Er & Hw2). cbn. exists (s' :: segs'), st2. cbn. by rewrite Es, Er.
Qed.
End flush.

(** ** The whole of [ikcp_flush] *)

Definition set_view (k : IKCPCB) := (conv k, mtu k, buffer k, stream k, acklist k).
Lemma probe_window_view k : snd_view (probe_window k) = snd_view k /\ rcv_view (probe_window k) = rcv_view k /\ time_view (probe_window k) = time_view k
  /\ acklist (probe_window k) = acklist k.
Proof. unfold probe_window. by repeat case_match. Qed.
Lemma shrink_cwnd_view resent cw ch lost k : let k' := shrink_cwnd resent cw ch lost k in
  snd_view k' = snd_view k /\ rcv_view k' = rcv_view k /\ time_view k' = time_view k /\ acklist k' = acklist k.
Proof. unfold shrink_cwnd. cbn. by repeat case_match. Qed.
Lemma move_queue_view que cw w k : let k' := move_queue que cw w k in set_view k' = set_view k /\ rcv_view k' = rcv_view k /\ time_view k' = time_view k.
Proof. cbn. revert k. induction que as [|s que IH]; intros k; cbn; [done|]. case_match; [|done]. exact (IH (numbered w s que k)). Qed.

Lemma set_snd_buf_sends hist ns k segs x st : sends hist ns k -> core <$> segs = core <$> snd_buf k ->
  sends hist ns (k <| snd_buf := segs |> <| xmit := x |> <| state := st |>).
Proof.
  intros [] E. constructor; try done; cbn; [by rewrite E|]. apply (f_equal length) in E. rewrite !length_fmap in E. by rewrite E.
Qed.

(** Acknowledgements and probes go out whatever [hist] becomes. *)
Lemma flush_controls_ok hist phist n ms k : receives phist n ms k -> acks_ok n ms (acklist k) -> Z.of_nat (length phist) < 2 ^ 31 ->
  ubound 32 (conv k) -> 50 <= mtu k < 2 ^ 24 -> buffer k = (mtu k + IKCP_OVERHEAD) * 3 ->
  exists w k', flush_controls k = Some (w, k') /\ out_ok (conv k) hist n ms (mtu k) w /\
    snd_view k' = snd_view k /\ rcv_view k' = rcv_view k /\ time_view k' = time_view k /\ acklist k' = [].
Proof.
  intros Hr Ha Hph Hc Hm Hbuf. unfold flush_controls. set (s0 := Seg _ _ _ _ _ _ _ _ _ _ _ _). set (k1 := k <| acklist := [] |> <| ackcount := 0 |>).
  destruct (probe_window_view k1) as (V1 & V2 & V3 & V4). set (k2 := probe_window k1) in *. clearbody k2. pose proof (r_le _ _ _ _ Hr) as Hn.
  assert (forall i, received n ms i -> Z.of_nat i < 2 ^ 31) as Hrec by (intros i Hi; pose proof (received_lt _ _ _ _ _ Hr Hi); lia).
  assert (shared_header (conv k) n s0) as Hb0 by (constructor; try done; exact (r_nxt _ _ _ _ Hr)).
  destruct (flush_acks_ok (conv k) hist n ms (mtu k) Hc Hm ltac:(lia) Hrec (acklist k) s0 k (Writer [] [])) as (s1 & w1 & -> & Hb1 & Hw1);
    [by constructor; [apply wire_nil|cbn; lia|]|done..|]. cbn [mbind option_bind].
  destruct (snd_view_fields _ _ V1) as (_ & Vm & Vb & _). assert (buffered (mtu k) k2) as B by (split; [exact Vm|by rewrite <-Hbuf]).
  destruct (flush_probe_ok (conv k) hist n ms (mtu k) Hc Hm ltac:(lia) IKCP_ASK_SEND IKCP_CMD_WASK s1 k2 w1) as (s2 & w2 & -> & Hb2 & Hw2); [auto..|].
  cbn [mbind option_bind].
  destruct (flush_probe_ok (conv k) hist n ms (mtu k) Hc Hm ltac:(lia) IKCP_ASK_TELL IKCP_CMD_WINS s2 k2 w2) as (s3 & w3 & -> & Hb3 & Hw3); [auto..|].
  eexists _, _. split; [done|]. done.
Qed.

Lemma ikcp_flush_ok hist ns phist n ms k : end_ok hist ns phist n ms k -> Z.of_nat (length phist) < 2 ^ 31 ->
  exists ds k' new, ikcp_flush k = Some (ds, k') /\ (new <= length (snd_queue k))%nat /\ snd_queue k' = drop new (snd_queue k) /\
    (conv k', mtu k', stream k', rcv_queue k') = (conv k, mtu k, stream k, rcv_queue k) /\
    let hist' := hist ++ (item <$> take new (snd_queue k)) in
    end_ok hist' (ns ++ seq (length hist) new) phist n ms k' /\ Forall (datagram (conv k) hist' n ms (mtu k)) ds.
Proof.
  intros [Hs Hr Ha Ht] Hph. unfold ikcp_flush. destruct (Z.eqb_spec (updated k) 0) as [_|_].
  { exists [], k, 0%nat. cbn. rewrite !app_nil_r. split_and!; done || lia. }
  set (wd := ikcp_wnd_unused k). pose proof Hs as [Hc _ Hm Hbuf _ _ _ _ _ _ _ _ _ _]. pose proof (r_le _ _ _ _ Hr) as Hn.
  destruct (flush_controls_ok hist phist n ms k Hr Ha Hph Hc Hm Hbuf) as (w0 & k2 & E2 & _ & W1 & W2 & W3 & W4).
  set (cw0 := _imin_ (snd_wnd k2) (rmt_wnd k2)). set (cw := if nocwnd k2 =? 0 then _imin_ (cwnd k2) cw0 else cw0).
  destruct (move_queue_sends hist ns k2 (snd_queue k2) cw wd (sends_view _ _ _ _ W1 Hs) eq_refl) as (new & Hnew & Hs3 & Hq3).
  destruct (move_queue_view (snd_queue k2) cw wd k2) as (X1 & X2 & X3). destruct (snd_view_fields _ _ W1) as (Wc & Wm & Wb & Ws & Wq). rewrite Wq in *.
  set (hist' := hist ++ _) in *. destruct (flush_controls_ok hist' phist n ms k Hr Ha Hph Hc Hm Hbuf) as (w & k2' & E2' & Hw & _). rewrite E2 in E2' |- *. injection E2' as <- <-.
  cbn [mbind option_bind]. rewrite Wq. fold cw0 cw wd. set (k3 := move_queue (snd_queue k) cw wd _) in *.
  pose proof Hs3 as [_ Hmss3 _ _ _ _ Hb3 _ Hlt3 _ _ Htot3 Hfr3 Hfit3]. apply Forall_app in Hfr3 as [Hfr3 _], Hfit3 as [Hfit3 _].
  injection X1 as Xc Xm Xb Xs Xa. destruct (rcv_view_fields _ _ X2) as [Xn Xq], (rcv_view_fields _ _ W2) as [Wn Wr].
  assert (timing k3) as Ht3 by by eapply timing_view, timing_view. rewrite Hmss3, Xm, Wm in Hfit3. rewrite Xc, Wc in Hb3.
  set (resent := if 0 <? fastresend k3 then _ else _). set (rtomin := if nodelay k3 =? 0 then _ else _).
  edestruct (flush_segments_ok (conv k) hist' n ms (mtu k) Hc Hm ltac:(lia) Hfr3 ltac:(lia) resent rtomin wd (snd_buf k3) k3) as (segs & st & -> & Es & Hw');
    [exact Hw|split; congruence|rewrite Xn, Wn; apply Hr|apply Ht3|exact Hb3|exact Hlt3|exact Hfit3|].
  cbn [mbind option_bind]. set (k4 := k3 <| snd_buf := segs |> <| xmit := l_xmit st |> <| state := l_state st |>).
  destruct (shrink_cwnd_view resent cw (l_change st) (l_lost st) k4) as (Y1 & Y2 & Y3 & Y4). eexists _, _, new. split; [done|]. split; [done|].
  destruct (snd_view_fields _ _ Y1) as (Yc & Ym & _ & Ys & Yq), (rcv_view_fields _ _ Y2) as [_ Yr]. split; [by rewrite Yq|]. split.
  { rewrite Yc, Ym, Ys, Yr. cbn. congruence. }
  split; [|by eapply o_sent, output_ok, Hw']. constructor; [eapply sends_view; [exact Y1|]; by apply set_snd_buf_sends| | |by eapply timing_view].
  - eapply receives_view; [exact Y2|]. eapply receives_view; [exact X2|]. by eapply receives_view.
  - rewrite Y4. cbn. rewrite Xa, W4. constructor.
Qed.
