(* ===== verification/KcpCorrect.v ===== *)
(** * Two KCP ends over a network that loses, repeats and reorders (src/net/rudp)

    Both ends are set up as [_rudp_create_kcp] does and run any calls in any order.  Every
    datagram an end hands to the output callback stays in its [outbox]; an [Input] takes
    any datagram of the peer's outbox: one never taken is lost, one taken twice repeated.
    Zeros may be appended to it, as the error correction of rudp-fec.c does to the
    datagrams it recovers.
    An end numbers fewer than [2^31] segments, the contract of 32-bit sequence numbers
    without wrapping. *)

From S2P Require Import Prelude Interleave KcpCodec Kcp KcpSender KcpSend KcpReceiver KcpRecv KcpInput KcpFlush.

(** ** Set-up *)

Notation RUDP_DEFAULT_MTU := 1400.
Notation RUDP_DEFAULT_DEADLINK_MS := 30000.
Notation RUDP_AES_IV_SIZE := 16.
Notation RUDP_FEC_HEADER_SIZE := 8.
Inductive xylem_rudp_mode_t := XYLEM_RUDP_STREAM | XYLEM_RUDP_MESSAGE.
(** The fields the engine is set up from; whether there is a key. *)
Record xylem_rudp_opts_t := Opts { mode : xylem_rudp_mode_t; opt_mtu : Z; fec_data : Z; fec_parity : Z; timeout_ms : Z; aes_key : bool }.

Definition rudp_mtu (opts : option xylem_rudp_opts_t) : Z :=
  match opts with
  | None => RUDP_DEFAULT_MTU
  | Some o =>
      let m := if 0 <? opt_mtu o then i32 (opt_mtu o) else RUDP_DEFAULT_MTU in
      let m := if (0 <? fec_data o) && (0 <? fec_parity o) then m - RUDP_FEC_HEADER_SIZE else m in
      if aes_key o then m - RUDP_AES_IV_SIZE else m
  end.
Definition with_mode (opts : option xylem_rudp_opts_t) (kcp : IKCPCB) : IKCPCB :=
  match opts with Some o => match mode o with XYLEM_RUDP_STREAM => kcp <| stream := 1 |> | XYLEM_RUDP_MESSAGE => kcp end | None => kcp end.
Definition _rudp_create_kcp (conv : Z) (opts : option xylem_rudp_opts_t) : IKCPCB :=
  let kcp := ikcp_create conv in
  let kcp := ikcp_nodelay 1 10 2 1 kcp in
  let kcp := ikcp_wndsize 32 128 kcp in
  let kcp := with_mode opts kcp in
  let kcp := (ikcp_setmtu (rudp_mtu opts) kcp).2 in
  let t := match opts with Some o => if 0 <? timeout_ms o then timeout_ms o else RUDP_DEFAULT_DEADLINK_MS | None => RUDP_DEFAULT_DEADLINK_MS end in
  let kcp := kcp <| dead_link := u32 (t / 10) |> in
  if dead_link kcp =? 0 then kcp <| dead_link := 1 |> else kcp.

(** ** The calls of one end *)

(** [accepted] is what [ikcp_send] took, [delivered] what [ikcp_recv] gave; [overflow]
    records a write past the output buffer. *)
Record peer := Peer { kcb : IKCPCB; outbox : list (list Z); accepted : list (list Z); delivered : list (list Z); overflow : bool }.
Inductive act :=
  | Send (bytes : list Z) | Recv (len : Z) | Input (i zeros : nat) | Flush | Update (cur : Z)
  | NoDelay (nd i resend nc : Z) | WndSize (sndwnd rcvwnd : Z) | Interval (i : Z).

Definition with_kcb (k : IKCPCB) (p : peer) : peer := Peer k (outbox p) (accepted p) (delivered p) (overflow p).
Definition flushed (r : option (list (list Z) * IKCPCB)) (p : peer) : peer :=
  match r with
  | Some (ds, k) => Peer k (outbox p ++ ds) (accepted p) (delivered p) (overflow p)
  | None => Peer (kcb p) (outbox p) (accepted p) (delivered p) true
  end.
(** [None] where a call is outside the contract or there is no such datagram. *)
Definition act_step (a : act) (me other : peer) : option peer :=
  let k := kcb me in
  match a with
  | Send bytes =>
      if (snd_nxt k + Z.of_nat (length (snd_queue k)) + 128 <? 2 ^ 31) && (Z.of_nat (length bytes) <? 2 ^ 31) then
        let '(rc, k') := ikcp_send bytes (Z.of_nat (length bytes)) k in
        Some (Peer k' (outbox me) (if rc <? 0 then accepted me else accepted me ++ [take (Z.to_nat rc) bytes]) (delivered me) (overflow me))
      else None
  | Recv len =>
      let '(rc, bytes, k') := ikcp_recv len k in
      Some (Peer k' (outbox me) (accepted me) (if (rc <? 0) || (len <? 0) then delivered me else delivered me ++ [bytes]) (overflow me))
  | Input i zeros => d ← outbox other !! i; Some (with_kcb (ikcp_input (d ++ replicate zeros 0) k).2 me)
  | Flush => Some (flushed (ikcp_flush k) me)
  | Update cur => Some (flushed (ikcp_update (u32 cur) k) me)
  | NoDelay nd i resend nc => Some (with_kcb (ikcp_nodelay nd i resend nc k) me)
  | WndSize sndwnd rcvwnd => Some (with_kcb (ikcp_wndsize sndwnd rcvwnd k) me)
  | Interval i => Some (with_kcb (ikcp_interval i k) me)
  end.

Record net := Net { left : peer; right : peer }.
Definition start (conv : Z) (oa ob : option xylem_rudp_opts_t) : net :=
  Net (Peer (_rudp_create_kcp conv oa) [] [] [] false) (Peer (_rudp_create_kcp conv ob) [] [] [] false).
Definition net_step (l : bool * act) (s : net) : option net :=
  if l.1 then (fun p => Net p (right s)) <$> act_step l.2 (left s) (right s) else (fun p => Net (left s) p) <$> act_step l.2 (right s) (left s).

(** ** The invariant *)

(** What an end numbered, what waits for an acknowledgement, what it received, the messages
    it sends, and how many of the peer's messages left its queue. *)
Record ghost := Ghost { g_hist : list frag; g_ns : list nat; g_n : nat; g_ms : list nat; g_gs : list (list frag); g_j : nat }.

Section side.
Context (c m st : Z).
Record side_ok (p : peer) (g g' : ghost) : Prop := SideOk {
  so_fixed : conv (kcb p) = c /\ mtu (kcb p) = m /\ stream (kcb p) = st;
  so_safe : overflow p = false;
  so_end : end_ok (g_hist g) (g_ns g) (g_hist g') (g_n g) (g_ms g) (kcb p);
  so_out : Forall (datagram c (g_hist g) (g_n g) (g_ms g) m) (outbox p);
  so_kept : forall i, (i < length (g_hist g))%nat -> i ∈ g_ns g \/ received (g_n g') (g_ms g') i;
  so_tagged : tagged (g_gs g) (g_hist g ++ (item <$> snd_queue (kcb p)));
  so_bytes : payload (concat (g_gs g)) = concat (accepted p);
  so_messages : st = 0 -> payload <$> g_gs g = accepted p;
  so_consumed : consumed (g_gs g') (g_j g) (g_n g) (kcb p);
  so_delivered : delivered p = payload <$> take (g_j g) (g_gs g') }.

(** How the ghosts of an end change when it moves. *)
Record advances (g g1 : ghost) : Prop := Advances {
  ad_hist : exists more, g_hist g1 = g_hist g ++ more;
  ad_n : (g_n g <= g_n g1)%nat;
  ad_received : forall i, received (g_n g) (g_ms g) i -> received (g_n g1) (g_ms g1) i;
  ad_gs : (length (g_gs g) <= length (g_gs g1))%nat;
  ad_stable : forall j, (j <= length (g_gs g))%nat -> (length (concat (take j (g_gs g))) <= length (g_hist g))%nat -> take j (g_gs g1) = take j (g_gs g) }.
End side.

(** The other end does not notice. *)
Lemma side_advances c m st p g g' g1' : side_ok c m st p g g' -> advances g' g1' -> side_ok c m st p g g1'.
Proof.
  intros [] [[more Eh] Hn Hr Hg Hst]. destruct so_consumed0 as [Hj Hc]. destruct so_end0 as [Hs Hrc Ha Ht].
  assert (take (g_j g) (g_gs g1') = take (g_j g) (g_gs g')) as Et by (apply Hst; [done|]; rewrite <-Hc; pose proof (r_le _ _ _ _ Hrc); lia).
  constructor; try done.
  - constructor; try done. rewrite Eh. by apply receives_more.
  - intros i Hi. destruct (so_kept0 i Hi); auto.
  - split; [lia|]. by rewrite Et.
  - by rewrite Et.
Qed.

(** ** Every call keeps it *)

Section calls.
Context (c m st m' st' : Z) (me other : peer) (g g' : ghost).
Context (Hme : side_ok c m st me g g') (Hother : side_ok c m' st' other g' g).

Lemma peer_facts : Z.of_nat (length (g_hist g')) < 2 ^ 31 /\ Forall frag_ok (g_hist g') /\
  (forall i, received (g_n g') (g_ms g') i -> (i < length (g_hist g))%nat) /\ (g_n g' <= length (g_hist g))%nat.
Proof.
  destruct Hother as [_ _ [Hs Hr _ _] _ _ _ _ _ _ _]. pose proof (s_total _ _ _ Hs). pose proof (s_frags _ _ _ Hs) as [? _]%Forall_app.
  split_and!; [lia|done|intros i; by eapply received_lt|by destruct Hr].
Qed.

Lemma send_ok bytes rc k' : snd_nxt (kcb me) + Z.of_nat (length (snd_queue (kcb me))) + 128 < 2 ^ 31 -> Z.of_nat (length bytes) < 2 ^ 31 ->
  ikcp_send bytes (Z.of_nat (length bytes)) (kcb me) = (rc, k') ->
  exists g1, advances g g1 /\
    side_ok c m st (Peer k' (outbox me) (if rc <? 0 then accepted me else accepted me ++ [take (Z.to_nat rc) bytes]) (delivered me) (overflow me)) g1 g'.
Proof.
  intros Hroom Hlen E. destruct Hme as [(Ec & Em & Es) Hsafe [Hs Hr Ha Ht] Ho Hk Htag Hb Hmsg Hc Hd].
  rewrite (s_nxt _ _ _ Hs) in Hroom. destruct (ikcp_send_sends (g_hist g) (g_ns g) (kcb me) (g_gs g) bytes rc k') as (Hs' & Ev & Est & gs' & [Ht' Hstab Hp] & Hgl & Hm);
    [done..|unfold room; lia|done|done|]. injection Ev as V1 V2 V3 V4 V5 V6 V7 V8 V9 V10 V11.
  exists (Ghost (g_hist g) (g_ns g) (g_n g) (g_ms g) gs' (g_j g)). split; [by constructor; [exists []; rewrite app_nil_r|..]|].
  constructor; cbn [kcb outbox accepted delivered overflow g_hist g_ns g_n g_ms g_gs g_j]; try done.
  - split_and!; congruence.
  - constructor; [done|eapply receives_view, Hr; unfold rcv_view; congruence|by rewrite V8|eapply timing_view, Ht; unfold time_view; congruence].
  - rewrite Hp, Hb. destruct (Z.ltb_spec rc 0) as [Hneg|_]; [|by rewrite concat_app; cbn; rewrite app_nil_r].
    replace (Z.to_nat rc) with 0%nat by lia. by rewrite take_0, app_nil_r.
  - intros H0. rewrite H0 in Es. destruct (Hm Es) as [(-> & -> & _)|(-> & gm & -> & Hpg)]; [by apply Hmsg|].
    rewrite (proj2 (Z.ltb_ge _ _)) by lia. rewrite Nat2Z.id, take_ge, fmap_app, (Hmsg H0) by done. cbn. by rewrite Hpg.
  - destruct Hc as [? ?]. split; [done|]. by rewrite V7.
Qed.

Lemma recv_ok len rc bytes k' : ikcp_recv len (kcb me) = (rc, bytes, k') ->
  exists g1, advances g g1 /\
    side_ok c m st (Peer k' (outbox me) (accepted me) (if (rc <? 0) || (len <? 0) then delivered me else delivered me ++ [bytes]) (overflow me)) g1 g'.
Proof.
  intros E. destruct peer_facts as (Hh & Hfr & Hpr & Hpn). destruct Hme as [(Ec & Em & Es) Hsafe [Hs Hr Ha Ht] Ho Hk Htag Hb Hmsg Hc Hd].
  destruct (ikcp_recv_receives _ _ _ _ _ _ _ _ _ _ _ Hr Hh Hfr (so_tagged _ _ _ _ _ _ Hother) Hc E) as [(Hrc & -> & _)|(Hrc & _ & (gm & Hgj & ->) & E1 & E2 & E3 & n' & ms' & Hr' & Hn & Hrec & Hc')].
  { exists g. split; [by constructor; [exists []; rewrite app_nil_r|..]|]. rewrite (proj2 (Z.ltb_lt _ _)) by done. by constructor. }
  rewrite (proj2 (Z.ltb_ge rc 0)) by lia. cbn [orb]. destruct (snd_view_fields _ _ E1) as (F1 & F2 & _ & F4 & F5).
  exists (Ghost (g_hist g) (g_ns g) n' ms' (g_gs g) (if len <? 0 then g_j g else S (g_j g))).
  split; [constructor; [exists []; by rewrite app_nil_r|done|by intros i; apply Hrec|done..]|].
  constructor; cbn [kcb outbox accepted delivered overflow g_hist g_ns g_n g_ms g_gs g_j]; try done.
  - split_and!; congruence.
  - constructor; [by eapply sends_view|done|rewrite E2; eapply acks_mono, Ha; intros i; apply Hrec|by eapply timing_view].
  - eapply Forall_impl; [exact Ho|]. intros d (Hw & ? & ?). split_and!; [|done..]. rewrite <-(app_nil_r (g_hist g)).
    eapply wire_mono, Hw; [done|intros i; apply Hrec].
  - by rewrite F5.
  - rewrite Hd. case_match; [done|]. by rewrite (take_S_r _ _ gm Hgj), fmap_app.
Qed.

Lemma input_ok d z : d ∈ outbox other -> exists g1, advances g g1 /\ side_ok c m st (with_kcb (ikcp_input (d ++ replicate z 0) (kcb me)).2 me) g1 g'.
Proof.
  intros Hin. destruct peer_facts as (Hh & Hfr & Hpr & Hpn). pose proof (so_out _ _ _ _ _ _ Hother) as Hout. apply (proj1 (Forall_forall _ _) Hout) in Hin as (Hw & Hne & _).
  destruct Hme as [(Ec & Em & Es) Hsafe He Ho Hk Htag Hb Hmsg [Hj Hc] Hd]. rewrite <-Ec in Hw.
  destruct (ikcp_input_inv (g_hist g) (g_hist g') (g_n g') (g_ms g') Hpr Hpn Hh d z (g_ns g) (g_n g) (g_ms g) (kcb me)) as (rc & k' & ns' & n' & ms' & -> & [He' Hk'] & []);
    [by split|done..|]. cbn [snd].
  exists (Ghost (g_hist g) ns' n' ms' (g_gs g) (g_j g)). split; [constructor; [exists []; by rewrite app_nil_r|done..]|].
  constructor; cbn [with_kcb kcb outbox accepted delivered overflow g_hist g_ns g_n g_ms g_gs g_j]; try done.
  - split_and!; congruence.
  - eapply Forall_impl; [exact Ho|]. intros x (? & ? & ?). split_and!; [|done..]. rewrite <-(app_nil_r (g_hist g)). by eapply wire_mono.
  - by rewrite sm_queue.
  - split; [done|]. by rewrite sm_consumed.
Qed.

(** The clock and the settings change only what the invariant does not say. *)
Lemma settings_ok k : snd_view k = snd_view (kcb me) -> rcv_view k = rcv_view (kcb me) -> acklist k = acklist (kcb me) -> timing k ->
  side_ok c m st (with_kcb k me) g g'.
Proof.
  intros E1 E2 E3 Ht'. destruct Hme as [(Ec & Em & Es) Hsafe [Hs Hr Ha Ht] Ho Hk Htag Hb Hmsg [Hj Hc] Hd].
  destruct (snd_view_fields _ _ E1) as (F1 & F2 & _ & F4 & F5). destruct (rcv_view_fields _ _ E2) as (F6 & F7).
  constructor; try done; cbn [with_kcb kcb].
  - split_and!; congruence.
  - constructor; [by eapply sends_view|by eapply receives_view|by rewrite E3|done].
  - by rewrite F5.
  - split; [done|]. by rewrite F7.
Qed.
End calls.

Lemma advances_refl g : advances g g.
Proof. constructor; [exists []; by rewrite app_nil_r|done..]. Qed.

Lemma flush_ok c m st m' st' me other g g' : side_ok c m st me g g' -> side_ok c m' st' other g' g ->
  exists g1, advances g g1 /\ side_ok c m st (flushed (ikcp_flush (kcb me)) me) g1 g'.
Proof.
  intros Hme Hother. destruct (peer_facts _ _ _ _ _ _ Hother) as (Hh & _). destruct Hme as [(Ec & Em & Es) Hsafe He Ho Hk Htag Hb Hmsg Hc Hd].
  destruct (ikcp_flush_ok _ _ _ _ _ _ He Hh) as (ds & k' & new & -> & Hnew & Hq & Ev & He' & Hds). injection Ev as V1 V2 V3 V4. cbn zeta in *.
  set (hist' := g_hist g ++ (item <$> take new _)) in *. exists (Ghost hist' (g_ns g ++ seq (length (g_hist g)) new) (g_n g) (g_ms g) (g_gs g) (g_j g)).
  split; [constructor; [by eexists|done..]|]. constructor; cbn [flushed kcb outbox accepted delivered overflow g_hist g_ns g_n g_ms g_gs g_j]; try done.
  - split_and!; congruence.
  - apply Forall_app. split; [|by rewrite <-Ec, <-Em]. eapply Forall_impl; [exact Ho|]. intros x (? & ? & ?). split_and!; [|done..]. by eapply wire_mono.
  - intros i Hi. subst hist'. rewrite length_app, length_fmap, length_take in Hi. rewrite elem_of_app, elem_of_seq.
    destruct (decide (i < length (g_hist g))%nat) as [Hlt|]; [|left; right; lia]. destruct (Hk i Hlt); auto.
  - subst hist'. by rewrite Hq, <-app_assoc, <-fmap_app, take_drop.
  - destruct Hc as [? ?]. split; [done|]. by rewrite V4.
Qed.

Lemma kcp_update_ok c m st m' st' me other g g' cur : side_ok c m st me g g' -> side_ok c m' st' other g' g ->
  exists g1, advances g g1 /\ side_ok c m st (flushed (ikcp_update (u32 cur) (kcb me)) me) g1 g'.
Proof.
  intros Hme Hother. unfold ikcp_update. set (k1 := (kcb me) <| current := u32 cur |>).
  set (k2 := if updated k1 =? 0 then _ else _). assert (snd_view k2 = snd_view (kcb me) /\ rcv_view k2 = rcv_view (kcb me) /\ acklist k2 = acklist (kcb me) /\ timing k2) as (E1 & E2 & E3 & E4).
  { pose proof (e_timing _ _ _ _ _ _ (so_end _ _ _ _ _ _ Hme)) as (? & ? & _). assert (timing k1) by (split; [done|]; split; [done|]; apply uwrap_bound; lia).
    subst k2. by case_match. }
  clearbody k2. clear k1. set (slap := _itimediff _ _). clearbody slap.
  set (r := if _ || _ then _ else _). destruct r as [slap' k3] eqn:Er.
  assert (snd_view k3 = snd_view (kcb me) /\ rcv_view k3 = rcv_view (kcb me) /\ acklist k3 = acklist (kcb me) /\ timing k3) as (F1 & F2 & F3 & F4).
  { subst r. destruct (_ || _); injection Er as <- <-; done. }
  clear r Er. destruct (0 <=? slap').
  - set (k4 := if 0 <=? _ then _ else _).
    assert (side_ok c m st (with_kcb k4 me) g g') as Hs by (subst k4; case_match; by apply settings_ok).
    destruct (flush_ok _ _ _ _ _ _ _ _ _ Hs Hother) as (g1 & ? & Hs1). exists g1. split; [done|]. cbn [with_kcb kcb] in Hs1.
    destruct (ikcp_flush k4) as [[ds k5]|]; cbn in *; [done|]. by apply so_safe in Hs1.
  - exists g. split; [apply advances_refl|]. cbn [flushed]. rewrite app_nil_r. by apply settings_ok.
Qed.

Lemma act_step_ok a c m st m' st' me me' other g g' : side_ok c m st me g g' -> side_ok c m' st' other g' g -> act_step a me other = Some me' ->
  exists g1, advances g g1 /\ side_ok c m st me' g1 g'.
Proof.
  intros Hme Hother. pose proof (e_timing _ _ _ _ _ _ (so_end _ _ _ _ _ _ Hme)) as Ht. destruct a; cbn.
  - case_match eqn:Eg; [|done]. apply andb_true_iff in Eg as [H1%Z.ltb_lt H2%Z.ltb_lt]. destruct (ikcp_send _ _ _) as [rc k'] eqn:E. intros [= <-]. by eapply send_ok.
  - destruct (ikcp_recv len (kcb me)) as [[rc bytes] k'] eqn:E. intros [= <-]. by eapply recv_ok.
  - intros (d & Hd & [= <-])%bind_Some. eapply input_ok; [done..|]. by eapply list_elem_of_lookup_2.
  - intros [= <-]. by eapply flush_ok.
  - intros [= <-]. by eapply kcp_update_ok.
  - intros [= <-]. exists g. split; [apply advances_refl|]. eapply settings_ok; [done|..]; unfold ikcp_nodelay; repeat case_match; try done.
    all: destruct Ht as (? & ? & ?); repeat split; cbn; klia.
  - intros [= <-]. exists g. split; [apply advances_refl|]. eapply settings_ok; [done|..]; unfold ikcp_wndsize; by repeat case_match.
  - intros [= <-]. exists g. split; [apply advances_refl|]. eapply settings_ok; [done|..]; done.
Qed.

(** ** Reliability *)

Lemma create_view conv opts : rudp_mtu opts < 2 ^ 24 -> exists m,
  let k := _rudp_create_kcp conv opts in
  snd_view k = (conv, m, m - IKCP_OVERHEAD, (m + IKCP_OVERHEAD) * 3, 0, 0, [], [], stream k, 0, 0) /\ 50 <= m < 2 ^ 24 /\
  rcv_view k = (0, [], 0, 0, []) /\ acklist k = [] /\ time_view k = (IKCP_RTO_DEF, IKCP_RTO_NDL, 0).
Proof.
  intros Hm. unfold _rudp_create_kcp. set (m := rudp_mtu opts) in *. set (k1 := with_mode opts _).
  assert (snd_view k1 = (conv, 1400, 1400 - IKCP_OVERHEAD, (1400 + IKCP_OVERHEAD) * 3, 0, 0, [], [], stream k1, 0, 0) /\
    rcv_view k1 = (0, [], 0, 0, []) /\ acklist k1 = [] /\ time_view k1 = (IKCP_RTO_DEF, IKCP_RTO_NDL, 0)) as (V1 & V2 & V3 & V4).
  { subst k1. destruct opts as [[[] ? ? ? ? ?]|]; vm_compute; done. }
  clearbody k1 m. unfold ikcp_setmtu. set (t := match opts with Some _ => _ | None => _ end). clearbody t.
  destruct (Z.ltb_spec m 50); cbn [orb snd].
  { exists 1400. destruct (_ =? _); (split; [exact V1|]); (split; [lia|]); done. }
  destruct (Z.ltb_spec m IKCP_OVERHEAD); cbn [snd].
  { exists 1400. destruct (_ =? _); (split; [exact V1|]); (split; [lia|]); done. }
  exists m. injection V1 as F1 _ _ _ F2 F3 F4 F5 F6 F7. unfold snd_view. 
  destruct (_ =? _); (split; [cbn; congruence|]); (split; [lia|]); done.
Qed.
Lemma rudp_create_ok conv opts (k := _rudp_create_kcp conv opts) :
  ubound 32 conv -> rudp_mtu opts < 2 ^ 24 -> side_ok conv (mtu k) (stream k) (Peer k [] [] [] false) (Ghost [] [] 0 [] [] 0) (Ghost [] [] 0 [] [] 0).
Proof.
  intros Hc Hm. destruct (create_view conv opts Hm) as (m & E1 & E2 & E3 & E4 & E5). fold k in E1, E3, E4, E5. clearbody k.
  injection E1 as F1 F2 F3 F4 F5 F6 F7 F8 F9 F10. injection E3 as G1 G2 G3 G4 G5. injection E5 as T1 T2 T3.
  constructor; cbn [kcb outbox accepted delivered overflow g_hist g_ns g_n g_ms g_gs g_j]; try done.
  - constructor; [|by constructor; rewrite ?G1, ?G2, ?G3, ?G4, ?G5; try constructor|by rewrite E4; constructor|unfold timing; by rewrite T1, T2, T3].
    constructor; rewrite ?F1, ?F2, ?F3, ?F4, ?F5, ?F6, ?F7, ?F8, ?F9, ?F10; try done; constructor.
  - cbn. lia.
  - by rewrite F8.
Qed.

(** What [snd] promises about what it sends to [rcv]. *)
Record reliable (snd rcv : peer) : Prop := Reliable {
  rl_buffer : overflow snd = false;
  rl_datagrams : Forall (fun d => d <> [] /\ Z.of_nat (length d) <= mtu (kcb snd)) (outbox snd);
  rl_bytes : concat (delivered rcv) `prefix_of` concat (accepted snd);
  rl_messages : stream (kcb snd) = 0 -> delivered rcv `prefix_of` accepted snd;
  rl_kept : forall i, 0 <= i < snd_nxt (kcb snd) -> i ∈ sn <$> snd_buf (kcb snd) \/ i < rcv_nxt (kcb rcv) \/ i ∈ sn <$> rcv_buf (kcb rcv);
  rl_complete : snd_buf (kcb snd) = [] -> snd_queue (kcb snd) = [] -> rcv_buf (kcb rcv) = [] -> rcv_queue (kcb rcv) = [] ->
    concat (delivered rcv) = concat (accepted snd) /\ (stream (kcb snd) = 0 -> delivered rcv = accepted snd);
  rl_rto : IKCP_RTO_NDL <= rx_rto (kcb snd) <= IKCP_RTO_MAX;
  rl_waitsnd : ikcp_waitsnd (kcb snd) = Z.of_nat (length (snd_buf (kcb snd)) + length (snd_queue (kcb snd))) }.

Lemma payload_concat gs : payload (concat gs) = concat (payload <$> gs).
Proof. induction gs as [|g gs IH]; [done|]. cbn. by rewrite payload_app, IH. Qed.
Lemma message_ne gs : Forall message gs -> concat gs = [] -> gs = [].
Proof. destruct 1 as [|g gs [Hg _] _]; [done|]. intros [-> _]%app_eq_nil. done. Qed.

Section reliable.
Context (c m st m' st' : Z) (snd rcv : peer) (g g' : ghost).
Context (Hsnd : side_ok c m st snd g g') (Hrcv : side_ok c m' st' rcv g' g).

(** When nothing waits anywhere, every message has left the queue of the receiver. *)
Lemma all_consumed : snd_buf (kcb snd) = [] -> snd_queue (kcb snd) = [] -> rcv_buf (kcb rcv) = [] -> rcv_queue (kcb rcv) = [] ->
  take (g_j g') (g_gs g) = g_gs g.
Proof.
  intros E1 E2 E3 E4. destruct Hsnd as [_ _ [Hs _ _ _] _ Hk [Htag Hmsg] _ _ _ _], Hrcv as [_ _ [_ Hr _ _] _ _ _ _ _ [Hj Hc] _].
  pose proof (s_buf _ _ _ Hs) as Eb. pose proof (r_buf _ _ _ _ Hr) as Er. rewrite E1 in Eb. rewrite E3 in Er. symmetry in Eb, Er.
  apply fmap_nil_inv in Eb, Er. rewrite Eb, Er in *. pose proof (r_le _ _ _ _ Hr) as Hle. rewrite E2, E4 in *. cbn in Hc, Htag. rewrite app_nil_r in Htag.
  assert (length (g_hist g) <= g_n g')%nat as Hn.
  { destruct (decide (g_n g' < length (g_hist g))%nat) as [Hlt|]; [|lia]. destruct (Hk (g_n g') Hlt) as [Hx|[Hx|Hx]]; [set_solver|lia|set_solver]. }
  assert (concat (drop (g_j g') (g_gs g)) = []) as Ed.
  { apply nil_length_inv. apply (f_equal length) in Htag. rewrite <-(take_drop (g_j g') (g_gs g)), concat_app, length_app in Htag. lia. }
  apply message_ne in Ed; [|by apply Forall_drop]. by rewrite <-(take_drop (g_j g') (g_gs g)) at 2; rewrite Ed, app_nil_r.
Qed.

Lemma side_reliable : reliable snd rcv.
Proof.
  pose proof all_consumed as Hall. pose proof Hsnd as [(Ec & Em & Es) Hsafe [Hs _ _ Ht] Ho Hk Htag Hb Hmsg _ _]. pose proof Hrcv as [_ _ [_ Hr _ _] _ _ _ _ _ _ Hd].
  assert (take (g_j g') (g_gs g) `prefix_of` g_gs g) as [rest Hpre] by apply prefix_take.
  remember (take (g_j g') (g_gs g)) as front eqn:Efront. clear Efront. constructor.
  - done.
  - eapply Forall_impl; [exact Ho|]. intros d (_ & ? & ?). by rewrite Em.
  - rewrite Hd, <-Hb, payload_concat, Hpre, fmap_app, concat_app. by eexists.
  - intros H0. rewrite Es in H0. rewrite Hd, <-(Hmsg H0), Hpre, fmap_app. by eexists.
  - intros i Hi. rewrite (s_nxt _ _ _ Hs) in Hi. destruct (Hk (Z.to_nat i)) as [Hn|[Hn|Hn]]; [lia|left|right; left|right; right].
    + rewrite (core_sn _ _ _ _ (s_buf _ _ _ Hs)). apply list_elem_of_fmap. exists (Z.to_nat i). split; [lia|done].
    + rewrite (r_nxt _ _ _ _ Hr). lia.
    + assert (sn <$> rcv_buf (kcb rcv) = Z.of_nat <$> g_ms g') as -> by exact (rcore_sn _ _ _ (r_buf _ _ _ _ Hr)).
      apply list_elem_of_fmap. exists (Z.to_nat i). split; [lia|done].
  - intros E1 E2 E3 E4. rewrite Hd, (Hall E1 E2 E3 E4), <-payload_concat. split; [done|]. intros H0. apply Hmsg. congruence.
  - by destruct Ht.
  - pose proof (increasing_length _ _ (s_incr _ _ _ Hs) (s_lt _ _ _ Hs)). pose proof (f_equal length (s_buf _ _ _ Hs)) as El. rewrite !length_fmap in El.
    pose proof (s_total _ _ _ Hs). unfold ikcp_waitsnd. rewrite (s_nbuf _ _ _ Hs), (s_nque _ _ _ Hs), uwrap_small, i32_small by klia. lia.
Qed.
End reliable.

(** C6: Two ends of a conversation, set up by [_rudp_create_kcp], over a network that loses,
    repeats and reorders datagrams and may append zeros.  Whatever calls are made in whatever order, in both
    directions: what [ikcp_recv] returned is a prefix of what [ikcp_send] accepted, message
    by message unless the sender is in streaming mode; a segment is dropped by the sender
    only after the receiver has it; when all four queues of a direction are empty
    everything accepted was delivered; the output buffer is never overrun and no datagram
    exceeds the mtu; the retransmission timeout stays between 30 and 60000 milliseconds. *)
Theorem kcp_reliable conv oa ob ls s : ubound 32 conv -> rudp_mtu oa < 2 ^ 24 -> rudp_mtu ob < 2 ^ 24 ->
  run net_step ls (start conv oa ob) = Some s -> reliable (left s) (right s) /\ reliable (right s) (left s).
Proof.
  intros Hc Ha Hb Hrun. set (ka := _rudp_create_kcp conv oa). set (kb := _rudp_create_kcp conv ob).
  assert (exists g g', side_ok conv (mtu ka) (stream ka) (left s) g g' /\ side_ok conv (mtu kb) (stream kb) (right s) g' g) as (g & g' & Hl & Hr).
  { revert Hrun. apply (run_invariant net_step (fun s => exists g g', side_ok _ _ _ (left s) g g' /\ side_ok _ _ _ (right s) g' g)).
    - intros [[] a] s0 s1 (g & g' & Hl & Hr); unfold net_step; cbn; intros (p & Hp & ->)%fmap_Some; cbn.
      + destruct (act_step_ok _ _ _ _ _ _ _ _ _ _ _ Hl Hr Hp) as (g1 & Had & Hl1). exists g1, g'. split; [done|]. by eapply side_advances.
      + destruct (act_step_ok _ _ _ _ _ _ _ _ _ _ _ Hr Hl Hp) as (g1 & Had & Hr1). exists g, g1. split; [by eapply side_advances|done].
    - eexists _, _. split; by apply rudp_create_ok. }
  split; by eapply side_reliable.
Qed.
(** Two messages in three segments; the first datagrams are lost, the last one is taken first and twice. *)
Definition demo_opts : option xylem_rudp_opts_t := Some (Opts XYLEM_RUDP_MESSAGE 60 0 0 0 false).
Definition demo_calls : list (bool * act) :=
  [(true, Send (Z.of_nat <$> seq 0 50)); (true, Update 1000); (true, Send [7; 8]); (true, Update 1300); (false, Input 4 0); (false, Input 2 30); (false, Input 4 0);
   (false, Input 3 0); (false, Update 1300); (false, Recv 100); (false, Recv 100); (true, Input 1 0); (true, Input 0 0)].
Lemma kcp_reliable_witness : exists s, run net_step demo_calls (start 5 demo_opts demo_opts) = Some s /\
  delivered (right s) = [Z.of_nat <$> seq 0 50; [7; 8]] /\ reliable (left s) (right s) /\ reliable (right s) (left s).
Proof.
  assert (forall s, run net_step demo_calls (start 5 demo_opts demo_opts) = Some s -> reliable (left s) (right s) /\ reliable (right s) (left s)) as H.
  { intros s. apply (kcp_reliable 5 demo_opts demo_opts demo_calls s); [done|done|done]. }
  eexists. split; [vm_compute; reflexivity|]. split; [vm_compute; reflexivity|]. apply H. vm_compute. reflexivity.
Defined.

(** ** Two ways to misuse the engine *)

(** [ikcp_setmtu] makes the output buffer smaller than a segment that waits already: the next
    flush writes past its end. *)
Lemma setmtu_overruns :
  let k := (ikcp_send (replicate 1376 0) 1376 (ikcp_create 5)).2 in
  let k := (ikcp_setmtu 50 k).2 in
  ikcp_update 100 (k <| nocwnd := 1 |>) = None.
Proof. vm_compute. reflexivity. Qed.

(** In streaming mode a long buffer is taken in part when the last segment has room, and the
    return value tells; [xylem_rudp_write] only tests that it is not negative. *)
Lemma stream_send_partial :
  let k := _rudp_create_kcp 5 (Some (Opts XYLEM_RUDP_STREAM 50 0 0 0 false)) in
  let k := (ikcp_send (replicate 10 0) 10 k).2 in
  (ikcp_send (replicate 4000 1) 4000 k).1 = 16.
Proof. vm_compute. reflexivity. Qed.
